(* ===== verification/_CoqProject ===== *)
-Q . S2P
Prelude.v
BTree.v
Codec.v
Errors.v
Paths.v
Disk.v
Float64.v
Retention.v
Historian.v
HistoryCleanup.v
EntryIndex.v
Allocation.v
PageFormat.v
Metadata.v
MetadataWriter.v
Shard.v
Writer.v
DiskCache.v
Recovery.v
Reopen.v
MetadataTick.v
Header.v
Persist.v
Admission.v
Uring.v
ReadWait.v
ReadBuffers.v
Shutdown.v
File.v
FileOpen.v
BufferPool.v
MemoryStore.v
Lookup.v
WriteQueue.v
Trace.v
TraceFiles.v
Replay.v
Open.v
Restart.v
Cache.v
Config.v
Service.v
ReplayCache.v
ReplayLoop.v
ReplayRun.v
PendingFetches.v
