(* ===== verification/Prelude.v ===== *)
(** * A verification library for the Feuer tiered object cache

    Feuer is an object cache for Linux: a memory tier, and below it a disk tier
    in one preallocated file that is read and written with direct I/O through
    io_uring.  Sources are under [src/]; names in brackets are the source's.

    ** The program and its model

    Requests enter at the front end ([feuer/src/cache.rs]).  It records demand
    ([feuer-historian]), looks in memory ([feuer-memory]), then on disk
    ([feuer-storage]), and otherwise calls the source; downloads go into memory
    and are queued to disk.  The disk tier divides the file into shards.  A shard
    has a chunk allocator, a chain of metadata chunks, an index of entries, and a
    buffer that packs small objects; a task writes changed metadata pages once a
    second, and opening a file recovers every shard from its chain.  Requests of a
    handle can be recorded as a trace, which [feuer-replay] plays back.

    - Shared: this file (panics, machine integers, lists and sums), BTree.v
      (ordered maps), Codec.v (bytes), Paths.v ([std::path]), Float64.v
      (binary64), Errors.v ([feuer-storage/src/error.rs]).
    - Policy: Retention.v ([feuer-memory/src/retention.rs]) scores and samples
      eviction candidates; Historian.v ([feuer-historian/src/lib.rs]) counts
      requests with decay, and HistoryCleanup.v runs its cleanup thread.
    - Memory tier: BufferPool.v ([feuer-memory/src/buffer.rs]) and MemoryStore.v
      ([store.rs], [store/shard.rs]).
    - Disk tier, in memory: Allocation.v ([allocation.rs]), Metadata.v
      ([disk_cache/metadata.rs]), EntryIndex.v and Shard.v ([disk_cache.rs]),
      Writer.v ([disk_cache/writer.rs]), DiskCache.v
      ([disk_cache/small_entry_buffer.rs] and batch insertion), WriteQueue.v
      ([disk_cache/write_queue.rs]), Lookup.v (reads in [disk_cache.rs]).
    - Disk tier, on disk: PageFormat.v ([disk_cache/page_format.rs]),
      MetadataWriter.v and MetadataTick.v (the periodic writer of
      [disk_cache/metadata.rs]), Header.v ([disk_cache/header.rs]), Recovery.v
      ([disk_cache/recovery.rs]), Reopen.v (the writer and recovery together),
      Open.v ([DiskCache::open]), Persist.v (what the disk knows of a shard that is
      in use) and Restart.v (closing and opening a cache again).
    - Input and output: Disk.v is the interface the disk cache is proved against,
      the class [StorageFile] with its laws [StorageFileOk].  File.v
      ([file.rs]) discharges it over Uring.v ([uring.rs]); Admission.v
      ([uring/read_admission.rs], [uring/write_admission.rs]), ReadWait.v (waiting
      for the read channel), ReadBuffers.v (ownership of read buffers) and
      Shutdown.v (draining a queue) are the rest of the queue.  FileOpen.v opens
      and locks the file.
    - Front end: Cache.v ([cache.rs], [metrics.rs]), PendingFetches.v
      ([cache/pending_fetches.rs]), Config.v (the builder, [config.rs] and the
      opening of both tiers), Service.v (requests across restarts).
    - Traces: Trace.v ([access_trace.rs], [feuer-replay/src/lib.rs]), TraceFiles.v
      ([visit_events]), Replay.v, ReplayCache.v, ReplayLoop.v and ReplayRun.v (the
      scheduling, the lookups, the run of both and the whole command of
      [feuer-replay/src/bin/replay.rs]).

    State is passed explicitly.  Each struct is a record with the source's fields,
    each function one definition; loops are structural recursions on what they
    consume.  [outcome] is the type of code that may panic (indexing, [unwrap],
    [assert!], integer overflow), [result] that of code that returns an error, and
    the two are kept apart; where a function threads both through many calls it is
    written in a monad of its own with weakest-precondition rules (ReplayRun.v).
    Integers are [Z] with the width written out where the
    code wraps, saturates or checks.  Calls whose answers the program does not
    control (the kernel, the allocator, the operating system, tokio's channels)
    take explicit answers, so that the theorems hold for all of them.

    ** Concurrency

    Code that takes locks or awaits is modelled twice where interleaving matters:
    as a function that runs to its end, and as an inductive step relation between
    the points where other tasks can run.  Step relations: allocator clients
    (Allocation.v), writers of one shard (Writer.v), lookups with writers and
    evictions (Lookup.v), producers and the writer of the queue (WriteQueue.v),
    readers asking for permits (Admission.v) and for channel slots (ReadWait.v),
    callers, kernel and thread of a ring (Uring.v, ReadBuffers.v, Shutdown.v),
    shared fetches, with the time between the last caller's leaving and the fetch's
    [Drop] (PendingFetches.v), processes opening files (FileOpen.v), users
    of the buffer pool (BufferPool.v), requests and the cleanup of histories
    (HistoryCleanup.v), the tasks of a replay (Replay.v), which ReplayLoop.v executes
    under an arbitrary schedule.  Cache.v runs whole requests one at a time between
    background writes, flushes and metadata ticks.

    Some steps are larger than the source's: a metadata round of a shard, the end of a
    payload read with the check of the index, the eviction rounds of one insertion into
    memory, a lookup of a replay; and the pieces of one large transfer are served in
    order.  The files say so where it happens.

    ** What the theorems show

    - The cache is transparent: any sequence of requests and background work
      answers as the source would, never panics and keeps every tier consistent
      (Cache.v); this holds from the opening of a new file on, through the lock, the
      file system and io_uring, and after any number of restarts, as long as metadata
      writes succeed (Config.v, Service.v).
    - The disk tier is durable: while metadata writes succeed, opening the file again
      after a metadata tick shows every object that was not still buffered in memory
      (Restart.v).
    - The disk cache refines a map that may forget (DiskCache.v); lookups return
      only what was written, also against concurrent writers (Lookup.v); writers
      of a shard keep it consistent in every interleaving, publish an entry only
      after its payload is on disk, and evict within a budget (Writer.v).
    - Metadata: pages round-trip (PageFormat.v), a write round leaves every page
      on disk and no link before its chunk (MetadataWriter.v), recovery of any
      file contents is safe, but for an overflow on records no writer makes (Recovery.v),
      and a chain whose pages are on disk is read
      back exactly (Reopen.v); replacing a header is safe at every failure (Header.v).
    - Allocation: every chunk is free or has one owner; first fit (Allocation.v).
    - I/O: the data file implements [StorageFile] for every behaviour of the
      kernel, every request is answered, buffers handed to the kernel stay owned
      and are recovered by their caller, waiting reads are counted exactly and
      pace writes, a dropped queue drains; a data file has one owner and opening
      it is all or nothing.
    - Traces read back, loading is equivalent to a direct selection of events,
      and a replay looks every arrival up once, never fails its assertions, and
      writes the percentiles of exactly the requests of the trace, unless something
      outside fails.
    - Histories: the cleanup never panics, ends, and never removes a key that was
      requested after it read the clocks (HistoryCleanup.v).

    ** Fuel and bounds

    [load_chain] (Recovery.v) follows at most one more chunk than the shard has;
    [recover_shard_safe] shows that it ends without running out.  [drive] (File.v)
    serves a request for three steps more than the kernel has scripted answers,
    after which the kernel completes what it is asked for; [request_answered] shows
    that this is enough.  [reserve_loop] (Writer.v) and the memory tier's eviction
    have the source's own budgets.  [wait_until] (Replay.v) is given the number of
    clock readings; [arrivals_in_order] shows that a clock that passes every
    deadline needs only finitely many.  [run_loop] (ReplayLoop.v) has as much fuel as
    the measure of a new run, which every move decreases.  Theorems about running code
    state that it returns.

    Theorems that open a cache are about capacities below 2^57 bytes.  There each of the
    64 shards has fewer than 2^32 chunks, so that the conversion of chunk indices to
    [u32] succeeds; from 2 MiB to there no other assumption on the size is made.

    ** Parameters

    XXH64 and XXH3 ([Hasher], a function with 64-bit results; object-key hashes
    are 128-bit keys), FxHash ([FxHasher]), the retention scorers, the byte-size
    parser of the configuration, the zstd and tar crates, and the resolution of
    paths by the operating system.  Laws they need are classes
    ([HasherOk], [PathResolverOk]) with instances that satisfy them.

    ** Not modelled

    Metric names and registration, log messages and tracing spans, durations beyond
    counting them, thread and ring creation, the eventfd, the timers of periodic
    tasks (their ticks are operations), the build without a disk tier, the
    command-line parsing, metric encoding and runtime of the replay, benchmarks,
    examples and tests: they are declarations, or calls into libraries and the
    operating system with no logic of their own.  Requests of the front end interleave only
    through shared fetches; that the disk tier stays correct under interleaving is
    shown at the level of shards.  A restart is one of the process: what the
    operating system accepted is on the disk.  A metadata round that fails drops its
    dirty marks, so durability is claimed only after ticks without I/O errors. *)

From stdpp Require Export base tactics list gmap numbers sorting.

Global Open Scope Z_scope.

(** ** Panicking computations

    Rust code that indexes, unwraps or asserts can panic.  Such an operation
    returns an [outcome]: [Done] with its result, or [Panic].  The type is an
    instance of stdpp's monad classes, so [x ← m; k] sequences it. *)
Inductive outcome (A : Type) : Type :=
  | Done (a : A)
  | Panic.
Arguments Done {A} _.
Arguments Panic {A}.

Global Instance outcome_ret : MRet outcome := @Done.
Global Instance outcome_bind : MBind outcome := λ A B f m,
  match m with Done a => f a | Panic => Panic end.
Global Instance outcome_fmap : FMap outcome := λ A B f m,
  match m with Done a => Done (f a) | Panic => Panic end.

(** [Option::unwrap] / [expect] / slice indexing. *)
Definition unwrap {A} (o : option A) : outcome A :=
  match o with Some a => Done a | None => Panic end.

(** [assert!(b)] *)
Definition assert_that (b : bool) : outcome () :=
  if b then Done tt else Panic.

(** A computation that does not panic. *)
Definition completes {A} (m : outcome A) : Prop := ∃ a, m = Done a.

(** ** Machine integers

    [u64], [u128] and [usize] values are [Z]; the operations below spell out
    what the width does to them.  [usize] is 64 bits wide (the disk tier only
    builds for 64-bit Linux in practice). *)
Definition u64_max : Z := 2 ^ 64 - 1.
Definition u64_wrap (z : Z) : Z := z mod 2 ^ 64.
Definition is_u64 (z : Z) : Prop := 0 ≤ z < 2 ^ 64.
Definition is_u128 (z : Z) : Prop := 0 ≤ z < 2 ^ 128.
Definition i64_max : Z := 2 ^ 63 - 1.

Definition checked_add (x y : Z) : option Z :=
  if x + y <? 2 ^ 64 then Some (x + y) else None.
Definition checked_mul (x y : Z) : option Z :=
  if x * y <? 2 ^ 64 then Some (x * y) else None.
Definition wrapping_add (x y : Z) : Z := u64_wrap (x + y).
Definition wrapping_sub (x y : Z) : Z := u64_wrap (x - y).
Definition saturating_sub (x y : Z) : Z := Z.max 0 (x - y).
Definition div_ceil (x y : Z) : Z := x / y + (if x mod y =? 0 then 0 else 1).
Definition next_multiple_of (x y : Z) : Z :=
  if x mod y =? 0 then x else x + (y - x mod y).
Definition is_multiple_of (x y : Z) : bool :=
  if y =? 0 then x =? 0 else x mod y =? 0.
Definition clamp (x lo hi : Z) : Z := Z.min hi (Z.max lo x).

(** ** Vectors *)

(** [Vec::swap_remove]: returns the element at [i] and moves the last element
    into its place; panics out of range. *)
Definition swap_remove {A} (i : nat) (l : list A) : outcome (A * list A) :=
  match l !! i, last l with
  | Some x, Some y => Done (x, take (pred (length l)) (<[i := y]> l))
  | _, _ => Panic
  end.

(** [Iterator::position] *)
Fixpoint position {A} (p : A → bool) (l : list A) : option nat :=
  match l with
  | [] => None
  | x :: l => if p x then Some 0%nat else S <$> position p l
  end.

(** [Iterator::min_by]: the first of the least elements under a comparison. *)
Fixpoint min_by {A} (cmp : A → A → comparison) (l : list A) : option A :=
  match l with
  | [] => None
  | x :: l =>
      match min_by cmp l with
      | None => Some x
      | Some y => match cmp x y with Gt => Some y | _ => Some x end
      end
  end.

(** Sums of an integer measure over a list and over the values of a map. *)
Definition zsum {A} (f : A → Z) (l : list A) : Z := foldr (λ x acc, f x + acc) 0 l.
Definition msum `{Countable K} {A} (f : K → A → Z) (m : gmap K A) : Z :=
  zsum (λ kv, f kv.1 kv.2) (map_to_list m).

(** ** Notations *)
Declare Scope feuer_scope.
Delimit Scope feuer_scope with feuer.
Notation "x ⊕ y" := (wrapping_add x y) (at level 50, left associativity) : feuer_scope.
Notation "x ⊖ y" := (wrapping_sub x y) (at level 50, left associativity) : feuer_scope.
Notation "n 'KiB'" := (n * 1024) (at level 1) : feuer_scope.
Notation "n 'MiB'" := (n * 1048576) (at level 1) : feuer_scope.
Open Scope feuer_scope.

(** ** Automation *)
Create HintDb feuer.

(** Case analysis on the innermost [match] or [if] of the goal or of [H],
    keeping the equation. *)
Ltac case_match_in H :=
  match type of H with
  | context [match ?x with _ => _ end] => destruct x eqn:?; simplify_eq/=
  end.

(** Turns boolean tests on [Z] and [nat] into propositions. *)
Ltac bool_to_prop :=
  repeat match goal with
  | H : (_ <? _) = true |- _ => apply Z.ltb_lt in H
  | H : (_ <? _) = false |- _ => apply Z.ltb_ge in H
  | H : (_ <=? _) = true |- _ => apply Z.leb_le in H
  | H : (_ <=? _) = false |- _ => apply Z.leb_gt in H
  | H : (_ =? _) = true |- _ => apply Z.eqb_eq in H
  | H : (_ =? _) = false |- _ => apply Z.eqb_neq in H
  | H : (_ && _) = true |- _ => apply andb_true_iff in H as [? ?]
  | H : (_ || _) = false |- _ => apply orb_false_iff in H as [? ?]
  | H : negb _ = true |- _ => apply negb_true_iff in H
  | H : negb _ = false |- _ => apply negb_false_iff in H
  end.

(** Enumerates the membership hypotheses in explicit lists. *)
Ltac elem_cases :=
  repeat match goal with
  | H : _ ∈ _ :: _ |- _ => apply elem_of_cons in H as [->|H]
  | H : _ ∈ [] |- _ => by apply elem_of_nil in H
  end.

(** Splits every [if] on a boolean test in the goal, then normalises. *)
Ltac split_ifs :=
  repeat (case_match; try done); bool_to_prop.

(** ** Lemmas on machine integers *)
Lemma u64_wrap_small z : is_u64 z → u64_wrap z = z.
Proof. intros ?. by apply Z.mod_small. Qed.

Lemma is_multiple_of_spec x y : 0 < y → is_multiple_of x y = true ↔ x mod y = 0.
Proof.
  intros ?. unfold is_multiple_of. rewrite (proj2 (Z.eqb_neq y 0)) by lia.
  apply Z.eqb_eq.
Qed.

Lemma div_ceil_mul x y : 0 < y → x ≤ div_ceil x y * y < x + y.
Proof.
  intros ?. unfold div_ceil.
  pose proof (Z.div_mod x y). pose proof (Z.mod_pos_bound x y).
  destruct (Z.eqb_spec (x mod y) 0); nia.
Qed.

Lemma div_ceil_le_iff x y n : 0 < y → div_ceil x y ≤ n ↔ x ≤ n * y.
Proof. intros ?. pose proof (div_ceil_mul x y). nia. Qed.

Lemma div_ceil_pos x y : 0 < y → 0 < x → 0 < div_ceil x y.
Proof. intros ??. pose proof (div_ceil_mul x y). nia. Qed.

Lemma div_ceil_exact n y : 0 < y → div_ceil (n * y) y = n.
Proof. intros ?. pose proof (div_ceil_mul (n * y) y). nia. Qed.

Lemma next_multiple_of_mod x y : 0 < y → next_multiple_of x y mod y = 0.
Proof.
  intros Hy. unfold next_multiple_of.
  destruct (Z.eqb_spec (x mod y) 0) as [?|?]; [done|].
  replace (x + (y - x mod y)) with ((x / y + 1) * y)
    by (pose proof (Z.div_mod x y); lia).
  apply Z.mod_mul. lia.
Qed.

Lemma next_multiple_of_bounds x y : 0 < y → x ≤ next_multiple_of x y < x + y.
Proof.
  intros ?. unfold next_multiple_of. pose proof (Z.mod_pos_bound x y).
  destruct (Z.eqb_spec (x mod y) 0); lia.
Qed.

Lemma div_between a b k : 0 < b → k * b ≤ a < (k + 1) * b → a / b = k.
Proof. intros ??. symmetry. apply (Z.div_unique a b k (a - k * b)); lia. Qed.

Lemma div_mono_lt a b c : 0 < c → a / c < b / c → a < b.
Proof. intros ? Hlt. apply Z.nle_gt. intros Hle. apply (Z.div_le_mono _ _ c) in Hle; lia. Qed.

(** ** Lemmas on vectors *)
Lemma swap_remove_done {A} (i : nat) (l : list A) x :
  l !! i = Some x → completes (swap_remove i l).
Proof.
  intros Hi. unfold swap_remove, completes. rewrite Hi.
  destruct l as [|a l]; [done|]. rewrite last_cons. destruct (last l); eauto.
Qed.

Lemma swap_remove_inv {A} (i : nat) (l : list A) x l' :
  swap_remove i l = Done (x, l') →
  ∃ y, l !! i = Some x ∧ l !! pred (length l) = Some y ∧ last l = Some y
     ∧ l' = take (pred (length l)) (<[i := y]> l).
Proof.
  unfold swap_remove. intros H. destruct (l !! i) eqn:?; [|done].
  destruct (last l) eqn:Hlast; [|done]. simplify_eq/=.
  exists a0. rewrite last_lookup in Hlast. rewrite <-last_lookup in Hlast.
  split_and!; auto. by rewrite <-last_lookup.
Qed.

Lemma swap_remove_length {A} (i : nat) (l : list A) x l' :
  swap_remove i l = Done (x, l') → length l = S (length l').
Proof.
  intros (y & Hi & _ & _ & ->)%swap_remove_inv.
  rewrite length_take, length_insert. apply lookup_lt_Some in Hi. lia.
Qed.

Lemma swap_remove_lookup {A} (i j : nat) (l : list A) x l' :
  swap_remove i l = Done (x, l') →
  l' !! j = if decide (j < length l')%nat
            then if decide (j = i) then last l else l !! j else None.
Proof.
  intros Hs. pose proof (swap_remove_length _ _ _ _ Hs) as Hlen.
  apply swap_remove_inv in Hs as (y & Hi & Hl & Hlast & Heq).
  case_decide as Hj; [|by apply lookup_ge_None_2; lia].
  rewrite Heq, lookup_take_lt by lia. case_decide as Hji.
  - subst j. rewrite list_lookup_insert_eq by (by eapply lookup_lt_Some). congruence.
  - by rewrite list_lookup_insert_ne.
Qed.

Lemma last_take_pred {A} (l : list A) y :
  last l = Some y → l = take (pred (length l)) l ++ [y].
Proof.
  intros Hl. rewrite last_lookup in Hl.
  rewrite <-(take_S_r _ _ _ Hl). rewrite take_ge; [done|lia].
Qed.

Lemma swap_remove_perm {A} (i : nat) (l : list A) x l' :
  swap_remove i l = Done (x, l') → l ≡ₚ x :: l'.
Proof.
  intros (y & Hi & Hl & Hlast & ->)%swap_remove_inv.
  assert (Hsplit := last_take_pred _ _ Hlast).
  assert (i < length l)%nat by (by eapply lookup_lt_Some).
  destruct (decide (i = pred (length l))) as [->|Hne].
  - rewrite take_insert_ge by lia. assert (x = y) as -> by congruence.
    etrans; [by apply reflexive_eq|]. symmetry. apply Permutation_cons_append.
  - rewrite take_insert_lt by lia. etrans; [by apply reflexive_eq|].
    set (p := take (pred (length l)) l) in *.
    assert (Hpi : p !! i = Some x) by (unfold p; rewrite lookup_take_lt; [done|lia]).
    rewrite (insert_take_drop p i y) by (by eapply lookup_lt_Some).
    rewrite <-(take_drop_middle p i x Hpi) at 1.
    rewrite <-app_assoc. cbn. solve_Permutation.
Qed.

Lemma position_Some {A} (p : A → bool) (l : list A) i :
  position p l = Some i ↔
  (∃ x, l !! i = Some x ∧ p x = true) ∧ ∀ j x, (j < i)%nat → l !! j = Some x → p x = false.
Proof.
  revert i. induction l as [|a l IH]; intros i; cbn.
  { split; [done|]. by intros [(x & Hx & _) _]. }
  destruct (p a) eqn:Hp.
  - split.
    + intros [= <-]. split; [by exists a|]. intros j x Hj; lia.
    + intros [(x & Hx & Hpx) Hmin]. destruct i as [|i]; [done|].
      specialize (Hmin 0%nat a ltac:(lia) eq_refl). congruence.
  - split.
    + intros (k & Hk & ->)%fmap_Some. apply IH in Hk as [(x & Hx & Hpx) Hmin].
      split; [by exists x|]. intros [|j] y Hj Hy; cbn in *; [congruence|].
      apply (Hmin j); [lia|done].
    + intros [(x & Hx & Hpx) Hmin]. destruct i as [|i]; cbn in *; [congruence|].
      apply fmap_Some. exists i. split; [|done]. apply IH. split; [by exists x|].
      intros j y Hj Hy. apply (Hmin (S j) y); [lia|done].
Qed.

Lemma position_None {A} (p : A → bool) (l : list A) :
  position p l = None ↔ ∀ x, x ∈ l → p x = false.
Proof.
  induction l as [|a l IH]; cbn.
  { split; [|done]. intros _ x ?%elem_of_nil. done. }
  destruct (p a) eqn:Hp.
  - split; [done|]. intros H. specialize (H a ltac:(left)). congruence.
  - rewrite fmap_None, IH. setoid_rewrite elem_of_cons.
    split; intros Hl x; [intros [->|?]; auto|auto].
Qed.

Lemma min_by_elem {A} cmp (l : list A) x : min_by cmp l = Some x → x ∈ l.
Proof.
  revert x. induction l as [|a l IH]; intros x; cbn; [done|].
  destruct (min_by cmp l) as [y|] eqn:?; [|intros [= <-]; left].
  destruct (cmp a y); intros [= <-]; [left|left|right; by apply IH].
Qed.

Lemma min_by_None {A} cmp (l : list A) : min_by cmp l = None ↔ l = [].
Proof.
  destruct l as [|a l]; cbn; [done|]. destruct (min_by cmp l); [|done].
  by destruct (cmp a a0).
Qed.

(** [min_by] returns a least element whenever "not greater" is transitive and
    total enough to compare through. *)
Lemma min_by_least {A} (cmp : A → A → comparison) (l : list A) x :
  (∀ a b c, cmp a b ≠ Gt → cmp b c ≠ Gt → cmp a c ≠ Gt) →
  (∀ a b, cmp a b = Gt → cmp b a ≠ Gt) →
  (∀ a, cmp a a ≠ Gt) →
  min_by cmp l = Some x → ∀ y, y ∈ l → cmp x y ≠ Gt.
Proof.
  intros Htrans Hasym Hrefl. revert x.
  induction l as [|a l IH]; intros x; cbn; [done|].
  destruct (min_by cmp l) as [m|] eqn:Hm.
  - intros Hx y [->|Hy]%elem_of_cons; destruct (cmp a m) eqn:Ham; simplify_eq; auto;
      apply (Htrans _ m); auto; congruence.
  - intros [= <-] y Hy. apply min_by_None in Hm as ->.
    apply list_elem_of_singleton in Hy as ->. auto.
Qed.

(** ** Sums *)
Lemma filter_none {A} (P : A → Prop) `{∀ x, Decision (P x)} l : Forall (λ x, ¬ P x) l → filter P l = [].
Proof. induction 1; [done|]. by rewrite filter_cons_False. Qed.

Lemma zsum_app {A} (f : A → Z) l1 l2 : zsum f (l1 ++ l2) = zsum f l1 + zsum f l2.
Proof. induction l1; cbn; [done|]. unfold zsum in *. cbn. lia. Qed.

Lemma zsum_nil {A} (f : A → Z) : zsum f [] = 0.
Proof. done. Qed.

Lemma zsum_cons {A} (f : A → Z) x l : zsum f (x :: l) = f x + zsum f l.
Proof. done. Qed.

Global Instance zsum_perm {A} (f : A → Z) : Proper ((≡ₚ) ==> (=)) (zsum f).
Proof. induction 1; unfold zsum in *; cbn; lia. Qed.

Lemma zsum_nonneg {A} (f : A → Z) l : (∀ x, x ∈ l → 0 ≤ f x) → 0 ≤ zsum f l.
Proof.
  induction l as [|a l IH]; intros Hf; [done|]. rewrite zsum_cons.
  pose proof (Hf a ltac:(left)). pose proof (IH ltac:(intros; apply Hf; by right)). lia.
Qed.

Lemma zsum_elem_le {A} (f : A → Z) l x :
  (∀ y, y ∈ l → 0 ≤ f y) → x ∈ l → f x ≤ zsum f l.
Proof.
  intros Hf (l1 & l2 & ->)%list_elem_of_split. rewrite zsum_app, zsum_cons.
  pose proof (zsum_nonneg f l1 ltac:(intros; apply Hf; set_solver)).
  pose proof (zsum_nonneg f l2 ltac:(intros; apply Hf; set_solver)). lia.
Qed.

Lemma zsum_ext {A} (f g : A → Z) l : (∀ x, x ∈ l → f x = g x) → zsum f l = zsum g l.
Proof.
  induction l as [|a l IH]; intros Hfg; [done|]. rewrite !zsum_cons.
  rewrite Hfg by left. rewrite IH; [done|]. intros. apply Hfg. by right.
Qed.

Lemma zsum_fmap {A B} (g : A → B) (f : B → Z) l : zsum f (g <$> l) = zsum (λ x, f (g x)) l.
Proof. induction l as [|a l IH]; [done|]. rewrite fmap_cons, !zsum_cons. by rewrite IH. Qed.

Lemma zsum_alter {A} (f : A → Z) (g : A → A) l i x :
  l !! i = Some x → zsum f (alter g i l) = zsum f l - f x + f (g x).
Proof.
  revert i. induction l as [|a l IH]; intros [|i] Hi; try done; cbn in Hi.
  - simplify_eq. change (alter g 0%nat (x :: l)) with (g x :: l). rewrite !zsum_cons. lia.
  - change (alter g (S i) (a :: l)) with (a :: alter g i l).
    rewrite !zsum_cons, (IH i) by done. lia.
Qed.

Lemma zsum_alter_id {A} (f : A → Z) (g : A → A) l i :
  (∀ x, f (g x) = f x) → zsum f (alter g i l) = zsum f l.
Proof.
  intros Hfg. revert i. induction l as [|a l IH]; intros [|i]; try done.
  - change (alter g 0%nat (a :: l)) with (g a :: l). by rewrite !zsum_cons, Hfg.
  - change (alter g (S i) (a :: l)) with (a :: alter g i l). by rewrite !zsum_cons, IH.
Qed.

Lemma zsum_insert {A} (f : A → Z) l i x y :
  l !! i = Some x → zsum f (<[i := y]> l) = zsum f l - f x + f y.
Proof.
  revert i. induction l as [|a l IH]; intros [|i] Hi; try done; cbn in Hi.
  - simplify_eq. change (<[0%nat := y]> (x :: l)) with (y :: l). rewrite !zsum_cons. lia.
  - change (<[S i := y]> (a :: l)) with (a :: <[i := y]> l).
    rewrite !zsum_cons, (IH i) by done. lia.
Qed.

Lemma zsum_pos_exists {A} (f : A → Z) l : 0 < zsum f l → ∃ i x, l !! i = Some x ∧ 0 < f x.
Proof.
  induction l as [|a l IH]; [done|]. rewrite zsum_cons. intros Hpos.
  destruct (decide (0 < f a)) as [Ha|Ha]; [by exists 0%nat, a|].
  destruct IH as (i & x & ? & ?); [lia|]. by exists (S i), x.
Qed.

Lemma fmap_alter_id {A B} (f : A → B) (g : A → A) (l : list A) i :
  (∀ x, f (g x) = f x) → f <$> alter g i l = f <$> l.
Proof.
  intros Hfg. revert i. induction l as [|a l IH]; intros [|i]; try done.
  - change (alter g 0%nat (a :: l)) with (g a :: l). rewrite !fmap_cons. by rewrite Hfg.
  - change (alter g (S i) (a :: l)) with (a :: alter g i l). rewrite !fmap_cons. by rewrite IH.
Qed.

Section msum.
Context `{Countable K} {A : Type} (f : K → A → Z).

Lemma msum_empty : msum f (∅ : gmap K A) = 0.
Proof. unfold msum. by rewrite map_to_list_empty. Qed.

Lemma msum_insert (m : gmap K A) k x :
  m !! k = None → msum f (<[k := x]> m) = f k x + msum f m.
Proof. intros. unfold msum. by rewrite map_to_list_insert. Qed.

Lemma msum_delete (m : gmap K A) k x :
  m !! k = Some x → msum f (delete k m) = msum f m - f k x.
Proof.
  intros Hk. rewrite <-(insert_delete_id m k x Hk) at 2.
  rewrite msum_insert by apply lookup_delete_eq. lia.
Qed.

Lemma msum_replace (m : gmap K A) k x y :
  m !! k = Some x → msum f (<[k := y]> m) = msum f m - f k x + f k y.
Proof.
  intros Hk. rewrite <-insert_delete_eq, msum_insert by apply lookup_delete_eq.
  rewrite (msum_delete _ _ _ Hk). lia.
Qed.

Lemma msum_nonneg (m : gmap K A) : (∀ k x, m !! k = Some x → 0 ≤ f k x) → 0 ≤ msum f m.
Proof.
  intros Hf. apply zsum_nonneg. intros [k x] Hin. by apply Hf, elem_of_map_to_list.
Qed.

Lemma msum_elem_le (m : gmap K A) k x :
  (∀ k x, m !! k = Some x → 0 ≤ f k x) → m !! k = Some x → f k x ≤ msum f m.
Proof.
  intros Hf Hk. apply (zsum_elem_le (λ kv, f kv.1 kv.2) _ (k, x)).
  - intros [k' x'] Hin. by apply Hf, elem_of_map_to_list.
  - by apply elem_of_map_to_list.
Qed.
End msum.

Create Rewrite HintDb sums.
#[export] Hint Rewrite @zsum_app @zsum_cons @zsum_nil : sums.

Global Arguments zsum : simpl never.
Global Arguments msum : simpl never.
