(* ===== verification/BTree.v ===== *)
(** * Ordered maps

    [std::collections::BTreeMap<u64, V>] as an association list in strictly
    increasing key order.  The operations are the ones [allocation.rs] uses:
    [insert], [remove], [get], [range(..k).next_back()],
    [range(..=k).next_back()] and [iter().find(..)]. *)

From S2P Require Import Prelude.

Section btree.
Context {V : Type}.
Implicit Types (m l : list (Z * V)) (k : Z) (v : V).

Fixpoint bt_insert k v m : list (Z * V) :=
  match m with
  | [] => [(k, v)]
  | (k', v') :: m' =>
      if k <? k' then (k, v) :: m
      else if k =? k' then (k, v) :: m'
      else (k', v') :: bt_insert k v m'
  end.

Fixpoint bt_remove k m : list (Z * V) :=
  match m with
  | [] => []
  | (k', v') :: m' => if k =? k' then m' else (k', v') :: bt_remove k m'
  end.

Fixpoint bt_get k m : option V :=
  match m with
  | [] => None
  | (k', v') :: m' => if k =? k' then Some v' else bt_get k m'
  end.

(** [range(..k).next_back()] and [range(..=k).next_back()] *)
Definition bt_last_below k m : option (Z * V) :=
  last (filter (λ e, e.1 < k) m).
Definition bt_last_upto k m : option (Z * V) :=
  last (filter (λ e, e.1 ≤ k) m).

(** [iter().find(p)] *)
Fixpoint bt_find (p : Z * V → bool) m : option (Z * V) :=
  match m with
  | [] => None
  | e :: m' => if p e then Some e else bt_find p m'
  end.

Definition bt_sorted m : Prop := StronglySorted (λ a b, a.1 < b.1) m.
Definition keys_lt l k : Prop := Forall (λ e, e.1 < k) l.
Definition keys_gt l k : Prop := Forall (λ e, k < e.1) l.

(** ** Splitting a map at a key *)
Lemma bt_insert_split k v l1 l2 :
  keys_lt l1 k → keys_gt l2 k → bt_insert k v (l1 ++ l2) = l1 ++ (k, v) :: l2.
Proof.
  intros Hl1 Hl2. induction Hl1 as [|[k' v'] l1 Hk _ IH]; cbn in *.
  - destruct Hl2 as [|[k' v'] l2 Hk _]; cbn in *; [done|].
    by rewrite (proj2 (Z.ltb_lt _ _) Hk).
  - rewrite (proj2 (Z.ltb_ge k k')), (proj2 (Z.eqb_neq k k')) by lia. by rewrite IH.
Qed.

Lemma bt_insert_replace k v v' l1 l2 :
  keys_lt l1 k → bt_insert k v (l1 ++ (k, v') :: l2) = l1 ++ (k, v) :: l2.
Proof.
  intros Hl1. induction Hl1 as [|[k1 v1] l1 Hk _ IH]; cbn in *.
  - by rewrite Z.ltb_irrefl, Z.eqb_refl.
  - rewrite (proj2 (Z.ltb_ge k k1)), (proj2 (Z.eqb_neq k k1)) by lia. by rewrite IH.
Qed.

Lemma bt_remove_split k v l1 l2 :
  keys_lt l1 k → bt_remove k (l1 ++ (k, v) :: l2) = l1 ++ l2.
Proof.
  intros Hl1. induction Hl1 as [|[k1 v1] l1 Hk _ IH]; cbn in *.
  - by rewrite Z.eqb_refl.
  - rewrite (proj2 (Z.eqb_neq k k1)) by lia. by rewrite IH.
Qed.

Lemma bt_remove_absent k m : bt_get k m = None → bt_remove k m = m.
Proof.
  induction m as [|[k' v'] m IH]; cbn; [done|].
  destruct (k =? k'); [done|]. intros. by rewrite IH.
Qed.

Lemma bt_get_Some_split k v m :
  bt_sorted m → bt_get k m = Some v →
  ∃ l1 l2, m = l1 ++ (k, v) :: l2 ∧ keys_lt l1 k ∧ keys_gt l2 k.
Proof.
  unfold bt_sorted. induction m as [|[k' v'] m IH]; cbn; [done|].
  intros [Hs Hf]%StronglySorted_inv Hg. destruct (Z.eqb_spec k k') as [->|Hne].
  - simplify_eq. exists [], m. split_and!; [done|constructor|done].
  - destruct (IH Hs Hg) as (l1 & l2 & -> & H1 & H2).
    exists ((k', v') :: l1), l2. split_and!; [done| |done].
    constructor; [|done]. cbn.
    rewrite Forall_app, Forall_cons in Hf. by destruct Hf as (_ & ? & _).
Qed.

Lemma bt_get_None k m : bt_get k m = None ↔ ∀ v, (k, v) ∉ m.
Proof.
  induction m as [|[k' v'] m IH]; cbn.
  { split; [|done]. intros _ v ?%elem_of_nil. done. }
  destruct (Z.eqb_spec k k') as [->|Hne].
  - split; [done|]. intros H. destruct (H v'). left.
  - rewrite IH. split; intros H v; [|intros ?; apply (H v); by right].
    intros [?|?]%elem_of_cons; [congruence|by apply (H v)].
Qed.

Lemma bt_get_elem k v m : bt_sorted m → bt_get k m = Some v ↔ (k, v) ∈ m.
Proof.
  intros Hs. split.
  - intros (l1 & l2 & -> & _)%bt_get_Some_split; [|done]. set_solver.
  - intros Hin. destruct (bt_get k m) as [v'|] eqn:Hg.
    + apply bt_get_Some_split in Hg as (l1 & l2 & -> & H1 & H2); [|done].
      unfold keys_lt, keys_gt in *. rewrite Forall_forall in H1, H2.
      rewrite elem_of_app, elem_of_cons in Hin. destruct Hin as [Hin|[?|Hin]].
      * specialize (H1 _ Hin). cbn in *. lia.
      * congruence.
      * specialize (H2 _ Hin). cbn in *. lia.
    + rewrite bt_get_None in Hg. by destruct (Hg v).
Qed.

(** [range(..k)] and [range(..=k)] cut a sorted map at the entry they return. *)
Lemma bt_last_split (P : Z → Prop) `{∀ z, Decision (P z)} m :
  (∀ a b, a ≤ b → P b → P a) → bt_sorted m →
  match last (filter (λ e : Z * V, P e.1) m) with
  | Some e => ∃ l1 l2, m = l1 ++ e :: l2 ∧ keys_lt l1 e.1 ∧ P e.1
                       ∧ keys_gt l2 e.1 ∧ Forall (λ e', ¬ P e'.1) l2
  | None => Forall (λ e', ¬ P e'.1) m
  end.
Proof.
  intros Hdown. unfold bt_sorted. induction m as [|e m IH]; [cbn; constructor|].
  intros [Hs Hf]%StronglySorted_inv. specialize (IH Hs).
  rewrite filter_cons. case_decide as HP.
  - rewrite last_cons.
    destruct (last (filter (λ e : Z * V, P e.1) m)) as [e'|].
    + destruct IH as (l1 & l2 & -> & H1 & HPe & H2 & H3).
      exists (e :: l1), l2. split_and!; try done.
      constructor; [|done]. rewrite Forall_app, Forall_cons in Hf. by destruct Hf as (_ & ? & _).
    + exists [], m. split_and!; [done|constructor|done|done|done].
  - assert (Hm : Forall (λ e', ¬ P e'.1) m).
    { eapply Forall_impl; [exact Hf|]. intros x Hx HPx. apply HP.
      eapply Hdown; [|exact HPx]. cbn in *. lia. }
    destruct (last (filter (λ e : Z * V, P e.1) m)) as [e'|]; [|by constructor].
    destruct IH as (l1 & l2 & -> & _ & HPe & _).
    rewrite Forall_app, Forall_cons in Hm. by destruct Hm as (_ & ? & _).
Qed.

Lemma bt_last_below_spec k m :
  bt_sorted m →
  match bt_last_below k m with
  | Some e => ∃ l1 l2, m = l1 ++ e :: l2 ∧ keys_lt l1 e.1 ∧ e.1 < k
                       ∧ keys_gt l2 e.1 ∧ Forall (λ e', k ≤ e'.1) l2
  | None => Forall (λ e', k ≤ e'.1) m
  end.
Proof.
  intros Hs. pose proof (bt_last_split (λ z, z < k) m) as H. unfold bt_last_below.
  specialize (H ltac:(cbn; intros; lia) Hs).
  destruct (last _) as [e|].
  - destruct H as (l1 & l2 & ? & ? & ? & ? & Hl2). exists l1, l2.
    split_and!; try done. eapply Forall_impl; [exact Hl2|]. cbn. intros. lia.
  - eapply Forall_impl; [exact H|]. cbn. intros. lia.
Qed.

Lemma bt_last_upto_spec k m :
  bt_sorted m →
  match bt_last_upto k m with
  | Some e => ∃ l1 l2, m = l1 ++ e :: l2 ∧ keys_lt l1 e.1 ∧ e.1 ≤ k
                       ∧ keys_gt l2 e.1 ∧ keys_gt l2 k
  | None => keys_gt m k
  end.
Proof.
  intros Hs. pose proof (bt_last_split (λ z, z ≤ k) m) as H. unfold bt_last_upto.
  specialize (H ltac:(cbn; intros; lia) Hs).
  destruct (last _) as [e|].
  - destruct H as (l1 & l2 & ? & ? & ? & ? & Hl2). exists l1, l2.
    split_and!; try done. eapply Forall_impl; [exact Hl2|]. cbn. intros. lia.
  - eapply Forall_impl; [exact H|]. cbn. intros. lia.
Qed.

Lemma bt_last_upto_split k e l1 l2 :
  e.1 ≤ k → keys_gt l2 k → bt_last_upto k (l1 ++ e :: l2) = Some e.
Proof.
  intros He Hl2. unfold bt_last_upto. rewrite filter_app, filter_cons_True by done.
  rewrite (filter_none _ l2); [apply last_snoc|].
  eapply Forall_impl; [exact Hl2|]. cbn. intros; lia.
Qed.

Lemma bt_last_below_all k l1 l2 :
  Forall (λ e, e.1 < k) l1 → Forall (λ e, k ≤ e.1) l2 → bt_last_below k (l1 ++ l2) = last l1.
Proof.
  intros Hl1 Hl2. unfold bt_last_below. rewrite filter_app, (filter_none _ l2), app_nil_r.
  - f_equal. induction Hl1; [done|]. rewrite filter_cons_True by done. by f_equal.
  - eapply Forall_impl; [exact Hl2|]. cbn. intros; lia.
Qed.

Lemma bt_find_Some p m e :
  bt_find p m = Some e → ∃ l1 l2, m = l1 ++ e :: l2 ∧ p e = true ∧ Forall (λ e', p e' = false) l1.
Proof.
  induction m as [|a m IH]; cbn; [done|]. destruct (p a) eqn:Hp.
  - intros [= ->]. exists [], m. by split_and!.
  - intros (l1 & l2 & -> & ? & ?)%IH. exists (a :: l1), l2. by split_and!; [| |constructor].
Qed.

Lemma bt_find_None p m : bt_find p m = None → Forall (λ e, p e = false) m.
Proof. induction m as [|a m IH]; cbn; [done|]. destruct (p a) eqn:?; [done|]. eauto. Qed.
End btree.
