(* ===== verification/Codec.v ===== *)
(** * Bytes and little-endian fields

    Byte vectors are [list byte].  The fixed-width integer conversions
    ([to_le_bytes], [from_le_bytes]) come from coqutil; this file adds the slice
    operations ([&b[a..c]], [copy_from_slice], [split_at], [as_chunks]) and their
    round trips, and the XXH64 checksum as an interface. *)

From coqutil Require Export Byte Word.LittleEndianList.
From S2P Require Export Prelude.

Global Instance byte_eq_decision : EqDecision byte := Byte.byte_eq_dec.

(** [XxHash64::oneshot(0, _)] is third-party code: an arbitrary function on
    byte strings whose value is a [u64]. *)
Class Hasher := xxh64 : list byte → Z.
Class HasherOk `{Hasher} : Prop := xxh64_range : ∀ bs, is_u64 (xxh64 bs).

(** [n.to_le_bytes()] and [from_le_bytes] at the two widths the formats use. *)
Definition u64_to_le_bytes (z : Z) : list byte := le_split 8 z.
Definition u128_to_le_bytes (z : Z) : list byte := le_split 16 z.
Definition from_le_bytes (bs : list byte) : Z := le_combine bs.

(** [&l[a..b]], for a range inside the slice. *)
Definition slice {A} (a b : nat) (l : list A) : list A := take (b - a) (drop a l).

(** [l[off..off + src.len()].copy_from_slice(src)], for a range inside the slice. *)
Definition copy_at {A} (off : nat) (src l : list A) : list A :=
  take off l ++ src ++ drop (off + length src) l.

Definition zeros (n : nat) : list byte := replicate n Byte.x00.

(** [l.as_chunks::<N>().0]: the first [count] whole chunks of [n] elements. *)
Fixpoint as_chunks {A} (n count : nat) (l : list A) : list (list A) :=
  match count with
  | O => []
  | S count => take n l :: as_chunks n count (drop n l)
  end.

(** ** Fields *)
Lemma length_u64 z : length (u64_to_le_bytes z) = 8%nat.
Proof. apply length_le_split. Qed.

Lemma length_u128 z : length (u128_to_le_bytes z) = 16%nat.
Proof. apply length_le_split. Qed.

Lemma u64_le_roundtrip z : is_u64 z → from_le_bytes (u64_to_le_bytes z) = z.
Proof. intros ?. unfold from_le_bytes, u64_to_le_bytes. rewrite le_combine_split. by apply Z.mod_small. Qed.

Lemma u128_le_roundtrip z : is_u128 z → from_le_bytes (u128_to_le_bytes z) = z.
Proof. intros ?. unfold from_le_bytes, u128_to_le_bytes. rewrite le_combine_split. by apply Z.mod_small. Qed.

Lemma le_bytes_roundtrip bs : length bs = 8%nat → u64_to_le_bytes (from_le_bytes bs) = bs.
Proof. intros Hl. unfold from_le_bytes, u64_to_le_bytes. rewrite <-Hl. apply split_le_combine. Qed.

Lemma from_le_bytes_zeros n : from_le_bytes (zeros n) = 0.
Proof.
  unfold zeros, from_le_bytes. induction n as [|n IH]; [done|]. cbn [replicate].
  change (Z.lor 0 (Z.shiftl (le_combine (replicate n Byte.x00)) 8) = 0). by rewrite IH. Qed.

Lemma from_le_bytes_range bs : 0 ≤ from_le_bytes bs < 2 ^ (8 * Z.of_nat (length bs)).
Proof. apply le_combine_bound. Qed.

Global Opaque u64_to_le_bytes u128_to_le_bytes from_le_bytes.

(** ** Slices *)
Section slices.
Context {A : Type}.
Implicit Types (l s : list A).

Lemma slice_app_l a b l1 l2 : (b ≤ length l1)%nat → slice a b (l1 ++ l2) = slice a b l1.
Proof.
  intros Hb. unfold slice. destruct (decide (a ≤ b)%nat).
  - rewrite drop_app_le by lia. rewrite take_app_le; [done|]. rewrite length_drop. lia.
  - replace (b - a)%nat with 0%nat by lia. done.
Qed.

Lemma slice_app_r a b n l1 l2 :
  length l1 = n → (n ≤ a)%nat → slice a b (l1 ++ l2) = slice (a - n) (b - n) l2.
Proof. intros <- Ha. unfold slice. rewrite drop_app_ge by lia. f_equal. lia. Qed.

Lemma slice_full a b l : a = 0%nat → b = length l → slice a b l = l.
Proof. intros -> ->. unfold slice. rewrite drop_0, Nat.sub_0_r. by apply firstn_all. Qed.

Lemma length_slice a b l : (b ≤ length l)%nat → length (slice a b l) = (b - a)%nat.
Proof. intros. unfold slice. rewrite length_take, length_drop. lia. Qed.

Lemma length_copy_at off s l : (off + length s ≤ length l)%nat → length (copy_at off s l) = length l.
Proof. intros. unfold copy_at. rewrite !length_app, length_take, length_drop. lia. Qed.

Lemma copy_at_app off s l1 l2 l3 :
  length l1 = off → length l2 = length s → copy_at off s (l1 ++ l2 ++ l3) = l1 ++ s ++ l3.
Proof.
  intros H1 H2. unfold copy_at. rewrite <-H1 at 1. rewrite take_app_length. do 2 f_equal.
  rewrite app_assoc, <-H2, <-H1, <-length_app. apply drop_app_length.
Qed.

Lemma as_chunks_concat n (ls : list (list A)) rest :
  Forall (λ l, length l = n) ls → as_chunks n (length ls) (concat ls ++ rest) = ls.
Proof.
  induction 1 as [|l ls Hl _ IH]; [done|]. cbn. rewrite <-app_assoc, <-Hl.
  rewrite take_app_length, drop_app_length, Hl, IH. done.
Qed.

Lemma length_as_chunks n c l : length (as_chunks n c l) = c.
Proof. revert l. induction c; intros; cbn; auto. Qed.

Lemma length_concat_const n (ls : list (list A)) :
  Forall (λ l, length l = n) ls → length (concat ls) = (length ls * n)%nat.
Proof. induction 1; [done|]. cbn. rewrite length_app. lia. Qed.

(** Cutting a list into equal pages and joining them again. *)
Lemma concat_pages (n k : nat) l :
  concat ((λ i, slice (i * n) (i * n + n) l) <$> seq 0 k) = take (k * n) l.
Proof.
  induction k as [|k IH]; [done|]. rewrite seq_S, fmap_app, concat_app, IH. cbn.
  rewrite app_nil_r. unfold slice. replace (k * n + n - k * n)%nat with n by lia.
  rewrite take_take_drop. f_equal. lia.
Qed.
End slices.

Lemma fmap_concat_fmap {A B C} (f : B → C) (g : A → list B) (l : list A) :
  concat ((λ x, f <$> g x) <$> l) = f <$> concat (g <$> l).
Proof. induction l as [|x l IH]; [done|]. cbn. by rewrite fmap_app, IH. Qed.

Lemma length_zeros n : length (zeros n) = n.
Proof. apply length_replicate. Qed.

Lemma zeros_app a b : zeros a ++ zeros b = zeros (a + b).
Proof. unfold zeros. by rewrite replicate_add. Qed.

Create Rewrite HintDb len.
#[export] Hint Rewrite length_u64 length_u128 length_zeros @length_app @length_cons @length_nil : len.
