(* ===== verification/Errors.v ===== *)
(** * Storage errors ([feuer-storage/src/error.rs])

    The operations and error categories of the data file, their labels, and the
    classification of every error.  [io::Error] values are represented by what
    the storage code distinguishes: an operating-system error number, a failed
    write request with its diagnostics, or one of the errors the code builds. *)

From Stdlib Require Import String.
From stdpp Require Import pretty.
From S2P Require Import Prelude.

(** Rust's [Result]. *)
Inductive result (E A : Type) : Type :=
  | Ok (a : A)
  | Err (e : E).
Arguments Ok {E A} _.
Arguments Err {E A} _.

Global Instance result_ret {E} : MRet (result E) := λ A, Ok.
Global Instance result_bind {E} : MBind (result E) := λ A B f m,
  match m with Ok a => f a | Err e => Err e end.
Global Instance result_fmap {E} : FMap (result E) := λ A B f m,
  match m with Ok a => Ok (f a) | Err e => Err e end.

Definition is_ok {E A} (r : result E A) : bool := match r with Ok _ => true | Err _ => false end.
Definition map_err {E E' A} (f : E → E') (r : result E A) : result E' A :=
  match r with Ok a => Ok a | Err e => Err (f e) end.

(** [uring::WriteRequestError]: the disk range and buffers of a failed write. *)
Record WriteRequestError := mkWriteRequestError {
  wre_errno : Z;
  wre_offset : Z;
  wre_length : Z;
  wre_buffer_address_remainders : Z * Z;
  wre_buffer_lengths : Z * Z;
  wre_hint : bool
}.

Inductive io_error :=
  | OsError (errno : Z)
  | WriteFailed (e : WriteRequestError)
  | UnexpectedEof
  | WriteZero
  | QueueStopped
  | AllocationFailed
  | UnsupportedAlignment.

Inductive IoOperation :=
  | CreateDirectory | OpenLockFile | LockFile | OpenDataFile | InspectDataFile
  | ResizeDataFile | SyncDataFile | Read | Write.

Global Instance IoOperation_eq_dec : EqDecision IoOperation.
Proof. solve_decision. Defined.

(** [IoOperation::as_str] *)
Definition operation_as_str (o : IoOperation) : string :=
  match o with
  | CreateDirectory => "create_directory"
  | OpenLockFile => "open_lock_file"
  | LockFile => "lock_file"
  | OpenDataFile => "open_data_file"
  | InspectDataFile => "inspect_data_file"
  | ResizeDataFile => "resize_data_file"
  | SyncDataFile => "sync_data_file"
  | Read => "read"
  | Write => "write"
  end%string.

Inductive DataFileErrorKind :=
  | KindInvalidConfiguration | KindAlreadyOpen | KindRangeExceedsCapacity | KindIo | KindTask.

(** [DataFileErrorKind::as_str] *)
Definition kind_as_str (k : DataFileErrorKind) : string :=
  match k with
  | KindInvalidConfiguration => "invalid_configuration"
  | KindAlreadyOpen => "already_open"
  | KindRangeExceedsCapacity => "range_exceeds_capacity"
  | KindIo => "io"
  | KindTask => "task"
  end%string.

Inductive DataFileError :=
  | InvalidCapacity
  | AlreadyOpen (path : string)
  | InvalidDataFile (path : string)
  | RangeExceedsCapacity (operation : IoOperation) (offset length capacity : Z)
  | LengthOverflow (operation : IoOperation) (length : Z)
  | Io (operation : IoOperation) (path : string) (source : io_error)
  | RuntimeUnavailable
  | Task (operation : IoOperation) (source : string).

(** [DataFileError::kind] and [DataFileError::operation] *)
Definition kind (e : DataFileError) : DataFileErrorKind :=
  match e with
  | InvalidCapacity | InvalidDataFile _ => KindInvalidConfiguration
  | AlreadyOpen _ => KindAlreadyOpen
  | RangeExceedsCapacity _ _ _ _ | LengthOverflow _ _ => KindRangeExceedsCapacity
  | Io _ _ _ => KindIo
  | RuntimeUnavailable | Task _ _ => KindTask
  end.
Definition operation (e : DataFileError) : IoOperation :=
  match e with
  | InvalidCapacity => OpenDataFile
  | AlreadyOpen _ => LockFile
  | InvalidDataFile _ => InspectDataFile
  | RuntimeUnavailable => OpenDataFile
  | RangeExceedsCapacity o _ _ _ | LengthOverflow o _ | Io o _ _ | Task o _ => o
  end.

(** [Display] of [DataFileError]; paths and task failures are carried as the text
    they display, and the text of an [io::Error] comes from [show_io]. *)
Definition display_error (show_io : io_error → string) (e : DataFileError) : string :=
  match e with
  | InvalidCapacity =>
      "data-file capacity must be a positive multiple of 4096 and at most i64::MAX"
  | AlreadyOpen path => "cache file is already open: " +:+ path
  | InvalidDataFile path => "data-file path is not a regular file: " +:+ path
  | RangeExceedsCapacity o offset length capacity =>
      operation_as_str o +:+ " range at offset " +:+ pretty offset +:+ " with length "
        +:+ pretty length +:+ " exceeds data-file capacity " +:+ pretty capacity
  | LengthOverflow o length =>
      operation_as_str o +:+ " length " +:+ pretty length
        +:+ " cannot be represented as a u64"
  | Io o path source => operation_as_str o +:+ " failed for " +:+ path +:+ ": " +:+ show_io source
  | RuntimeUnavailable => "opening a data file requires an active Tokio runtime"
  | Task o source => "blocking " +:+ operation_as_str o +:+ " task failed: " +:+ source
  end%string.

Definition DataFileResult : Type → Type := result DataFileError.

(** The labels of operations and of error kinds are pairwise distinct, so
    metrics and traces of different operations never merge. *)
Lemma operation_as_str_inj o1 o2 : operation_as_str o1 = operation_as_str o2 → o1 = o2.
Proof. by destruct o1, o2. Qed.

Lemma kind_as_str_inj k1 k2 : kind_as_str k1 = kind_as_str k2 → k1 = k2.
Proof. by destruct k1, k2. Qed.

Example display_refused_range :
  display_error (λ _, ""%string) (RangeExceedsCapacity Read 4096 8192 10000)
  = "read range at offset 4096 with length 8192 exceeds data-file capacity 10000"%string.
Proof. vm_compute. reflexivity. Qed.
