(* ===== verification/Paths.v ===== *)
(** * File paths (what the code uses of [std::path] on Unix)

    A path is a byte string.  Its components are separated by slashes; empty
    components and dots are skipped, except a dot at the front.  The file name, the
    extension and the parent are read off the components, as the Standard Library
    documents them. *)

From Stdlib Require Import Ascii String.
From S2P Require Import Prelude.

(** ** Strings *)
Definition slash : ascii := "/"%char.
Definition nul : ascii := "000"%char.

Fixpoint starts_with (prefix s : string) : bool :=
  match prefix, s with
  | EmptyString, _ => true
  | String a prefix, String b s => Ascii.eqb a b && starts_with prefix s
  | _, _ => false
  end.

(** [str::contains] of a character, and [str::ends_with]. *)
Fixpoint contains_char (a : ascii) (s : string) : bool :=
  match s with EmptyString => false | String b s => Ascii.eqb a b || contains_char a s end.
Fixpoint ends_with (suffix s : string) : bool :=
  String.eqb suffix s || match s with EmptyString => false | String _ s => ends_with suffix s end.

(** ** Components *)
Inductive Component := RootDir | CurDir | ParentDir | Normal (name : string).
Global Instance Component_eq_dec : EqDecision Component.
Proof. solve_decision. Defined.

(** The pieces between slashes; one more than there are slashes. *)
Fixpoint split_at (sep : ascii) (s : string) : list string :=
  match s with
  | EmptyString => [EmptyString]
  | String c s =>
      if Ascii.eqb c sep then EmptyString :: split_at sep s
      else match split_at sep s with w :: ws => String c w :: ws | [] => [String c EmptyString] end
  end.

Definition body_component (w : string) : list Component :=
  if String.eqb w "" || String.eqb w "." then [] else if String.eqb w ".." then [ParentDir] else [Normal w].
Definition components (path : string) : list Component :=
  if String.eqb path "" then []
  else
    match split_at slash path with
    | [] => []
    | w :: ws =>
        (if String.eqb w "" then [RootDir] else if String.eqb w "." then [CurDir] else body_component w)
          ++ mjoin (body_component <$> ws)
    end.

(** [Path::file_name] *)
Definition file_name (path : string) : option string :=
  match last (components path) with Some (Normal name) => Some name | _ => None end.

(** [Path::parent], by its components: paths are compared by their components. *)
Definition parent (path : string) : option (list Component) :=
  match last (components path) with
  | Some (Normal _ | CurDir | ParentDir) => Some (take (pred (length (components path))) (components path))
  | _ => None
  end.

(** [Path::extension]: what follows the last dot, unless the name begins with it. *)
Definition extension_of_name (name : string) : option string :=
  if String.eqb name ".." then None
  else
    match reverse (split_at "."%char name) with
    | after :: before :: rest => if bool_decide (before = EmptyString ∧ rest = []) then None else Some after
    | _ => None
    end.
Definition extension (path : string) : option string := name ← file_name path; extension_of_name name.

(** [Path::join] *)
Definition path_join (base name : string) : string :=
  if starts_with "/" name then name
  else if String.eqb base "" || ends_with "/" base then (base ++ name)%string
  else (base ++ "/" ++ name)%string.

(** ** Plain names *)

(** A name that stands for an entry of a directory. *)
Definition plain_name (s : string) : Prop := contains_char slash s = false ∧ s ≠ ""%string ∧ s ≠ "."%string ∧ s ≠ ".."%string.
Global Instance plain_name_dec s : Decision (plain_name s).
Proof. unfold plain_name. apply _. Defined.

(** The names a data file may have: not a path, and not one of the lock files. *)
Definition valid_file_name (s : string) : Prop := plain_name s ∧ contains_char nul s = false ∧ starts_with ".feuer." s = false.

Lemma split_at_nonempty sep s : split_at sep s ≠ [].
Proof. destruct s as [|c s]; cbn; [done|]. destruct (Ascii.eqb c sep); [done|]. by destruct (split_at sep s). Qed.

(** Every piece is free of the separator. *)
Lemma split_at_free sep s : Forall (λ w, contains_char sep w = false) (split_at sep s).
Proof.
  induction s as [|c s IH]; cbn; [by repeat constructor|]. destruct (Ascii.eqb_spec c sep) as [->|Hne]; [by constructor|].
  destruct (split_at sep s) as [|w ws]; cbn.
  - constructor; [|done]. cbn. rewrite orb_false_r. apply Ascii.eqb_neq. congruence.
  - apply Forall_cons in IH as [Hw Hws]. constructor; [|done]. cbn. rewrite Hw, orb_false_r. apply Ascii.eqb_neq. congruence.
Qed.

Lemma split_at_no_sep sep s : contains_char sep s = false → split_at sep s = [s].
Proof.
  induction s as [|c s IH]; [done|]. cbn. intros [Hc Hs]%orb_false_iff. rewrite (IH Hs).
  destruct (Ascii.eqb_spec c sep) as [->|]; [by rewrite Ascii.eqb_refl in Hc|done].
Qed.

Lemma body_component_normal w c : c ∈ body_component w → ∀ n, c = Normal n → n = w ∧ w ≠ ""%string ∧ w ≠ "."%string ∧ w ≠ ".."%string.
Proof.
  unfold body_component. intros Hin name ->. destruct (String.eqb_spec w ""), (String.eqb_spec w "."), (String.eqb_spec w ".."); cbn in Hin;
    first [by apply elem_of_nil in Hin|apply list_elem_of_singleton in Hin; by simplify_eq].
Qed.

(** A component that is a name is a piece of the path. *)
Lemma component_is_plain path n : Normal n ∈ components path → plain_name n.
Proof.
  unfold components. destruct (String.eqb path ""); [by intros ?%elem_of_nil|].
  pose proof (split_at_free slash path) as Hfree. destruct (split_at slash path) as [|w ws]; [by intros ?%elem_of_nil|].
  apply Forall_cons in Hfree as [Hw Hws]. intros [Hin|Hin]%elem_of_app.
  - assert (Normal n ∈ body_component w) as Hb.
    { destruct (String.eqb w ""); [by apply list_elem_of_singleton in Hin|]. destruct (String.eqb w "."); [by apply list_elem_of_singleton in Hin|done]. }
    destruct (body_component_normal _ _ Hb n eq_refl) as (-> & ? & ? & ?). done.
  - apply list_elem_of_join in Hin as (l & Hin & (v & -> & Hv)%list_elem_of_fmap).
    destruct (body_component_normal _ _ Hin n eq_refl) as (-> & ? & ? & ?). rewrite Forall_forall in Hws. by split_and!; [apply Hws|..].
Qed.

(** The test of a file name: a path is its own file name exactly when it is plain. *)
Lemma file_name_self s : file_name s = Some s ↔ plain_name s.
Proof.
  split.
  - unfold file_name. intros Hf. destruct (last (components s)) as [c|] eqn:Hl; [|done].
    destruct c; try done. injection Hf as ->. apply last_Some_elem_of in Hl. by eapply component_is_plain.
  - intros (Hs & H0 & H1 & H2). unfold file_name, components. rewrite (proj2 (String.eqb_neq _ _) H0), (split_at_no_sep _ _ Hs).
    unfold body_component. rewrite (proj2 (String.eqb_neq _ _) H0), (proj2 (String.eqb_neq _ _) H1), (proj2 (String.eqb_neq _ _) H2). done.
Qed.

Lemma plain_not_absolute n : plain_name n → starts_with "/" n = false.
Proof. intros (Hn & _). destruct n as [|c n]; [done|]. cbn in Hn |- *. apply orb_false_iff in Hn as [Hc _]. by rewrite Hc. Qed.

(** ** Appending strings *)
Lemma string_app_cons c (s t : string) : (String c s ++ t)%string = String c (s ++ t).
Proof. done. Qed.

Lemma string_app_nil_r (s : string) : (s ++ "")%string = s.
Proof. induction s as [|c s IH]; [done|]. rewrite !string_app_cons. cbn. by rewrite IH. Qed.

Lemma string_app_assoc (a b c : string) : ((a ++ b) ++ c)%string = (a ++ b ++ c)%string.
Proof. induction a as [|x a IH]; [done|]. rewrite !string_app_cons. cbn. by rewrite IH. Qed.

Lemma string_app_inj_l (a b c : string) : (a ++ b = a ++ c → b = c)%string.
Proof. induction a as [|x a IH]; [done|]. rewrite !string_app_cons. intros [= ?]. auto. Qed.

Lemma string_length_app (a b : string) : String.length (a ++ b) = (String.length a + String.length b)%nat.
Proof. induction a as [|x a IH]; [done|]. rewrite !string_app_cons. cbn. by rewrite IH. Qed.

Lemma string_app_inj_r (a b c : string) : (a ++ c = b ++ c → a = b)%string.
Proof.
  revert b. induction a as [|x a IH]; intros [|y b] Heq; rewrite ?string_app_cons in Heq; [done| | |].
  - apply (f_equal String.length) in Heq. change ("" ++ c)%string with c in Heq. cbn in Heq. rewrite string_length_app in Heq. lia.
  - apply (f_equal String.length) in Heq. change ("" ++ c)%string with c in Heq. cbn in Heq. rewrite string_length_app in Heq. lia.
  - injection Heq as -> ?. f_equal. auto.
Qed.

Lemma contains_char_app a s t : contains_char a (s ++ t) = contains_char a s || contains_char a t.
Proof. induction s as [|c s IH]; [done|]. rewrite string_app_cons. cbn. by rewrite IH, orb_assoc. Qed.

Lemma starts_with_app p s : starts_with p (p ++ s) = true.
Proof. induction p as [|c p IH]; [done|]. rewrite string_app_cons. cbn. by rewrite Ascii.eqb_refl. Qed.

(** Joining a plain name appends it to the directory and a slash. *)
Definition directory_prefix (d : string) : string := if String.eqb d "" || ends_with "/" d then d else (d ++ "/")%string.

Lemma path_join_plain d n : plain_name n → path_join d n = (directory_prefix d ++ n)%string.
Proof.
  intros Hn. unfold path_join, directory_prefix. rewrite plain_not_absolute by done.
  destruct (String.eqb d "" || ends_with "/" d); [done|]. by rewrite string_app_assoc.
Qed.

(** What precedes and what follows the last slash. *)
Fixpoint split_last (s : string) : string * string :=
  match s with
  | EmptyString => (EmptyString, EmptyString)
  | String c s =>
      let '(dir, name) := split_last s in
      if contains_char slash s then (String c dir, name)
      else if Ascii.eqb c slash then (String c EmptyString, s) else (EmptyString, String c s)
  end.

Lemma split_last_plain s : contains_char slash s = false → split_last s = (EmptyString, s).
Proof.
  destruct s as [|c s]; [done|]. cbn [split_last contains_char]. intros [Hc Hs]%orb_false_iff. rewrite Hs.
  destruct (split_last s). rewrite Ascii.eqb_sym, Hc. done.
Qed.

Lemma split_last_app p n : (p = ""%string ∨ ends_with "/" p = true) → contains_char slash n = false → split_last (p ++ n) = (p, n).
Proof.
  intros Hp Hn. induction p as [|c p IH]; [by apply split_last_plain|]. rewrite string_app_cons. cbn [split_last].
  destruct Hp as [|Hp]; [done|]. cbn [ends_with] in Hp. apply orb_true_iff in Hp as [[= <- <-]%String.eqb_eq|Hp].
  - change ("" ++ n)%string with n. rewrite Hn. destruct (split_last n). done.
  - rewrite IH by auto. rewrite contains_char_app. assert (Hs : contains_char slash p = true).
    { clear -Hp. induction p as [|x p IH]; [done|]. cbn [ends_with contains_char] in *. apply orb_true_iff in Hp as [[= <- <-]%String.eqb_eq|Hp]; [done|].
      rewrite IH by done. by rewrite orb_true_r. }
    by rewrite Hs.
Qed.

Lemma directory_prefix_ends d : directory_prefix d = ""%string ∨ ends_with "/" (directory_prefix d) = true.
Proof.
  unfold directory_prefix. destruct (String.eqb_spec d "") as [->|Hd]; [by left|right]. cbn [orb].
  destruct (ends_with "/" d) eqn:He; [done|]. clear. induction d as [|c d IH]; [done|]. rewrite string_app_cons. cbn [ends_with]. by rewrite IH, orb_true_r.
Qed.

Lemma split_last_join d n : plain_name n → split_last (path_join d n) = (directory_prefix d, n).
Proof. intros Hn. rewrite path_join_plain by done. apply split_last_app; [apply directory_prefix_ends|apply Hn]. Qed.

(** Examples from the documentation of [std::path]. *)
Example path_examples :
  components "/a/./b//c/." = [RootDir; Normal "a"; Normal "b"; Normal "c"]
  ∧ components "./a/../b" = [CurDir; Normal "a"; ParentDir; Normal "b"]
  ∧ file_name "/usr/bin/" = Some "bin"%string ∧ file_name "foo.txt/.." = None
  ∧ extension "foo.rs" = Some "rs"%string ∧ extension ".gitignore" = None ∧ extension "a.tar.zst" = Some "zst"%string ∧ extension "data" = None.
Proof. by vm_compute. Qed.
