(* ===== verification/Disk.v ===== *)
(** * The backing file as an interface

    A disk is a function from byte addresses to bytes.  [StorageFile] states
    what the disk cache relies on from its data file ([DataFile::read_at],
    [DataFile::read_payload], [DataFile::write_at], [DataFile::write_padded],
    [DataFile::sync_all]): a successful read returns the current contents, a
    successful write replaces exactly its range, and a failed operation changes
    nothing outside its range.  The file's state [F] carries whatever decides
    failures.  Clients are proved against this interface; [DataFile] in File.v
    discharges it from the io_uring request machinery. *)

From S2P Require Import Prelude Codec Errors.

Definition disk := Z → byte.

Definition disk_read (d : disk) (address : Z) (n : nat) : list byte :=
  (λ i, d (address + Z.of_nat i)) <$> seq 0 n.
Definition disk_write (d : disk) (address : Z) (bytes : list byte) : disk := λ a,
  if decide (address ≤ a) then default (d a) (bytes !! Z.to_nat (a - address)) else d a.

(** The two disks differ at most in [address, address + n). *)
Definition agree_outside (address : Z) (n : Z) (d d' : disk) : Prop :=
  ∀ a, a < address ∨ address + n ≤ a → d' a = d a.

(** Alignment of direct I/O, and the disk bytes a payload takes
    ([file.rs], [uring.rs], [feuer-memory/src/buffer.rs]). *)
Definition BUFFER_ALIGNMENT : Z := 4096.
Definition DIRECT_IO_ALIGNMENT_BYTES : Z := BUFFER_ALIGNMENT.
Definition payload_disk_bytes (length : Z) : Z :=
  next_multiple_of (Z.max length 1) DIRECT_IO_ALIGNMENT_BYTES.

Definition aligned (z : Z) : Prop := z mod DIRECT_IO_ALIGNMENT_BYTES = 0.

Class StorageFile (F : Type) := mkStorageFile {
  capacity : F → Z;
  contents : F → disk;
  read_at : F → Z → nat → outcome (F * DataFileResult (list byte));
  write_padded : F → Z → Z → list byte → outcome (F * DataFileResult ());
  sync_all : F → F * DataFileResult ()
}.

(** [DataFile::write_at] *)
Definition write_at `{StorageFile F} (f : F) (offset : Z) (bytes : list byte) : outcome (F * DataFileResult ()) :=
  _ ← assert_that (is_multiple_of offset DIRECT_IO_ALIGNMENT_BYTES);
  _ ← assert_that (is_multiple_of (Z.of_nat (length bytes)) DIRECT_IO_ALIGNMENT_BYTES);
  write_padded f offset (Z.of_nat (length bytes)) bytes.

Class StorageFileOk (F : Type) `{StorageFile F} : Prop := mkStorageFileOk {
  read_at_ok : ∀ f offset n, 0 ≤ offset →
    ∃ f' r, read_at f offset n = Done (f', r) ∧ capacity f' = capacity f ∧ contents f' = contents f
      ∧ (∀ bytes, r = Ok bytes → offset + Z.of_nat n ≤ capacity f ∧ bytes = disk_read (contents f) offset n)
      ∧ (capacity f < offset + Z.of_nat n → ∃ e, r = Err e ∧ kind e = KindRangeExceedsCapacity);
  write_padded_ok : ∀ f offset len bytes, 0 ≤ offset → aligned offset → aligned len →
    Z.of_nat (length bytes) ≤ len →
    ∃ f' r, write_padded f offset len bytes = Done (f', r) ∧ capacity f' = capacity f
      ∧ agree_outside offset len (contents f) (contents f')
      ∧ (r = Ok () → offset + len ≤ capacity f
           ∧ ∀ a, contents f' a = disk_write (contents f) offset
                    (bytes ++ zeros (Z.to_nat (len - Z.of_nat (length bytes)))) a)
      ∧ (capacity f < offset + len → contents f' = contents f ∧ ∃ e, r = Err e ∧ kind e = KindRangeExceedsCapacity);
  sync_all_ok : ∀ f, capacity (sync_all f).1 = capacity f ∧ contents (sync_all f).1 = contents f
}.

(** ** Reading what was written *)
Lemma length_disk_read d a n : length (disk_read d a n) = n.
Proof. unfold disk_read. by rewrite length_fmap, length_seq. Qed.

Lemma lookup_disk_read d a n i :
  disk_read d a n !! i = if decide (i < n)%nat then Some (d (a + Z.of_nat i)) else None.
Proof.
  unfold disk_read. rewrite list_lookup_fmap. case_decide.
  - by rewrite lookup_seq_lt.
  - by rewrite lookup_seq_ge by lia.
Qed.

Lemma disk_read_ext d d' a n :
  (∀ i, a ≤ i < a + Z.of_nat n → d i = d' i) → disk_read d a n = disk_read d' a n.
Proof.
  intros Heq. apply list_eq. intros i. rewrite !lookup_disk_read. case_decide; [|done].
  rewrite Heq; [done|lia].
Qed.

Lemma disk_read_eq d a (bytes : list byte) n :
  length bytes = n → (∀ i b, bytes !! i = Some b → d (a + Z.of_nat i) = b) → disk_read d a n = bytes.
Proof.
  intros Hl Heq. apply list_eq. intros i. rewrite lookup_disk_read. case_decide.
  - destruct (lookup_lt_is_Some_2 bytes i) as [b Hb]; [lia|]. rewrite Hb. by rewrite (Heq i b).
  - rewrite lookup_ge_None_2 by lia. done.
Qed.

Lemma disk_write_in d a bytes i b : bytes !! i = Some b → disk_write d a bytes (a + Z.of_nat i) = b.
Proof.
  intros Hb. unfold disk_write. rewrite decide_True by lia.
  replace (Z.to_nat (a + Z.of_nat i - a)) with i by lia. by rewrite Hb.
Qed.

Lemma disk_write_out d a bytes x :
  x < a ∨ a + Z.of_nat (length bytes) ≤ x → disk_write d a bytes x = d x.
Proof.
  intros Hx. unfold disk_write. case_decide; [|done]. rewrite lookup_ge_None_2; [done|lia].
Qed.

Lemma disk_read_write_same d a bytes : disk_read (disk_write d a bytes) a (length bytes) = bytes.
Proof. apply disk_read_eq; [done|]. intros i b Hb. by apply disk_write_in. Qed.

Lemma disk_read_write_part d a bytes1 bytes2 bytes3 :
  disk_read (disk_write d a (bytes1 ++ bytes2 ++ bytes3)) (a + Z.of_nat (length bytes1)) (length bytes2) = bytes2.
Proof.
  apply disk_read_eq; [done|]. intros i b Hb.
  replace (a + Z.of_nat (length bytes1) + Z.of_nat i) with (a + Z.of_nat (length bytes1 + i)) by lia.
  apply disk_write_in. rewrite lookup_app_r by lia. rewrite lookup_app_l by (apply lookup_lt_Some in Hb; lia).
  by replace (length bytes1 + i - length bytes1)%nat with i by lia.
Qed.

Lemma disk_read_app d a n m :
  disk_read d a (n + m) = disk_read d a n ++ disk_read d (a + Z.of_nat n) m.
Proof.
  apply list_eq. intros i. destruct (decide (i < n)%nat).
  - rewrite lookup_app_l by (by rewrite length_disk_read). rewrite !lookup_disk_read.
    by rewrite !decide_True by lia.
  - rewrite lookup_app_r, length_disk_read by (rewrite length_disk_read; lia). rewrite !lookup_disk_read.
    repeat case_decide; try lia; [|done]. f_equal. f_equal. lia.
Qed.

Lemma payload_disk_bytes_spec len :
  0 ≤ len → aligned (payload_disk_bytes len) ∧ len ≤ payload_disk_bytes len < len + 4097
            ∧ 4096 ≤ payload_disk_bytes len.
Proof.
  intros Hlen. unfold payload_disk_bytes, aligned, DIRECT_IO_ALIGNMENT_BYTES, BUFFER_ALIGNMENT.
  pose proof (next_multiple_of_mod (Z.max len 1) 4096 ltac:(done)) as Hmod.
  pose proof (next_multiple_of_bounds (Z.max len 1) 4096 ltac:(done)).
  split_and!; [done|lia|lia|].
  apply Z.nlt_ge. intros Hlt. rewrite Z.mod_small in Hmod; lia.
Qed.

Lemma aligned_b z : aligned z → is_multiple_of z DIRECT_IO_ALIGNMENT_BYTES = true.
Proof. intros. by apply is_multiple_of_spec. Qed.

Lemma chunk_aligned n : aligned (n * 1048576).
Proof. unfold aligned, DIRECT_IO_ALIGNMENT_BYTES, BUFFER_ALIGNMENT. replace (n * 1048576) with (n * 256 * 4096) by lia. by apply Z.mod_mul. Qed.

(** ** A file held in memory

    The smallest instance: each operation succeeds or fails as scripted, and a
    failed operation leaves the contents alone. *)
Record RamFile := mkRamFile { ram_capacity : Z; ram_contents : disk; ram_faults : list bool }.

Definition ram_check (op : IoOperation) (f : RamFile) (offset len : Z) : DataFileResult () :=
  if offset + len <=? ram_capacity f
  then if default false (head (ram_faults f)) then Err (Io op String.EmptyString (OsError 5)) else Ok ()
  else Err (RangeExceedsCapacity op offset len (ram_capacity f)).
Definition ram_next (f : RamFile) (d : disk) : RamFile := mkRamFile (ram_capacity f) d (tail (ram_faults f)).

Global Instance ram_file : StorageFile RamFile := {|
  capacity := ram_capacity;
  contents := ram_contents;
  read_at f offset n :=
    Done (ram_next f (ram_contents f),
          _ ← ram_check Read f offset (Z.of_nat n); Ok (disk_read (ram_contents f) offset n));
  write_padded f offset len bytes :=
    match ram_check Write f offset len with
    | Ok _ => Done (ram_next f (disk_write (ram_contents f) offset
                      (bytes ++ zeros (Z.to_nat (len - Z.of_nat (length bytes))))), Ok ())
    | Err e => Done (ram_next f (ram_contents f), Err e)
    end;
  sync_all f := (f, Ok ())
|}.

Global Instance ram_file_ok : StorageFileOk RamFile.
Proof.
  split.
  - intros f offset n Hoff. eexists _, _. split; [done|]. split_and!; try done; unfold ram_check; cbn.
    + intros bytes. destruct (Z.leb_spec (offset + Z.of_nat n) (ram_capacity f)); [|done].
      destruct (default _ _); [done|]. intros [= <-]. done.
    + intros Hlt. rewrite (proj2 (Z.leb_gt _ _)) by done. eauto.
  - intros f offset len bytes Hoff _ _ Hlen. cbn. unfold ram_check.
    destruct (Z.leb_spec (offset + len) (ram_capacity f)) as [Hle|Hgt]; [destruct (default _ _)|].
    + eexists _, _. split; [done|]. split_and!; try done. lia.
    + eexists _, _. split; [done|]. split_and!; try done; [|lia].
      intros a Ha. apply disk_write_out. rewrite length_app, length_zeros. lia.
    + eexists _, _. split; [done|]. split_and!; try done. eauto.
  - done.
Qed.
