(* ===== verification/Float64.v ===== *)
(** * Floating-point values of the retention policy

    [f64] is the Standard Library's executable specification of IEEE 754
    binary64 ([SpecFloat], precision 53, exponent limit 1024, round to nearest
    even).  The conversions and the total order are the ones the policy uses:
    [u64 as f64], [f64 as u32], [f32::from_bits(_) as f64], [f64::total_cmp]. *)

From Stdlib Require Export SpecFloat.
From S2P Require Import Prelude.

Definition f64 : Type := spec_float.

Definition f64_of_Z (z : Z) : f64 := binary_normalize 53 1024 z 0 false.
Definition f64_add : f64 → f64 → f64 := SFadd 53 1024.
Definition f64_sub : f64 → f64 → f64 := SFsub 53 1024.
Definition f64_mul : f64 → f64 → f64 := SFmul 53 1024.
Definition f64_div : f64 → f64 → f64 := SFdiv 53 1024.
Definition f64_ge (a b : f64) : bool := SFleb b a.

(** [f as u32]: truncates towards zero and saturates; NaN becomes zero. *)
Definition f64_to_u32 (f : f64) : Z :=
  match f with
  | S754_finite false m e => Z.min (2 ^ 32 - 1) (if 0 <=? e then Z.pos m * 2 ^ e else Z.pos m / 2 ^ (- e))
  | S754_infinity false => 2 ^ 32 - 1
  | _ => 0
  end.

(** [f32::from_bits(bits) as f64]: every binary32 value is a binary64 value. *)
Definition f32_bits_to_f64 (bits : Z) : f64 :=
  let s := Z.testbit bits 31 in
  let exponent := Z.land (Z.shiftr bits 23) 255 in
  let mantissa := Z.land bits (2 ^ 23 - 1) in
  if exponent =? 255 then (if mantissa =? 0 then S754_infinity s else S754_nan)
  else
    let m := if exponent =? 0 then mantissa else mantissa + 2 ^ 23 in
    binary_normalize 53 1024 (if s then - m else m) (Z.max exponent 1 - 150) s.

(** [f64::total_cmp] compares the bit patterns as integers, with the order of
    the negative ones reversed. *)
Definition total_cmp_key (f : f64) : Z :=
  let magnitude := match f with
                   | S754_zero _ => 0
                   | S754_finite _ m e => (e + 1074) * 2 ^ 52 + Z.pos m
                   | S754_infinity _ => 2047 * 2 ^ 52
                   | S754_nan => 2047 * 2 ^ 52 + 2 ^ 51
                   end in
  match f with
  | S754_zero true | S754_finite true _ _ | S754_infinity true => - 1 - magnitude
  | _ => magnitude
  end.
Definition total_cmp (a b : f64) : comparison := Z.compare (total_cmp_key a) (total_cmp_key b).

(** ** [total_cmp] is a total preorder, so [min_by] finds a least element. *)
Lemma total_cmp_trans a b c : total_cmp a b ≠ Gt → total_cmp b c ≠ Gt → total_cmp a c ≠ Gt.
Proof. unfold total_cmp. rewrite !Z.compare_ngt_iff. lia. Qed.

Lemma total_cmp_asym a b : total_cmp a b = Gt → total_cmp b a ≠ Gt.
Proof. unfold total_cmp. rewrite Z.compare_gt_iff, Z.compare_ngt_iff. lia. Qed.

Lemma total_cmp_refl a : total_cmp a a ≠ Gt.
Proof. unfold total_cmp. by rewrite Z.compare_refl. Qed.

(** The constants of the sources that are not integers of the model. *)
Example f64_half : f64_div (f64_of_Z 1) (f64_of_Z 2) = S754_finite false 4503599627370496 (-53).
Proof. reflexivity. Qed.

Example total_cmp_negative_zero : total_cmp (S754_zero true) (S754_zero false) = Lt.
Proof. reflexivity. Qed.
