(* ===== verification/Retention.v ===== *)
(** * Retention policy ([feuer-memory/src/retention.rs])

    The sampling of eviction candidates and the two cost scorers.  A scorer is
    an instance of [RetentionScorer]: the tiers are proved against the class,
    whatever scores it returns. *)

From S2P Require Import Prelude Float64.

(** [trait RetentionScorer], over the request history [H] it consults. *)
Class RetentionScorer (H : Type) := score : H → Z → Z → f64.

(** What the provided scorers ask of the history
    ([ObjectAccessHistories::decayed_request_count]). *)
Class RequestHistory (H : Type) := decayed_request_count : H → Z → f64.

(** [FetchCostScorer] *)
Record FetchCostScorer := mkFetchCostScorer { cost_per_request : f64; cost_per_byte : f64 }.
Definition default_FetchCostScorer : FetchCostScorer := mkFetchCostScorer (S754_zero false) (f64_of_Z 1).

Definition fetch_cost_score `{RequestHistory H} (scorer : FetchCostScorer) (histories : H) (key payload_len : Z) : f64 :=
  let fetch_cost := f64_add (cost_per_request scorer) (f64_mul (f64_of_Z payload_len) (cost_per_byte scorer)) in
  f64_div (f64_mul (decayed_request_count histories key) fetch_cost) (f64_of_Z (Z.max payload_len 1)).

(** [CacheReadSavingsScorer] *)
Record CacheReadSavingsScorer := mkCacheReadSavingsScorer {
  fallback_cost_per_request : f64;
  fallback_cost_per_byte : f64;
  cache_read_cost_per_request : f64;
  cache_read_cost_per_byte : f64
}.

Definition cache_read_savings_score `{RequestHistory H} (scorer : CacheReadSavingsScorer)
    (histories : H) (key payload_len : Z) : f64 :=
  let len := f64_of_Z payload_len in
  let fallback_cost := f64_add (fallback_cost_per_request scorer) (f64_mul len (fallback_cost_per_byte scorer)) in
  let cache_read_cost := f64_add (cache_read_cost_per_request scorer) (f64_mul len (cache_read_cost_per_byte scorer)) in
  f64_div (f64_mul (decayed_request_count histories key) (f64_sub fallback_cost cache_read_cost))
          (f64_of_Z (Z.max payload_len 1)).

Definition RECLAIM_SAMPLE_SIZE : nat := 64.

(** [sample_candidates]: the next sample start and the candidates sampled. *)
Definition sample_candidates {A} (next_sample_start : nat) (candidates : list A) (sample_size : nat)
  : nat * list A :=
  let candidate_count := length candidates in
  let sample_start := (next_sample_start mod (Nat.max candidate_count 1))%nat in
  let next_sample_start :=
    if (0 <? candidate_count)%nat
    then ((sample_start + Nat.min candidate_count sample_size) mod candidate_count)%nat
    else next_sample_start in
  (next_sample_start, take sample_size (drop sample_start candidates ++ take sample_start candidates)).

(** [rounds] samples in a row from an unchanged list. *)
Fixpoint sample_rounds {A} (rounds start : nat) (candidates : list A) (sample_size : nat) : list A :=
  match rounds with
  | O => []
  | S rounds =>
      let '(start, sampled) := sample_candidates start candidates sample_size in
      sampled ++ sample_rounds rounds start candidates sample_size
  end.

(** ** Sampling *)
Section sampling.
Context {A : Type}.
Implicit Types candidates : list A.

Lemma sample_candidates_lookup start candidates n i :
  candidates ≠ [] →
  (sample_candidates start candidates n).2 !! i =
  if decide (i < Nat.min (length candidates) n)%nat
  then candidates !! ((start + i) mod length candidates)%nat else None.
Proof.
  intros Hne. destruct (decide (length candidates = 0%nat)) as [?|Hlen]; [by destruct candidates|].
  unfold sample_candidates. cbn [snd]. rewrite Nat.max_l by lia.
  set (k := length candidates) in *. set (s := (start mod k)%nat).
  assert (Hs : (s < k)%nat) by (by apply Nat.mod_upper_bound).
  assert (Hlen' : length (drop s candidates ++ take s candidates) = k).
  { rewrite length_app, length_drop, length_take. fold k. lia. }
  case_decide as Hi; [|apply lookup_ge_None_2; rewrite length_take; lia].
  rewrite lookup_take_lt by lia.
  assert (Hmod : ((start + i) mod k = (s + i) mod k)%nat) by (unfold s; by rewrite Nat.Div0.add_mod_idemp_l).
  rewrite Hmod. destruct (decide (s + i < k)%nat).
  - rewrite lookup_app_l by (rewrite length_drop; fold k; lia). rewrite lookup_drop.
    by rewrite Nat.mod_small.
  - rewrite lookup_app_r by (rewrite length_drop; fold k; lia). rewrite length_drop. fold k.
    rewrite lookup_take_lt by lia. f_equal.
    assert (((s + i) mod k = s + i - k)%nat) as -> by (symmetry; apply (Nat.mod_unique _ _ 1); lia). lia.
Qed.

Lemma sample_candidates_length start candidates n :
  length (sample_candidates start candidates n).2 = Nat.min (length candidates) n.
Proof.
  unfold sample_candidates. cbn [snd]. rewrite length_take, length_app, length_drop, length_take.
  destruct (decide (length candidates = 0%nat)) as [->|?]; [cbn; lia|].
  assert (start mod Nat.max (length candidates) 1 < Nat.max (length candidates) 1)%nat
    by (apply Nat.mod_upper_bound; lia). lia.
Qed.

Lemma sample_candidates_elem start candidates n x :
  x ∈ (sample_candidates start candidates n).2 → x ∈ candidates.
Proof.
  unfold sample_candidates. cbn [snd]. intros Hx. apply subseteq_take in Hx.
  apply elem_of_app in Hx as [Hx|Hx]; [by apply subseteq_drop in Hx|by apply subseteq_take in Hx].
Qed.

Lemma sample_candidates_start start candidates n :
  candidates ≠ [] →
  (sample_candidates start candidates n).1 = ((start + Nat.min (length candidates) n) mod length candidates)%nat.
Proof.
  intros Hne. destruct (decide (length candidates = 0%nat)) as [?|Hlen]; [by destruct candidates|].
  unfold sample_candidates. cbn [fst]. rewrite (proj2 (Nat.ltb_lt _ _)) by lia.
  rewrite Nat.max_l by lia. by rewrite Nat.Div0.add_mod_idemp_l.
Qed.

Lemma sample_rounds_lookup rounds start candidates n i :
  candidates ≠ [] → (i < rounds * Nat.min (length candidates) n)%nat →
  sample_rounds rounds start candidates n !! i = candidates !! ((start + i) mod length candidates)%nat.
Proof.
  intros Hne. revert start i. induction rounds as [|rounds IH]; intros start i Hi; [lia|].
  cbn [sample_rounds]. destruct (sample_candidates start candidates n) as [start' sampled] eqn:Hsc.
  assert (Hl : length sampled = Nat.min (length candidates) n)
    by (by rewrite <-(sample_candidates_length start), Hsc).
  destruct (decide (i < length sampled)%nat).
  - rewrite lookup_app_l by done. pose proof (sample_candidates_lookup start candidates n i Hne) as Hlk.
    rewrite Hsc in Hlk. cbn [snd] in Hlk. rewrite Hlk, decide_True by lia. done.
  - rewrite lookup_app_r by lia. rewrite IH by lia. f_equal.
    pose proof (sample_candidates_start start candidates n Hne) as Hst. rewrite Hsc in Hst. cbn [fst] in Hst.
    rewrite Hst, Nat.Div0.add_mod_idemp_l. f_equal. lia.
Qed.
End sampling.

(** C39: sampling rotates through the candidates without skipping any: over an
    unchanged list, enough consecutive samples inspect every candidate, and each
    sample inspects [min count size] of them. *)
Theorem sampling_covers_all {A} rounds start (candidates : list A) sample_size x :
  (length candidates ≤ rounds * Nat.min (length candidates) sample_size)%nat →
  x ∈ candidates → x ∈ sample_rounds rounds start candidates sample_size.
Proof.
  intros Hcover (j & Hj)%list_elem_of_lookup.
  assert (Hne : candidates ≠ []) by (intros ->; done).
  pose proof (lookup_lt_Some _ _ _ Hj) as Hlt. set (k := length candidates) in *.
  (* the position of the sample that reaches index j *)
  set (i := ((j + k - start mod k) mod k)%nat).
  assert (Hi : (i < k)%nat) by (apply Nat.mod_upper_bound; lia).
  assert (Hs : (start mod k < k)%nat) by (apply Nat.mod_upper_bound; lia).
  apply list_elem_of_lookup. exists i. rewrite sample_rounds_lookup by (done || lia). fold k.
  rewrite <-Hj. f_equal. rewrite <-Nat.Div0.add_mod_idemp_l. unfold i.
  rewrite Nat.Div0.add_mod_idemp_r.
  replace (start mod k + (j + k - start mod k))%nat with (j + 1 * k)%nat by lia.
  rewrite Nat.Div0.mod_add. by apply Nat.mod_small.
Qed.

Lemma sampling_covers_all_witness :
  3 ∈ sample_rounds 3 4 [1; 2; 3; 4; 5] 2.
Proof. apply sampling_covers_all; [cbn; lia|set_solver]. Defined.
