(* ===== verification/Historian.v ===== *)
(** * Request history ([feuer-historian/src/lib.rs])

    One decayed request counter per object key, kept in 64 maps selected by the
    key's hash, and the cleanup that removes the least recently requested keys.
    The process hash ([FxBuildHasher]) is a parameter. *)

From S2P Require Import Prelude Float64 Retention.

(** [FxBuildHasher.hash_one(key)]; any function will do. *)
Class FxHasher := fx_hash : Z → Z.

Definition ACCESS_HISTORY_SHARDS : Z := 64.
Definition DEFAULT_ACCESS_COUNT_HALF_LIFE : Z := 262144.
Definition DEFAULT_HISTORY_ENTRY_LIMIT : Z := 2000000.

Record DecayedRequestCount := mkDecayedRequestCount { count : f64; last_update_clock : Z }.
Definition default_DecayedRequestCount : DecayedRequestCount := mkDecayedRequestCount (S754_zero false) 0.

Record ObjectAccessHistories := mkHistories {
  history_shards : list (gmap Z DecayedRequestCount);
  request_count : Z;
  half_life : Z
}.

(** [DecayedRequestCount::decayed_count] *)
Definition decayed_count (c : DecayedRequestCount) (request_clock half_life : Z) : f64 :=
  let requests_since_update := saturating_sub request_clock (last_update_clock c) in
  let half_lives_elapsed := f64_div (f64_of_Z requests_since_update) (f64_of_Z half_life) in
  if f64_ge half_lives_elapsed (f64_of_Z 126) then S754_zero false
  else
    let exponent_bias := f64_of_Z 127 in
    let mantissa_scale := f64_of_Z (Z.shiftl 1 23) in
    let float_bits := f64_to_u32 (f64_mul (f64_sub exponent_bias half_lives_elapsed) mantissa_scale) in
    f64_mul (count c) (f32_bits_to_f64 float_bits).

(** [DecayedRequestCount::add_request] *)
Definition add_request (c : DecayedRequestCount) (request_clock half_life : Z) : DecayedRequestCount :=
  mkDecayedRequestCount (f64_add (decayed_count c request_clock half_life) (f64_of_Z 1)) request_clock.

Section histories.
Context `{FxHasher}.

(** [ObjectAccessHistories::shard] *)
Definition history_shard_index (h : ObjectAccessHistories) (key : Z) : nat :=
  Z.to_nat (fx_hash key mod Z.of_nat (length (history_shards h))).

(** [with_half_life_and_entry_limit], without its cleanup thread. *)
Definition with_half_life (half_life : Z) : ObjectAccessHistories :=
  mkHistories (replicate (Z.to_nat ACCESS_HISTORY_SHARDS) ∅) 0 half_life.

(** [ObjectAccessHistories::record_request] *)
Definition record_request (h : ObjectAccessHistories) (key : Z) : outcome ObjectAccessHistories :=
  let i := history_shard_index h key in
  histories ← unwrap (history_shards h !! i);
  let request_clock := request_count h ⊕ 1 in
  let entry := add_request (default default_DecayedRequestCount (histories !! key)) request_clock (half_life h) in
  Done (mkHistories (<[i := <[key := entry]> histories]> (history_shards h)) request_clock (half_life h)).

(** [ObjectAccessHistories::decayed_request_count] *)
Definition history_decayed_request_count (h : ObjectAccessHistories) (key : Z) : f64 :=
  match history_shards h !! history_shard_index h key with
  | Some histories =>
      match histories !! key with
      | Some c => decayed_count c (request_count h) (half_life h)
      | None => S754_zero false
      end
  | None => S754_zero false
  end.

Global Instance histories_request_history : RequestHistory ObjectAccessHistories := history_decayed_request_count.

Definition clocks_of (m : gmap Z DecayedRequestCount) : list Z := (λ kv, last_update_clock kv.2) <$> map_to_list m.

(** [ObjectAccessHistories::remove_oldest]; [select_nth_unstable] is the element
    of that rank in sorted order. *)
Definition remove_oldest (shards : list (gmap Z DecayedRequestCount)) (limit : Z)
  : outcome (list (gmap Z DecayedRequestCount)) :=
  let count := zsum (λ m, Z.of_nat (size m)) shards in
  if count <=? limit then Done shards
  else
    let clocks := concat (clocks_of <$> shards) in
    let entries_to_keep := limit - limit / 10 in
    let entries_to_remove := Z.of_nat (length clocks) - entries_to_keep in
    let cutoff_index := entries_to_remove - 1 in
    cutoff ← unwrap (merge_sort Z.le clocks !! Z.to_nat cutoff_index);
    Done (filter (λ kv, cutoff < last_update_clock kv.2) <$> shards).

(** ** The history's invariant: no two keys were last requested at the same
    clock, no clock is ahead of the request clock, and every key sits in the
    shard its hash selects. *)
Record history_ok (h : ObjectAccessHistories) : Prop := mkHistoryOk {
  ho_shards : Z.of_nat (length (history_shards h)) = ACCESS_HISTORY_SHARDS;
  ho_clock : 0 ≤ request_count h;
  ho_past : ∀ i m k c, history_shards h !! i = Some m → m !! k = Some c →
              0 < last_update_clock c ≤ request_count h;
  ho_distinct : ∀ i m k c i' m' k' c',
     history_shards h !! i = Some m → m !! k = Some c →
     history_shards h !! i' = Some m' → m' !! k' = Some c' →
     last_update_clock c = last_update_clock c' → i = i' ∧ k = k';
  ho_home : ∀ i m k c, history_shards h !! i = Some m → m !! k = Some c → i = history_shard_index h k
}.
End histories.

(** ** Clocks *)
Lemma elem_of_clocks_of m z : z ∈ clocks_of m ↔ ∃ k c, m !! k = Some c ∧ last_update_clock c = z.
Proof.
  unfold clocks_of. rewrite list_elem_of_fmap. split.
  - intros ([k c] & -> & Hin%elem_of_map_to_list). eauto.
  - intros (k & c & Hk & <-). exists (k, c). by rewrite elem_of_map_to_list.
Qed.

Lemma elem_of_all_clocks shards z :
  z ∈ concat (clocks_of <$> shards) ↔
  ∃ i m k c, shards !! i = Some m ∧ m !! k = Some c ∧ last_update_clock c = z.
Proof.
  rewrite list_elem_of_In, in_concat. split.
  - intros (l & Hl & Hz). apply list_elem_of_In, list_elem_of_fmap in Hl as (m & -> & Hm).
    apply list_elem_of_lookup in Hm as [i Hi]. apply list_elem_of_In, elem_of_clocks_of in Hz as (k & c & ? & ?). eauto 10.
  - intros (i & m & k & c & Hi & Hk & Hz). exists (clocks_of m). split.
    + apply list_elem_of_In, list_elem_of_fmap. exists m. split; [done|]. by eapply list_elem_of_lookup_2.
    + apply list_elem_of_In, elem_of_clocks_of. eauto.
Qed.

Definition distinct_clocks (shards : list (gmap Z DecayedRequestCount)) : Prop :=
  ∀ i m k c i' m' k' c',
     shards !! i = Some m → m !! k = Some c → shards !! i' = Some m' → m' !! k' = Some c' →
     last_update_clock c = last_update_clock c' → i = i' ∧ k = k'.

Lemma distinct_clocks_NoDup shards : distinct_clocks shards → NoDup (concat (clocks_of <$> shards)).
Proof.
  induction shards as [|m shards IH]; intros Hd; [constructor|]. cbn [fmap list_fmap concat].
  apply NoDup_app. split_and!.
  - unfold clocks_of. apply NoDup_fmap_2_strong; [|apply NoDup_map_to_list].
    intros [k c] [k' c'] Hk%elem_of_map_to_list Hk'%elem_of_map_to_list Heq. cbn in Heq.
    destruct (Hd 0%nat m k c 0%nat m k' c' eq_refl Hk eq_refl Hk' Heq) as [_ ->]. congruence.
  - intros z (k & c & Hk & Hz)%elem_of_clocks_of (i & m' & k' & c' & Hi & Hk' & Hz')%elem_of_all_clocks.
    destruct (Hd 0%nat m k c (S i) m' k' c' eq_refl Hk Hi Hk' ltac:(congruence)) as [? _]. done.
  - apply IH. intros i m1 k c i' m2 k' c' ? ? ? ? ?.
    destruct (Hd (S i) m1 k c (S i') m2 k' c') as [? ?]; auto with lia.
Qed.

Lemma fmap_filter_commute {A B} (f : A → B) (P : B → Prop) `{∀ x, Decision (P x)} (l : list A) :
  f <$> filter (λ x, P (f x)) l = filter P (f <$> l).
Proof.
  induction l as [|x l IH]; [done|]. rewrite fmap_cons, !filter_cons. case_decide; [|done].
  by rewrite fmap_cons, IH.
Qed.

Lemma clocks_of_filter (c : Z) m :
  clocks_of (filter (λ kv, c < last_update_clock kv.2) m) ≡ₚ filter (λ z, c < z) (clocks_of m).
Proof.
  unfold clocks_of. rewrite <-(fmap_filter_commute (λ kv : Z * DecayedRequestCount, last_update_clock kv.2) (λ z, c < z)).
  apply fmap_Permutation. rewrite map_filter_alt. apply map_to_list_to_map.
  assert (Hsub : filter (λ kv : Z * DecayedRequestCount, c < last_update_clock kv.2) (map_to_list m) `sublist_of` map_to_list m)
    by apply sublist_filter.
  eapply (sublist_NoDup _ (map_to_list m).*1); [apply NoDup_fst_map_to_list|]. by apply (fmap_sublist fst).
Qed.

Lemma all_clocks_filter (c : Z) shards :
  concat (clocks_of <$> (filter (λ kv, c < last_update_clock kv.2) <$> shards))
  ≡ₚ filter (λ z, c < z) (concat (clocks_of <$> shards)).
Proof.
  induction shards as [|m shards IH]; [done|]. cbn [fmap list_fmap concat]. rewrite filter_app.
  apply Permutation_app; [apply clocks_of_filter|exact IH].
Qed.

Lemma length_all_clocks shards :
  Z.of_nat (length (concat (clocks_of <$> shards))) = zsum (λ m, Z.of_nat (size m)) shards.
Proof.
  induction shards as [|m shards IH]; [done|]. cbn [fmap list_fmap concat].
  rewrite length_app, zsum_cons, <-IH. unfold clocks_of. rewrite length_fmap, length_map_to_list. lia.
Qed.

(** Of distinct values, exactly [n - r] exceed the one of rank [r]. *)
Lemma rank_filter (l : list Z) (r : nat) c :
  NoDup l → merge_sort Z.le l !! r = Some c → length (filter (λ z, c < z) l) = (length l - S r)%nat.
Proof.
  intros Hnd Hr. set (s := merge_sort Z.le l) in *.
  assert (Hp : s ≡ₚ l) by apply merge_sort_Permutation.
  rewrite <-Hp. assert (Hnds : NoDup s) by (by rewrite Hp).
  assert (Hs : StronglySorted Z.le s) by (apply (StronglySorted_merge_sort Z.le)).
  rewrite <-(take_drop_middle s r c Hr) in Hs, Hnds |- *.
  apply StronglySorted_app in Hs as (Hle & _ & Hs2). apply StronglySorted_inv in Hs2 as [_ Hgt].
  apply NoDup_app in Hnds as (_ & _ & [Hc _]%NoDup_cons).
  assert (Hlt := lookup_lt_Some _ _ _ Hr).
  rewrite filter_app, filter_cons_False by lia.
  assert (filter (λ z, c < z) (take r s) = []) as ->.
  { assert (Hall : Forall (λ z, ¬ c < z) (take r s)).
    { apply Forall_forall. intros z Hz Hlt'. specialize (Hle z c Hz ltac:(left)). lia. }
    clear -Hall. induction Hall; [done|]. by rewrite filter_cons_False. }
  assert (filter (λ z, c < z) (drop (S r) s) = drop (S r) s) as ->.
  { assert (Hall : Forall (λ z, c < z) (drop (S r) s)).
    { apply Forall_forall. intros z Hz. rewrite Forall_forall in Hgt. specialize (Hgt _ Hz).
      assert (z ≠ c) by (intros ->; done). lia. }
    clear -Hall. induction Hall; [done|]. rewrite filter_cons_True by done. by f_equal. }
  rewrite !length_app, length_cons, length_take, length_drop. cbn [length]. lia.
Qed.

(** ** Properties *)
Section history_properties.
Context `{FxHasher}.

Lemma record_request_spec h key :
  history_ok h → request_count h + 1 < 2 ^ 64 →
  ∃ h' m, record_request h key = Done h' ∧ history_shards h !! history_shard_index h key = Some m
    ∧ request_count h' = request_count h + 1 ∧ half_life h' = half_life h
    ∧ history_shards h' = <[history_shard_index h key :=
        <[key := add_request (default default_DecayedRequestCount (m !! key)) (request_count h + 1) (half_life h)]> m]>
        (history_shards h).
Proof.
  intros Hok Hlt. unfold record_request.
  assert (Hi : (history_shard_index h key < length (history_shards h))%nat).
  { unfold history_shard_index. pose proof (ho_shards _ Hok) as Hn. unfold ACCESS_HISTORY_SHARDS in Hn.
    pose proof (Z.mod_pos_bound (fx_hash key) (Z.of_nat (length (history_shards h)))). lia. }
  destruct (lookup_lt_is_Some_2 _ _ Hi) as [m Hm]. rewrite Hm. cbn [unwrap mbind outcome_bind].
  pose proof (ho_clock _ Hok).
  assert (Hclk : request_count h ⊕ 1 = request_count h + 1) by (apply u64_wrap_small; unfold is_u64; lia).
  rewrite Hclk. eauto 10.
Qed.

Lemma record_request_entry h key h' i m k c :
  history_ok h → request_count h + 1 < 2 ^ 64 → record_request h key = Done h' →
  history_shards h' !! i = Some m → m !! k = Some c →
  (i = history_shard_index h key ∧ k = key ∧ last_update_clock c = request_count h + 1)
  ∨ ∃ m0, history_shards h !! i = Some m0 ∧ m0 !! k = Some c ∧ ¬ (i = history_shard_index h key ∧ k = key).
Proof.
  intros Hok Hlt Hrec Hi Hk.
  destruct (record_request_spec h key Hok Hlt) as (h1 & m1 & Hrec' & Hm1 & _ & _ & Hsh).
  rewrite Hrec in Hrec'. injection Hrec' as <-. rewrite Hsh in Hi.
  destruct (decide (i = history_shard_index h key)) as [->|Hne].
  - rewrite list_lookup_insert_eq in Hi by (by eapply lookup_lt_Some). injection Hi as <-.
    destruct (decide (k = key)) as [->|Hnk].
    + rewrite lookup_insert_eq in Hk. injection Hk as <-. auto.
    + rewrite lookup_insert_ne in Hk by done. right. exists m1. split_and!; try done. tauto.
  - rewrite list_lookup_insert_ne in Hi by done. right. exists m. split_and!; try done. tauto.
Qed.

Lemma record_request_ok h key h' :
  history_ok h → request_count h + 1 < 2 ^ 64 → record_request h key = Done h' → history_ok h'.
Proof.
  intros Hok Hlt Hrec. assert (Hentry := record_request_entry h key h').
  destruct (record_request_spec h key Hok Hlt) as (h1 & m1 & Hrec' & Hm1 & Hrc & Hhl & Hsh).
  rewrite Hrec in Hrec'. injection Hrec' as <-. pose proof (ho_clock _ Hok).
  assert (Hlen : length (history_shards h') = length (history_shards h)) by (by rewrite Hsh, length_insert).
  constructor.
  - rewrite Hlen. by apply ho_shards.
  - lia.
  - intros i m k c Hi Hk. destruct (Hentry i m k c Hok Hlt Hrec Hi Hk) as [(_ & _ & ->)|(m0 & Hi0 & Hk0 & _)]; [lia|].
    pose proof (ho_past _ Hok _ _ _ _ Hi0 Hk0). lia.
  - intros i m k c i' m' k' c' Hi Hk Hi' Hk' Heq.
    destruct (Hentry _ _ _ _ Hok Hlt Hrec Hi Hk) as [(-> & -> & Hc)|(m0 & Hi0 & Hk0 & _)];
    destruct (Hentry _ _ _ _ Hok Hlt Hrec Hi' Hk') as [(-> & -> & Hc')|(m0' & Hi0' & Hk0' & _)]; [done| | |].
    + pose proof (ho_past _ Hok _ _ _ _ Hi0' Hk0'). lia.
    + pose proof (ho_past _ Hok _ _ _ _ Hi0 Hk0). lia.
    + by eapply (ho_distinct _ Hok _ _ _ _ _ _ _ _ Hi0 Hk0 Hi0' Hk0').
  - intros i m k c Hi Hk. unfold history_shard_index. rewrite Hlen.
    destruct (Hentry _ _ _ _ Hok Hlt Hrec Hi Hk) as [(-> & -> & _)|(m0 & Hi0 & Hk0 & _)]; [done|].
    by apply (ho_home _ Hok _ _ _ _ Hi0 Hk0).
Qed.

Lemma with_half_life_ok hl : history_ok (with_half_life hl).
Proof.
  assert (Hemp : ∀ i m k c, history_shards (with_half_life hl) !! i = Some m → m !! k = Some c → False).
  { intros i m k c Hi Hk. cbn [with_half_life history_shards] in Hi. apply lookup_replicate in Hi as [-> _]. done. }
  constructor; try done; intros; exfalso; eauto.
Qed.
End history_properties.

(** Cleanup of a history over its limit never panics, keeps exactly 90% of
    the limit (rounded up), and those are the most recently requested keys: a
    key keeps its counter exactly when its last request is newer than one cutoff
    clock, and loses it otherwise.  A history within its limit is left alone. *)
Lemma remove_oldest_keeps_newest `{FxHasher} h limit :
  history_ok h → 0 < limit →
  ∃ shards', remove_oldest (history_shards h) limit = Done shards' ∧
    (zsum (λ m, Z.of_nat (size m)) (history_shards h) ≤ limit → shards' = history_shards h) ∧
    (limit < zsum (λ m, Z.of_nat (size m)) (history_shards h) →
       zsum (λ m, Z.of_nat (size m)) shards' = limit - limit / 10 ∧
       ∃ cutoff, ∀ i m k, history_shards h !! i = Some m →
         ∃ m', shards' !! i = Some m' ∧
           m' !! k = match m !! k with
                     | Some c => if decide (cutoff < last_update_clock c) then Some c else None
                     | None => None
                     end).
Proof.
  intros Hok Hlim. unfold remove_oldest.
  set (shards := history_shards h) in *.
  destruct (Z.leb_spec (zsum (λ m, Z.of_nat (size m)) shards) limit) as [Hle|Hgt].
  { exists shards. split_and!; [done|done|lia]. }
  rewrite length_all_clocks. set (n := zsum (λ m, Z.of_nat (size m)) shards) in *.
  assert (Hnd : NoDup (concat (clocks_of <$> shards))) by (apply distinct_clocks_NoDup; exact (ho_distinct _ Hok)).
  assert (Hlen : Z.of_nat (length (concat (clocks_of <$> shards))) = n) by apply length_all_clocks.
  assert (0 ≤ limit / 10 < limit) by (split; [apply Z.div_pos; lia|apply Z.div_lt; lia]).
  set (r := Z.to_nat (n - (limit - limit / 10) - 1)).
  assert (Hr : (r < length (concat (clocks_of <$> shards)))%nat) by lia.
  destruct (merge_sort Z.le (concat (clocks_of <$> shards)) !! r) as [cutoff|] eqn:Hcut.
  2:{ apply lookup_ge_None in Hcut. rewrite (merge_sort_Permutation Z.le) in Hcut. lia. }
  cbn [unwrap mbind outcome_bind]. eexists. split; [done|]. split; [lia|]. intros _. split.
  - rewrite <-length_all_clocks, all_clocks_filter, (rank_filter _ r) by done. lia.
  - exists cutoff. intros i m k Hi. eexists. rewrite list_lookup_fmap, Hi. split; [done|].
    rewrite map_lookup_filter. destruct (m !! k) as [c|]; [|done]. cbn. by case_decide; simplify_option_eq.
Qed.

(** The documented decay: with the default half-life a count of one is
    exactly 1, 0.5 and 0.25 after 0, 262144 and 524288 further requests and zero
    after 126 half-lives, an earlier clock leaves it unchanged, and matching
    requests 131072 apart count 1, 1.75, 2.3125, 2.734375. *)
Lemma documented_decay :
  let hl := DEFAULT_ACCESS_COUNT_HALF_LIFE in
  let one := mkDecayedRequestCount (f64_of_Z 1) 1000 in
  let f n d := f64_div (f64_of_Z n) (f64_of_Z d) in
  let step c := add_request c (last_update_clock c + 131072) hl in
  decayed_count one 1000 hl = f 1 1 ∧ decayed_count one (1000 + 262144) hl = f 1 2
  ∧ decayed_count one (1000 + 524288) hl = f 1 4 ∧ decayed_count one (1000 + 126 * 262144) hl = f64_of_Z 0
  ∧ decayed_count one 3 hl = f 1 1
  ∧ count (step one) = f 7 4 ∧ count (step (step one)) = f 37 16 ∧ count (step (step (step one))) = f 175 64.
Proof. vm_compute. repeat split. Qed.
