(* ===== verification/HistoryCleanup.v ===== *)
(** * Cleaning up the access histories ([feuer-historian/src/lib.rs])

    A background thread wakes once a second and runs [remove_oldest].  It locks one
    shard at a time, three times in turn: to count, to collect the clocks and to
    remove, and requests run between any two of its locks.  A step of the thread is
    what it does under one lock; a request is one step, since it draws its clock and
    updates its entry under the lock of its shard. *)

From S2P Require Import Prelude Float64 Retention Historian.

(** [usize] subtraction, whose underflow is a panic. *)
Definition usize_sub (x y : Z) : outcome Z := _ ← assert_that (y <=? x); Done (x - y).

(** Where the thread is: asleep, or about to lock a shard with what it has counted,
    collected or decided so far. *)
Inductive CleanupPhase :=
  | Sleeping
  | Counting (i : nat) (count : Z)
  | Collecting (i : nat) (clocks : list Z)
  | Removing (i : nat) (cutoff : Z).

(** The histories, the thread, and the keys requested since it last finished
    collecting. *)
Record CleanupWorld := mkCleanupWorld { cw_histories : ObjectAccessHistories; cw_phase : CleanupPhase; requested_since : gset Z }.

Definition with_history_shards (shards : list (gmap Z DecayedRequestCount)) (h : ObjectAccessHistories) : ObjectAccessHistories :=
  mkHistories shards (request_count h) (half_life h).

(** The cutoff: the clock of the newest entry that goes. *)
Definition cutoff_of (clocks : list Z) (limit : Z) : outcome Z :=
  let entries_to_keep := limit - limit / 10 in
  entries_to_remove ← usize_sub (Z.of_nat (length clocks)) entries_to_keep;
  cutoff_index ← usize_sub entries_to_remove 1;
  unwrap (merge_sort Z.le clocks !! Z.to_nat cutoff_index).
Definition retain_newer (cutoff : Z) (m : gmap Z DecayedRequestCount) : gmap Z DecayedRequestCount :=
  filter (λ kv, cutoff < last_update_clock kv.2) m.

(** The thread's next step. *)
Definition cleanup_step (limit : Z) (w : CleanupWorld) : outcome CleanupWorld :=
  let shards := history_shards (cw_histories w) in
  let to phase := mkCleanupWorld (cw_histories w) phase (requested_since w) in
  match cw_phase w with
  | Sleeping => Done (to (Counting 0 0))
  | Counting i count =>
      match shards !! i with
      | Some m => Done (to (Counting (S i) (count + Z.of_nat (size m))))
      | None => Done (to (if count <=? limit then Sleeping else Collecting 0 []))
      end
  | Collecting i clocks =>
      match shards !! i with
      | Some m => Done (to (Collecting (S i) (clocks ++ clocks_of m)))
      | None => cutoff ← cutoff_of clocks limit; Done (mkCleanupWorld (cw_histories w) (Removing 0 cutoff) ∅)
      end
  | Removing i cutoff =>
      match shards !! i with
      | Some m => Done (mkCleanupWorld (with_history_shards (<[i := retain_newer cutoff m]> shards) (cw_histories w)) (Removing (S i) cutoff) (requested_since w))
      | None => Done (to Sleeping)
      end
  end.

Section world.
Context `{FxHasher} (limit : Z).

Inductive cleanup_world_step : CleanupWorld → CleanupWorld → Prop :=
  | world_cleanup w w' : cleanup_step limit w = Done w' → cleanup_world_step w w'
  | world_request h key h' phase since :
      request_count h + 1 < 2 ^ 64 → record_request h key = Done h' →
      cleanup_world_step (mkCleanupWorld h phase since) (mkCleanupWorld h' phase ({[key]} ∪ since)).

(** ** Invariant *)
Definition entries (shards : list (gmap Z DecayedRequestCount)) : Z := zsum (λ m, Z.of_nat (size m)) shards.

(** Entries that were counted are still there, and a cutoff is no newer than the
    clock, so that what is requested now is newer. *)
Definition phase_ok (h : ObjectAccessHistories) (phase : CleanupPhase) : Prop :=
  match phase with
  | Sleeping => True
  | Counting i count => (i ≤ length (history_shards h))%nat ∧ count ≤ entries (take i (history_shards h))
  | Collecting i clocks => (i ≤ length (history_shards h))%nat ∧ limit < Z.of_nat (length clocks) + entries (drop i (history_shards h))
                           ∧ ∀ z, z ∈ clocks → z ≤ request_count h
  | Removing i cutoff => (i ≤ length (history_shards h))%nat ∧ cutoff ≤ request_count h
  end.
(** The entry of a key, and what is still to be removed. *)
Definition entry_of (h : ObjectAccessHistories) (key : Z) : option DecayedRequestCount := m ← history_shards h !! history_shard_index h key; m !! key.
Definition kept (phase : CleanupPhase) (c : DecayedRequestCount) : Prop := match phase with Removing _ cutoff => cutoff < last_update_clock c | _ => True end.
Record cleanup_ok (w : CleanupWorld) : Prop := mkCleanupOk {
  ck_histories : history_ok (cw_histories w);
  ck_phase : phase_ok (cw_histories w) (cw_phase w);
  ck_since : ∀ key, key ∈ requested_since w → ∃ c, entry_of (cw_histories w) key = Some c ∧ kept (cw_phase w) c
}.
End world.

(** ** Histories with fewer entries *)
Section smaller.
Context `{FxHasher}.

Lemma fewer_entries_ok h shards' :
  history_ok h → length shards' = length (history_shards h) →
  (∀ i m', shards' !! i = Some m' → ∃ m, history_shards h !! i = Some m ∧ m' ⊆ m) →
  history_ok (with_history_shards shards' h).
Proof.
  intros [Hs Hc Hp Hd Hh] Hlen Hsub.
  assert (Hin : ∀ i m' k c, shards' !! i = Some m' → m' !! k = Some c → ∃ m, history_shards h !! i = Some m ∧ m !! k = Some c).
  { intros i m' k c Hi Hk. destruct (Hsub i m' Hi) as (m & Hm & Hsm). exists m. split; [done|]. by eapply lookup_weaken. }
  constructor; cbn [with_history_shards history_shards request_count].
  - by rewrite Hlen.
  - done.
  - intros i m' k c Hi Hk. destruct (Hin _ _ _ _ Hi Hk) as (m & ? & ?). by eapply Hp.
  - intros i m k c i' m' k' c' Hi Hk Hi' Hk'. destruct (Hin _ _ _ _ Hi Hk) as (m1 & ? & ?). destruct (Hin _ _ _ _ Hi' Hk') as (m2 & ? & ?). by eapply Hd.
  - intros i m' k c Hi Hk. destruct (Hin _ _ _ _ Hi Hk) as (m & ? & ?). unfold history_shard_index. cbn [with_history_shards history_shards]. rewrite Hlen. by eapply Hh.
Qed.

Lemma retain_shard_ok h i m cutoff :
  history_ok h → history_shards h !! i = Some m → history_ok (with_history_shards (<[i := retain_newer cutoff m]> (history_shards h)) h).
Proof.
  intros Hok Hi. apply fewer_entries_ok; [done|by rewrite length_insert|]. intros j m' Hj. destruct (decide (j = i)) as [->|Hne].
  - rewrite list_lookup_insert_eq in Hj by (by eapply lookup_lt_Some). injection Hj as <-. exists m. split; [done|apply map_filter_subseteq].
  - rewrite list_lookup_insert_ne in Hj by done. by exists m'.
Qed.
End smaller.

Lemma entries_take_S shards i m : shards !! i = Some m → entries (take (S i) shards) = entries (take i shards) + Z.of_nat (size m).
Proof. intros Hi. unfold entries. rewrite (take_S_r _ _ _ Hi). autorewrite with sums. lia. Qed.
Lemma entries_drop_S shards i m : shards !! i = Some m → entries (drop i shards) = Z.of_nat (size m) + entries (drop (S i) shards).
Proof. intros Hi. unfold entries. rewrite (drop_S _ _ _ Hi). by rewrite zsum_cons. Qed.
Lemma entries_split i shards : entries shards = entries (take i shards) + entries (drop i shards).
Proof. unfold entries. rewrite <-(take_drop i shards) at 1. by autorewrite with sums. Qed.

(** ** Requests between the locks *)
Definition grown (shards shards' : list (gmap Z DecayedRequestCount)) : Prop := Forall2 (λ m m', (size m ≤ size m')%nat) shards shards'.

Lemma grown_entries shards shards' : grown shards shards' → entries shards ≤ entries shards'.
Proof. unfold entries. induction 1 as [|m m' l l' Hm _ IH]; [done|]. rewrite !zsum_cons. lia. Qed.

Lemma grown_insert shards i m key c : shards !! i = Some m → grown shards (<[i := <[key := c]> m]> shards).
Proof.
  intros Hi. apply Forall2_same_length_lookup_2; [by rewrite length_insert|]. intros j x y Hx Hy. destruct (decide (j = i)) as [->|Hne].
  - rewrite list_lookup_insert_eq in Hy by (by eapply lookup_lt_Some). simplify_eq. rewrite map_size_insert. case_match; unfold id; lia.
  - rewrite list_lookup_insert_ne in Hy by done. by simplify_eq.
Qed.

(** With more entries collected than the limit the cutoff exists. *)
Lemma cutoff_exists clocks limit : 0 < limit → limit < Z.of_nat (length clocks) → ∃ cutoff, cutoff_of clocks limit = Done cutoff ∧ cutoff ∈ clocks.
Proof.
  intros Hl Hn. assert (0 ≤ limit / 10 < limit) by (split; [apply Z.div_pos; lia|apply Z.div_lt; lia]). unfold cutoff_of, usize_sub.
  rewrite (proj2 (Z.leb_le _ _)) by lia. cbn [assert_that mbind outcome_bind]. rewrite (proj2 (Z.leb_le _ _)) by lia. cbn [assert_that mbind outcome_bind].
  set (k := Z.to_nat _). destruct (lookup_lt_is_Some_2 (merge_sort Z.le clocks) k) as [cutoff Hk]; [rewrite (merge_sort_Permutation Z.le); unfold k; lia|].
  rewrite Hk. exists cutoff. split; [done|]. rewrite <-(merge_sort_Permutation Z.le clocks). by eapply list_elem_of_lookup_2.
Qed.

Section steps.
Context `{FxHasher} (limit : Z) (Hlimit : 0 < limit).

Lemma request_ok h key h' phase since :
  cleanup_ok limit (mkCleanupWorld h phase since) → request_count h + 1 < 2 ^ 64 → record_request h key = Done h' →
  cleanup_ok limit (mkCleanupWorld h' phase ({[key]} ∪ since)).
Proof.
  intros [Hok Hp Hs] Hlt Hrec. cbn [cw_histories cw_phase requested_since] in *. assert (Hok' := record_request_ok h key h' Hok Hlt Hrec).
  destruct (record_request_spec h key Hok Hlt) as (h1 & m & Hrec1 & Hm & Hcount & _ & Hsh). rewrite Hrec in Hrec1. injection Hrec1 as <-.
  assert (Hg : grown (history_shards h) (history_shards h')) by (rewrite Hsh; by apply grown_insert).
  assert (Hlen : length (history_shards h') = length (history_shards h)) by (symmetry; by eapply Forall2_length).
  assert (Hidx : ∀ k, history_shard_index h' k = history_shard_index h k) by (intros k; unfold history_shard_index; by rewrite Hlen).
  constructor; cbn [cw_histories cw_phase requested_since]; [done| |].
  - destruct phase as [|i count|i clocks|i cutoff]; cbn [phase_ok] in *; rewrite ?Hlen, ?Hcount.
    + done.
    + destruct Hp as [Hi Hc]. split; [done|]. pose proof (grown_entries _ _ (Forall2_take _ _ _ i Hg)). lia.
    + destruct Hp as (Hi & Hc & Hz). split_and!; [done| |intros z Hz'; specialize (Hz z Hz'); lia]. pose proof (grown_entries _ _ (Forall2_drop _ _ _ i Hg)). lia.
    + destruct Hp as [Hi Hc]. split; [done|lia].
  - intros k Hk. unfold entry_of. rewrite Hidx, Hsh. destruct (decide (k = key)) as [->|Hne].
    + rewrite list_lookup_insert_eq by (by eapply lookup_lt_Some). cbn [mbind option_bind]. rewrite lookup_insert_eq. eexists. split; [done|].
      destruct phase as [|i count|i clocks|i cutoff]; cbn [kept phase_ok add_request last_update_clock] in *; try done. lia.
    + apply elem_of_union in Hk as [Hk%elem_of_singleton|Hk]; [done|]. destruct (Hs k Hk) as (c & Hc & Hkept). exists c. split; [|done]. unfold entry_of in Hc.
      destruct (decide (history_shard_index h k = history_shard_index h key)) as [He|Hd].
      * rewrite He in Hc |- *. rewrite list_lookup_insert_eq by (by eapply lookup_lt_Some). rewrite Hm in Hc. cbn [mbind option_bind] in *. by rewrite lookup_insert_ne.
      * by rewrite list_lookup_insert_ne by done.
Qed.

(** What the thread does never panics, and keeps what was requested since. *)
Lemma cleanup_step_ok w : cleanup_ok limit w → ∃ w', cleanup_step limit w = Done w' ∧ cleanup_ok limit w'.
Proof.
  intros [Hok Hp Hs]. destruct w as [h phase since]. cbn [cw_histories cw_phase requested_since] in *. unfold cleanup_step. cbn [cw_histories cw_phase requested_since].
  destruct phase as [|i count|i clocks|i cutoff]; cbn [phase_ok] in Hp.
  - eexists. split; [done|]. constructor; cbn; [done|split; [lia|done]|done].
  - destruct Hp as [Hi Hc]. destruct (history_shards h !! i) as [m|] eqn:Hm; (eexists; split; [done|]).
    + constructor; cbn; [done| |done]. apply lookup_lt_Some in Hm as Hlt. split; [lia|]. rewrite (entries_take_S _ _ _ Hm). lia.
    + destruct (Z.leb_spec count limit); (constructor; cbn; [done| |done]); [done|]. split; [lia|]. split; [|by intros z ?%elem_of_nil].
      apply lookup_ge_None in Hm. rewrite take_ge in Hc by done. rewrite drop_0. lia.
  - destruct Hp as (Hi & Hc & Hz). destruct (history_shards h !! i) as [m|] eqn:Hm.
    + eexists. split; [done|]. constructor; cbn [cw_histories cw_phase requested_since phase_ok]; [done| |done]. apply lookup_lt_Some in Hm as Hlt. split; [lia|]. split.
      * rewrite (entries_drop_S _ _ _ Hm) in Hc. unfold clocks_of. rewrite length_app, length_fmap, length_map_to_list. lia.
      * intros z [Hin|Hin]%elem_of_app; [by apply Hz|]. apply elem_of_clocks_of in Hin as (k & c & Hk & <-). by apply (ho_past _ Hok i m k c).
    + apply lookup_ge_None in Hm. rewrite drop_ge in Hc by done. destruct (cutoff_exists clocks limit Hlimit) as (cutoff & Hcut & Hin); [unfold entries in Hc; rewrite zsum_nil in Hc; lia|].
      rewrite Hcut. eexists. split; [done|]. constructor; cbn; [done|split; [lia|by apply Hz]|by intros key ?%elem_of_empty].
  - destruct Hp as [Hi Hc]. destruct (history_shards h !! i) as [m|] eqn:Hm; (eexists; split; [done|]).
    + apply lookup_lt_Some in Hm as Hlt. constructor; cbn [cw_histories cw_phase requested_since]; [by apply retain_shard_ok|cbn; rewrite length_insert; split; [lia|done]|].
      intros key Hkey. destruct (Hs key Hkey) as (c & Hkc & Hkept). exists c. split; [|done]. unfold entry_of, history_shard_index in *. cbn [with_history_shards history_shards]. rewrite length_insert.
      set (j := Z.to_nat _) in *. destruct (decide (j = i)) as [Hj|Hne]; [|by rewrite list_lookup_insert_ne].
      rewrite Hj in Hkc |- *. rewrite list_lookup_insert_eq by done. rewrite Hm in Hkc. cbn [mbind option_bind] in *. unfold retain_newer. by apply map_lookup_filter_Some_2.
    + constructor; cbn; [done|done|]. intros key Hkey. destruct (Hs key Hkey) as (c & Hkc & _). by exists c.
Qed.

Lemma cleanup_reachable_ok hl w : rtc (cleanup_world_step limit) (mkCleanupWorld (with_half_life hl) Sleeping ∅) w → cleanup_ok limit w.
Proof.
  intros Hrtc. apply (rtc_ind_r (cleanup_ok limit) (mkCleanupWorld (with_half_life hl) Sleeping ∅)) in Hrtc; [done|constructor; cbn; [apply with_half_life_ok|done|by intros key ?%elem_of_empty]|].
  intros y z _ Hstep Hy. destruct Hstep as [w0 w' Hrun|h key h' phase since Hlt Hrec].
  - destruct (cleanup_step_ok w0 Hy) as (w1 & Hrun1 & Hok). rewrite Hrun in Hrun1. by injection Hrun1 as <-.
  - by eapply request_ok.
Qed.
End steps.

(** ** Rounds *)

(** A round ends after boundedly many steps of the thread, whatever runs in
    between. *)
Definition cleanup_measure (w : CleanupWorld) : Z :=
  let n := Z.of_nat (length (history_shards (cw_histories w))) in
  match cw_phase w with
  | Sleeping => 0
  | Removing i _ => n + 1 - Z.of_nat i
  | Collecting i _ => 2 * n + 3 - Z.of_nat i
  | Counting i _ => 3 * n + 5 - Z.of_nat i
  end.

Section rounds.
Context `{FxHasher} (limit : Z).

Lemma cleanup_step_decreases w w' :
  cleanup_ok limit w → cleanup_step limit w = Done w' → cw_phase w ≠ Sleeping → 0 ≤ cleanup_measure w' < cleanup_measure w.
Proof.
  intros [_ Hp _]. destruct w as [h phase since]. unfold cleanup_step, cleanup_measure. cbn [cw_histories cw_phase requested_since] in *.
  destruct phase as [|i count|i clocks|i cutoff]; cbn [phase_ok] in Hp; intros Hrun Hns; [done| | |].
  - destruct (history_shards h !! i) as [m|] eqn:Hm; injection Hrun as <-; cbn [cw_histories cw_phase]; [apply lookup_lt_Some in Hm; lia|].
    destruct (count <=? limit); cbn; lia.
  - destruct (history_shards h !! i) as [m|] eqn:Hm; [injection Hrun as <-; cbn [cw_histories cw_phase]; apply lookup_lt_Some in Hm; lia|].
    destruct (cutoff_of clocks limit) as [cutoff|]; [|done]. injection Hrun as <-. cbn [cw_histories cw_phase]. lia.
  - destruct (history_shards h !! i) as [m|] eqn:Hm; injection Hrun as <-; cbn [cw_histories cw_phase with_history_shards history_shards]; rewrite ?length_insert; [apply lookup_lt_Some in Hm; lia|lia].
Qed.

(** The thread alone. *)
Definition quiet (w w' : CleanupWorld) : Prop := cleanup_step limit w = Done w'.

Lemma quiet_counting n : ∀ i h since count, (i + n)%nat = length (history_shards h) →
  rtc quiet (mkCleanupWorld h (Counting i count) since) (mkCleanupWorld h (Counting (i + n) (count + entries (drop i (history_shards h)))) since).
Proof.
  induction n as [|n IH]; intros i h since count Hi.
  - rewrite drop_ge by lia. unfold entries. rewrite zsum_nil, Z.add_0_r, Nat.add_0_r. apply rtc_refl.
  - destruct (lookup_lt_is_Some_2 (history_shards h) i) as [m Hm]; [lia|]. eapply rtc_l; [unfold quiet, cleanup_step; cbn [cw_histories cw_phase]; rewrite Hm; reflexivity|].
    rewrite (entries_drop_S _ _ _ Hm), Z.add_assoc, <-Nat.add_succ_comm. cbn [cw_histories requested_since]. apply IH. lia.
Qed.

Lemma quiet_collecting n : ∀ i h since clocks, (i + n)%nat = length (history_shards h) →
  rtc quiet (mkCleanupWorld h (Collecting i clocks) since) (mkCleanupWorld h (Collecting (i + n) (clocks ++ concat (clocks_of <$> drop i (history_shards h)))) since).
Proof.
  induction n as [|n IH]; intros i h since clocks Hi.
  - rewrite drop_ge by lia. cbn. rewrite app_nil_r, Nat.add_0_r. apply rtc_refl.
  - destruct (lookup_lt_is_Some_2 (history_shards h) i) as [m Hm]; [lia|]. eapply rtc_l; [unfold quiet, cleanup_step; cbn [cw_histories cw_phase]; rewrite Hm; reflexivity|].
    rewrite (drop_S _ _ _ Hm). cbn [fmap list_fmap concat]. rewrite app_assoc, <-Nat.add_succ_comm. cbn [cw_histories requested_since]. apply IH. lia.
Qed.

Lemma quiet_removing l2 : ∀ l1 h since cutoff, history_shards h = l1 ++ l2 →
  rtc quiet (mkCleanupWorld h (Removing (length l1) cutoff) since)
    (mkCleanupWorld (with_history_shards (l1 ++ (retain_newer cutoff <$> l2)) h) Sleeping since).
Proof.
  induction l2 as [|m l2 IH]; intros l1 h since cutoff Hh.
  - eapply rtc_once. unfold quiet, cleanup_step. cbn [cw_histories cw_phase requested_since]. rewrite Hh, app_nil_r, lookup_ge_None_2 by lia. cbn. rewrite app_nil_r in *. subst l1. by destruct h.
  - eapply rtc_l.
    + unfold quiet, cleanup_step. cbn [cw_histories cw_phase]. rewrite Hh, list_lookup_middle by done. reflexivity.
    + cbn [cw_histories requested_since]. rewrite insert_app_r_alt, Nat.sub_diag by lia. cbn [list_insert insert].
      specialize (IH (l1 ++ [retain_newer cutoff m]) (with_history_shards (l1 ++ retain_newer cutoff m :: l2) h) since cutoff).
      rewrite length_app, Nat.add_1_r in IH. cbn [fmap list_fmap]. rewrite <-!app_assoc in IH. cbn [app with_history_shards history_shards request_count half_life] in IH. by apply IH.
Qed.

(** A round without requests in between is [remove_oldest]. *)
Lemma quiet_round h since : history_ok h → 0 < limit →
  ∃ shards' since', remove_oldest (history_shards h) limit = Done shards'
    ∧ rtc quiet (mkCleanupWorld h Sleeping since) (mkCleanupWorld (with_history_shards shards' h) Sleeping since').
Proof.
  intros Hok Hl. set (n := length (history_shards h)). set (shards := history_shards h).
  assert (Hcount : rtc quiet (mkCleanupWorld h Sleeping since) (mkCleanupWorld h (Counting n (entries shards)) since)).
  { eapply rtc_l; [reflexivity|]. cbn [cw_histories requested_since]. pose proof (quiet_counting n 0 h since 0 eq_refl) as Hc. by rewrite drop_0 in Hc. }
  assert (Hend : shards !! n = None) by (by apply lookup_ge_None_2).
  unfold remove_oldest. fold shards (entries shards). destruct (Z.leb_spec (entries shards) limit) as [Hle|Hgt].
  { exists shards, since. split; [done|]. eapply rtc_r; [exact Hcount|]. unfold quiet, cleanup_step. cbn [cw_histories cw_phase requested_since]. fold shards. rewrite Hend, (proj2 (Z.leb_le _ _)) by done.
    unfold shards. by destruct h. }
  destruct (cutoff_exists (concat (clocks_of <$> shards)) limit Hl) as (cutoff & Hcut & _); [by rewrite length_all_clocks|].
  assert (Hcollect : rtc quiet (mkCleanupWorld h (Counting n (entries shards)) since) (mkCleanupWorld h (Collecting n (concat (clocks_of <$> shards))) since)).
  { eapply rtc_l; [unfold quiet, cleanup_step; cbn [cw_histories cw_phase]; fold shards; rewrite Hend, (proj2 (Z.leb_gt _ _)) by done; reflexivity|].
    cbn [cw_histories requested_since]. pose proof (quiet_collecting n 0 h since [] eq_refl) as Hc. by rewrite drop_0 in Hc. }
  assert (Hcut' := Hcut). unfold cutoff_of, usize_sub in Hcut'. destruct (_ <=? _) in Hcut'; [|done]. cbn [assert_that mbind outcome_bind] in Hcut'.
  destruct (1 <=? _); [|done]. cbn [assert_that mbind outcome_bind] in Hcut'. rewrite Hcut'. cbn [mbind outcome_bind].
  exists (retain_newer cutoff <$> shards), ∅. split; [done|]. etrans; [exact Hcount|]. etrans; [exact Hcollect|].
  eapply rtc_l; [unfold quiet, cleanup_step; cbn [cw_histories cw_phase]; fold shards; rewrite Hend, Hcut; reflexivity|].
  cbn [cw_histories]. exact (quiet_removing shards [] h ∅ cutoff eq_refl).
Qed.
End rounds.

(** C36: cleanup and requests do not disturb each other.  However requests run
    between the locks of the cleanup thread, it never panics (the numbers it
    subtracts are right although the histories change after they were counted), each
    of its rounds ends after a bounded number of its own steps, the histories stay
    consistent, and a key that was requested after the clocks were collected keeps
    its entry.  A round that nothing interrupts leaves a history within the limit
    alone, and otherwise keeps exactly 90% of the limit (rounded up), the most
    recently requested keys. *)
Theorem history_cleanup_safe `{FxHasher} limit hl w :
  0 < limit → rtc (cleanup_world_step limit) (mkCleanupWorld (with_half_life hl) Sleeping ∅) w →
  let h := cw_histories w in
  history_ok h
  ∧ (∃ w', cleanup_step limit w = Done w' ∧ (cw_phase w ≠ Sleeping → 0 ≤ cleanup_measure w' < cleanup_measure w))
  ∧ (∀ key, key ∈ requested_since w → is_Some (entry_of h key))
  ∧ (cw_phase w = Sleeping → ∃ shards' since', rtc (quiet limit) w (mkCleanupWorld (with_history_shards shards' h) Sleeping since')
       ∧ (entries (history_shards h) ≤ limit → shards' = history_shards h)
       ∧ (limit < entries (history_shards h) → entries shards' = limit - limit / 10
            ∧ ∃ cutoff, ∀ i m k, history_shards h !! i = Some m → ∃ m', shards' !! i = Some m'
                ∧ m' !! k = match m !! k with Some c => if decide (cutoff < last_update_clock c) then Some c else None | None => None end)).
Proof.
  intros Hl Hrtc h. assert (Hok := cleanup_reachable_ok limit Hl hl w Hrtc). destruct (cleanup_step_ok limit Hl w Hok) as (w' & Hrun & _). split_and!.
  - apply Hok.
  - exists w'. split; [done|]. by apply (cleanup_step_decreases limit).
  - intros key Hkey. destruct (ck_since _ _ Hok key Hkey) as (c & Hc & _). by eexists.
  - intros Hs. destruct (quiet_round limit h (requested_since w) (ck_histories _ _ Hok) Hl) as (shards' & since' & Hrem & Hquiet).
    destruct (remove_oldest_keeps_newest h limit (ck_histories _ _ Hok) Hl) as (shards1 & Hrem1 & Hsmall & Hlarge). rewrite Hrem in Hrem1. injection Hrem1 as <-.
    exists shards', since'. split_and!; [|done|done]. destruct w as [h0 phase since]. cbn in Hs. by subst phase.
Qed.

(** A request while the thread is counting. *)
Lemma history_cleanup_safe_witness :
  let _ : FxHasher := λ k, k in
  ∃ w, rtc (cleanup_world_step 1) (mkCleanupWorld (with_half_life 262144) Sleeping ∅) w ∧ is_Some (entry_of (cw_histories w) 5).
Proof.
  intros hash. destruct (record_request_spec (with_half_life 262144) 5) as (h1 & m1 & H1 & _); [apply with_half_life_ok|reflexivity|].
  assert (Hrtc : rtc (cleanup_world_step 1) (mkCleanupWorld (with_half_life 262144) Sleeping ∅) (mkCleanupWorld h1 (Counting 0 0) ({[5]} ∪ ∅))).
  { eapply rtc_l; [by apply world_cleanup|]. apply rtc_once. apply world_request; [reflexivity|exact H1]. }
  exists (mkCleanupWorld h1 (Counting 0 0) ({[5]} ∪ ∅)). split; [exact Hrtc|].
  destruct (history_cleanup_safe 1 262144 (mkCleanupWorld h1 (Counting 0 0) ({[5]} ∪ ∅)) ltac:(lia) Hrtc) as (_ & _ & Hkept & _). apply Hkept. cbn. set_solver.
Defined.
