(* ===== verification/EntryIndex.v ===== *)
(** * The entry index shared by both tiers

    [DiskEntryIndex] ([disk_cache.rs]) and [MemoryCacheShard]
    ([store/shard.rs]) keep the same structure: a map from keys to entries and
    a vector of keys to sample for eviction, each entry holding the position of
    its key in the vector.  Removal swaps the last key into the hole and repairs
    that key's position.  This file is the structure and its invariant, over any
    entry type with a position. *)

From S2P Require Import Prelude.

(** The position field of an entry type ([eviction_position],
    [candidate_index]). *)
Class Positioned (E : Type) := { entry_position : E → nat; with_position : nat → E → E }.
Class PositionedOk (E : Type) `{Positioned E} : Prop := mkPositionedOk {
  position_with : ∀ i (e : E), entry_position (with_position i e) = i;
  with_with : ∀ i j (e : E), with_position i (with_position j e) = with_position i e
}.

Section index.
Context `{PositionedOk E}.
Implicit Types (m : gmap Z E) (candidates : list Z).

(** [take_entry] and [remove_entry]: removes the key, swaps the last candidate
    into its place and repairs the moved entry. *)
Definition index_take m candidates (key : Z) : outcome (option (E * gmap Z E * list Z)) :=
  match m !! key with
  | None => Done None
  | Some e =>
      let m := delete key m in
      '(_, candidates) ← swap_remove (entry_position e) candidates;
      m ← match candidates !! entry_position e with
          | Some moved_key =>
              moved ← unwrap (m !! moved_key);
              Done (<[moved_key := with_position (entry_position e) moved]> m)
          | None => Done m
          end;
      Done (Some (e, m, candidates))
  end.

(** Appends a key known not to be indexed. *)
Definition index_push m candidates (key : Z) (e : E) : gmap Z E * list Z :=
  (<[key := with_position (length candidates) e]> m, candidates ++ [key]).

(** The map and the vector agree: each entry's position holds its key, and each
    position's key is an entry there. *)
Definition index_ok m candidates : Prop :=
  (∀ k e, m !! k = Some e → candidates !! entry_position e = Some k) ∧
  (∀ i k, candidates !! i = Some k → ∃ e, m !! k = Some e ∧ entry_position e = i).

(** An entry without its position, which removals of other keys may change. *)
Definition unplaced (e : E) : E := with_position 0 e.

Definition same_entries m m' : Prop := ∀ k, unplaced <$> m' !! k = unplaced <$> m !! k.

(** ** Lemmas *)
Lemma index_ok_empty : index_ok ∅ [].
Proof. split; [intros k e; by rewrite lookup_empty|done]. Qed.

Lemma index_ok_NoDup m candidates : index_ok m candidates → NoDup candidates.
Proof.
  intros [Hm Hc]. apply NoDup_alt. intros i j k Hi Hj.
  destruct (Hc _ _ Hi) as (e & He & <-). destruct (Hc _ _ Hj) as (e' & He' & <-). congruence.
Qed.

Lemma index_ok_elem m candidates k : index_ok m candidates → k ∈ candidates ↔ is_Some (m !! k).
Proof.
  intros [Hm Hc]. rewrite list_elem_of_lookup. split.
  - intros (i & (e & He & _)%Hc). eauto.
  - intros (e & He). eauto.
Qed.

Lemma index_ok_size m candidates : index_ok m candidates → length candidates = size m.
Proof.
  intros Hok. rewrite <-(length_map_to_list m), <-(length_fmap fst). apply Permutation_length, NoDup_Permutation.
  - by eapply index_ok_NoDup.
  - apply NoDup_fst_map_to_list.
  - intros k. rewrite (index_ok_elem _ _ _ Hok), list_elem_of_fmap. split.
    + intros (e & He). exists (k, e). by rewrite elem_of_map_to_list.
    + intros ([k' e] & -> & He%elem_of_map_to_list). eauto.
Qed.

Lemma index_push_ok m candidates key e :
  index_ok m candidates → m !! key = None →
  index_ok (index_push m candidates key e).1 (index_push m candidates key e).2.
Proof.
  intros [Hm Hc] Hnone. cbn. split.
  - intros k e' [[<- <-]|[Hne Hk]]%lookup_insert_Some.
    + rewrite position_with. rewrite lookup_app_r, Nat.sub_diag by lia. done.
    + rewrite lookup_app_l; [by apply Hm|]. eapply lookup_lt_Some, Hm, Hk.
  - intros i k [[Hlt Hi]|[-> <-]]%lookup_snoc_Some.
    + destruct (Hc _ _ Hi) as (e' & He' & Hp). exists e'. rewrite lookup_insert_ne; [done|congruence].
    + exists (with_position (length candidates) e). rewrite lookup_insert_eq. split; [done|apply position_with].
Qed.

(** Removing an indexed key does not panic, leaves a consistent index, and
    changes the other entries at most in their positions. *)
Lemma index_take_spec m candidates key e :
  index_ok m candidates → m !! key = Some e →
  ∃ m' candidates', index_take m candidates key = Done (Some (e, m', candidates'))
    ∧ index_ok m' candidates'
    ∧ same_entries (delete key m) m'.
Proof.
  intros Hok He. assert (Hnd := index_ok_NoDup _ _ Hok). destruct Hok as [Hm Hc].
  unfold index_take. rewrite He. set (p := entry_position e).
  assert (Hp : candidates !! p = Some key) by (by apply Hm).
  destruct (swap_remove_done p candidates key Hp) as [[x candidates'] Hs].
  rewrite Hs. cbn [mbind outcome_bind].
  pose proof (swap_remove_length _ _ _ _ Hs) as Hlen.
  assert (Hlk := λ j, swap_remove_lookup p j candidates x candidates' Hs). rewrite last_lookup in Hlk.
  set (n := length candidates') in *. rewrite Hlen in Hlk. cbn [pred] in Hlk.
  (* the entries that stay where they are *)
  assert (Hstay : ∀ k e', m !! k = Some e' → k ≠ key → entry_position e' ≠ n → candidates' !! entry_position e' = Some k).
  { intros k e' Hk Hne Hnn. assert (Hpos := Hm _ _ Hk). rewrite Hlk.
    assert (entry_position e' < S n)%nat by (rewrite <-Hlen; by eapply lookup_lt_Some).
    rewrite decide_True by lia. case_decide as Heq; [|done].
    rewrite Heq, Hp in Hpos. congruence. }
  assert (Hback : ∀ i k, candidates' !! i = Some k → i ≠ p → ∃ e', m !! k = Some e' ∧ entry_position e' = i ∧ k ≠ key).
  { intros i k Hi Hne. rewrite Hlk in Hi. repeat case_decide; try done.
    destruct (Hc _ _ Hi) as (e' & He' & <-). exists e'. split_and!; try done.
    intros ->. rewrite He in He'. by injection He' as <-. }
  rewrite Hlk. case_decide as Hpn.
  - (* the last candidate moves into the hole *)
    rewrite decide_True by done.
    destruct (lookup_lt_is_Some_2 candidates n) as [moved Hmoved]; [lia|]. rewrite Hmoved.
    destruct (Hc _ _ Hmoved) as (em & Hem & Hposm).
    assert (Hmk : moved ≠ key) by (intros ->; rewrite He in Hem; injection Hem as <-; fold p in Hposm; lia).
    rewrite lookup_delete_ne, Hem by done. cbn [unwrap mbind outcome_bind].
    eexists _, candidates'. split; [done|]. split; [split|].
    + intros k e' [[<- <-]|[Hne Hk]]%lookup_insert_Some.
      * rewrite position_with, Hlk, !decide_True by done. done.
      * apply lookup_delete_Some in Hk as [Hkk Hk]. apply Hstay; [done|done|].
        intros Heq. assert (Hpos := Hm _ _ Hk). rewrite Heq, Hmoved in Hpos. congruence.
    + intros i k Hi. destruct (decide (i = p)) as [->|Hne].
      * rewrite Hlk, !decide_True in Hi by done. rewrite Hmoved in Hi. injection Hi as <-.
        eexists. rewrite lookup_insert_eq. split; [done|apply position_with].
      * destruct (Hback _ _ Hi Hne) as (e' & He' & Hpe & Hkk). exists e'. split; [|done].
        rewrite lookup_insert_ne; [by rewrite lookup_delete_ne|].
        intros ->. rewrite Hem in He'. injection He' as <-.
        assert (Hlt := lookup_lt_Some _ _ _ Hi). fold n in Hlt. lia.
    + intros k. destruct (decide (k = moved)) as [->|Hne].
      * rewrite lookup_insert_eq, lookup_delete_ne, Hem by done. cbn. unfold unplaced. by rewrite with_with.
      * by rewrite lookup_insert_ne.
  - (* the removed key was the last candidate *)
    assert (Hpn' : p = n) by (apply lookup_lt_Some in Hp; lia).
    cbn [mbind outcome_bind]. eexists _, candidates'. split; [done|]. split; [split|done].
    + intros k e' [Hkk Hk]%lookup_delete_Some. apply Hstay; [done|done|].
      intros Heq. assert (Hpos := Hm _ _ Hk). rewrite Heq, <-Hpn', Hp in Hpos. congruence.
    + intros i k Hi. destruct (decide (i = p)) as [->|Hne].
      * rewrite Hlk, decide_False in Hi by lia. done.
      * destruct (Hback _ _ Hi Hne) as (e' & He' & Hpe & Hkk). exists e'. by rewrite lookup_delete_ne.
Qed.

Global Instance same_entries_equiv : Equivalence same_entries.
Proof. split; unfold same_entries; [done|congruence|intros ??? H1 H2 k; by rewrite H2]. Qed.

Lemma same_entries_lookup m m' k e' :
  same_entries m m' → m' !! k = Some e' → ∃ e, m !! k = Some e ∧ unplaced e = unplaced e'.
Proof. intros Hs Hk. specialize (Hs k). rewrite Hk in Hs. symmetry in Hs. by apply fmap_Some in Hs as (e & ? & ?); eauto. Qed.

Lemma same_entries_None m m' k : same_entries m m' → m !! k = None → m' !! k = None.
Proof. intros Hs Hk. specialize (Hs k). rewrite Hk in Hs. by apply fmap_None in Hs. Qed.

Lemma same_entries_size m m' : same_entries m m' → size m' = size m.
Proof.
  intros Hs. rewrite <-(map_size_fmap unplaced m), <-(map_size_fmap unplaced m'). f_equal.
  apply map_eq. intros k. by rewrite !lookup_fmap.
Qed.

Lemma index_take_None m candidates key : m !! key = None → index_take m candidates key = Done None.
Proof. intros Hk. unfold index_take. by rewrite Hk. Qed.

(** Sums over the entries that ignore positions. *)
Lemma msum_unplaced (f : Z → E → Z) m m' :
  (∀ k e, f k (unplaced e) = f k e) → same_entries m m' → msum f m' = msum f m.
Proof.
  intros Hf Heq. assert (Hsum : ∀ m0 : gmap Z E, msum f (unplaced <$> m0) = msum f m0).
  { intros m0. induction m0 as [|k e m0 Hnone IH] using map_ind.
    - by rewrite fmap_empty.
    - rewrite fmap_insert, !msum_insert by (rewrite ?lookup_fmap, ?Hnone; done). by rewrite IH, Hf. }
  rewrite <-(Hsum m), <-(Hsum m'). f_equal. apply map_eq. intros k. by rewrite !lookup_fmap.
Qed.
End index.
