(* ===== verification/Allocation.v ===== *)
(** * Disk chunk allocation ([feuer-storage/src/allocation.rs])

    A shard's allocator keeps the free chunks of its byte range as a map from
    the first chunk of each maximal free run to the run's length, and the
    reservations that hold payloads.  [ReservedChunks] is an owned value that
    returns its chunks when dropped; here the owner passes it explicitly and
    [drop_reserved] is its destructor. *)

From S2P Require Import Prelude BTree.

Definition CHUNK_BYTES : Z := 1024 * 1024.

(** [std::ops::Range<u64>] *)
Record Range := mkRange { range_start : Z; range_end : Z }.

(** The gauges of [DiskMetrics] that the allocator updates.  The metrics object
    is shared by all shards; a shard's record is its contribution. *)
Record ChunkMetrics := mkChunkMetrics {
  free_chunks : Z;
  allocated_chunks : Z;
  recovered_chunks : Z
}.

Record FreeChunks := mkFreeChunks {
  chunk_count_by_start : list (Z * Z);
  chunk_metrics : ChunkMetrics
}.

Record ReservedChunks := mkReservedChunks {
  chunk_numbers : Range;
  recovered : bool
}.

Record DiskChunkAllocator := mkAllocator {
  free : FreeChunks;
  chunk_capacity : Z;
  payload_chunks : gmap Z (ReservedChunks * Z)
}.

Definition with_free (f : FreeChunks) (al : DiskChunkAllocator) : DiskChunkAllocator :=
  mkAllocator f (chunk_capacity al) (payload_chunks al).
Definition with_payload_chunks (p : gmap Z (ReservedChunks * Z)) (al : DiskChunkAllocator) : DiskChunkAllocator :=
  mkAllocator (free al) (chunk_capacity al) p.

(** [FreeChunks::release] *)
Definition release (f : FreeChunks) (chunks : Range) : FreeChunks :=
  let map := chunk_count_by_start f in
  let released_chunk_count := range_end chunks - range_start chunks in
  let merged_chunk_count :=
    released_chunk_count + default 0 (bt_get (range_end chunks) map) in
  let map := bt_remove (range_end chunks) map in
  let map :=
    match bt_last_below (range_start chunks) map with
    | Some (previous, len) =>
        if previous + len =? range_start chunks
        then bt_insert previous (len + merged_chunk_count) map
        else bt_insert (range_start chunks) merged_chunk_count map
    | None => bt_insert (range_start chunks) merged_chunk_count map
    end in
  let mt := chunk_metrics f in
  mkFreeChunks map (mkChunkMetrics (free_chunks mt + released_chunk_count)
                                   (allocated_chunks mt - released_chunk_count)
                                   (recovered_chunks mt)).

(** [impl Drop for FreeChunks]: the gauge left behind. *)
Definition drop_free_chunks (f : FreeChunks) : ChunkMetrics :=
  let mt := chunk_metrics f in
  mkChunkMetrics (free_chunks mt - zsum snd (chunk_count_by_start f))
                 (allocated_chunks mt) (recovered_chunks mt).

(** [DiskChunkAllocator::with_metrics] *)
Definition with_metrics (disk_range : Range) (mt : ChunkMetrics) : DiskChunkAllocator :=
  let capacity := (range_end disk_range - range_start disk_range) / CHUNK_BYTES in
  mkAllocator
    (mkFreeChunks [(range_start disk_range / CHUNK_BYTES, capacity)]
       (mkChunkMetrics (free_chunks mt + capacity) (allocated_chunks mt) (recovered_chunks mt)))
    capacity ∅.

(** [DiskChunkAllocator::reserve_chunk_numbers] *)
Definition reserve_chunk_numbers (f : FreeChunks) (chunks : Range) : option (FreeChunks * ReservedChunks) :=
  let map := chunk_count_by_start f in
  match bt_last_upto (range_start chunks) map with
  | None => None
  | Some (start, count) =>
      let end_ := start + count in
      if (range_end chunks <=? range_start chunks) || (end_ <? range_end chunks) then None
      else
        let count := range_start chunks - start in
        let map := bt_insert start count map in
        let map := if count =? 0 then bt_remove start map else map in
        let map := if range_end chunks <? end_
                   then bt_insert (range_end chunks) (end_ - range_end chunks) map else map in
        let count := range_end chunks - range_start chunks in
        let mt := chunk_metrics f in
        Some (mkFreeChunks map (mkChunkMetrics (free_chunks mt - count)
                                               (allocated_chunks mt + count)
                                               (recovered_chunks mt)),
              mkReservedChunks chunks false)
  end.

(** [DiskChunkAllocator::reserve_chunks_at] *)
Definition reserve_chunks_at (al : DiskChunkAllocator) (first_chunk_number count : Z)
  : option (DiskChunkAllocator * ReservedChunks) :=
  match checked_add first_chunk_number count with
  | None => None
  | Some e =>
      match reserve_chunk_numbers (free al) (mkRange first_chunk_number e) with
      | None => None
      | Some (f, r) => Some (with_free f al, r)
      end
  end.

(** [DiskChunkAllocator::reserve_chunks] *)
Definition reserve_chunks (al : DiskChunkAllocator) (count : Z)
  : option (DiskChunkAllocator * ReservedChunks) :=
  match bt_find (λ e, count <=? e.2) (chunk_count_by_start (free al)) with
  | None => None
  | Some (start, _) =>
      match reserve_chunk_numbers (free al) (mkRange start (start + count)) with
      | None => None
      | Some (f, r) => Some (with_free f al, r)
      end
  end.

(** [ReservedChunks::disk_byte_range] and [ReservedChunks::chunk_count] *)
Definition disk_byte_range (r : ReservedChunks) : Range :=
  mkRange (range_start (chunk_numbers r) * CHUNK_BYTES) (range_end (chunk_numbers r) * CHUNK_BYTES).
Definition chunk_count (r : ReservedChunks) : Z :=
  range_end (chunk_numbers r) - range_start (chunk_numbers r).

(** [ReservedChunks::mark_recovered] *)
Definition mark_recovered (al : DiskChunkAllocator) (r : ReservedChunks)
  : DiskChunkAllocator * ReservedChunks :=
  let f := free al in let mt := chunk_metrics f in
  (with_free (mkFreeChunks (chunk_count_by_start f)
     (mkChunkMetrics (free_chunks mt) (allocated_chunks mt) (recovered_chunks mt + chunk_count r))) al,
   mkReservedChunks (chunk_numbers r) true).

(** [impl Drop for ReservedChunks] *)
Definition drop_reserved (al : DiskChunkAllocator) (r : ReservedChunks) : DiskChunkAllocator :=
  let f := free al in let mt := chunk_metrics f in
  let mt := if recovered r
            then mkChunkMetrics (free_chunks mt) (allocated_chunks mt) (recovered_chunks mt - chunk_count r)
            else mt in
  with_free (release (mkFreeChunks (chunk_count_by_start f) mt) (chunk_numbers r)) al.

(** [DiskChunkAllocator::hold_chunks_for_recovered_payload] *)
Definition hold_chunks_for_recovered_payload (al : DiskChunkAllocator) (payload_range : Range)
  : option DiskChunkAllocator :=
  let first_chunk_number := range_start payload_range / CHUNK_BYTES in
  match payload_chunks al !! first_chunk_number with
  | Some (reserved_chunks, payload_count) =>
      if range_end payload_range <=? range_end (disk_byte_range reserved_chunks)
      then Some (with_payload_chunks
             (<[first_chunk_number := (reserved_chunks, payload_count + 1)]> (payload_chunks al)) al)
      else None
  | None =>
      match reserve_chunks_at al first_chunk_number
              (div_ceil (range_end payload_range) CHUNK_BYTES ⊖ first_chunk_number) with
      | None => None
      | Some (al, reserved_chunks) =>
          let '(al, reserved_chunks) := mark_recovered al reserved_chunks in
          Some (with_payload_chunks
                  (<[first_chunk_number := (reserved_chunks, 1)]> (payload_chunks al)) al)
      end
  end.

(** [DiskChunkAllocator::hold_chunks_until_payloads_released].  [HashMap::insert]
    drops the value it replaces, which would return the chunks of a reservation
    already held under the same first chunk. *)
Definition hold_chunks_until_payloads_released
    (al : DiskChunkAllocator) (reserved_chunks : ReservedChunks) (payload_count : Z) : DiskChunkAllocator :=
  let k := range_start (chunk_numbers reserved_chunks) in
  let al' := with_payload_chunks (<[k := (reserved_chunks, payload_count)]> (payload_chunks al)) al in
  match payload_chunks al !! k with
  | Some (replaced, _) => drop_reserved al' replaced
  | None => al'
  end.

(** [DiskChunkAllocator::release_payload] *)
Definition release_payload (al : DiskChunkAllocator) (payload_address : Z) : outcome DiskChunkAllocator :=
  let first_chunk_number := payload_address / CHUNK_BYTES in
  match payload_chunks al !! first_chunk_number with
  | Some (reserved_chunks, count) =>
      if count =? 1
      then Done (drop_reserved (with_payload_chunks (delete first_chunk_number (payload_chunks al)) al)
                               reserved_chunks)
      else Done (with_payload_chunks
                   (<[first_chunk_number := (reserved_chunks, count - 1)]> (payload_chunks al)) al)
  | None => Panic
  end.

(** ** What the free map and the reservations mean *)

(** Chunk [c] belongs to the range. *)
Definition in_range (c : Z) (r : Range) : bool := (range_start r <=? c) && (c <? range_end r).

(** Chunk [c] is free. *)
Definition free_b (m : list (Z * Z)) (c : Z) : bool :=
  existsb (λ e, (e.1 <=? c) && (c <? e.1 + e.2)) m.

(** The free map's invariant: nonempty runs inside [lo, hi), in order, with at
    least one allocated chunk between two runs (adjacent runs are merged). *)
Definition runs_ok (lo hi : Z) (m : list (Z * Z)) : Prop :=
  StronglySorted (λ a b, a.1 + a.2 < b.1) m ∧
  Forall (λ e, lo ≤ e.1 ∧ 0 < e.2 ∧ e.1 + e.2 ≤ hi) m.

(** Ownership: every chunk of the shard is free or held by exactly one
    reservation, either one kept in [payload_chunks] or one of [owners] (the
    metadata chunks and the writes in progress). *)
Definition cover (c : Z) (owners : list ReservedChunks) : Z :=
  zsum (λ r, Z.b2z (in_range c (chunk_numbers r))) owners.
Definition held_cover (c : Z) (al : DiskChunkAllocator) : Z :=
  msum (λ _ h, Z.b2z (in_range c (chunk_numbers h.1))) (payload_chunks al).
Definition recovered_count (r : ReservedChunks) : Z := if recovered r then chunk_count r else 0.

Record alloc_ok (lo hi : Z) (al : DiskChunkAllocator) (owners : list ReservedChunks) : Prop := mkAllocOk {
  ao_bounds : 0 ≤ lo ≤ hi ∧ hi < 2 ^ 63;
  ao_capacity : chunk_capacity al = hi - lo;
  ao_runs : runs_ok lo hi (chunk_count_by_start (free al));
  ao_partition : ∀ c, Z.b2z (free_b (chunk_count_by_start (free al)) c)
                      + (cover c owners + held_cover c al) = Z.b2z (in_range c (mkRange lo hi));
  ao_owners : Forall (λ r, 0 < chunk_count r) owners;
  ao_held : ∀ k r n, payload_chunks al !! k = Some (r, n) →
              range_start (chunk_numbers r) = k ∧ 0 < chunk_count r ∧ 0 < n
}.

(** The gauges agree with the allocator's state. *)
Record gauges_ok (al : DiskChunkAllocator) (owners : list ReservedChunks) : Prop := mkGaugesOk {
  go_free : free_chunks (chunk_metrics (free al)) = zsum snd (chunk_count_by_start (free al));
  go_allocated : allocated_chunks (chunk_metrics (free al)) =
    zsum chunk_count owners + msum (λ _ h, chunk_count h.1) (payload_chunks al);
  go_recovered : recovered_chunks (chunk_metrics (free al)) =
    zsum recovered_count owners + msum (λ _ h, recovered_count h.1) (payload_chunks al)
}.

(** One operation on the allocator by its clients, with the reservations the
    clients own before and after it. *)
Inductive alloc_step : DiskChunkAllocator * list ReservedChunks → DiskChunkAllocator * list ReservedChunks → Prop :=
  | step_reserve al owners count al' r :
      reserve_chunks al count = Some (al', r) →
      alloc_step (al, owners) (al', r :: owners)
  | step_reserve_at al owners first count al' r :
      0 ≤ first → 0 ≤ count →
      reserve_chunks_at al first count = Some (al', r) →
      alloc_step (al, owners) (al', r :: owners)
  | step_mark al owners1 r owners2 al' r' :
      recovered r = false →
      mark_recovered al r = (al', r') →
      alloc_step (al, owners1 ++ r :: owners2) (al', owners1 ++ r' :: owners2)
  | step_drop al owners1 r owners2 :
      alloc_step (al, owners1 ++ r :: owners2) (drop_reserved al r, owners1 ++ owners2)
  | step_hold al owners1 r owners2 n :
      0 < n →
      alloc_step (al, owners1 ++ r :: owners2)
                 (hold_chunks_until_payloads_released al r n, owners1 ++ owners2)
  | step_hold_recovered al owners range al' :
      0 ≤ range_start range < 2 ^ 64 → 0 ≤ range_end range < 2 ^ 64 →
      hold_chunks_for_recovered_payload al range = Some al' →
      alloc_step (al, owners) (al', owners)
  | step_release_payload al owners address al' :
      release_payload al address = Done al' →
      alloc_step (al, owners) (al', owners).

(** ** Free runs *)
Global Arguments free_b : simpl never.
Global Arguments in_range : simpl never.
Global Arguments cover : simpl never.
Global Arguments held_cover : simpl never.

Lemma in_range_true c r : in_range c r = true ↔ range_start r ≤ c < range_end r.
Proof. unfold in_range. rewrite andb_true_iff, Z.leb_le, Z.ltb_lt. lia. Qed.

Lemma in_range_false c r : in_range c r = false ↔ ¬ (range_start r ≤ c < range_end r).
Proof. rewrite <-in_range_true. by destruct (in_range c r). Qed.

Lemma free_b_true m c : free_b m c = true ↔ ∃ s n, (s, n) ∈ m ∧ s ≤ c < s + n.
Proof.
  unfold free_b. rewrite existsb_exists. setoid_rewrite andb_true_iff.
  setoid_rewrite Z.leb_le. setoid_rewrite Z.ltb_lt. split.
  - intros ([s n] & Hin%list_elem_of_In & ?). exists s, n. cbn in *. auto with lia.
  - intros (s & n & Hin & ?). exists (s, n). cbn. rewrite <-list_elem_of_In. auto with lia.
Qed.

Lemma free_b_app l1 l2 c : free_b (l1 ++ l2) c = free_b l1 c || free_b l2 c.
Proof. apply existsb_app. Qed.

Lemma free_b_nil c : free_b [] c = false.
Proof. done. Qed.

Lemma free_b_cons s n l c : free_b ((s, n) :: l) c = in_range c (mkRange s (s + n)) || free_b l c.
Proof. done. Qed.

Section runs.
Context (lo hi : Z).

Lemma runs_ok_sorted m : runs_ok lo hi m → bt_sorted m.
Proof.
  intros [Hs Hf]. unfold bt_sorted. induction Hs as [|e l Hs IH Hl]; [constructor|].
  apply Forall_cons in Hf as [He Hf]. constructor; [auto|].
  eapply Forall_impl; [exact Hl|]. cbn. intros; lia.
Qed.

Lemma runs_ok_app l1 l2 :
  runs_ok lo hi (l1 ++ l2) ↔
  runs_ok lo hi l1 ∧ runs_ok lo hi l2 ∧ ∀ a b, a ∈ l1 → b ∈ l2 → a.1 + a.2 < b.1.
Proof.
  unfold runs_ok. rewrite StronglySorted_app, Forall_app. split.
  - by intros ((? & ? & ?) & ? & ?).
  - by intros ((? & ?) & (? & ?) & ?).
Qed.

Lemma runs_ok_cons e l :
  runs_ok lo hi (e :: l) ↔
  (lo ≤ e.1 ∧ 0 < e.2 ∧ e.1 + e.2 ≤ hi) ∧ runs_ok lo hi l ∧ ∀ b, b ∈ l → e.1 + e.2 < b.1.
Proof.
  change (e :: l) with ([e] ++ l). rewrite runs_ok_app. split.
  - intros ([_ Hf] & Hl & Hb). apply Forall_cons in Hf as [Hf _]. split; [done|].
    split; [done|]. intros b Hin. apply Hb; [left|done].
  - intros (He & Hl & Hb). split; [|split; [done|]].
    + split; constructor; done || constructor.
    + intros a b ->%list_elem_of_singleton Hin. by apply Hb.
Qed.

Lemma runs_ok_nil : runs_ok lo hi [].
Proof. split; constructor. Qed.

(** No two runs touch, so the chunk after a run is not free. *)
Lemma run_end_not_free m s n : runs_ok lo hi m → (s, n) ∈ m → free_b m (s + n) = false.
Proof.
  intros Hok (l1 & l2 & ->)%list_elem_of_split.
  apply runs_ok_app in Hok as (Hl1 & Hmid & Hgap).
  apply runs_ok_cons in Hmid as (He & Hl2 & Hgap2).
  destruct (free_b _ _) eqn:Hfree; [|done].
  apply free_b_true in Hfree as (s' & n' & Hin & Hc).
  rewrite elem_of_app, elem_of_cons in Hin. destruct Hin as [Hin|[[= -> ->]|Hin]].
  - specialize (Hgap (s', n') (s, n) Hin ltac:(left)). cbn in *. lia.
  - lia.
  - specialize (Hgap2 (s', n') Hin). cbn in *. lia.
Qed.

(** Consecutive free chunks lie in one run. *)
Lemma consecutive_free_in_run m a b :
  runs_ok lo hi m → a < b → (∀ c, a ≤ c < b → free_b m c = true) →
  ∃ s n, (s, n) ∈ m ∧ s ≤ a ∧ b ≤ s + n.
Proof.
  intros Hok Hab Hall. assert (Ha := Hall a ltac:(lia)).
  apply free_b_true in Ha as (s & n & Hin & Hc). exists s, n. split_and!; [done|lia|].
  apply Z.nlt_ge. intros Hlt.
  assert (Hend := run_end_not_free _ _ _ Hok Hin). rewrite Hall in Hend by lia. done.
Qed.

Lemma free_b_before s n m c : runs_ok lo hi ((s, n) :: m) → c < s → free_b ((s, n) :: m) c = false.
Proof.
  intros ((?&?&?) & Hm & Hb)%runs_ok_cons Hc. cbn in *.
  destruct (free_b _ _) eqn:Hf; [|done].
  apply free_b_true in Hf as (s' & n' & [?|Hin]%elem_of_cons & ?); simplify_eq; [lia|].
  specialize (Hb _ Hin). cbn in *. lia.
Qed.

Lemma free_b_head s n m c : s ≤ c < s + n → free_b ((s, n) :: m) c = true.
Proof. intros ?. rewrite free_b_cons, (proj2 (in_range_true _ _)) by (cbn; lia). done. Qed.

Lemma free_b_tail e m c : (∀ b, b ∈ m → e < b.1) → c ≤ e → free_b m c = false.
Proof.
  intros Hb Hc. destruct (free_b m c) eqn:Hf; [|done].
  apply free_b_true in Hf as (s' & n' & Hin' & ?). specialize (Hb _ Hin'). cbn in *. lia.
Qed.

(** A free map is determined by the set of free chunks it stands for. *)
Lemma runs_canonical m1 m2 :
  runs_ok lo hi m1 → runs_ok lo hi m2 → (∀ c, free_b m1 c = free_b m2 c) → m1 = m2.
Proof.
  revert m2. induction m1 as [|[s1 n1] m1 IH]; intros [|[s2 n2] m2] H1 H2 Heq.
  - done.
  - apply runs_ok_cons in H2 as ((?&?&?) & _ & _). cbn in *. specialize (Heq s2).
    rewrite free_b_nil, free_b_head in Heq by lia. done.
  - apply runs_ok_cons in H1 as ((?&?&?) & _ & _). cbn in *. specialize (Heq s1).
    rewrite free_b_nil, free_b_head in Heq by lia. done.
  - assert (Hend1 := run_end_not_free _ s1 n1 H1 ltac:(left)).
    assert (Hend2 := run_end_not_free _ s2 n2 H2 ltac:(left)).
    assert (Hbefore1 := λ c, free_b_before s1 n1 m1 c H1).
    assert (Hbefore2 := λ c, free_b_before s2 n2 m2 c H2).
    apply runs_ok_cons in H1 as ((?&?&?) & Hm1 & Hb1), H2 as ((?&?&?) & Hm2 & Hb2). cbn [fst snd] in *.
    assert (s1 = s2) as <-.
    { destruct (Z.lt_total s1 s2) as [Hlt|[?|Hlt]]; [|done|].
      - specialize (Hbefore2 s1 Hlt). rewrite <-Heq, free_b_head in Hbefore2 by lia. done.
      - specialize (Hbefore1 s2 Hlt). rewrite Heq, free_b_head in Hbefore1 by lia. done. }
    assert (n1 = n2) as <-.
    { destruct (Z.lt_total n1 n2) as [?|[?|?]]; [|done|].
      - rewrite Heq, free_b_head in Hend1 by lia. done.
      - rewrite <-Heq, free_b_head in Hend2 by lia. done. }
    f_equal. apply IH; [done..|]. intros c. specialize (Heq c). rewrite !free_b_cons in Heq.
    destruct (in_range c _) eqn:Hin; [|done].
    apply in_range_true in Hin. cbn in Hin.
    rewrite (free_b_tail (s1 + n1) m1), (free_b_tail (s1 + n1) m2); auto with lia.
Qed.

(** What remains of run [(s, n)] after reserving chunks [a, b) of it. *)
Definition run_remainder (s n a b : Z) : list (Z * Z) :=
  (if a - s =? 0 then [] else [(s, a - s)]) ++ (if b <? s + n then [(b, s + n - b)] else []).

Lemma run_remainder_ok s n a b :
  lo ≤ s → s + n ≤ hi → s ≤ a → a < b → b ≤ s + n →
  runs_ok lo hi (run_remainder s n a b) ∧
  (∀ e, e ∈ run_remainder s n a b → s ≤ e.1 ∧ e.1 + e.2 ≤ s + n) ∧
  (∀ c, free_b (run_remainder s n a b) c =
        in_range c (mkRange s (s + n)) && negb (in_range c (mkRange a b))) ∧
  zsum snd (run_remainder s n a b) = n - (b - a).
Proof.
  intros ?????. unfold run_remainder, zsum, free_b, in_range.
  destruct (Z.eqb_spec (a - s) 0), (Z.ltb_spec b (s + n)); cbn [app foldr existsb fst snd range_start range_end].
  all: split; [|split; [intros x Hx; elem_cases; cbn; lia|split; [intros c; lia|lia]]].
  all: rewrite ?runs_ok_cons; cbn [fst snd];
    repeat match goal with |- _ ∧ _ => split end; try lia; try apply runs_ok_nil.
  all: intros x Hx; elem_cases; cbn; lia.
Qed.

(** Replacing a run by runs inside it keeps the map's invariant. *)
Lemma runs_ok_replace l1 s n l2 mid :
  runs_ok lo hi (l1 ++ (s, n) :: l2) → runs_ok lo hi mid →
  (∀ e, e ∈ mid → s ≤ e.1 ∧ e.1 + e.2 ≤ s + n) →
  runs_ok lo hi (l1 ++ mid ++ l2).
Proof.
  intros (H1 & (Hs & H2 & Hgap2)%runs_ok_cons & Hgap1)%runs_ok_app Hmid Hin. cbn in *.
  rewrite !runs_ok_app. split_and!; try done.
  - intros x y Hx Hy. specialize (Hgap2 y Hy). specialize (Hin x Hx). lia.
  - intros x y Hx [Hy|Hy]%elem_of_app.
    + specialize (Hgap1 x (s, n) Hx ltac:(left)). specialize (Hin y Hy). cbn in *. lia.
    + apply Hgap1; [done|by right].
Qed.

Lemma free_b_disjoint l1 s n l2 c :
  runs_ok lo hi (l1 ++ (s, n) :: l2) → s ≤ c < s + n → free_b l1 c = false ∧ free_b l2 c = false.
Proof.
  intros (H1 & (Hs & H2 & Hgap2)%runs_ok_cons & Hgap1)%runs_ok_app Hc. cbn in *. split.
  - destruct (free_b l1 c) eqn:Hf; [|done].
    apply free_b_true in Hf as (s' & n' & Hin & ?).
    specialize (Hgap1 _ (s, n) Hin ltac:(left)). cbn in *. lia.
  - apply (free_b_tail (s + n)); [done|lia].
Qed.

(** Reserving chunks [a, b) inside run [(s, n)]. *)
Lemma reserve_in_run f l1 s n l2 a b :
  chunk_count_by_start f = l1 ++ (s, n) :: l2 →
  runs_ok lo hi (chunk_count_by_start f) → s ≤ a → a < b → b ≤ s + n →
  reserve_chunk_numbers f (mkRange a b) =
    Some (mkFreeChunks (l1 ++ run_remainder s n a b ++ l2)
            (mkChunkMetrics (free_chunks (chunk_metrics f) - (b - a))
                            (allocated_chunks (chunk_metrics f) + (b - a))
                            (recovered_chunks (chunk_metrics f))),
          mkReservedChunks (mkRange a b) false).
Proof.
  intros Hm Hok ???. rewrite Hm in Hok.
  assert (Hlt : keys_lt l1 s).
  { apply runs_ok_app in Hok as ([_ Hf] & _ & Hgap). unfold keys_lt.
    rewrite Forall_forall in *. intros x Hx. specialize (Hf x Hx).
    specialize (Hgap x (s, n) Hx ltac:(left)). cbn in *. lia. }
  assert (Hgt : keys_gt l2 (s + n)).
  { apply runs_ok_app in Hok as (_ & (_ & _ & Hgap)%runs_ok_cons & _). by apply Forall_forall. }
  assert (Hgtb : ∀ k, k ≤ s + n → keys_gt l2 k).
  { intros k Hk. eapply Forall_impl; [exact Hgt|]. cbn. intros; lia. }
  unfold reserve_chunk_numbers. cbn [range_start range_end].
  rewrite Hm, bt_last_upto_split by (cbn; auto with lia).
  rewrite (proj2 (Z.leb_gt b a)), (proj2 (Z.ltb_ge (s + n) b)) by lia. cbn [orb].
  rewrite bt_insert_replace by done.
  do 3 f_equal. unfold run_remainder. destruct (Z.eqb_spec (a - s) 0).
  - rewrite bt_remove_split by done. destruct (Z.ltb_spec b (s + n)); [|done].
    rewrite bt_insert_split; [done| |apply Hgtb; lia].
    eapply Forall_impl; [exact Hlt|]. cbn. intros; lia.
  - destruct (Z.ltb_spec b (s + n)); [|done].
    rewrite cons_middle, app_assoc, bt_insert_split, <-app_assoc; [done| |apply Hgtb; lia].
    apply Forall_app. split; [|repeat constructor; cbn; lia].
    eapply Forall_impl; [exact Hlt|]. cbn. intros; lia.
Qed.

(** The run found by [range_mut(..=a).next_back()] is the only one that can
    contain [a, b). *)
Lemma reserve_run_or_None f a b :
  runs_ok lo hi (chunk_count_by_start f) → a < b →
  (∃ s n, (s, n) ∈ chunk_count_by_start f ∧ s ≤ a ∧ b ≤ s + n) ∨
  (reserve_chunk_numbers f (mkRange a b) = None ∧
   ¬ ∃ s n, (s, n) ∈ chunk_count_by_start f ∧ s ≤ a ∧ b ≤ s + n).
Proof.
  intros Hok Hab. unfold reserve_chunk_numbers. cbn [range_start range_end].
  set (m := chunk_count_by_start f) in *.
  pose proof (bt_last_upto_spec a m (runs_ok_sorted _ Hok)) as Hlast.
  destruct (bt_last_upto a m) as [[s n]|].
  - destruct Hlast as (l1 & l2 & Hm & Hl1 & Hsa & Hl2 & Hgt). cbn in *.
    destruct (Z.leb_spec b (s + n)).
    { left. exists s, n. rewrite Hm. split; [|lia]. apply elem_of_app. right. left. }
    right. rewrite (proj2 (Z.ltb_lt (s + n) b)), orb_true_r by lia. split; [done|].
    intros (s' & n' & Hin & ? & ?). rewrite Hm in Hin, Hok.
    apply runs_ok_app in Hok as (_ & _ & Hgap).
    apply elem_of_app in Hin as [Hin|[?|Hin]%elem_of_cons].
    + specialize (Hgap _ (s, n) Hin ltac:(left)). cbn in *. lia.
    + simplify_eq. lia.
    + unfold keys_gt in Hgt. rewrite Forall_forall in Hgt. specialize (Hgt _ Hin). cbn in *. lia.
  - right. split; [done|]. intros (s & n & Hin & ? & ?).
    unfold keys_gt in Hlast. rewrite Forall_forall in Hlast. specialize (Hlast _ Hin). cbn in *. lia.
Qed.

(** [reserve_chunk_numbers] succeeds exactly when the range is nonempty and
    every chunk of it is free, and then takes exactly these chunks. *)
Lemma reserve_chunk_numbers_spec f a b :
  runs_ok lo hi (chunk_count_by_start f) →
  match reserve_chunk_numbers f (mkRange a b) with
  | Some (f', r) =>
      a < b ∧ (∀ c, a ≤ c < b → free_b (chunk_count_by_start f) c = true)
      ∧ runs_ok lo hi (chunk_count_by_start f')
      ∧ (∀ c, free_b (chunk_count_by_start f') c
              = free_b (chunk_count_by_start f) c && negb (in_range c (mkRange a b)))
      ∧ zsum snd (chunk_count_by_start f') = zsum snd (chunk_count_by_start f) - (b - a)
      ∧ chunk_metrics f' = mkChunkMetrics (free_chunks (chunk_metrics f) - (b - a))
                             (allocated_chunks (chunk_metrics f) + (b - a))
                             (recovered_chunks (chunk_metrics f))
      ∧ r = mkReservedChunks (mkRange a b) false
  | None => ¬ (a < b ∧ ∀ c, a ≤ c < b → free_b (chunk_count_by_start f) c = true)
  end.
Proof.
  intros Hok. destruct (decide (a < b)) as [Hab|Hab]; last first.
  { unfold reserve_chunk_numbers. cbn. destruct (bt_last_upto a _) as [[s n]|]; [|tauto].
    rewrite (proj2 (Z.leb_le b a)) by lia. cbn. tauto. }
  destruct (reserve_run_or_None f a b Hok Hab) as [(s & n & Hin & Hsa & Hbn)|[-> Hnone]]; last first.
  { intros [_ Hall]. apply Hnone. by apply consecutive_free_in_run. }
  apply list_elem_of_split in Hin as (l1 & l2 & Hm).
  rewrite (reserve_in_run f l1 s n l2 a b Hm Hok) by done.
  rewrite Hm in Hok. assert (Hs : lo ≤ s ∧ 0 < n ∧ s + n ≤ hi).
  { apply runs_ok_app in Hok as (_ & (? & _)%runs_ok_cons & _). done. }
  destruct (run_remainder_ok s n a b) as (Hmid & Hin & Hfree & Hsum); [lia..|].
  cbn [chunk_count_by_start chunk_metrics]. split_and!; try done.
  - intros c Hc. rewrite Hm, free_b_app, free_b_cons, (proj2 (in_range_true c _)) by (cbn; lia).
    by rewrite orb_true_r.
  - by eapply runs_ok_replace.
  - intros c. rewrite Hm, !free_b_app, free_b_cons, Hfree.
    destruct (in_range c (mkRange a b)) eqn:Hc; [|by rewrite !andb_true_r].
    apply in_range_true in Hc. cbn in Hc.
    destruct (free_b_disjoint l1 s n l2 c Hok) as [-> ->]; [lia|]. by rewrite !andb_false_r.
  - rewrite Hm, !zsum_app, zsum_cons, Hsum. cbn. lia.
Qed.

(** No free chunk in [a, b) splits the runs into those before and those after. *)
Lemma runs_split_at m a b :
  runs_ok lo hi m → a < b → (∀ c, a ≤ c < b → free_b m c = false) →
  ∃ l1 l2, m = l1 ++ l2 ∧ Forall (λ e, e.1 + e.2 ≤ a) l1 ∧ Forall (λ e, b ≤ e.1) l2.
Proof.
  intros Hok Hab Hnone. induction m as [|[s n] m IH].
  { exists [], []. by repeat split. }
  assert (Hok' := Hok). apply runs_ok_cons in Hok as (Hs & Hm & Hgap). cbn in *.
  assert (Hc : s + n ≤ a ∨ b ≤ s).
  { destruct (decide (s + n ≤ a)), (decide (b ≤ s)); [lia..|].
    specialize (Hnone (Z.max a s) ltac:(lia)). rewrite free_b_head in Hnone by lia. done. }
  destruct Hc as [Hc|Hc].
  - destruct IH as (l1 & l2 & -> & ? & ?); [done| |].
    { intros c ?. specialize (Hnone c ltac:(lia)). rewrite free_b_cons in Hnone.
      by apply orb_false_iff in Hnone as [_ ?]. }
    exists ((s, n) :: l1), l2. by split_and!; [|constructor|].
  - exists [], ((s, n) :: m). split_and!; [done|constructor|]. constructor; [done|].
    apply Forall_forall. intros e He. specialize (Hgap e He). lia.
Qed.

Lemma runs_before_keys l a :
  runs_ok lo hi l → Forall (λ e, e.1 + e.2 ≤ a) l → Forall (λ e, e.1 < a) l.
Proof.
  intros [_ Hok] Hl. rewrite Forall_forall in *. intros e He.
  specialize (Hok e He). specialize (Hl e He). cbn in *. lia.
Qed.

Lemma release_right l1 l2 a b :
  runs_ok lo hi (l1 ++ l2) → a < b →
  Forall (λ e, e.1 + e.2 ≤ a) l1 → Forall (λ e, b ≤ e.1) l2 →
  ∃ n2 l2', default 0 (bt_get b (l1 ++ l2)) = n2 ∧ bt_remove b (l1 ++ l2) = l1 ++ l2' ∧ 0 ≤ n2
    ∧ (0 < n2 → b + n2 ≤ hi) ∧ runs_ok lo hi (l1 ++ l2')
    ∧ (∀ e, e ∈ l2' → b + n2 < e.1)
    ∧ (∀ c, free_b l2 c = in_range c (mkRange b (b + n2)) || free_b l2' c)
    ∧ zsum snd l2 = n2 + zsum snd l2'.
Proof.
  intros Hok Hab Hl1 Hl2. assert (Hs := runs_ok_sorted _ Hok).
  assert (Hok' := Hok). apply runs_ok_app in Hok as (Hok1 & Hok2 & Hgap).
  destruct (bt_get b (l1 ++ l2)) as [n2|] eqn:Hget.
  - assert (Hin : (b, n2) ∈ l2).
    { apply bt_get_elem in Hget; [|done]. apply elem_of_app in Hget as [Hin|]; [|done].
      rewrite Forall_forall in Hl1. specialize (Hl1 _ Hin). destruct Hok1 as [_ Hf].
      rewrite Forall_forall in Hf. specialize (Hf _ Hin). cbn in *. lia. }
    destruct l2 as [|[s n] l2]; [by apply elem_of_nil in Hin|].
    apply Forall_cons in Hl2 as [Hb _]. apply runs_ok_cons in Hok2 as (? & Hok2 & Hgap2). cbn in *.
    assert ((s, n) = (b, n2)) as [= -> ->].
    { apply elem_of_cons in Hin as [?|Hin]; [done|]. specialize (Hgap2 _ Hin). cbn in *. lia. }
    exists n2, l2. split_and!; try done; try lia.
    + rewrite bt_remove_split; [done|].
      eapply Forall_impl; [by apply (runs_before_keys _ a)|]. cbn. intros; lia.
    + apply runs_ok_app. split_and!; try done. intros x y Hx Hy. apply Hgap; [done|by right].
  - exists 0, l2. rewrite bt_remove_absent by done. split_and!; try done; try lia.
    + intros [s n] Hin. rewrite Forall_forall in Hl2. specialize (Hl2 _ Hin). cbn in *.
      rewrite bt_get_None in Hget. destruct (decide (s = b)) as [->|]; [|lia].
      destruct (Hget n). set_solver.
    + intros c. by rewrite (proj2 (in_range_false _ _)) by (cbn; lia).
Qed.

Lemma runs_ok_insert l1 s n l2 :
  runs_ok lo hi l1 → runs_ok lo hi l2 → lo ≤ s → 0 < n → s + n ≤ hi →
  (∀ e, e ∈ l1 → e.1 + e.2 < s) → (∀ e, e ∈ l2 → s + n < e.1) →
  runs_ok lo hi (l1 ++ (s, n) :: l2).
Proof.
  intros H1 H2 ??? Hl1 Hl2. rewrite runs_ok_app, runs_ok_cons. cbn [fst snd].
  split; [done|]. split; [split; [lia|done]|].
  intros x y Hx [->|Hy]%elem_of_cons; [by apply Hl1|].
  specialize (Hl1 x Hx). specialize (Hl2 y Hy). lia.
Qed.

(** The map after [release], in terms of the runs before and after the chunks. *)
Lemma release_map f a b l1 l2 :
  chunk_count_by_start f = l1 ++ l2 → runs_ok lo hi (l1 ++ l2) → a < b →
  Forall (λ e, e.1 + e.2 ≤ a) l1 → Forall (λ e, b ≤ e.1) l2 →
  ∃ n2 l2', runs_ok lo hi (l1 ++ l2') ∧ 0 ≤ n2 ∧ (0 < n2 → b + n2 ≤ hi) ∧ (∀ e, e ∈ l2' → b + n2 < e.1)
    ∧ (∀ c, free_b l2 c = in_range c (mkRange b (b + n2)) || free_b l2' c)
    ∧ zsum snd l2 = n2 + zsum snd l2'
    ∧ ((chunk_count_by_start (release f (mkRange a b)) = l1 ++ (a, b - a + n2) :: l2'
        ∧ ∀ e, e ∈ l1 → e.1 + e.2 < a)
       ∨ ∃ l1' p len, l1 = l1' ++ [(p, len)] ∧ p + len = a
         ∧ chunk_count_by_start (release f (mkRange a b)) = l1' ++ (p, len + (b - a + n2)) :: l2').
Proof.
  intros Hm Hok Hab Hl1 Hl2.
  destruct (release_right l1 l2 a b Hok Hab Hl1 Hl2)
    as (n2 & l2' & Hget & Hrem & Hn2 & Hbhi & Hok' & Hgt & Hfree2 & Hsum2).
  exists n2, l2'. split_and!; try done.
  apply runs_ok_app in Hok' as (Hok1 & _ & _).
  assert (Hpos1 : Forall (λ e, e.1 < a) l1) by by apply runs_before_keys.
  assert (Hkeys : keys_gt l2' a) by (apply Forall_forall; intros e He; specialize (Hgt e He); lia).
  unfold release. cbn [range_start range_end chunk_count_by_start]. rewrite Hm, Hget, Hrem.
  rewrite bt_last_below_all; [|done|apply Forall_forall; intros e He; specialize (Hgt e He); lia].
  destruct (last l1) as [[p len]|] eqn:Hlast; last first.
  { rewrite last_None in Hlast. subst l1. left. rewrite bt_insert_split by done.
    split; [done|]. intros e He. by apply elem_of_nil in He. }
  apply last_Some in Hlast as [l1' ->]. rewrite Forall_app, Forall_cons in Hl1.
  destruct Hl1 as (_ & Hp & _). cbn in Hp.
  apply runs_ok_app in Hok1 as (Hok1 & (Hp' & _)%runs_ok_cons & Hg). cbn in Hp'.
  assert (Hlt : ∀ e, e ∈ l1' → e.1 + e.2 < p) by (intros e He; apply (Hg e (p, len)); [done|left]).
  destruct (Z.eqb_spec (p + len) a) as [Hpa|Hpa].
  - right. exists l1', p, len. split_and!; try done.
    rewrite <-app_assoc. cbn [app]. apply bt_insert_replace. apply (runs_before_keys _ p); [done|].
    apply Forall_forall. intros e He. specialize (Hlt e He). lia.
  - left. rewrite bt_insert_split by done. split; [done|].
    intros e [He| ->%list_elem_of_singleton]%elem_of_app; [specialize (Hlt e He)|cbn]; lia.
Qed.

(** [release] makes exactly the returned chunks free and keeps adjacent runs
    merged. *)
Lemma release_spec f a b :
  runs_ok lo hi (chunk_count_by_start f) → lo ≤ a → a < b → b ≤ hi →
  (∀ c, a ≤ c < b → free_b (chunk_count_by_start f) c = false) →
  runs_ok lo hi (chunk_count_by_start (release f (mkRange a b))) ∧
  (∀ c, free_b (chunk_count_by_start (release f (mkRange a b))) c
        = free_b (chunk_count_by_start f) c || in_range c (mkRange a b)) ∧
  zsum snd (chunk_count_by_start (release f (mkRange a b)))
    = zsum snd (chunk_count_by_start f) + (b - a).
Proof.
  intros Hok Hlo Hab Hhi Hnone.
  destruct (runs_split_at _ a b Hok Hab Hnone) as (l1 & l2 & Hm & Hl1 & Hl2). rewrite Hm in Hok.
  destruct (release_map f a b l1 l2 Hm Hok Hab Hl1 Hl2)
    as (n2 & l2' & (Hok1 & Hok2 & _)%runs_ok_app & Hn2 & Hbhi & Hgt & Hfree2 & Hsum2 & Hres).
  rewrite Hm, zsum_app, Hsum2. setoid_rewrite free_b_app. setoid_rewrite Hfree2.
  destruct Hres as [(-> & Hlt)|(l1' & p & len & -> & Hpa & ->)].
  - split; [|split].
    + apply runs_ok_insert; try done; try lia. intros e He. specialize (Hgt e He). lia.
    + intros c. rewrite free_b_app, free_b_cons. unfold in_range; cbn [range_start range_end].
      destruct (free_b l1 c), (free_b l2' c); cbn [orb]; lia.
    + rewrite zsum_app, zsum_cons. cbn. lia.
  - apply runs_ok_app in Hok1 as (Hok1 & (Hp & _)%runs_ok_cons & Hg). cbn in Hp. split; [|split].
    + apply runs_ok_insert; try done; try lia.
      * intros e He. apply (Hg e (p, len)); [done|left].
      * intros e He. specialize (Hgt e He). lia.
    + intros c. rewrite !free_b_app, !free_b_cons, free_b_nil.
      unfold in_range; cbn [range_start range_end].
      destruct (free_b l1' c), (free_b l2' c); cbn [orb]; lia.
    + autorewrite with sums. cbn. lia.
Qed.
End runs.

Lemma release_metrics f a b :
  chunk_metrics (release f (mkRange a b)) =
    mkChunkMetrics (free_chunks (chunk_metrics f) + (b - a))
                   (allocated_chunks (chunk_metrics f) - (b - a))
                   (recovered_chunks (chunk_metrics f)).
Proof. done. Qed.

(** ** Ownership *)
Section ownership.
Context (lo hi : Z).
Implicit Types (al : DiskChunkAllocator) (owners : list ReservedChunks) (r : ReservedChunks).

Lemma cover_cons c r owners :
  cover c (r :: owners) = Z.b2z (in_range c (chunk_numbers r)) + cover c owners.
Proof. done. Qed.

Lemma b2z_cases b : Z.b2z b = 0 ∨ Z.b2z b = 1.
Proof. destruct b; cbn; lia. Qed.

Lemma cover_nonneg c owners : 0 ≤ cover c owners.
Proof. apply zsum_nonneg. intros r _. destruct (b2z_cases (in_range c (chunk_numbers r))); lia. Qed.

Lemma held_cover_nonneg c al : 0 ≤ held_cover c al.
Proof. apply msum_nonneg. intros k h _. destruct (b2z_cases (in_range c (chunk_numbers h.1))); lia. Qed.

Global Instance alloc_ok_perm al : Proper ((≡ₚ) ==> iff) (alloc_ok lo hi al).
Proof.
  assert (Himp : ∀ o1 o2, o1 ≡ₚ o2 → alloc_ok lo hi al o1 → alloc_ok lo hi al o2).
  { intros o1 o2 Hp []. constructor; try done.
    - intros c. unfold cover. rewrite <-Hp. apply ao_partition0.
    - by rewrite <-Hp. }
  intros o1 o2 Hp. split; apply Himp; [done|by symmetry].
Qed.

Global Instance gauges_ok_perm al : Proper ((≡ₚ) ==> iff) (gauges_ok al).
Proof.
  assert (Himp : ∀ o1 o2, o1 ≡ₚ o2 → gauges_ok al o1 → gauges_ok al o2).
  { intros o1 o2 Hp []. constructor; rewrite <-?Hp; done. }
  intros o1 o2 Hp. split; apply Himp; [done|by symmetry].
Qed.

(** Every owned range lies in the shard and none of its chunks is free. *)
Lemma owner_range al r owners :
  alloc_ok lo hi al (r :: owners) →
  lo ≤ range_start (chunk_numbers r) ∧ range_end (chunk_numbers r) ≤ hi
  ∧ (∀ c, in_range c (chunk_numbers r) = true →
       free_b (chunk_count_by_start (free al)) c = false ∧ cover c owners = 0 ∧ held_cover c al = 0).
Proof.
  intros [Hb _ _ Hpart Hown _]. apply Forall_cons in Hown as [Hpos _]. unfold chunk_count in Hpos.
  assert (Hin : ∀ c, in_range c (chunk_numbers r) = true →
    lo ≤ c < hi ∧ free_b (chunk_count_by_start (free al)) c = false ∧ cover c owners = 0 ∧ held_cover c al = 0).
  { intros c Hc. specialize (Hpart c). rewrite cover_cons, Hc in Hpart.
    pose proof (cover_nonneg c owners). pose proof (held_cover_nonneg c al).
    destruct (in_range c (mkRange lo hi)) eqn:Hr; cbn in Hpart;
      destruct (free_b _ c); cbn in *; try lia.
    apply in_range_true in Hr. cbn in Hr. split_and!; lia || done. }
  split_and!.
  - destruct (Hin (range_start (chunk_numbers r))) as [? _]; [apply in_range_true; lia|lia].
  - destruct (Hin (range_end (chunk_numbers r) - 1)) as [? _]; [apply in_range_true; lia|lia].
  - intros c Hc. by destruct (Hin c Hc) as (_ & ? & ? & ?).
Qed.

Lemma chunk_count_mk a b rec : chunk_count (mkReservedChunks (mkRange a b) rec) = b - a.
Proof. done. Qed.
Lemma recovered_count_mk a b rec :
  recovered_count (mkReservedChunks (mkRange a b) rec) = if rec then b - a else 0.
Proof. done. Qed.

Lemma reserve_numbers_alloc_ok al owners a b f' r :
  alloc_ok lo hi al owners →
  reserve_chunk_numbers (free al) (mkRange a b) = Some (f', r) →
  alloc_ok lo hi (with_free f' al) (r :: owners).
Proof.
  intros [Hb Hcap Hruns Hpart Hown Hheld] Hres.
  pose proof (reserve_chunk_numbers_spec lo hi (free al) a b Hruns) as Hspec. rewrite Hres in Hspec.
  destruct Hspec as (Hab & Hall & Hruns' & Hfree & _ & _ & ->).
  constructor; try done.
  - intros c. cbn [free with_free]. rewrite cover_cons, Hfree. cbn [chunk_numbers].
    rewrite <-(Hpart c). unfold held_cover. cbn [payload_chunks with_free].
    destruct (in_range c (mkRange a b)) eqn:Hc; [|rewrite andb_true_r; cbn; lia].
    apply in_range_true in Hc. rewrite (Hall c) by done. cbn. lia.
  - constructor; [|done]. unfold chunk_count. cbn. lia.
Qed.

Lemma reserve_numbers_gauges_ok al owners a b f' r :
  alloc_ok lo hi al owners → gauges_ok al owners →
  reserve_chunk_numbers (free al) (mkRange a b) = Some (f', r) →
  gauges_ok (with_free f' al) (r :: owners).
Proof.
  intros [_ _ Hruns _ _ _] [Hf Ha Hr] Hres.
  pose proof (reserve_chunk_numbers_spec lo hi (free al) a b Hruns) as Hspec. rewrite Hres in Hspec.
  destruct Hspec as (Hab & _ & _ & _ & Hsum & Hmt & ->).
  constructor; cbn [free with_free payload_chunks]; rewrite Hmt; cbn [free_chunks allocated_chunks recovered_chunks];
    rewrite ?zsum_cons, ?Hsum, ?chunk_count_mk, ?recovered_count_mk; lia.
Qed.

Lemma drop_reserved_map al r owners :
  alloc_ok lo hi al (r :: owners) →
  runs_ok lo hi (chunk_count_by_start (free (drop_reserved al r))) ∧
  (∀ c, free_b (chunk_count_by_start (free (drop_reserved al r))) c =
        free_b (chunk_count_by_start (free al)) c || in_range c (chunk_numbers r)) ∧
  zsum snd (chunk_count_by_start (free (drop_reserved al r))) =
    zsum snd (chunk_count_by_start (free al)) + chunk_count r.
Proof.
  intros Hok. destruct (owner_range _ _ _ Hok) as (Hlo & Hhi & Hrange).
  destruct Hok as [Hb Hcap Hruns Hpart Hown Hheld].
  apply Forall_cons in Hown as [Hpos Hown]. unfold chunk_count in Hpos.
  destruct r as [[a b] rec]. cbn [chunk_numbers range_start range_end] in *.
  unfold drop_reserved. cbn [chunk_numbers free with_free].
  set (mt := if recovered _ then _ else _). clearbody mt.
  apply (release_spec lo hi (mkFreeChunks (chunk_count_by_start (free al)) mt) a b Hruns Hlo); [lia..|].
  intros c Hc. apply Hrange. by apply in_range_true.
Qed.

Lemma drop_reserved_alloc_ok al r owners :
  alloc_ok lo hi al (r :: owners) → alloc_ok lo hi (drop_reserved al r) owners.
Proof.
  intros Hok. destruct (owner_range _ _ _ Hok) as (_ & _ & Hrange).
  destruct (drop_reserved_map _ _ _ Hok) as (Hruns' & Hfree & _).
  destruct Hok as [Hb Hcap Hruns Hpart Hown Hheld]. apply Forall_cons in Hown as [Hpos Hown].
  constructor; try done. intros c. rewrite Hfree, <-(Hpart c), cover_cons.
  change (held_cover c (drop_reserved al r)) with (held_cover c al).
  destruct (in_range c (chunk_numbers r)) eqn:Hc; [|rewrite orb_false_r; cbn; lia].
  destruct (Hrange c Hc) as (-> & _). cbn. lia.
Qed.

Lemma drop_reserved_gauges_ok al r owners :
  alloc_ok lo hi al (r :: owners) → gauges_ok al (r :: owners) → gauges_ok (drop_reserved al r) owners.
Proof.
  intros Hok [Hf Ha Hr]. destruct (drop_reserved_map _ _ _ Hok) as (_ & _ & Hsum).
  rewrite zsum_cons in Ha. rewrite zsum_cons in Hr. destruct r as [[a b] rec].
  rewrite chunk_count_mk in Ha, Hsum. rewrite recovered_count_mk in Hr.
  constructor; rewrite ?Hsum; unfold drop_reserved; cbn [free with_free payload_chunks chunk_numbers];
    rewrite release_metrics; destruct rec; cbn [recovered free_chunks allocated_chunks recovered_chunks chunk_metrics];
    rewrite ?chunk_count_mk; lia.
Qed.

(** Moving a reservation between an owner and [payload_chunks]. *)
Lemma take_held_ok al owners k r n :
  payload_chunks al !! k = Some (r, n) → alloc_ok lo hi al owners →
  alloc_ok lo hi (with_payload_chunks (delete k (payload_chunks al)) al) (r :: owners).
Proof.
  intros Hk [Hb Hcap Hruns Hpart Hown Hheld]. constructor; try done.
  - intros c. rewrite <-(Hpart c), cover_cons. unfold held_cover. cbn [free payload_chunks with_payload_chunks].
    rewrite (msum_delete _ _ _ _ Hk). cbn. lia.
  - constructor; [by apply (Hheld k r n)|done].
  - intros k' r' n'. cbn. intros [_ ?]%lookup_delete_Some. by apply (Hheld k' r' n').
Qed.

Lemma put_held_ok al owners r n :
  0 < n → alloc_ok lo hi al (r :: owners) →
  payload_chunks al !! range_start (chunk_numbers r) = None ∧
  alloc_ok lo hi
    (with_payload_chunks (<[range_start (chunk_numbers r) := (r, n)]> (payload_chunks al)) al) owners.
Proof.
  intros Hn Hok. destruct (owner_range _ _ _ Hok) as (_ & _ & Hrange).
  destruct Hok as [Hb Hcap Hruns Hpart Hown Hheld].
  apply Forall_cons in Hown as [Hpos Hown].
  assert (Hnone : payload_chunks al !! range_start (chunk_numbers r) = None).
  { destruct (payload_chunks al !! _) as [[r' n']|] eqn:Hk; [|done].
    destruct (Hheld _ _ _ Hk) as (Hstart & Hpos' & _). unfold chunk_count in *.
    destruct (Hrange (range_start (chunk_numbers r))) as (_ & _ & Hz); [apply in_range_true; lia|].
    pose proof (msum_elem_le (λ _ h, Z.b2z (in_range (range_start (chunk_numbers r)) (chunk_numbers h.1)))
      (payload_chunks al) _ _ ltac:(intros k h _; destruct (b2z_cases (in_range (range_start (chunk_numbers r)) (chunk_numbers h.1))); lia) Hk) as Hle.
    unfold held_cover in Hz. rewrite Hz in Hle. cbn in Hle.
    rewrite (proj2 (in_range_true _ _)) in Hle by lia. cbn in Hle. lia. }
  split; [done|]. constructor; try done.
  - intros c. rewrite <-(Hpart c), cover_cons. unfold held_cover. cbn [free payload_chunks with_payload_chunks].
    rewrite msum_insert by done. cbn. lia.
  - intros k r' n'. cbn. intros [[<- [= <- <-]]|[_ ?]]%lookup_insert_Some; [done|].
    by apply (Hheld k r' n').
Qed.

Lemma take_held_gauges_ok al owners k r n :
  payload_chunks al !! k = Some (r, n) → gauges_ok al owners →
  gauges_ok (with_payload_chunks (delete k (payload_chunks al)) al) (r :: owners).
Proof.
  intros Hk [Hf Ha Hr]. constructor; cbn [free payload_chunks with_payload_chunks];
    rewrite ?zsum_cons, ?(msum_delete _ _ _ _ Hk); cbn; lia.
Qed.

Lemma put_held_gauges_ok al owners k r n :
  payload_chunks al !! k = None → gauges_ok al (r :: owners) →
  gauges_ok (with_payload_chunks (<[k := (r, n)]> (payload_chunks al)) al) owners.
Proof.
  intros Hk [Hf Ha Hr]. rewrite zsum_cons in Ha. rewrite zsum_cons in Hr.
  constructor; cbn [free payload_chunks with_payload_chunks]; rewrite ?msum_insert by done; cbn; lia.
Qed.

(** Changing the payload count of a held reservation. *)
Lemma recount_held_ok al owners k r n n' :
  0 < n' → payload_chunks al !! k = Some (r, n) → alloc_ok lo hi al owners →
  alloc_ok lo hi (with_payload_chunks (<[k := (r, n')]> (payload_chunks al)) al) owners.
Proof.
  intros Hn Hk [Hb Hcap Hruns Hpart Hown Hheld]. constructor; try done.
  - intros c. rewrite <-(Hpart c). unfold held_cover. cbn [free payload_chunks with_payload_chunks].
    rewrite (msum_replace _ _ _ _ _ Hk). cbn. lia.
  - intros k' r' n''. cbn. intros [[<- [= <- <-]]|[_ ?]]%lookup_insert_Some.
    + by destruct (Hheld k r n Hk) as (? & ? & _).
    + by apply (Hheld k' r' n'').
Qed.

Lemma recount_held_gauges_ok al owners k r n n' :
  payload_chunks al !! k = Some (r, n) → gauges_ok al owners →
  gauges_ok (with_payload_chunks (<[k := (r, n')]> (payload_chunks al)) al) owners.
Proof.
  intros Hk [Hf Ha Hr]. constructor; cbn [free payload_chunks with_payload_chunks];
    rewrite ?(msum_replace _ _ _ _ _ Hk); cbn; lia.
Qed.

Lemma mark_recovered_ok al r owners al' r' :
  mark_recovered al r = (al', r') → alloc_ok lo hi al (r :: owners) → alloc_ok lo hi al' (r' :: owners).
Proof.
  intros [= <- <-] [Hb Hcap Hruns Hpart Hown Hheld]. constructor; try done.
  apply Forall_cons in Hown as [? ?]. by constructor.
Qed.

Lemma mark_recovered_gauges_ok al r owners al' r' :
  recovered r = false → mark_recovered al r = (al', r') →
  gauges_ok al (r :: owners) → gauges_ok al' (r' :: owners).
Proof.
  intros Hrec [= <- <-] [Hf Ha Hr]. rewrite zsum_cons in Ha. rewrite zsum_cons in Hr.
  unfold recovered_count in Hr at 1. rewrite Hrec in Hr.
  constructor; cbn; rewrite ?zsum_cons; try done.
  unfold recovered_count at 1. unfold chunk_count in *. cbn. lia.
Qed.

(** ** The operations keep ownership and gauges *)
Definition alloc_inv al owners : Prop := alloc_ok lo hi al owners ∧ gauges_ok al owners.

Global Instance alloc_inv_perm al : Proper ((≡ₚ) ==> iff) (alloc_inv al).
Proof. intros o1 o2 Hp. unfold alloc_inv. by rewrite Hp. Qed.

Lemma reserve_numbers_inv al owners a b f' r :
  reserve_chunk_numbers (free al) (mkRange a b) = Some (f', r) →
  alloc_inv al owners → alloc_inv (with_free f' al) (r :: owners).
Proof.
  intros Hres [Hok Hg]. split; [by eapply reserve_numbers_alloc_ok|by eapply reserve_numbers_gauges_ok].
Qed.

Lemma reserve_chunks_inv al owners count al' r :
  reserve_chunks al count = Some (al', r) → alloc_inv al owners → alloc_inv al' (r :: owners).
Proof.
  unfold reserve_chunks. intros Hres. destruct (bt_find _ _) as [[s n]|]; [|done].
  destruct (reserve_chunk_numbers _ _) as [[f r0]|] eqn:?; [|done]. simplify_eq. by eapply reserve_numbers_inv.
Qed.

Lemma reserve_chunks_at_inv al owners first count al' r :
  reserve_chunks_at al first count = Some (al', r) → alloc_inv al owners → alloc_inv al' (r :: owners).
Proof.
  unfold reserve_chunks_at. intros Hres. destruct (checked_add _ _) as [e|]; [|done].
  destruct (reserve_chunk_numbers _ _) as [[f r0]|] eqn:?; [|done]. simplify_eq. by eapply reserve_numbers_inv.
Qed.

Lemma mark_recovered_inv al r owners al' r' :
  recovered r = false → mark_recovered al r = (al', r') →
  alloc_inv al (r :: owners) → alloc_inv al' (r' :: owners).
Proof.
  intros ?? [Hok Hg]. split; [by eapply mark_recovered_ok|by eapply mark_recovered_gauges_ok].
Qed.

Lemma drop_reserved_inv al r owners :
  alloc_inv al (r :: owners) → alloc_inv (drop_reserved al r) owners.
Proof. intros [Hok Hg]. split; [by apply drop_reserved_alloc_ok|by apply drop_reserved_gauges_ok]. Qed.

Lemma hold_until_eq al r owners n :
  0 < n → alloc_ok lo hi al (r :: owners) →
  hold_chunks_until_payloads_released al r n =
    with_payload_chunks (<[range_start (chunk_numbers r) := (r, n)]> (payload_chunks al)) al.
Proof.
  intros Hn Hok. destruct (put_held_ok al owners r n Hn Hok) as [Hnone _].
  unfold hold_chunks_until_payloads_released. by rewrite Hnone.
Qed.

Lemma hold_until_inv al r owners n :
  0 < n → alloc_inv al (r :: owners) → alloc_inv (hold_chunks_until_payloads_released al r n) owners.
Proof.
  intros Hn [Hok Hg]. rewrite (hold_until_eq _ _ owners) by done.
  destruct (put_held_ok al owners r n Hn Hok) as [Hnone Hok']. split; [done|].
  by apply put_held_gauges_ok.
Qed.

Lemma release_payload_inv al owners address al' :
  release_payload al address = Done al' → alloc_inv al owners → alloc_inv al' owners.
Proof.
  unfold release_payload. intros Hrel [Hok Hg].
  destruct (payload_chunks al !! _) as [[r n]|] eqn:Hk; [|done].
  destruct (Z.eqb_spec n 1) as [->|Hne]; simplify_eq.
  - apply drop_reserved_inv. split; [by eapply take_held_ok|by eapply take_held_gauges_ok].
  - destruct (ao_held _ _ _ _ Hok _ _ _ Hk) as (_ & _ & ?).
    split; [eapply recount_held_ok; eauto with lia|by eapply recount_held_gauges_ok].
Qed.

Lemma reserve_chunks_at_range al first count al' r :
  reserve_chunks_at al first count = Some (al', r) →
  r = mkReservedChunks (mkRange first (first + count)) false ∧ payload_chunks al' = payload_chunks al.
Proof.
  unfold reserve_chunks_at, checked_add, reserve_chunk_numbers. intros Hres.
  destruct (_ <? _); [|done].
  destruct (bt_last_upto _ _) as [[s n]|]; [|done].
  destruct (_ || _); [done|]. by simplify_eq.
Qed.

Lemma hold_recovered_inv al owners range al' :
  hold_chunks_for_recovered_payload al range = Some al' → alloc_inv al owners → alloc_inv al' owners.
Proof.
  unfold hold_chunks_for_recovered_payload. intros Hhold [Hok Hg].
  set (k := range_start range / CHUNK_BYTES) in *.
  destruct (payload_chunks al !! k) as [[r n]|] eqn:Hk.
  - destruct (_ <=? _); [|done]. simplify_eq.
    destruct (ao_held _ _ _ _ Hok _ _ _ Hk) as (_ & _ & ?).
    split; [eapply recount_held_ok; eauto with lia|by eapply recount_held_gauges_ok].
  - destruct (reserve_chunks_at al k _) as [[al1 r1]|] eqn:Hres; [|done].
    assert (Hinv := reserve_chunks_at_inv _ owners _ _ _ _ Hres (conj Hok Hg)).
    apply reserve_chunks_at_range in Hres as [-> Hp].
    destruct (mark_recovered al1 _) as [al2 r2] eqn:Hmark.
    assert (Hinv2 : alloc_inv al2 (r2 :: owners)) by (by eapply mark_recovered_inv; [|done|done]).
    assert (Hr2 : range_start (chunk_numbers r2) = k) by (by injection Hmark as _ <-).
    injection Hhold as <-. destruct Hinv2 as [Hok2 Hg2].
    destruct (put_held_ok _ owners _ 1 ltac:(lia) Hok2) as [Hnone Hok3]. rewrite Hr2 in Hnone, Hok3.
    split; [done|]. by apply put_held_gauges_ok.
Qed.

(** Every operation of the allocator's clients preserves the invariant. *)
Lemma alloc_step_inv s s' :
  alloc_step s s' → alloc_inv s.1 s.2 → alloc_inv s'.1 s'.2.
Proof.
  destruct 1 as [al o count al' r Hres|al o first count al' r ?? Hres|al o1 r o2 al' r' Hrec Hmark
    |al o1 r o2|al o1 r o2 n Hn|al o range al' ?? Hhold|al o address al' Hrel]; cbn [fst snd].
  - by apply reserve_chunks_inv with count.
  - by apply reserve_chunks_at_inv with first count.
  - rewrite <-!Permutation_middle. by apply mark_recovered_inv.
  - rewrite <-Permutation_middle. by apply drop_reserved_inv.
  - rewrite <-Permutation_middle. by apply hold_until_inv.
  - by apply hold_recovered_inv with range.
  - by apply release_payload_inv with address.
Qed.
End ownership.

(** A new allocator owns nothing and has every chunk free. *)
Lemma with_metrics_inv lo hi :
  0 ≤ lo → lo < hi → hi < 2 ^ 63 →
  alloc_inv lo hi (with_metrics (mkRange (lo * CHUNK_BYTES) (hi * CHUNK_BYTES)) (mkChunkMetrics 0 0 0)) [].
Proof.
  intros ???. unfold with_metrics. cbn [range_start range_end].
  rewrite <-Z.mul_sub_distr_r, !Z.div_mul by done. split.
  - constructor; cbn; [lia|done| | |constructor|].
    + apply runs_ok_cons. cbn. split; [lia|]. split; [apply runs_ok_nil|]. intros b ?. by elem_cases.
    + intros c. rewrite free_b_cons, free_b_nil, orb_false_r. replace (lo + (hi - lo)) with hi by lia.
      unfold cover, held_cover. cbn. rewrite zsum_nil, msum_empty. lia.
    + intros k r n. by rewrite lookup_empty.
  - constructor; cbn; rewrite ?msum_empty; autorewrite with sums; cbn; lia.
Qed.

(** ** Main results *)

(** All chunks of [a, b) are free. *)
Definition all_free (al : DiskChunkAllocator) (a b : Z) : Prop :=
  ∀ c, a ≤ c < b → free_b (chunk_count_by_start (free al)) c = true.

Lemma reserve_chunks_spec lo hi al owners count :
  alloc_ok lo hi al owners →
  match reserve_chunks al count with
  | Some (al', r) =>
      ∃ start, chunk_numbers r = mkRange start (start + count) ∧ 0 < count
        ∧ all_free al start (start + count)
        ∧ (∀ start', all_free al start' (start' + count) → start ≤ start')
        ∧ (∀ c, free_b (chunk_count_by_start (free al')) c =
                free_b (chunk_count_by_start (free al)) c && negb (in_range c (chunk_numbers r)))
        ∧ payload_chunks al' = payload_chunks al ∧ recovered r = false
  | None => ∀ start, 0 < count → ¬ all_free al start (start + count)
  end.
Proof.
  intros Hok. assert (Hruns := ao_runs _ _ _ _ Hok). unfold reserve_chunks, all_free.
  set (m := chunk_count_by_start (free al)) in *.
  assert (Hrun : ∀ start, 0 < count → (∀ c, start ≤ c < start + count → free_b m c = true) →
    ∃ s n, (s, n) ∈ m ∧ s ≤ start ∧ count ≤ n).
  { intros start Hc Hall.
    destruct (consecutive_free_in_run lo hi m start (start + count)) as (s & n & ? & ? & ?); [done|lia|done|].
    exists s, n. split_and!; [done|lia|lia]. }
  destruct (bt_find (λ e, count <=? e.2) m) as [[s n]|] eqn:Hfind; last first.
  { intros start Hc Hall. destruct (Hrun start Hc Hall) as (s & n & Hin & ? & ?).
    apply bt_find_None in Hfind. rewrite Forall_forall in Hfind. specialize (Hfind _ Hin).
    cbn in Hfind. bool_to_prop. lia. }
  apply bt_find_Some in Hfind as (l1 & l2 & Hm & Hp & Hl1). cbn in Hp. bool_to_prop.
  pose proof (reserve_chunk_numbers_spec lo hi (free al) s (s + count) Hruns) as Hspec. fold m in Hspec.
  destruct (reserve_chunk_numbers _ _) as [[f' r]|] eqn:Hres.
  - destruct Hspec as (Hlt & Hall & _ & Hfree & _ & _ & ->).
    exists s. split_and!; try done; try lia. intros start' Hall'.
    destruct (Hrun start' ltac:(lia) Hall') as (s' & n' & Hin & ? & ?).
    rewrite Hm in Hin, Hruns. apply elem_of_app in Hin as [Hin|[?|Hin]%elem_of_cons].
    + rewrite Forall_forall in Hl1. specialize (Hl1 _ Hin). cbn in Hl1. bool_to_prop. lia.
    + simplify_eq. lia.
    + apply runs_ok_app in Hruns as (_ & (_ & _ & Hgap)%runs_ok_cons & _).
      specialize (Hgap _ Hin). cbn in *. lia.
  - intros start Hc. exfalso. apply Hspec. split; [lia|]. intros c Hc'. rewrite Hm.
    rewrite free_b_app, free_b_head by lia. apply orb_true_r.
Qed.

Lemma reserve_chunks_alloc_ok lo hi al owners count al' r :
  alloc_ok lo hi al owners → reserve_chunks al count = Some (al', r) → alloc_ok lo hi al' (r :: owners).
Proof.
  unfold reserve_chunks. intros Hok Hres. destruct (bt_find _ _) as [[s n]|]; [|done].
  destruct (reserve_chunk_numbers _ _) as [[f r0]|] eqn:?; [|done]. simplify_eq.
  by eapply reserve_numbers_alloc_ok.
Qed.

Lemma release_payload_eq al address r n :
  payload_chunks al !! (address / CHUNK_BYTES) = Some (r, n) →
  ∃ al', release_payload al address = Done al' ∧
    payload_chunks al' = if decide (n = 1) then delete (address / CHUNK_BYTES) (payload_chunks al)
                         else <[address / CHUNK_BYTES := (r, n - 1)]> (payload_chunks al).
Proof.
  intros Hk. unfold release_payload. rewrite Hk. destruct (Z.eqb_spec n 1); case_decide; try done; eauto.
Qed.

Lemma reserve_chunks_at_free al first count al' r :
  reserve_chunks_at al first count = Some (al', r) →
  free_chunks (chunk_metrics (free al')) = free_chunks (chunk_metrics (free al)) - count
  ∧ chunk_capacity al' = chunk_capacity al.
Proof.
  unfold reserve_chunks_at, checked_add, reserve_chunk_numbers. intros Hres.
  destruct (_ <? _); [|done].
  destruct (bt_last_upto _ _) as [[s n]|]; [|done].
  destruct (_ || _); [done|]. simplify_eq. cbn. split; [lia|done].
Qed.

(** The free chunks lie in the shard. *)
Lemma runs_sum_bound lo hi m : lo ≤ hi → runs_ok lo hi m → 0 ≤ zsum snd m ≤ hi - lo.
Proof.
  revert lo. induction m as [|[s n] m IH]; intros lo Hle Hm; [cbn; unfold zsum; cbn; lia|].
  apply runs_ok_cons in Hm as (Hsn & [Hs Hf] & Hgap). cbn in Hsn. rewrite zsum_cons. cbn [snd].
  assert (Hm' : runs_ok (s + n) hi m).
  { split; [done|]. rewrite Forall_forall in *. intros e He. specialize (Hf e He). specialize (Hgap e He). cbn in Hgap. lia. }
  specialize (IH (s + n) ltac:(lia) Hm'). lia.
Qed.

(** A payload accepted by recovery lies in chunks of the shard held for it. *)
Lemma hold_recovered_held lo hi al owners range al' :
  alloc_ok lo hi al owners → 0 ≤ range_start range → range_start range < range_end range → range_end range < 2 ^ 64 →
  hold_chunks_for_recovered_payload al range = Some al' →
  let k := range_start range / CHUNK_BYTES in
  ∃ r n, payload_chunks al' = <[k := (r, n)]> (payload_chunks al)
    ∧ n = match payload_chunks al !! k with Some (_, n0) => n0 + 1 | None => 1 end
    ∧ (∀ r0 n0, payload_chunks al !! k = Some (r0, n0) → r = r0)
    ∧ range_end range ≤ range_end (disk_byte_range r) ∧ lo ≤ k.
Proof.
  intros Hok Hstart Hlt Hend Hhold k. assert (Hruns := ao_runs _ _ _ _ Hok).
  unfold hold_chunks_for_recovered_payload in Hhold. fold k in Hhold.
  destruct (payload_chunks al !! k) as [[r n]|] eqn:Hk.
  - destruct (Z.leb_spec (range_end range) (range_end (disk_byte_range r))); [|done]. injection Hhold as <-.
    exists r, (n + 1). cbn. split_and!; try done; [by intros ? ? [= -> ->]|].
    destruct (ao_held _ _ _ _ Hok _ _ _ Hk) as (Hs & _ & _).
    assert (Hok1 := take_held_ok _ _ _ _ _ _ _ Hk Hok). destruct (owner_range _ _ _ _ _ Hok1) as (? & _). lia.
  - pose proof (div_ceil_mul (range_end range) CHUNK_BYTES ltac:(done)) as Hceil.
    pose proof (Z.mul_div_le (range_start range) CHUNK_BYTES ltac:(done)) as Hfloor. fold k in Hfloor.
    set (last := div_ceil (range_end range) CHUNK_BYTES) in *.
    assert (0 ≤ k) by (apply Z.div_pos; done).
    assert (Hkl : k < last) by (unfold CHUNK_BYTES in *; nia).
    assert (last < 2 ^ 64) by (unfold CHUNK_BYTES in *; lia).
    assert (Hcount : (last ⊖ k) = last - k) by (apply u64_wrap_small; unfold is_u64; lia).
    rewrite Hcount in Hhold. unfold reserve_chunks_at, checked_add in Hhold.
    rewrite (proj2 (Z.ltb_lt _ _)) in Hhold by lia. replace (k + (last - k)) with last in Hhold by lia.
    pose proof (reserve_chunk_numbers_spec lo hi (free al) k last Hruns) as Hspec.
    destruct (reserve_chunk_numbers (free al) (mkRange k last)) as [[f' r]|] eqn:Hres; [|done].
    assert (Hok' := reserve_numbers_alloc_ok _ _ _ _ _ _ _ _ Hok Hres).
    destruct (owner_range _ _ _ _ _ Hok') as (Hlo & Hhi & _).
    destruct Hspec as (_ & Hall & _ & _ & _ & _ & ->). injection Hhold as <-.
    eexists _, 1. split_and!; [done|done|done| |exact Hlo].
    unfold disk_byte_range. cbn [range_end chunk_numbers]. lia.
Qed.

(** No two owned reservations share a chunk, so there are at most as many as
    the shard has chunks. *)
Lemma owners_distinct lo hi al owners :
  alloc_ok lo hi al owners →
  NoDup ((λ r, range_start (chunk_numbers r)) <$> owners) ∧ Z.of_nat (length owners) ≤ hi - lo.
Proof.
  intros Hok.
  assert (Hnd : NoDup ((λ r, range_start (chunk_numbers r)) <$> owners)).
  { apply NoDup_alt. intros i j z Hi Hj. apply list_lookup_fmap_Some in Hi as (r & -> & Hr).
    apply list_lookup_fmap_Some in Hj as (r' & Heq & Hr'). apply dec_stable. intros Hne.
    assert (Hp : ∃ rest, owners ≡ₚ r :: r' :: rest).
    { clear Hok. assert (Hsp := list_elem_of_split_length _ _ _ Hr). destruct Hsp as (l1 & l2 & Ho & Hl1).
      rewrite Ho in Hr' |- *. clear Hr Ho. destruct (decide (j < i)%nat).
      - rewrite lookup_app_l in Hr' by lia. apply list_elem_of_lookup_2 in Hr'.
        apply list_elem_of_split in Hr' as (k1 & k2 & ->). exists (k1 ++ k2 ++ l2). solve_Permutation.
      - rewrite lookup_app_r in Hr' by lia. destruct (j - length l1)%nat as [|k] eqn:Hk; [lia|]. cbn in Hr'.
        apply list_elem_of_lookup_2, list_elem_of_split in Hr' as (k1 & k2 & ->). exists (l1 ++ k1 ++ k2). solve_Permutation. }
    destruct Hp as (rest & Hp). assert (Hok' := Hok). rewrite Hp in Hok'.
    pose proof (ao_owners _ _ _ _ Hok') as Hpos. apply Forall_cons in Hpos as [Hr1 Hpos]. apply Forall_cons in Hpos as [Hr2 _].
    pose proof (ao_partition _ _ _ _ Hok' (range_start (chunk_numbers r))) as Hpart.
    rewrite !cover_cons in Hpart. unfold chunk_count in *.
    rewrite (proj2 (in_range_true _ (chunk_numbers r))), (proj2 (in_range_true _ (chunk_numbers r'))) in Hpart by lia.
    pose proof (cover_nonneg (range_start (chunk_numbers r)) rest).
    pose proof (held_cover_nonneg (range_start (chunk_numbers r)) al).
    pose proof (b2z_cases (free_b (chunk_count_by_start (free al)) (range_start (chunk_numbers r)))).
    pose proof (b2z_cases (in_range (range_start (chunk_numbers r)) (mkRange lo hi))). cbn in Hpart. lia. }
  split; [done|].
  rewrite <-(length_fmap (λ r, range_start (chunk_numbers r))).
  assert (Hsub : (λ r, range_start (chunk_numbers r)) <$> owners ⊆+ seqZ lo (hi - lo)).
  { apply NoDup_submseteq; [done|]. intros z (r & -> & Hr)%list_elem_of_fmap.
    apply list_elem_of_split in Hr as (l1 & l2 & ->). rewrite <-Permutation_middle in Hok.
    destruct (owner_range _ _ _ _ _ Hok) as (? & ? & _).
    pose proof (ao_owners _ _ _ _ Hok) as Hpos. apply Forall_cons in Hpos as [Hr1 _]. unfold chunk_count in *.
    apply elem_of_seqZ. lia. }
  apply submseteq_length in Hsub. rewrite length_seqZ in Hsub.
  pose proof (ao_bounds _ _ _ _ Hok). lia.
Qed.

Lemma FreeChunks_eq f1 f2 :
  chunk_count_by_start f1 = chunk_count_by_start f2 → chunk_metrics f1 = chunk_metrics f2 → f1 = f2.
Proof. destruct f1, f2. cbn. by intros -> ->. Qed.

Lemma drop_after_reserve lo hi al owners a b f' r :
  alloc_ok lo hi al owners →
  reserve_chunk_numbers (free al) (mkRange a b) = Some (f', r) →
  drop_reserved (with_free f' al) r = al.
Proof.
  intros Hok Hres. assert (Hok' := reserve_numbers_alloc_ok _ _ _ _ _ _ _ _ Hok Hres).
  assert (Hdrop := drop_reserved_alloc_ok _ _ _ _ _ Hok').
  assert (Hruns := ao_runs _ _ _ _ Hok).
  pose proof (reserve_chunk_numbers_spec lo hi (free al) a b Hruns) as Hspec. rewrite Hres in Hspec.
  destruct Hspec as (Hab & Hall & _ & Hfree & _ & Hmt & ->). cbn [chunk_numbers range_start range_end] in *.
  assert (Hmap : chunk_count_by_start (free (drop_reserved (with_free f' al) (mkReservedChunks (mkRange a b) false)))
                 = chunk_count_by_start (free al)).
  { apply (runs_canonical lo hi); [by apply (ao_runs _ _ _ _ Hdrop)|done|]. intros c.
    destruct (drop_reserved_map _ _ _ _ _ Hok') as (_ & -> & _).
    cbn [free with_free chunk_numbers]. rewrite Hfree. destruct (in_range c (mkRange a b)) eqn:Hc.
    - apply in_range_true in Hc. rewrite Hall by done. done.
    - by rewrite andb_true_r, orb_false_r. }
  destruct al as [[m [fc ac rc]] cap p]. unfold drop_reserved in *.
  cbn [free with_free recovered chunk_numbers chunk_capacity payload_chunks] in *.
  unfold with_free. cbn [free with_free chunk_capacity payload_chunks]. f_equal.
  apply FreeChunks_eq; [exact Hmap|]. rewrite release_metrics. cbn [chunk_metrics].
  rewrite Hmt. cbn. f_equal; lia.
Qed.

(** C30: [reserve_chunks] is first fit and complete: for a positive count it
    fails only when no run of [count] consecutive chunks is free, and otherwise
    reserves the lowest such run, changing the status of exactly its chunks. *)
Theorem reserve_chunks_first_fit lo hi al owners count :
  alloc_ok lo hi al owners → 0 < count →
  (reserve_chunks al count = None ↔ ∀ start, ¬ all_free al start (start + count)) ∧
  ∀ al' r, reserve_chunks al count = Some (al', r) →
    ∃ start, chunk_numbers r = mkRange start (start + count)
      ∧ all_free al start (start + count)
      ∧ (∀ start', start' < start → ¬ all_free al start' (start' + count))
      ∧ ∀ c, free_b (chunk_count_by_start (free al')) c =
             free_b (chunk_count_by_start (free al)) c && negb (in_range c (chunk_numbers r)).
Proof.
  intros Hok Hc. pose proof (reserve_chunks_spec lo hi al owners count Hok) as Hspec.
  destruct (reserve_chunks al count) as [[al1 r1]|].
  - destruct Hspec as (start & Hr & _ & Hall & Hlow & Hfree & _). split.
    + split; [done|]. intros Hnone. by destruct (Hnone start).
    + intros al' r [= <- <-]. exists start. split_and!; try done.
      intros start' Hlt Hall'. specialize (Hlow start' Hall'). lia.
  - split; [|done]. split; [|done]. intros _ start. by apply Hspec.
Qed.

(** The allocator of a shard with chunks 1 to 8. *)
Definition sample_allocator : DiskChunkAllocator :=
  with_metrics (mkRange (1 * CHUNK_BYTES) (9 * CHUNK_BYTES)) (mkChunkMetrics 0 0 0).

Lemma sample_allocator_ok : alloc_ok 1 9 sample_allocator [].
Proof. apply (with_metrics_inv 1 9); lia. Qed.

Lemma reserve_chunks_first_fit_witness :
  (reserve_chunks sample_allocator 3 = None ↔
     ∀ start, ¬ all_free sample_allocator start (start + 3)) ∧
  ∀ al' r, reserve_chunks sample_allocator 3 = Some (al', r) →
    ∃ start, chunk_numbers r = mkRange start (start + 3)
      ∧ all_free sample_allocator start (start + 3)
      ∧ (∀ start', start' < start → ¬ all_free sample_allocator start' (start' + 3))
      ∧ ∀ c, free_b (chunk_count_by_start (free al')) c =
             free_b (chunk_count_by_start (free sample_allocator)) c && negb (in_range c (chunk_numbers r)).
Proof. apply (reserve_chunks_first_fit 1 9 sample_allocator []); [apply sample_allocator_ok|lia]. Defined.

(** C28: after any sequence of reservations, holds, releases and drops, every
    chunk of the shard is free or belongs to exactly one reservation, adjacent
    free runs are merged, and the capacity gauges equal the chunks they count. *)
Theorem alloc_reachable_inv lo hi al owners :
  0 ≤ lo → lo < hi → hi < 2 ^ 63 →
  rtc alloc_step
    (with_metrics (mkRange (lo * CHUNK_BYTES) (hi * CHUNK_BYTES)) (mkChunkMetrics 0 0 0), []) (al, owners) →
  alloc_inv lo hi al owners.
Proof.
  intros ??? Hsteps.
  assert (Hgen : ∀ s s', rtc alloc_step s s' → alloc_inv lo hi s.1 s.2 → alloc_inv lo hi s'.1 s'.2).
  { induction 1; [done|]. intros Hs. apply IHrtc. by eapply alloc_step_inv. }
  apply (Hgen _ _ Hsteps). by apply with_metrics_inv.
Qed.

(** A run of the allocator: reserve three chunks, hold them for two payloads,
    reserve two more, release both payloads. *)
Definition sample_run : option (DiskChunkAllocator * list ReservedChunks) :=
  '(al, r) ← reserve_chunks sample_allocator 3;
  let al := hold_chunks_until_payloads_released al r 2 in
  '(al, r2) ← reserve_chunks al 2;
  match release_payload al (1 * CHUNK_BYTES) with
  | Done al => match release_payload al (1 * CHUNK_BYTES + 4096) with
               | Done al => Some (al, [r2])
               | Panic => None
               end
  | Panic => None
  end.

Lemma alloc_reachable_inv_witness :
  ∃ al owners, sample_run = Some (al, owners) ∧ alloc_inv 1 9 al owners
    ∧ chunk_count_by_start (free al) = [(1, 3); (6, 3)].
Proof.
  eexists _, _. split; [vm_compute; reflexivity|]. split; [|reflexivity].
  apply (alloc_reachable_inv 1 9); [lia..|].
  eapply rtc_l; [eapply (step_reserve _ _ 3); vm_compute; reflexivity|].
  eapply rtc_l; [apply (step_hold _ [] _ [] 2); lia|].
  eapply rtc_l; [eapply (step_reserve _ _ 2); vm_compute; reflexivity|].
  eapply rtc_l; [eapply (step_release_payload _ _ (1 * CHUNK_BYTES)); vm_compute; reflexivity|].
  eapply rtc_l; [eapply (step_release_payload _ _ (1 * CHUNK_BYTES + 4096)); vm_compute; reflexivity|].
  apply rtc_refl.
Defined.

(** Dropping a reservation right after making it restores the allocator
    exactly: the same free map, holds and gauges. *)
Lemma reserve_drop_roundtrip lo hi al owners count al' r :
  alloc_ok lo hi al owners → reserve_chunks al count = Some (al', r) → drop_reserved al' r = al.
Proof.
  unfold reserve_chunks. intros Hok Hres. destruct (bt_find _ _) as [[s n]|]; [|done].
  destruct (reserve_chunk_numbers _ _) as [[f r0]|] eqn:Hnum; [|done]. simplify_eq.
  by eapply drop_after_reserve.
Qed.

Lemma reserve_drop_roundtrip_witness :
  ∃ al' r, reserve_chunks sample_allocator 3 = Some (al', r) ∧ drop_reserved al' r = sample_allocator.
Proof.
  eexists _, _. split; [vm_compute; reflexivity|].
  eapply (reserve_drop_roundtrip 1 9 sample_allocator [] 3); [apply sample_allocator_ok|].
  vm_compute; reflexivity.
Defined.

(** Releasing a held payload never panics, keeps the chunks reserved while
    other payloads use them, and frees all of them with the last payload. *)
Lemma release_payload_last lo hi al owners address r n :
  alloc_ok lo hi al owners →
  payload_chunks al !! (address / CHUNK_BYTES) = Some (r, n) →
  ∃ al', release_payload al address = Done al' ∧ alloc_ok lo hi al' owners ∧
    (1 < n → free al' = free al ∧ payload_chunks al' !! (address / CHUNK_BYTES) = Some (r, n - 1)) ∧
    (n = 1 → payload_chunks al' !! (address / CHUNK_BYTES) = None
             ∧ all_free al' (range_start (chunk_numbers r)) (range_end (chunk_numbers r))).
Proof.
  intros Hok Hk. unfold release_payload. rewrite Hk.
  destruct (ao_held _ _ _ _ Hok _ _ _ Hk) as (_ & _ & Hn).
  destruct (Z.eqb_spec n 1) as [->|Hne].
  - assert (Hok1 := take_held_ok _ _ _ _ _ _ _ Hk Hok).
    eexists. split; [done|]. split; [by apply drop_reserved_alloc_ok|]. split; [lia|]. intros _.
    split; [apply lookup_delete_eq|]. intros c Hc.
    destruct (drop_reserved_map _ _ _ _ _ Hok1) as (_ & -> & _).
    rewrite (proj2 (in_range_true c _)) by done. apply orb_true_r.
  - eexists. split; [done|]. split; [eapply recount_held_ok; eauto with lia|].
    split; [|lia]. intros _. split; [done|]. apply lookup_insert_eq.
Qed.

Lemma release_payload_last_witness :
  ∃ al r al', payload_chunks al !! ((1 * CHUNK_BYTES + 4096) / CHUNK_BYTES) = Some (r, 1)
    ∧ release_payload al (1 * CHUNK_BYTES + 4096) = Done al'
    ∧ all_free al' (range_start (chunk_numbers r)) (range_end (chunk_numbers r)).
Proof.
  set (al0 := match reserve_chunks sample_allocator 3 with
              | Some (al, r) => hold_chunks_until_payloads_released al r 1 | None => sample_allocator end).
  assert (Hok : alloc_ok 1 9 al0 []).
  { assert (Hinv : alloc_inv 1 9 al0 []); [|by destruct Hinv].
    unfold al0. destruct (reserve_chunks sample_allocator 3) as [[al r]|] eqn:Hres; [|by vm_compute in Hres].
    apply (hold_until_inv 1 9 _ _ [] 1); [lia|]. apply (reserve_chunks_inv 1 9 _ _ _ _ _ Hres).
    apply (with_metrics_inv 1 9); lia. }
  assert (Hk : payload_chunks al0 !! ((1 * CHUNK_BYTES + 4096) / CHUNK_BYTES)
               = Some (mkReservedChunks (mkRange 1 4) false, 1)) by (vm_compute; reflexivity).
  destruct (release_payload_last 1 9 al0 [] (1 * CHUNK_BYTES + 4096) _ _ Hok Hk)
    as (al' & Hrel & _ & _ & Hlast).
  exists al0, (mkReservedChunks (mkRange 1 4) false), al'. split; [done|]. split; [done|].
  by apply Hlast.
Defined.

(** Recovery accepts a payload exactly when its chunks are already held by
    a payload starting in the same chunk and it ends inside them, or when all
    of its chunks are free; an accepted payload lies inside the chunks held for
    it, so records that disagree with current ownership cannot claim chunks of
    metadata, of other payloads or of other shards. *)
Lemma hold_recovered_exact lo hi al owners range :
  alloc_ok lo hi al owners → 0 ≤ range_start range → range_start range < range_end range →
  range_end range < 2 ^ 64 →
  let first := range_start range / CHUNK_BYTES in
  match payload_chunks al !! first with
  | Some (r, n) =>
      hold_chunks_for_recovered_payload al range =
        if range_end range <=? range_end (disk_byte_range r)
        then Some (with_payload_chunks (<[first := (r, n + 1)]> (payload_chunks al)) al) else None
  | None =>
      (hold_chunks_for_recovered_payload al range = None ↔
         ¬ all_free al first (div_ceil (range_end range) CHUNK_BYTES))
      ∧ ∀ al', hold_chunks_for_recovered_payload al range = Some al' →
          ∃ r, payload_chunks al' = <[first := (r, 1)]> (payload_chunks al)
            ∧ range_start (disk_byte_range r) ≤ range_start range
            ∧ range_end range ≤ range_end (disk_byte_range r)
            ∧ lo ≤ range_start (chunk_numbers r) ∧ range_end (chunk_numbers r) ≤ hi
  end.
Proof.
  intros Hok Hstart Hlt Hend first. assert (Hruns := ao_runs _ _ _ _ Hok).
  unfold hold_chunks_for_recovered_payload. fold first.
  destruct (payload_chunks al !! first) as [[r n]|] eqn:Hk; [done|].
  pose proof (div_ceil_mul (range_end range) CHUNK_BYTES ltac:(done)) as Hceil.
  pose proof (Z.mul_div_le (range_start range) CHUNK_BYTES ltac:(done)) as Hfloor.
  pose proof (Z.mul_succ_div_gt (range_start range) CHUNK_BYTES ltac:(done)) as Hfloor'.
  set (last := div_ceil (range_end range) CHUNK_BYTES) in *. fold first in Hfloor, Hfloor'.
  assert (0 ≤ first) by (apply Z.div_pos; done).
  assert (Hfl : first < last) by (unfold CHUNK_BYTES in *; nia).
  assert (last < 2 ^ 64) by (unfold CHUNK_BYTES in *; lia).
  assert (Hcount : (last ⊖ first) = last - first) by (apply u64_wrap_small; unfold is_u64; lia).
  rewrite Hcount. unfold reserve_chunks_at, checked_add.
  rewrite (proj2 (Z.ltb_lt _ _)) by lia. replace (first + (last - first)) with last by lia.
  pose proof (reserve_chunk_numbers_spec lo hi (free al) first last Hruns) as Hspec.
  destruct (reserve_chunk_numbers (free al) (mkRange first last)) as [[f' r]|] eqn:Hres.
  - assert (Hok' := reserve_numbers_alloc_ok _ _ _ _ _ _ _ _ Hok Hres).
    destruct (owner_range _ _ _ _ _ Hok') as (Hlo & Hhi & _).
    destruct Hspec as (_ & Hall & _ & _ & _ & _ & ->). split.
    { split; [done|]. intros Hno. by destruct Hno. }
    intros al' [= <-]. eexists. split; [done|]. unfold disk_byte_range. cbn in *. lia.
  - split; [|done]. split; [|done]. intros _ Hall. by apply Hspec.
Qed.

Lemma hold_recovered_exact_witness :
  let range := mkRange (2 * CHUNK_BYTES) (4 * CHUNK_BYTES) in
  hold_chunks_for_recovered_payload sample_allocator range = None ↔
  ¬ all_free sample_allocator 2 4.
Proof.
  intros range.
  assert (H := hold_recovered_exact 1 9 sample_allocator [] range sample_allocator_ok
                 ltac:(done) ltac:(done) ltac:(done)).
  exact (proj1 H).
Defined.
