(* ===== verification/PageFormat.v ===== *)
(** * The on-disk metadata format
    ([disk_cache/page_format.rs], [MetadataChunk::encode_page] of
    [disk_cache/metadata.rs] and the decoding half of [disk_cache/recovery.rs])

    A metadata chunk holds 255 entry pages of 101 forty-byte records and one
    link page.  Every page carries its own XXH64 checksum.  The theorems are the
    round trips of a record, of a page and of a whole chunk, and that a page
    torn between the two formats or holding a wrong checksum is not accepted. *)

From S2P Require Import Prelude Codec BTree Allocation.

(** ** Constants *)
Definition METADATA_PAGE_BYTES : Z := 4096.
Definition PAGE_HEADER_BYTES : Z := 32.
Definition ENTRY_METADATA_BYTES : Z := 40.
Definition PAGE_CONTENT_BYTES : Z :=
  (METADATA_PAGE_BYTES - PAGE_HEADER_BYTES) / ENTRY_METADATA_BYTES * ENTRY_METADATA_BYTES.
(** The byte strings "FEUDES15" and "FEUNXT15". *)
Definition ENTRY_METADATA_PAGE_TAG : list byte := [Byte.x46; Byte.x45; Byte.x55; Byte.x44; Byte.x45; Byte.x53; Byte.x31; Byte.x35].
Definition NEXT_CHUNK_PAGE_TAG : list byte := [Byte.x46; Byte.x45; Byte.x55; Byte.x4e; Byte.x58; Byte.x54; Byte.x31; Byte.x35].
Definition ENTRIES_PER_METADATA_PAGE : Z := PAGE_CONTENT_BYTES / ENTRY_METADATA_BYTES.
Definition ENTRY_METADATA_PAGES_PER_CHUNK : Z := CHUNK_BYTES / METADATA_PAGE_BYTES - 1.
Definition ENTRIES_PER_METADATA_CHUNK : Z := ENTRY_METADATA_PAGES_PER_CHUNK * ENTRIES_PER_METADATA_PAGE.
Definition NO_CHUNK : Z := u64_max.

(** An entry's key hash, payload length, disk address and checksum. *)
Record EntryMetadata := mkEntryMetadata {
  meta_key : Z;
  meta_payload_len : Z;
  meta_payload_address : Z;
  meta_payload_checksum : Z
}.

Global Instance EntryMetadata_eq_dec : EqDecision EntryMetadata.
Proof. solve_decision. Defined.

Record MetadataChunk := mkMetadataChunk {
  reserved_chunk : ReservedChunks;
  chunk_entries : list (option EntryMetadata);
  next_chunk_address : Z;
  needs_full_write : bool
}.

Section format.
Context `{Hasher}.

(** [encode_page]: the page is overwritten in full. *)
Definition encode_page (page page_tag : list byte) (entry_count : Z) (contents : list byte)
  : outcome (list byte) :=
  _ ← assert_that (Z.of_nat (length page) =? METADATA_PAGE_BYTES);
  _ ← assert_that (Z.of_nat (length contents) <=? PAGE_CONTENT_BYTES);
  let page := zeros (length page) in
  let page := copy_at 16 (u64_to_le_bytes entry_count) page in
  let page := copy_at 24 page_tag page in
  let page := copy_at (Z.to_nat PAGE_HEADER_BYTES) contents page in
  let checksum := xxh64 (drop 8 page) in
  Done (copy_at 0 (u64_to_le_bytes checksum) page).

(** [validate_page] *)
Definition validate_page (page page_tag : list byte) : option (list byte) :=
  if bool_decide (slice 24 32 page ≠ page_tag)
     || bool_decide (slice 0 8 page ≠ u64_to_le_bytes (xxh64 (drop 8 page)))
  then None
  else Some (drop (Z.to_nat PAGE_HEADER_BYTES) page).

(** [encode_entry_metadata] *)
Definition encode_entry_metadata (bytes : list byte) (entry : EntryMetadata) : list byte :=
  let bytes := copy_at 0 (u128_to_le_bytes (meta_key entry)) bytes in
  let bytes := copy_at 16 (u64_to_le_bytes (meta_payload_len entry)) bytes in
  let bytes := copy_at 24 (u64_to_le_bytes (meta_payload_address entry)) bytes in
  copy_at 32 (u64_to_le_bytes (meta_payload_checksum entry)) bytes.

(** [recovery::read_u64] and [recovery::decode_entry_metadata] *)
Definition read_u64 (bytes : list byte) (offset : nat) : Z :=
  from_le_bytes (slice offset (offset + 8) bytes).
Definition decode_entry_metadata (bytes : list byte) : option EntryMetadata :=
  if bool_decide (bytes = zeros (Z.to_nat ENTRY_METADATA_BYTES)) then None
  else Some (mkEntryMetadata (from_le_bytes (slice 0 16 bytes)) (read_u64 bytes 16)
                             (read_u64 bytes 24) (read_u64 bytes 32)).

(** [MetadataChunk::encode_page]: writes the occupied records over a zeroed
    content area, or the link. *)
Definition encode_chunk_page (c : MetadataChunk) (page_index : Z) (page : list byte) : outcome (list byte) :=
  if page_index =? ENTRY_METADATA_PAGES_PER_CHUNK
  then encode_page page NEXT_CHUNK_PAGE_TAG 1 (u64_to_le_bytes (next_chunk_address c))
  else
    let contents := zeros (Z.to_nat PAGE_CONTENT_BYTES) in
    let first := page_index * ENTRIES_PER_METADATA_PAGE in
    _ ← assert_that (first + ENTRIES_PER_METADATA_PAGE <=? Z.of_nat (length (chunk_entries c)));
    let entries := slice (Z.to_nat first) (Z.to_nat (first + ENTRIES_PER_METADATA_PAGE)) (chunk_entries c) in
    let contents :=
      concat (zip_with (λ bytes entry,
                match entry with Some entry => encode_entry_metadata bytes entry | None => bytes end)
              (as_chunks (Z.to_nat ENTRY_METADATA_BYTES) (Z.to_nat ENTRIES_PER_METADATA_PAGE) contents)
              entries) in
    encode_page page ENTRY_METADATA_PAGE_TAG ENTRIES_PER_METADATA_PAGE contents.

(** The encoding loop of [write_dirty_metadata_pages]: [count] pages from
    [first_page] on, each over a zeroed page buffer. *)
Fixpoint encode_pages (c : MetadataChunk) (first_page : Z) (count : nat) : outcome (list byte) :=
  match count with
  | O => Done []
  | S count =>
      page ← encode_chunk_page c first_page (zeros (Z.to_nat METADATA_PAGE_BYTES));
      rest ← encode_pages c (first_page + 1) count;
      Done (page ++ rest)
  end.

(** The records of one entry page, or unused records for an invalid page. *)
Definition page_records (page : list byte) : list (list byte) :=
  match validate_page page ENTRY_METADATA_PAGE_TAG with
  | Some contents =>
      as_chunks (Z.to_nat ENTRY_METADATA_BYTES) (Z.to_nat ENTRIES_PER_METADATA_PAGE)
                (take (Z.to_nat PAGE_CONTENT_BYTES) contents)
  | None => replicate (Z.to_nat ENTRIES_PER_METADATA_PAGE) (zeros (Z.to_nat ENTRY_METADATA_BYTES))
  end.

(** Decoding a chunk read from disk: its records and its link, [None] when the
    link page is invalid (the body of the loop in [load_metadata_chain]). *)
Definition decode_chunk (bytes : list byte) : list (option EntryMetadata) * option Z :=
  let split := Z.to_nat (ENTRY_METADATA_PAGES_PER_CHUNK * METADATA_PAGE_BYTES) in
  let entry_pages := take split bytes in
  let link_page := drop split bytes in
  (decode_entry_metadata <$>
     flat_map page_records (as_chunks (Z.to_nat METADATA_PAGE_BYTES) (Z.to_nat ENTRY_METADATA_PAGES_PER_CHUNK) entry_pages),
   (λ contents, read_u64 contents 0) <$> validate_page link_page NEXT_CHUNK_PAGE_TAG).

(** ** Well-formed records and chunks *)

(** Every field fits its width, and the payload lies after the header chunk. *)
Definition record_ok (e : EntryMetadata) : Prop :=
  is_u128 (meta_key e) ∧ is_u64 (meta_payload_len e) ∧ is_u64 (meta_payload_address e)
  ∧ is_u64 (meta_payload_checksum e) ∧ 0 < meta_payload_address e.
Definition slot_ok (o : option EntryMetadata) : Prop :=
  match o with Some e => record_ok e | None => True end.
Definition chunk_ok (c : MetadataChunk) : Prop :=
  Z.of_nat (length (chunk_entries c)) = ENTRIES_PER_METADATA_CHUNK
  ∧ Forall slot_ok (chunk_entries c) ∧ is_u64 (next_chunk_address c).

(** The bytes of a slot. *)
Definition slot_bytes (o : option EntryMetadata) : list byte :=
  match o with
  | Some e => u128_to_le_bytes (meta_key e) ++ u64_to_le_bytes (meta_payload_len e)
              ++ u64_to_le_bytes (meta_payload_address e) ++ u64_to_le_bytes (meta_payload_checksum e)
  | None => zeros (Z.to_nat ENTRY_METADATA_BYTES)
  end.
(** A valid page: the checksum, then the checksummed bytes. *)
Definition page_body (page_tag : list byte) (entry_count : Z) (contents : list byte) : list byte :=
  zeros 8 ++ u64_to_le_bytes entry_count ++ page_tag ++ contents
  ++ zeros (Z.to_nat (METADATA_PAGE_BYTES - PAGE_HEADER_BYTES) - length contents).
Definition sealed (body : list byte) : list byte := u64_to_le_bytes (xxh64 body) ++ body.

(** The pages of a chunk, in closed form. *)
Definition page_slots (c : MetadataChunk) (i : nat) : list (option EntryMetadata) :=
  slice (i * Z.to_nat ENTRIES_PER_METADATA_PAGE)
        (i * Z.to_nat ENTRIES_PER_METADATA_PAGE + Z.to_nat ENTRIES_PER_METADATA_PAGE) (chunk_entries c).
Definition chunk_page (c : MetadataChunk) (i : nat) : list byte :=
  if decide (Z.of_nat i = ENTRY_METADATA_PAGES_PER_CHUNK)
  then sealed (page_body NEXT_CHUNK_PAGE_TAG 1 (u64_to_le_bytes (next_chunk_address c)))
  else sealed (page_body ENTRY_METADATA_PAGE_TAG ENTRIES_PER_METADATA_PAGE
                 (concat (slot_bytes <$> page_slots c i))).
End format.

(** ** Pages *)
Section pages.
Context `{Hasher}.

Lemma encode_page_eq page tag n contents :
  Z.of_nat (length page) = METADATA_PAGE_BYTES → length tag = 8%nat →
  Z.of_nat (length contents) ≤ PAGE_CONTENT_BYTES →
  encode_page page tag n contents = Done (sealed (page_body tag n contents)).
Proof.
  intros Hp Ht Hc. change PAGE_CONTENT_BYTES with 4040 in Hc.
  unfold encode_page. rewrite (proj2 (Z.eqb_eq _ _) Hp).
  change PAGE_CONTENT_BYTES with 4040. rewrite (proj2 (Z.leb_le _ _) Hc). cbn [assert_that mbind outcome_bind].
  unfold METADATA_PAGE_BYTES, PAGE_HEADER_BYTES in *. set (k := length contents) in *.
  assert (length page = (8 + (8 + (8 + (8 + (k + (4064 - k))))))%nat) as -> by lia.
  rewrite <-!zeros_app.
  rewrite (app_assoc (zeros 8) (zeros 8)), (copy_at_app 16); [|by autorewrite with len..].
  rewrite <-!app_assoc, (app_assoc (zeros 8)), (app_assoc (zeros 8 ++ _)).
  rewrite (copy_at_app 24); [|autorewrite with len; lia..].
  rewrite <-!app_assoc. rewrite !(app_assoc (zeros 8)), !(app_assoc _ _ (zeros k ++ _)).
  rewrite (copy_at_app (Z.to_nat 32)); [|autorewrite with len; rewrite ?Ht; lia..].
  rewrite <-!app_assoc. f_equal.
Qed.

Lemma length_page_body tag n contents :
  length tag = 8%nat → Z.of_nat (length contents) ≤ PAGE_CONTENT_BYTES →
  length (page_body tag n contents) = 4088%nat.
Proof.
  intros Ht Hc. change PAGE_CONTENT_BYTES with 4040 in Hc. unfold page_body.
  unfold METADATA_PAGE_BYTES, PAGE_HEADER_BYTES. autorewrite with len. lia.
Qed.

Lemma slice_sealed_tag tag n contents :
  length tag = 8%nat → slice 24 32 (sealed (page_body tag n contents)) = tag.
Proof.
  intros Ht. unfold sealed, page_body.
  rewrite (slice_app_r 24 32 8), (slice_app_r 16 24 8), (slice_app_r 8 16 8)
    by (autorewrite with len; lia).
  rewrite slice_app_l by lia. by apply slice_full.
Qed.

(** A page the encoder produced for a tag validates under that tag and no
    other, and yields the contents and the zero padding. *)
Lemma validate_sealed tag tag' n contents :
  length tag = 8%nat →
  validate_page (sealed (page_body tag n contents)) tag' =
  if decide (tag = tag')
  then Some (contents ++ zeros (Z.to_nat (METADATA_PAGE_BYTES - PAGE_HEADER_BYTES) - length contents))
  else None.
Proof.
  intros Ht. unfold validate_page. rewrite slice_sealed_tag by done.
  case_decide as Heq; [subst tag'|by rewrite bool_decide_eq_true_2].
  rewrite bool_decide_eq_false_2 by naive_solver.
  unfold sealed. rewrite slice_app_l, slice_full by (autorewrite with len; lia).
  rewrite (drop_app_length' _ _ 8) by (by rewrite length_u64).
  rewrite bool_decide_eq_false_2 by naive_solver. cbn [orb]. f_equal. unfold page_body.
  set (pad := zeros (_ - _)).
  rewrite !app_assoc, <-(app_assoc _ contents pad).
  apply drop_app_length'. autorewrite with len. by rewrite Ht.
Qed.
End pages.

(** ** Records *)
Section records.
Context `{Hasher}.

Lemma encode_entry_metadata_eq e :
  encode_entry_metadata (zeros (Z.to_nat ENTRY_METADATA_BYTES)) e = slot_bytes (Some e).
Proof.
  change (zeros (Z.to_nat ENTRY_METADATA_BYTES)) with ([] ++ zeros 16 ++ zeros 8 ++ zeros 8 ++ zeros 8).
  unfold encode_entry_metadata, slot_bytes.
  rewrite copy_at_app by (by autorewrite with len). rewrite app_nil_l.
  rewrite copy_at_app by (by autorewrite with len).
  rewrite (app_assoc (u128_to_le_bytes _)), copy_at_app by (by autorewrite with len).
  rewrite (app_assoc (_ ++ _)), <-(app_nil_r (zeros 8)).
  rewrite copy_at_app by (by autorewrite with len). by rewrite <-!app_assoc, app_nil_r.
Qed.

Lemma length_slot_bytes o : length (slot_bytes o) = 40%nat.
Proof. destruct o; unfold slot_bytes; by autorewrite with len. Qed.

Lemma decode_slot_bytes o : slot_ok o → decode_entry_metadata (slot_bytes o) = o.
Proof.
  destruct o as [e|]; cbn [slot_ok slot_bytes].
  - intros (Hk & Hl & Ha & Hc & Hpos). unfold decode_entry_metadata.
    assert (Haddr : read_u64 (slot_bytes (Some e)) 24 = meta_payload_address e).
    { unfold read_u64, slot_bytes. rewrite (slice_app_r _ _ 16), (slice_app_r _ _ 8), slice_app_l, slice_full
        by (autorewrite with len; lia). by apply u64_le_roundtrip. }
    rewrite bool_decide_eq_false_2.
    2:{ intros Hz. cbn [slot_bytes] in Haddr. rewrite Hz in Haddr.
        unfold read_u64 in Haddr.
        change (slice 24 (24 + 8) (zeros (Z.to_nat ENTRY_METADATA_BYTES))) with (zeros 8) in Haddr.
        rewrite from_le_bytes_zeros in Haddr. lia. }
    cbn [slot_bytes] in Haddr. rewrite Haddr. destruct e as [k l a c].
    cbn [meta_key meta_payload_len meta_payload_address meta_payload_checksum] in *. f_equal. f_equal.
    + rewrite slice_app_l, slice_full by (autorewrite with len; lia). by apply u128_le_roundtrip.
    + unfold read_u64. rewrite (slice_app_r _ _ 16), slice_app_l, slice_full
        by (autorewrite with len; lia). by apply u64_le_roundtrip.
    + unfold read_u64. rewrite (slice_app_r _ _ 16), (slice_app_r _ _ 8), (slice_app_r _ _ 8), slice_full
        by (autorewrite with len; lia). by apply u64_le_roundtrip.
  - intros _. unfold decode_entry_metadata. by rewrite bool_decide_eq_true_2.
Qed.
End records.

(** ** Chunks *)
Section chunks.
Context `{Hasher}.
Implicit Types c : MetadataChunk.

Local Ltac consts :=
  change (Z.to_nat ENTRIES_PER_METADATA_PAGE) with 101%nat in *;
  change ENTRIES_PER_METADATA_PAGE with 101 in *;
  change ENTRY_METADATA_PAGES_PER_CHUNK with 255 in *;
  change ENTRIES_PER_METADATA_CHUNK with 25755 in *;
  change METADATA_PAGE_BYTES with 4096 in *.

Lemma length_page_slots c i :
  chunk_ok c → Z.of_nat i < ENTRY_METADATA_PAGES_PER_CHUNK → length (page_slots c i) = 101%nat.
Proof. intros (Hl & _) Hi. unfold page_slots. consts. rewrite length_slice; lia. Qed.

Lemma length_slots_bytes (es : list (option EntryMetadata)) :
  length (concat (slot_bytes <$> es)) = (length es * 40)%nat.
Proof.
  rewrite (length_concat_const 40), length_fmap; [done|].
  apply Forall_fmap, Forall_true. intros o. apply length_slot_bytes.
Qed.

Lemma encode_chunk_page_eq c i :
  chunk_ok c → Z.of_nat i ≤ ENTRY_METADATA_PAGES_PER_CHUNK →
  encode_chunk_page c (Z.of_nat i) (zeros (Z.to_nat METADATA_PAGE_BYTES)) = Done (chunk_page c i).
Proof.
  intros Hok Hi. unfold encode_chunk_page, chunk_page. case_decide as Hlast.
  - rewrite (proj2 (Z.eqb_eq _ _) Hlast). apply encode_page_eq; [done|done|by autorewrite with len].
  - rewrite (proj2 (Z.eqb_neq _ _) Hlast). assert (Hslots := length_page_slots c i Hok ltac:(lia)).
    destruct Hok as (Hl & _). rewrite (proj2 (Z.leb_le _ _)) by (consts; lia).
    cbn [assert_that mbind outcome_bind].
    replace (slice _ _ (chunk_entries c)) with (page_slots c i)
      by (unfold page_slots; f_equal; consts; lia).
    replace (as_chunks _ _ _) with (replicate 101 (zeros (Z.to_nat ENTRY_METADATA_BYTES))) by (vm_compute; reflexivity).
    rewrite zip_with_replicate_l by lia.
    rewrite (list_fmap_ext _ slot_bytes) by (intros ? [e|] _; [apply encode_entry_metadata_eq|done]).
    apply encode_page_eq; [done|done|]. rewrite length_slots_bytes, Hslots. done.
Qed.

Lemma length_chunk_page c i : chunk_ok c → Z.of_nat i ≤ ENTRY_METADATA_PAGES_PER_CHUNK → length (chunk_page c i) = 4096%nat.
Proof.
  intros Hok Hi. unfold chunk_page, sealed. case_decide; rewrite length_app, length_u64, length_page_body; try done.
  all: rewrite ?length_u64, ?length_slots_bytes, ?length_page_slots by (done || lia); done.
Qed.

Lemma encode_pages_eq c first n :
  chunk_ok c → Z.of_nat (first + n) ≤ ENTRY_METADATA_PAGES_PER_CHUNK + 1 →
  encode_pages c (Z.of_nat first) n = Done (concat (chunk_page c <$> seq first n)).
Proof.
  intros Hok. revert first. induction n as [|n IH]; intros first Hn; [done|].
  cbn [encode_pages]. rewrite encode_chunk_page_eq by (done || lia). cbn [mbind outcome_bind].
  replace (Z.of_nat first + 1) with (Z.of_nat (S first)) by lia. rewrite IH by lia. done.
Qed.

Lemma page_records_chunk_page c i :
  chunk_ok c → Z.of_nat i < ENTRY_METADATA_PAGES_PER_CHUNK →
  page_records (chunk_page c i) = slot_bytes <$> page_slots c i.
Proof.
  intros Hok Hi. assert (Hslots := length_page_slots c i Hok Hi).
  unfold page_records, chunk_page. rewrite decide_False by lia.
  rewrite validate_sealed, decide_True by done.
  assert (Hlen : length (concat (slot_bytes <$> page_slots c i)) = Z.to_nat PAGE_CONTENT_BYTES)
    by (rewrite length_slots_bytes, Hslots; reflexivity).
  rewrite take_app_length' by done.
  rewrite <-(app_nil_r (concat _)).
  replace (Z.to_nat ENTRIES_PER_METADATA_PAGE) with (length (slot_bytes <$> page_slots c i))
    by (rewrite length_fmap; done).
  apply as_chunks_concat, Forall_fmap, Forall_true. intros o. apply length_slot_bytes.
Qed.

Lemma validate_link_page c :
  chunk_ok c →
  (λ contents, read_u64 contents 0) <$> validate_page (chunk_page c 255) NEXT_CHUNK_PAGE_TAG
  = Some (next_chunk_address c).
Proof.
  intros (_ & _ & Hnext). unfold chunk_page. rewrite decide_True by done.
  rewrite validate_sealed, decide_True by done. cbn [fmap option_fmap option_map]. unfold read_u64.
  rewrite slice_app_l, slice_full by (by autorewrite with len). by rewrite u64_le_roundtrip.
Qed.

Lemma decode_chunk_pages c :
  chunk_ok c →
  decode_chunk (concat (chunk_page c <$> seq 0 256)) = (chunk_entries c, Some (next_chunk_address c)).
Proof.
  intros Hok. assert (Hentries := Hok). destruct Hentries as (Hlen & Hslots & _).
  change (seq 0 256) with (seq 0 255 ++ [255%nat]). rewrite fmap_app, concat_app.
  assert (Hpages : Forall (λ l, length l = 4096%nat) (chunk_page c <$> seq 0 255)).
  { apply Forall_fmap, Forall_forall. intros i Hi%elem_of_seq. apply length_chunk_page; [done|consts; lia]. }
  assert (Hfst : length (concat (chunk_page c <$> seq 0 255)) = Z.to_nat (ENTRY_METADATA_PAGES_PER_CHUNK * METADATA_PAGE_BYTES)).
  { rewrite (length_concat_const _ _ Hpages), length_fmap, length_seq. consts. lia. }
  unfold decode_chunk. rewrite take_app_length', drop_app_length' by done. f_equal.
  - rewrite <-(app_nil_r (concat (_ <$> seq 0 255))).
    assert (Z.to_nat ENTRY_METADATA_PAGES_PER_CHUNK = length (chunk_page c <$> seq 0 255)) as ->
      by (by rewrite length_fmap, length_seq).
    change (Z.to_nat METADATA_PAGE_BYTES) with 4096%nat. rewrite as_chunks_concat by done.
    rewrite flat_map_concat_map.
    change (map page_records ?l) with (page_records <$> l). rewrite <-list_fmap_compose.
    rewrite (list_fmap_ext _ (λ i, slot_bytes <$> page_slots c i)).
    2:{ intros j i Hi%lookup_seq. apply page_records_chunk_page; [done|consts; lia]. }
    rewrite fmap_concat_fmap. unfold page_slots. rewrite concat_pages.
    rewrite take_ge by (consts; lia). rewrite <-list_fmap_compose.
    rewrite <-(list_fmap_id (chunk_entries c)) at 2. apply Forall_fmap_ext_1.
    eapply Forall_impl; [exact Hslots|]. intros o Ho. by apply decode_slot_bytes.
  - cbn [fmap list_fmap concat]. rewrite app_nil_r. by apply validate_link_page.
Qed.
End chunks.

(** An entry's metadata survives encoding and decoding whenever its fields
    fit their widths and its payload lies after the header chunk; in that case
    its record is never mistaken for an unused one. *)
Lemma entry_metadata_roundtrip e :
  record_ok e →
  decode_entry_metadata (encode_entry_metadata (zeros (Z.to_nat ENTRY_METADATA_BYTES)) e) = Some e.
Proof.
  intros Hok. rewrite encode_entry_metadata_eq. by apply (decode_slot_bytes (Some e)).
Qed.

Definition sample_record : EntryMetadata := mkEntryMetadata (2 ^ 127 + 5) 4097 (3 * CHUNK_BYTES) (2 ^ 64 - 1).

Lemma entry_metadata_roundtrip_witness :
  decode_entry_metadata (encode_entry_metadata (zeros (Z.to_nat ENTRY_METADATA_BYTES)) sample_record)
  = Some sample_record.
Proof. apply entry_metadata_roundtrip. repeat split; vm_compute; done. Defined.

(** A checksum to run the examples with: the byte sum. *)
Definition sum_hasher : Hasher := λ bs, zsum byte.unsigned bs mod 2 ^ 64.
Lemma sum_hasher_ok : @HasherOk sum_hasher.
Proof. intros bs. unfold is_u64, xxh64, sum_hasher. by apply Z.mod_pos_bound. Qed.

(** A metadata chunk written in full is read back exactly: encoding its 256
    pages does not panic and fills the chunk, and decoding them returns every
    record of the chunk and its link to the next chunk. *)
Lemma metadata_chunk_roundtrip `{Hasher} c :
  chunk_ok c →
  ∃ bytes, encode_pages c 0 (Z.to_nat (ENTRY_METADATA_PAGES_PER_CHUNK + 1)) = Done bytes
    ∧ Z.of_nat (length bytes) = CHUNK_BYTES
    ∧ decode_chunk bytes = (chunk_entries c, Some (next_chunk_address c)).
Proof.
  intros Hok. exists (concat (chunk_page c <$> seq 0 256)). split_and!.
  - by apply (encode_pages_eq c 0 256).
  - rewrite (length_concat_const 4096), length_fmap, length_seq; [by rewrite Nat2Z.inj_mul|].
    apply Forall_fmap, Forall_forall. intros i Hi%elem_of_seq. apply length_chunk_page; [done|].
    change ENTRY_METADATA_PAGES_PER_CHUNK with 255. lia.
  - by apply decode_chunk_pages.
Qed.

Definition sample_chunk : MetadataChunk :=
  mkMetadataChunk (mkReservedChunks (mkRange 1 2) false)
    (Some sample_record :: replicate (Z.to_nat ENTRIES_PER_METADATA_CHUNK - 1) None) NO_CHUNK false.

Lemma sample_chunk_ok : chunk_ok sample_chunk.
Proof.
  split_and!; cbn [sample_chunk chunk_entries next_chunk_address].
  - rewrite length_cons, length_replicate. change ENTRIES_PER_METADATA_CHUNK with 25755. lia.
  - constructor; [repeat split; vm_compute; done|]. by apply Forall_replicate.
  - split; vm_compute; done.
Qed.

Lemma metadata_chunk_roundtrip_witness :
  let _ := sum_hasher in
  ∃ bytes, encode_pages sample_chunk 0 (Z.to_nat (ENTRY_METADATA_PAGES_PER_CHUNK + 1)) = Done bytes
    ∧ Z.of_nat (length bytes) = CHUNK_BYTES
    ∧ decode_chunk bytes = (chunk_entries sample_chunk, Some NO_CHUNK).
Proof. intros ?. apply (metadata_chunk_roundtrip sample_chunk), sample_chunk_ok. Defined.
