(* ===== verification/Metadata.v ===== *)
(** * Metadata chunks of a shard ([disk_cache/metadata.rs])

    The in-memory image of a shard's metadata chain: the slots of every chunk,
    the pages that changed since they were last written, and the free-slot
    accounting.  Chunk, entry and page indices ([u32], [u16], [u8]) are [nat];
    the one conversion that can fail, [chunk_index.try_into::<u32>()], is an
    assertion. *)

From S2P Require Import Prelude Codec BTree Allocation PageFormat.

Record EntryMetadataLocation := mkLocation { loc_chunk : nat; loc_entry : nat }.
Record MetadataPageLocation := mkPageLocation { page_chunk : nat; page_index : nat }.

Global Instance EntryMetadataLocation_eq_dec : EqDecision EntryMetadataLocation.
Proof. solve_decision. Defined.
Global Instance MetadataPageLocation_eq_dec : EqDecision MetadataPageLocation.
Proof. solve_decision. Defined.

Record MetadataChunks := mkMetadataChunks {
  chunks : list MetadataChunk;
  dirty_pages : list MetadataPageLocation;
  free_slot_search_start : EntryMetadataLocation;
  free_slot_count : Z
}.

(** [MetadataChunks::default()] *)
Definition default_metadata : MetadataChunks := mkMetadataChunks [] [] (mkLocation 0 0) 0.

(** The derived orders compare the chunk first. *)
Definition loc_ltb (a b : EntryMetadataLocation) : bool :=
  (loc_chunk a <? loc_chunk b)%nat
  || ((loc_chunk a =? loc_chunk b)%nat && (loc_entry a <? loc_entry b)%nat).
Definition loc_min (a b : EntryMetadataLocation) : EntryMetadataLocation := if loc_ltb b a then b else a.
Definition page_cmp (a b : MetadataPageLocation) : comparison :=
  match Nat.compare (page_chunk a) (page_chunk b) with
  | Eq => Nat.compare (page_index a) (page_index b)
  | c => c
  end.

(** [BTreeSet::insert]; the set is its sorted list of elements. *)
Fixpoint page_insert (p : MetadataPageLocation) (l : list MetadataPageLocation) : list MetadataPageLocation :=
  match l with
  | [] => [p]
  | q :: l' => match page_cmp p q with
               | Lt => p :: l
               | Eq => l
               | Gt => q :: page_insert p l'
               end
  end.

(** [entry_metadata_mut]: the slot at a location, and writing it. *)
Definition slot_at (cs : list MetadataChunk) (loc : EntryMetadataLocation) : option (option EntryMetadata) :=
  c ← cs !! loc_chunk loc; chunk_entries c !! loc_entry loc.
Definition set_entries (es : list (option EntryMetadata)) (c : MetadataChunk) : MetadataChunk :=
  mkMetadataChunk (reserved_chunk c) es (next_chunk_address c) (needs_full_write c).
Definition set_next (address : Z) (c : MetadataChunk) : MetadataChunk :=
  mkMetadataChunk (reserved_chunk c) (chunk_entries c) address (needs_full_write c).
Definition set_slot (cs : list MetadataChunk) (loc : EntryMetadataLocation) (o : option EntryMetadata) : list MetadataChunk :=
  alter (λ c, set_entries (<[loc_entry loc := o]> (chunk_entries c)) c) (loc_chunk loc) cs.

(** [mark_page_dirty] and [mark_link_page_dirty] *)
Definition mark_page_dirty (d : list MetadataPageLocation) (loc : EntryMetadataLocation) : list MetadataPageLocation :=
  page_insert (mkPageLocation (loc_chunk loc) (loc_entry loc / Z.to_nat ENTRIES_PER_METADATA_PAGE)) d.
Definition mark_link_page_dirty (d : list MetadataPageLocation) (chunk_index : nat) : outcome (list MetadataPageLocation) :=
  _ ← assert_that (Z.of_nat chunk_index <? 2 ^ 32);
  Done (page_insert (mkPageLocation chunk_index (Z.to_nat ENTRY_METADATA_PAGES_PER_CHUNK)) d).

(** The search loop of [store_entry_metadata], over the chunks from index [ci]
    on; running past the last chunk is an index out of bounds. *)
Fixpoint first_free_slot (rest : list MetadataChunk) (ci ei : nat) : outcome EntryMetadataLocation :=
  match rest with
  | [] => Panic
  | c :: rest =>
      _ ← assert_that (ei <=? length (chunk_entries c))%nat;
      match position (λ o, bool_decide (o = None)) (drop ei (chunk_entries c)) with
      | Some offset => Done (mkLocation ci (ei + offset))
      | None => first_free_slot rest (S ci) 0
      end
  end.

(** [store_entry_metadata] *)
Definition store_entry_metadata (m : MetadataChunks) (entry : EntryMetadata)
  : outcome (MetadataChunks * EntryMetadataLocation) :=
  let start := free_slot_search_start m in
  location ← first_free_slot (drop (loc_chunk start) (chunks m)) (loc_chunk start) (loc_entry start);
  Done (mkMetadataChunks (set_slot (chunks m) location (Some entry))
          (mark_page_dirty (dirty_pages m) location) location (free_slot_count m - 1), location).

(** [free_entry_metadata] *)
Definition free_entry_metadata (m : MetadataChunks) (location : EntryMetadataLocation) : outcome MetadataChunks :=
  slot ← unwrap (slot_at (chunks m) location);
  _ ← assert_that (bool_decide (slot ≠ None));
  Done (mkMetadataChunks (set_slot (chunks m) location None)
          (mark_page_dirty (dirty_pages m) location)
          (loc_min (free_slot_search_start m) location) (free_slot_count m + 1)).

(** [set_last_chunk_link] *)
Definition set_last_chunk_link (m : MetadataChunks) (address : Z) : outcome MetadataChunks :=
  match chunks m with
  | [] => Done m
  | _ =>
      let last := pred (length (chunks m)) in
      d ← mark_link_page_dirty (dirty_pages m) last;
      Done (mkMetadataChunks (alter (set_next address) last (chunks m)) d
              (free_slot_search_start m) (free_slot_count m))
  end.

(** [ensure_free_slots]; [None] leaves the metadata and the allocator as they were. *)
Definition ensure_free_slots (m : MetadataChunks) (count : Z) (al : DiskChunkAllocator)
  : outcome (option (MetadataChunks * DiskChunkAllocator)) :=
  if free_slot_count m <? count then
    match reserve_chunks al 1 with
    | None => Done None
    | Some (al, reserved) =>
        m ← set_last_chunk_link m (range_start (disk_byte_range reserved));
        let cs := chunks m ++ [mkMetadataChunk reserved
                    (replicate (Z.to_nat ENTRIES_PER_METADATA_CHUNK) None) NO_CHUNK true] in
        d ← mark_link_page_dirty (dirty_pages m) (pred (length cs));
        Done (Some (mkMetadataChunks cs d (free_slot_search_start m)
                      (free_slot_count m + ENTRIES_PER_METADATA_CHUNK), al))
    end
  else Done (Some (m, al)).

(** [reset_free_slots] *)
Definition free_slots (es : list (option EntryMetadata)) : Z :=
  zsum (λ o, if bool_decide (o = None) then 1 else 0) es.
Definition total_free_slots (cs : list MetadataChunk) : Z := zsum (λ c, free_slots (chunk_entries c)) cs.
Definition reset_free_slots (m : MetadataChunks) : MetadataChunks :=
  mkMetadataChunks (chunks m) (dirty_pages m) (mkLocation 0 0) (total_free_slots (chunks m)).

(** ** Invariant *)

(** Each chunk of the chain links to the next one, and the last to none. *)
Fixpoint linked (cs : list MetadataChunk) : Prop :=
  match cs with
  | [] => True
  | c :: cs' =>
      next_chunk_address c = match cs' with
                             | [] => NO_CHUNK
                             | c' :: _ => range_start (disk_byte_range (reserved_chunk c'))
                             end ∧ linked cs'
  end.

Definition page_in (cs : list MetadataChunk) (p : MetadataPageLocation) : Prop :=
  (page_chunk p < length cs)%nat ∧ (page_index p ≤ Z.to_nat ENTRY_METADATA_PAGES_PER_CHUNK)%nat.

Record meta_ok (m : MetadataChunks) : Prop := mkMetaOk {
  mo_chunks : Forall chunk_ok (chunks m);
  mo_single : Forall (λ c, chunk_count (reserved_chunk c) = 1) (chunks m);
  mo_count : free_slot_count m = total_free_slots (chunks m);
  mo_search : ∀ loc, loc_ltb loc (free_slot_search_start m) = true → slot_at (chunks m) loc ≠ Some None;
  mo_start : free_slot_search_start m = mkLocation 0 0 ∨ is_Some (slot_at (chunks m) (free_slot_search_start m));
  mo_dirty : Forall (page_in (chunks m)) (dirty_pages m);
  mo_sorted : StronglySorted (λ a b, page_cmp a b = Lt) (dirty_pages m);
  mo_linked : linked (chunks m)
}.

(** ** Locations and slots *)
Lemma loc_ltb_spec a b :
  loc_ltb a b = true ↔
  (loc_chunk a < loc_chunk b)%nat ∨ (loc_chunk a = loc_chunk b ∧ (loc_entry a < loc_entry b)%nat).
Proof.
  unfold loc_ltb. rewrite orb_true_iff, andb_true_iff, !Nat.ltb_lt, Nat.eqb_eq. done.
Qed.

Lemma loc_ltb_trichotomy a b : loc_ltb a b = true ∨ a = b ∨ loc_ltb b a = true.
Proof.
  destruct a as [a1 a2], b as [b1 b2]. rewrite !loc_ltb_spec. cbn.
  destruct (Nat.lt_trichotomy a1 b1) as [?|[->|?]]; [auto| |auto].
  destruct (Nat.lt_trichotomy a2 b2) as [?|[->|?]]; auto.
Qed.

Lemma slot_at_Some cs loc o :
  slot_at cs loc = Some o ↔ ∃ c, cs !! loc_chunk loc = Some c ∧ chunk_entries c !! loc_entry loc = Some o.
Proof. unfold slot_at. rewrite bind_Some. done. Qed.

Section set_slot.
Context (cs : list MetadataChunk) (loc : EntryMetadataLocation) (o old : option EntryMetadata).
Hypothesis Hold : slot_at cs loc = Some old.

Lemma slot_at_set_slot loc' :
  slot_at (set_slot cs loc o) loc' = if decide (loc' = loc) then Some o else slot_at cs loc'.
Proof using Hold.
  apply slot_at_Some in Hold as (c & Hc & He). unfold slot_at, set_slot.
  destruct (decide (loc_chunk loc' = loc_chunk loc)) as [Heq|Hne].
  - rewrite Heq, list_lookup_alter_eq, Hc. cbn.
    destruct (decide (loc_entry loc' = loc_entry loc)) as [Heq'|Hne'].
    + rewrite decide_True by (destruct loc, loc'; cbn in *; congruence). rewrite Heq'.
      apply list_lookup_insert_eq. by eapply lookup_lt_Some.
    + rewrite decide_False by congruence. by rewrite list_lookup_insert_ne.
  - rewrite decide_False by congruence. by rewrite list_lookup_alter_ne.
Qed.

Lemma set_slot_reserved :
  (λ c, (reserved_chunk c, next_chunk_address c)) <$> set_slot cs loc o
  = (λ c, (reserved_chunk c, next_chunk_address c)) <$> cs.
Proof using. by apply fmap_alter_id. Qed.

Lemma length_set_slot : length (set_slot cs loc o) = length cs.
Proof using. apply length_alter. Qed.

Lemma total_free_set_slot :
  total_free_slots (set_slot cs loc o) =
  total_free_slots cs - (if bool_decide (old = None) then 1 else 0) + (if bool_decide (o = None) then 1 else 0).
Proof using Hold.
  apply slot_at_Some in Hold as (c & Hc & He). unfold total_free_slots, set_slot.
  rewrite (zsum_alter _ _ _ _ _ Hc). cbn [chunk_entries set_entries]. unfold free_slots.
  rewrite (zsum_insert _ _ _ _ _ He). lia.
Qed.

Lemma chunks_ok_set_slot : slot_ok o → Forall chunk_ok cs → Forall chunk_ok (set_slot cs loc o).
Proof using.
  intros Ho Hcs. apply Forall_alter; [done|]. intros c _ (Hl & He & Hn).
  split_and!; cbn; [by rewrite length_insert| |done]. by apply Forall_insert.
Qed.
End set_slot.

Lemma linked_fmap cs cs' :
  (λ c, (reserved_chunk c, next_chunk_address c)) <$> cs = (λ c, (reserved_chunk c, next_chunk_address c)) <$> cs' →
  linked cs → linked cs'.
Proof.
  revert cs'. induction cs as [|c cs IH]; intros [|c' cs'] Heq; try done. cbn in Heq.
  injection Heq as Hr Hn Htl. intros [Hnext Hl]. split; [|by apply IH].
  rewrite <-Hn, Hnext. destruct cs, cs'; try done. cbn in Htl. congruence.
Qed.

Lemma free_slots_nonneg es : 0 ≤ free_slots es.
Proof. apply zsum_nonneg. intros o _. case_bool_decide; lia. Qed.

Lemma free_slot_exists cs : 0 < total_free_slots cs → ∃ loc, slot_at cs loc = Some None.
Proof.
  intros (i & c & Hc & (j & o & Hj & Ho)%zsum_pos_exists)%zsum_pos_exists.
  case_bool_decide as Hn; [subst o|lia]. exists (mkLocation i j). apply slot_at_Some. eauto.
Qed.

(** ** Dirty pages *)
Lemma page_cmp_eq a b : page_cmp a b = Eq ↔ a = b.
Proof.
  destruct a as [a1 a2], b as [b1 b2]. unfold page_cmp. cbn.
  destruct (Nat.compare_spec a1 b1); [subst; rewrite Nat.compare_eq_iff| |]; naive_solver lia.
Qed.

Lemma page_cmp_lt a b :
  page_cmp a b = Lt ↔
  (page_chunk a < page_chunk b)%nat ∨ (page_chunk a = page_chunk b ∧ (page_index a < page_index b)%nat).
Proof.
  unfold page_cmp. destruct (Nat.compare_spec (page_chunk a) (page_chunk b));
    [rewrite Nat.compare_lt_iff| |]; naive_solver lia.
Qed.

Lemma page_cmp_gt a b : page_cmp a b = Gt ↔ page_cmp b a = Lt.
Proof.
  rewrite page_cmp_lt. unfold page_cmp. destruct (Nat.compare_spec (page_chunk a) (page_chunk b));
    [rewrite Nat.compare_gt_iff| |]; naive_solver lia.
Qed.

Lemma page_lt_trans a b c : page_cmp a b = Lt → page_cmp b c = Lt → page_cmp a c = Lt.
Proof. rewrite !page_cmp_lt. lia. Qed.

Lemma elem_of_page_insert p q l : q ∈ page_insert p l ↔ q = p ∨ q ∈ l.
Proof.
  induction l as [|a l IH]; cbn; [set_solver|].
  destruct (page_cmp p a) eqn:Hc; [apply page_cmp_eq in Hc as ->| |]; set_solver.
Qed.

Lemma page_insert_sorted p l :
  StronglySorted (λ a b, page_cmp a b = Lt) l → StronglySorted (λ a b, page_cmp a b = Lt) (page_insert p l).
Proof.
  induction 1 as [|a l Hs IH Hall]; cbn; [repeat constructor|].
  destruct (page_cmp p a) eqn:Hc; [by constructor| |].
  - constructor; [by constructor|]. constructor; [done|].
    eapply Forall_impl; [exact Hall|]. intros b Hb. by eapply page_lt_trans.
  - constructor; [done|]. rewrite Forall_forall in *. intros b [->|Hb]%elem_of_page_insert; [|auto].
    by apply page_cmp_gt.
Qed.

Lemma page_insert_in cs p l : page_in cs p → Forall (page_in cs) l → Forall (page_in cs) (page_insert p l).
Proof. rewrite !Forall_forall. intros ?? q [->|?]%elem_of_page_insert; auto. Qed.

Lemma page_in_length cs cs' p : (length cs ≤ length cs')%nat → page_in cs p → page_in cs' p.
Proof. unfold page_in. intros ? [??]. split; lia. Qed.

Lemma chunk_ok_lookup cs i c :
  Forall chunk_ok cs → cs !! i = Some c → Z.of_nat (length (chunk_entries c)) = ENTRIES_PER_METADATA_CHUNK.
Proof. intros Hcs Hi. rewrite Forall_lookup in Hcs. by destruct (Hcs _ _ Hi) as (Hl & _). Qed.

(** ** The free-slot search *)
Lemma position_drop_None ei (es : list (option EntryMetadata)) :
  position (λ o, bool_decide (o = None)) (drop ei es) = None →
  ∀ j, (ei ≤ j)%nat → es !! j ≠ Some None.
Proof.
  intros Hp j Hj Hes. rewrite position_None in Hp.
  specialize (Hp None). rewrite bool_decide_eq_true_2 in Hp by done.
  discriminate Hp. apply list_elem_of_lookup. exists (j - ei)%nat. rewrite lookup_drop. rewrite <-Hes. f_equal. lia.
Qed.

Lemma position_drop_Some ei (es : list (option EntryMetadata)) off :
  position (λ o, bool_decide (o = None)) (drop ei es) = Some off →
  es !! (ei + off)%nat = Some None ∧ ∀ j, (ei ≤ j < ei + off)%nat → es !! j ≠ Some None.
Proof.
  intros [(o & Ho & Hd) Hmin]%position_Some. rewrite lookup_drop in Ho.
  apply bool_decide_eq_true in Hd as ->. split; [done|]. intros j Hj Hes.
  assert (Hj' : drop ei es !! (j - ei)%nat = Some None)
    by (rewrite lookup_drop, <-Hes; f_equal; lia).
  specialize (Hmin (j - ei)%nat None ltac:(lia) Hj'). by rewrite bool_decide_eq_true_2 in Hmin.
Qed.

Lemma first_free_slot_spec cs ci ei :
  Forall chunk_ok cs → Z.of_nat ei ≤ ENTRIES_PER_METADATA_CHUNK →
  match first_free_slot (drop ci cs) ci ei with
  | Done loc => slot_at cs loc = Some None ∧ loc_ltb loc (mkLocation ci ei) = false
                ∧ ∀ loc', loc_ltb loc' loc = true → loc_ltb loc' (mkLocation ci ei) = false →
                          slot_at cs loc' ≠ Some None
  | Panic => ∀ loc', loc_ltb loc' (mkLocation ci ei) = false → slot_at cs loc' ≠ Some None
  end.
Proof.
  intros Hcs. remember (drop ci cs) as rest eqn:Hrest. revert ci ei Hrest.
  induction rest as [|c rest IH]; intros ci ei Hrest Hei; cbn [first_free_slot].
  - intros loc' Hge (c & Hc & _)%slot_at_Some. apply not_true_iff_false in Hge.
    rewrite loc_ltb_spec in Hge. cbn in Hge. apply lookup_lt_Some in Hc.
    apply (f_equal length) in Hrest. rewrite length_drop in Hrest. cbn in Hrest. lia.
  - assert (Hc : cs !! ci = Some c) by (rewrite <-(Nat.add_0_r ci), <-lookup_drop, <-Hrest; done).
    assert (Hrest' : rest = drop (S ci) cs)
      by (rewrite <-Nat.add_1_r, <-drop_drop, <-Hrest; done).
    assert (Hlen := chunk_ok_lookup _ _ _ Hcs Hc).
    rewrite (proj2 (Nat.leb_le _ _)) by lia. cbn [assert_that mbind outcome_bind].
    destruct (position _ _) as [off|] eqn:Hpos.
    + apply position_drop_Some in Hpos as [Hfree Hmin]. split_and!.
      * apply slot_at_Some. eauto.
      * apply not_true_iff_false. rewrite loc_ltb_spec. cbn. lia.
      * intros [i j] Hlt Hge (c' & Hc' & Hj)%slot_at_Some. cbn in *.
        apply loc_ltb_spec in Hlt. apply not_true_iff_false in Hge. rewrite loc_ltb_spec in Hge. cbn in *.
        assert (i = ci) as -> by lia. simplify_eq. apply (Hmin j); [lia|done].
    + specialize (IH (S ci) 0%nat Hrest' ltac:(done)).
      assert (Hhere : ∀ j, (ei ≤ j)%nat → slot_at cs (mkLocation ci j) ≠ Some None).
      { intros j Hj (c' & Hc' & Hj')%slot_at_Some. cbn in *. simplify_eq.
        by apply (position_drop_None _ _ Hpos j). }
      assert (Hstep : ∀ loc', loc_ltb loc' (mkLocation ci ei) = false →
        (∃ j, loc' = mkLocation ci j ∧ (ei ≤ j)%nat) ∨ loc_ltb loc' (mkLocation (S ci) 0) = false).
      { intros [i j] Hge. rewrite <-!not_true_iff_false, !loc_ltb_spec in *. cbn in *.
        destruct (decide (i = ci)) as [->|]; [left; exists j; split; [done|lia]|right; lia]. }
      destruct (first_free_slot rest (S ci) 0) as [loc|].
      * destruct IH as (Hf & Hge & Hmin). split_and!; [done| |].
        -- rewrite <-!not_true_iff_false, !loc_ltb_spec in *. cbn in *. lia.
        -- intros loc' Hlt Hge'. destruct (Hstep _ Hge') as [(j & -> & Hj)|Hge'']; [by apply Hhere|by apply Hmin].
      * intros loc' Hge'. destruct (Hstep _ Hge') as [(j & -> & Hj)|Hge'']; [by apply Hhere|by apply IH].
Qed.

(** ** Operations preserve the invariant *)
Lemma reserved_fmap_Forall (P : ReservedChunks → Prop) cs cs' :
  (λ c, (reserved_chunk c, next_chunk_address c)) <$> cs = (λ c, (reserved_chunk c, next_chunk_address c)) <$> cs' →
  Forall (λ c, P (reserved_chunk c)) cs → Forall (λ c, P (reserved_chunk c)) cs'.
Proof.
  revert cs'. induction cs as [|c cs IH]; intros [|c' cs'] Heq Hall; try done. cbn in Heq.
  injection Heq as Hr _ Htl. apply Forall_cons in Hall as [? ?]. constructor; [congruence|auto].
Qed.

Lemma slot_page_in cs loc o :
  Forall chunk_ok cs → slot_at cs loc = Some o →
  page_in cs (mkPageLocation (loc_chunk loc) (loc_entry loc / Z.to_nat ENTRIES_PER_METADATA_PAGE)).
Proof.
  intros Hcs (c & Hc & Ho)%slot_at_Some. split; cbn [page_chunk page_index].
  - by eapply lookup_lt_Some.
  - apply lookup_lt_Some in Ho. assert (Hlen := chunk_ok_lookup _ _ _ Hcs Hc).
    change (Z.to_nat ENTRIES_PER_METADATA_PAGE) with 101%nat.
    change (Z.to_nat ENTRY_METADATA_PAGES_PER_CHUNK) with 255%nat.
    change ENTRIES_PER_METADATA_CHUNK with 25755 in Hlen.
    pose proof (Nat.div_mod_eq (loc_entry loc) 101). lia.
Qed.

(** Overwriting one slot keeps everything but the free-slot accounting. *)
Lemma set_slot_meta_ok m loc old o start count :
  meta_ok m → slot_at (chunks m) loc = Some old → slot_ok o →
  count = total_free_slots (set_slot (chunks m) loc o) →
  (∀ loc', loc_ltb loc' start = true → slot_at (set_slot (chunks m) loc o) loc' ≠ Some None) →
  (start = mkLocation 0 0 ∨ is_Some (slot_at (set_slot (chunks m) loc o) start)) →
  meta_ok (mkMetadataChunks (set_slot (chunks m) loc o) (mark_page_dirty (dirty_pages m) loc) start count).
Proof.
  intros Hok Hold Ho Hcount Hsearch Hstart. destruct Hok. constructor; cbn; try done.
  - by apply chunks_ok_set_slot.
  - apply (reserved_fmap_Forall (λ r, chunk_count r = 1) (chunks m)); [|done].
    symmetry. apply set_slot_reserved.
  - apply page_insert_in.
    + eapply page_in_length; [|by eapply slot_page_in]. by rewrite length_set_slot.
    + eapply Forall_impl; [done|]. intros p. apply page_in_length. by rewrite length_set_slot.
  - by apply page_insert_sorted.
  - eapply linked_fmap; [symmetry; apply set_slot_reserved|done].
Qed.

Lemma store_entry_metadata_spec m e :
  meta_ok m → 0 < free_slot_count m → record_ok e →
  ∃ m' loc, store_entry_metadata m e = Done (m', loc)
    ∧ chunks m' = set_slot (chunks m) loc (Some e)
    ∧ slot_at (chunks m) loc = Some None
    ∧ (∀ loc', loc_ltb loc' loc = true → slot_at (chunks m) loc' ≠ Some None)
    ∧ free_slot_count m' = free_slot_count m - 1
    ∧ dirty_pages m' = mark_page_dirty (dirty_pages m) loc
    ∧ meta_ok m'.
Proof.
  intros Hok Hpos He. unfold store_entry_metadata.
  assert (Hcs := mo_chunks _ Hok). destruct (free_slot_search_start m) as [ci ei] eqn:Hstart. cbn [loc_chunk loc_entry].
  assert (Hei : Z.of_nat ei ≤ ENTRIES_PER_METADATA_CHUNK).
  { destruct (mo_start _ Hok) as [H0|(o & (c & Hc & Ho)%slot_at_Some)]; rewrite Hstart in *; [by simplify_eq|].
    apply lookup_lt_Some in Ho. rewrite <-(chunk_ok_lookup _ _ _ Hcs Hc). cbn in Ho. lia. }
  pose proof (first_free_slot_spec (chunks m) ci ei Hcs Hei) as Hspec.
  assert (Hsearch := mo_search _ Hok). rewrite Hstart in Hsearch.
  destruct (first_free_slot _ _ _) as [loc|].
  - destruct Hspec as (Hfree & _ & Hmin). cbn [mbind outcome_bind].
    assert (Hmin' : ∀ loc', loc_ltb loc' loc = true → slot_at (chunks m) loc' ≠ Some None).
    { intros loc' Hlt. destruct (loc_ltb loc' (mkLocation ci ei)) eqn:Hb; [by apply Hsearch|by apply Hmin]. }
    eexists _, loc. split; [done|]. split_and!; cbn; try done.
    assert (Hset := slot_at_set_slot (chunks m) loc (Some e) None Hfree).
    eapply set_slot_meta_ok; try done.
    + rewrite (total_free_set_slot _ _ _ _ Hfree), (mo_count _ Hok). cbn. lia.
    + intros loc' Hlt. rewrite Hset. case_decide; [done|by apply Hmin'].
    + right. rewrite Hset, decide_True by done. eauto.
  - exfalso. rewrite (mo_count _ Hok) in Hpos. apply free_slot_exists in Hpos as (loc & Hloc).
    destruct (loc_ltb loc (mkLocation ci ei)) eqn:Hb; [by apply (Hsearch loc)|by apply (Hspec loc)].
Qed.

Lemma free_entry_metadata_spec m loc e :
  meta_ok m → slot_at (chunks m) loc = Some (Some e) →
  ∃ m', free_entry_metadata m loc = Done m'
    ∧ chunks m' = set_slot (chunks m) loc None
    ∧ free_slot_count m' = free_slot_count m + 1
    ∧ dirty_pages m' = mark_page_dirty (dirty_pages m) loc
    ∧ meta_ok m'.
Proof.
  intros Hok Hold. unfold free_entry_metadata. rewrite Hold. cbn.
  eexists. split; [done|]. split_and!; try done.
  assert (Hset := slot_at_set_slot (chunks m) loc None (Some e) Hold).
  eapply set_slot_meta_ok; try done.
  - rewrite (total_free_set_slot _ _ _ _ Hold), (mo_count _ Hok). cbn. lia.
  - intros loc' Hlt. unfold loc_min in Hlt. rewrite Hset.
    destruct (loc_ltb loc (free_slot_search_start m)) eqn:Hb.
    + assert (loc' ≠ loc) by (intros ->; rewrite loc_ltb_spec in Hlt; lia). rewrite decide_False by done.
      apply (mo_search _ Hok). rewrite loc_ltb_spec in *. lia.
    + assert (loc' ≠ loc) by (intros ->; congruence). rewrite decide_False by done. by apply (mo_search _ Hok).
  - unfold loc_min. destruct (loc_ltb loc _).
    + right. rewrite Hset, decide_True by done. eauto.
    + destruct (mo_start _ Hok) as [?|(o & Ho)]; [by left|right].
      rewrite Hset. case_decide; eauto.
Qed.

Lemma linked_snoc cs c' :
  next_chunk_address c' = NO_CHUNK → linked cs →
  linked (alter (set_next (range_start (disk_byte_range (reserved_chunk c')))) (pred (length cs)) cs ++ [c']).
Proof.
  intros Hno. induction cs as [|c cs IH]; [done|]. destruct cs as [|c1 cs].
  - intros _. done.
  - intros [Hn Hl]. specialize (IH Hl). split; [|exact IH].
    rewrite Hn. by destruct cs.
Qed.

Lemma slot_at_snoc cs address i c' loc :
  chunk_entries c' = replicate (Z.to_nat ENTRIES_PER_METADATA_CHUNK) None →
  slot_at (alter (set_next address) i cs ++ [c']) loc =
  match slot_at cs loc with
  | Some o => Some o
  | None => if decide (loc_chunk loc = length cs ∧ Z.of_nat (loc_entry loc) < ENTRIES_PER_METADATA_CHUNK)
            then Some None else None
  end.
Proof.
  intros Hc'. unfold slot_at. destruct (decide (loc_chunk loc < length cs)%nat) as [Hlt|Hge].
  - rewrite lookup_app_l by (by rewrite length_alter). rewrite decide_False by lia.
    destruct (decide (loc_chunk loc = i)) as [<-|Hne].
    + rewrite list_lookup_alter_eq. destruct (cs !! loc_chunk loc) as [c|]; cbn; [|done].
      by destruct (chunk_entries c !! loc_entry loc).
    + rewrite list_lookup_alter_ne by done. by destruct (c ← cs !! loc_chunk loc; chunk_entries c !! loc_entry loc).
  - rewrite (lookup_ge_None_2 cs) by lia. cbn. rewrite lookup_app_r, length_alter by (rewrite length_alter; lia).
    destruct (decide (loc_chunk loc = length cs)) as [->|].
    + rewrite Nat.sub_diag. cbn. rewrite Hc'. case_decide as Hd.
      * apply lookup_replicate_2. lia.
      * apply lookup_ge_None_2. rewrite length_replicate. lia.
    + rewrite decide_False by lia. rewrite (lookup_ge_None_2 [c']) by (cbn; lia). done.
Qed.

(** ** Growing the chain *)
Definition fresh_chunk (r : ReservedChunks) : MetadataChunk :=
  mkMetadataChunk r (replicate (Z.to_nat ENTRIES_PER_METADATA_CHUNK) None) NO_CHUNK true.
Definition link_page (i : nat) : MetadataPageLocation :=
  mkPageLocation i (Z.to_nat ENTRY_METADATA_PAGES_PER_CHUNK).
Definition grow (m : MetadataChunks) (r : ReservedChunks) : MetadataChunks :=
  let n := length (chunks m) in
  mkMetadataChunks
    (alter (set_next (range_start (disk_byte_range r))) (pred n) (chunks m) ++ [fresh_chunk r])
    (page_insert (link_page n)
       (match chunks m with [] => dirty_pages m | _ => page_insert (link_page (pred n)) (dirty_pages m) end))
    (free_slot_search_start m) (free_slot_count m + ENTRIES_PER_METADATA_CHUNK).

Lemma mark_link_page_dirty_eq d i :
  Z.of_nat i < 2 ^ 32 → mark_link_page_dirty d i = Done (page_insert (link_page i) d).
Proof. intros Hi. unfold mark_link_page_dirty. by rewrite (proj2 (Z.ltb_lt _ _) Hi). Qed.

Lemma set_last_chunk_link_eq m address :
  Z.of_nat (length (chunks m)) ≤ 2 ^ 32 →
  set_last_chunk_link m address =
  Done (mkMetadataChunks (alter (set_next address) (pred (length (chunks m))) (chunks m))
     (match chunks m with [] => dirty_pages m | _ => page_insert (link_page (pred (length (chunks m)))) (dirty_pages m) end)
     (free_slot_search_start m) (free_slot_count m)).
Proof.
  intros Hlen. unfold set_last_chunk_link. destruct m as [[|c cs] d st n]; [done|].
  cbn [chunks dirty_pages] in *. rewrite mark_link_page_dirty_eq by (rewrite length_cons in *; cbn; lia). done.
Qed.

Lemma ensure_free_slots_eq m count al :
  Z.of_nat (length (chunks m)) < 2 ^ 32 →
  ensure_free_slots m count al =
  Done (if free_slot_count m <? count
        then '(al', r) ← reserve_chunks al 1; Some (grow m r, al')
        else Some (m, al)).
Proof.
  intros Hlen. unfold ensure_free_slots. destruct (free_slot_count m <? count); [|done].
  destruct (reserve_chunks al 1) as [[al' r]|]; [|done].
  rewrite set_last_chunk_link_eq by lia. cbn [mbind outcome_bind option_bind chunks dirty_pages].
  rewrite length_app, length_alter, Nat.add_1_r. cbn [pred].
  rewrite mark_link_page_dirty_eq by lia. done.
Qed.

Lemma fresh_chunk_ok r : chunk_ok (fresh_chunk r).
Proof.
  split_and!; cbn [fresh_chunk chunk_entries next_chunk_address].
  - rewrite length_replicate. change ENTRIES_PER_METADATA_CHUNK with 25755. lia.
  - by apply Forall_replicate.
  - split; vm_compute; done.
Qed.

Lemma total_free_grow m r :
  total_free_slots (chunks (grow m r)) = total_free_slots (chunks m) + ENTRIES_PER_METADATA_CHUNK.
Proof.
  unfold total_free_slots, grow. cbn [chunks]. rewrite zsum_app, zsum_cons, zsum_nil.
  assert (Hfree : free_slots (chunk_entries (fresh_chunk r)) = ENTRIES_PER_METADATA_CHUNK).
  { cbn [fresh_chunk chunk_entries]. unfold free_slots.
    assert (Hrep : ∀ n, zsum (λ o : option EntryMetadata, if bool_decide (o = None) then 1 else 0)
                          (replicate n None) = Z.of_nat n).
    { induction n as [|n IH]; [done|]. cbn [replicate]. rewrite zsum_cons, IH. rewrite bool_decide_eq_true_2 by done. lia. }
    rewrite Hrep. change ENTRIES_PER_METADATA_CHUNK with 25755. lia. }
  rewrite Hfree, zsum_alter_id by done. lia.
Qed.

Lemma grow_meta_ok m r :
  meta_ok m → chunk_count r = 1 → is_u64 (range_start (disk_byte_range r)) → meta_ok (grow m r).
Proof.
  intros Hok Hr Haddr. constructor.
  - apply Forall_app. split; [|constructor; [apply fresh_chunk_ok|constructor]].
    apply Forall_alter; [by apply mo_chunks|]. by intros c _ (? & ? & _).
  - apply Forall_app. split; [|by constructor]. apply Forall_alter; [by apply mo_single|]. done.
  - rewrite total_free_grow. cbn [free_slot_count grow]. by rewrite (mo_count _ Hok).
  - intros loc Hlt Hs. cbn [chunks grow free_slot_search_start] in *. rewrite slot_at_snoc in Hs by done.
    pose proof (mo_search _ Hok loc Hlt) as Hnot.
    destruct (slot_at (chunks m) loc) as [o|] eqn:Hslot; [by simplify_eq|].
    case_decide as Hd; [|done].
    apply loc_ltb_spec in Hlt.
    destruct (mo_start _ Hok) as [Heq|(o & (c & Hc & Ho)%slot_at_Some)]; [rewrite Heq in Hlt; cbn in Hlt; lia|].
    apply lookup_lt_Some in Hc. lia.
  - cbn [chunks grow free_slot_search_start]. destruct (mo_start _ Hok) as [?|(o & Ho)]; [by left|right].
    rewrite slot_at_snoc by done. rewrite Ho. eauto.
  - assert (Hlen : length (chunks (grow m r)) = S (length (chunks m))).
    { cbn [chunks grow]. rewrite length_app, length_alter, Nat.add_1_r. done. }
    assert (Hold : Forall (page_in (chunks (grow m r))) (dirty_pages m)).
    { eapply Forall_impl; [by apply mo_dirty|]. intros p. apply page_in_length. lia. }
    assert (Hlink : ∀ i, (i ≤ length (chunks m))%nat → page_in (chunks (grow m r)) (link_page i)).
    { intros i Hi. unfold page_in, link_page. cbn [page_chunk page_index]. rewrite Hlen. split; [lia|done]. }
    change (dirty_pages (grow m r)) with
      (page_insert (link_page (length (chunks m)))
        (match chunks m with [] => dirty_pages m
         | _ => page_insert (link_page (pred (length (chunks m)))) (dirty_pages m) end)).
    apply page_insert_in; [apply Hlink; lia|].
    destruct (chunks m) eqn:Hcs; [done|]. apply page_insert_in; [apply Hlink; cbn; lia|done].
  - cbn [dirty_pages grow]. apply page_insert_sorted. assert (Hs := mo_sorted _ Hok).
    destruct (chunks m); [done|by apply page_insert_sorted].
  - apply (linked_snoc (chunks m) (fresh_chunk r)); [done|]. by apply mo_linked.
Qed.

(** ** Properties *)
Lemma default_meta_ok : meta_ok default_metadata.
Proof. constructor; try done; try constructor; try done. Qed.

(** Storing an entry's metadata succeeds exactly while a slot is free: it
    takes the first free slot of the chain, changes no other slot, marks the
    slot's page for writing and keeps the invariant of the metadata. *)
Lemma store_entry_metadata_first_free m e :
  meta_ok m → record_ok e →
  (0 < free_slot_count m →
     ∃ m' loc, store_entry_metadata m e = Done (m', loc) ∧ meta_ok m'
       ∧ slot_at (chunks m) loc = Some None
       ∧ (∀ loc', loc_ltb loc' loc = true → slot_at (chunks m) loc' ≠ Some None)
       ∧ (∀ loc', slot_at (chunks m') loc' = if decide (loc' = loc) then Some (Some e) else slot_at (chunks m) loc')
       ∧ mkPageLocation (loc_chunk loc) (loc_entry loc / Z.to_nat ENTRIES_PER_METADATA_PAGE) ∈ dirty_pages m'
       ∧ free_slot_count m' = free_slot_count m - 1)
  ∧ (free_slot_count m = 0 → store_entry_metadata m e = Panic).
Proof.
  intros Hok He. split.
  - intros Hpos. destruct (store_entry_metadata_spec m e Hok Hpos He) as (m' & loc & ? & Hcs & ? & ? & ? & Hd & ?).
    exists m', loc. split_and!; try done.
    + intros loc'. rewrite Hcs. by eapply slot_at_set_slot.
    + rewrite Hd. apply elem_of_page_insert. by left.
  - intros Hzero. unfold store_entry_metadata.
    destruct (first_free_slot _ _ _) as [loc|] eqn:Hff; [exfalso|done].
    destruct (free_slot_search_start m) as [ci ei] eqn:Hstart. cbn in Hff.
    assert (Hei : Z.of_nat ei ≤ ENTRIES_PER_METADATA_CHUNK).
    { destruct (mo_start _ Hok) as [Heq|(o & (c & Hc & Ho)%slot_at_Some)]; rewrite Hstart in *; [by simplify_eq|].
      apply lookup_lt_Some in Ho. rewrite <-(chunk_ok_lookup _ _ _ (mo_chunks _ Hok) Hc). cbn in Ho. lia. }
    pose proof (first_free_slot_spec (chunks m) ci ei (mo_chunks _ Hok) Hei) as Hspec. rewrite Hff in Hspec.
    destruct Hspec as (Hslot & _). pose proof (total_free_set_slot (chunks m) loc (Some e) None Hslot) as Htot.
    assert (0 ≤ total_free_slots (set_slot (chunks m) loc (Some e))).
    { apply zsum_nonneg. intros. apply free_slots_nonneg. }
    rewrite (mo_count _ Hok) in Hzero. cbn in Htot. lia.
Qed.

(** A chain of one new chunk. *)
Definition sample_metadata : MetadataChunks := grow default_metadata (mkReservedChunks (mkRange 1 2) false).

Lemma sample_metadata_ok : meta_ok sample_metadata.
Proof. apply grow_meta_ok; [apply default_meta_ok|done|split; done]. Qed.

(** Freeing the slot an entry was stored in undoes the store: the slots and
    the count of free slots are what they were; freeing it again panics. *)
Lemma store_free_roundtrip m e m1 loc :
  meta_ok m → record_ok e → 0 < free_slot_count m → store_entry_metadata m e = Done (m1, loc) →
  ∃ m2, free_entry_metadata m1 loc = Done m2 ∧ meta_ok m2
    ∧ (∀ loc', slot_at (chunks m2) loc' = slot_at (chunks m) loc')
    ∧ free_slot_count m2 = free_slot_count m
    ∧ free_entry_metadata m2 loc = Panic.
Proof.
  intros Hok He Hpos Hst.
  destruct (store_entry_metadata_spec m e Hok Hpos He) as (m1' & loc' & Hst' & Hcs & Hnone & _ & Hct & _ & Hok1).
  rewrite Hst in Hst'. injection Hst' as <- <-.
  assert (Hslot : slot_at (chunks m1) loc = Some (Some e)).
  { rewrite Hcs, (slot_at_set_slot _ _ _ _ Hnone), decide_True by done. done. }
  destruct (free_entry_metadata_spec m1 loc e Hok1 Hslot) as (m2 & Hfree & Hcs2 & Hct2 & _ & Hok2).
  exists m2. split_and!; try done; [|lia|].
  - intros loc'. rewrite Hcs2, (slot_at_set_slot _ _ _ _ Hslot), Hcs, (slot_at_set_slot _ _ _ _ Hnone).
    case_decide; congruence.
  - unfold free_entry_metadata. rewrite Hcs2, (slot_at_set_slot _ _ _ _ Hslot), decide_True by done. done.
Qed.

Lemma store_free_roundtrip_witness :
  ∃ m1 loc m2, store_entry_metadata sample_metadata sample_record = Done (m1, loc)
    ∧ free_entry_metadata m1 loc = Done m2 ∧ free_slot_count m2 = ENTRIES_PER_METADATA_CHUNK.
Proof.
  destruct (store_entry_metadata sample_metadata sample_record) as [[m1 loc]|] eqn:Hst; [|by vm_compute in Hst].
  destruct (store_free_roundtrip sample_metadata sample_record m1 loc sample_metadata_ok) as (m2 & ? & _ & _ & Hct & _);
    [repeat split; vm_compute; done|done|done|]. exists m1, loc, m2. split_and!; done.
Defined.

(** C34: providing slots for a write of at most 25755 entries never panics in a
    shard of at most [2^32] chunks: it keeps the metadata when enough slots are
    free, otherwise adds one zeroed chunk, linked from the previous last chunk
    and marked for a full write, and fails, changing nothing, only when no disk
    chunk is free. *)
Theorem ensure_free_slots_grows m count al lo hi owners :
  meta_ok m → alloc_ok lo hi al owners → hi * CHUNK_BYTES ≤ 2 ^ 63 →
  count ≤ ENTRIES_PER_METADATA_CHUNK → Z.of_nat (length (chunks m)) < 2 ^ 32 →
  ∃ r, ensure_free_slots m count al = Done r ∧
    match r with
    | None => free_slot_count m < count ∧ reserve_chunks al 1 = None
    | Some (m', al') =>
        meta_ok m' ∧ count ≤ free_slot_count m'
        ∧ (∀ loc e, slot_at (chunks m') loc = Some (Some e) ↔ slot_at (chunks m) loc = Some (Some e))
        ∧ (count ≤ free_slot_count m → m' = m ∧ al' = al)
        ∧ (free_slot_count m < count → ∃ r, reserve_chunks al 1 = Some (al', r)
             ∧ last (chunks m') = Some (fresh_chunk r) ∧ alloc_ok lo hi al' (r :: owners))
    end.
Proof.
  intros Hok Hal Hhi Hcount Hlen. rewrite ensure_free_slots_eq by done. eexists. split; [done|].
  destruct (Z.ltb_spec (free_slot_count m) count) as [Hlt|Hge].
  - pose proof (reserve_chunks_spec lo hi al owners 1 Hal) as Hspec.
    destruct (reserve_chunks al 1) as [[al' r]|] eqn:Hres; cbn; [|done].
    destruct Hspec as (start & Hr & _ & Hfree & _).
    assert (Hal' : alloc_ok lo hi al' (r :: owners)) by (by eapply reserve_chunks_alloc_ok).
    destruct (owner_range _ _ _ _ _ Hal') as (Hlo & Hhi' & _). rewrite Hr in Hlo, Hhi'. cbn in Hlo, Hhi'.
    pose proof (ao_bounds _ _ _ _ Hal).
    assert (Hok' : meta_ok (grow m r)).
    { apply grow_meta_ok; [done| |].
      - unfold chunk_count. rewrite Hr. cbn. lia.
      - unfold is_u64, disk_byte_range. rewrite Hr. cbn. unfold CHUNK_BYTES in *. lia. }
    split_and!; [done| | |lia|].
    + cbn. assert (0 ≤ free_slot_count m) by (rewrite (mo_count _ Hok); apply zsum_nonneg; intros; apply free_slots_nonneg). lia.
    + intros loc e. cbn [chunks grow]. rewrite slot_at_snoc by done.
      destruct (slot_at (chunks m) loc); [done|]. case_decide; naive_solver.
    + intros _. exists r. split_and!; [done| |done]. cbn [chunks grow]. by rewrite last_snoc.
  - cbn. split_and!; try done; lia.
Qed.

Lemma ensure_free_slots_grows_witness :
  ∃ m' al', ensure_free_slots default_metadata 3 sample_allocator = Done (Some (m', al'))
    ∧ meta_ok m' ∧ 3 ≤ free_slot_count m'.
Proof.
  destruct (ensure_free_slots_grows default_metadata 3 sample_allocator 1 9 [] default_meta_ok sample_allocator_ok
              ltac:(done) ltac:(done) ltac:(done)) as ([[m' al']|] & Hens & Hres); [|by vm_compute in Hens].
  destruct Hres as (? & ? & _). eauto.
Defined.
