(* ===== verification/MetadataWriter.v ===== *)
(** * Writing metadata back ([write_dirty_metadata_pages] of
    [disk_cache/metadata.rs])

    The periodic writer takes the dirty pages under the metadata lock, encodes
    them (a new chunk whole, otherwise single pages) in reverse order, and
    performs the writes one after the other, stopping at the first error.  A round is
    one step here: pages that change while it writes are marked for the next round, as
    their bytes were encoded under the lock. *)

From S2P Require Import Prelude Codec Errors Disk BTree Allocation PageFormat Metadata.

Section writer.
Context `{Hasher} `{StorageFile F}.

(** A write the round will perform: the chunk's index, its address, the bytes. *)
Definition PageWrite : Type := nat * Z * list byte.

(** Marks the link page of every chunk that still needs its full write. *)
Fixpoint mark_full_writes (cs : list MetadataChunk) (chunk_index : nat) (d : list MetadataPageLocation)
  : outcome (list MetadataPageLocation) :=
  match cs with
  | [] => Done d
  | c :: cs =>
      d ← (if needs_full_write c then mark_link_page_dirty d chunk_index else Done d);
      mark_full_writes cs (S chunk_index) d
  end.

(** The write for one dirty page: none for the pages of a new chunk except the
    link page, which stands for the whole chunk. *)
Definition plan_write (cs : list MetadataChunk) (location : MetadataPageLocation) : outcome (option PageWrite) :=
  c ← unwrap (cs !! page_chunk location);
  if needs_full_write c && bool_decide (Z.of_nat (page_index location) ≠ ENTRY_METADATA_PAGES_PER_CHUNK)
  then Done None
  else
    let '(first_page, page_count) :=
      if needs_full_write c then (0%nat, Z.to_nat (ENTRY_METADATA_PAGES_PER_CHUNK + 1))
      else (page_index location, 1%nat) in
    bytes ← encode_pages c (Z.of_nat first_page) page_count;
    let start := range_start (disk_byte_range (reserved_chunk c)) + Z.of_nat first_page * METADATA_PAGE_BYTES in
    Done (Some (page_chunk location, start, bytes)).

Fixpoint plan_all (cs : list MetadataChunk) (locations : list MetadataPageLocation) : outcome (list PageWrite) :=
  match locations with
  | [] => Done []
  | location :: locations =>
      w ← plan_write cs location;
      ws ← plan_all cs locations;
      Done (match w with Some w => w :: ws | None => ws end)
  end.

(** The part of the round under the metadata lock: takes the dirty pages and
    encodes the writes. *)
Definition plan_writes (m : MetadataChunks) : outcome (MetadataChunks * list PageWrite) :=
  dirty ← (match dirty_pages m with [] => Done [] | d => mark_full_writes (chunks m) 0 d end);
  let m := mkMetadataChunks (chunks m) [] (free_slot_search_start m) (free_slot_count m) in
  ws ← plan_all (chunks m) (reverse dirty);
  Done (m, ws).

Definition clear_full_write (c : MetadataChunk) : MetadataChunk :=
  mkMetadataChunk (reserved_chunk c) (chunk_entries c) (next_chunk_address c) false.

(** [chunks[chunk_index].needs_full_write = false] after a whole-chunk write. *)
Definition mark_chunk_written (m : MetadataChunks) (w : PageWrite) : outcome MetadataChunks :=
  let '(chunk_index, _, bytes) := w in
  if Z.of_nat (length bytes) =? CHUNK_BYTES then
    _ ← unwrap (chunks m !! chunk_index);
    Done (mkMetadataChunks (alter clear_full_write chunk_index (chunks m)) (dirty_pages m)
            (free_slot_search_start m) (free_slot_count m))
  else Done m.

(** The write loop. *)
Fixpoint perform_writes (f : F) (m : MetadataChunks) (ws : list PageWrite)
  : outcome (F * MetadataChunks * DataFileResult ()) :=
  match ws with
  | [] => Done (f, m, Ok ())
  | w :: ws =>
      '(f, r) ← write_at f w.1.2 w.2;
      match r with
      | Err e => Done (f, m, Err e)
      | Ok _ => m ← mark_chunk_written m w; perform_writes f m ws
      end
  end.

(** [DiskCacheShard::write_dirty_metadata_pages] *)
Definition write_dirty_metadata_pages (f : F) (m : MetadataChunks) : outcome (F * MetadataChunks * DataFileResult ()) :=
  '(m, ws) ← plan_writes m;
  perform_writes f m ws.

(** ** What is on disk *)
Definition page_address (c : MetadataChunk) (p : nat) : Z :=
  range_start (disk_byte_range (reserved_chunk c)) + Z.of_nat p * METADATA_PAGE_BYTES.
Definition on_disk (d : disk) (c : MetadataChunk) (p : nat) : Prop :=
  disk_read d (page_address c p) (Z.to_nat METADATA_PAGE_BYTES) = chunk_page c p.
Definition last_page : nat := Z.to_nat ENTRY_METADATA_PAGES_PER_CHUNK.

(** Every page that is neither dirty nor part of a chunk still to be written in
    full is on disk as it is in memory. *)
Definition synced (d : disk) (m : MetadataChunks) : Prop :=
  ∀ i c p, chunks m !! i = Some c → (p ≤ last_page)%nat → needs_full_write c = false →
    mkPageLocation i p ∉ dirty_pages m → on_disk d c p.

(** No two metadata chunks share their disk chunk. *)
Definition distinct_chunks (cs : list MetadataChunk) : Prop :=
  NoDup ((λ c, range_start (chunk_numbers (reserved_chunk c))) <$> cs).

(** A planned write before encoding: chunk index, first page, page count. *)
Definition item_of (cs : list MetadataChunk) (location : MetadataPageLocation) : option (nat * nat * nat) :=
  c ← cs !! page_chunk location;
  if needs_full_write c
  then if decide (page_index location = last_page) then Some (page_chunk location, 0%nat, S last_page) else None
  else Some (page_chunk location, page_index location, 1%nat).
Definition encode_item (cs : list MetadataChunk) (item : nat * nat * nat) : PageWrite :=
  let '(i, first, count) := item in
  match cs !! i with
  | Some c => (i, page_address c first, concat (chunk_page c <$> seq first count))
  | None => (i, 0, [])
  end.
Definition covers (item : nat * nat * nat) (i p : nat) : Prop :=
  item.1.1 = i ∧ (item.1.2 ≤ p < item.1.2 + item.2)%nat.
(** The items of a round. *)
Definition all_marked (m : MetadataChunks) (d : list MetadataPageLocation) : Prop :=
  StronglySorted (λ a b, page_cmp a b = Lt) d ∧ Forall (page_in (chunks m)) d ∧
  ∀ q, q ∈ d ↔ q ∈ dirty_pages m ∨ (dirty_pages m ≠ [] ∧
         ∃ i c, chunks m !! i = Some c ∧ needs_full_write c = true ∧ q = link_page i).
End writer.

(** ** Planning a round *)
Section plan.
Context `{Hasher}.

Lemma mark_full_writes_spec cs i d :
  Z.of_nat (i + length cs) ≤ 2 ^ 32 → StronglySorted (λ a b, page_cmp a b = Lt) d →
  ∃ d', mark_full_writes cs i d = Done d' ∧ StronglySorted (λ a b, page_cmp a b = Lt) d' ∧
    ∀ q, q ∈ d' ↔ q ∈ d ∨ ∃ j c, cs !! j = Some c ∧ needs_full_write c = true ∧ q = link_page (i + j).
Proof.
  revert i d. induction cs as [|c cs IH]; intros i d Hlen Hs; cbn [mark_full_writes].
  { exists d. split_and!; try done. intros q. split; [by left|]. intros [?|(j & c & Hj & _)]; [done|].
    by rewrite lookup_nil in Hj. }
  rewrite length_cons in Hlen.
  assert (Htail : ∀ q, (∃ j c0, (c :: cs) !! j = Some c0 ∧ needs_full_write c0 = true ∧ q = link_page (i + j)) ↔
     (needs_full_write c = true ∧ q = link_page i) ∨
     ∃ j c0, cs !! j = Some c0 ∧ needs_full_write c0 = true ∧ q = link_page (S i + j)).
  { intros q. split.
    - intros ([|j] & c0 & Hj & Hn & ->); cbn in Hj.
      + left. rewrite Nat.add_0_r. by simplify_eq.
      + right. exists j, c0. split_and!; try done. f_equal. lia.
    - intros [[Hn ->]|(j & c0 & Hj & Hn & ->)].
      + exists 0%nat, c. rewrite Nat.add_0_r. done.
      + exists (S j), c0. split_and!; try done. f_equal. lia. }
  destruct (needs_full_write c) eqn:Hn.
  - rewrite mark_link_page_dirty_eq by lia. cbn [mbind outcome_bind].
    destruct (IH (S i) (page_insert (link_page i) d)) as (d' & -> & Hs' & Hd'); [lia|by apply page_insert_sorted|].
    exists d'. split_and!; try done. intros q. rewrite Hd', elem_of_page_insert, Htail. naive_solver.
  - cbn [mbind outcome_bind]. destruct (IH (S i) d) as (d' & -> & Hs' & Hd'); [lia|done|].
    exists d'. split_and!; try done. intros q. rewrite Hd', Htail. naive_solver.
Qed.

Lemma plan_write_eq cs location :
  Forall chunk_ok cs → page_in cs location →
  plan_write cs location = Done (encode_item cs <$> item_of cs location).
Proof.
  intros Hcs [Hi Hp]. unfold plan_write, item_of.
  destruct (lookup_lt_is_Some_2 cs (page_chunk location)) as [c Hc]; [done|]. rewrite Hc. cbn [unwrap mbind outcome_bind option_bind].
  rewrite Forall_lookup in Hcs. specialize (Hcs _ _ Hc).
  assert (Hlast : page_index location = last_page ↔ Z.of_nat (page_index location) = ENTRY_METADATA_PAGES_PER_CHUNK).
  { unfold last_page. change ENTRY_METADATA_PAGES_PER_CHUNK with 255. lia. }
  destruct (needs_full_write c); cbn [andb].
  - case_decide as Hd.
    + rewrite bool_decide_eq_false_2 by tauto.
      rewrite (encode_pages_eq c 0 (Z.to_nat (ENTRY_METADATA_PAGES_PER_CHUNK + 1))) by done.
      cbn [mbind outcome_bind fmap option_fmap option_map encode_item]. by rewrite Hc.
    + by rewrite bool_decide_eq_true_2 by tauto.
  - rewrite (encode_pages_eq c (page_index location) 1)
      by (done || (change ENTRY_METADATA_PAGES_PER_CHUNK with 255; change (Z.to_nat ENTRY_METADATA_PAGES_PER_CHUNK) with 255%nat in Hp; lia)).
    cbn [mbind outcome_bind fmap option_fmap option_map encode_item]. by rewrite Hc.
Qed.

Lemma plan_all_eq cs locations :
  Forall chunk_ok cs → Forall (page_in cs) locations →
  plan_all cs locations = Done (encode_item cs <$> omap (item_of cs) locations).
Proof.
  intros Hcs. induction 1 as [|location locations Hin _ IH]; [done|].
  cbn [plan_all]. rewrite plan_write_eq by done. cbn [mbind outcome_bind]. rewrite IH. cbn [mbind outcome_bind].
  cbn [omap list_omap]. by destruct (item_of cs location).
Qed.

Lemma plan_writes_eq m :
  meta_ok m → Z.of_nat (length (chunks m)) ≤ 2 ^ 32 →
  ∃ d, all_marked m d ∧
    plan_writes m = Done (mkMetadataChunks (chunks m) [] (free_slot_search_start m) (free_slot_count m),
                          encode_item (chunks m) <$> omap (item_of (chunks m)) (reverse d)).
Proof.
  intros Hok Hlen. unfold plan_writes.
  assert (Hd : ∃ d, all_marked m d ∧
    match dirty_pages m with [] => Done [] | d => mark_full_writes (chunks m) 0 d end = Done d).
  { destruct (dirty_pages m) as [|q0 d0] eqn:Hdirty.
    - exists []. split; [|done]. split_and!; [constructor|constructor|]. rewrite Hdirty. set_solver.
    - rewrite <-Hdirty. destruct (mark_full_writes_spec (chunks m) 0 (dirty_pages m)) as (d & Hmark & Hs & Hin);
        [done|by apply mo_sorted|]. exists d.
      split; [|by rewrite Hdirty in Hmark |- *]. split_and!; [done| |].
      + apply Forall_forall. intros q [Hq|(j & c & Hj & _ & ->)]%Hin.
        * assert (Hd := mo_dirty _ Hok). rewrite Forall_forall in Hd. auto.
        * split; [by eapply lookup_lt_Some|done].
      + intros q. rewrite Hin. rewrite Hdirty at 3. naive_solver. }
  destruct Hd as (d & Hmarked & ->). exists d. split; [done|]. cbn [mbind outcome_bind chunks].
  destruct Hmarked as (_ & Hin & _).
  rewrite plan_all_eq; [done|by apply mo_chunks|]. by apply Forall_reverse.
Qed.
End plan.

(** ** Performing a round *)
Definition item_ok (cs : list MetadataChunk) (item : nat * nat * nat) : Prop :=
  ∃ c, cs !! item.1.1 = Some c ∧
    ((item.1.2 = 0%nat ∧ item.2 = S last_page)
     ∨ (item.2 = 1%nat ∧ (item.1.2 ≤ last_page)%nat ∧ needs_full_write c = false)).

Section perform.
Context `{Hasher} `{StorageFileOk F}.

Lemma item_of_ok cs d item : Forall (page_in cs) d → item ∈ omap (item_of cs) d → item_ok cs item.
Proof.
  intros Hd (q & Hq & Hi)%list_elem_of_omap. unfold item_of in Hi.
  rewrite Forall_forall in Hd. destruct (Hd _ Hq) as [_ Hp].
  destruct (cs !! page_chunk q) as [c|] eqn:Hc; [|done]. cbn in Hi. exists c.
  destruct (needs_full_write c) eqn:Hn.
  - case_decide; [|done]. simplify_eq. cbn. auto.
  - simplify_eq. cbn. auto.
Qed.

(** The chunks a round works on. *)
Definition chunks_ok (cs : list MetadataChunk) : Prop :=
  Forall chunk_ok cs ∧ distinct_chunks cs ∧
  Forall (λ c, chunk_count (reserved_chunk c) = 1 ∧ 0 ≤ range_start (chunk_numbers (reserved_chunk c))) cs.

Lemma page_address_lower c p :
  page_address c p = range_start (chunk_numbers (reserved_chunk c)) * 1048576 + Z.of_nat p * 4096.
Proof. done. Qed.

Lemma pages_disjoint cs i c p j c' first count :
  distinct_chunks cs → cs !! i = Some c → cs !! j = Some c' →
  (p ≤ last_page)%nat → (first + count ≤ S last_page)%nat → ¬ covers (j, first, count) i p →
  page_address c p + 4096 ≤ page_address c' first
  ∨ page_address c' first + Z.of_nat count * 4096 ≤ page_address c p.
Proof.
  intros Hd Hi Hj Hp Hfc Hno. rewrite !page_address_lower.
  unfold last_page in *. change (Z.to_nat ENTRY_METADATA_PAGES_PER_CHUNK) with 255%nat in *.
  unfold covers in Hno. cbn in Hno. destruct (decide (j = i)) as [->|Hne].
  - simplify_eq. lia.
  - assert (range_start (chunk_numbers (reserved_chunk c)) ≠ range_start (chunk_numbers (reserved_chunk c'))).
    { intros Heq. apply Hne. eapply (NoDup_lookup _ j i); [exact Hd| |].
      - rewrite list_lookup_fmap, Hj. cbn. by rewrite <-Heq.
      - by rewrite list_lookup_fmap, Hi. }
    lia.
Qed.

Lemma length_item_bytes c first count :
  chunk_ok c → (first + count ≤ S last_page)%nat →
  Z.of_nat (length (concat (chunk_page c <$> seq first count))) = Z.of_nat count * 4096.
Proof.
  intros Hok Hfc. rewrite (length_concat_const 4096), length_fmap, length_seq; [lia|].
  apply Forall_fmap, Forall_forall. intros i Hi%elem_of_seq. apply length_chunk_page; [done|].
  unfold last_page in Hfc. change ENTRY_METADATA_PAGES_PER_CHUNK with 255.
  change (Z.to_nat ENTRY_METADATA_PAGES_PER_CHUNK) with 255%nat in Hfc. lia.
Qed.

Lemma item_bounds cs item : item_ok cs item → (0 < item.2)%nat ∧ (item.1.2 + item.2 ≤ S last_page)%nat.
Proof. intros (c & _ & [[-> ->]|(-> & ? & _)]); lia. Qed.

(** The effect of one write of the round. *)
Lemma write_item f cs item :
  chunks_ok cs → item_ok cs item →
  ∃ f' r, write_at f (encode_item cs item).1.2 (encode_item cs item).2 = Done (f', r)
    ∧ capacity f' = capacity f
    ∧ (∀ i c p, cs !! i = Some c → (p ≤ last_page)%nat → ¬ covers item i p →
         disk_read (contents f') (page_address c p) (Z.to_nat METADATA_PAGE_BYTES)
         = disk_read (contents f) (page_address c p) (Z.to_nat METADATA_PAGE_BYTES))
    ∧ (r = Ok () → ∀ i c p, cs !! i = Some c → covers item i p → on_disk (contents f') c p).
Proof.
  intros (Hcs & Hdist & Hres) Hitem. destruct (item_bounds _ _ Hitem) as [Hpos Hfc].
  destruct item as [[j first] count]. cbn in Hpos, Hfc.
  destruct Hitem as (c' & Hj & _). cbn in Hj. unfold encode_item. rewrite Hj. cbn [fst snd].
  rewrite Forall_lookup in Hcs, Hres. assert (Hc' := Hcs _ _ Hj). destruct (Hres _ _ Hj) as [_ Hstart].
  set (bytes := concat (chunk_page c' <$> seq first count)).
  assert (Hlen : Z.of_nat (length bytes) = Z.of_nat count * 4096) by (by apply length_item_bytes).
  assert (Haddr : aligned (page_address c' first)).
  { rewrite page_address_lower. replace (_ + _) with ((range_start (chunk_numbers (reserved_chunk c')) * 256 + Z.of_nat first) * 4096) by lia.
    by apply Z.mod_mul. }
  assert (Hal : aligned (Z.of_nat (length bytes))) by (rewrite Hlen; by apply Z.mod_mul).
  unfold write_at. rewrite !aligned_b by done. cbn [assert_that mbind outcome_bind].
  assert (Hnn : 0 ≤ page_address c' first) by (rewrite page_address_lower; lia).
  destruct (write_padded_ok f (page_address c' first) (Z.of_nat (length bytes)) bytes Hnn Haddr Hal ltac:(lia))
    as (f' & r & -> & Hcap & Hout & Hok & _).
  exists f', r. split_and!; try done.
  - intros i c p Hi Hp Hno. apply disk_read_ext. intros a Ha. apply Hout. rewrite Hlen.
    destruct (pages_disjoint cs i c p j c' first count Hdist Hi Hj Hp Hfc Hno);
      unfold METADATA_PAGE_BYTES in Ha; lia.
  - intros -> i c p Hi [<- Hp]. cbn in Hi, Hp. rewrite Hj in Hi. injection Hi as <-. destruct (Hok eq_refl) as [_ Hcont].
    unfold on_disk. rewrite (disk_read_ext _ (disk_write (contents f) (page_address c' first) bytes)).
    2:{ intros a _. rewrite Hcont. replace (_ - _) with 0 by lia. cbn. by rewrite app_nil_r. }
    assert (Hsplit : seq first count = seq first (p - first) ++ [p] ++ seq (S p) (first + count - S p)).
    { replace count with ((p - first) + (1 + (first + count - S p)))%nat at 1 by lia.
      rewrite seq_app. f_equal. cbn. f_equal; [lia|]. f_equal. lia. }
    unfold bytes. rewrite Hsplit, !fmap_app, !concat_app. cbn [fmap list_fmap concat]. rewrite app_nil_r.
    assert (Hpre := length_item_bytes c' first (p - first) Hc' ltac:(lia)).
    replace (page_address c' p) with (page_address c' first + Z.of_nat (length (concat (chunk_page c' <$> seq first (p - first)))))
      by (rewrite !page_address_lower; lia).
    assert (length (chunk_page c' p) = Z.to_nat METADATA_PAGE_BYTES) as <-.
    { apply length_chunk_page; [done|]. unfold last_page in Hfc. change ENTRY_METADATA_PAGES_PER_CHUNK with 255.
      change (Z.to_nat ENTRY_METADATA_PAGES_PER_CHUNK) with 255%nat in Hfc. lia. }
    apply disk_read_write_part.
Qed.

(** Chunk images that differ at most in [needs_full_write]. *)
Definition same_chunks (cs cs' : list MetadataChunk) : Prop := clear_full_write <$> cs' = clear_full_write <$> cs.

Lemma same_chunks_lookup cs cs' i c :
  same_chunks cs cs' → cs !! i = Some c → ∃ c', cs' !! i = Some c' ∧ clear_full_write c' = clear_full_write c.
Proof.
  intros Hs Hi. assert (Heq : clear_full_write <$> (cs' !! i) = clear_full_write <$> (cs !! i))
    by (rewrite <-!list_lookup_fmap; by f_equal).
  rewrite Hi in Heq. apply fmap_Some in Heq as (c' & ? & ?). eauto.
Qed.

Lemma same_chunks_pages c c' p :
  clear_full_write c' = clear_full_write c → chunk_page c' p = chunk_page c p ∧ page_address c' p = page_address c p.
Proof. destruct c, c'. cbn. by intros [= -> -> ->]. Qed.

Lemma clear_chunks_ok cs i : chunks_ok cs → chunks_ok (alter clear_full_write i cs).
Proof.
  intros (Hcs & Hd & Hr). split_and!.
  - apply Forall_alter; [done|]. by intros.
  - unfold distinct_chunks. by rewrite fmap_alter_id.
  - apply Forall_alter; [done|]. by intros.
Qed.

Lemma encode_item_clear cs i item : encode_item (alter clear_full_write i cs) item = encode_item cs item.
Proof.
  destruct item as [[j first] count]. cbn. destruct (decide (j = i)) as [->|Hne].
  - rewrite list_lookup_alter_eq. by destruct (cs !! i).
  - by rewrite list_lookup_alter_ne.
Qed.

Lemma item_ok_clear cs i item : item_ok cs item → item_ok (alter clear_full_write i cs) item.
Proof.
  intros (c & Hc & Hi). destruct (decide (item.1.1 = i)) as [<-|Hne].
  - exists (clear_full_write c). rewrite list_lookup_alter_eq, Hc. naive_solver.
  - exists c. by rewrite list_lookup_alter_ne.
Qed.

(** The chunks after a successful write of the item. *)
Definition written (item : nat * nat * nat) (cs : list MetadataChunk) : list MetadataChunk :=
  if decide (item.2 = S last_page) then alter clear_full_write item.1.1 cs else cs.

Lemma mark_chunk_written_eq m item :
  chunks_ok (chunks m) → item_ok (chunks m) item →
  mark_chunk_written m (encode_item (chunks m) item) =
  Done (mkMetadataChunks (written item (chunks m)) (dirty_pages m) (free_slot_search_start m) (free_slot_count m)).
Proof.
  intros (Hcs & _) Hitem. destruct (item_bounds _ _ Hitem) as [_ Hfc].
  destruct item as [[j first] count], Hitem as (c & Hj & _). cbn in Hj, Hfc. unfold encode_item, written. rewrite Hj.
  unfold mark_chunk_written. rewrite Forall_lookup in Hcs.
  rewrite length_item_bytes by eauto. cbn [fst snd]. unfold last_page in *.
  change (Z.to_nat ENTRY_METADATA_PAGES_PER_CHUNK) with 255%nat in *.
  case_decide as Hd.
  - subst count. change (_ =? _) with true. cbn iota. by rewrite Hj.
  - rewrite (proj2 (Z.eqb_neq _ _)) by (unfold CHUNK_BYTES; lia). by destruct m.
Qed.

Lemma written_ok item cs :
  same_chunks cs (written item cs) ∧ (chunks_ok cs → chunks_ok (written item cs))
  ∧ (∀ it, item_ok cs it → item_ok (written item cs) it)
  ∧ (∀ it, encode_item (written item cs) it = encode_item cs it)
  ∧ ∀ i c, written item cs !! i = Some c → needs_full_write c = true →
      cs !! i = Some c ∧ (item.1.1 ≠ i ∨ item.2 ≠ S last_page).
Proof.
  unfold written, same_chunks. case_decide as Hd; [|split_and!; try done; by eauto]. split_and!.
  - by apply fmap_alter_id.
  - apply clear_chunks_ok.
  - intros it. apply item_ok_clear.
  - intros it. apply encode_item_clear.
  - intros i c Hc Hn. destruct (decide (item.1.1 = i)) as [<-|Hne].
    + rewrite list_lookup_alter_eq in Hc. apply fmap_Some in Hc as (c0 & _ & ->). done.
    + rewrite list_lookup_alter_ne in Hc by done. eauto.
Qed.

(** Every item that writes a link page comes after the whole-chunk write of
    every later chunk that needs one. *)
Definition links_last (cs : list MetadataChunk) (items : list (nat * nat * nat)) : Prop :=
  ∀ pre item post i j c, items = pre ++ item :: post → covers item i last_page → (i < j)%nat →
    cs !! j = Some c → needs_full_write c = true → (j, 0%nat, S last_page) ∈ pre.

Lemma links_last_tail cs item items : links_last cs (item :: items) → links_last (written item cs) items.
Proof.
  intros Hl pre it post i j c -> Hcov Hij Hc Hn.
  destruct (written_ok item cs) as (_ & _ & _ & _ & Hnfw). destruct (Hnfw _ _ Hc Hn) as [Hc' Hne].
  assert (Hin := Hl (item :: pre) it post i j c eq_refl Hcov Hij Hc' Hn).
  apply elem_of_cons in Hin as [<-|Hin]; [|done]. cbn in Hne. naive_solver.
Qed.

Lemma perform_writes_spec f m items :
  chunks_ok (chunks m) → Forall (item_ok (chunks m)) items →
  ∃ f' m' r, perform_writes f m (encode_item (chunks m) <$> items) = Done (f', m', r)
    ∧ capacity f' = capacity f
    ∧ same_chunks (chunks m) (chunks m') ∧ dirty_pages m' = dirty_pages m
    ∧ free_slot_search_start m' = free_slot_search_start m ∧ free_slot_count m' = free_slot_count m
    ∧ (∀ i c, chunks m' !! i = Some c → needs_full_write c = true → chunks m !! i = Some c)
    ∧ (r = Ok () → ∀ i c p, chunks m !! i = Some c → (p ≤ last_page)%nat →
         (∃ item, item ∈ items ∧ covers item i p) ∨ on_disk (contents f) c p → on_disk (contents f') c p)
    ∧ (r = Ok () → ∀ i c, chunks m' !! i = Some c → (i, 0%nat, S last_page) ∈ items → needs_full_write c = false)
    ∧ (links_last (chunks m) items → ∀ i j c c', (i < j)%nat → chunks m !! i = Some c →
         chunks m' !! j = Some c' → needs_full_write c' = true →
         disk_read (contents f') (page_address c last_page) (Z.to_nat METADATA_PAGE_BYTES)
         = disk_read (contents f) (page_address c last_page) (Z.to_nat METADATA_PAGE_BYTES)).
Proof.
  revert f m. induction items as [|item items IH]; intros f m Hcs Hitems.
  { exists f, m, (Ok ()). cbn. split_and!; try done; [|set_solver]. intros _ i c p _ _ [(it & Hit & _)|?]; [set_solver|done]. }
  apply Forall_cons in Hitems as [Hitem Hitems]. cbn [fmap list_fmap perform_writes].
  destruct (write_item f (chunks m) item Hcs Hitem) as (f1 & r1 & -> & Hcap & Hkeep & Hput). cbn [mbind outcome_bind].
  assert (Hlink : links_last (chunks m) (item :: items) → ∀ i j c c', (i < j)%nat →
     chunks m !! i = Some c → chunks m !! j = Some c' → needs_full_write c' = true →
     disk_read (contents f1) (page_address c last_page) (Z.to_nat METADATA_PAGE_BYTES)
     = disk_read (contents f) (page_address c last_page) (Z.to_nat METADATA_PAGE_BYTES)).
  { intros Hl i j c c' Hij Hi Hj Hn. apply (Hkeep i); [done|done|]. intros Hcov.
    specialize (Hl [] item items i j c' eq_refl Hcov Hij Hj Hn). by apply elem_of_nil in Hl. }
  destruct r1 as [[]|e].
  2:{ exists f1, m, (Err e). split_and!; try done. }
  rewrite mark_chunk_written_eq by done. cbn [mbind outcome_bind].
  destruct (written_ok item (chunks m)) as (Hsame & Hok1 & Hitem1 & Henc & Hnfw).
  set (m1 := mkMetadataChunks _ _ _ _).
  assert (Hitems1 : Forall (item_ok (chunks m1)) items) by (eapply Forall_impl; [exact Hitems|]; auto).
  destruct (IH f1 m1 (Hok1 Hcs) Hitems1) as (f' & m' & r & Hrun & Hcap' & Hsame' & Hd & Hst & Hct & Hn' & Hdisk & Hfull & Hlk).
  rewrite (list_fmap_ext _ (encode_item (chunks m))) in Hrun by (intros ???; apply Henc).
  exists f', m', r. rewrite Hrun. split_and!; try done.
  - congruence.
  - unfold same_chunks in *. rewrite Hsame'. exact Hsame.
  - intros i c Hc Hn. specialize (Hn' _ _ Hc Hn). by apply (Hnfw i c Hn').
  - intros -> i c p Hi Hp Hor. destruct (same_chunks_lookup _ _ _ _ Hsame Hi) as (c1 & Hi1 & Heq).
    destruct (same_chunks_pages _ _ p Heq) as [Hpg Hpa].
    assert (on_disk (contents f') c1 p); [|by unfold on_disk in *; rewrite Hpg, Hpa in *].
    apply (Hdisk eq_refl i c1 p Hi1 Hp).
    assert (Hold : on_disk (contents f1) c p ∨ ∃ it, it ∈ items ∧ covers it i p).
    { destruct Hor as [(it & [->|Hit]%elem_of_cons & Hcov)|Hon]; [left; by eapply Hput|eauto|].
      destruct (decide (item.1.1 = i ∧ (item.1.2 ≤ p < item.1.2 + item.2)%nat)) as [Hcov|Hno].
      - left. by eapply Hput.
      - left. unfold on_disk in *. rewrite (Hkeep i) by done. done. }
    destruct Hold as [Hon|Hex]; [right|by left]. unfold on_disk in *. by rewrite Hpg, Hpa.
  - intros -> i c Hc [Heq|Hit]%elem_of_cons; [|by eapply Hfull].
    destruct (needs_full_write c) eqn:Hn; [|done]. destruct (Hnfw i c (Hn' _ _ Hc Hn) Hn) as [_ Hne].
    subst item. cbn in Hne. naive_solver.
  - intros Hl i j c c' Hij Hi Hj Hn.
    destruct (same_chunks_lookup _ _ _ _ Hsame Hi) as (c1 & Hi1 & Heq).
    destruct (same_chunks_pages _ _ last_page Heq) as [_ Hpa]. rewrite <-Hpa.
    rewrite (Hlk (links_last_tail _ _ _ Hl) i j c1 c' Hij Hi1 Hj Hn), Hpa.
    destruct (Hnfw j c' (Hn' _ _ Hj Hn) Hn) as [Hj0 _]. by eapply Hlink.
Qed.
End perform.

(** ** A whole round *)
Lemma omap_split {A B} (g : A → option B) (l : list A) pre x post :
  omap g l = pre ++ x :: post →
  ∃ l1 a l2, l = l1 ++ a :: l2 ∧ omap g l1 = pre ∧ g a = Some x ∧ omap g l2 = post.
Proof.
  revert pre. induction l as [|a l IH]; intros pre Heq; cbn in Heq; [by destruct pre|].
  destruct (g a) as [y|] eqn:Hy.
  - destruct pre as [|z pre]; cbn in Heq; injection Heq as -> Heq.
    + by exists [], a, l.
    + destruct (IH _ Heq) as (l1 & b & l2 & -> & ? & ? & ?). exists (a :: l1), b, l2. cbn. rewrite Hy.
      split_and!; congruence.
  - destruct (IH _ Heq) as (l1 & b & l2 & -> & ? & ? & ?). exists (a :: l1), b, l2. cbn. rewrite Hy. done.
Qed.

Lemma sorted_reverse_before d l1 q l2 x :
  StronglySorted (λ a b, page_cmp a b = Lt) d → reverse d = l1 ++ q :: l2 →
  x ∈ d → page_cmp q x = Lt → x ∈ l1.
Proof.
  intros Hs Heq Hx Hlt. apply (f_equal reverse) in Heq. rewrite reverse_involutive, reverse_app, reverse_cons in Heq.
  subst d. rewrite <-app_assoc in *. cbn in *.
  apply StronglySorted_app in Hs as (Hs & _ & _).
  apply elem_of_app in Hx as [Hx|[->|Hx]%elem_of_cons].
  - assert (Hc : page_cmp x q = Lt) by (apply Hs; [done|left]). rewrite page_cmp_lt in *. lia.
  - rewrite page_cmp_lt in *. lia.
  - by apply elem_of_reverse.
Qed.

Lemma round_links_last m d :
  all_marked m d → links_last (chunks m) (omap (item_of (chunks m)) (reverse d)).
Proof.
  intros (Hs & Hin & Hd) pre item post i j c Heq [Hi Hlast] Hij Hj Hn.
  apply omap_split in Heq as (l1 & q & l2 & Hrev & <- & Hq & _).
  assert (Hqd : q ∈ d) by (apply elem_of_reverse; rewrite Hrev; set_solver).
  assert (Hlink : link_page j ∈ d).
  { apply Hd. right. split; [|by exists j, c]. intros Hnil. apply Hd in Hqd as [Hqd|[? _]]; [|done].
    rewrite Hnil in Hqd. set_solver. }
  apply list_elem_of_omap. exists (link_page j). split.
  - eapply sorted_reverse_before; [done|done|done|]. apply page_cmp_lt. left.
    unfold item_of in Hq. destruct (chunks m !! page_chunk q) as [c0|]; [|done]. cbn in Hq.
    destruct (needs_full_write c0); [case_decide; [|done]|]; simplify_eq; cbn in *; lia.
  - unfold item_of, link_page. cbn. rewrite Hj. cbn. rewrite Hn. by rewrite decide_True.
Qed.

Lemma round_covers m d i c p :
  all_marked m d → chunks m !! i = Some c → (p ≤ last_page)%nat →
  (if needs_full_write c then dirty_pages m ≠ [] else mkPageLocation i p ∈ dirty_pages m) →
  ∃ item, item ∈ omap (item_of (chunks m)) (reverse d) ∧ covers item i p
     ∧ (needs_full_write c = true → item = (i, 0%nat, S last_page)).
Proof.
  intros (_ & _ & Hd) Hi Hp Hdirty. destruct (needs_full_write c) eqn:Hn.
  - exists (i, 0%nat, S last_page). split_and!; [|split; cbn; lia|done].
    apply list_elem_of_omap. exists (link_page i). split.
    + apply elem_of_reverse, Hd. right. split; [done|by exists i, c].
    + unfold item_of, link_page. cbn. rewrite Hi. cbn. rewrite Hn. by rewrite decide_True.
  - exists (i, p, 1%nat). split_and!; [|split; cbn; lia|done].
    apply list_elem_of_omap. exists (mkPageLocation i p). split.
    + apply elem_of_reverse, Hd. by left.
    + unfold item_of. cbn. rewrite Hi. cbn. by rewrite Hn.
Qed.

Lemma slot_at_clear cs loc : slot_at (clear_full_write <$> cs) loc = slot_at cs loc.
Proof. unfold slot_at. rewrite list_lookup_fmap. by destruct (cs !! loc_chunk loc). Qed.

Lemma same_chunks_slots cs cs' loc : same_chunks cs cs' → slot_at cs' loc = slot_at cs loc.
Proof. intros Hs. by rewrite <-slot_at_clear, Hs, slot_at_clear. Qed.

Lemma same_chunks_Forall (P : MetadataChunk → Prop) cs cs' :
  (∀ c, P (clear_full_write c) ↔ P c) → same_chunks cs cs' → Forall P cs → Forall P cs'.
Proof.
  intros HP Hs Hcs. assert (Hclr : Forall P (clear_full_write <$> cs')).
  { rewrite Hs. apply Forall_fmap. eapply Forall_impl; [exact Hcs|]. intros c Hc. by apply HP. }
  rewrite Forall_fmap in Hclr. eapply Forall_impl; [exact Hclr|]. intros c Hc. by apply HP.
Qed.

Lemma same_chunks_reserved cs cs' :
  same_chunks cs cs' →
  (λ c, (reserved_chunk c, next_chunk_address c)) <$> cs' = (λ c, (reserved_chunk c, next_chunk_address c)) <$> cs.
Proof.
  intros Hs. apply (f_equal (fmap (λ c, (reserved_chunk c, next_chunk_address c)))) in Hs.
  by rewrite <-!list_fmap_compose in Hs.
Qed.

Lemma same_chunks_free cs cs' : same_chunks cs cs' → total_free_slots cs' = total_free_slots cs.
Proof.
  intros Hs. assert (Hf : ∀ l, total_free_slots (clear_full_write <$> l) = total_free_slots l).
  { induction l as [|c l IH]; [done|]. unfold total_free_slots in *. cbn [fmap list_fmap]. rewrite !zsum_cons, IH. done. }
  by rewrite <-Hf, Hs, Hf.
Qed.

Lemma same_chunks_meta_ok m m' :
  meta_ok m → same_chunks (chunks m) (chunks m') → dirty_pages m' = [] →
  free_slot_search_start m' = free_slot_search_start m → free_slot_count m' = free_slot_count m → meta_ok m'.
Proof.
  intros Hok Hs Hd Hst Hct. constructor.
  - eapply same_chunks_Forall; [|exact Hs|by apply mo_chunks]. done.
  - eapply same_chunks_Forall; [|exact Hs|by apply mo_single]. done.
  - rewrite (same_chunks_free _ _ Hs), Hct. by apply mo_count.
  - intros loc. rewrite Hst, (same_chunks_slots _ _ loc Hs). by apply mo_search.
  - rewrite Hst, (same_chunks_slots _ _ _ Hs). by apply mo_start.
  - rewrite Hd. constructor.
  - rewrite Hd. constructor.
  - eapply linked_fmap; [|by apply mo_linked]. symmetry. by apply same_chunks_reserved.
Qed.

Section round.
Context `{Hasher} `{StorageFileOk F}.

Lemma write_round_spec f m :
  meta_ok m → chunks_ok (chunks m) → Z.of_nat (length (chunks m)) ≤ 2 ^ 32 →
  ∃ f' m' r, write_dirty_metadata_pages f m = Done (f', m', r)
    ∧ capacity f' = capacity f ∧ meta_ok m' ∧ same_chunks (chunks m) (chunks m') ∧ dirty_pages m' = []
    ∧ (∀ i c, chunks m' !! i = Some c → needs_full_write c = true → chunks m !! i = Some c)
    ∧ (r = Ok () → synced (contents f) m → synced (contents f') m'
         ∧ (dirty_pages m ≠ [] → ∀ i c, chunks m' !! i = Some c →
              needs_full_write c = false ∧ ∀ p, (p ≤ last_page)%nat → on_disk (contents f') c p))
    ∧ (∀ i j c c', (i < j)%nat → chunks m !! i = Some c → chunks m' !! j = Some c' → needs_full_write c' = true →
         disk_read (contents f') (page_address c last_page) (Z.to_nat METADATA_PAGE_BYTES)
         = disk_read (contents f) (page_address c last_page) (Z.to_nat METADATA_PAGE_BYTES)).
Proof.
  intros Hok Hcs Hlen. destruct (plan_writes_eq m Hok Hlen) as (d & Hmarked & Hplan).
  set (items := omap (item_of (chunks m)) (reverse d)) in *.
  assert (Hitems : Forall (item_ok (chunks m)) items).
  { apply Forall_forall. intros item. apply item_of_ok. apply Forall_reverse, Hmarked. }
  set (m0 := mkMetadataChunks (chunks m) [] (free_slot_search_start m) (free_slot_count m)) in *.
  destruct (perform_writes_spec f m0 items Hcs Hitems)
    as (f' & m' & r & Hrun & Hcap & Hsame & Hd & Hst & Hct & Hnfw & Hdisk & Hfull & Hlink).
  exists f', m', r. unfold write_dirty_metadata_pages. rewrite Hplan. cbn [mbind outcome_bind].
  assert (Hok' : meta_ok m') by (eapply same_chunks_meta_ok; eauto).
  (* a page of a chunk is on disk after a successful round unless the round wrote nothing of a new chunk *)
  assert (Hpages : r = Ok () → synced (contents f) m → ∀ i c p, chunks m' !! i = Some c → (p ≤ last_page)%nat →
    needs_full_write c = false ∨ dirty_pages m ≠ [] → on_disk (contents f') c p ∧ needs_full_write c = false).
  { intros Hr Hsync i c p Hi Hp Hor.
    assert (Hsame' : same_chunks (chunks m') (chunks m)) by (symmetry; exact Hsame).
    destruct (same_chunks_lookup _ _ _ _ Hsame' Hi) as (c0 & Hi0 & Heq).
    destruct (same_chunks_pages _ _ p Heq) as [Hpg Hpa].
    assert (Hcase : (∃ item, item ∈ items ∧ covers item i p) ∨ on_disk (contents f) c0 p).
    { destruct (needs_full_write c0) eqn:Hn0.
      - left. destruct (round_covers m d i c0 p Hmarked Hi0 Hp) as (item & Hitem & Hcov & _); [|by eauto].
        rewrite Hn0. intros Hnil. destruct Hor as [Hn|]; [|done].
        assert (Hempty : items = []).
        { destruct Hmarked as (_ & _ & Hdd). unfold items. destruct d as [|q d']; [done|].
          exfalso. destruct (proj1 (Hdd q) ltac:(left)) as [Hq|[? _]]; [|done]. rewrite Hnil in Hq. set_solver. }
        rewrite Hempty in Hrun. cbn in Hrun. injection Hrun as _ <- _. cbn in Hi. congruence.
      - destruct (decide (mkPageLocation i p ∈ dirty_pages m)) as [Hin|Hnin].
        + left. destruct (round_covers m d i c0 p Hmarked Hi0 Hp) as (item & ? & ? & _); [by rewrite Hn0|eauto].
        + right. by apply (Hsync i). }
    split.
    - specialize (Hdisk Hr i c0 p Hi0 Hp Hcase). unfold on_disk in *. by rewrite <-Hpg, <-Hpa.
    - destruct (needs_full_write c) eqn:Hn; [|done]. exfalso.
      assert (Hi1 : chunks m !! i = Some c) by exact (Hnfw _ _ Hi Hn).
      destruct Hor as [?|Hdirty]; [done|].
      destruct (round_covers m d i c p Hmarked Hi1 Hp) as (item & Hitem & _ & Hfi); [by rewrite Hn|].
      rewrite (Hfi Hn) in Hitem. by rewrite (Hfull Hr i c Hi Hitem) in Hn. }
  split_and!; try done.
  - intros Hr Hsync. split.
    + intros i c p Hi Hp Hn _. destruct (Hpages Hr Hsync i c p Hi Hp); auto.
    + intros Hdirty i c Hi. split; [|intros p Hp]; [|by apply (Hpages Hr Hsync i c p Hi Hp); auto].
      by destruct (Hpages Hr Hsync i c 0%nat Hi ltac:(lia)); auto.
  - exact (Hlink (round_links_last m d Hmarked)).
Qed.
End round.

(** A shard with one new metadata chunk over a file of nine chunks. *)
Definition sample_file (faults : list bool) : RamFile := mkRamFile (9 * CHUNK_BYTES) (λ _, Byte.x00) faults.

Lemma sample_chunks_ok : chunks_ok (chunks sample_metadata).
Proof.
  split_and!.
  - constructor; [apply fresh_chunk_ok|constructor].
  - apply NoDup_singleton.
  - constructor; [split; done|constructor].
Qed.

(** C19: a link is never written before the chunk it leads to: whatever write of
    a round fails, a chunk that is still to be written in full after the round
    has the link pages of all chunks before it unchanged on disk. *)
Theorem failed_round_keeps_links `{Hasher} `{StorageFileOk F} (f : F) m :
  meta_ok m → chunks_ok (chunks m) → Z.of_nat (length (chunks m)) ≤ 2 ^ 32 →
  ∃ f' m' r, write_dirty_metadata_pages f m = Done (f', m', r) ∧
    ∀ i j c c', (i < j)%nat → chunks m !! i = Some c → chunks m' !! j = Some c' → needs_full_write c' = true →
      disk_read (contents f') (page_address c last_page) (Z.to_nat METADATA_PAGE_BYTES)
      = disk_read (contents f) (page_address c last_page) (Z.to_nat METADATA_PAGE_BYTES).
Proof.
  intros Hok Hcs Hlen.
  destruct (write_round_spec f m Hok Hcs Hlen) as (f' & m' & r & ? & _ & _ & _ & _ & _ & _ & Hl). eauto.
Qed.

Definition sample_metadata2 : MetadataChunks := grow sample_metadata (mkReservedChunks (mkRange 2 3) false).

Lemma sample_metadata2_ok : meta_ok sample_metadata2 ∧ chunks_ok (chunks sample_metadata2).
Proof.
  split; [apply grow_meta_ok; [apply sample_metadata_ok|done|split; done]|]. split_and!.
  - apply Forall_app. split; [|by constructor; [apply fresh_chunk_ok|constructor]].
    apply Forall_alter; [apply sample_chunks_ok|]. by intros c _ (? & ? & _).
  - unfold distinct_chunks. cbn. apply NoDup_cons. split; [set_solver|apply NoDup_singleton].
  - repeat constructor; done.
Qed.

Lemma failed_round_keeps_links_witness :
  let _ := sum_hasher in
  ∃ f' m' r, write_dirty_metadata_pages (sample_file [false; true]) sample_metadata2 = Done (f', m', r).
Proof.
  intros hash. destruct sample_metadata2_ok as [Hok Hcs].
  destruct (failed_round_keeps_links (sample_file [false; true]) sample_metadata2 Hok Hcs ltac:(done))
    as (f' & m' & r & ? & _). eauto.
Defined.
