(* ===== verification/Shard.v ===== *)
(** * A disk-cache shard: index, eviction and entry removal
    ([feuer-storage/src/disk_cache.rs])

    A shard joins the chunk allocator, the metadata chain and the index of
    published entries.  The invariant ties them together: each indexed entry has
    its record in exactly one metadata slot and its payload inside chunks held
    for it, and each hold counts the entries that use it. *)

From S2P Require Import Prelude Codec Disk BTree Allocation PageFormat Metadata Float64 Retention EntryIndex.

Definition MAX_EVICTION_ATTEMPTS : Z := 64.
Definition MAX_EVICTION_CHUNKS : Z := 4096.

(** [DiskEntry]; a weak reference to a shared read is the identity of that read. *)
Record DiskEntry := mkDiskEntry {
  shared_read : option Z;
  eviction_position : nat;
  payload_len : Z;
  payload_checksum : Z;
  payload_address : Z;
  entry_metadata : EntryMetadataLocation
}.

Global Instance DiskEntry_positioned : Positioned DiskEntry := {|
  entry_position := eviction_position;
  with_position i e := mkDiskEntry (shared_read e) i (payload_len e) (payload_checksum e) (payload_address e) (entry_metadata e)
|}.
Global Instance DiskEntry_positioned_ok : PositionedOk DiskEntry.
Proof. by split. Qed.

(** [DiskEntryIndex], with this shard's part of the [entries] and
    [payload_bytes] gauges. *)
Record DiskEntryIndex := mkDiskEntryIndex {
  entries_by_key : gmap Z DiskEntry;
  eviction_candidates : list Z;
  next_sample_start : nat;
  entries_gauge : Z;
  payload_bytes_gauge : Z
}.

Record DiskCacheShard := mkDiskCacheShard {
  allocator : DiskChunkAllocator;
  entry_index : DiskEntryIndex;
  metadata_pages : MetadataChunks
}.

(** [DiskEntryIndex::new] and [impl Drop for DiskEntryIndex] (the gauges left). *)
Definition new_index : DiskEntryIndex := mkDiskEntryIndex ∅ [] 0 0 0.
Definition drop_index (idx : DiskEntryIndex) : Z * Z :=
  (entries_gauge idx - Z.of_nat (length (eviction_candidates idx)),
   payload_bytes_gauge idx - msum (λ _ e, payload_len e) (entries_by_key idx)).

(** [DiskEntry::new] and [DiskEntry::chunk_count] *)
Definition new_DiskEntry (r : EntryMetadata) (location : EntryMetadataLocation) : DiskEntry :=
  mkDiskEntry None 0 (meta_payload_len r) (meta_payload_checksum r) (meta_payload_address r) location.
Definition entry_chunk_count (e : DiskEntry) : Z := div_ceil (Z.max (payload_len e) 1) CHUNK_BYTES.

(** [DiskEntryIndex::take_entry] *)
Definition take_entry (idx : DiskEntryIndex) (key : Z) : outcome (option DiskEntry * DiskEntryIndex) :=
  taken ← index_take (entries_by_key idx) (eviction_candidates idx) key;
  match taken with
  | None => Done (None, idx)
  | Some (e, m, candidates) =>
      Done (Some e, mkDiskEntryIndex m candidates (next_sample_start idx)
                      (entries_gauge idx - 1) (payload_bytes_gauge idx - payload_len e))
  end.

(** [DiskCacheShard::release_entry] *)
Definition release_entry (sh : DiskCacheShard) (e : DiskEntry) : outcome DiskCacheShard :=
  al ← release_payload (allocator sh) (payload_address e);
  m ← free_entry_metadata (metadata_pages sh) (entry_metadata e);
  Done (mkDiskCacheShard al (entry_index sh) m).

(** [DiskCacheShard::remove_entry_from_index] *)
Definition remove_entry_from_index (sh : DiskCacheShard) (key : Z) : outcome DiskCacheShard :=
  '(taken, idx) ← take_entry (entry_index sh) key;
  match taken with
  | None => Done sh
  | Some e => release_entry (mkDiskCacheShard (allocator sh) idx (metadata_pages sh)) e
  end.

(** [DiskCacheShard::insert_entry] *)
Definition insert_entry (sh : DiskCacheShard) (key : Z) (e : DiskEntry) : outcome DiskCacheShard :=
  '(previous, idx) ← take_entry (entry_index sh) key;
  let sh := mkDiskCacheShard (allocator sh) idx (metadata_pages sh) in
  sh ← match previous with Some previous => release_entry sh previous | None => Done sh end;
  let idx := entry_index sh in
  let '(m, candidates) := index_push (entries_by_key idx) (eviction_candidates idx) key e in
  Done (mkDiskCacheShard (allocator sh)
          (mkDiskEntryIndex m candidates (next_sample_start idx) (entries_gauge idx) (payload_bytes_gauge idx))
          (metadata_pages sh)).

(** The scored candidates of a sample that fit the remaining chunk budget; an
    unindexed candidate is a failed map access. *)
Fixpoint score_sample `{RetentionScorer H} (histories : H) (m : gmap Z DiskEntry) (remaining_eviction_chunks : Z)
    (keys : list Z) : outcome (list (Z * f64 * Z)) :=
  match keys with
  | [] => Done []
  | key :: keys =>
      e ← unwrap (m !! key);
      rest ← score_sample histories m remaining_eviction_chunks keys;
      Done (if entry_chunk_count e <=? remaining_eviction_chunks
            then (key, score histories key (payload_len e), entry_chunk_count e) :: rest else rest)
  end.

(** [DiskCacheShard::sample_and_evict_entry]: whether sampling occurred, the
    shard, and the remaining attempts and chunks. *)
Definition sample_and_evict_entry `{RetentionScorer H} (histories : H) (reclaim_sample_size : nat)
    (sh : DiskCacheShard) (remaining_eviction_attempts remaining_eviction_chunks : Z)
  : outcome (bool * DiskCacheShard * Z * Z) :=
  if (remaining_eviction_attempts =? 0) || (remaining_eviction_chunks =? 0)
  then Done (false, sh, remaining_eviction_attempts, remaining_eviction_chunks)
  else
    let idx := entry_index sh in
    match eviction_candidates idx with
    | [] => Done (false, sh, remaining_eviction_attempts, remaining_eviction_chunks)
    | candidates =>
        let remaining_eviction_attempts := remaining_eviction_attempts - 1 in
        let '(start, keys) := sample_candidates (next_sample_start idx) candidates reclaim_sample_size in
        let idx := mkDiskEntryIndex (entries_by_key idx) candidates start (entries_gauge idx) (payload_bytes_gauge idx) in
        let sh := mkDiskCacheShard (allocator sh) idx (metadata_pages sh) in
        scored ← score_sample histories (entries_by_key idx) remaining_eviction_chunks keys;
        match min_by (λ a b, total_cmp a.1.2 b.1.2) scored with
        | Some (key, _, chunk_count) =>
            sh ← remove_entry_from_index sh key;
            Done (true, sh, remaining_eviction_attempts, remaining_eviction_chunks - chunk_count)
        | None => Done (true, sh, remaining_eviction_attempts, remaining_eviction_chunks)
        end
    end.

(** [DiskCacheInner::shard_index_for_key] *)
Definition shard_index_for_key (num_shards : nat) (key : Z) : nat := Z.to_nat (key mod Z.of_nat num_shards).

(** ** Invariant *)
Definition entry_record (key : Z) (e : DiskEntry) : EntryMetadata :=
  mkEntryMetadata key (payload_len e) (payload_address e) (payload_checksum e).
Definition entry_chunk (e : DiskEntry) : Z := payload_address e / CHUNK_BYTES.

(** Entries whose payload starts in chunk [k]. *)
Definition users (k : Z) (m : gmap Z DiskEntry) : Z :=
  msum (λ _ e, Z.b2z (bool_decide (entry_chunk e = k))) m.
Definition payload_bytes (m : gmap Z DiskEntry) : Z := msum (λ _ e, payload_len e) m.

(** [owners]: reservations of writes in progress.  [pending k]: payloads held
    for chunk [k] whose entries are not published yet.  The gauges lag behind
    the index by [lag] entries and bytes while a batch is being published. *)
Record shard_ok (lo hi : Z) (sh : DiskCacheShard) (owners : list ReservedChunks)
    (pending : Z → Z) (lag : Z * Z) : Prop := mkShardOk {
  so_bounds : hi * CHUNK_BYTES ≤ 2 ^ 63 ∧ hi - lo < 2 ^ 32 ∧ 0 < lo ∧ ∀ k, 0 ≤ pending k;
  so_alloc : alloc_inv lo hi (allocator sh) ((reserved_chunk <$> chunks (metadata_pages sh)) ++ owners);
  so_meta : meta_ok (metadata_pages sh);
  so_index : index_ok (entries_by_key (entry_index sh)) (eviction_candidates (entry_index sh));
  so_slots : ∀ k e, entries_by_key (entry_index sh) !! k = Some e →
     slot_at (chunks (metadata_pages sh)) (entry_metadata e) = Some (Some (entry_record k e));
  so_entries : ∀ loc r, slot_at (chunks (metadata_pages sh)) loc = Some (Some r) →
     ∃ e, entries_by_key (entry_index sh) !! meta_key r = Some e ∧ entry_metadata e = loc;
  so_users : ∀ k r n, payload_chunks (allocator sh) !! k = Some (r, n) →
     n = users k (entries_by_key (entry_index sh)) + pending k;
  so_held : ∀ k e, entries_by_key (entry_index sh) !! k = Some e →
     ∃ r n, payload_chunks (allocator sh) !! entry_chunk e = Some (r, n)
       ∧ payload_address e + payload_disk_bytes (payload_len e) ≤ range_end (disk_byte_range r);
  so_gauges : entries_gauge (entry_index sh) = Z.of_nat (size (entries_by_key (entry_index sh))) - lag.1
     ∧ payload_bytes_gauge (entry_index sh) = payload_bytes (entries_by_key (entry_index sh)) - lag.2
}.

Definition idle : Z → Z := λ _, 0.

(** ** Counting the users of a chunk *)
Lemma users_term_cases e k :
  Z.b2z (bool_decide (entry_chunk e = k)) = 0 ∨ Z.b2z (bool_decide (entry_chunk e = k)) = 1.
Proof. case_bool_decide; cbn; lia. Qed.

Lemma users_nonneg k m : 0 ≤ users k m.
Proof. apply msum_nonneg. intros k' e _. destruct (users_term_cases e k); lia. Qed.

Lemma users_same k m m' : same_entries m m' → users k m' = users k m.
Proof. intros Hs. by apply msum_unplaced. Qed.

Lemma payload_bytes_same m m' : same_entries m m' → payload_bytes m' = payload_bytes m.
Proof. intros Hs. by apply msum_unplaced. Qed.

Lemma users_pos k m key e : m !! key = Some e → entry_chunk e = k → 0 < users k m.
Proof.
  intros Hk He. unfold users. rewrite <-(insert_delete_id m key e Hk), msum_insert by apply lookup_delete_eq.
  rewrite bool_decide_eq_true_2 by done.
  pose proof (users_nonneg k (delete key m)). unfold users in *. cbn. lia.
Qed.

Lemma unplaced_fields (e e' : DiskEntry) :
  unplaced e = unplaced e' →
  payload_len e = payload_len e' ∧ payload_checksum e = payload_checksum e' ∧
  payload_address e = payload_address e' ∧ entry_metadata e = entry_metadata e'.
Proof. destruct e, e'. cbn. by intros [= -> -> -> -> ->]. Qed.

(** ** Removing an entry *)
Section shard.
Context (lo hi : Z).

Lemma take_entry_spec idx key e :
  index_ok (entries_by_key idx) (eviction_candidates idx) → entries_by_key idx !! key = Some e →
  ∃ idx', take_entry idx key = Done (Some e, idx')
    ∧ index_ok (entries_by_key idx') (eviction_candidates idx')
    ∧ same_entries (delete key (entries_by_key idx)) (entries_by_key idx')
    ∧ entries_gauge idx' = entries_gauge idx - 1 ∧ payload_bytes_gauge idx' = payload_bytes_gauge idx - payload_len e.
Proof.
  intros Hok Hk. destruct (index_take_spec _ _ _ _ Hok Hk) as (m' & c' & Ht & Hok' & Hs).
  unfold take_entry. rewrite Ht. cbn. eexists. split; [done|]. by split_and!.
Qed.

Lemma take_entry_absent idx key : entries_by_key idx !! key = None → take_entry idx key = Done (None, idx).
Proof. intros Hk. unfold take_entry. by rewrite index_take_None. Qed.

(** Releasing the payload and the metadata slot of a taken entry. *)
Lemma reserved_fmap_set_slot cs loc o : reserved_chunk <$> set_slot cs loc o = reserved_chunk <$> cs.
Proof. by apply fmap_alter_id. Qed.

Lemma remove_entry_spec sh owners pending lag key e :
  shard_ok lo hi sh owners pending lag → entries_by_key (entry_index sh) !! key = Some e →
  ∃ sh', remove_entry_from_index sh key = Done sh'
    ∧ shard_ok lo hi sh' owners pending lag
    ∧ same_entries (delete key (entries_by_key (entry_index sh))) (entries_by_key (entry_index sh')).
Proof.
  intros Hok Hk. destruct Hok as [Hbounds Halloc Hmeta Hindex Hslots Hentries Husers Hheld [Hge Hgb]].
  destruct (take_entry_spec _ _ _ Hindex Hk) as (idx' & Htake & Hindex' & Hsame & Hge' & Hgb').
  destruct (Hheld _ _ Hk) as (r & n & Hr & Hin).
  destruct (release_payload_eq (allocator sh) (payload_address e) r n Hr) as (al' & Hrel & Hpc).
  assert (Hslot := Hslots _ _ Hk).
  destruct (free_entry_metadata_spec _ _ _ Hmeta Hslot) as (m' & Hfree & Hcs & _ & _ & Hmeta').
  unfold remove_entry_from_index. rewrite Htake. cbn [mbind outcome_bind]. unfold release_entry.
  cbn [allocator metadata_pages entry_index]. rewrite Hrel. cbn [mbind outcome_bind]. rewrite Hfree. cbn [mbind outcome_bind].
  set (m0 := entries_by_key (entry_index sh)) in *.
  assert (Hn : n = users (entry_chunk e) m0 + pending (entry_chunk e)) by (by eapply Husers).
  assert (Hdel : ∀ k, users k (delete key m0) = users k m0 - Z.b2z (bool_decide (entry_chunk e = k))).
  { intros k. unfold users. by rewrite (msum_delete _ _ _ _ Hk). }
  assert (Hstay : ∀ k e', entries_by_key idx' !! k = Some e' →
            ∃ e0, k ≠ key ∧ m0 !! k = Some e0 ∧ unplaced e0 = unplaced e').
  { intros k e' Hk'. destruct (same_entries_lookup _ _ _ _ Hsame Hk') as (e0 & [Hne H0]%lookup_delete_Some & Heq). eauto. }
  assert (Hpc' : ∀ k, k ≠ entry_chunk e → payload_chunks al' !! k = payload_chunks (allocator sh) !! k).
  { intros k Hne. rewrite Hpc. case_decide; [by rewrite lookup_delete_ne|by rewrite lookup_insert_ne]. }
  eexists. split; [done|]. split; [|done]. constructor; cbn [allocator metadata_pages entry_index]; try done.
  - rewrite Hcs, reserved_fmap_set_slot. by eapply release_payload_inv.
  - intros k e' Hk'. destruct (Hstay _ _ Hk') as (e0 & Hne & H0 & Heq).
    apply unplaced_fields in Heq as (Hl & Hc & Ha & Hm).
    rewrite Hcs, (slot_at_set_slot _ _ _ _ Hslot), <-Hm, decide_False.
    + rewrite (Hslots _ _ H0). unfold entry_record. congruence.
    + intros Hloc. assert (Hs0 := Hslots _ _ H0). rewrite Hloc, Hslot in Hs0. unfold entry_record in Hs0. congruence.
  - intros loc r' Hloc. rewrite Hcs, (slot_at_set_slot _ _ _ _ Hslot) in Hloc. case_decide as Hd; [done|].
    destruct (Hentries _ _ Hloc) as (e0 & H0 & He0).
    assert (Hne : meta_key r' ≠ key) by (intros Heq; rewrite Heq in H0; congruence).
    assert (Hd0 : delete key m0 !! meta_key r' = Some e0) by (by rewrite lookup_delete_ne).
    symmetry in Hsame. destruct (same_entries_lookup _ _ _ _ Hsame Hd0) as (e' & He' & Heq).
    exists e'. split; [done|]. apply unplaced_fields in Heq as (_ & _ & _ & ->). done.
  - intros k r' n' Hk'. rewrite (users_same _ _ _ Hsame), Hdel.
    destruct (decide (k = entry_chunk e)) as [->|Hne].
    + rewrite bool_decide_eq_true_2 by done. rewrite Hpc in Hk'. case_decide.
      * by rewrite lookup_delete_eq in Hk'.
      * rewrite lookup_insert_eq in Hk'. injection Hk' as <- <-. cbn. lia.
    + rewrite bool_decide_eq_false_2 by done. rewrite Hpc' in Hk' by done. rewrite (Husers _ _ _ Hk'). cbn. lia.
  - intros k e' Hk'. destruct (Hstay _ _ Hk') as (e0 & Hne & H0 & Heq).
    apply unplaced_fields in Heq as (Hl & _ & Ha & _).
    assert (Hchunk : entry_chunk e' = entry_chunk e0) by (unfold entry_chunk; congruence).
    destruct (Hheld _ _ H0) as (r0 & n0 & Hr0 & Hin0). rewrite Hchunk, <-Hl, <-Ha.
    destruct (decide (entry_chunk e0 = entry_chunk e)) as [Hc|Hc].
    + rewrite Hc in *. rewrite Hr in Hr0. injection Hr0 as <- <-.
      assert (Hpos : 0 < users (entry_chunk e) (delete key m0)).
      { eapply (users_pos _ _ k e0); [by rewrite lookup_delete_ne|done]. }
      rewrite Hdel, bool_decide_eq_true_2 in Hpos by done. destruct Hbounds as (_ & _ & _ & Hpend).
      specialize (Hpend (entry_chunk e)). cbn in Hpos. exists r, (n - 1). rewrite Hpc, decide_False by lia.
      by rewrite lookup_insert_eq.
    + exists r0, n0. by rewrite Hpc'.
  - rewrite Hge', Hgb', (same_entries_size _ _ Hsame), (payload_bytes_same _ _ Hsame), map_size_delete_Some by eauto.
    fold m0 in Hge, Hgb. split.
    + assert (0 < size m0)%nat by (apply map_size_pos || (destruct (decide (size m0 = 0%nat)) as [Hz|]; [apply map_size_empty_inv in Hz; rewrite Hz in Hk; done|lia])). lia.
    + unfold payload_bytes in *. rewrite (msum_delete _ _ _ _ Hk). lia.
Qed.

(** ** Eviction *)
Context `{RetentionScorer H} (histories : H).

Lemma score_sample_spec m budget keys :
  Forall (λ k, is_Some (m !! k)) keys →
  ∃ scored, score_sample histories m budget keys = Done scored ∧
    ∀ k s n, (k, s, n) ∈ scored ↔ k ∈ keys ∧ ∃ e, m !! k = Some e ∧ n = entry_chunk_count e ∧ n ≤ budget
                                  ∧ s = score histories k (payload_len e).
Proof.
  induction 1 as [|key keys [e He] _ (scored & Hs & Hspec)]; cbn [score_sample].
  { exists []. split; [done|]. set_solver. }
  rewrite He, Hs. cbn. eexists. split; [done|]. intros k s n.
  destruct (Z.leb_spec (entry_chunk_count e) budget) as [Hle|Hgt].
  - rewrite !elem_of_cons, Hspec. split.
    + intros [[= -> -> ->]|[? ?]]; [split; [by left|by exists e]|auto].
    + intros [[->|Hk] (e' & He' & -> & Hn & ->)]; [left; congruence|right; split; [done|by exists e']].
  - rewrite Hspec, elem_of_cons. split; [naive_solver|].
    intros [[->|Hk] (e' & He' & -> & Hn & ->)]; [rewrite He in He'; injection He' as <-; lia|split; [done|by exists e']].
Qed.

Lemma with_sample_start_ok sh owners pending lag start :
  shard_ok lo hi sh owners pending lag →
  shard_ok lo hi (mkDiskCacheShard (allocator sh)
    (mkDiskEntryIndex (entries_by_key (entry_index sh)) (eviction_candidates (entry_index sh)) start
       (entries_gauge (entry_index sh)) (payload_bytes_gauge (entry_index sh))) (metadata_pages sh)) owners pending lag.
Proof. by intros []. Qed.

(** One eviction decision. *)
Lemma sample_and_evict_spec sh owners pending lag size attempts budget :
  shard_ok lo hi sh owners pending lag →
  ∃ (sampled : bool) sh' budget', sample_and_evict_entry histories size sh attempts budget
      = Done (sampled, sh', if sampled then attempts - 1 else attempts, budget')
    ∧ shard_ok lo hi sh' owners pending lag
    ∧ (sampled = false ↔ attempts = 0 ∨ budget = 0 ∨ eviction_candidates (entry_index sh) = [])
    ∧ (sampled = false → sh' = sh ∧ budget' = budget)
    ∧ (sampled = true →
         let keys := (sample_candidates (next_sample_start (entry_index sh)) (eviction_candidates (entry_index sh)) size).2 in
         let m := entries_by_key (entry_index sh) in
         (budget' = budget ∧ entries_by_key (entry_index sh') = m
            ∧ ∀ k e, k ∈ keys → m !! k = Some e → budget < entry_chunk_count e)
         ∨ ∃ key e, key ∈ keys ∧ m !! key = Some e ∧ budget' = budget - entry_chunk_count e ∧ 0 ≤ budget'
             ∧ same_entries (delete key m) (entries_by_key (entry_index sh'))
             ∧ ∀ k e', k ∈ keys → m !! k = Some e' → entry_chunk_count e' ≤ budget →
                 total_cmp (score histories key (payload_len e)) (score histories k (payload_len e')) ≠ Gt).
Proof.
  intros Hok. unfold sample_and_evict_entry.
  destruct ((attempts =? 0) || (budget =? 0)) eqn:Hzero.
  { exists false, sh, budget. split_and!; try done. split; [|done]. intros _.
    apply orb_true_iff in Hzero as [?%Z.eqb_eq|?%Z.eqb_eq]; auto. }
  bool_to_prop. destruct (eviction_candidates (entry_index sh)) as [|k0 cands] eqn:Hcands.
  { exists false, sh, budget. split_and!; try done. split; [auto|done]. }
  rewrite <-Hcands in *.
  destruct (sample_candidates (next_sample_start (entry_index sh)) (eviction_candidates (entry_index sh)) size)
    as [start keys] eqn:Hsample. cbn [snd].
  assert (Hkeys : Forall (λ k, is_Some (entries_by_key (entry_index sh) !! k)) keys).
  { apply Forall_forall. intros k Hk. apply (index_ok_elem _ _ _ (so_index _ _ _ _ _ _ Hok)).
    eapply (sample_candidates_elem (next_sample_start (entry_index sh)) _ size). by rewrite Hsample. }
  destruct (score_sample_spec (entries_by_key (entry_index sh)) budget keys Hkeys) as (scored & Hscore & Hspec).
  cbn [entries_by_key]. rewrite Hscore. cbn [mbind outcome_bind].
  assert (Hok1 := with_sample_start_ok sh owners pending lag start Hok).
  destruct (min_by _ scored) as [[[key s] n]|] eqn:Hmin.
  - assert (Hin := min_by_elem _ _ _ Hmin). apply Hspec in Hin as (Hk & e & He & -> & Hn & ->).
    destruct (remove_entry_spec _ owners pending lag key e Hok1 He) as (sh' & Hrem & Hok' & Hsame).
    rewrite Hrem. cbn [mbind outcome_bind].
    exists true, sh', (budget - entry_chunk_count e). split_and!; try done.
    + split; [done|]. intros [?|[?|Hnil]]; [done|done|]. rewrite Hnil in Hcands. done.
    + intros _. right. exists key, e. split_and!; try done; [lia|]. intros k e' Hk' He' Hle.
      apply (min_by_least (λ a b, total_cmp a.1.2 b.1.2) scored (key, score histories key (payload_len e), entry_chunk_count e))
        with (y := (k, score histories k (payload_len e'), entry_chunk_count e')); try done.
      * intros [[? ?] ?] [[? ?] ?] [[? ?] ?]. apply total_cmp_trans.
      * intros [[? ?] ?] [[? ?] ?]. apply total_cmp_asym.
      * intros [[? ?] ?]. apply total_cmp_refl.
      * apply Hspec. split; [done|]. by exists e'.
  - eexists true, _, budget. split; [done|]. split_and!; try done.
    + split; [done|]. intros [?|[?|Hnil]]; [done|done|]. rewrite Hnil in Hcands. done.
    + intros _. left. split_and!; try done. intros k e Hk He. apply Z.nle_gt. intros Hle.
      apply min_by_None in Hmin as ->. apply (elem_of_nil (k, score histories k (payload_len e), entry_chunk_count e)).
      apply Hspec. split; [done|]. by exists e.
Qed.
End shard.
