(* ===== verification/Writer.v ===== *)
(** * Writing payloads ([feuer-storage/src/disk_cache/writer.rs])

    A write reserves metadata slots and payload chunks, evicting sampled entries
    under one budget while space is short, writes the payload, and only then
    publishes its entries.  Other writers may run between these phases; each
    phase holds the locks it needs. *)

From S2P Require Import Prelude Codec Errors Disk BTree Allocation PageFormat Metadata Float64 Retention.
From S2P Require Import EntryIndex Shard.

(** [DiskWriteOutcome] and [DiskWriteAttempt] ([disk_metrics.rs]): every attempt
    ends in one outcome. *)
Inductive DiskWriteOutcome := Published | AlreadyCovered | NoCapacity | Failed | Canceled.
Record DiskWriteAttempt := mkAttempt { attempt_outcome : DiskWriteOutcome; evicted : bool }.
Definition new_attempt : DiskWriteAttempt := mkAttempt Canceled false.

(** [WriteEntry] *)
Record WriteEntry := mkWriteEntry {
  write_key : Z;
  write_payload_len : Z;
  write_payload_checksum : Z;
  buffer_offset : Z;
  attempt : DiskWriteAttempt
}.
Definition with_outcome (o : DiskWriteOutcome) (w : WriteEntry) : WriteEntry :=
  mkWriteEntry (write_key w) (write_payload_len w) (write_payload_checksum w) (buffer_offset w)
               (mkAttempt o (evicted (attempt w))).
Definition with_evicted (b : bool) (w : WriteEntry) : WriteEntry :=
  mkWriteEntry (write_key w) (write_payload_len w) (write_payload_checksum w) (buffer_offset w)
               (mkAttempt (attempt_outcome (attempt w)) b).

(** The counters a payload write increases. *)
Record WriteCounters := mkWriteCounters {
  written_entries : Z; packed_payload_bytes : Z; packed_chunk_bytes : Z
}.

Definition with_allocator (al : DiskChunkAllocator) (sh : DiskCacheShard) : DiskCacheShard :=
  mkDiskCacheShard al (entry_index sh) (metadata_pages sh).

Section writer.
Context `{StorageFile F} `{RetentionScorer Hist} (histories : Hist) (reclaim_sample_size : nat).

(** The critical section of the reservation loop: metadata slots first, then
    payload chunks.  A chain that grew stays grown when the chunks are short. *)
Definition reserve_space (sh : DiskCacheShard) (entry_count required_chunks : Z)
  : outcome (option ReservedChunks * DiskCacheShard) :=
  slots ← ensure_free_slots (metadata_pages sh) entry_count (allocator sh);
  match slots with
  | None => Done (None, sh)
  | Some (m, al) =>
      let sh := mkDiskCacheShard al (entry_index sh) m in
      match reserve_chunks al required_chunks with
      | None => Done (None, sh)
      | Some (al, reserved) => Done (Some reserved, with_allocator al sh)
      end
  end.

(** The reservation loop.  [fuel] bounds its iterations; running out of it is
    not an outcome of the source. *)
Fixpoint reserve_loop (fuel : nat) (sh : DiskCacheShard) (entries : list WriteEntry) (required_chunks : Z)
    (remaining_eviction_attempts remaining_eviction_chunks : Z)
  : outcome (option ReservedChunks * DiskCacheShard * list WriteEntry) :=
  match fuel with
  | O => Panic
  | S fuel =>
      '(reserved, sh) ← reserve_space sh (Z.of_nat (length entries)) required_chunks;
      match reserved with
      | Some reserved => Done (Some reserved, sh, entries)
      | None =>
          let payload_chunk_capacity :=
            chunk_capacity (allocator sh) - Z.of_nat (length (chunks (metadata_pages sh))) in
          if payload_chunk_capacity <? required_chunks then Done (None, sh, entries)
          else
            '(sampled, sh, remaining_eviction_attempts, remaining_eviction_chunks) ←
              sample_and_evict_entry histories reclaim_sample_size sh remaining_eviction_attempts remaining_eviction_chunks;
            if negb sampled then Done (None, sh, entries)
            else
              first ← unwrap (head entries);
              let entries := with_evicted (bool_decide (remaining_eviction_chunks ≠ MAX_EVICTION_CHUNKS)) first
                             :: tail entries in
              reserve_loop fuel sh entries required_chunks remaining_eviction_attempts remaining_eviction_chunks
      end
  end.

(** The publication loop, newest entry first; returns the entries with their
    outcomes, the number published and their bytes. *)
Fixpoint publish_entries (sh : DiskCacheShard) (range_start : Z) (entries : list WriteEntry)
  : outcome (DiskCacheShard * list WriteEntry * Z * Z) :=
  match entries with
  | [] => Done (sh, [], 0, 0)
  | buffered :: entries =>
      match entries_by_key (entry_index sh) !! write_key buffered with
      | Some _ =>
          al ← release_payload (allocator sh) range_start;
          '(sh, done, published, bytes) ← publish_entries (with_allocator al sh) range_start entries;
          Done (sh, with_outcome AlreadyCovered buffered :: done, published, bytes)
      | None =>
          let r := mkEntryMetadata (write_key buffered) (write_payload_len buffered)
                     (range_start + buffer_offset buffered) (write_payload_checksum buffered) in
          '(m, location) ← store_entry_metadata (metadata_pages sh) r;
          let sh := mkDiskCacheShard (allocator sh) (entry_index sh) m in
          sh ← insert_entry sh (write_key buffered) (new_DiskEntry r location);
          '(sh, done, published, bytes) ← publish_entries sh range_start entries;
          Done (sh, with_outcome Published buffered :: done, published + 1, bytes + write_payload_len buffered)
      end
  end.

Definition add_gauges (entries bytes : Z) (sh : DiskCacheShard) : DiskCacheShard :=
  let idx := entry_index sh in
  mkDiskCacheShard (allocator sh)
    (mkDiskEntryIndex (entries_by_key idx) (eviction_candidates idx) (next_sample_start idx)
       (entries_gauge idx + entries) (payload_bytes_gauge idx + bytes)) (metadata_pages sh).

(** Publication under both locks, after the payload is on disk: [None] when the
    metadata has no room left, which drops the reservation. *)
Definition publish (sh : DiskCacheShard) (reserved : ReservedChunks) (entries : list WriteEntry)
  : outcome (DiskCacheShard * option (list WriteEntry * Z)) :=
  slots ← ensure_free_slots (metadata_pages sh) (Z.of_nat (length entries)) (allocator sh);
  match slots with
  | None => Done (with_allocator (drop_reserved (allocator sh) reserved) sh, None)
  | Some (m, al) =>
      let al := hold_chunks_until_payloads_released al reserved (Z.of_nat (length entries)) in
      let sh := mkDiskCacheShard al (entry_index sh) m in
      '(sh, done, published, bytes) ← publish_entries sh (range_start (disk_byte_range reserved)) (reverse entries);
      let sh := if published =? 0 then sh else add_gauges published bytes sh in
      Done (sh, Some (done, published))
  end.

(** [DiskCacheShard::write_payload]: the result, and every entry with its
    terminal outcome. *)
Definition write_payload (f : F) (sh : DiskCacheShard) (counters : WriteCounters) (bytes : list byte) (entries : list WriteEntry)
  : outcome (F * DiskCacheShard * WriteCounters * DataFileResult Z * list WriteEntry) :=
  let required_chunks := div_ceil (Z.of_nat (length bytes)) CHUNK_BYTES in
  '(reserved, sh, entries) ←
    reserve_loop (Z.to_nat MAX_EVICTION_ATTEMPTS + 1) sh entries required_chunks MAX_EVICTION_ATTEMPTS MAX_EVICTION_CHUNKS;
  match reserved with
  | None => Done (f, sh, counters, Ok 0, with_outcome NoCapacity <$> entries)
  | Some reserved =>
      let range := disk_byte_range reserved in
      '(f, r) ← write_padded f (range_start range) (range_end range - range_start range) bytes;
      match r with
      | Err e =>
          Done (f, with_allocator (drop_reserved (allocator sh) reserved) sh, counters, Err e,
                with_outcome Failed <$> entries)
      | Ok _ =>
          let counters := mkWriteCounters
            (written_entries counters + Z.of_nat (length entries))
            (packed_payload_bytes counters + zsum write_payload_len entries)
            (packed_chunk_bytes counters + chunk_count reserved * CHUNK_BYTES) in
          '(sh, published) ← publish sh reserved entries;
          match published with
          | None => Done (f, sh, counters, Ok 0, with_outcome NoCapacity <$> entries)
          | Some (done, published) => Done (f, sh, counters, Ok published, reverse done)
          end
      end
  end.
End writer.

(** ** Batches

    The entries of one payload write: their keys and checksums fit their widths,
    each starts in the payload's first chunk and ends inside the payload. *)
Definition batch_entry_ok (payload_bytes : Z) (w : WriteEntry) : Prop :=
  is_u128 (write_key w) ∧ is_u64 (write_payload_checksum w) ∧ 0 ≤ write_payload_len w ∧
  0 ≤ buffer_offset w < CHUNK_BYTES ∧ buffer_offset w + payload_disk_bytes (write_payload_len w) ≤ payload_bytes.
Definition batch_ok (payload_bytes : Z) (entries : list WriteEntry) : Prop :=
  entries ≠ [] ∧ Z.of_nat (length entries) ≤ ENTRIES_PER_METADATA_CHUNK ∧ Forall (batch_entry_ok payload_bytes) entries.

(** ** Reserving *)
Section reserving.
Context (lo hi : Z).

Lemma shard_chunks_bound sh owners pending lag :
  shard_ok lo hi sh owners pending lag → Z.of_nat (length (chunks (metadata_pages sh))) < 2 ^ 32.
Proof.
  intros Hok. destruct (so_bounds _ _ _ _ _ _ Hok) as (_ & Hhl & _).
  destruct (owners_distinct _ _ _ _ (proj1 (so_alloc _ _ _ _ _ _ Hok))) as [_ Hlen].
  rewrite length_app, length_fmap in Hlen. lia.
Qed.

(** Adding a reservation of the shard's allocator to the writes in progress. *)
Lemma reserve_shard_ok sh owners pending lag count al' r :
  shard_ok lo hi sh owners pending lag → reserve_chunks (allocator sh) count = Some (al', r) →
  shard_ok lo hi (with_allocator al' sh) (r :: owners) pending lag
  ∧ 0 < count ∧ chunk_count r = count ∧ recovered r = false
  ∧ lo ≤ range_start (chunk_numbers r) ∧ range_end (chunk_numbers r) ≤ hi.
Proof.
  intros Hok Hres. assert (Hal := so_alloc _ _ _ _ _ _ Hok).
  pose proof (reserve_chunks_spec lo hi _ _ count (proj1 Hal)) as Hspec. rewrite Hres in Hspec.
  destruct Hspec as (start & Hnum & Hpos & _ & _ & _ & Hpc & Hrec).
  assert (Hal' := reserve_chunks_inv lo hi _ _ _ _ _ Hres Hal).
  destruct (owner_range _ _ _ _ _ (proj1 Hal')) as (Hlo & Hhi & _).
  split_and!; try done.
  - destruct Hok. constructor; cbn [with_allocator allocator entry_index metadata_pages]; try done.
    + by rewrite <-Permutation_middle.
    + intros k r' n. rewrite Hpc. eauto.
    + intros k e Hk. rewrite Hpc. eauto.
  - unfold chunk_count. rewrite Hnum. cbn. lia.
Qed.

Lemma drop_shard_ok sh owners pending lag r :
  shard_ok lo hi sh (r :: owners) pending lag →
  shard_ok lo hi (with_allocator (drop_reserved (allocator sh) r) sh) owners pending lag.
Proof.
  intros Hok. destruct Hok. constructor; cbn [with_allocator allocator entry_index metadata_pages]; try done.
  apply drop_reserved_inv. by rewrite Permutation_middle.
Qed.

Lemma grow_shard_ok sh owners pending lag r :
  shard_ok lo hi sh (r :: owners) pending lag → chunk_count r = 1 →
  lo ≤ range_start (chunk_numbers r) → range_end (chunk_numbers r) ≤ hi →
  shard_ok lo hi (mkDiskCacheShard (allocator sh) (entry_index sh) (grow (metadata_pages sh) r)) owners pending lag.
Proof.
  intros Hok Hr Hlo Hhi. destruct Hok as [Hb Hal Hm Hi Hs He Hu Hh Hg]. unfold chunk_count in Hr.
  assert (Hslot : ∀ loc e, slot_at (chunks (grow (metadata_pages sh) r)) loc = Some (Some e) ↔
                           slot_at (chunks (metadata_pages sh)) loc = Some (Some e)).
  { intros loc e. cbn [chunks grow]. rewrite slot_at_snoc by done.
    destruct (slot_at (chunks (metadata_pages sh)) loc); [done|]. case_decide; naive_solver. }
  constructor; cbn [allocator entry_index metadata_pages]; try done.
  - cbn [chunks grow]. rewrite fmap_app, fmap_alter_id by done. cbn. by rewrite <-app_assoc.
  - apply grow_meta_ok; [done|done|]. unfold is_u64, disk_byte_range. cbn. unfold CHUNK_BYTES in *.
    destruct Hb as (? & ? & ? & _). lia.
  - intros k e Hk. apply Hslot. by apply Hs.
  - intros loc r' Hloc. apply Hslot in Hloc. by apply He.
Qed.

Lemma ensure_shard_ok sh owners pending lag count :
  shard_ok lo hi sh owners pending lag → count ≤ ENTRIES_PER_METADATA_CHUNK →
  ∃ res, ensure_free_slots (metadata_pages sh) count (allocator sh) = Done res ∧
    match res with
    | None => reserve_chunks (allocator sh) 1 = None
    | Some (m, al) => shard_ok lo hi (mkDiskCacheShard al (entry_index sh) m) owners pending lag
                      ∧ count ≤ free_slot_count m
    end.
Proof.
  intros Hok Hcount. rewrite ensure_free_slots_eq by (by eapply shard_chunks_bound).
  eexists. split; [done|]. destruct (Z.ltb_spec (free_slot_count (metadata_pages sh)) count).
  - destruct (reserve_chunks (allocator sh) 1) as [[al' r]|] eqn:Hres; cbn; [|done].
    destruct (reserve_shard_ok _ _ _ _ _ _ _ Hok Hres) as (Hok' & _ & Hr & _ & Hlo & Hhi).
    split; [by apply (grow_shard_ok (with_allocator al' sh))|].
    assert (0 ≤ free_slot_count (metadata_pages sh)).
    { rewrite (mo_count _ (so_meta _ _ _ _ _ _ Hok)). apply zsum_nonneg. intros. apply free_slots_nonneg. }
    lia.
  - cbn. split; [|done]. by destruct sh.
Qed.

Lemma reserve_space_spec sh owners pending lag count required :
  shard_ok lo hi sh owners pending lag → count ≤ ENTRIES_PER_METADATA_CHUNK →
  ∃ reserved sh', reserve_space sh count required = Done (reserved, sh')
    ∧ entry_index sh' = entry_index sh
    ∧ match reserved with
      | Some r => shard_ok lo hi sh' (r :: owners) pending lag ∧ chunk_count r = required ∧ 0 < required ∧ recovered r = false
      | None => shard_ok lo hi sh' owners pending lag
      end.
Proof.
  intros Hok Hcount. unfold reserve_space.
  destruct (ensure_shard_ok _ _ _ _ _ Hok Hcount) as (res & -> & Hres). cbn [mbind outcome_bind].
  destruct res as [[m al]|]; [|by eauto]. destruct Hres as [Hok' _].
  destruct (reserve_chunks al required) as [[al' r]|] eqn:Hr; [|by eauto].
  destruct (reserve_shard_ok (mkDiskCacheShard al (entry_index sh) m) _ _ _ _ _ _ Hok' Hr) as (? & ? & ? & ? & _).
  eexists _, _. split; [done|]. by split_and!.
Qed.
End reserving.

(** ** Publishing *)
Definition less_one (s : Z) (pending : Z → Z) : Z → Z := λ k, if decide (k = s) then pending k - 1 else pending k.

Lemma less_one_nonneg s pending : (∀ k, 0 ≤ pending k) → 0 < pending s → ∀ k, 0 ≤ less_one s pending k.
Proof. intros Hp Hpos k. unfold less_one. specialize (Hp k). destruct (decide (k = s)) as [->|]; lia. Qed.

Section publishing.
Context (lo hi : Z).

(** Releasing a held payload that no entry uses. *)
Lemma release_pending sh owners pending lag s r n :
  shard_ok lo hi sh owners pending lag → payload_chunks (allocator sh) !! s = Some (r, n) → 0 < pending s →
  ∃ al', release_payload (allocator sh) (s * CHUNK_BYTES) = Done al'
    ∧ shard_ok lo hi (with_allocator al' sh) owners (less_one s pending) lag
    ∧ (1 < n → payload_chunks al' !! s = Some (r, n - 1)).
Proof.
  intros Hok Hs Hpos. assert (Hdiv : s * CHUNK_BYTES / CHUNK_BYTES = s) by (by apply Z.div_mul).
  destruct (release_payload_eq (allocator sh) (s * CHUNK_BYTES) r n) as (al' & Hrel & Hpc); [by rewrite Hdiv|].
  rewrite Hdiv in Hpc. exists al'. split; [done|]. destruct Hok as [Hb Hal Hm Hi Hsl He Hu Hh Hg].
  assert (Hn := Hu _ _ _ Hs).
  assert (Hpc' : ∀ k, k ≠ s → payload_chunks al' !! k = payload_chunks (allocator sh) !! k).
  { intros k Hne. rewrite Hpc. case_decide; [by rewrite lookup_delete_ne|by rewrite lookup_insert_ne]. }
  assert (Hlast : n ≠ 1 → payload_chunks al' !! s = Some (r, n - 1)).
  { intros Hne. rewrite Hpc, decide_False by done. apply lookup_insert_eq. }
  split; [|intros; apply Hlast; lia].
  constructor; cbn [with_allocator allocator entry_index metadata_pages]; try done.
  - destruct Hb as (? & ? & ? & Hp). split_and!; try done. by apply less_one_nonneg.
  - by eapply release_payload_inv.
  - intros k r' n' Hk. unfold less_one. destruct (decide (k = s)) as [Hks|Hks].
    + subst k. rewrite Hpc in Hk. case_decide; [by rewrite lookup_delete_eq in Hk|].
      rewrite lookup_insert_eq in Hk. injection Hk as <- <-. lia.
    + rewrite Hpc' in Hk by done. by apply Hu with r'.
  - intros k e Hk. destruct (Hh _ _ Hk) as (r0 & n0 & Hr0 & Hin).
    destruct (decide (entry_chunk e = s)) as [Heq|Hne].
    + rewrite Heq in *. rewrite Hs in Hr0. injection Hr0 as <- <-.
      assert (0 < users s (entries_by_key (entry_index sh))) by (by eapply users_pos).
      exists r, (n - 1). split; [apply Hlast; lia|done].
    + exists r0, n0. by rewrite Hpc'.
Qed.

Lemma insert_entry_absent sh key e :
  entries_by_key (entry_index sh) !! key = None →
  insert_entry sh key e =
  Done (mkDiskCacheShard (allocator sh)
    (mkDiskEntryIndex (<[key := with_position (length (eviction_candidates (entry_index sh))) e]> (entries_by_key (entry_index sh)))
       (eviction_candidates (entry_index sh) ++ [key]) (next_sample_start (entry_index sh))
       (entries_gauge (entry_index sh)) (payload_bytes_gauge (entry_index sh))) (metadata_pages sh)).
Proof. intros Hk. unfold insert_entry. rewrite take_entry_absent by done. by destruct sh. Qed.

(** Indexing an entry whose payload is held and whose record was put into the
    unused slot [loc]. *)
Lemma index_record_ok sh owners pending lag s r n rec loc m idx :
  shard_ok lo hi sh owners pending lag → payload_chunks (allocator sh) !! s = Some (r, n) → 0 < pending s →
  entries_by_key (entry_index sh) !! meta_key rec = None →
  slot_at (chunks (metadata_pages sh)) loc = Some None →
  chunks m = set_slot (chunks (metadata_pages sh)) loc (Some rec) → meta_ok m →
  meta_payload_address rec / CHUNK_BYTES = s →
  meta_payload_address rec + payload_disk_bytes (meta_payload_len rec) ≤ range_end (disk_byte_range r) →
  let pushed := index_push (entries_by_key (entry_index sh)) (eviction_candidates (entry_index sh))
                  (meta_key rec) (new_DiskEntry rec loc) in
  idx = mkDiskEntryIndex pushed.1 pushed.2 (next_sample_start (entry_index sh))
          (entries_gauge (entry_index sh)) (payload_bytes_gauge (entry_index sh)) →
  shard_ok lo hi (mkDiskCacheShard (allocator sh) idx m) owners (less_one s pending) (lag.1 + 1, lag.2 + meta_payload_len rec).
Proof.
  intros Hok Hs Hpos Hnone Hloc Hcs Hm' Hchunk Hin. destruct Hok as [Hb Hal Hm Hi Hsl He Hu Hh [Hg1 Hg2]].
  intros pushed ->. unfold pushed, index_push. cbn [fst snd].
  assert (Hset := slot_at_set_slot (chunks (metadata_pages sh)) loc (Some rec) None Hloc).
  set (e := with_position _ (new_DiskEntry rec loc)).
  assert (Hec : entry_chunk e = s) by exact Hchunk.
  constructor; cbn [allocator entry_index metadata_pages entries_by_key eviction_candidates entries_gauge payload_bytes_gauge]; try done.
  - destruct Hb as (? & ? & ? & Hp). split_and!; try done. by apply less_one_nonneg.
  - by rewrite Hcs, reserved_fmap_set_slot.
  - exact (index_push_ok _ _ _ (new_DiskEntry rec loc) Hi Hnone).
  - intros k e' [[<- <-]|[Hne Hk]]%lookup_insert_Some; rewrite Hcs, Hset.
    + rewrite decide_True by done. by destruct rec.
    + rewrite decide_False; [by apply Hsl|]. intros Heq. assert (Hk' := Hsl _ _ Hk). rewrite Heq, Hloc in Hk'. done.
  - intros loc' r'. rewrite Hcs, Hset. case_decide as Hd.
    + intros [= <-]. exists e. rewrite lookup_insert_eq. by subst.
    + intros Hl. destruct (He _ _ Hl) as (e' & He' & Hl'). exists e'. rewrite lookup_insert_ne; [done|congruence].
  - intros k r' n' Hk. unfold users. rewrite msum_insert by done. fold (users k (entries_by_key (entry_index sh))).
    rewrite (Hu _ _ _ Hk), Hec. unfold less_one.
    destruct (decide (k = s)) as [->|Hne]; [rewrite bool_decide_eq_true_2 by done|rewrite bool_decide_eq_false_2 by done];
      cbn; lia.
  - intros k e' [[<- <-]|[Hne Hk]]%lookup_insert_Some; [|by apply Hh with k].
    exists r, n. by rewrite Hec.
  - unfold payload_bytes in *. rewrite map_size_insert_None, msum_insert by done. cbn [fst snd].
    change (payload_len e) with (meta_payload_len rec). lia.
Qed.

(** Publishing one entry of a batch: stores its record and indexes it. *)
Lemma publish_one sh owners pending lag s r n rec :
  shard_ok lo hi sh owners pending lag → payload_chunks (allocator sh) !! s = Some (r, n) → 0 < pending s →
  entries_by_key (entry_index sh) !! meta_key rec = None → record_ok rec → 0 < free_slot_count (metadata_pages sh) →
  meta_payload_address rec / CHUNK_BYTES = s →
  meta_payload_address rec + payload_disk_bytes (meta_payload_len rec) ≤ range_end (disk_byte_range r) →
  ∃ m loc sh', store_entry_metadata (metadata_pages sh) rec = Done (m, loc)
    ∧ insert_entry (mkDiskCacheShard (allocator sh) (entry_index sh) m) (meta_key rec) (new_DiskEntry rec loc) = Done sh'
    ∧ shard_ok lo hi sh' owners (less_one s pending) (lag.1 + 1, lag.2 + meta_payload_len rec)
    ∧ allocator sh' = allocator sh ∧ free_slot_count (metadata_pages sh') = free_slot_count (metadata_pages sh) - 1
    ∧ (∃ p, entries_by_key (entry_index sh') =
         <[meta_key rec := with_position p (new_DiskEntry rec loc)]> (entries_by_key (entry_index sh))).
Proof.
  intros Hok Hs Hpos Hnone Hrec Hfree Hchunk Hin.
  destruct (store_entry_metadata_spec _ _ (so_meta _ _ _ _ _ _ Hok) Hfree Hrec) as (m & loc & Hst & Hcs & Hloc & _ & Hct & _ & Hm').
  exists m, loc. eexists. split; [done|]. split; [by apply insert_entry_absent|].
  cbn [allocator entry_index metadata_pages entries_by_key]. split_and!; [|done|done|by eauto].
  by eapply (index_record_ok sh owners pending lag s r n rec loc m).
Qed.

Lemma shard_ok_pending sh owners pending pending' lag :
  (∀ k, pending k = pending' k) → shard_ok lo hi sh owners pending lag → shard_ok lo hi sh owners pending' lag.
Proof.
  intros Heq []. constructor; try done.
  - destruct so_bounds as (? & ? & ? & Hp). split_and!; try done. intros k. by rewrite <-Heq.
  - intros k r n Hk. rewrite <-Heq. eauto.
Qed.

Definition batch_record (base : Z) (w : WriteEntry) : EntryMetadata :=
  mkEntryMetadata (write_key w) (write_payload_len w) (base + buffer_offset w) (write_payload_checksum w).

(** The first entry of a list for a key. *)
Definition entry_for (k : Z) (ws : list WriteEntry) : option WriteEntry := head (filter (λ w, write_key w = k) ws).

Definition is_published (w : WriteEntry) : bool :=
  match attempt_outcome (attempt w) with Published => true | _ => false end.

(** What publication does to the index: existing keys keep their entry, other
    keys get the first entry of the list for them. *)
Definition published_index (base : Z) (ws : list WriteEntry) (m m' : gmap Z DiskEntry) : Prop :=
  ∀ k, match m !! k with
       | Some e => ∃ e', m' !! k = Some e' ∧ unplaced e' = unplaced e
       | None => match entry_for k ws with
                 | Some w => ∃ e', m' !! k = Some e' ∧ entry_record k e' = batch_record base w
                 | None => m' !! k = None
                 end
       end.

(** Only the first entry of the list for a key not indexed before is published. *)
Definition published_first (ws : list WriteEntry) (m : gmap Z DiskEntry) (outs : list WriteEntry) : Prop :=
  ∀ d, d ∈ outs → is_published d = true →
    ∃ w, d = with_outcome Published w ∧ m !! write_key w = None ∧ entry_for (write_key w) ws = Some w.

Lemma batch_record_ok r w :
  let s := range_start (chunk_numbers r) in
  0 < lo → lo ≤ s → range_end (chunk_numbers r) ≤ hi → hi * CHUNK_BYTES ≤ 2 ^ 63 →
  batch_entry_ok (chunk_count r * CHUNK_BYTES) w →
  record_ok (batch_record (s * CHUNK_BYTES) w)
  ∧ meta_payload_address (batch_record (s * CHUNK_BYTES) w) / CHUNK_BYTES = s
  ∧ meta_payload_address (batch_record (s * CHUNK_BYTES) w) + payload_disk_bytes (write_payload_len w)
      ≤ range_end (disk_byte_range r).
Proof.
  intros s Hlo Hs Hhi Hb (Hk & Hc & Hl & Ho & Hend). pose proof (payload_disk_bytes_spec _ Hl) as (_ & Hpd & _).
  unfold record_ok, batch_record, disk_byte_range, is_u64, chunk_count, CHUNK_BYTES in *. fold s in Hend.
  cbn [meta_key meta_payload_len meta_payload_address meta_payload_checksum range_end] in *.
  split_and!; try done; try lia. apply div_between; lia.
Qed.

Lemma publish_entries_spec r entries : ∀ sh owners pending lag,
  let s := range_start (chunk_numbers r) in
  shard_ok lo hi sh owners pending lag → Z.of_nat (length entries) ≤ pending s →
  (entries ≠ [] → ∃ n, payload_chunks (allocator sh) !! s = Some (r, n)) →
  lo ≤ s → range_end (chunk_numbers r) ≤ hi →
  Forall (batch_entry_ok (chunk_count r * CHUNK_BYTES)) entries →
  Z.of_nat (length entries) ≤ free_slot_count (metadata_pages sh) →
  ∃ sh' done published bytes,
    publish_entries sh (s * CHUNK_BYTES) entries = Done (sh', done, published, bytes)
    ∧ shard_ok lo hi sh' owners (λ k, if decide (k = s) then pending k - Z.of_nat (length entries) else pending k)
        (lag.1 + published, lag.2 + bytes)
    ∧ Forall2 (λ w d, d = with_outcome Published w ∨ d = with_outcome AlreadyCovered w) entries done
    ∧ published = zsum (λ d, Z.b2z (is_published d)) done
    ∧ (published = 0 → bytes = 0)
    ∧ published_first entries (entries_by_key (entry_index sh)) done
    ∧ published_index (s * CHUNK_BYTES) entries (entries_by_key (entry_index sh)) (entries_by_key (entry_index sh')).
Proof.
  induction entries as [|w entries IH]; intros sh owners pending lag s Hok Hpend Hheld Hlo Hhi Hbatch Hfree.
  { exists sh, [], 0, 0. cbn. split_and!; try done.
    - rewrite !Z.add_0_r, <-surjective_pairing. eapply shard_ok_pending; [|done]. intros k. case_decide; lia.
    - intros d ?%elem_of_nil. done.
    - intros k. destruct (entries_by_key (entry_index sh) !! k); cbn; eauto. }
  apply Forall_cons in Hbatch as [Hw Hbatch]. rewrite length_cons in *.
  destruct (Hheld ltac:(done)) as (n & Hn). destruct (so_bounds _ _ _ _ _ _ Hok) as (Hb63 & _ & Hlo0 & Hpn).
  assert (Hcount := so_users _ _ _ _ _ _ Hok _ _ _ Hn).
  pose proof (users_nonneg s (entries_by_key (entry_index sh))).
  assert (Hpext : ∀ k, (if decide (k = s) then less_one s pending k - Z.of_nat (length entries) else less_one s pending k)
                 = if decide (k = s) then pending k - Z.of_nat (S (length entries)) else pending k).
  { intros k. unfold less_one. destruct (decide (k = s)); lia. }
  assert (Hps : less_one s pending s = pending s - 1) by (unfold less_one; by rewrite decide_True).
  cbn [publish_entries]. destruct (entries_by_key (entry_index sh) !! write_key w) as [e|] eqn:Hk.
  - destruct (release_pending sh owners pending lag s r n Hok Hn ltac:(lia)) as (al' & -> & Hok' & Hn').
    cbn [mbind outcome_bind].
    destruct (IH (with_allocator al' sh) owners (less_one s pending) lag Hok')
      as (sh' & outs & pub & bytes & Hrun & Hok'' & Hdone & Hpub & Hpb & Hfirst & Hmap); [fold s; lia| |done|done|done|cbn; lia|].
    { intros Hne. exists (n - 1). apply Hn'. destruct entries; [done|]. rewrite length_cons in *. fold s in Hcount. lia. }
    fold s in Hrun. rewrite Hrun. cbn [mbind outcome_bind]. eexists _, _, _, _. split; [done|]. split_and!.
    + eapply shard_ok_pending; [|exact Hok'']. exact Hpext.
    + constructor; [by right|done].
    + rewrite zsum_cons. cbn. lia.
    + done.
    + intros d [->|Hd]%elem_of_cons Hp; [done|]. destruct (Hfirst d Hd Hp) as (w' & -> & Hn0 & Hf).
      exists w'. split_and!; try done. unfold entry_for. rewrite filter_cons_False; [done|].
      intros Heq. cbn [with_allocator entry_index] in Hn0. congruence.
    + intros k. specialize (Hmap k). cbn [with_allocator entry_index] in Hmap.
      destruct (entries_by_key (entry_index sh) !! k) as [e0|] eqn:Hk0; [done|].
      unfold entry_for. rewrite filter_cons_False by congruence. done.
  - destruct (batch_record_ok r w Hlo0 Hlo Hhi Hb63 Hw) as (Hrec & Hchunk & Hin). fold s in Hrec, Hchunk, Hin.
    destruct (publish_one sh owners pending lag s r n (batch_record (s * CHUNK_BYTES) w) Hok Hn ltac:(lia) Hk Hrec
                ltac:(lia) Hchunk Hin) as (m & loc & sh1 & Hst & Hins & Hok1 & Hal & Hfr & (p & Hents)).
    fold (batch_record (s * CHUNK_BYTES) w). rewrite Hst. cbn [mbind outcome_bind].
    change (write_key w) with (meta_key (batch_record (s * CHUNK_BYTES) w)). rewrite Hins. cbn [mbind outcome_bind].
    destruct (IH sh1 owners (less_one s pending) _ Hok1)
      as (sh' & outs & pub & bytes & Hrun & Hok'' & Hdone & Hpub & Hpb & Hfirst & Hmap);
      [fold s; lia|intros _; exists n; by rewrite Hal|done|done|done|rewrite Hfr; lia|].
    fold s in Hrun. rewrite Hrun. cbn [mbind outcome_bind]. eexists _, _, _, _. split; [done|]. split_and!.
    + eapply shard_ok_pending; [exact Hpext|].
      replace (lag.1 + (pub + 1), lag.2 + (bytes + write_payload_len w))
        with ((lag.1 + 1, lag.2 + meta_payload_len (batch_record (s * CHUNK_BYTES) w)).1 + pub,
              (lag.1 + 1, lag.2 + meta_payload_len (batch_record (s * CHUNK_BYTES) w)).2 + bytes)
        by (cbn; f_equal; lia). exact Hok''.
    + constructor; [by left|done].
    + rewrite zsum_cons. cbn. lia.
    + assert (0 ≤ pub) by (rewrite Hpub; apply zsum_nonneg; intros d _; by destruct (is_published d)). lia.
    + intros d [->|Hd]%elem_of_cons Hp.
      * exists w. split_and!; try done. unfold entry_for. by rewrite filter_cons_True.
      * destruct (Hfirst d Hd Hp) as (w' & -> & Hn0 & Hf). rewrite Hents in Hn0.
        apply lookup_insert_None in Hn0 as [Hn0 Hne]. cbn in Hne.
        exists w'. split_and!; try done. unfold entry_for. by rewrite filter_cons_False.
    + intros k. specialize (Hmap k). rewrite Hents in Hmap. cbn [meta_key batch_record] in Hmap.
      destruct (decide (k = write_key w)) as [->|Hne].
      * rewrite Hk. unfold entry_for. rewrite filter_cons_True by done. cbn.
        rewrite lookup_insert_eq in Hmap. destruct Hmap as (e' & He' & Hu). exists e'. split; [done|].
        apply unplaced_fields in Hu as (Hu1 & Hu2 & Hu3 & _). unfold entry_record, batch_record. cbn in *. congruence.
      * rewrite lookup_insert_ne in Hmap by done.
        destruct (entries_by_key (entry_index sh) !! k) as [e0|]; [done|].
        unfold entry_for. by rewrite filter_cons_False.
Qed.
End publishing.

Section write.
Context (lo hi : Z).

Lemma users_zero s m : (∀ k e, m !! k = Some e → entry_chunk e ≠ s) → users s m = 0.
Proof.
  intros Hno. unfold users. induction m as [|k e m Hnone IH] using map_ind; [apply msum_empty|].
  rewrite msum_insert by done. rewrite bool_decide_eq_false_2 by (eapply Hno; apply lookup_insert_eq).
  rewrite IH; [done|]. intros k' e' Hk'. apply (Hno k'). rewrite lookup_insert_ne; [done|congruence].
Qed.

(** Handing a reservation over to its payloads. *)
Lemma hold_shard_ok sh owners lag r n :
  shard_ok lo hi sh (r :: owners) idle lag → 0 < n →
  let s := range_start (chunk_numbers r) in
  let al := hold_chunks_until_payloads_released (allocator sh) r n in
  shard_ok lo hi (with_allocator al sh) owners (λ k, if decide (k = s) then n else 0) lag
  ∧ payload_chunks al !! s = Some (r, n)
  ∧ lo ≤ s ∧ range_end (chunk_numbers r) ≤ hi.
Proof.
  intros Hok Hn s al. destruct Hok as [Hb Hal Hm Hi Hsl He Hu Hh Hg].
  assert (Hal' : alloc_inv lo hi (allocator sh) (r :: (reserved_chunk <$> chunks (metadata_pages sh)) ++ owners))
    by (by rewrite Permutation_middle).
  destruct (put_held_ok lo hi _ _ r n Hn (proj1 Hal')) as [Hnone _].
  assert (Hpc : payload_chunks al = <[s := (r, n)]> (payload_chunks (allocator sh))).
  { unfold al. by rewrite (hold_until_eq lo hi _ _ _ _ Hn (proj1 Hal')). }
  destruct (owner_range _ _ _ _ _ (proj1 Hal')) as (Hlo & Hhi & _).
  split; [|by rewrite Hpc, lookup_insert_eq].
  constructor; cbn [with_allocator allocator entry_index metadata_pages]; try done.
  - destruct Hb as (? & ? & ? & _). split_and!; try done. intros k. case_decide; lia.
  - by apply hold_until_inv.
  - intros k r' n' Hk. rewrite Hpc in Hk. apply lookup_insert_Some in Hk as [[<- [= <- <-]]|[Hne Hk]].
    + rewrite decide_True, users_zero by done || (intros k e Hk Heq; destruct (Hh _ _ Hk) as (r0 & n0 & Hr0 & _);
        fold s in Hnone; rewrite Heq in Hr0; congruence). lia.
    + rewrite decide_False by done. rewrite (Hu _ _ _ Hk). done.
  - intros k e Hk. destruct (Hh _ _ Hk) as (r0 & n0 & Hr0 & Hin). exists r0, n0. split; [|done].
    rewrite Hpc, lookup_insert_ne; [done|]. intros Heq. rewrite <-Heq in Hr0. fold s in Hnone. congruence.
Qed.

Lemma add_gauges_ok sh owners pending a b : shard_ok lo hi sh owners pending (a, b) →
  shard_ok lo hi (add_gauges a b sh) owners pending (0, 0).
Proof. intros [? ? ? ? ? ? ? ? [Hg1 Hg2]]. constructor; cbn in *; try done. lia. Qed.

Lemma publish_spec sh owners r entries :
  shard_ok lo hi sh (r :: owners) idle (0, 0) → batch_ok (chunk_count r * CHUNK_BYTES) entries →
  ∃ sh' res, publish sh r entries = Done (sh', res)
    ∧ shard_ok lo hi sh' owners idle (0, 0)
    ∧ match res with
      | None => entry_index sh' = entry_index sh
      | Some (outs, published) =>
          Forall2 (λ w d, d = with_outcome Published w ∨ d = with_outcome AlreadyCovered w) (reverse entries) outs
          ∧ published = zsum (λ d, Z.b2z (is_published d)) outs
          ∧ published_first (reverse entries) (entries_by_key (entry_index sh)) outs
          ∧ published_index (range_start (disk_byte_range r)) (reverse entries)
              (entries_by_key (entry_index sh)) (entries_by_key (entry_index sh'))
      end.
Proof.
  intros Hok (Hne & Hlen & Hbatch). unfold publish.
  destruct (ensure_shard_ok lo hi _ _ _ _ _ Hok Hlen) as (res & -> & Hres). cbn [mbind outcome_bind].
  destruct res as [[m al]|].
  2:{ eexists _, _. split; [done|]. split; [by apply drop_shard_ok|done]. }
  destruct Hres as [Hok' Hfree].
  assert (Hpos : 0 < Z.of_nat (length entries)) by (destruct entries; [done|cbn; lia]).
  destruct (hold_shard_ok _ _ _ _ _ Hok' Hpos) as (Hok2 & Hheld & Hlo & Hhi).
  cbn [with_allocator allocator entry_index metadata_pages] in Hok2, Hheld.
  set (al2 := hold_chunks_until_payloads_released al r (Z.of_nat (length entries))) in *.
  set (s := range_start (chunk_numbers r)) in *.
  destruct (publish_entries_spec lo hi r (reverse entries) (mkDiskCacheShard al2 (entry_index sh) m) owners _ _ Hok2)
    as (sh' & outs & pub & bytes & Hrun & Hok3 & Hdone & Hpub & Hpb & Hfirst & Hmap).
  { fold s. rewrite decide_True by done. by rewrite length_reverse. }
  { intros _. by exists (Z.of_nat (length entries)). }
  { done. } { done. } { by apply Forall_reverse. } { by rewrite length_reverse. }
  change (range_start (disk_byte_range r)) with (s * CHUNK_BYTES). fold s in Hrun. rewrite Hrun. cbn [mbind outcome_bind].
  eexists _, _. split; [done|]. split.
  - assert (Hok4 : shard_ok lo hi sh' owners idle (pub, bytes)).
    { eapply shard_ok_pending; [|exact Hok3]. intros k. rewrite length_reverse. fold s. unfold idle.
      destruct (decide (k = s)); lia. }
    destruct (Z.eqb_spec pub 0) as [->|]; [by rewrite (Hpb eq_refl) in Hok4|]. by apply add_gauges_ok.
  - split_and!; try done. by destruct (pub =? 0).
Qed.

Context `{RetentionScorer Hist} (histories : Hist) (sample_size : nat).

(** Entries that differ at most in whether their attempt evicted. *)
Definition same_write (w w' : WriteEntry) : Prop := w' = with_evicted (evicted (attempt w')) w.

Lemma same_write_batch n ws ws' : Forall2 same_write ws ws' → batch_ok n ws → batch_ok n ws'.
Proof.
  intros Hs (Hne & Hlen & Hb). split_and!.
  - intros ->. by apply Forall2_nil_inv_r in Hs.
  - by rewrite <-(Forall2_length _ _ _ Hs).
  - clear Hne Hlen. induction Hs as [|w w' ws ws' Hw Hs IH]; [done|].
    apply Forall_cons in Hb as [? ?]. constructor; [|auto]. by rewrite Hw.
Qed.

(** What eviction may do to the index: remove at most [n] entries, of at most
    [c] chunks together, and keep the rest. *)
Definition evicts (n c : Z) (m m' : gmap Z DiskEntry) : Prop :=
  (∀ k e', m' !! k = Some e' → ∃ e, m !! k = Some e ∧ unplaced e = unplaced e')
  ∧ Z.of_nat (size m) - Z.of_nat (size m') ≤ n
  ∧ msum (λ _ e, entry_chunk_count e) m - msum (λ _ e, entry_chunk_count e) m' ≤ c.

Lemma reserve_loop_spec fuel : ∀ sh owners entries required attempts budget,
  shard_ok lo hi sh owners idle (0, 0) → entries ≠ [] → Z.of_nat (length entries) ≤ ENTRIES_PER_METADATA_CHUNK →
  0 ≤ attempts < Z.of_nat fuel → 0 ≤ budget →
  ∃ res sh' entries', reserve_loop histories sample_size fuel sh entries required attempts budget = Done (res, sh', entries')
    ∧ Forall2 same_write entries entries'
    ∧ evicts attempts budget (entries_by_key (entry_index sh)) (entries_by_key (entry_index sh'))
    ∧ match res with
      | Some r => shard_ok lo hi sh' (r :: owners) idle (0, 0) ∧ chunk_count r = required ∧ 0 < required
      | None => shard_ok lo hi sh' owners idle (0, 0)
      end.
Proof.
  induction fuel as [|fuel IH]; intros sh owners entries required attempts budget Hok Hne Hlen Hfuel Hbud; [lia|].
  cbn [reserve_loop].
  destruct (reserve_space_spec lo hi sh owners idle (0, 0) (Z.of_nat (length entries)) required Hok Hlen)
    as (res & sh1 & -> & Hidx & Hres). cbn [mbind outcome_bind].
  assert (Hrefl : Forall2 same_write entries entries).
  { apply Forall_Forall2_diag, Forall_true. intros [? ? ? ? []]. done. }
  assert (Hev0 : evicts attempts budget (entries_by_key (entry_index sh)) (entries_by_key (entry_index sh))).
  { split_and!; [eauto|lia|lia]. }
  destruct res as [r|].
  { destruct Hres as (? & ? & ? & _). eexists _, _, _. split; [done|]. rewrite Hidx. by split_and!. }
  destruct (_ <? required).
  { eexists _, _, _. split; [done|]. rewrite Hidx. by split_and!. }
  destruct (sample_and_evict_spec lo hi histories sh1 owners idle (0, 0) sample_size attempts budget Hres)
    as (sampled & sh2 & budget' & -> & Hok2 & Hzero & Hfalse & Htrue). cbn [mbind outcome_bind].
  destruct sampled; cbn [negb].
  2:{ destruct (Hfalse eq_refl) as [-> ->]. eexists _, _, _. split; [done|]. rewrite Hidx. by split_and!. }
  assert (Hnz : attempts ≠ 0) by (intros ->; destruct Hzero as [_ Hz]; discriminate Hz; auto).
  assert (Hstep : 0 ≤ budget' ∧ evicts 1 (budget - budget') (entries_by_key (entry_index sh)) (entries_by_key (entry_index sh2))).
  { rewrite <-Hidx. destruct (Htrue eq_refl) as [(-> & -> & _)|(key & e & _ & He & -> & Hb & Hsame & _)].
    - split; [done|]. split_and!; [eauto|lia|lia].
    - split; [done|]. split_and!.
      + intros k e' Hk. destruct (same_entries_lookup _ _ _ _ Hsame Hk) as (e0 & [_ H0]%lookup_delete_Some & Heq). eauto.
      + rewrite (same_entries_size _ _ Hsame), map_size_delete_Some by eauto. lia.
      + rewrite (msum_unplaced (λ _ e, entry_chunk_count e) _ _ ltac:(done) Hsame), (msum_delete _ _ _ _ He). lia. }
  destruct Hstep as [Hb' Hev1]. destruct entries as [|w ws]; [done|]. cbn [head unwrap mbind outcome_bind tail].
  set (b := bool_decide _). rewrite length_cons in Hlen.
  destruct (IH sh2 owners (with_evicted b w :: ws) required (attempts - 1) budget' Hok2 ltac:(done)
              ltac:(rewrite length_cons; lia) ltac:(lia) Hb') as (res & sh' & es & Hrun & Hsame & Hev2 & Hfin).
  eexists _, _, _. split; [exact Hrun|]. split_and!; [| |done].
  - apply Forall2_cons_inv_l in Hsame as (w' & ws' & Hw & Hws & ->). constructor; [|done].
    unfold same_write in *. by rewrite Hw.
  - destruct Hev1 as (Hk1 & Hs1 & Hc1), Hev2 as (Hk2 & Hs2 & Hc2). split_and!; [|lia|lia].
    intros k e' Hk. destruct (Hk2 _ _ Hk) as (e1 & He1 & Heq1). destruct (Hk1 _ _ He1) as (e0 & He0 & Heq0).
    exists e0. split; [done|congruence].
Qed.

End write.

(** ** The whole write *)
Section payload.
Context `{StorageFileOk F} `{RetentionScorer Hist} (histories : Hist) (sample_size : nat).

(** The bytes of entry [w] in the payload. *)
Definition entry_bytes (bytes : list byte) (w : WriteEntry) : list byte :=
  slice (Z.to_nat (buffer_offset w)) (Z.to_nat (buffer_offset w + write_payload_len w)) bytes.

Lemma payload_on_disk (d d' : disk) base bytes pad w :
  (∀ a, d' a = disk_write d base (bytes ++ pad) a) → 0 ≤ buffer_offset w → 0 ≤ write_payload_len w →
  buffer_offset w + write_payload_len w ≤ Z.of_nat (length bytes) →
  disk_read d' (base + buffer_offset w) (Z.to_nat (write_payload_len w)) = entry_bytes bytes w.
Proof.
  intros Hd' Ho Hl Hend. apply disk_read_eq.
  - unfold entry_bytes. rewrite length_slice; lia.
  - intros i b Hb. rewrite Hd'. unfold entry_bytes, slice in Hb. rewrite lookup_take_Some in Hb. destruct Hb as [Hb _].
    rewrite lookup_drop in Hb.
    replace (base + buffer_offset w + Z.of_nat i) with (base + Z.of_nat (Z.to_nat (buffer_offset w) + i)) by lia.
    apply disk_write_in. rewrite lookup_app_l; [done|]. by eapply lookup_lt_Some.
Qed.

Lemma with_outcome_terminal o ws :
  o ≠ Canceled → Forall2 (λ w d, write_key d = write_key w ∧ attempt_outcome (attempt d) ≠ Canceled) ws (with_outcome o <$> ws).
Proof. intros Ho. induction ws; constructor; auto. Qed.

Lemma with_outcome_unpublished o ws :
  o ≠ Published → zsum (λ d, Z.b2z (is_published d)) (with_outcome o <$> ws) = 0
  ∧ ∀ d, d ∈ with_outcome o <$> ws → is_published d = false.
Proof.
  intros Ho. split.
  - induction ws as [|w ws IH]; [done|]. cbn [fmap list_fmap]. rewrite zsum_cons, IH. by destruct o.
  - intros d (w & -> & _)%list_elem_of_fmap. by destruct o.
Qed.

(** A byte that a write may change: it lies in a chunk of the shard that holds
    neither metadata nor a payload nor another write. *)
Definition writable (lo hi : Z) (sh : DiskCacheShard) (owners : list ReservedChunks) (a : Z) : Prop :=
  let c := a / CHUNK_BYTES in
  lo ≤ c < hi ∧ cover c ((reserved_chunk <$> chunks (metadata_pages sh)) ++ owners) = 0 ∧ held_cover c (allocator sh) = 0.

(** The ways a write ends: without space, with a failed write, or with its
    entries published from the disk address [base]. *)
Definition write_ends (f f' : F) (sh1 sh' : DiskCacheShard) (bytes : list byte) (es outs : list WriteEntry) (res : DataFileResult Z) : Prop :=
  match res with
  | Err _ => outs = with_outcome Failed <$> es ∧ entry_index sh' = entry_index sh1
  | Ok n =>
      (n = 0 ∧ outs = with_outcome NoCapacity <$> es ∧ entry_index sh' = entry_index sh1)
      ∨ ∃ base pad, (∀ a, contents f' a = disk_write (contents f) base (bytes ++ pad) a)
          ∧ Forall2 (λ w d, d = with_outcome Published w ∨ d = with_outcome AlreadyCovered w) es outs
          ∧ n = zsum (λ d, Z.b2z (is_published d)) outs
          ∧ published_first (reverse es) (entries_by_key (entry_index sh1)) outs
          ∧ published_index base (reverse es) (entries_by_key (entry_index sh1)) (entries_by_key (entry_index sh'))
  end.

Lemma write_payload_cases lo hi (f : F) sh owners counters bytes entries :
  shard_ok lo hi sh owners idle (0, 0) → (0 < length bytes)%nat →
  batch_ok (div_ceil (Z.of_nat (length bytes)) CHUNK_BYTES * CHUNK_BYTES) entries →
  ∃ f' sh' counters' res outs sh1 es,
    write_payload histories sample_size f sh counters bytes entries = Done (f', sh', counters', res, outs)
    ∧ shard_ok lo hi sh' owners idle (0, 0) ∧ capacity f' = capacity f
    ∧ Forall2 same_write entries es
    ∧ evicts MAX_EVICTION_ATTEMPTS MAX_EVICTION_CHUNKS (entries_by_key (entry_index sh)) (entries_by_key (entry_index sh1))
    ∧ (∃ owners1, shard_ok lo hi sh1 owners1 idle (0, 0))
    ∧ (∀ a, contents f' a ≠ contents f a → writable lo hi sh1 owners a)
    ∧ write_ends f f' sh1 sh' bytes es outs res.
Proof.
  intros Hok Hbytes (Hne & Hlen & Hbatch). unfold write_payload. set (required := div_ceil _ CHUNK_BYTES) in *.
  destruct (reserve_loop_spec lo hi histories sample_size (Z.to_nat MAX_EVICTION_ATTEMPTS + 1) sh owners entries required
     MAX_EVICTION_ATTEMPTS MAX_EVICTION_CHUNKS Hok Hne Hlen ltac:(done) ltac:(done))
    as (res & sh1 & es & -> & Hsame & Hev & Hres). cbn [mbind outcome_bind].
  destruct res as [r|].
  2:{ do 5 eexists. exists sh1, es. split; [done|]. split_and!; eauto; [done|]. left. by split_and!. }
  destruct Hres as (Hok1 & Hr & Hreq).
  assert (Hal1 := so_alloc _ _ _ _ _ _ Hok1). rewrite <-Permutation_middle in Hal1.
  destruct (owner_range _ _ _ _ _ (proj1 Hal1)) as (Hlo & Hhi & Hexcl).
  destruct (so_bounds _ _ _ _ _ _ Hok1) as (_ & _ & Hlo0 & _).
  set (base := range_start (disk_byte_range r)).
  assert (Hwidth : range_end (disk_byte_range r) - base = required * CHUNK_BYTES).
  { unfold base, disk_byte_range, chunk_count in *. cbn. lia. }
  rewrite Hwidth. pose proof (div_ceil_mul (Z.of_nat (length bytes)) CHUNK_BYTES ltac:(done)) as Hceil. fold required in Hceil.
  destruct (write_padded_ok f base (required * CHUNK_BYTES) bytes) as (f' & wr & -> & Hcap & Hout & Hwok & _).
  { unfold base, disk_byte_range, CHUNK_BYTES. cbn. lia. }
  { apply chunk_aligned. } { apply chunk_aligned. } { lia. }
  assert (Hframe : ∀ a, contents f' a ≠ contents f a → writable lo hi sh1 owners a).
  { intros a Ha. assert (Hin : base ≤ a < base + required * CHUNK_BYTES).
    { apply dec_stable. intros Hn. apply Ha, Hout. lia. }
    assert (Hc : range_start (chunk_numbers r) ≤ a / CHUNK_BYTES < range_end (chunk_numbers r)).
    { unfold base, disk_byte_range, chunk_count in *. cbn [range_start range_end] in *. split.
      - apply Z.div_le_lower_bound; [done|]. lia.
      - apply Z.div_lt_upper_bound; [done|]. lia. }
    destruct (Hexcl (a / CHUNK_BYTES)) as (_ & ? & ?); [by apply in_range_true|]. split_and!; try done; lia. }
  cbn [mbind outcome_bind]. destruct wr as [[]|err].
  2:{ do 5 eexists. exists sh1, es. split; [done|]. split_and!; eauto; [by apply drop_shard_ok|done]. }
  assert (Hb' : batch_ok (chunk_count r * CHUNK_BYTES) es).
  { rewrite Hr. eapply same_write_batch; [exact Hsame|]. by split_and!. }
  destruct (publish_spec lo hi sh1 owners r es Hok1 Hb') as (sh2 & pub & -> & Hok2 & Hpub). cbn [mbind outcome_bind].
  destruct pub as [[outs n]|].
  2:{ do 5 eexists. exists sh1, es. split; [done|]. split_and!; eauto. left. by split_and!. }
  destruct Hpub as (Houts & -> & Hfirst & Hidx). do 5 eexists. exists sh1, es. split; [done|]. split_and!; eauto.
  right. destruct (Hwok eq_refl) as [_ Hcont]. exists base. eexists. split; [exact Hcont|]. split_and!; [| |  |exact Hidx].
  - apply Forall2_reverse in Houts. by rewrite reverse_involutive in Houts.
  - by rewrite reverse_Permutation.
  - intros d Hd Hp. rewrite elem_of_reverse in Hd. by apply Hfirst.
Qed.

(** The entry of a batch that was written last for a key. *)
Definition newest (k : Z) (ws : list WriteEntry) : option WriteEntry := last (filter (λ w, write_key w = k) ws).

Lemma entry_for_reverse k ws : entry_for k (reverse ws) = newest k ws.
Proof. unfold entry_for, newest. by rewrite filter_reverse, head_reverse. Qed.

Lemma newest_member k ws w : newest k ws = Some w → w ∈ ws ∧ write_key w = k.
Proof. intros Hw. apply last_Some_elem_of, list_elem_of_filter in Hw as [? ?]. done. Qed.

Lemma same_write_newest k ws ws' :
  Forall2 same_write ws ws' → option_relation same_write (λ _, False) (λ _, False) (newest k ws) (newest k ws').
Proof.
  intros Hs. unfold newest. assert (Hf : Forall2 same_write (filter (λ w, write_key w = k) ws) (filter (λ w, write_key w = k) ws')).
  { induction Hs as [|w w' ws ws' Hw Hs IH]; [constructor|]. assert (write_key w' = write_key w) as Heq by (by rewrite Hw).
    destruct (decide (write_key w = k)); [rewrite !filter_cons_True by congruence; by constructor|by rewrite !filter_cons_False by congruence]. }
  clear Hs. induction Hf as [|w w' l l' Hw Hf IH]; [done|]. destruct Hf; [done|exact IH].
Qed.

Lemma same_write_member ws ws' w' : Forall2 same_write ws ws' → w' ∈ ws' → ∃ w, w ∈ ws ∧ same_write w w'.
Proof.
  intros Hs (i & Hi)%list_elem_of_lookup. destruct (Forall2_lookup_r _ _ _ _ _ Hs Hi) as (w & Hw & ?). exists w. split; [by eapply list_elem_of_lookup_2|done].
Qed.

Lemma same_write_outs ws ws' outs :
  Forall2 same_write ws ws' → Forall2 (λ w d, write_key d = write_key w ∧ attempt_outcome (attempt d) ≠ Canceled) ws' outs →
  Forall2 (λ w d, write_key d = write_key w ∧ attempt_outcome (attempt d) ≠ Canceled) ws outs.
Proof.
  intros Hs. revert outs. induction Hs as [|w w' ws ws' Hw Hs IH]; intros outs Ho.
  - apply Forall2_nil_inv_l in Ho as ->. constructor.
  - apply Forall2_cons_inv_l in Ho as (d & ds & [Hd1 Hd2] & Hds & ->). constructor; [|auto].
    split; [|done]. rewrite Hd1, Hw. done.
Qed.

(** What a write that reached publication did for each key.  A key of the batch
    that was indexed keeps its entry, and all its attempts are covered; otherwise its
    newest entry is published: it is indexed with its own length and checksum, and its
    bytes are on the disk at the indexed address.  Other keys can only lose their
    entry. *)
Definition batch_published (m m' : gmap Z DiskEntry) (d' : disk) (bytes : list byte) (entries outs : list WriteEntry) : Prop :=
  ∀ k, match newest k entries with
       | None => ∀ e, m' !! k = Some e → ∃ e0, m !! k = Some e0 ∧ unplaced e0 = unplaced e
       | Some w => ∃ e, m' !! k = Some e ∧
           ((∃ e0, m !! k = Some e0 ∧ unplaced e0 = unplaced e)
              ∧ (∀ d, d ∈ outs → write_key d = k → attempt_outcome (attempt d) = AlreadyCovered)
            ∨ payload_len e = write_payload_len w ∧ payload_checksum e = write_payload_checksum w
              ∧ disk_read d' (payload_address e) (Z.to_nat (payload_len e)) = entry_bytes bytes w
              ∧ ∀ d, d ∈ outs → write_key d = k → is_published d = true →
                  ∃ evicted0, d = with_outcome Published (with_evicted evicted0 w))
       end.

Lemma published_outcome m ws outs d :
  Forall2 (λ w d, d = with_outcome Published w ∨ d = with_outcome AlreadyCovered w) ws outs → published_first (reverse ws) m outs → d ∈ outs →
  (m !! write_key d ≠ None → attempt_outcome (attempt d) = AlreadyCovered)
  ∧ (is_published d = true → ∃ w, newest (write_key d) ws = Some w ∧ d = with_outcome Published w).
Proof.
  intros Houts Hfirst Hd. split.
  - intros Hm. apply list_elem_of_lookup in Hd as (i & Hi). destruct (Forall2_lookup_r _ _ _ _ _ Houts Hi) as (w & _ & [->| ->]); [|done].
    destruct (Hfirst (with_outcome Published w)) as (w' & Heq & Hn & _); [by eapply list_elem_of_lookup_2|done|].
    exfalso. apply Hm. rewrite Heq. exact Hn.
  - intros Hp. destruct (Hfirst d Hd Hp) as (w & -> & _ & Hw). exists w. by rewrite <-entry_for_reverse.
Qed.

Lemma write_ends_published (f f' : F) sh sh1 sh' n c bytes entries es outs base pad :
  Forall2 same_write entries es → evicts n c (entries_by_key (entry_index sh)) (entries_by_key (entry_index sh1)) →
  Forall (λ w, 0 ≤ write_payload_len w ∧ 0 ≤ buffer_offset w ∧ buffer_offset w + write_payload_len w ≤ Z.of_nat (length bytes)) entries →
  (∀ a, contents f' a = disk_write (contents f) base (bytes ++ pad) a) →
  Forall2 (λ w d, d = with_outcome Published w ∨ d = with_outcome AlreadyCovered w) es outs →
  published_first (reverse es) (entries_by_key (entry_index sh1)) outs →
  published_index base (reverse es) (entries_by_key (entry_index sh1)) (entries_by_key (entry_index sh')) →
  batch_published (entries_by_key (entry_index sh)) (entries_by_key (entry_index sh')) (contents f') bytes entries outs.
Proof.
  intros Hsame (Hev & _) Hin Hcont Houts Hfirst Hidx k. specialize (Hidx k). rewrite entry_for_reverse in Hidx.
  pose proof (same_write_newest k _ _ Hsame) as Hn. destruct (newest k entries) as [w|] eqn:Hw, (newest k es) as [w'|] eqn:Hw'; cbn in Hn; try done.
  - destruct (newest_member _ _ _ Hw) as [Hwin Hwk]. destruct (entries_by_key (entry_index sh1) !! k) as [e1|] eqn:He1.
    + destruct Hidx as (e & He & Hu). destruct (Hev k e1 He1) as (e0 & He0 & Hu0). exists e. split; [done|]. left. split; [exists e0; split; [done|congruence]|].
      intros d Hd Hk. apply (published_outcome _ _ _ _ Houts Hfirst Hd). by rewrite Hk, He1.
    + destruct Hidx as (e & He & Hrec). exists e. split; [done|]. right. unfold entry_record, batch_record in Hrec. injection Hrec as _ Hl Ha Hc.
      rewrite Hn in Hl, Ha, Hc. cbn [with_evicted write_payload_len write_payload_checksum buffer_offset] in Hl, Ha, Hc. split_and!; try done.
      * rewrite Forall_forall in Hin. destruct (Hin w Hwin) as (? & ? & ?). rewrite Hl, Ha. by eapply payload_on_disk.
      * intros d Hd Hk Hp. destruct (proj2 (published_outcome _ _ _ _ Houts Hfirst Hd) Hp) as (w0 & Hw0 & ->). rewrite Hk, Hw' in Hw0. injection Hw0 as <-.
        exists (evicted (attempt w')). f_equal. exact Hn.
  - intros e He. destruct (entries_by_key (entry_index sh1) !! k) as [e1|] eqn:He1; [|congruence]. destruct Hidx as (e' & He' & Hu).
    destruct (Hev k e1 He1) as (e0 & He0 & Hu0). exists e0. split; [done|congruence].
Qed.

Lemma write_payload_spec lo hi (f : F) sh owners counters bytes entries :
  shard_ok lo hi sh owners idle (0, 0) → (0 < length bytes)%nat →
  batch_ok (div_ceil (Z.of_nat (length bytes)) CHUNK_BYTES * CHUNK_BYTES) entries →
  Forall (λ w, buffer_offset w + write_payload_len w ≤ Z.of_nat (length bytes)) entries →
  let m := entries_by_key (entry_index sh) in
  ∃ f' sh' counters' res outs,
    write_payload histories sample_size f sh counters bytes entries = Done (f', sh', counters', res, outs)
    ∧ shard_ok lo hi sh' owners idle (0, 0)
    ∧ Forall2 (λ w d, write_key d = write_key w ∧ attempt_outcome (attempt d) ≠ Canceled) entries outs
    ∧ let m' := entries_by_key (entry_index sh') in
      match res with
      | Err _ => Forall (λ d, attempt_outcome (attempt d) = Failed) outs ∧ evicts MAX_EVICTION_ATTEMPTS MAX_EVICTION_CHUNKS m m'
      | Ok published =>
          published = zsum (λ d, Z.b2z (is_published d)) outs
          ∧ (Forall (λ d, attempt_outcome (attempt d) = NoCapacity) outs ∧ evicts MAX_EVICTION_ATTEMPTS MAX_EVICTION_CHUNKS m m'
             ∨ Forall (λ d, attempt_outcome (attempt d) ∈ [Published; AlreadyCovered]) outs ∧ batch_published m m' (contents f') bytes entries outs)
      end.
Proof.
  intros Hok Hbytes Hbatch Hinside m.
  destruct (write_payload_cases lo hi f sh owners counters bytes entries Hok Hbytes Hbatch)
    as (f' & sh' & c' & res & outs & sh1 & es & Hrun & Hok' & _ & Hsame & Hev & _ & _ & Hend).
  exists f', sh', c', res, outs. split; [done|]. split; [done|]. cbn zeta. destruct res as [n|e]; cbn in Hend.
  2:{ destruct Hend as [-> ->]. split; [apply (same_write_outs _ es); [done|by apply with_outcome_terminal]|].
      split; [|done]. apply Forall_fmap, Forall_true. done. }
  destruct Hend as [(-> & -> & ->)|(base & pad & Hcont & Houts & -> & Hfirst & Hidx)].
  { split; [apply (same_write_outs _ es); [done|by apply with_outcome_terminal]|].
    destruct (with_outcome_unpublished NoCapacity es) as [Hz Hp]; [done|]. rewrite Hz. split; [done|].
    left. split; [|done]. apply Forall_fmap, Forall_true. done. }
  split; [apply (same_write_outs _ es); [done|]; eapply Forall2_impl; [exact Houts|]; by intros w d [->| ->]|].
  split; [done|]. right. split.
  - apply Forall_forall. intros d Hd. apply list_elem_of_lookup in Hd as (i & Hi). destruct (Forall2_lookup_r _ _ _ _ _ Houts Hi) as (w & _ & [->| ->]); cbn; set_solver.
  - eapply (write_ends_published f f' sh sh1); try done. destruct Hbatch as (_ & _ & Hbe). rewrite Forall_forall in *. intros w Hw.
    destruct (Hbe w Hw) as (_ & _ & ? & ? & _). specialize (Hinside w Hw). cbn in Hinside. lia.
Qed.
End payload.

(** ** Concurrent writers

    A shard and the writes in progress on it, each holding its reservation.
    Every step is one critical section: space is reserved, an entry is evicted
    or removed, a write fails, or a finished write is published. *)
Definition new_shard (lo hi : Z) : DiskCacheShard :=
  mkDiskCacheShard (with_metrics (mkRange (lo * CHUNK_BYTES) (hi * CHUNK_BYTES)) (mkChunkMetrics 0 0 0))
    new_index default_metadata.

Section steps.
Context `{RetentionScorer Hist} (histories : Hist) (sample_size : nat).

Inductive shard_step : DiskCacheShard * list (ReservedChunks * list WriteEntry) →
                       DiskCacheShard * list (ReservedChunks * list WriteEntry) → Prop :=
  | step_reserved sh fl required ws r sh' :
      batch_ok (required * CHUNK_BYTES) ws →
      reserve_space sh (Z.of_nat (length ws)) required = Done (Some r, sh') →
      shard_step (sh, fl) (sh', (r, ws) :: fl)
  | step_no_space sh fl count required sh' :
      count ≤ ENTRIES_PER_METADATA_CHUNK → reserve_space sh count required = Done (None, sh') →
      shard_step (sh, fl) (sh', fl)
  | step_evict sh fl attempts budget b sh' attempts' budget' :
      sample_and_evict_entry histories sample_size sh attempts budget = Done (b, sh', attempts', budget') →
      shard_step (sh, fl) (sh', fl)
  | step_remove sh fl key sh' :
      remove_entry_from_index sh key = Done sh' → shard_step (sh, fl) (sh', fl)
  | step_write_failed sh fl1 r ws fl2 :
      shard_step (sh, fl1 ++ (r, ws) :: fl2) (with_allocator (drop_reserved (allocator sh) r) sh, fl1 ++ fl2)
  | step_publish sh fl1 r ws fl2 sh' res :
      publish sh r ws = Done (sh', res) →
      shard_step (sh, fl1 ++ (r, ws) :: fl2) (sh', fl1 ++ fl2).

(** The writes in progress hold batches that fit their reservations. *)
Definition flights_ok (fl : list (ReservedChunks * list WriteEntry)) : Prop :=
  Forall (λ x, batch_ok (chunk_count x.1 * CHUNK_BYTES) x.2) fl.
End steps.

Section system.
Context (lo hi : Z) `{RetentionScorer Hist} (histories : Hist) (sample_size : nat).

Lemma shard_ok_owners sh o1 o2 pending lag : o1 ≡ₚ o2 → shard_ok lo hi sh o1 pending lag → shard_ok lo hi sh o2 pending lag.
Proof. intros Hp []. constructor; try done. by rewrite <-Hp. Qed.

Lemma remove_entry_total sh owners key :
  shard_ok lo hi sh owners idle (0, 0) →
  ∃ sh', remove_entry_from_index sh key = Done sh' ∧ shard_ok lo hi sh' owners idle (0, 0).
Proof.
  intros Hok. destruct (entries_by_key (entry_index sh) !! key) as [e|] eqn:Hk.
  - destruct (remove_entry_spec _ _ _ _ _ _ _ _ Hok Hk) as (sh' & ? & ? & _). eauto.
  - exists sh. split; [|done]. unfold remove_entry_from_index. by rewrite take_entry_absent.
Qed.

Lemma shard_step_ok s s' :
  shard_step histories sample_size s s' → shard_ok lo hi s.1 (fst <$> s.2) idle (0, 0) → flights_ok s.2 →
  shard_ok lo hi s'.1 (fst <$> s'.2) idle (0, 0) ∧ flights_ok s'.2.
Proof.
  destruct 1 as [sh fl required ws r sh' Hb Hres|sh fl count required sh' Hc Hres|sh fl a b sm sh' a' b' Hev
    |sh fl key sh' Hrem|sh fl1 r ws fl2|sh fl1 r ws fl2 sh' res Hpub]; cbn [fst snd]; intros Hok Hfl.
  - destruct (reserve_space_spec lo hi sh _ idle (0, 0) (Z.of_nat (length ws)) required Hok ltac:(apply Hb))
      as (res & sh1 & Hres' & _ & Hr). rewrite Hres in Hres'. injection Hres' as <- <-.
    destruct Hr as (? & Hcc & _). split; [done|]. constructor; [by rewrite <-Hcc in Hb|done].
  - destruct (reserve_space_spec lo hi sh _ idle (0, 0) count required Hok Hc) as (res & sh1 & Hres' & _ & Hr).
    rewrite Hres in Hres'. by injection Hres' as <- <-.
  - destruct (sample_and_evict_spec lo hi histories sh _ idle (0, 0) sample_size a b Hok) as (sm' & sh1 & b1 & Hev' & Hok' & _).
    rewrite Hev in Hev'. by injection Hev' as -> <- _ _.
  - destruct (remove_entry_total _ _ key Hok) as (sh1 & Hrem' & Hok'). rewrite Hrem in Hrem'. by injection Hrem' as <-.
  - unfold flights_ok in *. rewrite Forall_app, Forall_cons in Hfl. rewrite Forall_app. split; [|tauto].
    apply drop_shard_ok. eapply shard_ok_owners; [|exact Hok]. rewrite !fmap_app. cbn. by rewrite Permutation_middle.
  - unfold flights_ok in *. rewrite Forall_app, Forall_cons in Hfl. destruct Hfl as (? & Hb & ?). rewrite Forall_app. split; [|done].
    assert (Hok1 : shard_ok lo hi sh (r :: (fst <$> fl1 ++ fl2)) idle (0, 0)).
    { eapply shard_ok_owners; [|exact Hok]. rewrite !fmap_app. cbn. by rewrite Permutation_middle. }
    destruct (publish_spec lo hi sh _ r ws Hok1 Hb) as (sh1 & res1 & Hpub' & Hok' & _).
    rewrite Hpub in Hpub'. by injection Hpub' as <- _.
Qed.

Lemma new_shard_ok : 0 < lo → lo < hi → hi * CHUNK_BYTES ≤ 2 ^ 63 → hi - lo < 2 ^ 32 →
  shard_ok lo hi (new_shard lo hi) [] idle (0, 0).
Proof.
  intros Hlo Hlt Hhi Hw. constructor; try done.
  - apply with_metrics_inv; [lia|done|]. unfold CHUNK_BYTES in Hhi. lia.
  - apply default_meta_ok.
Qed.

Lemma shard_reachable sh fl :
  0 < lo → lo < hi → hi * CHUNK_BYTES ≤ 2 ^ 63 → hi - lo < 2 ^ 32 →
  rtc (shard_step histories sample_size) (new_shard lo hi, []) (sh, fl) →
  shard_ok lo hi sh (fst <$> fl) idle (0, 0) ∧ flights_ok fl.
Proof.
  intros ???? Hsteps.
  assert (Hgen : ∀ s s', rtc (shard_step histories sample_size) s s' →
    shard_ok lo hi s.1 (fst <$> s.2) idle (0, 0) ∧ flights_ok s.2 →
    shard_ok lo hi s'.1 (fst <$> s'.2) idle (0, 0) ∧ flights_ok s'.2).
  { induction 1 as [|s1 s2 s3 Hst _ IH]; [done|]. intros [Ho Hf]. apply IH. by eapply shard_step_ok. }
  apply (Hgen _ _ Hsteps). cbn. split; [by apply new_shard_ok|constructor].
Qed.
End system.

(** ** Properties *)

(** C7: any interleaving of concurrent writers, failed writes, evictions and
    removals on a new shard keeps it consistent: every chunk is free, holds
    metadata, belongs to one write in progress or is held by payloads; every
    indexed entry has its record in exactly one metadata slot and its payload
    inside chunks held for as many payloads as use them; the gauges count the
    entries and bytes.  In every state reached this way, no removal, eviction,
    reservation or publication can panic. *)
Theorem concurrent_writers_consistent `{RetentionScorer Hist} (histories : Hist) sample_size lo hi sh fl :
  0 < lo → lo < hi → hi * CHUNK_BYTES ≤ 2 ^ 63 → hi - lo < 2 ^ 32 →
  rtc (shard_step histories sample_size) (new_shard lo hi, []) (sh, fl) →
  shard_ok lo hi sh (fst <$> fl) idle (0, 0)
  ∧ (∀ key, completes (remove_entry_from_index sh key))
  ∧ (∀ attempts budget, completes (sample_and_evict_entry histories sample_size sh attempts budget))
  ∧ (∀ count required, count ≤ ENTRIES_PER_METADATA_CHUNK → completes (reserve_space sh count required))
  ∧ (∀ r ws, (r, ws) ∈ fl → completes (publish sh r ws)).
Proof.
  intros Hlo Hlt Hhi Hw Hsteps. destruct (shard_reachable lo hi histories sample_size sh fl Hlo Hlt Hhi Hw Hsteps) as [Hok Hfl].
  split_and!; [done|..].
  - intros key. destruct (remove_entry_total lo hi sh _ key Hok) as (? & ? & _). eexists; eauto.
  - intros a b. destruct (sample_and_evict_spec lo hi histories sh _ idle (0, 0) sample_size a b Hok) as (? & ? & ? & ? & _).
    eexists; eauto.
  - intros c r Hc. destruct (reserve_space_spec lo hi sh _ idle (0, 0) c r Hok Hc) as (? & ? & ? & _). eexists; eauto.
  - intros r ws (fl1 & fl2 & ->)%list_elem_of_split. unfold flights_ok in Hfl.
    rewrite Forall_app, Forall_cons in Hfl. destruct Hfl as (_ & Hb & _).
    destruct (publish_spec lo hi sh (fst <$> fl1 ++ fl2) r ws) as (? & ? & ? & _); [|done|eexists; eauto].
    eapply shard_ok_owners; [|exact Hok]. rewrite !fmap_app. cbn. by rewrite Permutation_middle.
Qed.

(** A batch of one entry of 5000 bytes, and a scorer. *)
Definition sample_scorer : RetentionScorer unit := λ _ _ payload_len, f64_of_Z payload_len.
Definition sample_write : WriteEntry := mkWriteEntry 7 5000 11 0 new_attempt.

Lemma sample_batch_ok : batch_ok (1 * CHUNK_BYTES) [sample_write].
Proof.
  split_and!; [done|done|]. constructor; [|constructor]. unfold batch_entry_ok. cbn [sample_write write_key write_payload_checksum write_payload_len buffer_offset].
  split_and!; try done; try (split; done).
Qed.

Lemma concurrent_writers_consistent_witness :
  let _ := sample_scorer in
  ∃ sh r, rtc (shard_step () 64) (new_shard 1 9, []) (sh, [(r, [sample_write])])
    ∧ shard_ok 1 9 sh [r] idle (0, 0) ∧ completes (publish sh r [sample_write]).
Proof.
  intros sc. destruct (reserve_space_spec 1 9 (new_shard 1 9) [] idle (0, 0) 1 1) as (res & sh & Hres & _ & _);
    [by apply new_shard_ok|done|].
  destruct res as [r|]; [|by vm_compute in Hres].
  assert (Hsteps : rtc (shard_step () 64) (new_shard 1 9, []) (sh, [(r, [sample_write])])).
  { apply rtc_once. apply (step_reserved () 64 _ [] 1); [apply sample_batch_ok|exact Hres]. }
  exists sh, r. destruct (concurrent_writers_consistent () 64 1 9 sh _ ltac:(done) ltac:(done) ltac:(done) ltac:(done) Hsteps)
    as (Hok & _ & _ & _ & Hp). split_and!; [done|exact Hok|]. apply Hp. left.
Defined.



(** C31: the reservation loop of a write terminates within its budget: it stops
    after at most 64 eviction attempts having removed at most 64 entries of at
    most 4096 chunks together, and keeps every other entry's record. *)
Theorem write_eviction_budget `{RetentionScorer Hist} (histories : Hist) sample_size lo hi sh owners entries required :
  shard_ok lo hi sh owners idle (0, 0) → entries ≠ [] → Z.of_nat (length entries) ≤ ENTRIES_PER_METADATA_CHUNK →
  ∃ res sh' entries',
    reserve_loop histories sample_size (Z.to_nat MAX_EVICTION_ATTEMPTS + 1) sh entries required
      MAX_EVICTION_ATTEMPTS MAX_EVICTION_CHUNKS = Done (res, sh', entries')
    ∧ evicts MAX_EVICTION_ATTEMPTS MAX_EVICTION_CHUNKS
        (entries_by_key (entry_index sh)) (entries_by_key (entry_index sh')).
Proof.
  intros Hok Hne Hlen.
  destruct (reserve_loop_spec lo hi histories sample_size (Z.to_nat MAX_EVICTION_ATTEMPTS + 1) sh owners entries required
     MAX_EVICTION_ATTEMPTS MAX_EVICTION_CHUNKS Hok Hne Hlen ltac:(done) ltac:(done)) as (res & sh' & es & ? & _ & ? & _).
  eauto.
Qed.

Lemma write_eviction_budget_witness :
  let _ := sample_scorer in
  ∃ res sh' entries', reserve_loop () 64 65 (new_shard 1 9) [sample_write] 2 64 4096 = Done (res, sh', entries')
    ∧ evicts 64 4096 ∅ (entries_by_key (entry_index sh')).
Proof.
  intros sc. apply (write_eviction_budget () 64 1 9 (new_shard 1 9) [] [sample_write] 2); [by apply new_shard_ok|done|done].
Defined.
