(* ===== verification/DiskCache.v ===== *)
(** * The disk cache: buffered writes and flushing
    ([disk_cache/small_entry_buffer.rs], [disk_cache.rs], [disk_metrics.rs])

    Each shard packs small entries into a buffer of one payload chunk and writes
    it as one batch; larger entries are written at once.  A batch of objects is sorted
    by length with any sorting function, as [sort_unstable_by_key] is.  All shards share the
    file and the metrics.  Memory allocation is the only resource outside the
    model: whether each allocation succeeds is a list of answers. *)

From S2P Require Import Prelude Codec Errors Disk BTree Allocation PageFormat Metadata Float64 Retention.
From S2P Require Import EntryIndex Shard Writer.

Definition SMALL_ENTRY_BYTES : Z := 512 * 1024.

(** [DiskCacheError] *)
Inductive DiskCacheError :=
  | CacheInvalidCapacity
  | CacheDataFile (e : DataFileError)
  | WriteTaskFailed.

(** [SmallEntryBuffer] *)
Record SmallEntryBuffer := mkSmallEntryBuffer { buffer : list byte; buffered : list WriteEntry }.

(** The write-outcome counters ([DiskMetrics::write_outcomes] and
    [eviction_triggering_insertions]) and [impl Drop for DiskWriteAttempt]. *)
Record WriteOutcomes := mkWriteOutcomes { write_outcomes : DiskWriteOutcome → Z; eviction_triggering_insertions : Z }.

Global Instance DiskWriteOutcome_eq_dec : EqDecision DiskWriteOutcome.
Proof. solve_decision. Defined.

Definition drop_attempt (o : WriteOutcomes) (a : DiskWriteAttempt) : WriteOutcomes :=
  mkWriteOutcomes
    (λ k, if decide (k = attempt_outcome a) then write_outcomes o k + 1 else write_outcomes o k)
    (if evicted a then eviction_triggering_insertions o + 1 else eviction_triggering_insertions o).

(** [DiskCacheInner], for the write path. *)
Record DiskCacheInner (F : Type) := mkInner {
  file : F;
  shards : list (DiskCacheShard * SmallEntryBuffer);
  counters : WriteCounters;
  outcomes : WriteOutcomes;
  allocations : list bool
}.
Arguments mkInner {F} _ _ _ _ _.
Arguments file {F} _.
Arguments shards {F} _.
Arguments counters {F} _.
Arguments outcomes {F} _.
Arguments allocations {F} _.

Definition with_outcomes {F} (o : WriteOutcomes) (d : DiskCacheInner F) : DiskCacheInner F :=
  mkInner (file d) (shards d) (counters d) o (allocations d).
Definition with_shard {F} (i : nat) (x : DiskCacheShard * SmallEntryBuffer) (d : DiskCacheInner F) : DiskCacheInner F :=
  mkInner (file d) (<[i := x]> (shards d)) (counters d) (outcomes d) (allocations d).

(** [SmallEntryBuffer::new], for an allocation that succeeds or not. *)
Definition new_buffer (allocated : bool) : DataFileResult SmallEntryBuffer :=
  if allocated then Ok (mkSmallEntryBuffer (zeros (Z.to_nat CHUNK_BYTES)) [])
  else Err (Task Write String.EmptyString).

(** [SmallEntryBuffer::entry] and [SmallEntryBuffer::get] *)
Definition buffer_entry (b : SmallEntryBuffer) (key : Z) : option WriteEntry :=
  List.find (λ w, write_key w =? key) (reverse (buffered b)).
Definition buffer_get (b : SmallEntryBuffer) (key : Z) : option (list byte) :=
  entry ← buffer_entry b key;
  Some (slice (Z.to_nat (buffer_offset entry)) (Z.to_nat (buffer_offset entry + write_payload_len entry)) (buffer b)).

(** [DiskCacheShard::contains]; a buffer locked by a flush is skipped. *)
Definition shard_contains (buffer_locked : bool) (x : DiskCacheShard * SmallEntryBuffer) (key : Z) : bool :=
  (negb buffer_locked && bool_decide (is_Some (buffer_entry x.2 key)))
  || bool_decide (is_Some (entries_by_key (entry_index x.1) !! key)).

Definition add_published (published : Z) (r : result DiskCacheError Z) : result DiskCacheError Z :=
  match r with Ok n => Ok (published + n) | Err e => Err e end.

Section disk_cache.
Context `{Hasher} `{StorageFile F} `{RetentionScorer Hist} (histories : Hist) (reclaim_sample_size : nat).

(** A call of [write_payload] from shard [i], which then holds buffer [b]. *)
Definition write_batch (d : DiskCacheInner F) (i : nat) (sh : DiskCacheShard) (b : SmallEntryBuffer) (bytes : list byte)
    (entries : list WriteEntry) : outcome (DiskCacheInner F * result DiskCacheError Z) :=
  '(f, sh, c, res, outs) ← write_payload histories reclaim_sample_size (file d) sh (counters d) bytes entries;
  Done (mkInner f (<[i := (sh, b)]> (shards d)) c (foldl drop_attempt (outcomes d) (attempt <$> outs)) (allocations d),
        map_err CacheDataFile res).

(** [SmallEntryBuffer::flush]: the entries stay buffered when the replacement
    buffer cannot be allocated. *)
Definition flush_shard (d : DiskCacheInner F) (i : nat) : outcome (DiskCacheInner F * result DiskCacheError Z) :=
  '(sh, b) ← unwrap (shards d !! i);
  match buffered b with
  | [] => Done (d, Ok 0)
  | entries =>
      let allocated := default true (head (allocations d)) in
      let d := mkInner (file d) (shards d) (counters d) (outcomes d) (tail (allocations d)) in
      match new_buffer allocated with
      | Err e => Done (d, Err (CacheDataFile e))
      | Ok fresh => write_batch d i sh fresh (buffer b) entries
      end
  end.

(** [DiskCacheInner::flush], from shard [i] on; an error ends it. *)
Fixpoint flush_from (n i : nat) (d : DiskCacheInner F) (published : Z) : outcome (DiskCacheInner F * result DiskCacheError Z) :=
  match n with
  | O => Done (d, Ok published)
  | S n =>
      '(d, r) ← flush_shard d i;
      match r with
      | Err e => Done (d, Err e)
      | Ok k => flush_from n (S i) d (published + k)
      end
  end.
Definition flush (d : DiskCacheInner F) : outcome (DiskCacheInner F * result DiskCacheError Z) :=
  flush_from (length (shards d)) 0 d 0.

(** [DiskCacheInner::write] *)
Definition write (d : DiskCacheInner F) (key : Z) (bytes : list byte) : outcome (DiskCacheInner F * result DiskCacheError Z) :=
  let i := shard_index_for_key (length (shards d)) key in
  '(sh, b) ← unwrap (shards d !! i);
  let payload_len := Z.of_nat (length bytes) in
  let aligned_payload_len := payload_disk_bytes payload_len in
  if shard_contains false (sh, b) key
  then Done (with_outcomes (drop_attempt (outcomes d) (mkAttempt AlreadyCovered false)) d, Ok 0)
  else
    let entry := mkWriteEntry key payload_len (xxh64 bytes) 0 new_attempt in
    if SMALL_ENTRY_BYTES <=? aligned_payload_len then write_batch d i sh b bytes [entry]
    else
      let offset := match last (buffered b) with
                    | Some e => buffer_offset e + payload_disk_bytes (write_payload_len e)
                    | None => 0
                    end in
      let full := CHUNK_BYTES <? offset + aligned_payload_len in
      '(d, flushed) ← (if full then flush_shard d i else Done (d, Ok 0));
      match flushed with
      | Err e => Done (with_outcomes (drop_attempt (outcomes d) new_attempt) d, Err e)
      | Ok published =>
          let offset := if full then 0 else offset in
          '(sh, b) ← unwrap (shards d !! i);
          _ ← assert_that (offset + payload_len <=? Z.of_nat (length (buffer b)));
          let entry := mkWriteEntry key payload_len (xxh64 bytes) offset new_attempt in
          let b := mkSmallEntryBuffer (copy_at (Z.to_nat offset) bytes (buffer b)) (buffered b ++ [entry]) in
          let d := with_shard i (sh, b) d in
          if offset + aligned_payload_len =? CHUNK_BYTES
          then '(d, r) ← flush_shard d i; Done (d, add_published published r)
          else Done (d, Ok published)
      end.

(** [DiskCache::discard_pending]: the entries are dropped, the buffers kept. *)
Definition discard_pending (d : DiskCacheInner F) : DiskCacheInner F :=
  mkInner (file d) ((λ x, (x.1, mkSmallEntryBuffer (buffer x.2) [])) <$> shards d) (counters d)
    (foldl drop_attempt (outcomes d) (attempt <$> concat ((λ x, buffered x.2) <$> shards d))) (allocations d).

(** The task of [DiskCache::insert_batch]: the writes in order, then a flush.  An
    error ends the batch. *)
Fixpoint write_all (d : DiskCacheInner F) (entries : list (Z * list byte)) (published : Z)
  : outcome (DiskCacheInner F * result DiskCacheError Z) :=
  match entries with
  | [] => '(d, r) ← flush d; Done (d, add_published published r)
  | (key, bytes) :: entries =>
      '(d, r) ← write d key bytes;
      match r with
      | Err e => Done (d, Err e)
      | Ok n => write_all d entries (published + n)
      end
  end.

(** [DiskCache::insert_batch].  [sort_unstable_by_key] may order entries of one
    length in any way: the theorems hold for every [sort] by length. *)
Definition insert_batch (sort : list (Z * list byte) → list (Z * list byte)) (d : DiskCacheInner F) (entries : list (Z * list byte))
  : outcome (DiskCacheInner F * result DiskCacheError Z) :=
  write_all d (sort entries) 0.
End disk_cache.

Definition shorter (a b : Z * list byte) : Prop := (length a.2 ≤ length b.2)%nat.
Global Instance shorter_dec a b : Decision (shorter a b).
Proof. unfold shorter. apply _. Defined.
Definition sorts_by_length (sort : list (Z * list byte) → list (Z * list byte)) : Prop :=
  ∀ l, sort l ≡ₚ l ∧ Sorted shorter (sort l).

Lemma merge_sort_by_length : sorts_by_length (merge_sort shorter).
Proof.
  intros l. split; [apply merge_sort_Permutation|]. apply Sorted_merge_sort. intros a b. unfold shorter. lia.
Qed.

(** ** Invariant *)

(** Consecutive entries of a buffer start where the previous one ends. *)
Fixpoint packed (offset : Z) (ws : list WriteEntry) : Prop :=
  match ws with
  | [] => True
  | w :: ws => buffer_offset w = offset ∧ packed (offset + payload_disk_bytes (write_payload_len w)) ws
  end.
Definition packed_end (ws : list WriteEntry) : Z := zsum (λ w, payload_disk_bytes (write_payload_len w)) ws.

(** A batch entry with the checksum of its bytes. *)
Definition entry_sealed `{Hasher} (bytes : list byte) (w : WriteEntry) : Prop :=
  is_u128 (write_key w) ∧ 0 ≤ write_payload_len w ∧ 0 ≤ buffer_offset w < CHUNK_BYTES
  ∧ buffer_offset w + write_payload_len w ≤ Z.of_nat (length bytes)
  ∧ write_payload_checksum w = xxh64 (entry_bytes bytes w) ∧ attempt w = new_attempt.

Record buffer_ok `{Hasher} (b : SmallEntryBuffer) : Prop := mkBufferOk {
  bo_length : Z.of_nat (length (buffer b)) = CHUNK_BYTES;
  bo_packed : packed 0 (buffered b);
  bo_end : packed_end (buffered b) ≤ CHUNK_BYTES;
  bo_sealed : Forall (entry_sealed (buffer b)) (buffered b);
  bo_keys : NoDup (write_key <$> buffered b)
}.

(** The payload of every indexed entry is on disk and matches its checksum. *)
Definition entry_payload (d : disk) (e : DiskEntry) : list byte := disk_read d (payload_address e) (Z.to_nat (payload_len e)).
Definition intact `{Hasher} (d : disk) (sh : DiskCacheShard) : Prop :=
  ∀ key e, entries_by_key (entry_index sh) !! key = Some e → xxh64 (entry_payload d e) = payload_checksum e.

Record slot_state_ok `{Hasher} (d : disk) (bounds : Z * Z) (x : DiskCacheShard * SmallEntryBuffer) : Prop := mkSlotOk {
  ss_shard : shard_ok bounds.1 bounds.2 x.1 [] idle (0, 0);
  ss_buffer : buffer_ok x.2;
  ss_apart : ∀ w, w ∈ buffered x.2 → entries_by_key (entry_index x.1) !! write_key w = None;
  ss_intact : intact d x.1
}.

(** Shards at rest whose chunk ranges [bounds] do not overlap. *)
Record inner_ok `{Hasher} `{StorageFile F} (bounds : list (Z * Z)) (d : DiskCacheInner F) : Prop := mkInnerOk {
  io_shards : Forall2 (slot_state_ok (contents (file d))) bounds (shards d);
  io_disjoint : ∀ i j bi bj, i ≠ j → bounds !! i = Some bi → bounds !! j = Some bj → bi.2 ≤ bj.1 ∨ bj.2 ≤ bi.1
}.

(** What a lookup can see: buffered bytes, or the indexed payload. *)
Definition view `{StorageFile F} (d : DiskCacheInner F) (key : Z) : option (list byte) :=
  x ← shards d !! shard_index_for_key (length (shards d)) key;
  match buffer_get x.2 key with
  | Some bytes => Some bytes
  | None => entry_payload (contents (file d)) <$> entries_by_key (entry_index x.1) !! key
  end.

(** Recorded outcomes, and entries whose attempt is still open. *)
Definition recorded (o : WriteOutcomes) : Z :=
  zsum (write_outcomes o) [Published; AlreadyCovered; NoCapacity; Failed; Canceled].
Definition buffered_count {F} (d : DiskCacheInner F) : Z := zsum (λ x, Z.of_nat (length (buffered x.2))) (shards d).

(** ** Batches *)
Section batches.
Context `{HasherOk} `{StorageFileOk F} `{RetentionScorer Hist} (histories : Hist) (size : nat).

Lemma packed_app offset ws w :
  packed offset ws → buffer_offset w = offset + packed_end ws → packed offset (ws ++ [w]).
Proof.
  revert offset. induction ws as [|w0 ws IH]; intros offset Hp Hw.
  { split; [|done]. rewrite Hw. unfold packed_end, zsum. cbn. lia. }
  destruct Hp as [Ho Hp]. split; [done|]. apply IH; [done|]. unfold packed_end in *. rewrite zsum_cons in Hw. lia.
Qed.

Lemma packed_last offset ws w :
  packed offset ws → last ws = Some w → buffer_offset w + payload_disk_bytes (write_payload_len w) = offset + packed_end ws.
Proof.
  revert offset. induction ws as [|w0 ws IH]; intros offset Hp Hl; [done|]. destruct Hp as [Ho Hp].
  unfold packed_end in *. rewrite zsum_cons. destruct ws as [|w1 ws]; [injection Hl as <-; autorewrite with sums; lia|].
  specialize (IH _ Hp Hl). lia.
Qed.

Lemma packed_entry offset ws w :
  Forall (λ w, 0 ≤ write_payload_len w) ws → packed offset ws → w ∈ ws →
  offset ≤ buffer_offset w ∧ buffer_offset w + payload_disk_bytes (write_payload_len w) ≤ offset + packed_end ws.
Proof.
  revert offset. induction ws as [|w0 ws IH]; intros offset Hl Hp Hin; [by apply elem_of_nil in Hin|].
  apply Forall_cons in Hl as [Hl0 Hl]. destruct Hp as [Ho Hp]. unfold packed_end in *. rewrite zsum_cons.
  assert (Hrest : 0 ≤ zsum (λ w, payload_disk_bytes (write_payload_len w)) ws).
  { apply zsum_nonneg. intros x Hx. rewrite Forall_forall in Hl. pose proof (payload_disk_bytes_spec _ (Hl x Hx)). lia. }
  pose proof (payload_disk_bytes_spec _ Hl0). apply elem_of_cons in Hin as [->|Hin]; [lia|].
  specialize (IH _ Hl Hp Hin). lia.
Qed.

Lemma packed_count ws :
  Forall (λ w, 0 ≤ write_payload_len w) ws → 4096 * Z.of_nat (length ws) ≤ packed_end ws.
Proof.
  induction 1 as [|w ws Hw _ IH]; [done|]. unfold packed_end in *. rewrite zsum_cons, length_cons.
  pose proof (payload_disk_bytes_spec _ Hw). lia.
Qed.

Lemma aligned_le x n a : 0 ≤ x → a = payload_disk_bytes x → aligned n → x ≤ n → 0 < n → a ≤ n.
Proof.
  intros Hx -> Hn Hle Hpos. unfold aligned, payload_disk_bytes, DIRECT_IO_ALIGNMENT_BYTES, BUFFER_ALIGNMENT in *.
  pose proof (next_multiple_of_mod (Z.max x 1) 4096 ltac:(done)) as Hm.
  pose proof (next_multiple_of_bounds (Z.max x 1) 4096 ltac:(done)).
  apply Z.mod_divide in Hn as [k ->]; [|done]. apply Z.mod_divide in Hm as [j Hj]; [|done]. lia.
Qed.

(** A buffer's entries form a batch of one chunk. *)
Lemma buffer_batch b :
  buffer_ok b → buffered b ≠ [] → batch_ok (div_ceil (Z.of_nat (length (buffer b))) CHUNK_BYTES * CHUNK_BYTES) (buffered b)
    ∧ div_ceil (Z.of_nat (length (buffer b))) CHUNK_BYTES = 1.
Proof.
  intros [Hlen Hp Hend Hs _] Hne. rewrite Hlen.
  assert (Hone : div_ceil CHUNK_BYTES CHUNK_BYTES = 1) by done. rewrite Hone.
  assert (Hl : Forall (λ w, 0 ≤ write_payload_len w) (buffered b)).
  { eapply Forall_impl; [exact Hs|]. by intros w (_ & ? & _). }
  split; [|done]. split_and!; [done| |].
  - pose proof (packed_count _ Hl). change ENTRIES_PER_METADATA_CHUNK with 25755. unfold CHUNK_BYTES in *. lia.
  - apply Forall_forall. intros w Hw. pose proof (packed_entry 0 _ w Hl Hp Hw). rewrite Forall_forall in Hs.
    destruct (Hs w Hw) as (? & ? & ? & ? & Hck & _). split_and!; try done; try lia. rewrite Hck. apply xxh64_range.
Qed.

(** The bytes of an indexed payload lie in chunks held for it. *)
Lemma entry_held lo hi sh owners key e a :
  shard_ok lo hi sh owners idle (0, 0) → entries_by_key (entry_index sh) !! key = Some e → 0 ≤ payload_len e →
  payload_address e ≤ a < payload_address e + payload_len e → lo ≤ a / CHUNK_BYTES < hi ∧ 0 < held_cover (a / CHUNK_BYTES) (allocator sh).
Proof.
  intros Hok Hk Hl Ha. destruct (so_held _ _ _ _ _ _ Hok _ _ Hk) as (r & n & Hr & Hend).
  assert (Hal := proj1 (so_alloc _ _ _ _ _ _ Hok)). destruct (ao_held _ _ _ _ Hal _ _ _ Hr) as (Hs & _ & _).
  assert (Hal1 := take_held_ok _ _ _ _ _ _ _ Hr Hal). destruct (owner_range _ _ _ _ _ Hal1) as (Hlo & Hhi & _).
  pose proof (payload_disk_bytes_spec _ Hl) as (_ & Hpd & _).
  assert (Hc : range_start (chunk_numbers r) ≤ a / CHUNK_BYTES < range_end (chunk_numbers r)).
  { unfold entry_chunk, disk_byte_range in *. cbn [range_end] in Hend. split.
    - rewrite Hs. apply Z.div_le_mono; [done|lia].
    - apply Z.div_lt_upper_bound; [done|lia]. }
  split; [lia|].
  pose proof (msum_elem_le (λ _ h, Z.b2z (in_range (a / CHUNK_BYTES) (chunk_numbers h.1))) (payload_chunks (allocator sh)) _ _
    ltac:(intros k' h _; destruct (b2z_cases (in_range (a / CHUNK_BYTES) (chunk_numbers h.1))); lia) Hr) as Hle.
  unfold held_cover. cbn [fst] in Hle. rewrite (proj2 (in_range_true _ _) Hc) in Hle. cbn in Hle. lia.
Qed.

Lemma entry_not_writable lo hi sh owners1 owners key e a :
  shard_ok lo hi sh owners1 idle (0, 0) → entries_by_key (entry_index sh) !! key = Some e → 0 ≤ payload_len e →
  payload_address e ≤ a < payload_address e + payload_len e → lo ≤ a / CHUNK_BYTES < hi ∧ ¬ writable lo hi sh owners a.
Proof.
  intros Hok Hk Hl Ha. destruct (entry_held _ _ _ _ _ _ _ Hok Hk Hl Ha) as [? ?]. split; [done|]. intros (_ & _ & Hz). lia.
Qed.

Lemma entry_len_nonneg lo hi sh owners key e :
  shard_ok lo hi sh owners idle (0, 0) → entries_by_key (entry_index sh) !! key = Some e → 0 ≤ payload_len e.
Proof.
  intros Hok Hk. assert (Hs := so_slots _ _ _ _ _ _ Hok _ _ Hk). apply slot_at_Some in Hs as (c & Hc & Hj).
  assert (Hcs := mo_chunks _ (so_meta _ _ _ _ _ _ Hok)). rewrite Forall_lookup in Hcs. destruct (Hcs _ _ Hc) as (_ & Hes & _).
  rewrite Forall_lookup in Hes. destruct (Hes _ _ Hj) as (_ & [? _] & _). done.
Qed.

(** What a batch write does to the payload of an indexed entry. *)
Lemma payload_kept lo hi f f' sh owners owners' key e :
  shard_ok lo hi sh owners idle (0, 0) → (∀ a, contents f' a ≠ contents f a → writable lo hi sh owners' a) →
  entries_by_key (entry_index sh) !! key = Some e →
  entry_payload (contents f') e = entry_payload (contents f) e.
Proof.
  intros Hok Hframe Hk. assert (Hl := entry_len_nonneg _ _ _ _ _ _ Hok Hk).
  apply disk_read_ext. intros a Ha. apply dec_stable. intros Hne. apply Hframe in Hne.
  by destruct (entry_not_writable lo hi sh owners owners' key e a Hok Hk Hl) as [_ Hno]; [lia|].
Qed.

Lemma unplaced_payload d (e e' : DiskEntry) : unplaced e = unplaced e' → entry_payload d e = entry_payload d e' ∧ payload_checksum e = payload_checksum e'.
Proof. intros (Hl & Hc & Ha & _)%unplaced_fields. unfold entry_payload. by rewrite Hl, Ha. Qed.

(** Every entry indexed after a batch write was indexed before, with the same
    payload, or is one of the batch with its bytes on disk. *)
Lemma write_payload_payloads lo hi f sh counters bytes entries :
  shard_ok lo hi sh [] idle (0, 0) → (0 < length bytes)%nat →
  batch_ok (div_ceil (Z.of_nat (length bytes)) CHUNK_BYTES * CHUNK_BYTES) entries →
  Forall (entry_sealed bytes) entries →
  ∃ f' sh' counters' res outs,
    write_payload histories size f sh counters bytes entries = Done (f', sh', counters', res, outs)
    ∧ shard_ok lo hi sh' [] idle (0, 0) ∧ capacity f' = capacity f ∧ length outs = length entries
    ∧ (∀ a, contents f' a ≠ contents f a → lo ≤ a / CHUNK_BYTES < hi)
    ∧ (∀ key e, entries_by_key (entry_index sh') !! key = Some e →
         (∃ e0, entries_by_key (entry_index sh) !! key = Some e0
            ∧ entry_payload (contents f') e = entry_payload (contents f) e0 ∧ payload_checksum e = payload_checksum e0)
         ∨ (∃ w, w ∈ entries ∧ write_key w = key ∧ entry_payload (contents f') e = entry_bytes bytes w
              ∧ payload_checksum e = write_payload_checksum w)).
Proof.
  intros Hok Hbytes Hbatch Hseal.
  destruct (write_payload_cases histories size lo hi f sh [] counters bytes entries Hok Hbytes Hbatch)
    as (f' & sh' & c' & res & outs & sh1 & es & Hrun & Hok' & Hcap & Hsame & (Hev & _) & (owners1 & Hok1) & Hframe & Hend).
  exists f', sh', c', res, outs. split_and!; try done.
  { rewrite (Forall2_length _ _ _ Hsame). destruct res as [n|e]; cbn in Hend; [destruct Hend as [(_ & -> & _)|(? & ? & _ & Ho & _)]|destruct Hend as [-> _]];
      [by rewrite length_fmap|by rewrite (Forall2_length _ _ _ Ho)|by rewrite length_fmap]. }
  { intros a Ha. by destruct (Hframe a Ha). }
  assert (Hold : ∀ key e, entries_by_key (entry_index sh1) !! key = Some e → ∃ e0, entries_by_key (entry_index sh) !! key = Some e0
            ∧ entry_payload (contents f') e = entry_payload (contents f) e0 ∧ payload_checksum e = payload_checksum e0).
  { intros key e Hk. destruct (Hev _ _ Hk) as (e0 & Hk0 & Heq). exists e0. split; [done|].
    destruct (unplaced_payload (contents f) _ _ Heq) as [Hp Hc]. rewrite Hp, Hc. split; [|done].
    exact (payload_kept lo hi f f' sh1 owners1 [] key e Hok1 Hframe Hk). }
  intros key e Hk. destruct res as [n|err]; cbn in Hend; [|destruct Hend as [_ Hi]; rewrite Hi in Hk; left; eauto].
  destruct Hend as [(_ & _ & Hi)|(base & pad & Hcont & _ & _ & _ & Hidx)]; [rewrite Hi in Hk; left; eauto|].
  specialize (Hidx key). destruct (entries_by_key (entry_index sh1) !! key) as [e1|] eqn:Hk1.
  { destruct Hidx as (e' & Hk' & Heq). rewrite Hk in Hk'. injection Hk' as <-. left.
    destruct (Hold _ _ Hk1) as (e0 & ? & Hp & Hc). exists e0. destruct (unplaced_payload (contents f') _ _ Heq) as [Hp' Hc'].
    rewrite Hp', Hc'. by split_and!. }
  destruct (entry_for key (reverse es)) as [w|] eqn:Hw; [|congruence]. destruct Hidx as (e' & Hk' & Hrec).
  rewrite Hk in Hk'. injection Hk' as <-. right. unfold entry_for in Hw.
  assert (Hin : w ∈ filter (λ w0, write_key w0 = key) (reverse es)).
  { destruct (filter _ _); [done|]. injection Hw as ->. left. }
  apply list_elem_of_filter in Hin as [Hkey Hin]. rewrite elem_of_reverse in Hin.
  destruct (same_write_member _ _ _ Hsame Hin) as (w0 & Hw0 & Hsw). exists w0.
  rewrite Forall_forall in Hseal. destruct (Hseal _ Hw0) as (_ & ? & ? & ? & _).
  assert (Hfields : payload_len e = write_payload_len w0 ∧ payload_address e = base + buffer_offset w0 ∧ payload_checksum e = write_payload_checksum w0)
    by (rewrite Hsw in Hrec; by injection Hrec).
  destruct Hfields as (Hfl & Hfa & Hfc). split_and!; try done; [by rewrite Hsw in Hkey|]. unfold entry_payload. rewrite Hfl, Hfa.
  apply (payload_on_disk _ _ _ _ _ w0 Hcont); lia.
Qed.
End batches.

(** ** Buffered bytes *)
Section buffered_bytes.
Context `{Hasher}.

Lemma buffer_entry_Some b key w : buffer_entry b key = Some w → w ∈ buffered b ∧ write_key w = key.
Proof.
  intros [Hin Hk]%List.find_some. apply list_elem_of_In in Hin. rewrite elem_of_reverse in Hin.
  by apply Z.eqb_eq in Hk.
Qed.

Lemma buffer_entry_None b key : buffer_entry b key = None → ∀ w, w ∈ buffered b → write_key w ≠ key.
Proof.
  intros Hf w Hw Hk. assert (Hn := List.find_none _ _ Hf w). rewrite <-list_elem_of_In, elem_of_reverse in Hn.
  specialize (Hn Hw). cbn in Hn. rewrite Hk, Z.eqb_refl in Hn. done.
Qed.

Lemma NoDup_key_eq (ws : list WriteEntry) w w' :
  NoDup (write_key <$> ws) → w ∈ ws → w' ∈ ws → write_key w = write_key w' → w = w'.
Proof.
  intros Hnd (i & Hi)%list_elem_of_lookup (j & Hj)%list_elem_of_lookup Heq.
  assert (i = j) as ->; [|congruence]. eapply (NoDup_lookup _ _ _ (write_key w) Hnd); rewrite list_lookup_fmap; [by rewrite Hi|].
  by rewrite Hj, Heq.
Qed.

(** A buffered object is found under its key, with its own bytes. *)
Lemma buffer_get_entry b w :
  NoDup (write_key <$> buffered b) → w ∈ buffered b → buffer_get b (write_key w) = Some (entry_bytes (buffer b) w).
Proof.
  intros Hnd Hw. unfold buffer_get. destruct (buffer_entry b (write_key w)) as [w'|] eqn:Hf.
  - apply buffer_entry_Some in Hf as [Hw' Hk]. rewrite (NoDup_key_eq _ _ _ Hnd Hw' Hw Hk). done.
  - by apply (buffer_entry_None _ _ Hf) in Hw.
Qed.

Lemma buffer_get_Some b key v :
  NoDup (write_key <$> buffered b) →
  buffer_get b key = Some v ↔ ∃ w, w ∈ buffered b ∧ write_key w = key ∧ v = entry_bytes (buffer b) w.
Proof.
  intros Hnd. split.
  - unfold buffer_get. destruct (buffer_entry b key) as [w|] eqn:Hf; [|done]. intros [= <-].
    apply buffer_entry_Some in Hf as [Hw Hk]. by exists w.
  - intros (w & Hw & <- & ->). by apply buffer_get_entry.
Qed.

Lemma fresh_buffer_ok : buffer_ok (mkSmallEntryBuffer (zeros (Z.to_nat CHUNK_BYTES)) []).
Proof.
  constructor; cbn [buffer buffered]; [|exact I|discriminate|constructor|constructor].
  rewrite length_zeros. apply Z2Nat.id. discriminate.
Qed.

Lemma entry_bytes_copy offset bytes l w :
  Z.of_nat (length l) = CHUNK_BYTES → 0 ≤ offset → offset + Z.of_nat (length bytes) ≤ CHUNK_BYTES →
  buffer_offset w = offset → write_payload_len w = Z.of_nat (length bytes) →
  entry_bytes (copy_at (Z.to_nat offset) bytes l) w = bytes.
Proof.
  intros Hl Ho Hend Hw Hwl. unfold entry_bytes, copy_at. rewrite Hw, Hwl.
  assert (Hlen : length (take (Z.to_nat offset) l) = Z.to_nat offset) by (rewrite length_take; lia).
  rewrite (slice_app_r _ _ (Z.to_nat offset)) by (done || lia). rewrite slice_app_l by lia.
  apply slice_full; lia.
Qed.

(** Entries that end before the copied bytes keep theirs. *)
Lemma entry_bytes_before offset bytes l w :
  Z.of_nat (length l) = CHUNK_BYTES → 0 ≤ buffer_offset w → 0 ≤ write_payload_len w →
  buffer_offset w + write_payload_len w ≤ offset → offset ≤ CHUNK_BYTES →
  entry_bytes (copy_at (Z.to_nat offset) bytes l) w = entry_bytes l w.
Proof.
  intros Hl Ho Hwl Hend Hoff. unfold entry_bytes, copy_at.
  assert (Hlen : length (take (Z.to_nat offset) l) = Z.to_nat offset) by (rewrite length_take; lia).
  rewrite slice_app_l by lia. rewrite <-(take_drop (Z.to_nat offset) l) at 2. rewrite slice_app_l by lia. done.
Qed.

Lemma recorded_drop o a : recorded (drop_attempt o a) = recorded o + 1.
Proof.
  unfold recorded, zsum, drop_attempt. cbn [foldr write_outcomes].
  destruct (attempt_outcome a); repeat (case_decide; try done); lia.
Qed.

Lemma recorded_drops o l : recorded (foldl drop_attempt o l) = recorded o + Z.of_nat (length l).
Proof. revert o. induction l as [|a l IH]; intros o; cbn [foldl]; [cbn; lia|]. rewrite IH, recorded_drop, length_cons. lia. Qed.
End buffered_bytes.

(** ** Operations of the cache *)
Section cache.
Context `{HasherOk} `{StorageFileOk F} `{RetentionScorer Hist} (histories : Hist) (size : nat).
Context (bounds : list (Z * Z)).
Implicit Types d : DiskCacheInner F.

(** A cache may forget what it held, but shows nothing else. *)
Definition view_le d' d : Prop := ∀ key v, view d' key = Some v → view d key = Some v.

Lemma shard_state d i x :
  inner_ok bounds d → shards d !! i = Some x → ∃ b, bounds !! i = Some b ∧ slot_state_ok (contents (file d)) b x.
Proof. intros Hok Hi. by eapply Forall2_lookup_r in Hi; [|exact (io_shards _ _ Hok)]. Qed.

(** Payloads of the other shards are outside the bytes shard [i] may write. *)
Lemma other_payload_kept d i bi j x (f' : F) key e :
  inner_ok bounds d → bounds !! i = Some bi → j ≠ i → shards d !! j = Some x →
  (∀ a, contents f' a ≠ contents (file d) a → bi.1 ≤ a / CHUNK_BYTES < bi.2) →
  entries_by_key (entry_index x.1) !! key = Some e →
  entry_payload (contents f') e = entry_payload (contents (file d)) e.
Proof.
  intros Hok Hbi Hne Hj Hframe Hk. destruct (shard_state _ _ _ Hok Hj) as (bj & Hbj & [Hsh _ _ _]).
  assert (Hl := entry_len_nonneg _ _ _ _ _ _ Hsh Hk).
  apply disk_read_ext. intros a Ha. apply dec_stable. intros Hd. apply Hframe in Hd.
  destruct (entry_not_writable _ _ _ _ [] key e a Hsh Hk Hl) as [Hin _]; [lia|].
  destruct (io_disjoint _ _ Hok i j bi bj) as [?|?]; try done; lia.
Qed.

(** The effect of one batch on the whole cache. *)
Record batch_effect d d' (i : nat) (b : SmallEntryBuffer) (bytes : list byte) (entries : list WriteEntry) : Prop := mkBatchEffect {
  be_ok : inner_ok bounds d';
  be_shards : ∃ sh', shards d' = <[i := (sh', b)]> (shards d);
  be_recorded : recorded (outcomes d') = recorded (outcomes d) + Z.of_nat (length entries);
  be_allocations : allocations d' = allocations d;
  be_payloads : ∀ j x' key e, shards d' !! j = Some x' → entries_by_key (entry_index x'.1) !! key = Some e →
    (∃ x e0, shards d !! j = Some x ∧ entries_by_key (entry_index x.1) !! key = Some e0
       ∧ entry_payload (contents (file d')) e = entry_payload (contents (file d)) e0)
    ∨ (j = i ∧ ∃ w, w ∈ entries ∧ write_key w = key ∧ entry_payload (contents (file d')) e = entry_bytes bytes w);
  be_file : capacity (file d') = capacity (file d)
    ∧ ∀ a, contents (file d') a ≠ contents (file d) a → ∃ bi, bounds !! i = Some bi ∧ bi.1 ≤ a / CHUNK_BYTES < bi.2
}.

Lemma write_batch_ok d i sh b0 b bytes entries :
  inner_ok bounds d → shards d !! i = Some (sh, b0) → (0 < length bytes)%nat →
  batch_ok (div_ceil (Z.of_nat (length bytes)) CHUNK_BYTES * CHUNK_BYTES) entries → Forall (entry_sealed bytes) entries →
  buffer_ok b → (∀ w, w ∈ buffered b → entries_by_key (entry_index sh) !! write_key w = None ∧ ∀ w', w' ∈ entries → write_key w' ≠ write_key w) →
  ∃ d' r, write_batch histories size d i sh b bytes entries = Done (d', r) ∧ batch_effect d d' i b bytes entries.
Proof.
  intros Hok Hi Hbytes Hbatch Hseal Hb Hapart. destruct (shard_state _ _ _ Hok Hi) as (bi & Hbi & [Hsh _ _ Hint]). cbn [fst snd] in *.
  destruct (write_payload_payloads histories size bi.1 bi.2 (file d) sh (counters d) bytes entries Hsh Hbytes Hbatch Hseal)
    as (f' & sh' & c' & res & outs & Hrun & Hsh' & Hcap & Hlen & Hframe & Hpay).
  unfold write_batch. rewrite Hrun. cbn [mbind outcome_bind]. eexists _, _. split; [reflexivity|].
  assert (Hlt : (i < length (shards d))%nat) by (by eapply lookup_lt_Some).
  constructor; cbn [file shards counters outcomes allocations].
  - constructor; [|exact (io_disjoint _ _ Hok)]. cbn [file shards].
    apply Forall2_lookup. intros j. destruct (decide (j = i)) as [->|Hne].
    + rewrite list_lookup_insert_eq, Hbi by done. constructor. constructor; cbn [fst snd]; try done.
      * intros w Hw. destruct (Hapart w Hw) as [Hnone Hdis]. destruct (entries_by_key (entry_index sh') !! write_key w) as [e|] eqn:Hk; [|done].
        destruct (Hpay _ _ Hk) as [(e0 & Hk0 & _)|(w' & Hw' & Heq & _)]; [congruence|]. by destruct (Hdis w' Hw').
      * intros key e Hk. destruct (Hpay _ _ Hk) as [(e0 & Hk0 & -> & ->)|(w & Hw & _ & -> & ->)]; [by eapply Hint|].
        rewrite Forall_forall in Hseal. by destruct (Hseal w Hw) as (_ & _ & _ & _ & -> & _).
    + rewrite list_lookup_insert_ne by done. assert (Hj := io_shards _ _ Hok). rewrite Forall2_lookup in Hj. specialize (Hj j).
      destruct (bounds !! j) as [bj|] eqn:Hbj, (shards d !! j) as [x|] eqn:Hx; inversion Hj as [? ? Hs|]; subst; constructor.
      destruct Hs as [Hs1 Hs2 Hs3 Hs4]. constructor; try done. intros key e Hk.
      rewrite (other_payload_kept d i bi j x f' key e Hok Hbi Hne Hx Hframe Hk). by apply (Hs4 key).
  - eauto.
  - rewrite recorded_drops, length_fmap, Hlen. done.
  - done.
  - intros j x' key e Hj Hk. destruct (decide (j = i)) as [->|Hne].
    + rewrite list_lookup_insert_eq in Hj by done. injection Hj as <-. cbn in Hk.
      destruct (Hpay _ _ Hk) as [(e0 & Hk0 & Hp & _)|(w & Hw & Hkey & Hp & _)]; [left; by exists (sh, b0), e0|right; split; [done|by exists w]].
    + rewrite list_lookup_insert_ne in Hj by done. left. exists x', e. split_and!; try done.
      by apply (other_payload_kept d i bi j x' f' key e).
  - split; [done|]. intros a Ha. exists bi. split; [done|]. by apply Hframe.
Qed.

Lemma view_Some d key v x :
  shards d !! shard_index_for_key (length (shards d)) key = Some x → buffer_ok x.2 →
  view d key = Some v ↔
    (∃ w, w ∈ buffered x.2 ∧ write_key w = key ∧ v = entry_bytes (buffer x.2) w)
    ∨ (buffer_entry x.2 key = None ∧ ∃ e, entries_by_key (entry_index x.1) !! key = Some e ∧ v = entry_payload (contents (file d)) e).
Proof.
  intros Hx Hb. unfold view. rewrite Hx. cbn. rewrite <-(buffer_get_Some _ _ _ (bo_keys _ Hb)).
  assert (Hge : buffer_get x.2 key = None ↔ buffer_entry x.2 key = None) by (unfold buffer_get; by destruct (buffer_entry x.2 key)).
  destruct (buffer_get x.2 key) as [v'|] eqn:Hg.
  - split; [by left|]. intros [?|[Hn _]]; [done|]. by apply Hge in Hn.
  - rewrite fmap_Some. split; [intros ?; right; split; [by apply Hge|done]|]. by intros [?|[_ ?]].
Qed.

Lemma contains_view d key x :
  inner_ok bounds d → shards d !! shard_index_for_key (length (shards d)) key = Some x →
  shard_contains false x key = bool_decide (is_Some (view d key)).
Proof.
  intros Hok Hx. unfold shard_contains, view. rewrite Hx. cbn. unfold buffer_get.
  by destruct (buffer_entry x.2 key), (entries_by_key (entry_index x.1) !! key).
Qed.

(** What a batch adds to the view. *)
Lemma batch_view d d' i sh b0 b bytes entries key v :
  inner_ok bounds d → shards d !! i = Some (sh, b0) → batch_effect d d' i b bytes entries →
  (∀ w, w ∈ buffered b → buffered b = buffered b0 ∧ buffer b = buffer b0) →
  view d' key = Some v →
  view d key = Some v ∨ ∃ w, w ∈ entries ∧ write_key w = key ∧ v = entry_bytes bytes w ∧ shard_index_for_key (length (shards d)) key = i.
Proof.
  intros Hok Hi [Hok' (sh' & Hsh') _ _ Hpay _] Hbuf Hv.
  assert (Hlen : length (shards d') = length (shards d)) by (rewrite Hsh'; apply length_insert).
  unfold view in Hv at 1. rewrite Hlen in Hv. set (j := shard_index_for_key (length (shards d)) key) in *.
  destruct (shards d' !! j) as [x'|] eqn:Hj'; [|done]. cbn in Hv.
  destruct (shard_state _ _ _ Hok' Hj') as (bj & Hbj & Hst').
  destruct (buffer_get x'.2 key) as [v'|] eqn:Hg.
  - injection Hv as ->. apply (buffer_get_Some _ _ _ (bo_keys _ (ss_buffer _ _ _ Hst'))) in Hg as (w & Hw & Hk & ->). left.
    assert (Hold : ∃ x, shards d !! j = Some x ∧ buffered x'.2 = buffered x.2 ∧ buffer x'.2 = buffer x.2).
    { rewrite Hsh' in Hj'. destruct (decide (j = i)) as [Heq|Hne].
      - rewrite Heq, list_lookup_insert_eq in Hj' by (by eapply lookup_lt_Some). injection Hj' as <-. exists (sh, b0). rewrite Heq. split; [done|]. exact (Hbuf w Hw).
      - rewrite list_lookup_insert_ne in Hj' by done. by exists x'. }
    destruct Hold as (x & Hx & Hb1 & Hb2). destruct (shard_state _ _ _ Hok Hx) as (? & ? & Hst).
    apply (view_Some d key _ x Hx (ss_buffer _ _ _ Hst)). left. exists w. rewrite <-Hb1, <-Hb2. done.
  - apply fmap_Some in Hv as (e & Hk & ->).
    destruct (Hpay _ _ _ _ Hj' Hk) as [(x & e0 & Hx & Hk0 & ->)|(Heq & w & Hw & Hkey & ->)]; [|right; exists w; by split_and!].
    left. destruct (shard_state _ _ _ Hok Hx) as (? & ? & Hst). apply (view_Some d key _ x Hx (ss_buffer _ _ _ Hst)). right.
    split; [|by exists e0]. destruct (buffer_entry x.2 key) as [w|] eqn:Hw; [|done].
    apply buffer_entry_Some in Hw as [Hw Hwk]. apply (ss_apart _ _ _ Hst) in Hw. congruence.
Qed.

Lemma buffered_count_insert d i x x' :
  shards d !! i = Some x →
  zsum (λ x, Z.of_nat (length (buffered x.2))) (<[i := x']> (shards d))
  = buffered_count d - Z.of_nat (length (buffered x.2)) + Z.of_nat (length (buffered x'.2)).
Proof. intros Hi. unfold buffered_count. by rewrite (zsum_insert _ _ _ _ _ Hi). Qed.

(** Flushing one shard. *)
Lemma flush_shard_ok d i :
  inner_ok bounds d → (i < length (shards d))%nat →
  ∃ d' r, flush_shard histories size d i = Done (d', r) ∧ inner_ok bounds d' ∧ view_le d' d
    ∧ length (shards d') = length (shards d)
    ∧ recorded (outcomes d') + buffered_count d' = recorded (outcomes d) + buffered_count d
    ∧ (is_ok r = true → ∃ sh' b', shards d' !! i = Some (sh', b') ∧ buffered b' = [])
    ∧ (∀ j, j ≠ i → shards d' !! j = shards d !! j).
Proof.
  intros Hok Hlt. destruct (lookup_lt_is_Some_2 (shards d) i Hlt) as [[sh b] Hi].
  unfold flush_shard. rewrite Hi. cbn [unwrap mbind outcome_bind].
  destruct (buffered b) as [|w ws] eqn:Hbuf; [exists d, (Ok 0); split_and!; try done; [by intros ?|by exists sh, b]|].
  destruct (shard_state _ _ _ Hok Hi) as (bi & Hbi & [Hsh Hb Hapart Hint]). cbn [fst snd] in *.
  set (d0 := mkInner (file d) (shards d) (counters d) (outcomes d) (tail (allocations d))).
  assert (Hok0 : inner_ok bounds d0) by (destruct Hok; by constructor).
  unfold new_buffer. destruct (default true (head (allocations d))).
  2:{ exists d0. eexists. split; [reflexivity|]. split_and!; try done. by intros ?. }
  rewrite <-Hbuf. destruct (buffer_batch b Hb ltac:(by rewrite Hbuf)) as [Hbatch _].
  destruct (write_batch_ok d0 i sh b (mkSmallEntryBuffer (zeros (Z.to_nat CHUNK_BYTES)) []) (buffer b) (buffered b) Hok0 Hi)
    as (d' & r & Hrun & Heff); [|done|exact (bo_sealed _ Hb)|apply fresh_buffer_ok|by intros ? ?%elem_of_nil|].
  { assert (Hl := bo_length _ Hb). unfold CHUNK_BYTES in Hl. lia. }
  exists d', r. split; [exact Hrun|]. destruct (be_shards _ _ _ _ _ _ Heff) as (sh' & Hsh').
  split_and!.
  - exact (be_ok _ _ _ _ _ _ Heff).
  - intros key v Hv. change (view d key) with (view d0 key).
    destruct (batch_view d0 d' i sh b _ _ _ key v Hok0 Hi Heff) as [?|(w' & Hw' & Hk & -> & Hidx)]; [by intros ? ?%elem_of_nil|done|done|].
    apply (view_Some d0 key _ (sh, b)); [by rewrite Hidx|done|]. left. by exists w'.
  - rewrite Hsh'. apply length_insert.
  - rewrite (be_recorded _ _ _ _ _ _ Heff). unfold buffered_count at 1. rewrite Hsh', (buffered_count_insert d0 i _ _ Hi).
    change (buffered_count d0) with (buffered_count d). change (outcomes d0) with (outcomes d). cbn [snd buffered length]. lia.
  - intros _. rewrite Hsh'. rewrite list_lookup_insert_eq by done. eauto.
  - intros j Hj. rewrite Hsh'. by apply list_lookup_insert_ne.
Qed.

(** Appending a small entry to the buffer of its shard. *)
Definition push_entry (b : SmallEntryBuffer) (offset : Z) (key : Z) (bytes : list byte) : SmallEntryBuffer :=
  mkSmallEntryBuffer (copy_at (Z.to_nat offset) bytes (buffer b))
    (buffered b ++ [mkWriteEntry key (Z.of_nat (length bytes)) (xxh64 bytes) offset new_attempt]).

Lemma push_buffer_ok b key bytes :
  let offset := packed_end (buffered b) in
  buffer_ok b → is_u128 key → buffer_entry b key = None →
  offset + payload_disk_bytes (Z.of_nat (length bytes)) ≤ CHUNK_BYTES →
  buffer_ok (push_entry b offset key bytes)
  ∧ (∀ w, w ∈ buffered b → entry_bytes (buffer (push_entry b offset key bytes)) w = entry_bytes (buffer b) w).
Proof.
  intros offset [Hlen Hp Hend Hs Hnd] Hkey Hnone Hfit.
  pose proof (payload_disk_bytes_spec (Z.of_nat (length bytes)) ltac:(lia)) as (_ & Hpd & Hpd').
  assert (Hl : Forall (λ w, 0 ≤ write_payload_len w) (buffered b)) by (eapply Forall_impl; [exact Hs|]; by intros w (_ & ? & _)).
  assert (Hoff : 0 ≤ offset) by (pose proof (packed_count _ Hl); unfold offset; lia).
  assert (Hclen : length (copy_at (Z.to_nat offset) bytes (buffer b)) = length (buffer b)) by (apply length_copy_at; lia).
  assert (Hkeep : ∀ w, w ∈ buffered b → entry_bytes (buffer (push_entry b offset key bytes)) w = entry_bytes (buffer b) w).
  { intros w Hw. destruct (packed_entry 0 _ w Hl Hp Hw) as [Hw0 Hw1]. rewrite Forall_forall in Hl. pose proof (payload_disk_bytes_spec _ (Hl w Hw)).
    apply entry_bytes_before; try done; [by apply Hl|unfold offset; lia]. }
  split; [|done]. constructor; cbn [push_entry buffer buffered].
  - by rewrite Hclen.
  - by apply packed_app.
  - unfold packed_end in *. rewrite zsum_app, zsum_cons, zsum_nil. cbn [write_payload_len]. fold offset. lia.
  - apply Forall_app. split.
    + rewrite Forall_forall in *. intros w Hw. destruct (Hs w Hw) as (? & ? & ? & ? & Hck & ?).
      split_and!; try done; try lia. rewrite Hck. f_equal. symmetry. by apply Hkeep.
    + constructor; [|done]. split_and!; cbn [write_key write_payload_len buffer_offset write_payload_checksum attempt]; try done; try lia.
      f_equal. symmetry. apply entry_bytes_copy; try done; lia.
  - rewrite fmap_app. apply NoDup_app. split_and!; [done| |apply NoDup_singleton].
    intros k (w & -> & Hw)%list_elem_of_fmap Hk. apply list_elem_of_singleton in Hk. by apply (buffer_entry_None _ _ Hnone) in Hw.
Qed.

Lemma push_ok d i sh b key bytes :
  let offset := packed_end (buffered b) in
  inner_ok bounds d → i = shard_index_for_key (length (shards d)) key → shards d !! i = Some (sh, b) → is_u128 key →
  view d key = None → offset + payload_disk_bytes (Z.of_nat (length bytes)) ≤ CHUNK_BYTES →
  let d' := with_shard i (sh, push_entry b offset key bytes) d in
  inner_ok bounds d' ∧ view d' key = Some bytes ∧ (∀ k, k ≠ key → view d' k = view d k)
  ∧ recorded (outcomes d') + buffered_count d' = recorded (outcomes d) + buffered_count d + 1.
Proof.
  intros offset Hok -> Hi Hkey Hview Hfit d'. set (i := shard_index_for_key _ key) in *.
  destruct (shard_state _ _ _ Hok Hi) as (bi & Hbi & Hst). assert (Hst' := Hst). destruct Hst' as [Hsh Hb Hapart Hint]. cbn [fst snd] in *.
  assert (Hlt : (i < length (shards d))%nat) by (by eapply lookup_lt_Some).
  assert (Hno := contains_view d key (sh, b) Hok Hi). rewrite Hview in Hno. unfold shard_contains in Hno. cbn in Hno.
  assert (Hnone : buffer_entry b key = None) by (by destruct (buffer_entry b key)).
  assert (Hidx : entries_by_key (entry_index sh) !! key = None) by (rewrite Hnone in Hno; by destruct (entries_by_key (entry_index sh) !! key)).
  destruct (push_buffer_ok b key bytes Hb Hkey Hnone Hfit) as [Hb' Hkeep]. fold offset in Hb', Hkeep.
  assert (Hlen' : length (shards d') = length (shards d)) by apply length_insert.
  assert (Hi' : shards d' !! i = Some (sh, push_entry b offset key bytes)) by (by apply list_lookup_insert_eq).
  pose proof (payload_disk_bytes_spec (Z.of_nat (length bytes)) ltac:(lia)) as (_ & Hpd & _).
  assert (Hoff : 0 ≤ offset).
  { assert (Hl : Forall (λ w, 0 ≤ write_payload_len w) (buffered b)) by (eapply Forall_impl; [exact (bo_sealed _ Hb)|]; by intros w (_ & ? & _)).
    pose proof (packed_count _ Hl). unfold offset. lia. }
  split_and!.
  - constructor; [|exact (io_disjoint _ _ Hok)]. unfold d', with_shard. cbn [shards file]. apply Forall2_lookup. intros j.
    destruct (decide (j = i)) as [->|Hne].
    + rewrite list_lookup_insert_eq, Hbi by done. constructor. constructor; cbn [fst snd]; try done.
      intros w [Hw|Hw%list_elem_of_singleton]%elem_of_app; [by apply Hapart|by subst w].
    + rewrite list_lookup_insert_ne by done. assert (Hj := io_shards _ _ Hok). rewrite Forall2_lookup in Hj. apply Hj.
  - apply (view_Some d' key bytes _ ltac:(rewrite Hlen'; exact Hi') Hb'). left. eexists. split; [apply elem_of_app; right; by left|].
    split; [done|]. symmetry. apply entry_bytes_copy; try done; [exact (bo_length _ Hb)|lia].
  - intros k Hk. unfold view. rewrite Hlen'. destruct (decide (shard_index_for_key (length (shards d)) k = i)) as [Heq|Hne].
    + rewrite Heq, Hi', Hi. cbn [mbind option_bind fst snd]. unfold buffer_get.
      assert (Hsame : buffer_entry (push_entry b offset key bytes) k = buffer_entry b k).
      { unfold buffer_entry, push_entry. cbn [buffered]. rewrite reverse_app. cbn. rewrite (proj2 (Z.eqb_neq key k)) by done. done. }
      rewrite Hsame. destruct (buffer_entry b k) as [w|] eqn:Hw; [|done]. cbn.
      apply buffer_entry_Some in Hw as [Hw _]. f_equal. exact (Hkeep w Hw).
    + unfold d', with_shard. cbn [shards file]. by rewrite list_lookup_insert_ne by done.
  - unfold buffered_count at 1, d', with_shard. cbn [shards outcomes]. rewrite (buffered_count_insert d i _ _ Hi).
    cbn [snd push_entry buffered]. rewrite length_app. cbn [length]. lia.
Qed.

(** What an operation that writes [key] with [bytes] may do. *)
Record write_effect d d' (key : Z) (bytes : list byte) (r : result DiskCacheError Z) : Prop := mkWriteEffect {
  we_ok : inner_ok bounds d';
  we_length : length (shards d') = length (shards d);
  we_recorded : recorded (outcomes d') + buffered_count d' = recorded (outcomes d) + buffered_count d + 1;
  we_view : ∀ k v, view d' k = Some v → view d k = Some v ∨ (k = key ∧ v = bytes ∧ view d key = None);
  we_small : is_ok r = true → view d key = None → payload_disk_bytes (Z.of_nat (length bytes)) < SMALL_ENTRY_BYTES →
    view d' key = Some bytes ∨ ∃ x, shards d' !! shard_index_for_key (length (shards d)) key = Some x ∧ buffered x.2 = []
}.

(** A large entry is a batch of its own. *)
Lemma large_batch key bytes :
  let w := mkWriteEntry key (Z.of_nat (length bytes)) (xxh64 bytes) 0 new_attempt in
  is_u128 key → SMALL_ENTRY_BYTES ≤ payload_disk_bytes (Z.of_nat (length bytes)) →
  (0 < length bytes)%nat ∧ batch_ok (div_ceil (Z.of_nat (length bytes)) CHUNK_BYTES * CHUNK_BYTES) [w] ∧ Forall (entry_sealed bytes) [w].
Proof.
  intros w Hkey Hbig. pose proof (payload_disk_bytes_spec (Z.of_nat (length bytes)) ltac:(lia)) as (Hal & Hpd & _). unfold SMALL_ENTRY_BYTES in Hbig.
  pose proof (div_ceil_mul (Z.of_nat (length bytes)) CHUNK_BYTES ltac:(done)) as Hceil. split_and!; [lia|split_and!; [done|by vm_compute|]|].
  - constructor; [|done]. unfold batch_entry_ok, w. cbn [write_key write_payload_checksum write_payload_len buffer_offset].
    split; [done|]. split; [apply xxh64_range|]. split; [lia|]. split; [done|].
    rewrite Z.add_0_l. apply (aligned_le (Z.of_nat (length bytes))); [lia|done|apply chunk_aligned|lia|lia].
  - constructor; [|done]. unfold entry_sealed, w. cbn [write_key write_payload_len buffer_offset write_payload_checksum attempt].
    split_and!; try done; try lia. f_equal. unfold entry_bytes. cbn [buffer_offset write_payload_len]. rewrite slice_full; [done|done|lia].
Qed.

(** A large entry is written at once. *)
Lemma write_large d i sh b key bytes :
  inner_ok bounds d → i = shard_index_for_key (length (shards d)) key → shards d !! i = Some (sh, b) → is_u128 key →
  view d key = None → SMALL_ENTRY_BYTES ≤ payload_disk_bytes (Z.of_nat (length bytes)) →
  ∃ d' r, write_batch histories size d i sh b bytes [mkWriteEntry key (Z.of_nat (length bytes)) (xxh64 bytes) 0 new_attempt] = Done (d', r)
    ∧ batch_effect d d' i b bytes [mkWriteEntry key (Z.of_nat (length bytes)) (xxh64 bytes) 0 new_attempt] ∧ write_effect d d' key bytes r.
Proof.
  intros Hok Hidx Hi Hkey Hview Hbig. set (w := mkWriteEntry _ _ _ _ _). destruct (large_batch key bytes Hkey Hbig) as (Hlen & Hbatch & Hseal). fold w in Hbatch, Hseal.
  destruct (shard_state _ _ _ Hok Hi) as (bi & Hbi & [Hsh Hb Hapart Hint]). cbn [fst snd] in *.
  assert (Hno : buffer_entry b key = None).
  { assert (Hc := contains_view d key (sh, b) Hok ltac:(by rewrite <-Hidx)). rewrite Hview in Hc.
    unfold shard_contains in Hc. cbn in Hc. by destruct (buffer_entry b key). }
  destruct (write_batch_ok d i sh b b bytes [w] Hok Hi Hlen Hbatch Hseal Hb) as (d' & r & Hrun & Heff).
  { intros w0 Hw0. split; [by apply Hapart|]. intros w' ->%list_elem_of_singleton Heq. by apply (buffer_entry_None _ _ Hno) in Hw0. }
  exists d', r. split; [done|]. split; [done|]. destruct (be_shards _ _ _ _ _ _ Heff) as (sh' & Hsh'). constructor.
  - exact (be_ok _ _ _ _ _ _ Heff).
  - rewrite Hsh'. apply length_insert.
  - rewrite (be_recorded _ _ _ _ _ _ Heff). unfold buffered_count at 1. rewrite Hsh', (buffered_count_insert d i _ _ Hi). cbn [snd length]. lia.
  - intros k v Hv. destruct (batch_view d d' i sh b b bytes [w] k v Hok Hi Heff ltac:(done) Hv) as [?|(w' & ->%list_elem_of_singleton & Hk & -> & _)]; [by left|].
    right. cbn in Hk. split_and!; [done| |done]. unfold entry_bytes, w. cbn [buffer_offset write_payload_len]. apply slice_full; [done|lia].
  - intros _ _ Hsmall. lia.
Qed.

Lemma next_offset b :
  packed 0 (buffered b) →
  match last (buffered b) with
  | Some e => buffer_offset e + payload_disk_bytes (write_payload_len e)
  | None => 0
  end = packed_end (buffered b).
Proof.
  intros Hp. destruct (last (buffered b)) as [w|] eqn:Hl; [by rewrite (packed_last 0 _ _ Hp Hl)|].
  apply last_None in Hl. by rewrite Hl.
Qed.

Lemma drop_attempt_effect d d1 a key bytes e :
  inner_ok bounds d1 → length (shards d1) = length (shards d) → view_le d1 d →
  recorded (outcomes d1) + buffered_count d1 = recorded (outcomes d) + buffered_count d →
  write_effect d (with_outcomes (drop_attempt (outcomes d1) a) d1) key bytes (Err e).
Proof.
  intros Hok Hlen Hle Hrec. constructor; cbn [with_outcomes shards outcomes]; try done.
  - destruct Hok; by constructor.
  - rewrite recorded_drop. change (buffered_count (with_outcomes _ d1)) with (buffered_count d1). lia.
  - intros k v Hv. left. by apply Hle.
Qed.

(** The part of [write] after the room for a small entry is made. *)
Lemma finish_small d d1 i sh b key bytes published :
  inner_ok bounds d1 → i = shard_index_for_key (length (shards d)) key → shards d1 !! i = Some (sh, b) → is_u128 key →
  length (shards d1) = length (shards d) → view_le d1 d → view d key = None →
  recorded (outcomes d1) + buffered_count d1 = recorded (outcomes d) + buffered_count d →
  packed_end (buffered b) + payload_disk_bytes (Z.of_nat (length bytes)) ≤ CHUNK_BYTES →
  let d2 := with_shard i (sh, push_entry b (packed_end (buffered b)) key bytes) d1 in
  ∃ d' r, (if packed_end (buffered b) + payload_disk_bytes (Z.of_nat (length bytes)) =? CHUNK_BYTES
           then '(d3, r) ← flush_shard histories size d2 i; Done (d3, add_published published r)
           else Done (d2, Ok published)) = Done (d', r) ∧ write_effect d d' key bytes r.
Proof.
  intros Hok Hidx Hi Hkey Hlen Hle Hview Hrec Hfit d2.
  assert (Hview1 : view d1 key = None).
  { destruct (view d1 key) as [v|] eqn:Hv; [|done]. apply Hle in Hv. congruence. }
  destruct (push_ok d1 i sh b key bytes Hok ltac:(by rewrite Hlen) Hi Hkey Hview1 Hfit) as (Hok2 & Hv2 & Hother & Hrec2). fold d2 in Hok2, Hv2, Hother, Hrec2.
  assert (Hlen2 : length (shards d2) = length (shards d)) by (unfold d2, with_shard; cbn [shards]; by rewrite length_insert).
  assert (Hsub : ∀ k v, view d2 k = Some v → view d k = Some v ∨ (k = key ∧ v = bytes ∧ view d key = None)).
  { intros k v Hv. destruct (decide (k = key)) as [->|Hne]; [right; by split_and!; [|congruence|]|left].
    rewrite Hother in Hv by done. by apply Hle. }
  destruct (Z.eqb_spec (packed_end (buffered b) + payload_disk_bytes (Z.of_nat (length bytes))) CHUNK_BYTES).
  - destruct (flush_shard_ok d2 i Hok2) as (d3 & r & Hrun & Hok3 & Hle3 & Hlen3 & Hrec3 & Hempty & _).
    { rewrite Hlen2, <-Hlen. by eapply lookup_lt_Some. }
    rewrite Hrun. cbn [mbind outcome_bind]. eexists d3, _. split; [reflexivity|]. constructor; try done; [congruence|lia|auto|].
    intros Hr _ _. right. destruct Hempty as (sh' & b' & Hb' & Hnil); [by destruct r|]. exists (sh', b'). by rewrite <-Hidx.
  - eexists d2, _. split; [reflexivity|]. constructor; try done; [lia|]. intros _ _ _. by left.
Qed.

Lemma key_shard_lt n key : 0 ≤ key → (0 < n)%nat → (shard_index_for_key n key < n)%nat.
Proof. intros Hk Hn. unfold shard_index_for_key. pose proof (Z.mod_pos_bound key (Z.of_nat n) ltac:(lia)). lia. Qed.

Lemma write_ok d key bytes :
  inner_ok bounds d → is_u128 key → (0 < length (shards d))%nat →
  ∃ d' r, write histories size d key bytes = Done (d', r) ∧ write_effect d d' key bytes r.
Proof.
  intros Hok Hkey Hne. unfold write. set (i := shard_index_for_key (length (shards d)) key).
  destruct (lookup_lt_is_Some_2 (shards d) i) as [[sh b] Hi]; [apply key_shard_lt; [apply Hkey|done]|].
  rewrite Hi. cbn [unwrap mbind outcome_bind]. rewrite (contains_view d key (sh, b) Hok Hi).
  destruct (view d key) as [v0|] eqn:Hview.
  { rewrite bool_decide_eq_true_2 by eauto. eexists _, _. split; [reflexivity|].
    constructor; cbn [with_outcomes shards outcomes]; try done; [by destruct Hok|rewrite recorded_drop; change (buffered_count (with_outcomes _ d)) with (buffered_count d); lia|by left|].
    intros _ Hn. congruence. }
  rewrite bool_decide_eq_false_2 by (by intros []).
  destruct (Z.leb_spec SMALL_ENTRY_BYTES (payload_disk_bytes (Z.of_nat (length bytes)))) as [Hbig|Hsmall].
  { destruct (write_large d i sh b key bytes) as (d' & r & ? & _ & ?); [done..|]. by exists d', r. }
  destruct (shard_state _ _ _ Hok Hi) as (bi & Hbi & [_ Hb _ _]). cbn [fst snd] in Hb. rewrite (next_offset b (bo_packed _ Hb)).
  pose proof (payload_disk_bytes_spec (Z.of_nat (length bytes)) ltac:(lia)) as (_ & Hpd & _). unfold SMALL_ENTRY_BYTES in Hsmall.
  assert (Hassert : ∀ b0 offset, Z.of_nat (length (buffer b0)) = CHUNK_BYTES → offset + payload_disk_bytes (Z.of_nat (length bytes)) ≤ CHUNK_BYTES →
            assert_that (offset + Z.of_nat (length bytes) <=? Z.of_nat (length (buffer b0))) = Done tt).
  { intros b0 offset Hl Ho. rewrite (proj2 (Z.leb_le _ _)) by lia. done. }
  destruct (Z.ltb_spec CHUNK_BYTES (packed_end (buffered b) + payload_disk_bytes (Z.of_nat (length bytes)))) as [Hfull|Hroom].
  - destruct (flush_shard_ok d i Hok) as (d1 & r & Hrun & Hok1 & Hle1 & Hlen1 & Hrec1 & Hempty & _); [by eapply lookup_lt_Some|].
    rewrite Hrun. cbn [mbind outcome_bind]. destruct r as [n|e].
    2:{ eexists _, _. split; [reflexivity|]. by apply drop_attempt_effect. }
    destruct (Hempty eq_refl) as (sh1 & b1 & Hi1 & Hnil). rewrite Hi1. cbn [unwrap mbind outcome_bind].
    destruct (shard_state _ _ _ Hok1 Hi1) as (b1i & _ & [_ Hb1 _ _]). cbn [fst snd] in Hb1.
    assert (Hpe : packed_end (buffered b1) = 0) by (by rewrite Hnil).
    rewrite (Hassert b1 0 (bo_length _ Hb1)) by (unfold CHUNK_BYTES; lia). cbn [mbind outcome_bind].
    destruct (finish_small d d1 i sh1 b1 key bytes n Hok1 eq_refl Hi1 Hkey Hlen1 Hle1 Hview Hrec1) as (d' & r & Hfin & Heff).
    { rewrite Hpe. unfold CHUNK_BYTES. lia. }
    rewrite Hpe in Hfin. exists d', r. split; [exact Hfin|done].
  - cbn [mbind outcome_bind]. rewrite Hi. cbn [unwrap mbind outcome_bind]. rewrite (Hassert b _ (bo_length _ Hb) Hroom). cbn [mbind outcome_bind].
    exact (finish_small d d i sh b key bytes 0 Hok eq_refl Hi Hkey eq_refl ltac:(by intros ?) Hview eq_refl Hroom).
Qed.

Lemma flush_from_ok n : ∀ i d published,
  inner_ok bounds d → (i + n = length (shards d))%nat →
  (∀ j x, (j < i)%nat → shards d !! j = Some x → buffered x.2 = []) →
  ∃ d' r, flush_from histories size n i d published = Done (d', r) ∧ inner_ok bounds d' ∧ view_le d' d
    ∧ length (shards d') = length (shards d)
    ∧ recorded (outcomes d') + buffered_count d' = recorded (outcomes d) + buffered_count d
    ∧ (is_ok r = true → ∀ x, x ∈ shards d' → buffered x.2 = []).
Proof.
  induction n as [|n IH]; intros i d published Hok Hi Hempty; cbn [flush_from].
  { exists d, (Ok published). split_and!; try done; [by intros ?|]. intros _ x (j & Hj)%list_elem_of_lookup.
    apply (Hempty j x); [|done]. apply lookup_lt_Some in Hj. lia. }
  destruct (flush_shard_ok d i Hok ltac:(lia)) as (d1 & r & Hrun & Hok1 & Hle1 & Hlen1 & Hrec1 & Hnil & Hother).
  rewrite Hrun. cbn [mbind outcome_bind]. destruct r as [k|e]; [|exists d1, (Err e); by split_and!].
  destruct (IH (S i) d1 (published + k) Hok1 ltac:(lia)) as (d' & r & Hrun' & Hok' & Hle' & Hlen' & Hrec' & Hnil').
  { intros j x Hj Hx. destruct (decide (j = i)) as [->|Hne].
    - destruct (Hnil eq_refl) as (sh' & b' & Hb' & Hb). rewrite Hx in Hb'. by injection Hb' as ->.
    - rewrite Hother in Hx by done. apply (Hempty j x); [lia|done]. }
  exists d', r. split_and!; try done; [|congruence|lia]. intros key v Hv. by apply Hle1, Hle'.
Qed.

Lemma flush_ok d :
  inner_ok bounds d →
  ∃ d' r, flush histories size d = Done (d', r) ∧ inner_ok bounds d' ∧ view_le d' d
    ∧ length (shards d') = length (shards d)
    ∧ recorded (outcomes d') + buffered_count d' = recorded (outcomes d) + buffered_count d
    ∧ (is_ok r = true → ∀ x, x ∈ shards d' → buffered x.2 = []).
Proof. intros Hok. apply flush_from_ok; [done|lia|lia]. Qed.

Lemma buffered_count_nil d : (∀ x, x ∈ shards d → buffered x.2 = []) → buffered_count d = 0.
Proof.
  unfold buffered_count. intros Hnil. induction (shards d) as [|x l IHl]; [done|]. rewrite zsum_cons, (Hnil x) by (by left).
  rewrite IHl; [done|]. intros y Hy. apply Hnil. by right.
Qed.

Lemma write_all_ok entries : ∀ d published,
  inner_ok bounds d → (0 < length (shards d))%nat → Forall (λ kb, is_u128 kb.1) entries →
  ∃ d' r attempted rest, write_all histories size d entries published = Done (d', r) ∧ inner_ok bounds d'
    ∧ entries = attempted ++ rest
    ∧ (∀ k v, view d' k = Some v → view d k = Some v ∨ (k, v) ∈ attempted)
    ∧ recorded (outcomes d') + buffered_count d' = recorded (outcomes d) + buffered_count d + Z.of_nat (length attempted)
    ∧ (is_ok r = true → rest = [] ∧ ∀ x, x ∈ shards d' → buffered x.2 = []).
Proof.
  induction entries as [|[key bytes] entries IH]; intros d published Hok Hne Hkeys; cbn [write_all].
  - destruct (flush_ok d Hok) as (d' & r & Hrun & Hok' & Hle & _ & Hrec & Hnil). rewrite Hrun. cbn [mbind outcome_bind].
    eexists d', _, [], []. split; [reflexivity|]. split_and!; [done|done|left; by apply Hle|cbn [length]; lia|].
    intros Hr. destruct r as [n|]; [|done]. by split; [|apply Hnil].
  - apply Forall_cons in Hkeys as [Hkey Hkeys]. destruct (write_ok d key bytes Hok Hkey Hne) as (d1 & r & Hrun & [Hok1 Hlen1 Hrec1 Hview1 _]).
    rewrite Hrun. cbn [mbind outcome_bind]. destruct r as [n|e].
    2:{ exists d1, (Err e), [(key, bytes)], entries. split_and!; try done. intros k v Hv. destruct (Hview1 _ _ Hv) as [?|(-> & -> & _)]; [by left|right; by left]. }
    destruct (IH d1 (published + n) Hok1 ltac:(lia) Hkeys) as (d' & r & attempted & rest & Hrun' & Hok' & -> & Hview & Hrec & Hfin).
    exists d', r, ((key, bytes) :: attempted), rest. split_and!; try done.
    + intros k v Hv. destruct (Hview _ _ Hv) as [Hv1|Hin]; [|right; by right].
      destruct (Hview1 _ _ Hv1) as [?|(-> & -> & _)]; [by left|right; by left].
    + rewrite length_cons. lia.
Qed.

Lemma discard_ok d :
  inner_ok bounds d →
  inner_ok bounds (discard_pending d) ∧ view_le (discard_pending d) d
  ∧ recorded (outcomes (discard_pending d)) = recorded (outcomes d) + buffered_count d.
Proof.
  intros Hok. split_and!.
  - destruct Hok as [Hs Hd]. constructor; [|done]. cbn [discard_pending shards file]. apply Forall2_fmap_r.
    eapply Forall2_impl; [exact Hs|]. intros b x [Hsh [Hl Hp He Hse Hk] Ha Hi]. constructor; try done; cbn [fst snd].
    + constructor; cbn [buffer buffered]; [done|done|discriminate|constructor|constructor].
    + cbn. by intros w ?%elem_of_nil.
  - intros key v. unfold view. cbn [discard_pending shards file]. rewrite length_fmap, list_lookup_fmap.
    destruct (shards d !! shard_index_for_key (length (shards d)) key) as [x|] eqn:Hx; cbn; [|done]. intros Hv.
    destruct (shard_state _ _ _ Hok Hx) as (b & _ & Hst). destruct (buffer_get x.2 key) as [v'|] eqn:Hg; [|done]. exfalso.
    apply (buffer_get_Some _ _ _ (bo_keys _ (ss_buffer _ _ _ Hst))) in Hg as (w & Hw & Hk & _).
    apply (ss_apart _ _ _ Hst) in Hw. rewrite Hk in Hw. rewrite Hw in Hv. done.
  - cbn [discard_pending outcomes]. rewrite recorded_drops, length_fmap. f_equal. unfold buffered_count.
    induction (shards d) as [|x l IH]; [done|]. cbn [fmap list_fmap concat]. rewrite length_app, zsum_cons. lia.
Qed.
End cache.

(** ** Properties *)

(** C4: the disk cache refines a map that may forget.  Writing an object from
    any consistent state never panics, keeps every shard consistent with intact
    payloads, and accounts for exactly one attempt (recorded, or still
    buffered).  Afterwards a lookup sees only what it could see before or, for a
    key that was absent, the bytes just written; a small object is visible
    unless its write completed the buffer, which is then empty. *)
Theorem cache_write_refines `{HasherOk} `{StorageFileOk F} `{RetentionScorer Hist} (histories : Hist) size bounds
    (d : DiskCacheInner F) key bytes :
  inner_ok bounds d → is_u128 key → (0 < length (shards d))%nat →
  ∃ d' r, write histories size d key bytes = Done (d', r)
    ∧ inner_ok bounds d'
    ∧ recorded (outcomes d') + buffered_count d' = recorded (outcomes d) + buffered_count d + 1
    ∧ (∀ k v, view d' k = Some v → view d k = Some v ∨ (k = key ∧ v = bytes ∧ view d key = None))
    ∧ (is_ok r = true → view d key = None → payload_disk_bytes (Z.of_nat (length bytes)) < SMALL_ENTRY_BYTES →
         view d' key = Some bytes
         ∨ ∃ x, shards d' !! shard_index_for_key (length (shards d)) key = Some x ∧ buffered x.2 = []).
Proof.
  intros Hok Hkey Hne. destruct (write_ok histories size bounds d key bytes Hok Hkey Hne) as (d' & r & Hrun & []).
  exists d', r. by split_and!.
Qed.

(** A cache of one empty shard of eight chunks. *)
Definition sample_cache : DiskCacheInner RamFile :=
  mkInner (mkRamFile (9 * CHUNK_BYTES) (λ _, Byte.x00) []) [(new_shard 1 9, mkSmallEntryBuffer (zeros (Z.to_nat CHUNK_BYTES)) [])]
    (mkWriteCounters 0 0 0) (mkWriteOutcomes (λ _, 0) 0) [].

Lemma sample_cache_ok : let _ := sum_hasher in inner_ok [(1, 9)] sample_cache.
Proof.
  intros hash. constructor.
  - constructor; [|constructor]. constructor; cbn [fst snd].
    + apply new_shard_ok; [lia|lia|by vm_compute|lia].
    + apply fresh_buffer_ok.
    + cbn. by intros w ?%elem_of_nil.
    + intros key e. cbn. by rewrite lookup_empty.
  - intros [|i] [|j] bi bj Hne Hi Hj; by rewrite ?lookup_nil in *.
Qed.

Lemma cache_write_refines_witness :
  let _ := sum_hasher in let _ := sample_scorer in
  ∃ d' r, write () 64 sample_cache 7 [Byte.x01; Byte.x02] = Done (d', r) ∧ inner_ok [(1, 9)] d'.
Proof.
  intros hash scorer. assert (Hh : @HasherOk hash) by apply sum_hasher_ok.
  destruct (cache_write_refines () 64 [(1, 9)] sample_cache 7 [Byte.x01; Byte.x02] sample_cache_ok) as (d' & r & Hrun & Hok & _);
    [done|cbn; lia|]. exists d', r. split; [exact Hrun|exact Hok].
Defined.



(** Flushing and discarding only forget: neither panics, both keep the cache
    consistent and show no new bytes, and each buffered attempt is recorded.
    A flush that succeeds leaves no entry buffered. *)
Lemma flush_and_discard_refine `{HasherOk} `{StorageFileOk F} `{RetentionScorer Hist} (histories : Hist) size bounds
    (d : DiskCacheInner F) :
  inner_ok bounds d →
  (∃ d' r, flush histories size d = Done (d', r) ∧ inner_ok bounds d' ∧ view_le d' d
     ∧ recorded (outcomes d') + buffered_count d' = recorded (outcomes d) + buffered_count d
     ∧ (is_ok r = true → ∀ x, x ∈ shards d' → buffered x.2 = []))
  ∧ inner_ok bounds (discard_pending d) ∧ view_le (discard_pending d) d
  ∧ recorded (outcomes (discard_pending d)) = recorded (outcomes d) + buffered_count d.
Proof.
  intros Hok. split; [|by apply discard_ok]. destruct (flush_ok histories size bounds d Hok) as (d' & r & ? & ? & ? & _ & ? & ?). eauto 10.
Qed.
