(* ===== verification/Recovery.v ===== *)
(** * Recovery ([feuer-storage/src/disk_cache/recovery.rs])

    Opening a shard follows its metadata chain from the shard's first chunk,
    reserving every metadata chunk before any payload, and then claims the
    payload of each record in chain order.  Whatever the disk holds, the result
    is a consistent shard, except that a record whose payload range exceeds the
    64-bit address space overflows: the sum panics, as in a build with overflow
    checks. *)

From S2P Require Import Prelude Codec Errors Disk BTree Allocation PageFormat Metadata MetadataWriter Float64.
From S2P Require Import Retention EntryIndex Shard Writer.

(** [shard_disk_range] *)
Definition shard_disk_range (capacity num_shards shard_index : Z) : Range :=
  let chunks_after_header := capacity / CHUNK_BYTES - 1 in
  mkRange ((1 + chunks_after_header * shard_index / num_shards) * CHUNK_BYTES)
          ((1 + chunks_after_header * (shard_index + 1) / num_shards) * CHUNK_BYTES).

Definition is_zero (b : byte) : bool := bool_decide (b = Byte.x00).

Section recovery.
Context `{Hasher} `{StorageFile F}.

(** The loop of [load_metadata_chain].  Leaving it after a reservation drops the
    reservation.  Each iteration that continues reserves a chunk, so the shard's
    chunk count bounds them; running out of [fuel] is not an outcome of the
    source. *)
Fixpoint load_chain (fuel : nat) (f : F) (al : DiskChunkAllocator) (address : Z) (cs : list MetadataChunk)
  : outcome (F * DiskChunkAllocator * list MetadataChunk * Z) :=
  if bool_decide (address ≠ NO_CHUNK) && is_multiple_of address CHUNK_BYTES then
    match fuel with
    | O => Panic
    | S fuel =>
        match reserve_chunks_at al (address / CHUNK_BYTES) 1 with
        | None => Done (f, al, cs, address)
        | Some (al, reserved) =>
            '(f, bytes) ← read_at f address (Z.to_nat CHUNK_BYTES);
            match bytes with
            | Err _ => Done (f, drop_reserved al reserved, cs, address)
            | Ok bytes =>
                if forallb is_zero bytes then Done (f, drop_reserved al reserved, cs, address)
                else
                  let '(al, reserved) := mark_recovered al reserved in
                  let '(entries, next_chunk_address) := decode_chunk bytes in
                  let cs := cs ++ [mkMetadataChunk reserved entries (default NO_CHUNK next_chunk_address) false] in
                  match next_chunk_address with
                  | Some next_chunk_address => load_chain fuel f al next_chunk_address cs
                  | None => Done (f, al, cs, address)
                  end
            end
        end
    end
  else Done (f, al, cs, address).

(** [load_metadata_chain] *)
Definition load_metadata_chain (f : F) (al : DiskChunkAllocator) (address : Z)
  : outcome (F * DiskChunkAllocator * MetadataChunks) :=
  '(f, al, cs, address) ← load_chain (S (Z.to_nat (chunk_capacity al))) f al address [];
  let metadata := mkMetadataChunks cs [] (mkLocation 0 0) 0 in
  metadata ← (if bool_decide (address ≠ NO_CHUNK) then set_last_chunk_link metadata NO_CHUNK else Done metadata);
  Done (f, al, metadata).

(** The payload range of a record, whose sum is checked. *)
Definition payload_range (r : EntryMetadata) : outcome Range :=
  let payload_end := meta_payload_address r + payload_disk_bytes (meta_payload_len r) in
  _ ← assert_that (payload_end <? 2 ^ 64);
  Done (mkRange (meta_payload_address r) payload_end).

(** The body of the recovery loop for one slot: claims the payload of a record
    or clears the slot. *)
Definition recover_slot (num_shards shard_index : nat) (sh : DiskCacheShard) (counts : Z * Z)
    (location : EntryMetadataLocation) : outcome (DiskCacheShard * (Z * Z)) :=
  slot ← unwrap (slot_at (chunks (metadata_pages sh)) location);
  match slot with
  | None => Done (sh, counts)
  | Some r =>
      let m := metadata_pages sh in
      payload ← payload_range r;
      let reject :=
        Done (mkDiskCacheShard (allocator sh) (entry_index sh)
                (mkMetadataChunks (set_slot (chunks m) location None) (dirty_pages m)
                   (free_slot_search_start m) (free_slot_count m)), counts) in
      if bool_decide (shard_index_for_key num_shards (meta_key r) ≠ shard_index) then reject
      else if bool_decide (is_Some (entries_by_key (entry_index sh) !! meta_key r)) then reject
      else
        match hold_chunks_for_recovered_payload (allocator sh) payload with
        | None => reject
        | Some al =>
            _ ← assert_that (Z.of_nat (loc_chunk location) <? 2 ^ 32);
            sh ← insert_entry (mkDiskCacheShard al (entry_index sh) m) (meta_key r) (new_DiskEntry r location);
            Done (sh, (counts.1 + 1, counts.2 + meta_payload_len r))
        end
  end.

Fixpoint recover_slots (num_shards shard_index : nat) (sh : DiskCacheShard) (counts : Z * Z)
    (locations : list EntryMetadataLocation) : outcome (DiskCacheShard * (Z * Z)) :=
  match locations with
  | [] => Done (sh, counts)
  | location :: locations =>
      '(sh, counts) ← recover_slot num_shards shard_index sh counts location;
      recover_slots num_shards shard_index sh counts locations
  end.

(** Every slot of a chain, chunk by chunk in entry order. *)
Definition all_locations (chunk_count : nat) : list EntryMetadataLocation :=
  ci ← seq 0 chunk_count; mkLocation ci <$> seq 0 (Z.to_nat ENTRIES_PER_METADATA_CHUNK).

(** [DiskCacheInner::recover_shard] *)
Definition recover_shard (f : F) (sh : DiskCacheShard) (num_shards shard_index : nat) (start : Z)
  : outcome (F * DiskCacheShard) :=
  '(f, al, metadata) ← load_metadata_chain f (allocator sh) start;
  let sh := mkDiskCacheShard al (entry_index sh) metadata in
  '(sh, (recovered_entries, recovered_payload_bytes)) ←
    recover_slots num_shards shard_index sh (0, 0) (all_locations (length (chunks metadata)));
  let sh := if recovered_entries =? 0 then sh else add_gauges recovered_entries recovered_payload_bytes sh in
  Done (f, mkDiskCacheShard (allocator sh) (entry_index sh) (reset_free_slots (metadata_pages sh))).
End recovery.

(** ** Slots that are still to be examined *)

(** The chain with the slots of [todo] cleared: what recovery has accepted so far. *)
Fixpoint masked (todo : list EntryMetadataLocation) (cs : list MetadataChunk) : list MetadataChunk :=
  match todo with
  | [] => cs
  | loc :: todo => set_slot (masked todo cs) loc None
  end.
Definition with_chunks (cs : list MetadataChunk) (m : MetadataChunks) : MetadataChunks :=
  mkMetadataChunks cs (dirty_pages m) (free_slot_search_start m) (free_slot_count m).
(** The shard recovery would produce if it stopped before the slots of [todo]. *)
Definition shadow (todo : list EntryMetadataLocation) (sh : DiskCacheShard) : DiskCacheShard :=
  mkDiskCacheShard (allocator sh) (entry_index sh)
    (reset_free_slots (with_chunks (masked todo (chunks (metadata_pages sh))) (metadata_pages sh))).

Lemma set_slot_same cs loc o : slot_at cs loc = Some o → set_slot cs loc o = cs.
Proof.
  intros (c & Hc & Ho)%slot_at_Some. unfold set_slot. rewrite <-(list_alter_id id cs (loc_chunk loc)) at 2 by done.
  apply list_alter_ext; [|done]. intros c'. rewrite Hc. intros [= <-].
  unfold set_entries. rewrite list_insert_id by done. by destruct c.
Qed.

Lemma set_slot_twice cs loc o o' : set_slot (set_slot cs loc o) loc o' = set_slot cs loc o'.
Proof.
  unfold set_slot. rewrite list_alter_alter_eq. apply list_alter_ext; [|done].
  intros c _. unfold set_entries. cbn. by rewrite list_insert_insert_eq.
Qed.

Lemma set_slot_comm cs loc loc' o o' :
  loc ≠ loc' → set_slot (set_slot cs loc o) loc' o' = set_slot (set_slot cs loc' o') loc o.
Proof.
  intros Hne. unfold set_slot. destruct (decide (loc_chunk loc = loc_chunk loc')) as [Heq|Hne'].
  - rewrite Heq, !list_alter_alter_eq. apply list_alter_ext; [|done]. intros c _. unfold set_entries. cbn.
    rewrite list_insert_insert_ne; [done|]. destruct loc, loc'. cbn in *. congruence.
  - apply list_alter_alter_ne. congruence.
Qed.

Lemma masked_set_slot todo cs loc o : loc ∉ todo → masked todo (set_slot cs loc o) = set_slot (masked todo cs) loc o.
Proof.
  induction todo as [|l todo IH]; [done|]. intros [Hne Hin]%not_elem_of_cons. cbn. rewrite IH by done.
  by apply set_slot_comm.
Qed.

Lemma slot_at_masked todo cs loc : loc ∉ todo → slot_at (masked todo cs) loc = slot_at cs loc.
Proof.
  induction todo as [|l todo IH]; [done|]. intros [Hne Hin]%not_elem_of_cons. cbn.
  destruct (slot_at (masked todo cs) l) as [o|] eqn:Hl.
  - rewrite (slot_at_set_slot _ _ _ o Hl), decide_False by done. auto.
  - unfold slot_at, set_slot in *. rewrite <-IH by done. destruct (decide (loc_chunk loc = loc_chunk l)) as [Heq|Hd].
    + rewrite Heq, list_lookup_alter_eq. destruct (masked todo cs !! loc_chunk l) as [c|]; [|done]. cbn in *.
      rewrite list_lookup_insert_ne; [done|]. destruct loc, l. cbn in *. congruence.
    + by rewrite list_lookup_alter_ne.
Qed.

Lemma slot_at_set_None cs loc loc' r :
  slot_at (set_slot cs loc None) loc' = Some (Some r) → loc' ≠ loc ∧ slot_at cs loc' = Some (Some r).
Proof.
  destruct (slot_at cs loc) as [o|] eqn:Ho.
  - rewrite (slot_at_set_slot _ _ _ o Ho). by case_decide.
  - unfold slot_at, set_slot in *. destruct (decide (loc_chunk loc' = loc_chunk loc)) as [Heq|Hd].
    + rewrite Heq, list_lookup_alter_eq. destruct (cs !! loc_chunk loc) as [c|]; [|done]. cbn in *.
      intros Hl. destruct (decide (loc_entry loc' = loc_entry loc)) as [Heq'|Hne].
      * rewrite Heq', list_insert_ge, Ho in Hl by (by apply lookup_ge_None). done.
      * rewrite list_lookup_insert_ne in Hl by done. split; congruence.
    + rewrite list_lookup_alter_ne by done. intros ?. split; [congruence|done].
Qed.

Lemma masked_Some todo cs loc r : slot_at (masked todo cs) loc = Some (Some r) → (loc ∉ todo) ∧ slot_at cs loc = Some (Some r).
Proof.
  induction todo as [|l todo IH]; cbn; [intros; split; [apply not_elem_of_nil|done]|].
  intros [Hne Hl]%slot_at_set_None. destruct (IH Hl). split; [|done]. by apply not_elem_of_cons.
Qed.

Lemma masked_reserved todo cs :
  (λ c, (reserved_chunk c, next_chunk_address c)) <$> masked todo cs
  = (λ c, (reserved_chunk c, next_chunk_address c)) <$> cs.
Proof. induction todo as [|l todo IH]; [done|]. cbn. by rewrite set_slot_reserved. Qed.

Lemma length_masked todo cs : length (masked todo cs) = length cs.
Proof. induction todo as [|l todo IH]; [done|]. cbn. by rewrite length_set_slot. Qed.

(** ** One slot *)
Section slots.
Context (lo hi : Z).

(** The parts of the chain's invariant that hold before the free slots are counted. *)
Record chain_ok (m : MetadataChunks) : Prop := mkChainOk {
  co_chunks : Forall chunk_ok (chunks m);
  co_single : Forall (λ c, chunk_count (reserved_chunk c) = 1) (chunks m);
  co_dirty : Forall (page_in (chunks m)) (dirty_pages m);
  co_sorted : StronglySorted (λ a b, page_cmp a b = Lt) (dirty_pages m);
  co_linked : linked (chunks m)
}.

Lemma meta_ok_chain m : meta_ok m → chain_ok m.
Proof. by intros []. Qed.

Lemma reset_meta_ok m : chain_ok m → meta_ok (reset_free_slots m).
Proof.
  intros []. constructor; cbn [reset_free_slots chunks dirty_pages free_slot_search_start free_slot_count]; try done; [|by left].
  intros loc Hlt. rewrite loc_ltb_spec in Hlt. cbn in Hlt. lia.
Qed.

Lemma set_slot_chain_ok cs m loc o :
  slot_ok o → chain_ok (with_chunks cs m) → chain_ok (with_chunks (set_slot cs loc o) m).
Proof.
  intros Ho [Hc Hs Hd Hst Hl]. constructor; cbn in *; try done.
  - by apply chunks_ok_set_slot.
  - apply Forall_alter; [done|]. by intros.
  - eapply Forall_impl; [done|]. intros p. apply page_in_length. by rewrite length_set_slot.
  - eapply linked_fmap; [symmetry; apply set_slot_reserved|done].
Qed.

(** The holds recovery takes for one payload. *)
Lemma hold_recovered_shard_ok sh lag range al :
  shard_ok lo hi sh [] idle lag →
  0 ≤ range_start range → range_start range < range_end range → range_end range < 2 ^ 64 →
  hold_chunks_for_recovered_payload (allocator sh) range = Some al →
  let k := range_start range / CHUNK_BYTES in
  ∃ r n, payload_chunks al !! k = Some (r, n) ∧ range_end range ≤ range_end (disk_byte_range r) ∧ lo ≤ k
    ∧ shard_ok lo hi (with_allocator al sh) [] (λ k', if decide (k' = k) then 1 else 0) lag.
Proof.
  intros Hok H0 H1 H2 Hhold k. destruct Hok as [Hb Hal Hm Hi Hsl He Hu Hh Hg].
  destruct (hold_recovered_held _ _ _ _ _ _ (proj1 Hal) H0 H1 H2 Hhold) as (r & n & Hpc & Hn & Hsame & Hend & Hlo).
  fold k in Hpc, Hn, Hsame, Hlo. exists r, n. rewrite Hpc at 1. rewrite lookup_insert_eq. split_and!; try done.
  constructor; cbn [with_allocator allocator entry_index metadata_pages]; try done.
  - destruct Hb as (? & ? & ? & _). split_and!; try done. intros k'. case_decide; lia.
  - by eapply hold_recovered_inv.
  - intros k' r' n'. rewrite Hpc. intros [[<- [= <- <-]]|[Hne Hk]]%lookup_insert_Some.
    + rewrite decide_True by done. destruct (payload_chunks (allocator sh) !! k) as [[r0 n0]|] eqn:Hk.
      * rewrite Hn, (Hu _ _ _ Hk). unfold idle. lia.
      * rewrite Hn, users_zero; [done|]. intros k'' e'' Hk'' Heq. destruct (Hh _ _ Hk'') as (? & ? & Hr & _). congruence.
    + rewrite decide_False by done. by rewrite (Hu _ _ _ Hk).
  - intros k' e Hk. destruct (Hh _ _ Hk) as (r0 & n0 & Hr0 & Hin). rewrite Hpc.
    destruct (decide (entry_chunk e = k)) as [Heq|Hne].
    + rewrite Heq in *. rewrite lookup_insert_eq. exists r, n. split; [done|]. by rewrite (Hsame _ _ Hr0).
    + exists r0, n0. by rewrite lookup_insert_ne.
Qed.

(** A record as it is decoded, and one as the writer produces it: its padded
    payload ends before the end of the address space. *)
Definition in_width (r : EntryMetadata) : Prop :=
  is_u128 (meta_key r) ∧ is_u64 (meta_payload_len r) ∧ is_u64 (meta_payload_address r) ∧ is_u64 (meta_payload_checksum r).
Definition fits (r : EntryMetadata) : Prop :=
  is_u128 (meta_key r) ∧ is_u64 (meta_payload_len r) ∧ is_u64 (meta_payload_address r)
  ∧ is_u64 (meta_payload_checksum r) ∧ meta_payload_address r + payload_disk_bytes (meta_payload_len r) < 2 ^ 64.
Definition overflows (r : EntryMetadata) : Prop := 2 ^ 64 ≤ meta_payload_address r + payload_disk_bytes (meta_payload_len r).

Lemma fits_or_overflows r : in_width r → fits r ∨ overflows r.
Proof. unfold in_width, fits, overflows. intros (? & ? & ? & ?). destruct (Z.lt_ge_cases (meta_payload_address r + payload_disk_bytes (meta_payload_len r)) (2 ^ 64)); [left|by right]. by split_and!. Qed.

Definition record_range (r : EntryMetadata) : Range :=
  mkRange (meta_payload_address r) (meta_payload_address r + payload_disk_bytes (meta_payload_len r)).

Lemma fits_range r : fits r → payload_range r = Done (record_range r) ∧ range_start (record_range r) < range_end (record_range r).
Proof.
  intros (_ & Hl & Ha & _ & Hend). unfold is_u64 in *. pose proof (payload_disk_bytes_spec _ (proj1 Hl)) as (_ & _ & ?).
  unfold payload_range, record_range. cbn [range_start range_end]. rewrite (proj2 (Z.ltb_lt _ _)) by done. split; [done|lia].
Qed.

(** The shard after a record is accepted. *)
Definition accept (sh : DiskCacheShard) (al : DiskChunkAllocator) (loc : EntryMetadataLocation) (r : EntryMetadata) : DiskCacheShard :=
  let pushed := index_push (entries_by_key (entry_index sh)) (eviction_candidates (entry_index sh))
                  (meta_key r) (new_DiskEntry r loc) in
  mkDiskCacheShard al
    (mkDiskEntryIndex pushed.1 pushed.2 (next_sample_start (entry_index sh))
       (entries_gauge (entry_index sh)) (payload_bytes_gauge (entry_index sh))) (metadata_pages sh).

Lemma shadow_set_slot todo loc sh o :
  loc ∉ todo →
  shadow todo (mkDiskCacheShard (allocator sh) (entry_index sh) (with_chunks (set_slot (chunks (metadata_pages sh)) loc o) (metadata_pages sh)))
  = mkDiskCacheShard (allocator sh) (entry_index sh)
      (reset_free_slots (with_chunks (set_slot (masked todo (chunks (metadata_pages sh))) loc o) (metadata_pages sh))).
Proof. intros Hin. unfold shadow. cbn. by rewrite masked_set_slot. Qed.

Lemma accept_ok todo loc sh counts r al :
  shard_ok lo hi (shadow (loc :: todo) sh) [] idle counts → loc ∉ todo →
  slot_at (chunks (metadata_pages sh)) loc = Some (Some r) → fits r →
  entries_by_key (entry_index sh) !! meta_key r = None →
  hold_chunks_for_recovered_payload (allocator sh) (record_range r) = Some al →
  shard_ok lo hi (shadow todo (accept sh al loc r)) [] idle (counts.1 + 1, counts.2 + meta_payload_len r).
Proof.
  intros Hok Hin Hslot Hfits Hnone Hhold. destruct (fits_range r Hfits) as [_ Hlt].
  destruct Hfits as (Hk & Hl & Ha & Hc & Hend).
  destruct (hold_recovered_shard_ok _ _ (record_range r) _ Hok (proj1 Ha) Hlt Hend Hhold) as (r0 & n & Hr0 & Hr0end & Hlo & Hok').
  set (k := meta_payload_address r / CHUNK_BYTES) in *. change (range_start (record_range r) / CHUNK_BYTES) with k in *.
  set (cs := masked todo (chunks (metadata_pages sh))) in *.
  assert (Hcs : slot_at cs loc = Some (Some r)) by (unfold cs; by rewrite slot_at_masked).
  assert (Hset : set_slot (set_slot cs loc None) loc (Some r) = cs) by (rewrite set_slot_twice; by apply set_slot_same).
  assert (Hrec : record_ok r).
  { destruct (so_bounds _ _ _ _ _ _ Hok) as (_ & _ & ? & _). split_and!; try done.
    apply Z.nle_gt. intros Hle. assert (k ≤ 0) by (apply Z.div_le_upper_bound; [done|unfold CHUNK_BYTES; lia]). lia. }
  assert (Hmeta : meta_ok (reset_free_slots (with_chunks cs (metadata_pages sh)))).
  { apply reset_meta_ok. rewrite <-Hset. apply set_slot_chain_ok; [done|].
    destruct (meta_ok_chain _ (so_meta _ _ _ _ _ _ Hok)). by constructor. }
  eapply shard_ok_pending; last first.
  - eapply (index_record_ok _ _ _ _ _ _ k r0 n r loc (reset_free_slots (with_chunks cs (metadata_pages sh))) _ Hok' Hr0); try done.
    + by rewrite decide_True.
    + cbn. by rewrite (slot_at_set_slot _ _ _ _ Hcs), decide_True.
  - intros k'. unfold less_one, idle. case_decide; subst; rewrite ?decide_True by done; done.
Qed.

Definition same_gauges (sh sh' : DiskCacheShard) : Prop :=
  entries_gauge (entry_index sh') = entries_gauge (entry_index sh)
  ∧ payload_bytes_gauge (entry_index sh') = payload_bytes_gauge (entry_index sh).

(** The chunks of a shard are few enough for their indices. *)
Lemma recovered_index todo loc sh counts o :
  shard_ok lo hi (shadow todo sh) [] idle counts → slot_at (chunks (metadata_pages sh)) loc = Some o → (Z.of_nat (loc_chunk loc) <? 2 ^ 32) = true.
Proof.
  intros Hok (c & Hc%lookup_lt_Some & _)%slot_at_Some. pose proof (shard_chunks_bound _ _ _ _ _ _ Hok) as Hlen. unfold shadow in Hlen.
  cbn [metadata_pages reset_free_slots with_chunks chunks] in Hlen. rewrite length_masked in Hlen. apply Z.ltb_lt. lia.
Qed.

(** Examining one slot: an accepted record is indexed, any other slot is empty afterwards. *)
Lemma recover_slot_ok num_shards shard_index todo loc sh counts o :
  shard_ok lo hi (shadow (loc :: todo) sh) [] idle counts → loc ∉ todo →
  slot_at (chunks (metadata_pages sh)) loc = Some o → (∀ r, o = Some r → fits r) →
  ∃ sh' counts' o', recover_slot num_shards shard_index sh counts loc = Done (sh', counts')
    ∧ shard_ok lo hi (shadow todo sh') [] idle counts'
    ∧ metadata_pages sh' = with_chunks (set_slot (chunks (metadata_pages sh)) loc o') (metadata_pages sh)
    ∧ same_gauges sh sh'
    ∧ (o' = o ∧ (∀ r, o = Some r → shard_index_for_key num_shards (meta_key r) = shard_index) ∨ o' = None).
Proof.
  intros Hok Hin Hslot Hfits. unfold recover_slot. rewrite Hslot. cbn [unwrap mbind outcome_bind].
  assert (Hsame : with_chunks (set_slot (chunks (metadata_pages sh)) loc o) (metadata_pages sh) = metadata_pages sh).
  { rewrite set_slot_same by done. by destruct (metadata_pages sh). }
  assert (Hreject : shard_ok lo hi (shadow todo (mkDiskCacheShard (allocator sh) (entry_index sh)
            (with_chunks (set_slot (chunks (metadata_pages sh)) loc None) (metadata_pages sh)))) [] idle counts).
  { rewrite shadow_set_slot by done. exact Hok. }
  destruct o as [r|].
  - rewrite (proj1 (fits_range r (Hfits r eq_refl))). cbn [mbind outcome_bind].
    destruct (bool_decide_reflect (shard_index_for_key num_shards (meta_key r) ≠ shard_index)) as [_|Hidx];
      [by eexists _, _, None; unfold same_gauges; eauto 10|].
    destruct (entries_by_key (entry_index sh) !! meta_key r) as [e|] eqn:Hkey; cbn;
      [by eexists _, _, None; unfold same_gauges; eauto 10|].
    destruct (hold_chunks_for_recovered_payload (allocator sh) (record_range r)) as [al|] eqn:Hhold;
      [|by eexists _, _, None; unfold same_gauges; eauto 10].
    rewrite (recovered_index _ _ _ _ _ Hok Hslot). cbn [assert_that mbind outcome_bind].
    rewrite insert_entry_absent by done. cbn. eexists (accept sh al loc r), _, (Some r). split; [done|].
    split_and!; [by apply accept_ok; auto|by rewrite Hsame|done|]. left. split; [done|].
    intros ? [= <-]. by apply dec_stable.
  - eexists sh, _, None. split; [done|]. split; [|by rewrite Hsame; unfold same_gauges; eauto 10].
    unfold shadow in *. cbn in Hok. rewrite set_slot_same in Hok; [done|]. by rewrite slot_at_masked.
Qed.

Lemma recover_slot_overflow num_shards shard_index loc sh counts r :
  slot_at (chunks (metadata_pages sh)) loc = Some (Some r) → overflows r → recover_slot num_shards shard_index sh counts loc = Panic.
Proof. intros Hslot Ho. unfold recover_slot. rewrite Hslot. cbn [unwrap mbind outcome_bind]. unfold payload_range. by rewrite (proj2 (Z.ltb_ge _ _) Ho). Qed.

(** ** All slots *)
Lemma recover_slots_ok num_shards shard_index todo : ∀ sh counts,
  shard_ok lo hi (shadow todo sh) [] idle counts → NoDup todo →
  Forall (λ loc, ∃ o, slot_at (chunks (metadata_pages sh)) loc = Some o ∧ ∀ r, o = Some r → in_width r) todo →
  (∃ sh' counts', recover_slots num_shards shard_index sh counts todo = Done (sh', counts')
    ∧ shard_ok lo hi (shadow [] sh') [] idle counts'
    ∧ same_gauges sh sh'
    ∧ (∀ loc r, slot_at (chunks (metadata_pages sh')) loc = Some (Some r) →
         slot_at (chunks (metadata_pages sh)) loc = Some (Some r)
         ∧ (loc ∈ todo → shard_index_for_key num_shards (meta_key r) = shard_index)))
  ∨ recover_slots num_shards shard_index sh counts todo = Panic
    ∧ ∃ loc r, slot_at (chunks (metadata_pages sh)) loc = Some (Some r) ∧ overflows r.
Proof.
  induction todo as [|loc todo IH]; intros sh counts Hok Hnd Htodo.
  { left. exists sh, counts. split_and!; try done. intros loc r Hl. split; [done|]. by intros ?%elem_of_nil. }
  apply NoDup_cons in Hnd as [Hin Hnd]. apply Forall_cons in Htodo as [(o & Ho & Hwidth) Htodo]. cbn [recover_slots].
  assert (Hcases : (∀ r, o = Some r → fits r) ∨ ∃ r, o = Some r ∧ overflows r).
  { destruct o as [r|]; [|by left]. destruct (fits_or_overflows r (Hwidth r eq_refl)); [left; by intros ? [= <-]|right; eauto]. }
  destruct Hcases as [Hfits|(r & -> & Hover)].
  2:{ right. rewrite (recover_slot_overflow _ _ _ _ _ r Ho Hover). eauto. }
  destruct (recover_slot_ok num_shards shard_index _ _ _ _ _ Hok Hin Ho Hfits) as (sh1 & counts1 & o' & Hstep & Hok1 & Hm1 & [Hg1 Hg2] & Ho').
  assert (Hslots : ∀ l, slot_at (chunks (metadata_pages sh1)) l
            = if decide (l = loc) then Some o' else slot_at (chunks (metadata_pages sh)) l).
  { intros l. rewrite Hm1. cbn. by apply slot_at_set_slot with o. }
  assert (Hback : ∀ l r, slot_at (chunks (metadata_pages sh1)) l = Some (Some r) → slot_at (chunks (metadata_pages sh)) l = Some (Some r)).
  { intros l r. rewrite Hslots. destruct (decide (l = loc)) as [->|Hne]; [|done]. intros [= ->]. by destruct Ho' as [[<- _]|?]. }
  rewrite Hstep. cbn [mbind outcome_bind].
  destruct (IH sh1 counts1 Hok1 Hnd) as [(sh2 & counts2 & Hrun & Hok2 & [Hg3 Hg4] & Hrec)|(Hrun & l & r & Hl & Hover)].
  { rewrite Forall_forall in *. intros l Hl. destruct (Htodo l Hl) as (ol & Hol & ?). exists ol.
    rewrite Hslots, decide_False; [done|]. by intros ->. }
  - left. exists sh2, counts2. split_and!; try done; [split; congruence|].
    intros l r Hl. destruct (Hrec l r Hl) as [Hl1 Hidx]. split; [by apply Hback|]. rewrite Hslots in Hl1. destruct (decide (l = loc)) as [->|Hne].
    + injection Hl1 as ->. destruct Ho' as [[<- Hi]|?]; [|done]. eauto.
    + intros [?|?]%elem_of_cons; [done|by apply Hidx].
  - right. split; [done|]. exists l, r. split; [by apply Hback|done].
Qed.
End slots.

(** ** What a chunk decodes to *)
Section decoding.
Context `{Hasher}.

Lemma from_le_slice a b bs n :
  (b - a ≤ n)%nat → 0 ≤ from_le_bytes (slice a b bs) < 2 ^ (8 * Z.of_nat n).
Proof.
  intros Hn. pose proof (from_le_bytes_range (slice a b bs)) as [Hlo Hhi]. split; [done|].
  eapply Z.lt_le_trans; [done|]. apply Z.pow_le_mono_r; [done|]. unfold slice. rewrite length_take. lia.
Qed.

Lemma read_u64_range bs off : is_u64 (read_u64 bs off).
Proof. apply (from_le_slice off (off + 8) bs 8). lia. Qed.

Lemma decode_entry_width bs r : decode_entry_metadata bs = Some r → in_width r.
Proof.
  unfold decode_entry_metadata. case_bool_decide; [done|]. intros [= <-]. unfold in_width. cbn.
  split_and!; try apply read_u64_range. apply (from_le_slice 0 16 bs 16). lia.
Qed.

Lemma length_page_records page : length (page_records page) = Z.to_nat ENTRIES_PER_METADATA_PAGE.
Proof. unfold page_records. destruct (validate_page _ _); [apply length_as_chunks|apply length_replicate]. Qed.

Lemma decode_chunk_shape bytes :
  length (decode_chunk bytes).1 = Z.to_nat ENTRIES_PER_METADATA_CHUNK
  ∧ (∀ r, Some r ∈ (decode_chunk bytes).1 → in_width r)
  ∧ ∀ a, (decode_chunk bytes).2 = Some a → is_u64 a.
Proof.
  unfold decode_chunk. cbn [fst snd]. split_and!.
  - rewrite length_fmap, flat_map_concat_map, (length_concat_const (Z.to_nat ENTRIES_PER_METADATA_PAGE)).
    + by rewrite length_map, length_as_chunks.
    + apply Forall_fmap, Forall_forall. intros page _. apply length_page_records.
  - intros r (bs & Hbs & _)%list_elem_of_fmap. by eapply decode_entry_width.
  - intros a Ha. destruct (validate_page _ NEXT_CHUNK_PAGE_TAG); cbn in Ha; [injection Ha as <-|done]. apply read_u64_range.
Qed.
End decoding.

(** ** Following the chain *)

(** Each chunk links to the next one, and the last to the chunk at [a]. *)
Fixpoint links_to (cs : list MetadataChunk) (a : Z) : Prop :=
  match cs with
  | [] => True
  | c :: cs' =>
      next_chunk_address c = match cs' with
                             | [] => a
                             | c' :: _ => range_start (disk_byte_range (reserved_chunk c'))
                             end ∧ links_to cs' a
  end.

Lemma links_to_linked cs : links_to cs NO_CHUNK ↔ linked cs.
Proof. induction cs as [|c [|c' cs] IH]; cbn in *; [done|tauto|]. rewrite IH. done. Qed.

Lemma links_to_snoc cs c' :
  links_to cs (range_start (disk_byte_range (reserved_chunk c'))) → links_to (cs ++ [c']) (next_chunk_address c').
Proof.
  induction cs as [|c [|c1 cs] IH]; [by intros _|intros [Hn _]; by split|]. intros [Hn Hl].
  split; [exact Hn|]. by apply IH.
Qed.

Lemma links_to_set_last cs a b : links_to cs a → links_to (alter (set_next b) (pred (length cs)) cs) b.
Proof.
  induction cs as [|c [|c1 cs] IH]; [by intros _|intros [Hn _]; by split|]. intros [Hn Hl].
  specialize (IH Hl). split; [|exact IH]. cbn. rewrite Hn. by destruct cs.
Qed.

Lemma elem_of_all_locations n loc :
  loc ∈ all_locations n ↔ (loc_chunk loc < n)%nat ∧ (loc_entry loc < Z.to_nat ENTRIES_PER_METADATA_CHUNK)%nat.
Proof.
  unfold all_locations. rewrite list_elem_of_bind. split.
  - intros (ci & (ei & -> & Hei)%list_elem_of_fmap & Hci). rewrite elem_of_seq in *. cbn. lia.
  - intros [Hc He]. exists (loc_chunk loc). rewrite elem_of_seq. split; [|lia].
    apply list_elem_of_fmap. exists (loc_entry loc). rewrite elem_of_seq. split; [by destruct loc|lia].
Qed.

Lemma all_locations_NoDup n : NoDup (all_locations n).
Proof.
  unfold all_locations. apply NoDup_bind.
  - intros c1 c2 loc _ _ (e1 & -> & _)%list_elem_of_fmap (e2 & Heq & _)%list_elem_of_fmap. congruence.
  - intros ci _. apply NoDup_fmap_2_strong; [|apply NoDup_seq]. intros e1 e2 _ _ Heq. congruence.
  - apply NoDup_seq.
Qed.

Section loading.
Context `{Hasher} `{StorageFileOk F}.
Context (lo hi : Z).

(** The chunk image recovery builds from the bytes of chunk [k]. *)
Definition chunk_at (d : disk) (k : Z) : list (option EntryMetadata) * option Z :=
  decode_chunk (disk_read d (k * CHUNK_BYTES) (Z.to_nat CHUNK_BYTES)).
Record loaded (d : disk) (c : MetadataChunk) : Prop := mkLoaded {
  ld_single : chunk_numbers (reserved_chunk c) =
    mkRange (range_start (chunk_numbers (reserved_chunk c))) (range_start (chunk_numbers (reserved_chunk c)) + 1);
  ld_inside : lo ≤ range_start (chunk_numbers (reserved_chunk c)) < hi;
  ld_entries : chunk_entries c = (chunk_at d (range_start (chunk_numbers (reserved_chunk c)))).1;
  ld_next : next_chunk_address c = default NO_CHUNK (chunk_at d (range_start (chunk_numbers (reserved_chunk c)))).2;
  ld_written : needs_full_write c = false
}.

(** The allocator while the chain is followed. *)
Record loading (d : disk) (al al' : DiskChunkAllocator) (cs : list MetadataChunk) : Prop := mkLoading {
  lg_inv : alloc_inv lo hi al' (reserved_chunk <$> cs);
  lg_held : payload_chunks al' = payload_chunks al;
  lg_chunks : Forall (loaded d) cs
}.

Lemma reserve_metadata_chunk al owners address al' r :
  alloc_inv lo hi al owners → is_multiple_of address CHUNK_BYTES = true →
  reserve_chunks_at al (address / CHUNK_BYTES) 1 = Some (al', r) →
  let k := address / CHUNK_BYTES in
  address = k * CHUNK_BYTES ∧ r = mkReservedChunks (mkRange k (k + 1)) false ∧ lo ≤ k < hi ∧ 0 ≤ k
  ∧ alloc_inv lo hi al' (r :: owners) ∧ payload_chunks al' = payload_chunks al
  ∧ 0 ≤ free_chunks (chunk_metrics (free al'))
  ∧ free_chunks (chunk_metrics (free al')) = free_chunks (chunk_metrics (free al)) - 1.
Proof.
  intros Hinv Hmul Hres k. assert (Hinv' := reserve_chunks_at_inv _ _ _ _ _ _ _ _ Hres Hinv).
  destruct (reserve_chunks_at_free _ _ _ _ _ Hres) as [Hfree _].
  destruct (reserve_chunks_at_range _ _ _ _ _ Hres) as [-> Hp].
  destruct (owner_range _ _ _ _ _ (proj1 Hinv')) as (Hlo & Hhi & _). cbn in Hlo, Hhi. fold k in Hlo, Hhi.
  destruct (ao_bounds _ _ _ _ (proj1 Hinv)) as [? _].
  pose proof (runs_sum_bound lo hi _ ltac:(lia) (ao_runs _ _ _ _ (proj1 Hinv'))) as Hsum.
  rewrite <-(go_free _ _ (proj2 Hinv')) in Hsum.
  apply (is_multiple_of_spec address CHUNK_BYTES ltac:(done)) in Hmul. pose proof (Z.div_mod address CHUNK_BYTES ltac:(done)) as Hdm. rewrite Hmul in Hdm.
  split_and!; try done; try lia; fold k; lia.
Qed.

(** The loop ends within the fuel, whatever the disk holds. *)
Lemma load_chain_spec fuel : ∀ f al0 al address cs,
  loading (contents f) al0 al cs → links_to cs address →
  free_chunks (chunk_metrics (free al)) < Z.of_nat fuel →
  ∃ f' al' cs' address', load_chain fuel f al address cs = Done (f', al', cs', address')
    ∧ capacity f' = capacity f ∧ contents f' = contents f ∧ loading (contents f) al0 al' cs'
    ∧ ∃ a, links_to cs' a ∧ (address' = NO_CHUNK → a = NO_CHUNK).
Proof.
  induction fuel as [|fuel IH]; intros f al0 al address cs Hl Hlink Hfuel; cbn [load_chain].
  all: destruct (bool_decide (address ≠ NO_CHUNK) && is_multiple_of address CHUNK_BYTES) eqn:Hgo.
  all: try (eexists f, al, cs, address; split_and!; try done; exists address; done).
  { destruct Hl as [Hinv _ _]. destruct (ao_bounds _ _ _ _ (proj1 Hinv)) as [? _].
    pose proof (runs_sum_bound lo hi _ ltac:(lia) (ao_runs _ _ _ _ (proj1 Hinv))) as Hsum.
    rewrite <-(go_free _ _ (proj2 Hinv)) in Hsum. lia. }
  apply andb_true_iff in Hgo as [Haddr%bool_decide_eq_true Hmul].
  destruct (reserve_chunks_at al (address / CHUNK_BYTES) 1) as [[al1 r]|] eqn:Hres;
    [|eexists f, al, cs, address; split_and!; try done; by exists address].
  destruct Hl as [Hinv Hheld Hcs].
  destruct (reserve_metadata_chunk _ _ _ _ _ Hinv Hmul Hres) as (Hk & Hr & Hin & Hk0 & Hinv1 & Hp1 & Hf0 & Hf1).
  set (k := address / CHUNK_BYTES) in *.
  destruct (read_at_ok f address (Z.to_nat CHUNK_BYTES)) as (f1 & rd & Hread & Hcap & Hcont & Hok & _);
    [unfold CHUNK_BYTES in *; lia|].
  rewrite Hread. cbn [mbind outcome_bind].
  assert (Hstop : loading (contents f) al0 (drop_reserved al1 r) cs).
  { split; [by apply drop_reserved_inv|exact (eq_trans Hp1 Hheld)|done]. }
  destruct rd as [bytes|e]; [|eexists _, _, _, _; split_and!; try done; by exists address].
  destruct (forallb is_zero bytes); [eexists _, _, _, _; split_and!; try done; by exists address|].
  destruct (Hok _ eq_refl) as [_ Hbytes].
  destruct (mark_recovered al1 r) as [al2 r2] eqn:Hmark.
  assert (Hinv2 : alloc_inv lo hi al2 (r2 :: (reserved_chunk <$> cs))) by (eapply mark_recovered_inv; [|done|done]; by rewrite Hr).
  injection Hmark as Hal2 Hr2.
  destruct (decode_chunk bytes) as [entries next] eqn:Hdec.
  set (c' := mkMetadataChunk r2 entries (default NO_CHUNK next) false).
  assert (Hat : chunk_at (contents f) k = (entries, next)) by (unfold chunk_at; rewrite <-Hk, <-Hbytes; done).
  assert (Hl' : loading (contents f) al0 al2 (cs ++ [c'])).
  { split.
    - rewrite fmap_app. cbn. by rewrite <-Permutation_cons_append.
    - rewrite <-Hal2. exact (eq_trans Hp1 Hheld).
    - apply Forall_app. split; [done|]. constructor; [|done]. subst r2 r. constructor; unfold c'; cbn [reserved_chunk chunk_numbers range_start chunk_entries next_chunk_address needs_full_write];
      [reflexivity|exact Hin|by rewrite Hat|by rewrite Hat|reflexivity]. }
  assert (Hlink' : links_to (cs ++ [c']) (default NO_CHUNK next)).
  { apply (links_to_snoc cs c'). subst r2 r. unfold c', disk_byte_range. cbn [reserved_chunk chunk_numbers range_start].
    by rewrite <-Hk. }
  destruct next as [next|].
  - destruct (IH f1 al0 al2 next (cs ++ [c'])) as (f' & al' & cs' & address' & Hrun & Hcap' & Hcont' & Hl2 & Ha).
    + by rewrite Hcont.
    + done.
    + rewrite <-Hal2. cbn. lia.
    + exists f', al', cs', address'. rewrite Hcap', Hcont', Hcap, Hcont in *. split_and!; try done.
  - exists f1, al2, (cs ++ [c']), address. split_and!; [by rewrite <-Hal2|exact Hcap|exact Hcont|exact Hl'|].
    exists NO_CHUNK. split; [exact Hlink'|done].
Qed.

(** The chain that was loaded, with its last link cleared where needed. *)
Record chain_loaded (d : disk) (al : DiskChunkAllocator) (m : MetadataChunks) : Prop := mkChainLoaded {
  cl_inv : alloc_inv lo hi al (reserved_chunk <$> chunks m);
  cl_single : Forall (λ c, chunk_count (reserved_chunk c) = 1) (chunks m);
  cl_entries : Forall (λ c, ∃ k, lo ≤ k < hi ∧ chunk_entries c = (chunk_at d k).1 ∧ is_u64 (next_chunk_address c)) (chunks m);
  cl_dirty : Forall (page_in (chunks m)) (dirty_pages m);
  cl_sorted : StronglySorted (λ a b, page_cmp a b = Lt) (dirty_pages m);
  cl_linked : linked (chunks m)
}.

Lemma chunk_at_shape d k :
  length (chunk_at d k).1 = Z.to_nat ENTRIES_PER_METADATA_CHUNK
  ∧ (∀ r, Some r ∈ (chunk_at d k).1 → in_width r) ∧ ∀ a, (chunk_at d k).2 = Some a → is_u64 a.
Proof. unfold chunk_at. apply decode_chunk_shape. Qed.

Lemma loaded_slot d al m loc o :
  chain_loaded d al m → slot_at (chunks m) loc = Some o →
  loc ∈ all_locations (length (chunks m)) ∧ ∃ k, lo ≤ k < hi ∧ o ∈ (chunk_at d k).1.
Proof.
  intros Hl (c & Hc & Ho)%slot_at_Some. assert (He := cl_entries _ _ _ Hl). rewrite Forall_lookup in He.
  destruct (He _ _ Hc) as (k & Hk & Hes & _). rewrite Hes in Ho. split.
  - apply elem_of_all_locations. apply lookup_lt_Some in Hc, Ho. rewrite (proj1 (chunk_at_shape _ _)) in Ho. done.
  - exists k. split; [done|]. by eapply list_elem_of_lookup_2.
Qed.

Lemma loaded_entries d c :
  loaded d c → chunk_count (reserved_chunk c) = 1
  ∧ ∃ k, lo ≤ k < hi ∧ chunk_entries c = (chunk_at d k).1 ∧ is_u64 (next_chunk_address c).
Proof.
  intros [Hs Hin He Hn _]. split; [unfold chunk_count; rewrite Hs; cbn; lia|]. eexists. split; [exact Hin|]. split; [exact He|].
  rewrite Hn. destruct (chunk_at_shape d (range_start (chunk_numbers (reserved_chunk c)))) as (_ & _ & Ha).
  destruct (chunk_at d (range_start (chunk_numbers (reserved_chunk c)))) as [es [a|]]; cbn [snd default]; [by apply Ha|done].
Qed.

Lemma load_metadata_chain_spec f al address :
  alloc_inv lo hi al [] → hi - lo < 2 ^ 32 →
  ∃ f' al' m, load_metadata_chain f al address = Done (f', al', m)
    ∧ capacity f' = capacity f ∧ contents f' = contents f ∧ payload_chunks al' = payload_chunks al
    ∧ chain_loaded (contents f) al' m.
Proof.
  intros Hinv Hsmall. unfold load_metadata_chain.
  pose proof (ao_bounds _ _ _ _ (proj1 Hinv)) as [Hb _].
  pose proof (runs_sum_bound lo hi _ ltac:(lia) (ao_runs _ _ _ _ (proj1 Hinv))) as Hsum.
  rewrite <-(go_free _ _ (proj2 Hinv)) in Hsum.
  destruct (load_chain_spec (S (Z.to_nat (chunk_capacity al))) f al al address [])
    as (f' & al' & cs & address' & Hrun & Hcap & Hcont & [Hinv' Hheld Hcs] & a & Hlink & Ha);
    [by constructor|done|rewrite (ao_capacity _ _ _ _ (proj1 Hinv)); lia|].
  rewrite Hrun. cbn [mbind outcome_bind].
  assert (Hent : Forall (λ c, ∃ k, lo ≤ k < hi ∧ chunk_entries c = (chunk_at (contents f) k).1 ∧ is_u64 (next_chunk_address c)) cs)
    by (eapply Forall_impl; [exact Hcs|]; intros c Hc; apply (loaded_entries _ _ Hc)).
  assert (Hsing : Forall (λ c, chunk_count (reserved_chunk c) = 1) cs)
    by (eapply Forall_impl; [exact Hcs|]; intros c Hc; apply (loaded_entries _ _ Hc)).
  destruct (owners_distinct _ _ _ _ (proj1 Hinv')) as [_ Hlen]. rewrite length_fmap in Hlen.
  case_bool_decide as Haddr; last first.
  { exists f', al'. eexists. split; [reflexivity|]. split_and!; try done. constructor; try done; [constructor|].
    apply links_to_linked. destruct (decide (address' = NO_CHUNK)) as [Hno|Hno]; [|done]. rewrite <-(Ha Hno). exact Hlink. }
  unfold set_last_chunk_link. cbn [chunks dirty_pages free_slot_search_start free_slot_count].
  destruct cs as [|c0 cs0] eqn:Hnil; [exists f', al'; eexists; split; [reflexivity|]; split_and!; try done; constructor; (done || constructor)|].
  rewrite <-Hnil in *. assert (Hpos : (0 < length cs)%nat) by (rewrite Hnil; cbn; lia). clear Hnil.
  unfold mark_link_page_dirty. rewrite (proj2 (Z.ltb_lt _ _)) by lia. cbn [assert_that mbind outcome_bind].
  exists f', al'. eexists. split; [reflexivity|]. split_and!; try done.
  constructor; cbn [chunks dirty_pages].
  - by rewrite fmap_alter_id.
  - apply Forall_alter; [done|]. by intros.
  - apply Forall_alter; [done|]. intros c _ (k & Hk & He & _). exists k. split; [exact Hk|]. split; [exact He|].
    unfold is_u64, set_next, NO_CHUNK, u64_max. cbn [next_chunk_address]. lia.
  - apply Forall_singleton. split; cbn [page_chunk page_index]; [rewrite length_alter; lia|reflexivity].
  - repeat constructor.
  - apply links_to_linked. by eapply links_to_set_last.
Qed.

Lemma masked_lengths todo cs : (λ c, length (chunk_entries c)) <$> masked todo cs = (λ c, length (chunk_entries c)) <$> cs.
Proof.
  induction todo as [|l todo IH]; [done|]. cbn [masked]. rewrite <-IH. apply fmap_alter_id.
  intros c. cbn. apply length_insert.
Qed.

(** Before any slot is examined, every slot is masked. *)
Lemma masked_all_ok d al m :
  chain_loaded d al m →
  let cs := masked (all_locations (length (chunks m))) (chunks m) in
  chain_ok (with_chunks cs m) ∧ (∀ loc r, slot_at cs loc ≠ Some (Some r)) ∧ reserved_chunk <$> cs = reserved_chunk <$> chunks m.
Proof.
  intros Hl cs. set (todo := all_locations _) in cs.
  assert (Hnone : ∀ loc r, slot_at cs loc ≠ Some (Some r)).
  { intros loc r [Hin Hs]%masked_Some. by destruct (loaded_slot _ _ _ _ _ Hl Hs). }
  assert (Hres := masked_reserved todo (chunks m)). fold cs in Hres.
  assert (Hres1 : reserved_chunk <$> cs = reserved_chunk <$> chunks m).
  { apply (f_equal (fmap fst)) in Hres. by rewrite <-!list_fmap_compose in Hres. }
  assert (Hlen : length cs = length (chunks m)) by apply length_masked.
  split; [|done]. destruct Hl as [Hinv Hsing Hent Hdirty Hsort Hlink]. constructor; cbn [with_chunks chunks dirty_pages]; try done.
  - apply Forall_lookup. intros i c Hc.
    destruct (lookup_lt_is_Some_2 (chunks m) i) as [c0 Hc0]; [rewrite <-Hlen; by eapply lookup_lt_Some|].
    rewrite Forall_lookup in Hent. destruct (Hent _ _ Hc0) as (k & _ & He & Hn).
    assert (Hl := f_equal (lookup i) (masked_lengths todo (chunks m))). fold cs in Hl.
    rewrite !list_lookup_fmap, Hc, Hc0 in Hl. injection Hl as Hl.
    assert (Hnx := f_equal (lookup i) Hres). rewrite !list_lookup_fmap, Hc, Hc0 in Hnx. injection Hnx as _ Hnx.
    split_and!.
    + rewrite Hl, He, (proj1 (chunk_at_shape _ _)). reflexivity.
    + apply Forall_lookup. intros j [r|] Hj; [|exact I]. exfalso. apply (Hnone (mkLocation i j) r).
      apply slot_at_Some. by exists c.
    + by rewrite Hnx.
  - apply (reserved_fmap_Forall (λ r, chunk_count r = 1) (chunks m)); [|done]. by symmetry.
  - eapply Forall_impl; [done|]. intros p. apply page_in_length. lia.
  - eapply linked_fmap; [symmetry; exact Hres|done].
Qed.

(** Records on the disk are ones a writer may have produced: their padded
    payloads end inside the address space. *)
Definition writer_records (d : disk) : Prop :=
  ∀ k r, lo ≤ k < hi → Some r ∈ (chunk_at d k).1 →
    meta_payload_address r + payload_disk_bytes (meta_payload_len r) < 2 ^ 64.

(** The shard between loading the chain and examining its slots. *)
Lemma initial_shadow_ok d al m :
  chain_loaded d al m → payload_chunks al = ∅ → 0 < lo → hi * CHUNK_BYTES ≤ 2 ^ 63 → hi - lo < 2 ^ 32 →
  shard_ok lo hi (shadow (all_locations (length (chunks m))) (mkDiskCacheShard al new_index m)) [] idle (0, 0).
Proof.
  intros Hl Hheld Hlo Hhi Hsmall. destruct (masked_all_ok _ _ _ Hl) as (Hchain & Hnone & Hres).
  constructor; unfold shadow; cbn [allocator metadata_pages entry_index new_index entries_by_key]; try done.
  - rewrite app_nil_r. unfold reset_free_slots, with_chunks. cbn [chunks]. rewrite Hres. exact (cl_inv _ _ _ Hl).
  - by apply reset_meta_ok.
  - intros loc r Hs. by apply Hnone in Hs.
  - intros k r n. by rewrite Hheld.
Qed.

(** The gauges are raised once, at the end, by the number of recovered entries. *)
Definition recovered_shard (sh : DiskCacheShard) (counts : Z * Z) : DiskCacheShard :=
  let sh := if counts.1 =? 0 then sh else add_gauges counts.1 counts.2 sh in
  mkDiskCacheShard (allocator sh) (entry_index sh) (reset_free_slots (metadata_pages sh)).

Lemma recovered_shard_ok sh counts :
  shard_ok lo hi (shadow [] sh) [] idle counts →
  entries_gauge (entry_index sh) = 0 → payload_bytes_gauge (entry_index sh) = 0 →
  shard_ok lo hi (recovered_shard sh counts) [] idle (0, 0)
  ∧ entries_by_key (entry_index (recovered_shard sh counts)) = entries_by_key (entry_index sh)
  ∧ chunks (metadata_pages (recovered_shard sh counts)) = chunks (metadata_pages sh).
Proof.
  destruct counts as [a b]. intros Hok Hg1 Hg2. unfold recovered_shard. cbn [fst snd].
  destruct (Z.eqb_spec a 0) as [Ha|Ha]; split_and!; try done.
  - destruct (so_gauges _ _ _ _ _ _ Hok) as [Hs Hb]. cbn [shadow entry_index fst snd] in Hs, Hb. rewrite Hg1 in Hs. rewrite Hg2 in Hb.
    assert (Hz : size (entries_by_key (entry_index sh)) = 0%nat) by lia.
    apply map_size_empty_inv in Hz. rewrite Hz in Hb. unfold payload_bytes in Hb. rewrite msum_empty in Hb.
    assert (b = 0) as -> by lia. by rewrite Ha in Hok.
  - exact (add_gauges_ok lo hi _ _ _ _ _ Hok).
Qed.

(** Recovery of any disk contents: a consistent shard, or an overflow in a record
    that is on the disk. *)
Lemma recover_shard_total f num_shards shard_index start :
  0 < lo → lo < hi → hi * CHUNK_BYTES ≤ 2 ^ 63 → hi - lo < 2 ^ 32 →
  (∃ f' sh', recover_shard f (new_shard lo hi) num_shards shard_index start = Done (f', sh')
    ∧ capacity f' = capacity f ∧ contents f' = contents f
    ∧ shard_ok lo hi sh' [] idle (0, 0)
    ∧ ∀ key e, entries_by_key (entry_index sh') !! key = Some e →
        shard_index_for_key num_shards key = shard_index
        ∧ ∃ k, lo ≤ k < hi ∧ Some (entry_record key e) ∈ (chunk_at (contents f) k).1)
  ∨ recover_shard f (new_shard lo hi) num_shards shard_index start = Panic ∧ ¬ writer_records (contents f).
Proof.
  intros Hlo Hlt Hhi Hsmall. assert (Hnew := new_shard_ok lo hi Hlo Hlt Hhi Hsmall).
  unfold recover_shard.
  destruct (load_metadata_chain_spec f (allocator (new_shard lo hi)) start) as (f' & al & m & Hload & Hcap & Hcont & Hheld & Hl);
    [exact (so_alloc _ _ _ _ _ _ Hnew)|done|].
  rewrite Hload. cbn [mbind outcome_bind]. change (entry_index (new_shard lo hi)) with new_index.
  destruct (recover_slots_ok lo hi num_shards shard_index (all_locations (length (chunks m))) (mkDiskCacheShard al new_index m) (0, 0))
    as [(sh1 & [a b] & Hrun & Hok1 & [Hg1 Hg2] & Hslots1)|(Hrun & loc & r & Hs & Hover)].
  - by eapply initial_shadow_ok.
  - apply all_locations_NoDup.
  - apply Forall_forall. intros loc Hin. apply elem_of_all_locations in Hin as [Hc He].
    destruct (lookup_lt_is_Some_2 (chunks m) (loc_chunk loc) Hc) as [c Hlc].
    assert (Hent := cl_entries _ _ _ Hl). rewrite Forall_lookup in Hent. destruct (Hent _ _ Hlc) as (k & Hk & Hes & _).
    destruct (lookup_lt_is_Some_2 (chunk_entries c) (loc_entry loc)) as [o Ho].
    { rewrite Hes. by rewrite (proj1 (chunk_at_shape _ _)). }
    exists o. split; [apply slot_at_Some; by exists c|]. intros r ->. rewrite Hes in Ho. apply list_elem_of_lookup_2 in Ho.
    exact (proj1 (proj2 (chunk_at_shape _ _)) _ Ho).
  - left. rewrite Hrun. cbn [mbind outcome_bind].
    destruct (recovered_shard_ok sh1 (a, b) Hok1 Hg1 Hg2) as (Hok' & Hents & _).
    exists f', (recovered_shard sh1 (a, b)). split_and!; try done.
    intros key e Hkey. rewrite Hents in Hkey.
    assert (Hs := so_slots _ _ _ _ _ _ Hok1 _ _ Hkey). destruct (Hslots1 _ _ Hs) as [Hs0 Hidx].
    destruct (loaded_slot _ _ _ _ _ Hl Hs0) as [Hin (k & Hk & He)].
    split; [exact (Hidx Hin)|by exists k].
  - right. rewrite Hrun. split; [done|]. intros Hrec. destruct (loaded_slot _ _ _ _ _ Hl Hs) as [_ (k & Hk & He)].
    specialize (Hrec k r Hk He). unfold overflows in Hover. lia.
Qed.
End loading.

(** ** Shards divide the file *)

(** The boundaries of consecutive shards are monotone, from the end of the
    header chunk to the last whole chunk. *)
Lemma boundary_step n k i : 0 ≤ n → 0 < k → n * i / k ≤ n * (i + 1) / k.
Proof. intros. apply Z.div_le_mono; nia. Qed.

Lemma boundary_find n k c : 0 < k → 0 ≤ c < n → ∃ i, 0 ≤ i < k ∧ n * i / k ≤ c < n * (i + 1) / k.
Proof.
  intros Hk Hc.
  assert (Hind : ∀ j : nat, Z.of_nat j ≤ k → c < n * Z.of_nat j / k → ∃ i, 0 ≤ i < k ∧ n * i / k ≤ c < n * (i + 1) / k).
  { induction j as [|j IH]; intros Hj Hlt.
    - rewrite Z.mul_0_r, Z.div_0_l in Hlt by lia. lia.
    - destruct (decide (n * Z.of_nat j / k ≤ c)) as [Hle|Hgt]; [|apply IH; lia].
      exists (Z.of_nat j). split; [lia|]. replace (Z.of_nat j + 1) with (Z.of_nat (S j)) by lia. done. }
  apply (Hind (Z.to_nat k)); rewrite Z2Nat.id by lia; [lia|]. rewrite Z.div_mul by lia. lia.
Qed.

Lemma boundary_mono n k i j : 0 ≤ n → 0 < k → i ≤ j → n * i / k ≤ n * j / k.
Proof. intros. apply Z.div_le_mono; [done|]. nia. Qed.

(** The shards' byte ranges divide the file: together they are exactly the
    whole chunks after the header chunk, no two of them overlap, and each starts
    and ends on a chunk boundary. *)
Lemma shards_partition_file capacity num_shards :
  CHUNK_BYTES ≤ capacity → 0 < num_shards →
  (∀ i, 0 ≤ i < num_shards → let r := shard_disk_range capacity num_shards i in
     range_start r mod CHUNK_BYTES = 0 ∧ range_end r mod CHUNK_BYTES = 0
     ∧ CHUNK_BYTES ≤ range_start r ≤ range_end r ∧ range_end r ≤ capacity) ∧
  (∀ i j, 0 ≤ i < j → range_end (shard_disk_range capacity num_shards i) ≤ range_start (shard_disk_range capacity num_shards j)) ∧
  (∀ a, CHUNK_BYTES ≤ a < capacity / CHUNK_BYTES * CHUNK_BYTES →
     ∃ i, 0 ≤ i < num_shards ∧ range_start (shard_disk_range capacity num_shards i) ≤ a
          < range_end (shard_disk_range capacity num_shards i)).
Proof.
  intros Hcap Hn. unfold shard_disk_range. set (n := capacity / CHUNK_BYTES - 1).
  assert (Hn0 : 0 ≤ n).
  { unfold n. assert (1 ≤ capacity / CHUNK_BYTES); [|lia]. apply Z.div_le_lower_bound; unfold CHUNK_BYTES in *; lia. }
  assert (Hfloor := Z.mul_div_le capacity CHUNK_BYTES ltac:(done)).
  assert (Hpos : ∀ i, 0 ≤ i → 0 ≤ n * i / num_shards) by (intros; apply Z.div_pos; nia).
  split_and!; cbn [range_start range_end].
  - intros i Hi. rewrite !Z.mod_mul by done. pose proof (Hpos i ltac:(lia)). pose proof (boundary_step n num_shards i Hn0 Hn).
    assert (n * (i + 1) / num_shards ≤ n).
    { pose proof (boundary_mono n num_shards (i + 1) num_shards Hn0 Hn ltac:(lia)). rewrite Z.div_mul in * by lia. done. }
    unfold CHUNK_BYTES in *. split_and!; try done; nia.
  - intros i j Hij. pose proof (boundary_mono n num_shards (i + 1) j Hn0 Hn ltac:(lia)). unfold CHUNK_BYTES. nia.
  - intros a Ha. destruct (boundary_find n num_shards (a / CHUNK_BYTES - 1)) as (i & Hi & Hlo & Hhi); [done| |].
    { split.
      - assert (1 ≤ a / CHUNK_BYTES); [|lia]. apply Z.div_le_lower_bound; unfold CHUNK_BYTES in *; lia.
      - unfold n. assert (a / CHUNK_BYTES < capacity / CHUNK_BYTES); [|lia].
        apply Z.div_lt_upper_bound; [done|]. lia. }
    exists i. split; [done|]. pose proof (Z.mul_div_le a CHUNK_BYTES ltac:(done)).
    pose proof (Z.mul_succ_div_gt a CHUNK_BYTES ltac:(done)). unfold CHUNK_BYTES in *. nia.
Qed.

(** C10: recovery always ends, whatever the file holds (damaged pages, cyclic or
    escaping links, overlapping payloads, failing reads), and leaves a consistent
    shard: no chunk has two owners, every indexed entry has exactly one metadata slot
    and held payload chunks, the gauges are exact, and every recovered entry is one
    whose record is on disk and belongs to the shard.  The one exception is an
    arithmetic overflow, and it needs a validated page with a record whose padded
    payload ends beyond the 64-bit address space, which the writer never records.  The
    shard has fewer than 2^32 chunks, so that chunk indices fit their type. *)
Theorem recover_shard_safe `{Hasher} `{StorageFileOk F} (f : F) lo hi num_shards shard_index start :
  0 < lo → lo < hi → hi * CHUNK_BYTES ≤ 2 ^ 63 → hi - lo < 2 ^ 32 →
  (∃ f' sh', recover_shard f (new_shard lo hi) num_shards shard_index start = Done (f', sh')
    ∧ contents f' = contents f
    ∧ shard_ok lo hi sh' [] idle (0, 0)
    ∧ ∀ key e, entries_by_key (entry_index sh') !! key = Some e →
        shard_index_for_key num_shards key = shard_index
        ∧ ∃ k, lo ≤ k < hi ∧ Some (entry_record key e) ∈ (chunk_at (contents f) k).1)
  ∨ recover_shard f (new_shard lo hi) num_shards shard_index start = Panic ∧ ¬ writer_records lo hi (contents f).
Proof.
  intros. destruct (recover_shard_total lo hi f num_shards shard_index start) as [(f' & sh' & ? & _ & ? & ?)|?]; eauto 10.
Qed.

(** A file that was never written. *)
Lemma validate_zero_page `{Hasher} page tag b :
  b ∈ tag → b ≠ Byte.x00 → Forall (λ b, b = Byte.x00) page → validate_page page tag = None.
Proof.
  intros Hin Hb Hz. unfold validate_page. rewrite (bool_decide_eq_true_2 (slice 24 32 page ≠ tag)); [done|].
  intros <-. apply Hb. unfold slice in Hin. rewrite Forall_forall in Hz. apply Hz.
  apply list_elem_of_lookup in Hin as (i & [Hi _]%lookup_take_Some). rewrite lookup_drop in Hi. by eapply list_elem_of_lookup_2.
Qed.

Lemma as_chunks_Forall {A} (P : A → Prop) n c (l : list A) : Forall P l → Forall (Forall P) (as_chunks n c l).
Proof. revert l. induction c as [|c IH]; intros l Hl; cbn; constructor; [by apply Forall_take|by apply IH, Forall_drop]. Qed.

Lemma zero_chunk_at `{Hasher} k r : Some r ∉ (chunk_at (λ _, Byte.x00) k).1.
Proof.
  unfold chunk_at, decode_chunk. cbn [fst]. set (bytes := disk_read _ _ _).
  assert (Hz : Forall (λ b, b = Byte.x00) bytes).
  { apply Forall_fmap, Forall_forall. done. }
  set (pages := as_chunks _ _ _). assert (Hp : Forall (Forall (λ b, b = Byte.x00)) pages) by (by apply as_chunks_Forall, Forall_take).
  intros (bs & Hdec & Hin)%list_elem_of_fmap. apply list_elem_of_In, in_flat_map in Hin as (page & Hpage & Hbs).
  apply list_elem_of_In in Hpage, Hbs. rewrite Forall_forall in Hp. unfold page_records in Hbs.
  rewrite (validate_zero_page page _ Byte.x46) in Hbs; [|by left|done|by apply Hp].
  apply elem_of_replicate in Hbs as [-> _]. unfold decode_entry_metadata in Hdec. by rewrite bool_decide_eq_true_2 in Hdec.
Qed.

Lemma recover_shard_safe_witness :
  let _ := sum_hasher in
  ∃ f' sh', recover_shard (sample_file [true]) (new_shard 1 9) 4 2 CHUNK_BYTES = Done (f', sh') ∧ shard_ok 1 9 sh' [] idle (0, 0).
Proof.
  intros hash. destruct (recover_shard_safe (sample_file [true]) 1 9 4 2 CHUNK_BYTES) as [(f' & sh' & Hrun & _ & Hok & _)|[_ Hbad]];
    [lia|lia|by vm_compute|lia|exists f', sh'; split; [exact Hrun|exact Hok]|].
  exfalso. apply Hbad. intros k r _ Hr. by apply zero_chunk_at in Hr.
Defined.
