(* ===== verification/Reopen.v ===== *)
(** * Reopening a shard whose metadata was written

    The metadata writer ([MetadataWriter]) and recovery ([Recovery]) are two
    sides of one format.  When every page of a shard's chain is on disk, opening
    the shard again finds the same chain and accepts every record, so that the
    entries, their payload addresses and their checksums are what they were. *)

From S2P Require Import Prelude Codec Errors Disk BTree Allocation PageFormat Metadata MetadataWriter Float64.
From S2P Require Import Retention EntryIndex Shard Writer Recovery.

(** Files whose reads inside the capacity succeed, and stay so. *)
Definition reliable `{StorageFile F} (R : F → Prop) : Prop :=
  ∀ f offset n, R f → 0 ≤ offset → offset + Z.of_nat n ≤ capacity f →
    ∃ f', read_at f offset n = Done (f', Ok (disk_read (contents f) offset n)) ∧ R f'
      ∧ capacity f' = capacity f ∧ contents f' = contents f.

(** The image of a chunk in a reopened shard. *)
Definition reload (c : MetadataChunk) : MetadataChunk :=
  mkMetadataChunk (mkReservedChunks (chunk_numbers (reserved_chunk c)) true) (chunk_entries c) (next_chunk_address c) false.
Definition first_chunk (c : MetadataChunk) : Z := range_start (chunk_numbers (reserved_chunk c)).

Section chunk_bytes.
Context `{Hasher}.

Lemma stored_pages d c n :
  (∀ p, (p < n)%nat → on_disk d c p) →
  disk_read d (page_address c 0) (n * 4096) = concat (chunk_page c <$> seq 0 n).
Proof.
  induction n as [|n IH]; intros Hp; [done|].
  replace (S n * 4096)%nat with (n * 4096 + 4096)%nat by lia.
  rewrite disk_read_app, IH by auto. rewrite seq_S, fmap_app, concat_app. f_equal.
  change (concat (chunk_page c <$> [(0 + n)%nat])) with (chunk_page c n ++ []). rewrite app_nil_r, <-(Hp n) by lia.
  replace (page_address c 0 + Z.of_nat (n * 4096)) with (page_address c n) by (rewrite !page_address_lower; lia). reflexivity.
Qed.

Lemma stored_chunk d c :
  chunk_ok c → (∀ p, (p ≤ last_page)%nat → on_disk d c p) →
  disk_read d (first_chunk c * CHUNK_BYTES) (Z.to_nat CHUNK_BYTES) = concat (chunk_page c <$> seq 0 256).
Proof.
  intros _ Hp. rewrite <-(stored_pages d c 256).
  - unfold first_chunk, page_address, disk_byte_range. cbn [range_start]. rewrite Z.add_0_r.
    assert (Hn : Z.to_nat CHUNK_BYTES = (256 * 4096)%nat).
    { unfold CHUNK_BYTES. apply Nat2Z.inj. rewrite Nat2Z.inj_mul, Z2Nat.id by lia. reflexivity. }
    by rewrite Hn.
  - intros p Hlt. apply Hp. unfold last_page. change (Z.to_nat ENTRY_METADATA_PAGES_PER_CHUNK) with 255%nat. lia.
Qed.

Lemma stored_chunk_nonzero c : forallb is_zero (concat (chunk_page c <$> seq 0 256)) = false.
Proof.
  apply not_true_is_false. intros Hall. rewrite forallb_forall in Hall.
  specialize (Hall Byte.x46). assert (Hin : Byte.x46 ∈ concat (chunk_page c <$> seq 0 256)).
  { apply list_elem_of_In, in_concat. exists (chunk_page c 0). rewrite <-!list_elem_of_In. split.
    - apply list_elem_of_fmap. exists 0%nat. split; [done|]. apply elem_of_seq. lia.
    - unfold chunk_page. rewrite decide_False by done. unfold sealed, page_body, ENTRY_METADATA_PAGE_TAG.
      rewrite !elem_of_app. right. right. right. left. by left. }
  apply list_elem_of_In in Hin. specialize (Hall Hin). unfold is_zero in Hall. by rewrite bool_decide_eq_false_2 in Hall.
Qed.
End chunk_bytes.

(** ** The chain is found again *)
Section reload_chain.
Context `{Hasher} `{StorageFileOk F}.
Context (lo hi : Z) (R : F → Prop).
Hypothesis Hrel : reliable R.

(** A chunk whose pages are all on disk. *)
Definition stored (d : disk) (c : MetadataChunk) : Prop :=
  chunk_ok c ∧ chunk_count (reserved_chunk c) = 1 ∧ lo ≤ first_chunk c < hi ∧ ∀ p, (p ≤ last_page)%nat → on_disk d c p.

Lemma reserve_unowned al owners k :
  alloc_ok lo hi al owners → payload_chunks al = ∅ → lo ≤ k < hi →
  (∀ r, r ∈ owners → in_range k (chunk_numbers r) = false) →
  ∃ al' r, reserve_chunks_at al k 1 = Some (al', r).
Proof.
  intros Hok Hheld Hk Hno. pose proof (reserve_chunk_numbers_spec lo hi (free al) k (k + 1) (ao_runs _ _ _ _ Hok)) as Hspec.
  destruct (ao_bounds _ _ _ _ Hok) as [Hb Hb'].
  unfold reserve_chunks_at, checked_add. rewrite (proj2 (Z.ltb_lt _ _)) by lia.
  destruct (reserve_chunk_numbers _ _) as [[f r]|]; [eauto|]. destruct Hspec. split; [lia|]. intros c Hc.
  assert (c = k) as -> by lia. pose proof (ao_partition _ _ _ _ Hok k) as Hpart.
  rewrite (proj2 (in_range_true k (mkRange lo hi))) in Hpart by (cbn; lia).
  unfold held_cover in Hpart. rewrite Hheld, msum_empty in Hpart.
  assert (Hz : cover k owners = 0).
  { unfold cover. clear -Hno. induction owners as [|r owners IH]; [done|]. rewrite zsum_cons, Hno by (by left).
    rewrite IH; [done|]. intros r' Hr'. apply Hno. by right. }
  rewrite Hz in Hpart. by destruct (free_b _ k).
Qed.

Lemma load_chain_stored rest : ∀ fuel f al pre,
  R f → hi * CHUNK_BYTES ≤ capacity f → hi * CHUNK_BYTES ≤ 2 ^ 63 →
  alloc_inv lo hi al (reserved_chunk <$> (reload <$> pre)) → payload_chunks al = ∅ →
  Forall (stored (contents f)) rest → NoDup (first_chunk <$> pre ++ rest) →
  Forall (λ c, chunk_count (reserved_chunk c) = 1) pre → linked rest →
  free_chunks (chunk_metrics (free al)) < Z.of_nat fuel →
  ∃ f' al', load_chain fuel f al (match rest with [] => NO_CHUNK | c :: _ => first_chunk c * CHUNK_BYTES end) (reload <$> pre)
      = Done (f', al', reload <$> (pre ++ rest), NO_CHUNK)
    ∧ R f' ∧ capacity f' = capacity f ∧ contents f' = contents f
    ∧ payload_chunks al' = ∅ ∧ alloc_inv lo hi al' (reserved_chunk <$> (reload <$> (pre ++ rest))).
Proof.
  induction rest as [|c rest IH]; intros fuel f al pre HR Hcap Hhi Hinv Hheld Hst Hnd Hone Hlink Hfuel.
  { exists f, al. rewrite app_nil_r. destruct fuel; cbn [load_chain]; rewrite bool_decide_eq_false_2 by (by intros ?); by split_and!. }
  apply Forall_cons in Hst as [(Hok & Hcc & Hin & Hpages) Hst].
  destruct (reserve_unowned al _ (first_chunk c) (proj1 Hinv) Hheld Hin) as (al1 & r & Hres).
  { intros r (c0 & -> & (c1 & -> & Hc1)%list_elem_of_fmap)%list_elem_of_fmap. apply in_range_false. cbn.
    rewrite Forall_forall in Hone. specialize (Hone c1 Hc1). unfold chunk_count in Hone.
    intros Heq. rewrite fmap_app in Hnd. cbn in Hnd. apply NoDup_app in Hnd as (_ & Hnd & _).
    apply (Hnd (first_chunk c1)); [apply list_elem_of_fmap; eauto|]. apply elem_of_cons. left. unfold first_chunk in *. lia. }
  set (k := first_chunk c) in *. set (address := k * CHUNK_BYTES).
  assert (Hdiv : address / CHUNK_BYTES = k) by (by apply Z.div_mul).
  assert (Hmul : is_multiple_of address CHUNK_BYTES = true) by (apply is_multiple_of_spec; [done|]; by apply Z.mod_mul).
  destruct (ao_bounds _ _ _ _ (proj1 Hinv)) as [Hlo _].
  assert (Hno : address ≠ NO_CHUNK) by (unfold address, NO_CHUNK, u64_max, CHUNK_BYTES in *; lia).
  rewrite <-Hdiv in Hres.
  destruct (reserve_metadata_chunk _ _ _ _ _ _ _ Hinv Hmul Hres) as (_ & Hr & _ & _ & Hinv1 & Hp1 & Hf0 & Hf1).
  destruct fuel as [|fuel]; [lia|]. cbn [load_chain].
  rewrite bool_decide_eq_true_2, Hmul, Hres by done. cbn [andb].
  destruct (Hrel f address (Z.to_nat CHUNK_BYTES) HR) as (f1 & Hread & HR1 & Hcap1 & Hcont1);
    [unfold address, CHUNK_BYTES in *; lia|rewrite Z2Nat.id by done; unfold address, CHUNK_BYTES in *; lia|].
  rewrite Hread. cbn [mbind outcome_bind].
  assert (Hbytes := stored_chunk (contents f) c Hok Hpages). fold k in Hbytes. fold address in Hbytes.
  rewrite Hbytes, stored_chunk_nonzero, decode_chunk_pages by done.
  destruct (mark_recovered al1 r) as [al2 r2] eqn:Hmark.
  assert (Hinv2 : alloc_inv lo hi al2 (r2 :: (reserved_chunk <$> (reload <$> pre)))).
  { eapply mark_recovered_inv; [|done|done]. by rewrite Hr. }
  injection Hmark as Hal2 Hr2. cbn [default from_option id].
  assert (Hc : mkMetadataChunk r2 (chunk_entries c) (next_chunk_address c) false = reload c).
  { unfold reload. f_equal. rewrite <-Hr2, Hr, Hdiv. cbn [chunk_numbers]. f_equal. unfold k, first_chunk, chunk_count in *.
    destruct (chunk_numbers (reserved_chunk c)) as [a b]. cbn in *. f_equal. lia. }
  rewrite Hc. replace ((reload <$> pre) ++ [reload c]) with (reload <$> pre ++ [c]) by (by rewrite fmap_app).
  destruct Hlink as [Hnext Hlink].
  assert (Haddr : next_chunk_address c = match rest with [] => NO_CHUNK | c :: _ => first_chunk c * CHUNK_BYTES end)
    by (rewrite Hnext; by destruct rest).
  rewrite Haddr. destruct (IH fuel f1 al2 (pre ++ [c])) as (f' & al' & Hrun & HR' & Hcap' & Hcont' & Hheld' & Hinv'); try done.
  - by rewrite Hcap1.
  - rewrite !fmap_app. cbn [fmap list_fmap]. rewrite <-Hc. cbn [reserved_chunk]. by rewrite <-Permutation_cons_append.
  - rewrite <-Hal2. cbn. by rewrite Hp1.
  - by rewrite Hcont1.
  - by rewrite <-app_assoc.
  - apply Forall_app. by split; [|constructor].
  - rewrite <-Hal2. cbn. lia.
  - exists f', al'. rewrite <-!app_assoc in *. rewrite Hcap', Hcont', Hcap1, Hcont1 in *. by split_and!.
Qed.
End reload_chain.

(** ** Every payload is claimed again *)
Section claims.
Context (lo hi : Z).

(** The holds of [al] are contained in those of [al0]. *)
Definition holds_within (al0 al : DiskChunkAllocator) : Prop :=
  ∀ k r n, payload_chunks al !! k = Some (r, n) →
    ∃ r0 n0, payload_chunks al0 !! k = Some (r0, n0) ∧ range_end (chunk_numbers r) ≤ range_end (chunk_numbers r0).

Lemma held_cover_zero c al :
  (∀ k r n, payload_chunks al !! k = Some (r, n) → in_range c (chunk_numbers r) = false) → held_cover c al = 0.
Proof.
  unfold held_cover. generalize (payload_chunks al). intros m. induction m as [|k [r n] m Hnone IH] using map_ind; intros Hno.
  - apply msum_empty.
  - rewrite msum_insert by done. cbn [fst]. rewrite (Hno k r n) by apply lookup_insert_eq. rewrite IH; [done|].
    intros k' r' n' Hk. apply (Hno k' r' n'). rewrite lookup_insert_ne; [done|]. by intros ->; rewrite Hnone in Hk.
Qed.

Lemma held_cover_zero_inv c al k r n :
  held_cover c al = 0 → payload_chunks al !! k = Some (r, n) → in_range c (chunk_numbers r) = false.
Proof.
  intros Hz Hk. pose proof (msum_elem_le (λ _ h, Z.b2z (in_range c (chunk_numbers h.1))) (payload_chunks al) _ _
    ltac:(intros k' h _; destruct (b2z_cases (in_range c (chunk_numbers h.1))); lia) Hk) as Hle.
  unfold held_cover in Hz. rewrite Hz in Hle. cbn in Hle. by destruct (in_range _ _).
Qed.

(** A payload's chunks stay free until a payload of the same hold claims them. *)
Lemma unclaimed_free al0 al owners0 owners k r0 n0 c :
  alloc_ok lo hi al0 owners0 → alloc_ok lo hi al owners → (∀ c, cover c owners = cover c owners0) →
  holds_within al0 al → payload_chunks al0 !! k = Some (r0, n0) → payload_chunks al !! k = None →
  in_range c (chunk_numbers r0) = true → free_b (chunk_count_by_start (free al)) c = true.
Proof.
  intros Hok0 Hok Hcov Hin Hk0 Hk Hc. assert (Hok1 := take_held_ok _ _ _ _ _ _ _ Hk0 Hok0).
  destruct (owner_range _ _ _ _ _ Hok1) as (Hlo & Hhi & Hrange). destruct (Hrange c Hc) as (_ & Hc0 & Hh0).
  pose proof (ao_partition _ _ _ _ Hok c) as Hpart. rewrite Hcov, Hc0 in Hpart. apply in_range_true in Hc.
  rewrite (proj2 (in_range_true c (mkRange lo hi))) in Hpart by (cbn; lia).
  rewrite held_cover_zero in Hpart; [by destruct (free_b _ c)|].
  intros k' r' n' Hk'. destruct (Hin _ _ _ Hk') as (r1 & n1 & Hk1 & Hend).
  assert (Hne : k' ≠ k) by congruence.
  assert (Hd : payload_chunks (with_payload_chunks (delete k (payload_chunks al0)) al0) !! k' = Some (r1, n1))
    by (cbn; by rewrite lookup_delete_ne).
  apply (held_cover_zero_inv _ _ _ _ _ Hh0) in Hd. rewrite in_range_false in *.
  destruct (ao_held _ _ _ _ Hok _ _ _ Hk') as (Hs' & _). destruct (ao_held _ _ _ _ Hok0 _ _ _ Hk1) as (Hs1 & _). lia.
Qed.

(** Claiming a payload inside a hold of [al0] succeeds when the hold is still
    unclaimed, or claimed up to the payload's end. *)
Lemma claim_accepted al0 al owners0 owners range r0 n0 :
  alloc_ok lo hi al0 owners0 → alloc_ok lo hi al owners → (∀ c, cover c owners = cover c owners0) → holds_within al0 al →
  0 ≤ range_start range → range_start range < range_end range → range_end range < 2 ^ 64 →
  payload_chunks al0 !! (range_start range / CHUNK_BYTES) = Some (r0, n0) → range_end range ≤ range_end (disk_byte_range r0) →
  (∀ r n, payload_chunks al !! (range_start range / CHUNK_BYTES) = Some (r, n) → range_end range ≤ range_end (disk_byte_range r)) →
  ∃ al', hold_chunks_for_recovered_payload al range = Some al' ∧ holds_within al0 al'.
Proof.
  intros Hok0 Hok Hcov Hin H0 Hlt H64 Hk0 Hend Hcur. set (k := range_start range / CHUNK_BYTES) in *.
  assert (Hsome : ∃ al', hold_chunks_for_recovered_payload al range = Some al'
            ∧ ∃ r n, payload_chunks al' = <[k := (r, n)]> (payload_chunks al) ∧ range_end (chunk_numbers r) ≤ range_end (chunk_numbers r0)).
  { unfold hold_chunks_for_recovered_payload. fold k. destruct (payload_chunks al !! k) as [[r n]|] eqn:Hk.
    - rewrite (proj2 (Z.leb_le _ _)) by eauto. eexists. split; [done|]. exists r, (n + 1). split; [done|].
      destruct (Hin _ _ _ Hk) as (r1 & n1 & Hk1 & ?). congruence.
    - pose proof (div_ceil_mul (range_end range) CHUNK_BYTES ltac:(done)) as Hceil.
      pose proof (Z.mul_div_le (range_start range) CHUNK_BYTES ltac:(done)) as Hfloor. fold k in Hfloor.
      assert (Hlast : div_ceil (range_end range) CHUNK_BYTES ≤ range_end (chunk_numbers r0)).
      { apply div_ceil_le_iff; [done|]. exact Hend. }
      set (last := div_ceil (range_end range) CHUNK_BYTES) in *.
      assert (0 ≤ k) by (apply Z.div_pos; done).
      assert (k < last) by (unfold CHUNK_BYTES in *; nia).
      assert (last < 2 ^ 64) by (unfold CHUNK_BYTES in *; lia).
      assert (Hcount : (last ⊖ k) = last - k) by (apply u64_wrap_small; unfold is_u64; lia).
      rewrite Hcount. unfold reserve_chunks_at, checked_add. rewrite (proj2 (Z.ltb_lt _ _)) by lia.
      replace (k + (last - k)) with last by lia.
      pose proof (reserve_chunk_numbers_spec lo hi (free al) k last (ao_runs _ _ _ _ Hok)) as Hspec.
      destruct (ao_held _ _ _ _ Hok0 _ _ _ Hk0) as (Hs0 & _).
      destruct (reserve_chunk_numbers (free al) (mkRange k last)) as [[f' r]|].
      + destruct Hspec as (_ & _ & _ & _ & _ & _ & ->). eexists. split; [done|]. eexists _, 1. split; [done|exact Hlast].
      + destruct Hspec. split; [done|]. intros c Hc. 
        eapply (unclaimed_free al0 al owners0 owners k r0 n0); [exact Hok0|exact Hok|exact Hcov|exact Hin|exact Hk0|exact Hk|].
        apply in_range_true. lia. }
  destruct Hsome as (al' & Hhold & r & n & Hpc & Hr). exists al'. split; [done|].
  intros k' r' n'. rewrite Hpc. intros [[<- [= <- <-]]|[_ Hk']]%lookup_insert_Some; [by exists r0, n0|by eapply Hin].
Qed.
End claims.

Lemma masked_reserved_chunks todo cs : reserved_chunk <$> masked todo cs = reserved_chunk <$> cs.
Proof.
  assert (Heq := f_equal (fmap fst) (masked_reserved todo cs)). by rewrite <-!list_fmap_compose in Heq.
Qed.

Lemma users_two k m key1 key2 e1 e2 :
  m !! key1 = Some e1 → m !! key2 = Some e2 → key1 ≠ key2 → entry_chunk e1 = k → entry_chunk e2 = k → 2 ≤ users k m.
Proof.
  intros H1 H2 Hne Hc1 Hc2. unfold users. rewrite <-(insert_delete_id m key1 e1 H1), msum_insert by apply lookup_delete_eq.
  rewrite bool_decide_eq_true_2 by done.
  assert (0 < users k (delete key1 m)) by (eapply users_pos; [by rewrite lookup_delete_ne|done]).
  unfold users in *. cbn [Z.b2z]. lia.
Qed.

Lemma users_pos_inv k m : 0 < users k m → ∃ key e, m !! key = Some e ∧ entry_chunk e = k.
Proof.
  induction m as [|key e m Hnone IH] using map_ind; intros Hpos; [unfold users in Hpos; rewrite msum_empty in Hpos; lia|].
  destruct (decide (entry_chunk e = k)) as [Heq|Hne]; [exists key, e; by rewrite lookup_insert_eq|].
  unfold users in Hpos. rewrite msum_insert, bool_decide_eq_false_2 in Hpos by done.
  destruct IH as (key' & e' & Hk & He); [exact Hpos|]. exists key', e'. rewrite lookup_insert_ne; [done|]. congruence.
Qed.

Section reopen_slots.
Context (lo hi : Z) (sh0 : DiskCacheShard) (num_shards shard_index : nat).
Hypothesis Hok0 : shard_ok lo hi sh0 [] idle (0, 0).
(** Payloads that share a hold lie in a single chunk: entries are only packed
    together in the small-entry buffer. *)
Definition packed_in_one_chunk : Prop :=
  ∀ k r n, payload_chunks (allocator sh0) !! k = Some (r, n) → chunk_count r = 1 ∨ n = 1.
Definition keys_of_shard : Prop :=
  ∀ key e, entries_by_key (entry_index sh0) !! key = Some e → shard_index_for_key num_shards key = shard_index.
Hypothesis Hpacked : packed_in_one_chunk.
Hypothesis Hkeys : keys_of_shard.

(** The slots and reserved chunks of a shard being reopened. *)
Record reopening (sh : DiskCacheShard) : Prop := mkReopening {
  ro_slots : ∀ loc, slot_at (chunks (metadata_pages sh)) loc = slot_at (chunks (metadata_pages sh0)) loc;
  ro_cover : ∀ c, cover c (reserved_chunk <$> chunks (metadata_pages sh)) = cover c (reserved_chunk <$> chunks (metadata_pages sh0));
  ro_holds : holds_within (allocator sh0) (allocator sh)
}.

(** The entry a record on disk belongs to. *)
Lemma slot_entry loc r :
  slot_at (chunks (metadata_pages sh0)) loc = Some (Some r) →
  ∃ e r0 n0, entries_by_key (entry_index sh0) !! meta_key r = Some e ∧ entry_metadata e = loc ∧ entry_record (meta_key r) e = r
    ∧ payload_chunks (allocator sh0) !! (meta_payload_address r / CHUNK_BYTES) = Some (r0, n0)
    ∧ range_end (record_range r) ≤ range_end (disk_byte_range r0) ∧ fits r.
Proof using Hok0.
  intros Hs. destruct (so_entries _ _ _ _ _ _ Hok0 _ _ Hs) as (e & Hk & He).
  assert (Hr := so_slots _ _ _ _ _ _ Hok0 _ _ Hk). rewrite He, Hs in Hr. injection Hr as Hr. symmetry in Hr.
  destruct (so_held _ _ _ _ _ _ Hok0 _ _ Hk) as (r0 & n0 & Hr0 & Hend).
  exists e, r0, n0. assert (Ha : meta_payload_address r = payload_address e) by (by rewrite <-Hr).
  assert (Hl : meta_payload_len r = payload_len e) by (by rewrite <-Hr).
  unfold entry_chunk in Hr0. rewrite <-Ha in Hr0. rewrite <-Ha, <-Hl in Hend. split_and!; try done.
  assert (Hrec : record_ok r).
  { assert (Hcs := mo_chunks _ (so_meta _ _ _ _ _ _ Hok0)). apply slot_at_Some in Hs as (c & Hc & Hj).
    rewrite Forall_lookup in Hcs. destruct (Hcs _ _ Hc) as (_ & Hes & _). rewrite Forall_lookup in Hes. exact (Hes _ _ Hj). }
  destruct Hrec as (? & ? & ? & ? & _). split_and!; try done.
  destruct (so_bounds _ _ _ _ _ _ Hok0) as (Hhi & _).
  assert (Hal := proj1 (so_alloc _ _ _ _ _ _ Hok0)). assert (Hal1 := take_held_ok _ _ _ _ _ _ _ Hr0 Hal).
  destruct (owner_range _ _ _ _ _ Hal1) as (_ & Hrhi & _). unfold disk_byte_range in Hend. cbn [range_end] in Hend.
  unfold CHUNK_BYTES in *. lia.
Qed.

Lemma reopen_slot sh counts loc todo r :
  shard_ok lo hi (shadow (loc :: todo) sh) [] idle counts → reopening sh →
  slot_at (chunks (metadata_pages sh)) loc = Some (Some r) →
  shard_index_for_key num_shards (meta_key r) = shard_index
  ∧ entries_by_key (entry_index sh) !! meta_key r = None
  ∧ ∃ al, hold_chunks_for_recovered_payload (allocator sh) (record_range r) = Some al ∧ holds_within (allocator sh0) al.
Proof using Hok0 Hpacked Hkeys.
  intros Hok [Hslots Hcov Hin] Hs. assert (Hs0 := Hs). rewrite Hslots in Hs0.
  destruct (slot_entry _ _ Hs0) as (e & r0 & n0 & Hk & He & Hr & Hr0 & Hend & Hfits).
  assert (Hcur : ∀ key e', entries_by_key (entry_index sh) !! key = Some e' →
            ∃ e1, entries_by_key (entry_index sh0) !! key = Some e1 ∧ entry_record key e1 = entry_record key e' ∧ entry_metadata e1 ≠ loc).
  { intros key e' Hk'. assert (Hm := so_slots _ _ _ _ _ _ Hok _ _ Hk').
    apply (masked_Some (loc :: todo)) in Hm as [Hnot Hm]. rewrite Hslots in Hm.
    destruct (slot_entry _ _ Hm) as (e1 & _ & _ & Hk1 & He1 & Hr1 & _). exists e1. split_and!; [done|done|].
    intros Heq. apply Hnot, elem_of_cons. left. congruence. }
  assert (Hnone : entries_by_key (entry_index sh) !! meta_key r = None).
  { destruct (entries_by_key (entry_index sh) !! meta_key r) as [e'|] eqn:Hk'; [|done].
    destruct (Hcur _ _ Hk') as (e1 & Hk1 & _ & Hne). rewrite Hk in Hk1. congruence. }
  split_and!; [by eapply Hkeys|done|]. destruct (fits_range r Hfits) as [_ Hlt].
  assert (Hal := proj1 (so_alloc _ _ _ _ _ _ Hok)). assert (Hal0 := proj1 (so_alloc _ _ _ _ _ _ Hok0)).
  rewrite app_nil_r in Hal, Hal0.
  eapply (claim_accepted lo hi _ _ _ _ (record_range r) r0 n0 Hal0 Hal); try done.
  - intros c. unfold shadow, reset_free_slots, with_chunks. cbn [metadata_pages chunks]. by rewrite (masked_reserved_chunks (loc :: todo)).
  - destruct Hfits as (_ & _ & [? _] & _). done.
  - apply Hfits.
  - intros r1 n1 Hr1. cbn [range_start record_range] in Hr1. set (k := meta_payload_address r / CHUNK_BYTES) in *.
    destruct (ao_held _ _ _ _ Hal _ _ _ Hr1) as (Hs1 & Hc1 & Hn1). destruct (ao_held _ _ _ _ Hal0 _ _ _ Hr0) as (Hs2 & _).
    destruct (Hpacked _ _ _ Hr0) as [Hone|Hone].
    + unfold disk_byte_range, chunk_count, CHUNK_BYTES in *. cbn [range_end] in *. lia.
    + exfalso. assert (Hu := so_users _ _ _ _ _ _ Hok _ _ _ Hr1). unfold idle in Hu. cbn [shadow entry_index] in Hu.
      destruct (users_pos_inv k (entries_by_key (entry_index sh))) as (key & e' & Hk' & Hc'); [lia|].
      destruct (Hcur _ _ Hk') as (e1 & Hk1 & Hrec & Hne).
      assert (Hu0 := so_users _ _ _ _ _ _ Hok0 _ _ _ Hr0). unfold idle in Hu0.
      assert (2 ≤ users k (entries_by_key (entry_index sh0))); [|lia].
      apply (users_two k _ (meta_key r) key e e1 Hk Hk1).
      * intros Heq. rewrite <-Heq in Hk1. rewrite Hk in Hk1. congruence.
      * unfold k, entry_chunk. by rewrite <-Hr.
      * rewrite <-Hc'. unfold entry_chunk. unfold entry_record in Hrec. by injection Hrec as _ -> _.
Qed.

Lemma reopen_slots todo : ∀ sh counts,
  shard_ok lo hi (shadow todo sh) [] idle counts → reopening sh → NoDup todo →
  Forall (λ loc, is_Some (slot_at (chunks (metadata_pages sh)) loc)) todo →
  ∃ sh' counts', recover_slots num_shards shard_index sh counts todo = Done (sh', counts')
    ∧ shard_ok lo hi (shadow [] sh') [] idle counts' ∧ reopening sh'
    ∧ metadata_pages sh' = metadata_pages sh ∧ same_gauges sh sh'.
Proof using Hok0 Hpacked Hkeys.
  induction todo as [|loc todo IH]; intros sh counts Hok Hro Hnd Htodo; [by exists sh, counts|].
  apply NoDup_cons in Hnd as [Hin Hnd]. apply Forall_cons in Htodo as [[o Ho] Htodo]. cbn [recover_slots].
  unfold recover_slot at 1. rewrite Ho. cbn [unwrap mbind outcome_bind]. destruct o as [r|].
  - destruct (reopen_slot _ _ _ _ _ Hok Hro Ho) as (Hidx & Hnone & al & Hhold & Hwithin).
    assert (Hs0 := Ho). rewrite (ro_slots _ Hro) in Hs0. destruct (slot_entry _ _ Hs0) as (_ & _ & _ & _ & _ & _ & _ & _ & Hfits).
    assert (Hok1 := accept_ok lo hi _ _ _ _ _ _ Hok Hin Ho Hfits Hnone Hhold).
    rewrite (proj1 (fits_range r Hfits)). cbn [mbind outcome_bind]. rewrite (bool_decide_eq_false_2 (_ ≠ _)) by (by intros ?).
    rewrite Hnone, (bool_decide_eq_false_2 (is_Some None)) by (by intros []). rewrite Hhold, (recovered_index _ _ _ _ _ _ _ Hok Ho). cbn [assert_that mbind outcome_bind].
    rewrite insert_entry_absent by done.
    cbn [mbind outcome_bind].
    destruct (IH (accept sh al loc r) (counts.1 + 1, counts.2 + meta_payload_len r) Hok1) as (sh' & counts' & Hrun & Hok' & Hro' & Hm & Hg);
      [destruct Hro; by constructor|done|done|].
    exists sh', counts'. split; [exact Hrun|]. by split_and!.
  - cbn [mbind outcome_bind]. apply IH; try done.
    unfold shadow in *. cbn [masked] in Hok. rewrite set_slot_same in Hok; [done|]. by rewrite slot_at_masked.
Qed.
End reopen_slots.

(** ** Reopening *)
Section reopen.
Context `{Hasher} `{StorageFileOk F}.
Context (lo hi : Z) (R : F → Prop).
Hypothesis Hrel : reliable R.

Lemma reload_slots cs loc : slot_at (reload <$> cs) loc = slot_at cs loc.
Proof. unfold slot_at. rewrite list_lookup_fmap. by destruct (cs !! loc_chunk loc). Qed.

Lemma reload_cover cs c : cover c (reserved_chunk <$> (reload <$> cs)) = cover c (reserved_chunk <$> cs).
Proof. unfold cover. induction cs as [|c0 cs IH]; [done|]. cbn [fmap list_fmap] in *. rewrite !zsum_cons, IH. done. Qed.

Lemma reload_linked cs : linked cs → linked (reload <$> cs).
Proof. induction cs as [|c [|c' cs] IH]; [done|done|]. intros [Hn Hl]. split; [exact Hn|]. by apply IH. Qed.

(** A shard whose chain starts at the shard's first chunk, with every page on disk. *)
Definition written_out (d : disk) (sh : DiskCacheShard) : Prop :=
  (∃ c cs, chunks (metadata_pages sh) = c :: cs ∧ first_chunk c = lo) ∧
  ∀ i c, chunks (metadata_pages sh) !! i = Some c → ∀ p, (p ≤ last_page)%nat → on_disk d c p.

Definition same_index (sh sh' : DiskCacheShard) : Prop :=
  ∀ key, (λ e, (entry_record key e, entry_metadata e)) <$> entries_by_key (entry_index sh') !! key
         = (λ e, (entry_record key e, entry_metadata e)) <$> entries_by_key (entry_index sh) !! key.

Lemma same_slots_same_index sh sh' owners pending lag owners' pending' lag' :
  shard_ok lo hi sh owners pending lag → shard_ok lo hi sh' owners' pending' lag' →
  (∀ loc, slot_at (chunks (metadata_pages sh')) loc = slot_at (chunks (metadata_pages sh)) loc) → same_index sh sh'.
Proof.
  intros Hok Hok' Hslots.
  assert (Hgen : ∀ sh1 sh2 o1 p1 l1 o2 p2 l2, shard_ok lo hi sh1 o1 p1 l1 → shard_ok lo hi sh2 o2 p2 l2 →
    (∀ loc, slot_at (chunks (metadata_pages sh2)) loc = slot_at (chunks (metadata_pages sh1)) loc) →
    ∀ key e, entries_by_key (entry_index sh1) !! key = Some e →
      ∃ e', entries_by_key (entry_index sh2) !! key = Some e' ∧ entry_record key e' = entry_record key e ∧ entry_metadata e' = entry_metadata e).
  { intros sh1 sh2 o1 p1 l1 o2 p2 l2 Hok1 Hok2 Hs key e Hk. assert (Hsl := so_slots _ _ _ _ _ _ Hok1 _ _ Hk).
    rewrite <-Hs in Hsl. destruct (so_entries _ _ _ _ _ _ Hok2 _ _ Hsl) as (e' & Hk' & He'). exists e'.
    split_and!; [done| |done]. assert (Hsl' := so_slots _ _ _ _ _ _ Hok2 _ _ Hk').
    change (meta_key (entry_record key e)) with key in *. rewrite He', Hsl in Hsl'. by apply (inj Some), (inj Some) in Hsl'. }
  intros key. destruct (entries_by_key (entry_index sh) !! key) as [e|] eqn:Hk.
  - destruct (Hgen _ _ _ _ _ _ _ _ Hok Hok' Hslots _ _ Hk) as (e' & -> & Hr & Hm). cbn. by rewrite Hr, Hm.
  - destruct (entries_by_key (entry_index sh') !! key) as [e'|] eqn:Hk'; [|done].
    destruct (Hgen _ _ _ _ _ _ _ _ Hok' Hok (λ loc, eq_sym (Hslots loc)) _ _ Hk') as (e & He & _). congruence.
Qed.

Lemma written_stored d sh lag :
  shard_ok lo hi sh [] idle lag → written_out d sh → Forall (stored lo hi d) (chunks (metadata_pages sh)) ∧ NoDup (first_chunk <$> chunks (metadata_pages sh)).
Proof.
  intros Hok [_ Hdisk]. assert (Hal := proj1 (so_alloc _ _ _ _ _ _ Hok)). rewrite app_nil_r in Hal.
  destruct (owners_distinct _ _ _ _ Hal) as [Hnd _]. split; [|by rewrite <-list_fmap_compose in Hnd].
  apply Forall_lookup. intros i c Hi. destruct (so_meta _ _ _ _ _ _ Hok) as [Hcs Hone _ _ _ _ _ _].
  rewrite Forall_lookup in Hcs, Hone. assert (Hc := Hone _ _ Hi).
  assert (Hp : reserved_chunk <$> chunks (metadata_pages sh) ≡ₚ reserved_chunk c :: (reserved_chunk <$> delete i (chunks (metadata_pages sh)))).
  { rewrite <-fmap_cons. by apply fmap_Permutation, delete_Permutation. }
  rewrite Hp in Hal. destruct (owner_range _ _ _ _ _ Hal) as (Hlo & Hhi & _). unfold chunk_count in Hc.
  split_and!; [by eapply Hcs|by eapply Hone|unfold first_chunk; lia|unfold first_chunk; lia|by eapply Hdisk].
Qed.

Lemma reopen_spec f sh num_shards shard_index :
  shard_ok lo hi sh [] idle (0, 0) → lo < hi → R f → hi * CHUNK_BYTES ≤ capacity f →
  written_out (contents f) sh → packed_in_one_chunk sh → keys_of_shard sh num_shards shard_index →
  ∃ f' sh', recover_shard f (new_shard lo hi) num_shards shard_index (lo * CHUNK_BYTES) = Done (f', sh')
    ∧ (R f' ∧ capacity f' = capacity f ∧ contents f' = contents f) ∧ shard_ok lo hi sh' [] idle (0, 0) ∧ same_index sh sh'
    ∧ chunks (metadata_pages sh') = reload <$> chunks (metadata_pages sh) ∧ dirty_pages (metadata_pages sh') = []
    ∧ holds_within (allocator sh) (allocator sh').
Proof.
  intros Hok Hlt HR Hcap Hw Hpacked Hkeys. destruct (so_bounds _ _ _ _ _ _ Hok) as (Hhi & Hsmall & Hlo & _).
  assert (Hnew := new_shard_ok lo hi Hlo Hlt Hhi Hsmall). assert (Hnal := so_alloc _ _ _ _ _ _ Hnew).
  destruct (written_stored _ _ _ Hok Hw) as [Hst Hnd].
  destruct Hw as [(c0 & cs0 & Hcs & Hfirst) _]. set (cs := chunks (metadata_pages sh)) in *.
  assert (Hmeta := so_meta _ _ _ _ _ _ Hok).
  pose proof (runs_sum_bound lo hi _ ltac:(lia) (ao_runs _ _ _ _ (proj1 Hnal))) as Hsum. rewrite <-(go_free _ _ (proj2 Hnal)) in Hsum.
  destruct (load_chain_stored lo hi R Hrel cs (S (Z.to_nat (chunk_capacity (allocator (new_shard lo hi))))) f (allocator (new_shard lo hi)) [])
    as (f1 & al & Hload & HR1 & Hcap1 & Hcont1 & Hheld & Hinv); try done.
  { exact (mo_linked _ Hmeta). }
  { rewrite (ao_capacity _ _ _ _ (proj1 Hnal)). lia. }
  replace (match cs with [] => NO_CHUNK | c :: _ => first_chunk c * CHUNK_BYTES end) with (lo * CHUNK_BYTES) in Hload
    by (rewrite Hcs, Hfirst; done).
  cbn [app] in Hload, Hinv. unfold recover_shard, load_metadata_chain.
  change (reload <$> []) with ([] : list MetadataChunk) in Hload. rewrite Hload. cbn [mbind outcome_bind].
  rewrite bool_decide_eq_false_2 by (by intros ?). cbn [mbind outcome_bind chunks].
  set (m := mkMetadataChunks (reload <$> cs) [] (mkLocation 0 0) 0).
  assert (Hl : chain_loaded lo hi (contents f) al m).
  { constructor; unfold m; cbn [chunks dirty_pages]; [done| | |constructor|constructor|by apply reload_linked, mo_linked].
    - apply Forall_fmap. eapply Forall_impl; [exact Hst|]. by intros c (_ & ? & _).
    - apply Forall_fmap. eapply Forall_impl; [exact Hst|]. intros c (Hcok & _ & Hin & Hp). exists (first_chunk c).
      split; [done|]. split; [|exact (proj2 (proj2 Hcok))].
      unfold chunk_at. by rewrite (stored_chunk _ _ Hcok Hp), decode_chunk_pages. }
  change (entry_index (new_shard lo hi)) with new_index. change (chunks m) with (reload <$> cs).
  destruct (reopen_slots lo hi sh num_shards shard_index Hok Hpacked Hkeys (all_locations (length (reload <$> cs)))
              (mkDiskCacheShard al new_index m) (0, 0)) as (sh' & counts & Hrun & Hok' & Hro' & Hm & Hg1 & Hg2).
  - by eapply (initial_shadow_ok lo hi _ al m Hl).
  - constructor; cbn [metadata_pages allocator].
    + intros loc. apply reload_slots.
    + intros c. apply reload_cover.
    + intros k r n. by rewrite Hheld.
  - apply all_locations_NoDup.
  - apply Forall_forall. intros loc [Hc He]%elem_of_all_locations. cbn [metadata_pages]. unfold m. cbn [chunks]. rewrite reload_slots.
    rewrite length_fmap in Hc. destruct (lookup_lt_is_Some_2 cs _ Hc) as [c Hi].
    destruct (lookup_lt_is_Some_2 (chunk_entries c) (loc_entry loc)) as [o Ho].
    { rewrite Forall_lookup in Hst. destruct (Hst _ _ Hi) as ((Hlen & _) & _). lia. }
    exists o. apply slot_at_Some. by exists c.
  - rewrite Hrun. destruct counts as [a b]. cbn [mbind outcome_bind].
    destruct (recovered_shard_ok lo hi sh' (a, b) Hok' Hg1 Hg2) as (Hok'' & _ & Hcs').
    exists f1, (recovered_shard sh' (a, b)). split_and!; try done.
    + eapply same_slots_same_index; [exact Hok|exact Hok''|]. intros loc. rewrite Hcs', Hm. unfold m. cbn [chunks metadata_pages]. apply reload_slots.
    + by rewrite Hcs', Hm.
    + unfold recovered_shard. destruct (_ =? 0); cbn; by rewrite Hm.
    + unfold recovered_shard. destruct (_ =? 0); exact (ro_holds _ _ Hro').
Qed.

(** A write round leaves the shard consistent. *)
Lemma round_shard_ok sh m :
  shard_ok lo hi sh [] idle (0, 0) → meta_ok m → same_chunks (chunks (metadata_pages sh)) (chunks m) →
  shard_ok lo hi (mkDiskCacheShard (allocator sh) (entry_index sh) m) [] idle (0, 0).
Proof.
  intros [Hb Hal Hm Hi Hsl He Hu Hh Hg] Hmok Hsame.
  constructor; cbn [allocator entry_index metadata_pages]; try done.
  - assert (Hres := same_chunks_reserved _ _ Hsame). apply (f_equal (fmap fst)) in Hres.
    rewrite <-!list_fmap_compose in Hres. change (reserved_chunk <$> chunks m) with ((fst ∘ (λ c, (reserved_chunk c, next_chunk_address c))) <$> chunks m).
    by rewrite Hres.
  - intros k e Hk. rewrite (same_chunks_slots _ _ _ Hsame). by apply Hsl.
  - intros loc r. rewrite (same_chunks_slots _ _ _ Hsame). apply He.
Qed.

Lemma shard_chunks_ok sh lag : shard_ok lo hi sh [] idle lag →
  chunks_ok (chunks (metadata_pages sh)) ∧ Z.of_nat (length (chunks (metadata_pages sh))) ≤ 2 ^ 32.
Proof.
  intros Hok. assert (Hal := proj1 (so_alloc _ _ _ _ _ _ Hok)). rewrite app_nil_r in Hal.
  destruct (owners_distinct _ _ _ _ Hal) as [Hnd Hlen]. rewrite length_fmap in Hlen.
  destruct (so_bounds _ _ _ _ _ _ Hok) as (_ & Hsmall & _). destruct (so_meta _ _ _ _ _ _ Hok) as [Hcs Hone _ _ _ _ _ _].
  split; [|lia]. split_and!; [done|unfold distinct_chunks; by rewrite <-list_fmap_compose in Hnd|].
  rewrite Forall_forall in *. intros c Hc. split; [by apply Hone|].
  apply list_elem_of_split in Hc as (l1 & l2 & Hc). rewrite Hc, fmap_app in Hal. cbn in Hal. rewrite <-Permutation_middle in Hal.
  destruct (owner_range _ _ _ _ _ Hal) as (? & _). destruct (ao_bounds _ _ _ _ Hal). lia.
Qed.
End reopen.

Lemma ram_reliable : reliable (λ f : RamFile, ram_faults f = []).
Proof.
  intros f offset n Hf Hoff Hn. eexists. split.
  - cbn. unfold ram_check. cbn in Hn. rewrite (proj2 (Z.leb_le _ _)) by done. rewrite Hf. done.
  - cbn. by rewrite Hf.
Qed.
