(* ===== verification/MetadataTick.v ===== *)
(** * The periodic metadata writer ([DiskCacheInner::write_metadata_periodically] of
    [feuer-storage/src/disk_cache/metadata.rs])

    Each tick runs one write round per shard and logs the errors.  A round writes
    only into the shard's metadata chunks, so it disturbs no payload: the cache
    shows the same objects before and after. *)

From S2P Require Import Prelude Codec Errors Disk BTree Allocation PageFormat Metadata MetadataWriter.
From S2P Require Import EntryIndex Shard Writer DiskCache Reopen.

Section tick.
Context `{Hasher} `{StorageFile F}.

(** The round of one shard. *)
Definition write_shard_metadata (d : DiskCacheInner F) (i : nat) : outcome (DiskCacheInner F * DataFileResult ()) :=
  '(sh, b) ← unwrap (shards d !! i);
  '(f, m, r) ← write_dirty_metadata_pages (file d) (metadata_pages sh);
  Done (mkInner f (<[i := (mkDiskCacheShard (allocator sh) (entry_index sh) m, b)]> (shards d)) (counters d) (outcomes d) (allocations d), r).

(** The loop over the shards, and a tick of the timer.  The errors are only
    logged: the log has one result per shard. *)
Fixpoint write_metadata_from (n i : nat) (d : DiskCacheInner F) : outcome (DiskCacheInner F * list (DataFileResult ())) :=
  match n with
  | O => Done (d, [])
  | S n =>
      '(d, r) ← write_shard_metadata d i;
      '(d, log) ← write_metadata_from n (S i) d;
      Done (d, r :: log)
  end.
Definition metadata_tick (d : DiskCacheInner F) : outcome (DiskCacheInner F * list (DataFileResult ())) := write_metadata_from (length (shards d)) 0 d.
End tick.

(** ** Where a round writes *)
Section frame.
Context `{Hasher} `{StorageFileOk F}.

Definition in_metadata (cs : list MetadataChunk) (a : Z) : Prop := ∃ c, c ∈ cs ∧ a / CHUNK_BYTES = range_start (chunk_numbers (reserved_chunk c)).

Lemma write_item_frame f cs item f' r :
  chunks_ok cs → item_ok cs item → write_at f (encode_item cs item).1.2 (encode_item cs item).2 = Done (f', r) →
  ∀ a, contents f' a ≠ contents f a → in_metadata cs a.
Proof.
  intros (Hcs & _ & Hres) Hitem Hrun a Hne. destruct (item_bounds _ _ Hitem) as [Hpos Hfc].
  destruct item as [[j first] count]. cbn in Hpos, Hfc. destruct Hitem as (c & Hj & _). cbn in Hj. unfold encode_item in Hrun. rewrite Hj in Hrun. cbn [fst snd] in Hrun.
  rewrite Forall_lookup in Hcs, Hres. destruct (Hres _ _ Hj) as [_ Hstart].
  set (bytes := concat (chunk_page c <$> seq first count)) in *. assert (Hlen : Z.of_nat (length bytes) = Z.of_nat count * 4096) by (apply length_item_bytes; [by apply (Hcs j)|done]).
  unfold write_at in Hrun. destruct (is_multiple_of (page_address c first) _) eqn:Ha1; [|done]. destruct (is_multiple_of (Z.of_nat (length bytes)) _) eqn:Ha2; [|done].
  cbn [assert_that mbind outcome_bind] in Hrun. apply is_multiple_of_spec in Ha1, Ha2; [|done..].
  destruct (write_padded_ok f (page_address c first) (Z.of_nat (length bytes)) bytes) as (f1 & r1 & Hw & _ & Hout & _); [rewrite page_address_lower; lia|done|done|lia|].
  rewrite Hrun in Hw. injection Hw as <- <-. exists c. split; [by eapply list_elem_of_lookup_2|].
  assert (Hin : page_address c first ≤ a < page_address c first + Z.of_nat count * 4096) by (apply dec_stable; intros Hno; apply Hne, Hout; lia).
  rewrite page_address_lower in Hin. unfold last_page in Hfc. change (Z.to_nat ENTRY_METADATA_PAGES_PER_CHUNK) with 255%nat in Hfc.
  symmetry. apply (Z.div_unique_pos a CHUNK_BYTES _ (a - range_start (chunk_numbers (reserved_chunk c)) * 1048576)); unfold CHUNK_BYTES; lia.
Qed.

Lemma same_chunks_metadata cs cs' a : same_chunks cs cs' → in_metadata cs' a → in_metadata cs a.
Proof.
  intros Hsame (c & [i Hi]%list_elem_of_lookup & Ha).
  assert (Hsym : same_chunks cs' cs) by (unfold same_chunks in *; congruence).
  destruct (same_chunks_lookup _ _ _ _ Hsym Hi) as (c' & Hi' & Heq). exists c'. split; [by eapply list_elem_of_lookup_2|]. rewrite Ha. destruct c, c'. by injection Heq as -> _ _.
Qed.

Lemma perform_writes_frame items : ∀ f m f' m' r,
  chunks_ok (chunks m) → Forall (item_ok (chunks m)) items → perform_writes f m (encode_item (chunks m) <$> items) = Done (f', m', r) →
  ∀ a, contents f' a ≠ contents f a → in_metadata (chunks m) a.
Proof.
  induction items as [|item items IH]; intros f m f' m' r Hcs Hitems; [by intros [= <- _ _]|]. apply Forall_cons in Hitems as [Hitem Hitems]. cbn [fmap list_fmap perform_writes].
  destruct (write_at f _ _) as [[f1 [[]|e]]|] eqn:Hw; cbn [mbind outcome_bind]; [| |done].
  - rewrite mark_chunk_written_eq by done. cbn [mbind outcome_bind]. destruct (written_ok item (chunks m)) as (Hsame & Hok1 & Hitem1 & Henc & _). set (m1 := mkMetadataChunks _ _ _ _).
    rewrite <-(list_fmap_ext (encode_item (chunks m1)) (encode_item (chunks m)) items (λ i x _, Henc x)). intros Hrun a Hne.
    destruct (decide (contents f1 a = contents f a)) as [Heq|]; [|by eapply write_item_frame].
    eapply same_chunks_metadata; [exact Hsame|]. apply (IH f1 m1 f' m' r (Hok1 Hcs)); [eapply Forall_impl; [exact Hitems|auto]|done|by rewrite Heq].
  - intros [= <- _ _]. by eapply write_item_frame.
Qed.

Lemma write_round_frame f m f' m' r :
  meta_ok m → chunks_ok (chunks m) → Z.of_nat (length (chunks m)) ≤ 2 ^ 32 → write_dirty_metadata_pages f m = Done (f', m', r) →
  ∀ a, contents f' a ≠ contents f a → in_metadata (chunks m) a.
Proof.
  intros Hok Hcs Hlen. unfold write_dirty_metadata_pages. destruct (plan_writes_eq m Hok Hlen) as (d & Hmarked & ->). cbn [mbind outcome_bind].
  set (m0 := mkMetadataChunks (chunks m) [] _ _). apply (perform_writes_frame _ f m0); [done|]. apply Forall_forall. intros item. apply item_of_ok. apply Forall_reverse, Hmarked.
Qed.

(** Metadata chunks belong to the shard and hold no payload. *)
Lemma metadata_chunk_free lo hi sh a :
  shard_ok lo hi sh [] idle (0, 0) → in_metadata (chunks (metadata_pages sh)) a → lo ≤ a / CHUNK_BYTES < hi ∧ held_cover (a / CHUNK_BYTES) (allocator sh) = 0.
Proof.
  intros Hok (c & Hc & ->). assert (Hal := proj1 (so_alloc _ _ _ _ _ _ Hok)). rewrite app_nil_r in Hal.
  apply list_elem_of_split in Hc as (l1 & l2 & Hc). rewrite Hc, fmap_app in Hal. cbn in Hal. rewrite <-Permutation_middle in Hal.
  assert (Hpos := Forall_inv (ao_owners _ _ _ _ Hal)). cbn in Hpos. unfold chunk_count in Hpos. destruct (owner_range _ _ _ _ _ Hal) as (Hlo & Hhi & Hin).
  destruct (Hin (range_start (chunk_numbers (reserved_chunk c)))) as (_ & _ & Hz); [apply in_range_true; lia|]. split; [lia|done].
Qed.

Lemma round_payload_kept lo hi (f f' : F) sh key e :
  shard_ok lo hi sh [] idle (0, 0) → (∀ a, contents f' a ≠ contents f a → in_metadata (chunks (metadata_pages sh)) a) →
  entries_by_key (entry_index sh) !! key = Some e → entry_payload (contents f') e = entry_payload (contents f) e.
Proof.
  intros Hok Hframe Hk. assert (Hl := entry_len_nonneg _ _ _ _ _ _ Hok Hk). apply disk_read_ext. intros a Ha. apply dec_stable. intros Hne.
  destruct (metadata_chunk_free _ _ _ _ Hok (Hframe a Hne)) as [_ Hz]. destruct (entry_held _ _ _ _ _ _ a Hok Hk Hl) as [_ ?]; lia.
Qed.
End frame.

(** ** A tick *)
Section ticks.
Context `{HasherOk} `{StorageFileOk F} (bounds : list (Z * Z)).
Implicit Types d : DiskCacheInner F.

(** What a round, and hence a tick, leaves unchanged. *)
Record tick_effect d d' : Prop := mkTickEffect {
  tk_ok : inner_ok bounds d';
  tk_view : ∀ k, view d' k = view d k;
  tk_length : length (shards d') = length (shards d);
  tk_buffers : ∀ i, snd <$> shards d' !! i = snd <$> shards d !! i;
  tk_counters : counters d' = counters d ∧ outcomes d' = outcomes d ∧ allocations d' = allocations d
}.

Lemma tick_effect_trans d1 d2 d3 : tick_effect d1 d2 → tick_effect d2 d3 → tick_effect d1 d3.
Proof. intros [] [? ? ? ? (? & ? & ?)]. constructor; [done|..]; try congruence; split_and!; intuition congruence. Qed.

Lemma write_shard_metadata_ok d i :
  inner_ok bounds d → (i < length (shards d))%nat →
  ∃ d' r, write_shard_metadata d i = Done (d', r) ∧ tick_effect d d' ∧ ∃ sh b, shards d' !! i = Some (sh, b) ∧ dirty_pages (metadata_pages sh) = [].
Proof.
  intros Hok [[sh b] Hi]%lookup_lt_is_Some_2. unfold write_shard_metadata. rewrite Hi. cbn [unwrap mbind outcome_bind].
  destruct (shard_state bounds d i _ Hok Hi) as (bi & Hbi & [Hsh Hb Hap Hin]). cbn [fst snd] in *. destruct (shard_chunks_ok _ _ _ _ Hsh) as [Hcs Hlen].
  destruct (write_round_spec (file d) (metadata_pages sh) (so_meta _ _ _ _ _ _ Hsh) Hcs Hlen) as (f' & m' & r & Hrun & Hcap & Hm' & Hsame & Hdirty & _).
  pose proof (write_round_frame _ _ _ _ _ (so_meta _ _ _ _ _ _ Hsh) Hcs Hlen Hrun) as Hframe. rewrite Hrun. cbn [mbind outcome_bind].
  set (sh' := mkDiskCacheShard (allocator sh) (entry_index sh) m'). set (d' := mkInner f' _ _ _ _). assert (Hlt := lookup_lt_Some _ _ _ Hi).
  assert (Hpay : ∀ j x key e, shards d !! j = Some x → entries_by_key (entry_index x.1) !! key = Some e → entry_payload (contents f') e = entry_payload (contents (file d)) e).
  { intros j x key e Hj Hk. destruct (decide (j = i)) as [->|Hne]; [simplify_eq; by eapply round_payload_kept|].
    eapply (other_payload_kept bounds d i bi j x f'); [done|done|done|done| |done]. intros a Ha. by apply (metadata_chunk_free _ _ _ _ Hsh (Hframe a Ha)). }
  exists d', r. split; [done|]. split; [|exists sh', b; split; [by apply list_lookup_insert_eq|done]].
  constructor; cbn [d' shards file counters outcomes allocations].
  - constructor; [|exact (io_disjoint _ _ Hok)]. cbn [d' shards file]. apply Forall2_same_length_lookup_2.
    { rewrite length_insert. by eapply Forall2_length, (io_shards _ _ Hok). }
    intros j bj x Hbj Hj. destruct (decide (j = i)) as [->|Hne].
    + rewrite list_lookup_insert_eq in Hj by done. simplify_eq. constructor; cbn [fst snd]; [by apply round_shard_ok|done|done|].
      intros key e Hk. rewrite (Hpay i (sh, b) key e Hi Hk). exact (Hin key e Hk).
    + rewrite list_lookup_insert_ne in Hj by done. destruct (shard_state bounds d j x Hok Hj) as (bj' & Hbj' & [? ? ? Hinj]). simplify_eq. constructor; try done.
      intros key e Hk. rewrite (Hpay j x key e Hj Hk). exact (Hinj key e Hk).
  - intros k. unfold view. cbn [d' shards file]. rewrite length_insert. set (j := shard_index_for_key _ k).
    assert (Hsame' : ∃ x', (shards d' !! j = Some x' ∧ ∃ x, shards d !! j = Some x ∧ x'.2 = x.2 ∧ entry_index x'.1 = entry_index x.1) ∨ (shards d' !! j = None ∧ shards d !! j = None)).
    { cbn [d' shards]. destruct (decide (j = i)) as [->|Hne].
      - exists (sh', b). left. rewrite list_lookup_insert_eq by done. split; [done|]. by exists (sh, b).
      - rewrite list_lookup_insert_ne by done. destruct (shards d !! j) as [x|]; [exists x; left; split; [done|by exists x]|exists (sh, b); by right]. }
    cbn [d' shards] in Hsame'. destruct Hsame' as (x' & [(Hx' & x & Hx & Hb' & He')|[Hx' Hx]]); rewrite Hx', Hx; [|done]. cbn [mbind option_bind]. rewrite Hb', He'.
    destruct (buffer_get x.2 k); [done|]. destruct (entries_by_key (entry_index x.1) !! k) as [e|] eqn:Hk; [|done]. cbn. f_equal. by eapply Hpay.
  - by rewrite length_insert.
  - intros j. destruct (decide (j = i)) as [->|Hne]; [by rewrite list_lookup_insert_eq, Hi|by rewrite list_lookup_insert_ne].
  - done.
Qed.

Lemma write_metadata_from_ok n : ∀ i d,
  inner_ok bounds d → (i + n ≤ length (shards d))%nat →
  ∃ d' log, write_metadata_from n i d = Done (d', log) ∧ tick_effect d d'.
Proof.
  induction n as [|n IH]; intros i d Hok Hlen; cbn [write_metadata_from]; [exists d, []; split; [done|by constructor]|].
  destruct (write_shard_metadata_ok d i Hok) as (d1 & r & Hrun & He & _); [lia|]. rewrite Hrun. cbn [mbind outcome_bind].
  destruct (IH (S i) d1 (tk_ok _ _ He)) as (d' & log & Hrun' & He'); [rewrite (tk_length _ _ He); lia|]. rewrite Hrun'. cbn [mbind outcome_bind].
  exists d', (r :: log). split; [done|]. by eapply tick_effect_trans.
Qed.

Lemma metadata_tick_ok d : inner_ok bounds d → ∃ d' log, metadata_tick d = Done (d', log) ∧ tick_effect d d'.
Proof. intros Hok. by apply write_metadata_from_ok. Qed.
End ticks.
