(* ===== verification/Header.v ===== *)
(** * The file header ([disk_cache/header.rs])

    The first chunk names the format, the payload version and the capacity.  A
    file that does not match has the first metadata chunk of every shard cleared
    before the new header is written, so that recovery finds nothing. *)

From S2P Require Import Prelude Codec Errors Disk BTree Allocation PageFormat Metadata MetadataWriter Float64.
From S2P Require Import Retention EntryIndex Shard Writer Recovery.

Definition HEADER_BYTES : Z := 4096.
Definition FORMAT_TAG : list byte := [Byte.x46; Byte.x45; Byte.x55; Byte.x48; Byte.x44; Byte.x52; Byte.x31; Byte.x35].

Section header.
Context `{Hasher} `{StorageFile F}.

(** The test on the header read from the file. *)
Definition header_matches (header : list byte) (payload_version capacity : Z) : bool :=
  bool_decide (slice 8 16 header = FORMAT_TAG)
  && bool_decide (slice 16 24 header = u64_to_le_bytes payload_version)
  && bool_decide (slice 24 32 header = u64_to_le_bytes capacity)
  && bool_decide (slice 0 8 header = u64_to_le_bytes (xxh64 (drop 8 header))).

(** The header that is written. *)
Definition new_header (payload_version capacity : Z) : list byte :=
  let header := zeros (Z.to_nat HEADER_BYTES) in
  let header := copy_at 8 FORMAT_TAG header in
  let header := copy_at 16 (u64_to_le_bytes payload_version) header in
  let header := copy_at 24 (u64_to_le_bytes capacity) header in
  let checksum := xxh64 (drop 8 header) in
  copy_at 0 (u64_to_le_bytes checksum) header.

(** The loop that clears the first chunk of each shard from [shard_index] on. *)
Fixpoint clear_chains (n : nat) (f : F) (num_shards shard_index : Z) : outcome (F * DataFileResult ()) :=
  match n with
  | O => Done (f, Ok ())
  | S n =>
      let start := range_start (shard_disk_range (capacity f) num_shards shard_index) in
      '(f, r) ← write_at f start (zeros (Z.to_nat CHUNK_BYTES));
      match r with
      | Err e => Done (f, Err e)
      | Ok _ => clear_chains n f num_shards (shard_index + 1)
      end
  end.

(** [clear_incompatible_metadata] *)
Definition clear_incompatible_metadata (f : F) (payload_version : Z) (num_shards : nat) : outcome (F * DataFileResult ()) :=
  '(f, header) ← read_at f 0 (Z.to_nat HEADER_BYTES);
  match header with
  | Err e => Done (f, Err e)
  | Ok header =>
      if header_matches header payload_version (capacity f) then Done (f, Ok ())
      else
        '(f, r) ← clear_chains num_shards f (Z.of_nat num_shards) 0;
        match r with
        | Err e => Done (f, Err e)
        | Ok _ =>
            let '(f, r) := sync_all f in
            match r with
            | Err e => Done (f, Err e)
            | Ok _ =>
                '(f, r) ← write_at f 0 (new_header payload_version (capacity f));
                match r with
                | Err e => Done (f, Err e)
                | Ok _ => Done (sync_all f)
                end
            end
        end
  end.
End header.

(** ** The header's round trip *)
Section roundtrip.
Context `{HasherOk}.

Lemma new_header_eq v c :
  let body := FORMAT_TAG ++ u64_to_le_bytes v ++ u64_to_le_bytes c ++ zeros (4096 - 32) in
  new_header v c = u64_to_le_bytes (xxh64 body) ++ body.
Proof.
  intros body. unfold new_header. change (Z.to_nat HEADER_BYTES) with 4096%nat.
  replace (zeros 4096) with (zeros 8 ++ zeros 8 ++ zeros (4096 - 16)) by (rewrite !zeros_app; reflexivity).
  rewrite (copy_at_app 8 FORMAT_TAG (zeros 8) (zeros 8) (zeros (4096 - 16))) by done.
  replace (zeros (4096 - 16)) with (zeros 8 ++ zeros (4096 - 24)) by (rewrite zeros_app; reflexivity).
  rewrite (app_assoc (zeros 8) FORMAT_TAG), (copy_at_app 16 (u64_to_le_bytes v)) by (autorewrite with len; done).
  replace (zeros (4096 - 24)) with (zeros 8 ++ zeros (4096 - 32)) by (rewrite zeros_app; reflexivity).
  rewrite (app_assoc (zeros 8 ++ FORMAT_TAG)), (copy_at_app 24 (u64_to_le_bytes c)) by (autorewrite with len; done).
  replace ((((zeros 8 ++ FORMAT_TAG) ++ u64_to_le_bytes v) ++ u64_to_le_bytes c ++ zeros (4096 - 32)))
    with (zeros 8 ++ body) by (unfold body; by rewrite <-!app_assoc).
  replace (drop 8 (zeros 8 ++ body)) with body by (by rewrite drop_app_length').
  rewrite <-(app_nil_l (zeros 8 ++ body)), (copy_at_app 0 _ [] (zeros 8) body) by (autorewrite with len; done). done.
Qed.

Lemma length_new_header v c : length (new_header v c) = 4096%nat.
Proof. rewrite new_header_eq. autorewrite with len. reflexivity. Qed.

Lemma new_header_matches v c v' c' :
  is_u64 v → is_u64 c → is_u64 v' → is_u64 c' → header_matches (new_header v c) v' c' = bool_decide (v = v' ∧ c = c').
Proof.
  intros Hv Hc Hv' Hc'. rewrite new_header_eq. set (body := FORMAT_TAG ++ _). unfold header_matches.
  assert (Hlen : length (u64_to_le_bytes (xxh64 body)) = 8%nat) by apply length_u64.
  rewrite (slice_app_l 0 8), (slice_full 0 8), drop_app_length' by (by rewrite ?Hlen).
  rewrite (bool_decide_eq_true_2 (u64_to_le_bytes _ = _)), andb_true_r by done.
  rewrite !(slice_app_r _ _ 8) by (done || lia). unfold body.
  rewrite (slice_app_l (8 - 8)), (slice_full (8 - 8)) by done. rewrite bool_decide_eq_true_2 by done. cbn [andb].
  rewrite !(slice_app_r _ _ 8 FORMAT_TAG) by (done || lia).
  rewrite (slice_app_l (16 - 8 - 8)), (slice_full (16 - 8 - 8)) by (autorewrite with len; done).
  rewrite (slice_app_r _ _ 8 (u64_to_le_bytes v)) by (autorewrite with len; done || lia).
  rewrite (slice_app_l (24 - 8 - 8 - 8)), (slice_full (24 - 8 - 8 - 8)) by (autorewrite with len; done).
  assert (Hinj : ∀ x y, is_u64 x → is_u64 y → bool_decide (u64_to_le_bytes x = u64_to_le_bytes y) = bool_decide (x = y)).
  { intros x y Hx Hy. apply bool_decide_ext. split; [|by intros ->]. intros Heq.
    by rewrite <-(u64_le_roundtrip x Hx), <-(u64_le_roundtrip y Hy), Heq. }
  rewrite !Hinj by done. by rewrite bool_decide_and.
Qed.
End roundtrip.

(** ** Clearing *)
Section clearing.
Context `{HasherOk} `{StorageFileOk F}.

Definition zero_chunk (d : disk) (start : Z) : Prop := ∀ a, start ≤ a < start + CHUNK_BYTES → d a = Byte.x00.
Definition shard_start (cap num_shards i : Z) : Z := range_start (shard_disk_range cap num_shards i).
Definition disk_header (d : disk) : list byte := disk_read d 0 (Z.to_nat HEADER_BYTES).

Lemma shard_start_aligned cap n i : aligned (shard_start cap n i).
Proof. apply chunk_aligned. Qed.

Lemma shard_start_after_header cap n i : CHUNK_BYTES ≤ cap → 0 < n → 0 ≤ i → CHUNK_BYTES ≤ shard_start cap n i.
Proof.
  intros Hcap Hn Hi. unfold shard_start, shard_disk_range. cbn [range_start].
  assert (0 ≤ cap / CHUNK_BYTES - 1).
  { assert (1 ≤ cap / CHUNK_BYTES); [|lia]. apply Z.div_le_lower_bound; unfold CHUNK_BYTES in *; lia. }
  assert (0 ≤ (cap / CHUNK_BYTES - 1) * i / n) by (apply Z.div_pos; nia). unfold CHUNK_BYTES in *. nia.
Qed.

Lemma shard_end_le cap n i : CHUNK_BYTES ≤ cap → 0 ≤ i < n → range_end (shard_disk_range cap n i) ≤ cap.
Proof.
  intros Hcap Hi. unfold shard_disk_range. cbn [range_end]. set (k := cap / CHUNK_BYTES - 1).
  assert (0 ≤ k) by (assert (1 ≤ cap / CHUNK_BYTES); [apply Z.div_le_lower_bound; unfold CHUNK_BYTES in *; lia|lia]).
  pose proof (boundary_mono k n (i + 1) n ltac:(done) ltac:(lia) ltac:(lia)) as Hle. rewrite Z.div_mul in Hle by lia.
  pose proof (Z.mul_div_le cap CHUNK_BYTES ltac:(done)). unfold CHUNK_BYTES in *. nia.
Qed.

(** Writing a chunk of zeros at a shard's start. *)
Lemma clear_chunk f start :
  CHUNK_BYTES ≤ start → aligned start →
  ∃ f' r, write_at f start (zeros (Z.to_nat CHUNK_BYTES)) = Done (f', r) ∧ capacity f' = capacity f
    ∧ (∀ a, a < CHUNK_BYTES → contents f' a = contents f a)
    ∧ (r = Ok () → zero_chunk (contents f') start ∧ ∀ a, contents f' a = contents f a ∨ contents f' a = Byte.x00).
Proof.
  intros Hstart Hal. unfold write_at. assert (Hlen : Z.of_nat (length (zeros (Z.to_nat CHUNK_BYTES))) = CHUNK_BYTES).
  { rewrite length_zeros. apply Z2Nat.id. discriminate. }
  rewrite Hlen, !aligned_b by (exact Hal || exact (chunk_aligned 1)). cbn [assert_that mbind outcome_bind].
  destruct (write_padded_ok f start CHUNK_BYTES (zeros (Z.to_nat CHUNK_BYTES))) as (f' & r & Hrun & Hcap & Hout & Hok & _);
    [unfold CHUNK_BYTES in *; lia|exact Hal|exact (chunk_aligned 1)|lia|].
  exists f', r. split; [exact Hrun|]. split_and!; [done| |].
  - intros a Ha. apply Hout. lia.
  - intros Hr. destruct (Hok Hr) as [_ Hcont]. rewrite Hlen, Z.sub_diag in Hcont. change (zeros (Z.to_nat 0)) with ([] : list byte) in Hcont.
    rewrite app_nil_r in Hcont. assert (Hin : ∀ a, start ≤ a < start + CHUNK_BYTES → contents f' a = Byte.x00).
    { intros a Ha. rewrite Hcont. replace a with (start + Z.of_nat (Z.to_nat (a - start))) by lia.
      apply disk_write_in. apply lookup_replicate_2. unfold CHUNK_BYTES in *. lia. }
    split; [done|]. intros a. destruct (decide (start ≤ a < start + CHUNK_BYTES)); [right; by apply Hin|left].
    rewrite Hcont. apply disk_write_out. rewrite Hlen. lia.
Qed.

Lemma clear_chains_spec n : ∀ f num_shards i,
  CHUNK_BYTES ≤ capacity f → 0 < num_shards → 0 ≤ i →
  ∃ f' r, clear_chains n f num_shards i = Done (f', r) ∧ capacity f' = capacity f
    ∧ (∀ a, a < CHUNK_BYTES → contents f' a = contents f a)
    ∧ (r = Ok () → (∀ j, i ≤ j < i + Z.of_nat n → zero_chunk (contents f') (shard_start (capacity f) num_shards j))
         ∧ ∀ a, contents f' a = contents f a ∨ contents f' a = Byte.x00).
Proof.
  induction n as [|n IH]; intros f k i Hcap Hk Hi; cbn [clear_chains].
  { exists f, (Ok ()). split_and!; try done. intros _. split; [lia|by left]. }
  destruct (clear_chunk f (shard_start (capacity f) k i) (shard_start_after_header _ _ _ Hcap Hk Hi) (shard_start_aligned _ _ _))
    as (f1 & r & Hrun & Hcap1 & Hlow1 & Hok1).
  change (range_start (shard_disk_range (capacity f) k i)) with (shard_start (capacity f) k i).
  rewrite Hrun. cbn [mbind outcome_bind]. destruct r as [[]|e]; [|by exists f1, (Err e); split_and!].
  destruct (IH f1 k (i + 1) ltac:(by rewrite Hcap1) Hk ltac:(lia)) as (f' & r & Hrun' & Hcap' & Hlow' & Hok').
  exists f', r. rewrite Hcap1 in *. split_and!; try done; [intros a Ha; rewrite Hlow', Hlow1 by done; done|].
  intros Hr. destruct (Hok' Hr) as [Hz' Hall']. destruct (Hok1 eq_refl) as [Hz1 Hall1]. split.
  - intros j Hj. destruct (decide (j = i)) as [->|Hne]; [|apply Hz'; lia].
    intros a Ha. destruct (Hall' a) as [->|?]; [by apply Hz1|done].
  - intros a. destruct (Hall' a) as [->|?]; [apply Hall1|by right].
Qed.

Lemma header_ext d d' : (∀ a, a < CHUNK_BYTES → d' a = d a) → disk_header d' = disk_header d.
Proof. intros Heq. apply disk_read_ext. intros a Ha. apply Heq. change (Z.of_nat (Z.to_nat HEADER_BYTES)) with 4096 in Ha. unfold CHUNK_BYTES. lia. Qed.

(** Writing the header. *)
Lemma write_header f v :
  ∃ f' r, write_at f 0 (new_header v (capacity f)) = Done (f', r) ∧ capacity f' = capacity f
    ∧ (∀ a, CHUNK_BYTES ≤ a → contents f' a = contents f a)
    ∧ (r = Ok () → disk_header (contents f') = new_header v (capacity f)).
Proof.
  unfold write_at. rewrite length_new_header. rewrite !aligned_b by done. cbn [assert_that mbind outcome_bind].
  destruct (write_padded_ok f 0 (Z.of_nat 4096) (new_header v (capacity f))) as (f' & r & Hrun & Hcap & Hout & Hok & _);
    [done|done|done|by rewrite length_new_header|].
  exists f', r. split; [exact Hrun|]. split_and!; [done| |].
  - intros a Ha. apply Hout. unfold CHUNK_BYTES in Ha. lia.
  - intros Hr. destruct (Hok Hr) as [_ Hcont]. rewrite length_new_header, Z.sub_diag in Hcont.
    change (zeros (Z.to_nat 0)) with ([] : list byte) in Hcont. rewrite app_nil_r in Hcont. unfold disk_header.
    rewrite (disk_read_ext _ (disk_write (contents f) 0 (new_header v (capacity f)))) by (intros; apply Hcont).
    change (Z.to_nat HEADER_BYTES) with 4096%nat. rewrite <-(length_new_header v (capacity f)) at 1. apply disk_read_write_same.
Qed.

(** What the call leaves on disk, whether it succeeds or fails. *)
Definition chains_cleared (f : F) (num_shards : nat) : Prop :=
  ∀ j, 0 ≤ j < Z.of_nat num_shards → zero_chunk (contents f) (shard_start (capacity f) (Z.of_nat num_shards) j).

(** Closes a failing branch up to what it leaves on disk. *)
Ltac failed_case :=
  split; [reflexivity|]; split; [reflexivity|];
  split; [|split; [intros Hc; discriminate Hc|intros Hr; discriminate Hr]].

Lemma clear_incompatible_spec f v n :
  CHUNK_BYTES ≤ capacity f < 2 ^ 64 → is_u64 v → (0 < n)%nat →
  ∃ f' r, clear_incompatible_metadata f v n = Done (f', r) ∧ capacity f' = capacity f
    ∧ (disk_header (contents f') = disk_header (contents f) ∨ chains_cleared f' n)
    ∧ (header_matches (disk_header (contents f)) v (capacity f) = true → contents f' = contents f)
    ∧ (r = Ok () → header_matches (disk_header (contents f')) v (capacity f) = true
                   ∧ (header_matches (disk_header (contents f)) v (capacity f) = false → chains_cleared f' n)).
Proof.
  intros [Hcap H64] Hv Hn. assert (Hc64 : is_u64 (capacity f)) by (unfold is_u64, CHUNK_BYTES in *; lia). unfold clear_incompatible_metadata.
  destruct (read_at_ok f 0 (Z.to_nat HEADER_BYTES) ltac:(lia)) as (f0 & r0 & Hread & Hcap0 & Hcont0 & Hok0 & _).
  rewrite Hread. cbn [mbind outcome_bind]. destruct r0 as [header|e].
  2:{ exists f0, (Err e). rewrite Hcont0. split_and!; try done. by left. }
  destruct (Hok0 _ eq_refl) as [_ ->]. rewrite Hcap0. fold (disk_header (contents f)).
  destruct (header_matches (disk_header (contents f)) v (capacity f)) eqn:Hm.
  { exists f0, (Ok ()). rewrite Hcont0. split_and!; try done. by left. }
  destruct (clear_chains_spec n f0 (Z.of_nat n) 0 ltac:(by rewrite Hcap0) ltac:(lia) ltac:(lia)) as (f1 & r1 & Hrun1 & Hcap1 & Hlow1 & Hz1).
  rewrite Hrun1. cbn [mbind outcome_bind].
  assert (Hh1 : disk_header (contents f1) = disk_header (contents f)) by (rewrite (header_ext _ _ Hlow1), Hcont0; done).
  destruct r1 as [[]|e]; [|exists f1, (Err e); rewrite Hcap1, Hcap0; failed_case; left; exact Hh1].
  destruct (Hz1 eq_refl) as [Hz _]. destruct (sync_all_ok f1) as [Hcap2 Hcont2]. destruct (sync_all f1) as [f2 r2]. cbn [fst] in Hcap2, Hcont2.
  destruct r2 as [[]|e]; [|exists f2, (Err e); rewrite Hcap2, Hcap1, Hcap0, Hcont2; failed_case; left; exact Hh1].
  destruct (write_header f2 v) as (f3 & r3 & Hrun3 & Hcap3 & Hout3 & Hok3). rewrite Hrun3. cbn [mbind outcome_bind].
  assert (Hclear : chains_cleared f3 n).
  { intros j Hj a Ha. rewrite Hcap3, Hcap2, Hcap1, Hcap0 in Ha.
    pose proof (shard_start_after_header (capacity f) (Z.of_nat n) j Hcap ltac:(lia) ltac:(lia)).
    rewrite Hout3, Hcont2 by lia. rewrite <-Hcap0 in Ha. apply (Hz j); lia. }
  destruct r3 as [[]|e]; [|exists f3, (Err e); rewrite Hcap3, Hcap2, Hcap1, Hcap0; failed_case; right; exact Hclear].
  destruct (sync_all_ok f3) as [Hcap4 Hcont4]. destruct (sync_all f3) as [f4 r4]. cbn [fst] in Hcap4, Hcont4.
  assert (Hclear4 : chains_cleared f4 n) by (unfold chains_cleared; by rewrite Hcap4, Hcont4).
  exists f4, r4. rewrite Hcap4, Hcap3, Hcap2, Hcap1, Hcap0.
  split_and!; [reflexivity|reflexivity|right; exact Hclear4|intros Hc; discriminate Hc|].
  intros _. split; [|intros _; exact Hclear4]. rewrite Hcont4, (Hok3 eq_refl), Hcap2, Hcap1, Hcap0, new_header_matches by assumption.
  apply bool_decide_eq_true_2. split; reflexivity.
Qed.
End clearing.

(** ** Recovery after clearing *)
Section empty.
Context `{Hasher} `{StorageFileOk F}.

Lemma zero_read d start : zero_chunk d start → forallb is_zero (disk_read d start (Z.to_nat CHUNK_BYTES)) = true.
Proof.
  intros Hz. apply forallb_forall. intros b (i & Hi)%list_elem_of_In%list_elem_of_lookup. rewrite lookup_disk_read in Hi.
  case_decide; [|done]. injection Hi as <-. unfold is_zero. rewrite Hz by lia. reflexivity.
Qed.

(** A chain that starts at a chunk of zeros, or that cannot be read, has no records. *)
Lemma load_zero_chunk f lo hi start :
  0 < lo → lo < hi → hi * CHUNK_BYTES ≤ 2 ^ 63 → hi - lo < 2 ^ 32 → 0 ≤ start → zero_chunk (contents f) start →
  ∃ f', load_metadata_chain f (allocator (new_shard lo hi)) start = Done (f', allocator (new_shard lo hi), mkMetadataChunks [] [] (mkLocation 0 0) 0)
    ∧ contents f' = contents f ∧ (f' = f ∨ ∃ r, read_at f start (Z.to_nat CHUNK_BYTES) = Done (f', r)).
Proof.
  intros Hlo Hlt Hhi Hsmall Hst Hz. assert (Hal := so_alloc _ _ _ _ _ _ (new_shard_ok lo hi Hlo Hlt Hhi Hsmall)).
  set (al := allocator _) in *. unfold load_metadata_chain. set (n := Z.to_nat (chunk_capacity al)).
  assert (Hload : ∃ f', load_chain (S n) f al start [] = Done (f', al, [], start) ∧ contents f' = contents f
            ∧ (f' = f ∨ ∃ r, read_at f start (Z.to_nat CHUNK_BYTES) = Done (f', r))).
  { cbn [load_chain]. destruct (_ && _); [|exists f; by auto]. unfold reserve_chunks_at. destruct (checked_add _ _) as [e|]; [|exists f; by auto].
    destruct (reserve_chunk_numbers (free al) _) as [[fr r]|] eqn:Hres; [|exists f; by auto].
    destruct (read_at_ok f start (Z.to_nat CHUNK_BYTES) Hst) as (f' & bytes & Hread & _ & Hcont & Hok & _).
    exists f'. rewrite Hread. cbn [mbind outcome_bind].
    rewrite (drop_after_reserve _ _ _ _ _ _ _ _ (proj1 Hal) Hres).
    destruct bytes as [bytes|err]; [|by eauto]. destruct (Hok bytes eq_refl) as [_ ->]. rewrite zero_read by exact Hz. by eauto. }
  destruct Hload as (f' & -> & Hcont & Hf'). exists f'. cbn [mbind outcome_bind]. split; [|done]. by destruct (bool_decide _).
Qed.

Lemma recover_zero_chunk f lo hi num_shards shard_index start :
  0 < lo → lo < hi → hi * CHUNK_BYTES ≤ 2 ^ 63 → hi - lo < 2 ^ 32 → 0 ≤ start → zero_chunk (contents f) start →
  ∃ f', recover_shard f (new_shard lo hi) num_shards shard_index start = Done (f', new_shard lo hi) ∧ contents f' = contents f
    ∧ (f' = f ∨ ∃ r, read_at f start (Z.to_nat CHUNK_BYTES) = Done (f', r)).
Proof.
  intros Hlo Hlt Hhi Hsmall Hst Hz. destruct (load_zero_chunk f lo hi start) as (f' & Hload & Hcont); [done..|].
  exists f'. split; [|done]. unfold recover_shard. rewrite Hload. reflexivity.
Qed.
End empty.

(** C24: replacing the header is safe against failures at any point.  The call
    leaves a compatible file untouched; when it fails, the old header is still in
    place or every chain has been cleared; when it succeeds, the header matches. *)
Theorem header_crash_safe `{HasherOk} `{StorageFileOk F} (f : F) payload_version num_shards :
  CHUNK_BYTES ≤ capacity f < 2 ^ 64 → is_u64 payload_version → (0 < num_shards)%nat →
  ∃ f' r, clear_incompatible_metadata f payload_version num_shards = Done (f', r)
    ∧ (disk_header (contents f') = disk_header (contents f) ∨ chains_cleared f' num_shards)
    ∧ (header_matches (disk_header (contents f)) payload_version (capacity f) = true → contents f' = contents f)
    ∧ (r = Ok () → header_matches (disk_header (contents f')) payload_version (capacity f) = true).
Proof.
  intros Hcap Hv Hn. destruct (clear_incompatible_spec f payload_version num_shards Hcap Hv Hn) as (f' & r & Hrun & _ & Hor & Hsame & Hok).
  exists f', r. split_and!; [done|done|done|]. intros Hr. by apply Hok.
Qed.

Lemma header_crash_safe_witness :
  let _ := sum_hasher in
  ∃ f' r, clear_incompatible_metadata (sample_file [false; false; true]) 7 3 = Done (f', r)
    ∧ (disk_header (contents f') = disk_header (λ _, Byte.x00) ∨ chains_cleared f' 3).
Proof.
  intros hash. assert (Hh : @HasherOk hash) by apply sum_hasher_ok.
  destruct (header_crash_safe (sample_file [false; false; true]) 7 3) as (f' & r & Hrun & Hor & _);
    [split; by vm_compute|by vm_compute|lia|exists f', r; split; [exact Hrun|exact Hor]].
Defined.

(** A file with another format, payload version or capacity starts empty:
    after the header was replaced, recovering any of its shards yields the empty
    shard, whatever payloads and metadata the rest of the file still holds. *)
Lemma incompatible_file_starts_empty `{HasherOk} `{StorageFileOk F} (f f' : F) payload_version num_shards shard_index lo hi :
  CHUNK_BYTES ≤ capacity f → capacity f < 2 ^ 52 → is_u64 payload_version → (shard_index < num_shards)%nat →
  shard_disk_range (capacity f) (Z.of_nat num_shards) (Z.of_nat shard_index) = mkRange (lo * CHUNK_BYTES) (hi * CHUNK_BYTES) → lo < hi →
  header_matches (disk_header (contents f)) payload_version (capacity f) = false →
  clear_incompatible_metadata f payload_version num_shards = Done (f', Ok ()) →
  ∃ f'', recover_shard f' (new_shard lo hi) num_shards shard_index (lo * CHUNK_BYTES) = Done (f'', new_shard lo hi).
Proof.
  intros Hcap H52 Hv Hi Hrange Hlt Hm Hrun. assert (H64 : CHUNK_BYTES ≤ capacity f < 2 ^ 64) by lia.
  destruct (clear_incompatible_spec f payload_version num_shards H64 Hv ltac:(lia)) as (f1 & r & Hrun' & Hcap' & _ & _ & Hok).
  rewrite Hrun in Hrun'. injection Hrun' as <- <-. destruct (Hok eq_refl) as [_ Hclear].
  assert (Hstart : shard_start (capacity f) (Z.of_nat num_shards) (Z.of_nat shard_index) = lo * CHUNK_BYTES) by (unfold shard_start; by rewrite Hrange).
  pose proof (shard_start_after_header (capacity f) (Z.of_nat num_shards) (Z.of_nat shard_index) Hcap ltac:(lia) ltac:(lia)).
  assert (Hhi : hi * CHUNK_BYTES ≤ capacity f).
  { change (hi * CHUNK_BYTES) with (range_end (mkRange (lo * CHUNK_BYTES) (hi * CHUNK_BYTES))).
    rewrite <-Hrange. apply shard_end_le; [exact Hcap|lia]. }
  destruct (recover_zero_chunk f' lo hi num_shards shard_index (lo * CHUNK_BYTES)) as (f'' & Hrec & _); [| | | | | |by exists f''].
  all: try (unfold CHUNK_BYTES in *; lia).
  rewrite <-Hstart, <-Hcap'. apply Hclear; [done|lia].
Qed.

Lemma zero_header_mismatch `{Hasher} v c : header_matches (disk_header (λ _, Byte.x00)) v c = false.
Proof. unfold header_matches. rewrite (bool_decide_eq_false_2 (slice 8 16 _ = FORMAT_TAG)); [reflexivity|]. by vm_compute. Qed.

Lemma ram_write_at f offset bytes :
  ram_faults f = [] → aligned offset → aligned (Z.of_nat (length bytes)) → offset + Z.of_nat (length bytes) ≤ ram_capacity f →
  ∃ f', write_at f offset bytes = Done (f', Ok ()) ∧ ram_faults f' = [] ∧ ram_capacity f' = ram_capacity f.
Proof.
  intros Hf Hoff Hlen Hcap. unfold write_at. rewrite !aligned_b by assumption. cbn [assert_that mbind outcome_bind write_padded ram_file].
  unfold ram_check. rewrite (proj2 (Z.leb_le _ _)) by exact Hcap. rewrite Hf. eexists. split; [reflexivity|].
  cbn [ram_next ram_faults ram_capacity]. rewrite Hf. by split.
Qed.

Lemma clear_sample_file `{Hasher} : ∃ f', clear_incompatible_metadata (sample_file []) 7 2 = Done (f', Ok ()).
Proof.
  unfold clear_incompatible_metadata. change (read_at (sample_file []) 0 (Z.to_nat HEADER_BYTES)) with
    (Done (sample_file [], Ok (disk_header (λ _, Byte.x00))) : outcome (RamFile * DataFileResult (list byte))).
  cbn [mbind outcome_bind]. rewrite zero_header_mismatch.
  assert (Hlen : Z.of_nat (length (zeros (Z.to_nat CHUNK_BYTES))) = CHUNK_BYTES) by (rewrite length_zeros; by apply Z2Nat.id).
  cbn [clear_chains]. set (n := zeros _) in *. clearbody n.
  destruct (ram_write_at (sample_file []) (1 * CHUNK_BYTES) n) as (f1 & Hw1 & Hf1 & Hc1); [done|done|by rewrite Hlen|by rewrite Hlen|].
  change (range_start (shard_disk_range (capacity (sample_file [])) (Z.of_nat 2) 0)) with (1 * CHUNK_BYTES). rewrite Hw1. cbn [mbind outcome_bind].
  destruct (ram_write_at f1 (5 * CHUNK_BYTES) n) as (f2 & Hw2 & Hf2 & Hc2); [done|done|by rewrite Hlen|by rewrite Hlen, Hc1|].
  change (capacity f1) with (ram_capacity f1). rewrite Hc1. change (range_start (shard_disk_range (ram_capacity (sample_file [])) (Z.of_nat 2) (0 + 1))) with (5 * CHUNK_BYTES). rewrite Hw2.
  cbn [mbind outcome_bind sync_all ram_file].
  destruct (ram_write_at f2 0 (new_header 7 (ram_capacity f2))) as (f3 & Hw3 & Hf3 & Hc3);
    [done|done|by rewrite length_new_header|by rewrite length_new_header, Hc2, Hc1|].
  change (capacity f2) with (ram_capacity f2). rewrite Hw3. eexists. reflexivity.
Qed.
