(* ===== verification/Persist.v ===== *)
(** * What the disk knows about a shard

    A shard is [persistent] on a disk when every page of its metadata that is
    not waiting to be written is on the disk, its chain starts where recovery
    looks for it, and its entries are ones recovery will accept.  Every operation
    of a shard keeps this: it changes pages only together with marking them, and
    payloads are written outside the metadata chunks.  Restart.v uses the
    invariant to show what a restarted cache finds. *)

From S2P Require Import Prelude Codec Errors Disk BTree Allocation PageFormat Metadata MetadataWriter Float64.
From S2P Require Import Retention EntryIndex Shard Writer Recovery Reopen MetadataTick Header.

(** ** Metadata pages *)
Section pages.
Context `{Hasher}.

Lemma slice_insert_out {A} (a b j : nat) (x : A) (l : list A) : (j < a ∨ b ≤ j)%nat → slice a b (<[j := x]> l) = slice a b l.
Proof.
  intros Hj. apply list_eq. intros i. unfold slice. destruct (decide (i < b - a)%nat) as [Hi|Hi].
  - rewrite !lookup_take_lt, !lookup_drop by done. apply list_lookup_insert_ne. lia.
  - by rewrite !lookup_take_ge by lia.
Qed.

(** Writing a slot changes only its own page. *)
Lemma set_slot_page c j o p :
  (p ≤ last_page)%nat → p ≠ (j / Z.to_nat ENTRIES_PER_METADATA_PAGE)%nat →
  chunk_page (set_entries (<[j := o]> (chunk_entries c)) c) p = chunk_page c p.
Proof.
  intros _ Hne. unfold chunk_page. case_decide; [done|]. do 4 f_equal. unfold page_slots. cbn [chunk_entries set_entries].
  apply slice_insert_out. change (Z.to_nat ENTRIES_PER_METADATA_PAGE) with 101%nat in *. pose proof (Nat.div_mod_eq j 101).
  pose proof (Nat.mod_upper_bound j 101). nia.
Qed.

Lemma set_next_page c a p : p ≠ last_page → chunk_page (set_next a c) p = chunk_page c p.
Proof.
  intros Hne. unfold chunk_page. rewrite !decide_False; [done|..]; unfold last_page in Hne; change (Z.to_nat ENTRY_METADATA_PAGES_PER_CHUNK) with 255%nat in Hne; change ENTRY_METADATA_PAGES_PER_CHUNK with 255; lia.
Qed.

(** The chain is on the disk up to the pages that are marked; a chunk that still
    needs its full write is remembered; the chain starts at chunk [lo]. *)
Record meta_persistent (lo : Z) (d : disk) (m : MetadataChunks) : Prop := mkMetaPersistent {
  mp_synced : synced d m;
  mp_marked : ∀ i c, chunks m !! i = Some c → needs_full_write c = true → dirty_pages m ≠ [];
  mp_first : match chunks m with [] => zero_chunk d (lo * CHUNK_BYTES) | c :: _ => first_chunk c = lo end
}.

Lemma page_insert_nonempty p l : page_insert p l ≠ [].
Proof. intros Hn. assert (Hp : p ∈ page_insert p l) by (apply elem_of_page_insert; by left). rewrite Hn in Hp. by apply elem_of_nil in Hp. Qed.

Lemma set_slot_persistent lo d m loc o start count :
  meta_persistent lo d m →
  meta_persistent lo d (mkMetadataChunks (set_slot (chunks m) loc o) (mark_page_dirty (dirty_pages m) loc) start count).
Proof.
  intros [Hs Hm Hf]. constructor; cbn [chunks dirty_pages].
  - intros i c p Hi Hp Hn Hd. cbn [chunks dirty_pages] in *. unfold mark_page_dirty in Hd. rewrite elem_of_page_insert in Hd.
    unfold set_slot in Hi. destruct (decide (i = loc_chunk loc)) as [->|Hne].
    + rewrite list_lookup_alter_eq in Hi. apply fmap_Some in Hi as (c0 & Hi & ->).
      assert (Hpg : p ≠ (loc_entry loc / Z.to_nat ENTRIES_PER_METADATA_PAGE)%nat) by (intros ->; apply Hd; by left).
      assert (H0 : on_disk d c0 p) by (apply (Hs (loc_chunk loc)); [done|done|done|tauto]).
      unfold on_disk in *. rewrite set_slot_page by done. exact H0.
    + rewrite list_lookup_alter_ne in Hi by done. apply (Hs i); [done|done|done|tauto].
  - intros i c _ _. apply page_insert_nonempty.
  - unfold set_slot. destruct (chunks m) as [|c cs]; [done|]. by destruct (loc_chunk loc).
Qed.

Lemma grow_persistent lo d m r :
  meta_persistent lo d m → (chunks m = [] → range_start (chunk_numbers r) = lo) → meta_persistent lo d (grow m r).
Proof.
  intros [Hs Hm Hf] Hr. constructor.
  - intros i c p Hi Hp Hn Hd. cbn [grow chunks dirty_pages] in Hi, Hd. rewrite elem_of_page_insert in Hd.
    apply lookup_app_Some in Hi as [Hi|[_ Hi]]; [|destruct (i - _)%nat; [|done]; by injection Hi as <-].
    assert (Hlt := lookup_lt_Some _ _ _ Hi). rewrite length_alter in Hlt.
    assert (Hd0 : mkPageLocation i p ∉ dirty_pages m).
    { intros Hin. apply Hd. right. destruct (chunks m); [done|]. apply elem_of_page_insert. by right. }
    destruct (decide (i = pred (length (chunks m)))) as [->|Hne].
    + rewrite list_lookup_alter_eq in Hi. apply fmap_Some in Hi as (c0 & Hi & ->).
      assert (Hpl : p ≠ last_page).
      { intros ->. apply Hd. right. destruct (chunks m); [done|]. apply elem_of_page_insert. by left. }
      assert (H0 : on_disk d c0 p) by (by apply (Hs (pred (length (chunks m))))).
      unfold on_disk in *. rewrite set_next_page by done. exact H0.
    + rewrite list_lookup_alter_ne in Hi by done. by apply (Hs i).
  - intros i c _ _. apply page_insert_nonempty.
  - cbn [grow chunks]. destruct (chunks m) as [|c cs]; cbn [alter list_alter app length pred]; [exact (Hr eq_refl)|]. by destruct cs.
Qed.

(** Only bytes of the chain's own chunks matter, and of the first chunk as long as
    there is no chain. *)
Lemma meta_persistent_disk lo d d' m :
  Forall (λ c, chunk_count (reserved_chunk c) = 1) (chunks m) → meta_persistent lo d m →
  (∀ a, d' a ≠ d a → cover (a / CHUNK_BYTES) (reserved_chunk <$> chunks m) = 0 ∧ (chunks m = [] → a / CHUNK_BYTES ≠ lo)) →
  meta_persistent lo d' m.
Proof.
  intros Hone [Hs Hm Hf] Hd. constructor; [|done|].
  - intros i c p Hi Hp Hn Hdirty. specialize (Hs i c p Hi Hp Hn Hdirty). unfold on_disk in *. rewrite <-Hs. apply disk_read_ext.
    intros a Ha. apply dec_stable. intros Hne. destruct (Hd a Hne) as [Hz _].
    rewrite Forall_lookup in Hone. specialize (Hone _ _ Hi). unfold chunk_count in Hone.
    rewrite page_address_lower in Ha. unfold last_page in Hp. change (Z.to_nat ENTRY_METADATA_PAGES_PER_CHUNK) with 255%nat in Hp.
    change (Z.of_nat (Z.to_nat METADATA_PAGE_BYTES)) with 4096 in Ha.
    assert (Hc : a / CHUNK_BYTES = range_start (chunk_numbers (reserved_chunk c))).
    { symmetry. apply (Z.div_unique_pos a CHUNK_BYTES _ (a - range_start (chunk_numbers (reserved_chunk c)) * 1048576)); unfold CHUNK_BYTES; lia. }
    rewrite Hc in Hz. apply list_elem_of_lookup_2, list_elem_of_split in Hi as (l1 & l2 & Hi). rewrite Hi, fmap_app in Hz.
    unfold cover in Hz. rewrite zsum_app in Hz. cbn [fmap list_fmap] in Hz. rewrite zsum_cons in Hz.
    assert (H1 := cover_nonneg (range_start (chunk_numbers (reserved_chunk c))) (reserved_chunk <$> l1)).
    assert (H2 := cover_nonneg (range_start (chunk_numbers (reserved_chunk c))) (reserved_chunk <$> l2)). unfold cover in H1, H2.
    rewrite (proj2 (in_range_true _ _)) in Hz by lia. cbn in Hz. lia.
  - destruct (chunks m) as [|c cs]; [|done]. intros a Ha. rewrite <-(Hf a Ha). apply dec_stable. intros Hne.
    apply (proj2 (Hd a ltac:(congruence)) eq_refl). symmetry.
    apply (Z.div_unique_pos a CHUNK_BYTES _ (a - lo * CHUNK_BYTES)); lia.
Qed.
End pages.

(** ** Shards *)

(** Payloads that share a hold lie in one chunk. *)
Definition packed_holds (al : DiskChunkAllocator) : Prop :=
  ∀ k r n, payload_chunks al !! k = Some (r, n) → chunk_count r = 1 ∨ n ≤ 1.

Record persistent `{Hasher} (lo : Z) (owns : Z → Prop) (d : disk) (sh : DiskCacheShard) : Prop := mkPersistent {
  pe_meta : meta_persistent lo d (metadata_pages sh);
  pe_packed : packed_holds (allocator sh);
  pe_keys : ∀ key, is_Some (entries_by_key (entry_index sh) !! key) → owns key
}.

Lemma release_payload_packed al a al' : release_payload al a = Done al' → packed_holds al → packed_holds al'.
Proof.
  unfold release_payload. destruct (payload_chunks al !! (a / CHUNK_BYTES)) as [[r n]|] eqn:Hk; [|done]. intros Hrun Hp k r' n' Hk'.
  destruct (n =? 1); injection Hrun as <-; cbn in Hk'.
  - apply lookup_delete_Some in Hk' as [_ Hk']. eauto.
  - apply lookup_insert_Some in Hk' as [[<- [= <- <-]]|[_ Hk']]; [|eauto]. destruct (Hp _ _ _ Hk); [by left|right; lia].
Qed.

Lemma hold_packed al r n : chunk_count r = 1 ∨ n ≤ 1 → packed_holds al → packed_holds (hold_chunks_until_payloads_released al r n).
Proof.
  intros Hr Hp k r' n'. unfold hold_chunks_until_payloads_released.
  assert (Hins : <[range_start (chunk_numbers r) := (r, n)]> (payload_chunks al) !! k = Some (r', n') → chunk_count r' = 1 ∨ n' ≤ 1).
  { intros [[<- [= <- <-]]|[_ Hk]]%lookup_insert_Some; [done|eauto]. }
  by destruct (payload_chunks al !! _) as [[r0 n0]|].
Qed.

Lemma take_entry_keys idx key t idx' :
  take_entry idx key = Done (t, idx') → ∀ k, is_Some (entries_by_key idx' !! k) → is_Some (entries_by_key idx !! k).
Proof.
  unfold take_entry, index_take. destruct (entries_by_key idx !! key) as [e|] eqn:Hk; [|by intros [= _ <-]]. cbn [mbind outcome_bind].
  destruct (swap_remove _ _) as [[x cands]|]; [|done]. cbn [mbind outcome_bind].
  assert (Hdel : ∀ k, is_Some (delete key (entries_by_key idx) !! k) → is_Some (entries_by_key idx !! k)).
  { intros k [e' [_ He']%lookup_delete_Some]. eauto. }
  destruct (cands !! _) as [moved|]; cbn [mbind outcome_bind].
  - destruct (delete key (entries_by_key idx) !! moved) as [me|] eqn:Hm; [|done]. cbn [unwrap mbind outcome_bind]. intros [= _ <-] k [e' He'].
    apply Hdel. cbn [entries_by_key] in He'. apply lookup_insert_Some in He' as [[<- _]|[_ He']]; eauto.
  - by intros [= _ <-].
Qed.

Section shards.
Context `{Hasher} (lo : Z) (owns : Z → Prop) (d : disk).

Lemma persistent_index sh idx : persistent lo owns d sh → (∀ k, is_Some (entries_by_key idx !! k) → is_Some (entries_by_key (entry_index sh) !! k)) →
  persistent lo owns d (mkDiskCacheShard (allocator sh) idx (metadata_pages sh)).
Proof. intros [Hm Hp Hk] Hi. constructor; [done|done|]. cbn. auto. Qed.

Lemma persistent_allocator sh al : persistent lo owns d sh → payload_chunks al = payload_chunks (allocator sh) → persistent lo owns d (with_allocator al sh).
Proof. intros [Hm Hp Hk] Hal. constructor; [done| |done]. intros k r n. cbn. rewrite Hal. apply Hp. Qed.

Lemma release_entry_persists sh e sh' : release_entry sh e = Done sh' → persistent lo owns d sh → persistent lo owns d sh'.
Proof.
  unfold release_entry. destruct (release_payload _ _) as [al|] eqn:Hr; [|done]. cbn [mbind outcome_bind]. unfold free_entry_metadata.
  destruct (slot_at _ _) as [o|]; [|done]. cbn [unwrap mbind outcome_bind]. destruct (assert_that _); [|done]. cbn [mbind outcome_bind].
  intros [= <-] [Hm Hp Hk]. constructor; [by apply set_slot_persistent|by eapply release_payload_packed|done].
Qed.

Lemma remove_entry_persists sh key sh' : remove_entry_from_index sh key = Done sh' → persistent lo owns d sh → persistent lo owns d sh'.
Proof.
  unfold remove_entry_from_index. destruct (take_entry _ _) as [[[e|] idx]|] eqn:Ht; cbn [mbind outcome_bind]; [|by intros [= <-]|done].
  intros Hr Hp. eapply release_entry_persists; [exact Hr|]. apply persistent_index; [done|]. by eapply take_entry_keys.
Qed.

Lemma insert_entry_persists sh key e sh' : insert_entry sh key e = Done sh' → owns key → persistent lo owns d sh → persistent lo owns d sh'.
Proof.
  unfold insert_entry. destruct (take_entry _ _) as [[prev idx]|] eqn:Ht; [|done]. cbn [mbind outcome_bind]. intros Hrun Hkey Hp.
  assert (Hp1 := persistent_index sh idx Hp (take_entry_keys _ _ _ _ Ht)). set (sh1 := mkDiskCacheShard _ _ _) in *.
  assert (Hmid : ∃ sh2, match prev with Some previous => release_entry sh1 previous | None => Done sh1 end = Done sh2 ∧ persistent lo owns d sh2).
  { destruct prev as [e0|]; [|by exists sh1]. destruct (release_entry sh1 e0) as [sh2|] eqn:Hr; [|done]. exists sh2. split; [done|]. by eapply release_entry_persists. }
  destruct Hmid as (sh2 & Hm & [Hp2 Hp3 Hp4]). rewrite Hm in Hrun. cbn in Hrun. injection Hrun as <-. constructor; [done|done|]. cbn.
  intros k [e' He']. apply lookup_insert_Some in He' as [[<- _]|[_ He']]; [done|]. eauto.
Qed.

Lemma evict_persists `{RetentionScorer Hist} (histories : Hist) size sh attempts budget b sh' a' b' :
  sample_and_evict_entry histories size sh attempts budget = Done (b, sh', a', b') → persistent lo owns d sh → persistent lo owns d sh'.
Proof.
  unfold sample_and_evict_entry. destruct (_ || _); [by intros [= _ <- _ _]|]. destruct (eviction_candidates _) as [|k0 cands]; [by intros [= _ <- _ _]|].
  destruct (sample_candidates _ _ _) as [start keys]. destruct (score_sample _ _ _ _) as [scored|]; [|done]. cbn [mbind outcome_bind]. intros Hrun Hp.
  assert (Hp1 := persistent_index sh (mkDiskEntryIndex (entries_by_key (entry_index sh)) (k0 :: cands) start (entries_gauge (entry_index sh)) (payload_bytes_gauge (entry_index sh))) Hp ltac:(done)).
  destruct (min_by _ _) as [[[key s] n]|]; [|by injection Hrun as _ <- _ _].
  destruct (remove_entry_from_index _ key) as [sh2|] eqn:Hr; [|done]. injection Hrun as _ <- _ _. by eapply remove_entry_persists.
Qed.

(** A chain that is extended from nothing starts at the first chunk of the shard. *)
Lemma no_chain_no_payload hi sh owners lag :
  shard_ok lo hi sh owners idle lag → chunks (metadata_pages sh) = [] → payload_chunks (allocator sh) = ∅.
Proof.
  intros Hok Hcs. apply map_empty. intros k. destruct (payload_chunks (allocator sh) !! k) as [[r n]|] eqn:Hk; [exfalso|done].
  assert (Hn := so_users _ _ _ _ _ _ Hok _ _ _ Hk). unfold idle in Hn. rewrite users_zero in Hn.
  - destruct (ao_held _ _ _ _ (proj1 (so_alloc _ _ _ _ _ _ Hok)) _ _ _ Hk). lia.
  - intros key e He. assert (Hs := so_slots _ _ _ _ _ _ Hok _ _ He). by rewrite Hcs in Hs.
Qed.

Lemma first_reservation hi sh lag al' r :
  shard_ok lo hi sh [] idle lag → chunks (metadata_pages sh) = [] → reserve_chunks (allocator sh) 1 = Some (al', r) →
  range_start (chunk_numbers r) = lo.
Proof.
  intros Hok Hcs Hr. assert (Hal := proj1 (so_alloc _ _ _ _ _ _ Hok)). rewrite app_nil_r in Hal.
  pose proof (reserve_chunks_spec lo hi _ _ 1 Hal) as Hspec. rewrite Hr in Hspec. destruct Hspec as (start & Hnum & _ & Hfree & Hmin & _).
  rewrite Hnum. cbn [range_start]. assert (Hno := no_chain_no_payload _ _ _ _ Hok Hcs).
  assert (Hpart : ∀ c, Z.b2z (free_b (chunk_count_by_start (free (allocator sh))) c) = Z.b2z (in_range c (mkRange lo hi))).
  { intros c. pose proof (ao_partition _ _ _ _ Hal c) as Hp. rewrite Hcs in Hp. unfold held_cover, cover in Hp. rewrite Hno, msum_empty in Hp.
    cbn [fmap list_fmap] in Hp. rewrite zsum_nil in Hp. lia. }
  assert (Hin : lo ≤ start < hi).
  { specialize (Hpart start). rewrite (Hfree start) in Hpart by lia. destruct (in_range start _) eqn:Hi; [|done]. by apply in_range_true in Hi. }
  assert (start ≤ lo); [|lia]. apply Hmin. intros c Hc. assert (c = lo) as -> by lia. specialize (Hpart lo).
  rewrite (proj2 (in_range_true lo (mkRange lo hi))) in Hpart by (cbn; lia). by destruct (free_b _ lo).
Qed.

Lemma ensure_persists hi sh owners lag count m al :
  shard_ok lo hi sh owners idle lag → (chunks (metadata_pages sh) = [] → owners = []) →
  ensure_free_slots (metadata_pages sh) count (allocator sh) = Done (Some (m, al)) → persistent lo owns d sh →
  persistent lo owns d (mkDiskCacheShard al (entry_index sh) m).
Proof.
  intros Hok Hown. rewrite ensure_free_slots_eq by (by eapply shard_chunks_bound). intros Hrun [Hm Hp Hk].
  destruct (_ <? _); [|by injection Hrun as <- <-]. destruct (reserve_chunks (allocator sh) 1) as [[al' r]|] eqn:Hr; [|done]. cbn in Hrun. injection Hrun as <- <-.
  pose proof (reserve_chunks_spec lo hi _ _ 1 (proj1 (so_alloc _ _ _ _ _ _ Hok))) as Hspec. rewrite Hr in Hspec. destruct Hspec as (_ & _ & _ & _ & _ & _ & Hpc & _).
  constructor; cbn [allocator metadata_pages entry_index]; [|intros k r' n; rewrite Hpc; apply Hp|done].
  apply grow_persistent; [done|]. intros Hcs. rewrite (Hown Hcs) in Hok. by eapply first_reservation.
Qed.

Lemma reserve_space_persists hi sh lag count required res sh' :
  shard_ok lo hi sh [] idle lag → 0 < count ≤ ENTRIES_PER_METADATA_CHUNK →
  reserve_space sh count required = Done (res, sh') → persistent lo owns d sh →
  persistent lo owns d sh' ∧ (is_Some res → chunks (metadata_pages sh') ≠ []).
Proof.
  intros Hok Hc. unfold reserve_space. destruct (ensure_shard_ok lo hi sh [] idle lag count Hok ltac:(lia)) as (slots & Hens & Hres). rewrite Hens. cbn [mbind outcome_bind].
  destruct slots as [[m al]|]; [|intros [= <- <-] ?; split; [done|by intros []]]. destruct Hres as [Hok1 Hfree]. intros Hrun Hp.
  assert (Hp1 := ensure_persists hi sh [] lag count m al Hok ltac:(done) Hens Hp).
  pose proof (reserve_chunks_spec lo hi al _ required (proj1 (so_alloc _ _ _ _ _ _ Hok1))) as Hspec.
  destruct (reserve_chunks al required) as [[al' r]|]; injection Hrun as <- <-; [|split; [done|by intros []]].
  destruct Hspec as (_ & _ & _ & _ & _ & _ & Hpc & _). split; [by apply (persistent_allocator (mkDiskCacheShard al (entry_index sh) m))|].
  intros _ Hnil. cbn in Hnil. assert (Hct := mo_count _ (so_meta _ _ _ _ _ _ Hok1)). cbn [metadata_pages] in Hct. rewrite Hct, Hnil in Hfree. change (total_free_slots []) with 0 in Hfree. lia.
Qed.

Lemma reserve_loop_persists hi `{RetentionScorer Hist} (histories : Hist) size fuel : ∀ sh entries required attempts budget res sh' es,
  shard_ok lo hi sh [] idle (0, 0) → entries ≠ [] → Z.of_nat (length entries) ≤ ENTRIES_PER_METADATA_CHUNK →
  reserve_loop histories size fuel sh entries required attempts budget = Done (res, sh', es) → persistent lo owns d sh →
  persistent lo owns d sh' ∧ (is_Some res → chunks (metadata_pages sh') ≠ []).
Proof.
  induction fuel as [|fuel IH]; intros sh entries required attempts budget res sh' es Hok Hne Hlen Hrun Hp; [done|]. cbn [reserve_loop] in Hrun.
  assert (Hpos : 0 < Z.of_nat (length entries)) by (destruct entries; [done|cbn; lia]).
  destruct (reserve_space_spec lo hi sh [] idle (0, 0) (Z.of_nat (length entries)) required Hok Hlen) as (r & sh1 & Hres & _ & Hok1).
  destruct (reserve_space_persists hi sh (0, 0) (Z.of_nat (length entries)) required r sh1 Hok ltac:(done) Hres Hp) as [Hp1 Hcs1]. rewrite Hres in Hrun. cbn [mbind outcome_bind] in Hrun.
  destruct r as [r|]; [by injection Hrun as <- <- _|].
  assert (Hnone : persistent lo owns d sh1 ∧ (is_Some (None : option ReservedChunks) → chunks (metadata_pages sh1) ≠ [])) by (split; [done|by intros []]).
  destruct (_ <? required); [by injection Hrun as <- <- _|].
  destruct (sample_and_evict_spec lo hi histories sh1 [] idle (0, 0) size attempts budget Hok1) as (sampled & sh2 & budget' & Hev & Hok2 & _ & Hsame & _).
  rewrite Hev in Hrun. cbn [mbind outcome_bind] in Hrun. destruct sampled; cbn [negb] in Hrun.
  2:{ injection Hrun as <- <- _. by destruct (Hsame eq_refl) as [-> _]. }
  destruct entries as [|w ws]; [done|]. cbn [head unwrap mbind outcome_bind tail] in Hrun.
  eapply (IH sh2); [done| | |exact Hrun|by eapply evict_persists]; [done|]. by rewrite length_cons in *.
Qed.

Lemma publish_entries_persists base ws : ∀ sh sh' outs n bytes,
  publish_entries sh base ws = Done (sh', outs, n, bytes) → Forall (λ w, owns (write_key w)) ws → persistent lo owns d sh → persistent lo owns d sh'.
Proof.
  induction ws as [|w ws IH]; intros sh sh' outs n bytes Hrun Hk Hp; cbn [publish_entries] in Hrun; [by injection Hrun as <- _ _ _|].
  apply Forall_cons in Hk as [Hw Hk]. destruct (entries_by_key (entry_index sh) !! write_key w) as [e|].
  - destruct (release_payload _ _) as [al|] eqn:Hr; [|done]. cbn [mbind outcome_bind] in Hrun.
    destruct (publish_entries (with_allocator al sh) base ws) as [[[[sh1 outs1] n1] b1]|] eqn:Hrest; [|done]. injection Hrun as <- _ _ _.
    eapply IH; [exact Hrest|done|]. destruct Hp as [Hm Hpk Hkeys]. constructor; [done|by eapply release_payload_packed|done].
  - unfold store_entry_metadata in Hrun. destruct (first_free_slot _ _ _) as [loc|]; [|done]. cbn [mbind outcome_bind] in Hrun.
    destruct (insert_entry _ _ _) as [sh1|] eqn:Hins; [|done]. cbn [mbind outcome_bind] in Hrun.
    destruct (publish_entries sh1 base ws) as [[[[sh2 outs2] n2] b2]|] eqn:Hrest; [|done]. injection Hrun as <- _ _ _.
    eapply IH; [exact Hrest|done|]. eapply insert_entry_persists; [exact Hins|done|]. destruct Hp as [Hm Hpk Hkeys].
    constructor; [by apply set_slot_persistent|done|done].
Qed.

Lemma publish_persists hi sh owners r ws sh' res :
  shard_ok lo hi sh owners idle (0, 0) → chunks (metadata_pages sh) ≠ [] → chunk_count r = 1 ∨ Z.of_nat (length ws) ≤ 1 →
  Forall (λ w, owns (write_key w)) ws → publish sh r ws = Done (sh', res) → persistent lo owns d sh → persistent lo owns d sh'.
Proof.
  intros Hok Hcs Hr Hk Hrun Hp. unfold publish in Hrun.
  destruct (ensure_free_slots _ _ _) as [slots|] eqn:Hens; [|done]. cbn [mbind outcome_bind] in Hrun.
  destruct slots as [[m al]|]; [|injection Hrun as <- _; by apply persistent_allocator].
  assert (Hp1 := ensure_persists hi sh owners (0, 0) _ m al Hok ltac:(by intros ?) Hens Hp).
  destruct (publish_entries _ _ _) as [[[[sh1 outs] n] bytes]|] eqn:Hpub; [|done]. cbn [mbind outcome_bind] in Hrun.
  assert (Hp2 : persistent lo owns d sh1).
  { eapply publish_entries_persists; [exact Hpub|by apply Forall_reverse|]. destruct Hp1 as [Hm Hpk Hkeys]. constructor; [done| |done]. by apply hold_packed. }
  destruct (n =? 0); injection Hrun as <- _; [done|]. by destruct Hp2.
Qed.
End shards.

(** ** Writing a payload *)
Section write.
Context `{Hasher} `{StorageFileOk F} `{RetentionScorer Hist} (histories : Hist) (size : nat) (lo hi : Z) (owns : Z → Prop).

Lemma write_payload_persists (f : F) sh counters bytes ws f' sh' counters' res outs :
  shard_ok lo hi sh [] idle (0, 0) → ws ≠ [] → Z.of_nat (length ws) ≤ ENTRIES_PER_METADATA_CHUNK →
  div_ceil (Z.of_nat (length bytes)) CHUNK_BYTES = 1 ∨ Z.of_nat (length ws) ≤ 1 → Forall (λ w, owns (write_key w)) ws →
  write_payload histories size f sh counters bytes ws = Done (f', sh', counters', res, outs) →
  persistent lo owns (contents f) sh → persistent lo owns (contents f') sh'.
Proof.
  intros Hok Hne Hlen Hone Hk Hrun Hp. unfold write_payload in Hrun. set (required := div_ceil _ CHUNK_BYTES) in *.
  destruct (reserve_loop_spec lo hi histories size (Z.to_nat MAX_EVICTION_ATTEMPTS + 1) sh [] ws required
     MAX_EVICTION_ATTEMPTS MAX_EVICTION_CHUNKS Hok Hne Hlen ltac:(done) ltac:(done)) as (r & sh1 & es & Hloop & Hsame & _ & Hres).
  destruct (reserve_loop_persists lo owns (contents f) hi histories size _ sh ws required _ _ r sh1 es Hok Hne Hlen Hloop Hp) as [Hp1 Hcs].
  rewrite Hloop in Hrun. cbn [mbind outcome_bind] in Hrun. destruct r as [r|]; [|by injection Hrun as <- <- _ _ _].
  destruct Hres as (Hok1 & Hcount & Hreq). specialize (Hcs ltac:(eauto)). assert (Hal1 := so_alloc _ _ _ _ _ _ Hok1). rewrite <-Permutation_middle in Hal1.
  destruct (owner_range _ _ _ _ _ (proj1 Hal1)) as (Hlo & Hhi & Hexcl). destruct (so_bounds _ _ _ _ _ _ Hok1) as (_ & _ & Hlo0 & _).
  pose proof (div_ceil_mul (Z.of_nat (length bytes)) CHUNK_BYTES ltac:(done)) as Hceil. fold required in Hceil. unfold chunk_count in Hcount.
  assert (Hwidth : range_end (disk_byte_range r) - range_start (disk_byte_range r) = required * CHUNK_BYTES) by (cbn; lia). rewrite Hwidth in Hrun.
  destruct (write_padded_ok f (range_start (disk_byte_range r)) (required * CHUNK_BYTES) bytes) as (f1 & wr & Hw & _ & Hout & _);
    [unfold disk_byte_range, CHUNK_BYTES; cbn; lia|apply chunk_aligned|apply chunk_aligned|lia|].
  rewrite Hw in Hrun. cbn [mbind outcome_bind] in Hrun.
  assert (Hp2 : persistent lo owns (contents f1) sh1).
  { destruct Hp1 as [Hm Hpk Hkeys]. constructor; [|done|done]. eapply meta_persistent_disk; [exact (mo_single _ (so_meta _ _ _ _ _ _ Hok1))|exact Hm|].
    intros a Ha. split; [|done]. assert (Hin : range_start (disk_byte_range r) ≤ a < range_start (disk_byte_range r) + required * CHUNK_BYTES).
    { apply dec_stable. intros Hn. apply Ha, Hout. lia. }
    cbn in Hin. destruct (Hexcl (a / CHUNK_BYTES)) as (_ & Hz & _).
    { apply in_range_true. split; [apply Z.div_le_lower_bound; [done|]; lia|apply Z.div_lt_upper_bound; [done|]; lia]. }
    unfold cover in *. rewrite zsum_app in Hz. change (zsum _ []) with 0 in Hz. lia. }
  assert (Hes : Forall (λ w, owns (write_key w)) es).
  { clear -Hsame Hk. induction Hsame as [|w w' ws ws' Hw _ IH]; [done|]. apply Forall_cons in Hk as [? ?]. constructor; [by rewrite Hw|auto]. }
  destruct wr as [[]|err]; [|injection Hrun as <- <- _ _ _; by apply persistent_allocator].
  destruct (publish sh1 r es) as [[sh2 pub]|] eqn:Hpub; [|done]. cbn [mbind outcome_bind] in Hrun.
  assert (Hp3 : persistent lo owns (contents f1) sh2).
  { eapply (publish_persists lo owns _ hi sh1 [r] r es); [exact Hok1|done| |done|exact Hpub|done].
    rewrite <-(Forall2_length _ _ _ Hsame). unfold chunk_count. destruct Hone; [left; lia|by right]. }
  destruct pub as [[outs1 n]|]; by injection Hrun as <- <- _ _ _.
Qed.
End write.

(** ** Metadata rounds and reopening *)
Lemma msum_fmap `{Countable K} {A B} (g : K → B → Z) (h : A → B) (m : gmap K A) : msum g (h <$> m) = msum (λ k x, g k (h x)) m.
Proof.
  induction m as [|k x m Hnone IH] using map_ind; [by rewrite fmap_empty, !msum_empty|].
  rewrite fmap_insert, !msum_insert by (rewrite ?lookup_fmap, ?Hnone; done). by rewrite IH.
Qed.

Lemma same_index_users k sh sh' : same_index sh sh' → users k (entries_by_key (entry_index sh')) = users k (entries_by_key (entry_index sh)).
Proof.
  intros Hs. assert (Hu : ∀ m, users k m = msum (λ _ c, Z.b2z (bool_decide (c = k))) (entry_chunk <$> m)) by (intros m; unfold users; by rewrite msum_fmap).
  rewrite !Hu. f_equal. apply map_eq. intros key. rewrite !lookup_fmap.
  specialize (Hs key). destruct (entries_by_key (entry_index sh) !! key), (entries_by_key (entry_index sh') !! key); cbn in *; try done. f_equal.
  injection Hs as _ Ha _ _. unfold entry_chunk. by rewrite Ha.
Qed.

Section rounds.
Context `{Hasher} `{StorageFileOk F} (lo hi : Z) (owns : Z → Prop).

(** Nothing of the chain waits to be written: then all of it is on the disk. *)
Definition settled (m : MetadataChunks) : Prop :=
  dirty_pages m = [] ∧ ∀ i c, chunks m !! i = Some c → needs_full_write c = false.

Lemma settled_written (d : disk) sh :
  persistent lo owns d sh → settled (metadata_pages sh) → chunks (metadata_pages sh) ≠ [] → written_out lo d sh.
Proof.
  intros [[Hs _ Hf] _ _] [Hd Hc] Hne. split.
  - destruct (chunks (metadata_pages sh)) as [|c cs]; [done|]. by exists c, cs.
  - intros i c Hi p Hp. apply (Hs i c p Hi Hp (Hc i c Hi)). rewrite Hd. apply not_elem_of_nil.
Qed.

(** A round that succeeds leaves nothing to be written. *)
Lemma round_persists (f f' : F) sh m :
  shard_ok lo hi sh [] idle (0, 0) → persistent lo owns (contents f) sh →
  write_dirty_metadata_pages f (metadata_pages sh) = Done (f', m, Ok ()) →
  let sh' := mkDiskCacheShard (allocator sh) (entry_index sh) m in
  persistent lo owns (contents f') sh' ∧ settled m.
Proof.
  intros Hok [[Hs Hm Hf] Hp Hk] Hrun sh'. destruct (shard_chunks_ok _ _ _ _ Hok) as [Hcs Hlen].
  destruct (write_round_spec f (metadata_pages sh) (so_meta _ _ _ _ _ _ Hok) Hcs Hlen) as (f1 & m1 & r & Hrun1 & _ & Hm1 & Hsame & Hd1 & Hnfw & Hdisk & _).
  pose proof (write_round_frame _ _ _ _ _ (so_meta _ _ _ _ _ _ Hok) Hcs Hlen Hrun) as Hframe.
  rewrite Hrun in Hrun1. injection Hrun1 as <- <- <-. destruct (Hdisk eq_refl Hs) as [Hs1 Hall].
  assert (Hclean : ∀ i c, chunks m !! i = Some c → needs_full_write c = false).
  { intros i c Hi. destruct (needs_full_write c) eqn:Hn; [|done]. rewrite <-Hn. apply (Hall (Hm i c (Hnfw i c Hi Hn) Hn) i c Hi). }
  assert (Hfirst : first_chunk <$> chunks m = first_chunk <$> chunks (metadata_pages sh)).
  { assert (Hx := f_equal (fmap first_chunk) Hsame). by rewrite <-!list_fmap_compose in Hx. }
  assert (Hhead : match chunks m with [] => zero_chunk (contents f') (lo * CHUNK_BYTES) | c :: _ => first_chunk c = lo end).
  { destruct (chunks m) as [|c cs], (chunks (metadata_pages sh)) as [|c0 cs0]; try done; cbn in Hfirst; [|congruence].
    intros a Ha. rewrite <-(Hf a Ha). apply dec_stable. intros Hne. destruct (Hframe a Hne) as (c & Hc & _). by apply elem_of_nil in Hc. }
  split; [|done]. constructor; cbn [metadata_pages allocator entry_index]; [|done|done].
  constructor; [done| |done]. intros i c Hi Hn. by rewrite (Hclean i c Hi) in Hn.
Qed.

(** What a reopened shard is, compared with the one that was written. *)
Lemma reopened_persists (d : disk) sh sh' :
  shard_ok lo hi sh [] idle (0, 0) → shard_ok lo hi sh' [] idle (0, 0) → persistent lo owns d sh → written_out lo d sh →
  same_index sh sh' → chunks (metadata_pages sh') = reload <$> chunks (metadata_pages sh) → holds_within (allocator sh) (allocator sh') →
  persistent lo owns d sh'.
Proof.
  intros Hok Hok' [_ Hp Hk] [(c0 & cs0 & Hc0 & Hfirst) Hdisk] Hs Hcs Hin. constructor.
  - constructor; [| |by rewrite Hcs, Hc0].
    + intros i c p Hi Hp0 _ _. rewrite Hcs, list_lookup_fmap in Hi. apply fmap_Some in Hi as (c1 & Hi & ->). exact (Hdisk i c1 Hi p Hp0).
    + intros i c Hi Hn. rewrite Hcs, list_lookup_fmap in Hi. by apply fmap_Some in Hi as (c1 & Hi & ->).
  - intros k r n Hr. destruct (Hin _ _ _ Hr) as (r0 & n0 & Hr0 & Hend).
    destruct (ao_held _ _ _ _ (proj1 (so_alloc _ _ _ _ _ _ Hok')) _ _ _ Hr) as (Hst & Hc & _).
    destruct (ao_held _ _ _ _ (proj1 (so_alloc _ _ _ _ _ _ Hok)) _ _ _ Hr0) as (Hst0 & _ & _). unfold chunk_count in *.
    destruct (Hp _ _ _ Hr0) as [Hone|Hone]; [left; unfold chunk_count in *; lia|right].
    rewrite (so_users _ _ _ _ _ _ Hok' _ _ _ Hr), (same_index_users _ _ _ Hs). by rewrite (so_users _ _ _ _ _ _ Hok _ _ _ Hr0) in Hone.
  - intros key [e He]. apply Hk. specialize (Hs key). rewrite He in Hs. destruct (entries_by_key (entry_index sh) !! key); [eauto|done].
Qed.

Lemma new_shard_persists (d : disk) : zero_chunk d (lo * CHUNK_BYTES) → persistent lo owns d (new_shard lo hi).
Proof.
  intros Hz. constructor; [constructor|..]; cbn.
  - by intros i c p Hi.
  - by intros i c Hi.
  - done.
  - intros k r n. cbn. by rewrite lookup_empty.
  - intros key [e He]. cbn in He. by rewrite lookup_empty in He.
Qed.
End rounds.
