(* ===== verification/Admission.v ===== *)
(** * Admission of payload reads and of writes
    ([uring/read_admission.rs], [uring/write_admission.rs])

    Payload reads share 64 permits.  A read that finds none waits in a queue;
    when 64 reads wait, every waiter that has not been asked yet is notified to
    ask its caller whether to fall through to the source.  Writes are paced by
    their byte length while reads wait for the channel.

    Tokio's semaphore is its permit count; which waiter it serves is the [turn]
    argument of a poll.  A caller's one-shot callback is its answer.  [Instant]
    and [Duration] values are nanoseconds. *)

From S2P Require Import Prelude.

Definition MAX_IN_FLIGHT_READS : nat := 64.

(** [PayloadReadQueue]; [notifications] are the notifications sent and not yet received. *)
Record PayloadReadQueue := mkPayloadReadQueue {
  read_permits : nat;
  waiting_reads : list (Z * bool);
  notifications : gset Z
}.
Definition new_PayloadReadQueue : PayloadReadQueue := mkPayloadReadQueue MAX_IN_FLIGHT_READS [] ∅.

(** [WaitingPayloadRead] *)
Record WaitingPayloadRead := mkWaitingPayloadRead { fallthrough_notification : Z; is_queued : bool }.

(** [PayloadReadQueue::enqueue] *)
Definition enqueue (q : PayloadReadQueue) (id : Z) : PayloadReadQueue * WaitingPayloadRead :=
  let waiting := waiting_reads q ++ [(id, false)] in
  (if decide (MAX_IN_FLIGHT_READS ≤ length waiting)%nat
   then mkPayloadReadQueue (read_permits q) ((λ w, (w.1, true)) <$> waiting)
          (notifications q ∪ list_to_set (fst <$> filter (λ w, w.2 = false) waiting))
   else mkPayloadReadQueue (read_permits q) waiting (notifications q),
   mkWaitingPayloadRead id true).

(** [WaitingPayloadRead::remove], also run by its [Drop]. *)
Definition remove (q : PayloadReadQueue) (w : WaitingPayloadRead) : outcome (PayloadReadQueue * WaitingPayloadRead * bool) :=
  if is_queued w then
    index ← unwrap (position (λ x, x.1 =? fallthrough_notification w) (waiting_reads q));
    '(removed, waiting) ← swap_remove index (waiting_reads q);
    Done (mkPayloadReadQueue (read_permits q) waiting (notifications q),
          mkWaitingPayloadRead (fallthrough_notification w) false, removed.2)
  else Done (q, w, false).

(** The state of a pending [acquire_permit]: its queue position and the callback
    as long as it has not been called. *)
Record AcquireState := mkAcquireState { waiting_read : WaitingPayloadRead; should_fall_through : option bool }.

Definition with_permits (n : nat) (q : PayloadReadQueue) : PayloadReadQueue :=
  mkPayloadReadQueue n (waiting_reads q) (notifications q).

(** [acquire_permit] up to its first suspension: admitted at once, or queued. *)
Definition start_acquire (q : PayloadReadQueue) (id : Z) (callback : bool) : PayloadReadQueue * option AcquireState :=
  match read_permits q with
  | S n => (with_permits n q, None)
  | O => let '(q, w) := enqueue q id in (q, Some (mkAcquireState w (Some callback)))
  end.

(** One poll of [acquire_permit] has two parts, and other callers run between
    them.  [inl] leaves the caller pending, [inr true] hands out a permit and
    [inr false] is [None]; returning drops the waiting read.

    The first part polls the notification as long as the callback is left.
    Receiving it calls the callback. *)
Definition poll_notification (q : PayloadReadQueue) (st : AcquireState) : outcome (PayloadReadQueue * (AcquireState + bool)) :=
  let id := fallthrough_notification (waiting_read st) in
  match should_fall_through st with
  | Some answer =>
      if decide (id ∈ notifications q) then
        let q := mkPayloadReadQueue (read_permits q) (waiting_reads q) (notifications q ∖ {[ id ]}) in
        if answer then
          '(q, _, _) ← remove q (waiting_read st);
          Done (q, inr false)
        else Done (q, inl (mkAcquireState (waiting_read st) None))
      else Done (q, inl st)
  | None => Done (q, inl st)
  end.

(** The second part polls the semaphore and, with a permit, leaves the queue.  A
    check scheduled since the first part is made now; falling through drops the
    permit. *)
Definition poll_permit (q : PayloadReadQueue) (st : AcquireState) (turn : bool)
  : outcome (PayloadReadQueue * (AcquireState + bool)) :=
  match read_permits q with
  | S n =>
      if turn then
        let q := with_permits n q in
        '(q, _, fallthrough_scheduled) ← remove q (waiting_read st);
        if fallthrough_scheduled && default false (should_fall_through st)
        then Done (with_permits (S (read_permits q)) q, inr false)
        else Done (q, inr true)
      else Done (q, inl st)
  | O => Done (q, inl st)
  end.

(** Dropping a pending [acquire_permit], and dropping a permit. *)
Definition cancel_acquire (q : PayloadReadQueue) (st : AcquireState) : outcome PayloadReadQueue :=
  '(q, _, _) ← remove q (waiting_read st); Done q.
Definition release_permit (q : PayloadReadQueue) : PayloadReadQueue := with_permits (S (read_permits q)) q.

(** ** Any number of callers *)
Record AdmissionWorld := mkAdmissionWorld {
  queue : PayloadReadQueue;
  callers : gmap Z AcquireState;
  admitted : gset Z;
  next_id : Z
}.
Definition new_world : AdmissionWorld := mkAdmissionWorld new_PayloadReadQueue ∅ ∅ 0.

(** The outcome of a poll by caller [id]. *)
Definition polled (w : AdmissionWorld) (id : Z) (q : PayloadReadQueue) (r : AcquireState + bool) : AdmissionWorld :=
  match r with
  | inl st => mkAdmissionWorld q (<[id := st]> (callers w)) (admitted w) (next_id w)
  | inr granted => mkAdmissionWorld q (delete id (callers w)) (if granted then admitted w ∪ {[ id ]} else admitted w) (next_id w)
  end.

(** Interleavings of any callers; the parts of a poll are steps of their own. *)
Inductive admission_step : AdmissionWorld → AdmissionWorld → Prop :=
  | step_admit w callback q :
      start_acquire (queue w) (next_id w) callback = (q, None) →
      admission_step w (mkAdmissionWorld q (callers w) (admitted w ∪ {[ next_id w ]}) (next_id w + 1))
  | step_wait w callback q st :
      start_acquire (queue w) (next_id w) callback = (q, Some st) →
      admission_step w (mkAdmissionWorld q (<[next_id w := st]> (callers w)) (admitted w) (next_id w + 1))
  | step_notification w id st q r :
      callers w !! id = Some st → poll_notification (queue w) st = Done (q, r) →
      admission_step w (polled w id q r)
  | step_permit w id st turn q r :
      callers w !! id = Some st → poll_permit (queue w) st turn = Done (q, r) →
      admission_step w (polled w id q r)
  | step_cancel w id st q :
      callers w !! id = Some st → cancel_acquire (queue w) st = Done q →
      admission_step w (mkAdmissionWorld q (delete id (callers w)) (admitted w) (next_id w))
  | step_release w id :
      id ∈ admitted w →
      admission_step w (mkAdmissionWorld (release_permit (queue w)) (callers w) (admitted w ∖ {[ id ]}) (next_id w)).

(** A waiter that was scheduled is notified or has been asked; one that was not
    has neither; and from 64 waiters on all of them are scheduled. *)
Record admission_ok (w : AdmissionWorld) : Prop := mkAdmissionOk {
  ad_permits : (read_permits (queue w) + size (admitted w))%nat = MAX_IN_FLIGHT_READS;
  ad_ids : ∀ id, id ∈ admitted w ∨ id ∈ notifications (queue w) ∨ is_Some (callers w !! id) → id < next_id w;
  ad_apart : ∀ id, id ∈ admitted w → callers w !! id = None;
  ad_NoDup : NoDup (fst <$> waiting_reads (queue w));
  ad_queued : ∀ id, is_Some (callers w !! id) ↔ id ∈ fst <$> waiting_reads (queue w);
  ad_callers : ∀ id st, callers w !! id = Some st → waiting_read st = mkWaitingPayloadRead id true;
  ad_flags : ∀ id s st, (id, s) ∈ waiting_reads (queue w) → callers w !! id = Some st →
    if s : bool then is_Some (should_fall_through st) → id ∈ notifications (queue w)
    else (id ∉ notifications (queue w)) ∧ is_Some (should_fall_through st);
  ad_pressure : (MAX_IN_FLIGHT_READS ≤ length (waiting_reads (queue w)))%nat → Forall (λ x, x.2 = true) (waiting_reads (queue w))
}.

(** ** Lemmas *)
Lemma remove_spec q id s :
  NoDup (fst <$> waiting_reads q) → (id, s) ∈ waiting_reads q →
  ∃ waiting, remove q (mkWaitingPayloadRead id true)
             = Done (mkPayloadReadQueue (read_permits q) waiting (notifications q), mkWaitingPayloadRead id false, s)
    ∧ waiting_reads q ≡ₚ (id, s) :: waiting.
Proof.
  intros Hnd (i & Hi)%list_elem_of_lookup. unfold remove. cbn [is_queued fallthrough_notification].
  destruct (position _ _) as [j|] eqn:Hp.
  2:{ rewrite position_None in Hp. specialize (Hp (id, s) (list_elem_of_lookup_2 _ _ _ Hi)). cbn in Hp. lia. }
  pose proof Hp as Hp'. apply position_Some in Hp' as [([id' s'] & Hj & Heq) _]. cbn in Heq. bool_to_prop. subst id'.
  assert (j = i) as ->.
  { eapply NoDup_lookup; [exact Hnd| |]; by rewrite list_lookup_fmap, ?Hi, ?Hj. }
  destruct (swap_remove_done _ _ _ Hi) as [[x waiting] Hs]. cbn [unwrap mbind outcome_bind]. rewrite Hs.
  assert (x = (id, s)) as -> by (apply swap_remove_inv in Hs as (y & Hx & _); congruence).
  exists waiting. split; [done|]. by apply swap_remove_perm in Hs.
Qed.

(** The parts of the invariant that concern the waiting callers. *)
Record waiting_ok (q : PayloadReadQueue) (cs : gmap Z AcquireState) : Prop := mkWaitingOk {
  wo_NoDup : NoDup (fst <$> waiting_reads q);
  wo_queued : ∀ id, is_Some (cs !! id) ↔ id ∈ fst <$> waiting_reads q;
  wo_callers : ∀ id st, cs !! id = Some st → waiting_read st = mkWaitingPayloadRead id true;
  wo_flags : ∀ id s st, (id, s) ∈ waiting_reads q → cs !! id = Some st →
    if s : bool then is_Some (should_fall_through st) → id ∈ notifications q
    else (id ∉ notifications q) ∧ is_Some (should_fall_through st);
  wo_pressure : (MAX_IN_FLIGHT_READS ≤ length (waiting_reads q))%nat → Forall (λ x, x.2 = true) (waiting_reads q)
}.

Lemma admission_waiting w : admission_ok w → waiting_ok (queue w) (callers w).
Proof. intros []. by split. Qed.

Lemma waiting_permits q cs n : waiting_ok q cs → waiting_ok (with_permits n q) cs.
Proof. intros []. by split. Qed.

Lemma caller_flag q cs id st : waiting_ok q cs → cs !! id = Some st → ∃ s, (id, s) ∈ waiting_reads q.
Proof.
  intros Hok Hid. assert (Hin : id ∈ fst <$> waiting_reads q) by (apply (wo_queued _ _ Hok); eauto).
  apply list_elem_of_fmap in Hin as ([id' s] & -> & Hin). eauto.
Qed.

(** Removing a caller from the queue. *)
Lemma remove_waiting q cs id st :
  waiting_ok q cs → cs !! id = Some st →
  ∃ q' s, remove q (waiting_read st) = Done (q', mkWaitingPayloadRead id false, s) ∧ (id, s) ∈ waiting_reads q
    ∧ waiting_ok q' (delete id cs) ∧ read_permits q' = read_permits q ∧ notifications q' = notifications q.
Proof.
  intros Hok Hid. destruct (caller_flag _ _ _ _ Hok Hid) as [s Hs]. rewrite (wo_callers _ _ Hok _ _ Hid).
  destruct Hok as [Hnd Hq Hcs Hfl Hpr]. destruct (remove_spec q id s Hnd Hs) as (waiting & Hrun & Hperm).
  eexists _, s. split; [exact Hrun|]. split; [done|]. split; [|done]. rewrite Hperm in Hnd, Hpr.
  assert (Hin : ∀ x, x ∈ waiting → x ∈ waiting_reads q) by (intros x Hx; rewrite Hperm; by right).
  apply NoDup_cons in Hnd as [Hnotin Hnd].
  split; cbn [waiting_reads notifications].
  - done.
  - intros k. destruct (decide (k = id)) as [->|Hne].
    + rewrite lookup_delete_eq. split; [by intros []|done].
    + rewrite lookup_delete_ne by done. rewrite Hq, Hperm. rewrite fmap_cons, elem_of_cons. cbn. naive_solver.
  - intros k st' Hk. apply lookup_delete_Some in Hk as [_ Hk]. by apply Hcs.
  - intros k s' st' Hk Hst. apply lookup_delete_Some in Hst as [_ Hst]. apply (Hfl _ _ _ (Hin _ Hk) Hst).
  - intros Hlen. rewrite Forall_cons in Hpr. apply Hpr. cbn. lia.
Qed.

Definition after_poll (id : Z) (r : AcquireState + bool) (cs : gmap Z AcquireState) : gmap Z AcquireState :=
  match r with inl st => <[id := st]> cs | inr _ => delete id cs end.
Definition permit_taken (r : AcquireState + bool) : nat := match r with inr true => 1 | _ => 0 end.

(** What either part of a poll does: it never panics, keeps the queue consistent
    and accounts for the permits. *)
Definition poll_ok (q : PayloadReadQueue) (cs : gmap Z AcquireState) (id : Z) (q' : PayloadReadQueue) (r : AcquireState + bool) : Prop :=
  waiting_ok q' (after_poll id r cs) ∧ notifications q' ⊆ notifications q
  ∧ (read_permits q' + permit_taken r)%nat = read_permits q.

Lemma poll_unchanged q cs id st : waiting_ok q cs → cs !! id = Some st → poll_ok q cs id q (inl st).
Proof. intros Hok Hid. split_and!; [cbn; by rewrite insert_id|done|cbn; lia]. Qed.

(** Receiving the notification, before the callback is called. *)
Lemma received_ok q cs id st :
  waiting_ok q cs → cs !! id = Some st →
  waiting_ok (mkPayloadReadQueue (read_permits q) (waiting_reads q) (notifications q ∖ {[ id ]}))
             (<[id := mkAcquireState (mkWaitingPayloadRead id true) None]> cs) ∨ ∃ s, (id, s) ∈ waiting_reads q ∧ s = false.
Proof.
  intros Hok Hid. destruct (caller_flag _ _ _ _ Hok Hid) as [[] Hs]; [left|by eauto].
  destruct Hok as [Hnd Hq Hcs Hfl Hpr]. split; cbn [waiting_reads notifications]; try done.
  - intros k. rewrite lookup_insert_is_Some, <-Hq. destruct (decide (id = k)) as [<-|Hne]; naive_solver.
  - intros k st' [[<- <-]|[Hne Hk]]%lookup_insert_Some; [done|by apply Hcs].
  - intros k s st' Hk [[<- <-]|[Hne Hst]]%lookup_insert_Some.
    + assert (s = true) as ->; [|by intros []].
      apply list_elem_of_lookup in Hs as [i Hi], Hk as [j Hj]. assert (i = j) as <-; [|congruence].
      eapply NoDup_lookup; [exact Hnd| |]; by rewrite list_lookup_fmap, ?Hi, ?Hj.
    + specialize (Hfl _ _ _ Hk Hst). destruct s; set_solver.
Qed.

Lemma poll_notification_ok q cs id st :
  waiting_ok q cs → cs !! id = Some st →
  ∃ q' r, poll_notification q st = Done (q', r) ∧ poll_ok q cs id q' r
    ∧ match r with
      | inl st' => id ∈ notifications q ∨ should_fall_through st = None →
          st' = mkAcquireState (mkWaitingPayloadRead id true) None ∧ should_fall_through st ≠ Some true
      | inr granted => granted = false ∧ should_fall_through st = Some true ∧ id ∈ notifications q
      end.
Proof.
  intros Hok Hid. unfold poll_notification. assert (Hw := wo_callers _ _ Hok _ _ Hid). rewrite Hw. cbn [fallthrough_notification].
  assert (Hsame := poll_unchanged _ _ _ _ Hok Hid).
  destruct (should_fall_through st) as [answer|] eqn:Hcb.
  2:{ exists q, (inl st). split_and!; [done|done|]. intros _. split; [|done]. destruct st. cbn in *. by subst. }
  case_decide as Hn; [|exists q, (inl st); split_and!; [done|done|by intros [?|?]]].
  destruct (received_ok _ _ _ _ Hok Hid) as [Hrec|(s & Hs & ->)].
  2:{ destruct (wo_flags _ _ Hok _ _ _ Hs Hid) as [Hno _]. done. }
  destruct answer.
  - destruct (remove_waiting _ _ id _ Hrec (lookup_insert_eq _ _ _)) as (q' & s & Hrun & _ & Hok' & Hp & Hno).
    cbn [waiting_read] in Hrun. rewrite Hrun. cbn [mbind outcome_bind]. exists q', (inr false). split; [done|]. split; [|done].
    rewrite delete_insert_eq in Hok'. split_and!; [done|rewrite Hno; cbn; set_solver|cbn; rewrite Hp; cbn; lia].
  - eexists _, (inl _). split; [done|]. split; [|done]. split_and!; [done|cbn; set_solver|cbn; lia].
Qed.

Lemma poll_permit_ok q cs id st turn :
  waiting_ok q cs → cs !! id = Some st →
  ∃ q' r s, poll_permit q st turn = Done (q', r) ∧ poll_ok q cs id q' r ∧ (id, s) ∈ waiting_reads q
    ∧ match r with
      | inl st' => st' = st
      | inr granted => granted = negb (s && default false (should_fall_through st))
      end.
Proof.
  intros Hok Hid. unfold poll_permit. destruct (caller_flag _ _ _ _ Hok Hid) as [s0 Hs0].
  assert (Hsame := poll_unchanged _ _ _ _ Hok Hid).
  destruct (read_permits q) as [|n] eqn:Hn; [by exists q, (inl st), s0|]. destruct turn; [|by exists q, (inl st), s0].
  destruct (remove_waiting _ _ _ _ (waiting_permits _ _ n Hok) Hid) as (q' & s & Hrun & Hin & Hok' & Hp & Hno).
  rewrite Hrun. cbn [mbind outcome_bind]. cbn [with_permits read_permits notifications] in Hp, Hno. destruct (s && _) eqn:Hs.
  - eexists _, (inr false), s. split; [done|]. split; [|by rewrite Hs]. split_and!; [by apply waiting_permits|cbn; by rewrite Hno|cbn; rewrite Hp, Hn; lia].
  - eexists _, (inr true), s. split; [done|]. split; [|by rewrite Hs]. split_and!; [done|by rewrite Hno|cbn; rewrite Hp, Hn; lia].
Qed.

(** [enqueue] of a new caller. *)
Lemma enqueue_ok q cs id callback q' w :
  waiting_ok q cs → cs !! id = None → id ∉ notifications q → enqueue q id = (q', w) →
  w = mkWaitingPayloadRead id true ∧ waiting_ok q' (<[id := mkAcquireState w (Some callback)]> cs)
  ∧ read_permits q' = read_permits q
  ∧ ∀ k, k ∈ notifications q' → k ∈ notifications q ∨ k = id ∨ is_Some (cs !! k).
Proof.
  intros [Hnd Hq Hcs Hfl Hpr] Hid Hnot Heq. unfold enqueue in Heq. injection Heq as Hq' <-. split; [done|].
  set (w := mkWaitingPayloadRead id true) in *. set (waiting := waiting_reads q ++ [(id, false)]) in *.
  assert (Hnew : id ∉ fst <$> waiting_reads q) by (rewrite <-Hq, Hid; by intros []).
  assert (Hfst : fst <$> waiting = (fst <$> waiting_reads q) ++ [id]) by (unfold waiting; by rewrite fmap_app).
  assert (Hnd' : NoDup (fst <$> waiting)).
  { rewrite Hfst. apply NoDup_app. split_and!; [done| |apply NoDup_singleton]. intros x Hx ->%list_elem_of_singleton. done. }
  assert (Hq2 : ∀ k, is_Some (<[id := mkAcquireState w (Some callback)]> cs !! k) ↔ k ∈ fst <$> waiting).
  { intros k. rewrite Hfst, elem_of_app, list_elem_of_singleton, <-Hq, lookup_insert_is_Some. destruct (decide (id = k)); naive_solver. }
  assert (Hcs2 : ∀ k st, <[id := mkAcquireState w (Some callback)]> cs !! k = Some st → waiting_read st = mkWaitingPayloadRead k true).
  { intros k st [[<- <-]|[_ Hk]]%lookup_insert_Some; [done|by apply Hcs]. }
  assert (Hfl2 : ∀ k s st, (k, s) ∈ waiting → <[id := mkAcquireState w (Some callback)]> cs !! k = Some st →
    if s : bool then is_Some (should_fall_through st) → k ∈ notifications q else (k ∉ notifications q) ∧ is_Some (should_fall_through st)).
  { intros k s st [Hk|[= -> ->]%list_elem_of_singleton]%elem_of_app Hst.
    - apply lookup_insert_Some in Hst as [[<- _]|[_ Hst]]; [|by apply (Hfl _ _ _ Hk)].
      exfalso. apply Hnew. by apply (list_elem_of_fmap_2 fst) in Hk.
    - rewrite lookup_insert_eq in Hst. injection Hst as <-. cbn. eauto. }
  subst q'. case_decide as Hlen.
  2:{ split_and!; [|done|cbn; auto]. split; cbn [waiting_reads notifications]; try done. }
  split_and!; [|done|].
  - split; cbn [waiting_reads notifications].
    + by rewrite <-list_fmap_compose.
    + intros k. by rewrite <-list_fmap_compose.
    + done.
    + intros k s st ([k' s'] & [= -> ->] & Hk)%list_elem_of_fmap Hst. cbn. specialize (Hfl2 _ _ _ Hk Hst). intros Hcb.
      destruct s'; [apply elem_of_union_l; auto|]. apply elem_of_union_r, elem_of_list_to_set, list_elem_of_fmap.
      exists (k', false). split; [done|]. by apply list_elem_of_filter.
    + intros _. apply Forall_fmap, Forall_forall. done.
  - cbn. intros k [?|(x & -> & [_ Hx]%list_elem_of_filter)%elem_of_list_to_set%list_elem_of_fmap]%elem_of_union; [auto|].
    right. apply (list_elem_of_fmap_2 fst) in Hx. rewrite Hfst in Hx. apply elem_of_app in Hx as [Hx|Hx%list_elem_of_singleton]; [right; by apply Hq|auto].
Qed.

(** ** The invariant holds in every reachable state *)
Lemma polled_ok w id st q r :
  admission_ok w → callers w !! id = Some st → poll_ok (queue w) (callers w) id q r → admission_ok (polled w id q r).
Proof.
  intros Hok Hid ([Hnd Hq Hcs Hfl Hpr] & Hno & Hp). destruct Hok as [Hperm Hids Hap _ _ _ _ _].
  assert (Hidlt : id < next_id w) by (apply Hids; eauto).
  assert (Hnew : id ∉ admitted w) by (intros Hin; apply Hap in Hin; congruence).
  destruct r as [st'|[]]; cbn in *; split; cbn; try done.
  - lia.
  - intros k [Hk|[Hk|Hk]]; [auto|set_solver|]. apply lookup_insert_is_Some in Hk as [<-|[_ Hk]]; auto.
  - intros k Hk. rewrite lookup_insert_ne by (by intros ->). auto.
  - rewrite size_union, size_singleton by set_solver. lia.
  - intros k [[Hk| ->%elem_of_singleton]%elem_of_union|[Hk|[x Hk]]]; [auto|done|set_solver|]. apply lookup_delete_Some in Hk as [_ Hk]. eauto.
  - intros k [Hk| ->%elem_of_singleton]%elem_of_union; [|apply lookup_delete_eq].
    rewrite lookup_delete_ne by (by intros ->). auto.
  - lia.
  - intros k [Hk|[Hk|[x Hk]]]; [auto|set_solver|]. apply lookup_delete_Some in Hk as [_ Hk]. eauto.
  - intros k Hk. rewrite lookup_delete_ne by (by intros ->). auto.
Qed.

Lemma new_world_ok : admission_ok new_world.
Proof.
  split; cbn; try done; try set_solver; [|constructor|].
  - intros id [Hid|[Hid|[x Hid]]]; [set_solver..|]. by rewrite lookup_empty in Hid.
  - intros id. rewrite lookup_empty. split; [by intros []|by intros ?%elem_of_nil].
Qed.

Lemma admission_step_ok w w' : admission_step w w' → admission_ok w → admission_ok w'.
Proof.
  intros Hstep Hok. assert (Hwo := admission_waiting _ Hok). destruct Hstep.
  - unfold start_acquire in *. destruct (read_permits (queue w)) as [|n] eqn:Hn; [by destruct (enqueue _ _)|].
    simplify_eq. destruct Hok as [Hp Hids Hap ? ? ? ? ?]. assert (Hnew : next_id w ∉ admitted w) by (intros Hin; specialize (Hids (next_id w)); naive_solver lia).
    split; cbn; try done.
    + rewrite size_union, size_singleton by set_solver. lia.
    + intros k [[Hk| ->%elem_of_singleton]%elem_of_union|Hk]; [|lia|]; specialize (Hids k); naive_solver lia.
    + intros k [Hk| ->%elem_of_singleton]%elem_of_union; [auto|]. apply eq_None_not_Some. intros Hk. specialize (Hids (next_id w)). naive_solver lia.
  - unfold start_acquire in *. destruct (read_permits (queue w)) as [|n] eqn:Hn; [|done].
    destruct (enqueue _ _) as [q0 w0] eqn:He. simplify_eq. destruct Hok as [Hp Hids Hap ? ? ? ? ?].
    assert (Hfresh : callers w !! next_id w = None ∧ next_id w ∉ notifications (queue w)).
    { split; [apply eq_None_not_Some|]; intros Hk; specialize (Hids (next_id w)); naive_solver lia. }
    destruct (enqueue_ok _ _ _ callback _ _ Hwo (proj1 Hfresh) (proj2 Hfresh) He) as (_ & [] & Hperm & Hno).
    split; cbn; try done.
    + lia.
    + intros k [Hk|[Hk|Hk]]; [specialize (Hids k); naive_solver lia| |].
      * destruct (Hno _ Hk) as [?|[->|?]]; [specialize (Hids k); naive_solver lia|lia|specialize (Hids k); naive_solver lia].
      * apply lookup_insert_is_Some in Hk as [<-|[_ Hk]]; [lia|specialize (Hids k); naive_solver lia].
    + intros k Hk. rewrite lookup_insert_ne; [auto|]. intros <-. specialize (Hids (next_id w)). naive_solver lia.
  - destruct (poll_notification_ok _ _ _ _ Hwo H) as (q' & r' & Hrun & Hpoll & _). rewrite H0 in Hrun. simplify_eq. by eapply polled_ok.
  - destruct (poll_permit_ok _ _ _ _ turn Hwo H) as (q' & r' & s & Hrun & Hpoll & _). rewrite H0 in Hrun. simplify_eq. by eapply polled_ok.
  - destruct (remove_waiting _ _ _ _ Hwo H) as (q' & s & Hrun & _ & Hwo' & Hp' & Hno). unfold cancel_acquire in H0. rewrite Hrun in H0.
    cbn in H0. simplify_eq. refine (polled_ok w id st q (inr false) Hok H _). split_and!; [done|by rewrite Hno|cbn; lia].
  - destruct Hok as [Hp Hids Hap ? ? ? ? ?]. split; cbn; try done.
    + rewrite size_difference by set_solver. rewrite size_singleton.
      assert (size ({[ id ]} : gset Z) ≤ size (admitted w))%nat by (apply subseteq_size; set_solver). rewrite size_singleton in *. lia.
    + intros k [Hk|Hk]; apply Hids; set_solver.
    + intros k Hk. apply Hap. set_solver.
Qed.

Lemma admission_reachable w : rtc admission_step new_world w → admission_ok w.
Proof.
  intros Hr. assert (Hinit := new_world_ok). induction Hr as [|w1 w2 w3 Hs _ IH]; [done|]. apply IH. by eapply admission_step_ok.
Qed.

(** The flag of a waiting caller is unique. *)
Lemma flag_unique q id s s' : NoDup (fst <$> waiting_reads q) → (id, s) ∈ waiting_reads q → (id, s') ∈ waiting_reads q → s' = s.
Proof.
  intros Hnd [i Hi]%list_elem_of_lookup [j Hj]%list_elem_of_lookup. assert (i = j) as <-; [|congruence].
  eapply NoDup_lookup; [exact Hnd| |]; by rewrite list_lookup_fmap, ?Hi, ?Hj.
Qed.

(** What the two parts of a poll return, by whether the caller's check is scheduled,
    its answer if it has not been asked, the permits and whose turn it is. *)
Definition notification_result (st : AcquireState) (scheduled : bool) : AcquireState + bool :=
  if scheduled then if decide (should_fall_through st = Some true) then inr false else inl (mkAcquireState (waiting_read st) None)
  else inl st.
Definition permit_result (st : AcquireState) (scheduled : bool) (permits : nat) (turn : bool) : AcquireState + bool :=
  match permits with
  | S _ => if turn then inr (negb (scheduled && bool_decide (should_fall_through st = Some true))) else inl st
  | O => inl st
  end.

(** C33: in every interleaving of callers at most 64 payload reads hold a permit,
    and no poll, cancellation or drop ever fails to find its queue entry.  While 64
    reads wait, the check of every waiter is scheduled.  A waiter whose check is
    scheduled is asked at its next poll: it falls through if its caller wants to and
    otherwise waits on without being asked again; nobody else is asked.  Getting a permit
    first makes no difference: a waiter whose check is scheduled and whose caller, not
    asked yet, wants to fall through drops the permit and falls through, and every
    other waiter keeps it. *)
Theorem read_admission_safe w id st :
  rtc admission_step new_world w → callers w !! id = Some st →
  (size (admitted w) ≤ MAX_IN_FLIGHT_READS)%nat ∧ completes (cancel_acquire (queue w) st)
  ∧ ∃ s, (id, s) ∈ waiting_reads (queue w)
    ∧ ((MAX_IN_FLIGHT_READS ≤ length (waiting_reads (queue w)))%nat → s = true)
    ∧ (∃ q, poll_notification (queue w) st = Done (q, notification_result st s))
    ∧ ∀ turn, ∃ q, poll_permit (queue w) st turn = Done (q, permit_result st s (read_permits (queue w)) turn).
Proof.
  intros Hr Hid. assert (Hok := admission_reachable _ Hr). assert (Hwo := admission_waiting _ Hok).
  split; [pose proof (ad_permits _ Hok); lia|].
  destruct (remove_waiting _ _ _ _ Hwo Hid) as (q1 & s & Hrem & Hs & _). split; [unfold cancel_acquire; rewrite Hrem; cbn; eexists; done|].
  exists s. split; [done|]. assert (Hfl := ad_flags _ Hok _ _ _ Hs Hid). assert (Hw := ad_callers _ Hok _ _ Hid). split_and!.
  - intros Hlen. assert (Hpr := ad_pressure _ Hok Hlen). rewrite Forall_forall in Hpr. apply (Hpr _ Hs).
  - destruct (poll_notification_ok _ _ _ _ Hwo Hid) as (q & r & Hrun & _ & Hres). exists q. rewrite Hrun. do 2 f_equal. unfold notification_result. destruct s.
    + destruct r as [st'|granted]; [|by destruct Hres as (-> & -> & _); rewrite decide_True].
      destruct Hres as [-> Hno]; [|by rewrite decide_False, Hw]. destruct (should_fall_through st); [left; by apply Hfl|by right].
    + destruct Hfl as [Hno [answer Ha]]. unfold poll_notification in Hrun. rewrite Ha, Hw in Hrun. cbn [fallthrough_notification] in Hrun.
      rewrite decide_False in Hrun by done. by injection Hrun as _ <-.
  - intros turn. unfold poll_permit, permit_result. destruct (read_permits (queue w)) as [|n] eqn:Hn; [by exists (queue w)|]. destruct turn; [|by exists (queue w)].
    destruct (remove_waiting _ _ _ _ (waiting_permits _ _ n Hwo) Hid) as (q' & s' & -> & Hs' & _). cbn [mbind outcome_bind].
    assert (s' = s) as -> by exact (flag_unique _ _ _ _ (ad_NoDup _ Hok) Hs Hs').
    destruct s, (should_fall_through st) as [[]|]; by eexists.
Qed.

(** A burst of [n] callers who want to fall through. *)
Definition start_caller (w : AdmissionWorld) : AdmissionWorld :=
  let '(q, st) := start_acquire (queue w) (next_id w) true in
  match st with
  | None => mkAdmissionWorld q (callers w) (admitted w ∪ {[ next_id w ]}) (next_id w + 1)
  | Some st => mkAdmissionWorld q (<[next_id w := st]> (callers w)) (admitted w) (next_id w + 1)
  end.
Definition burst (n : nat) : AdmissionWorld := Nat.iter n start_caller new_world.

Lemma burst_reachable n : rtc admission_step new_world (burst n).
Proof.
  induction n as [|n IH]; [done|]. eapply rtc_r; [exact IH|]. change (burst (S n)) with (start_caller (burst n)).
  unfold start_caller. destruct (start_acquire _ _ _) as [q [st|]] eqn:Hs; [by eapply step_wait|by eapply step_admit].
Qed.

Lemma read_admission_safe_witness :
  let st := mkAcquireState (mkWaitingPayloadRead 64 true) (Some true) in
  (size (admitted (burst 128)) ≤ 64)%nat ∧ completes (cancel_acquire (queue (burst 128)) st) ∧ ∃ q, poll_notification (queue (burst 128)) st = Done (q, inr false).
Proof.
  intros st. destruct (read_admission_safe (burst 128) 64 st) as (Hsize & Hcancel & s & _ & Hpressure & (q & Hpoll) & _);
    [apply burst_reachable|vm_compute; reflexivity|]. split; [exact Hsize|]. split; [exact Hcancel|]. exists q.
  rewrite Hpressure in Hpoll by (vm_compute; lia). exact Hpoll.
Defined.

(** ** Pacing of writes *)
Definition NANOS_PER_SEC : Z := 1000000000.
Definition WRITE_BYTES_PER_SECOND_WITH_WAITING_READS : Z := 1024 * 1024 * 1024.
Definition WRITE_LIMIT_AFTER_READ_WAIT : Z := 100 * 1000000.

(** [ReadQueueWaiters]; the source panics on underflow of the waiter count. *)
Record ReadQueueWaiters := mkReadQueueWaiters { reads_waiting : Z; last_wait_ended_at : option Z }.
Definition remove_waiting_read (w : ReadQueueWaiters) (now : Z) : outcome ReadQueueWaiters :=
  _ ← assert_that (0 <? reads_waiting w);
  let waiting := reads_waiting w - 1 in
  Done (mkReadQueueWaiters waiting (if waiting =? 0 then Some now else last_wait_ended_at w)).

Record WriteRateLimit := mkWriteRateLimit { next_write_at : Z }.

(** [WriteRateLimit::must_wait] *)
Definition write_limited (w : ReadQueueWaiters) (now : Z) : bool :=
  (0 <? reads_waiting w)
  || match last_wait_ended_at w with
     | Some ended => saturating_sub now ended <? WRITE_LIMIT_AFTER_READ_WAIT
     | None => false
     end.
Definition must_wait (l : WriteRateLimit) (w : ReadQueueWaiters) (has_active_writes : bool) (now : Z) : bool :=
  write_limited w now && (has_active_writes || (now <? next_write_at l)).

(** [Duration::from_secs_f64] of [bytes / 2^30]: the quotient is exact in
    binary64, and the nanoseconds are rounded to nearest, ties to even. *)
Definition div_round_even (n d : Z) : Z :=
  let q := n / d in
  let r := n mod d in
  if 2 * r <? d then q else if d <? 2 * r then q + 1 else if Z.even q then q else q + 1.
Definition record_write (l : WriteRateLimit) (bytes now : Z) : WriteRateLimit :=
  mkWriteRateLimit (now + div_round_even (bytes * NANOS_PER_SEC) WRITE_BYTES_PER_SECOND_WITH_WAITING_READS).

Lemma div_round_even_bounds n d : 0 < d → 2 * n - d ≤ 2 * d * div_round_even n d ≤ 2 * n + d.
Proof.
  intros Hd. unfold div_round_even. pose proof (Z.div_mod n d). pose proof (Z.mod_pos_bound n d Hd).
  repeat case_match; bool_to_prop; nia.
Qed.

(** Admissions of writes, newest first, each checked by [must_wait] while reads
    wait and then recorded. *)
Inductive paced : WriteRateLimit → list (Z * Z) → Prop :=
  | paced_first l bytes now : paced (record_write l bytes now) [(now, bytes)]
  | paced_next l w bytes now writes :
      paced l writes → write_limited w now = true → must_wait l w false now = false →
      paced (record_write l bytes now) ((now, bytes) :: writes).

Lemma paced_next_write l writes :
  paced l writes → ∃ now bytes rest, writes = (now, bytes) :: rest ∧ l = record_write l bytes now.
Proof. by destruct 1 as [l bytes now|l w bytes now rest]; eexists now, bytes, _. Qed.

(** While reads wait for the channel, writes are admitted at no more than
    1 GiB per second: the bytes of all writes before the latest one fit into the
    time since the first, up to half a nanosecond per write. *)
Lemma write_pacing_bound l now bytes writes first :
  paced l ((now, bytes) :: writes) → last ((now, bytes) :: writes) = Some first →
  2 * NANOS_PER_SEC * zsum snd writes
  ≤ 2 * WRITE_BYTES_PER_SECOND_WITH_WAITING_READS * (now - first.1) + WRITE_BYTES_PER_SECOND_WITH_WAITING_READS * Z.of_nat (length writes).
Proof.
  revert l now bytes. induction writes as [|[t b] writes IH]; intros l now bytes Hp Hlast.
  { injection Hlast as <-. cbn [fst length]. autorewrite with sums. lia. }
  inversion Hp as [|l0 w b0 n0 ws0 Hp0 Hlim Hmw]; subst. specialize (IH l0 t b Hp0 Hlast).
  destruct (paced_next_write _ _ Hp0) as (t' & b' & rest & [= <- <- <-] & Hl0).
  unfold must_wait in Hmw. rewrite Hlim in Hmw. cbn in Hmw. bool_to_prop. rewrite Hl0 in Hmw. cbn [record_write next_write_at] in Hmw.
  pose proof (div_round_even_bounds (b * NANOS_PER_SEC) WRITE_BYTES_PER_SECOND_WITH_WAITING_READS ltac:(done)).
  autorewrite with sums. cbn [snd length]. rewrite Nat2Z.inj_succ. unfold WRITE_BYTES_PER_SECOND_WITH_WAITING_READS, NANOS_PER_SEC in *. nia.
Qed.
