(* ===== verification/Uring.v ===== *)
(** * The io_uring queue ([feuer-storage/src/uring.rs])

    Requests hand buffer pointers to the kernel and stay in a fixed array until
    their completion.  The queue thread moves requests from its channel into the
    array, resubmits the rest of short transfers, and replies.

    The kernel is outside the program: it accepts submission entries and
    completes each of them once with a result.  A write buffer is its address and
    its bytes; a read buffer is named by an identifier. *)

From S2P Require Import Prelude Codec Errors Disk Allocation Admission.

Definition MAX_IO_REQUEST_BYTES : Z := 1024 * 1024.
Definition MAX_IN_FLIGHT_WRITES : nat := 8.
Definition EINTR : Z := 4.
Definition EINVAL : Z := 22.

(** A slice of immutable bytes at an address ([bytes::Bytes]). *)
Record Bytes := mkBytes { as_ptr : Z; bytes_data : list byte }.
Definition bytes_len (b : Bytes) : Z := Z.of_nat (length (bytes_data b)).
Definition bytes_slice (start end_ : Z) (b : Bytes) : Bytes :=
  mkBytes (as_ptr b + start) (slice (Z.to_nat start) (Z.to_nat end_) (bytes_data b)).
Definition empty_bytes : Bytes := mkBytes 0 [].

Record iovec := mkIovec { iov_base : Z; iov_len : Z }.
Definition null_iovec : iovec := mkIovec 0 0.

(** [IoBuffers] *)
Inductive IoBuffers :=
  | ReadBuffers (buffer : Z) (buffer_length : Z)
  | WriteBuffers (prefix tail : Bytes) (iovecs : list iovec).

(** [IoBuffers::from_write_bytes]; [scratch] is the address of the zeroed scratch
    buffer, or [None] when it cannot be allocated. *)
Definition from_write_bytes (len : Z) (bytes : Bytes) (scratch : option Z) : outcome (result io_error IoBuffers) :=
  _ ← assert_that ((bytes_len bytes <=? len) && is_multiple_of len DIRECT_IO_ALIGNMENT_BYTES);
  let aligned_length := if is_multiple_of (as_ptr bytes) DIRECT_IO_ALIGNMENT_BYTES
                        then bytes_len bytes / DIRECT_IO_ALIGNMENT_BYTES * DIRECT_IO_ALIGNMENT_BYTES else 0 in
  let copy_length := len - aligned_length in
  let prefix := bytes_slice 0 aligned_length bytes in
  if copy_length =? 0 then Done (Ok (WriteBuffers prefix empty_bytes [null_iovec; null_iovec]))
  else
    match scratch with
    | None => Done (Err AllocationFailed)
    | Some ptr =>
        let rest := drop (Z.to_nat aligned_length) (bytes_data bytes) in
        Done (Ok (WriteBuffers prefix (mkBytes ptr (rest ++ zeros (Z.to_nat (copy_length - Z.of_nat (length rest)))))
                    [null_iovec; null_iovec]))
    end.

(** What a submission entry asks of the kernel. *)
Inductive Transfer :=
  | ReadInto (buffer : Z) (start len : Z)
  | WriteFrom (parts : list (list byte)).
Record Sqe := mkSqe { sqe_transfer : Transfer; sqe_offset : Z; sqe_len : Z; user_data : nat }.

(** The loop over both write buffers: skips [bytes_to_skip] bytes and the buffers
    left empty. *)
Fixpoint remaining_parts (bytes_to_skip : Z) (bytes : list Bytes) : list Bytes :=
  match bytes with
  | [] => []
  | b :: bytes =>
      let skip := Z.min bytes_to_skip (bytes_len b) in
      let rest := bytes_slice skip (bytes_len b) b in
      if bytes_len rest =? 0 then remaining_parts (bytes_to_skip - skip) bytes
      else rest :: remaining_parts (bytes_to_skip - skip) bytes
  end.

(** [IoBuffers::submission_entry] *)
Definition buffers_submission_entry (b : IoBuffers) (offset : Z) (range : Range) (request_index : nat) : IoBuffers * Sqe :=
  let len := range_end range - range_start range in
  match b with
  | ReadBuffers buffer n => (b, mkSqe (ReadInto buffer (range_start range) len) offset len request_index)
  | WriteBuffers prefix tail _ =>
      let parts := remaining_parts (range_start range) [prefix; tail] in
      let iovecs := (λ p, mkIovec (as_ptr p) (bytes_len p)) <$> parts in
      (WriteBuffers prefix tail (iovecs ++ replicate (2 - length iovecs) null_iovec),
       mkSqe (WriteFrom (bytes_data <$> parts)) offset (zsum bytes_len parts) request_index)
  end.

(** [IoRequest]; [reply] names the caller's result channel until it is taken. *)
Record IoRequest := mkIoRequest {
  files : Z;
  file_end_offset : Z;
  buffers : IoBuffers;
  remaining_buffer_range : Range;
  reply : option Z
}.
Definition range_len (r : Range) : Z := range_end r - range_start r.

(** [IoRequest::new] *)
Definition new_IoRequest (files offset : Z) (buffers : IoBuffers) (buffer_range : Range) (reply : Z) : outcome IoRequest :=
  _ ← assert_that (is_multiple_of offset DIRECT_IO_ALIGNMENT_BYTES);
  _ ← assert_that (is_multiple_of (range_start buffer_range) DIRECT_IO_ALIGNMENT_BYTES);
  let len := range_len buffer_range in
  _ ← assert_that (is_multiple_of len DIRECT_IO_ALIGNMENT_BYTES);
  _ ← match buffers with
      | ReadBuffers _ buffer_length => assert_that (range_end buffer_range <=? buffer_length)
      | WriteBuffers _ _ _ => Done ()
      end;
  _ ← assert_that ((0 <? len) && (len <=? MAX_IO_REQUEST_BYTES));
  Done (mkIoRequest files (offset + len) buffers buffer_range (Some reply)).

(** [IoRequest::submission_entry]; preparing a write records its descriptors. *)
Definition request_offset (r : IoRequest) : Z := file_end_offset r - range_len (remaining_buffer_range r).
Definition request_submission_entry (r : IoRequest) (request_index : nat) : IoRequest * Sqe :=
  let '(b, entry) := buffers_submission_entry (buffers r) (request_offset r) (remaining_buffer_range r) request_index in
  (mkIoRequest (files r) (file_end_offset r) b (remaining_buffer_range r) (reply r), entry).

(** [IoRequest::incomplete_io_error] *)
Definition incomplete_io_error (r : IoRequest) : io_error :=
  match buffers r with ReadBuffers _ _ => UnexpectedEof | WriteBuffers _ _ _ => WriteZero end.

(** [IoRequest::apply_completion_result] *)
Definition apply_completion_result (r : IoRequest) (res : Z) : result io_error IoRequest :=
  if res =? - EINTR then Ok r
  else if res <? 0 then
    match buffers r with
    | ReadBuffers _ _ => Err (OsError (- res))
    | WriteBuffers _ _ iovecs =>
        let iov i := default null_iovec (iovecs !! i) in
        Err (WriteFailed (mkWriteRequestError (- res) (request_offset r) (range_len (remaining_buffer_range r))
               (iov_base (iov 0%nat) mod DIRECT_IO_ALIGNMENT_BYTES, iov_base (iov 1%nat) mod DIRECT_IO_ALIGNMENT_BYTES)
               (iov_len (iov 0%nat), iov_len (iov 1%nat)) (res =? - EINVAL)))
    end
  else if (res =? 0) || negb (is_multiple_of res DIRECT_IO_ALIGNMENT_BYTES) then Err (incomplete_io_error r)
  else
    let range := remaining_buffer_range r in
    Ok (mkIoRequest (files r) (file_end_offset r) (buffers r) (mkRange (range_start range + res) (range_end range)) (reply r)).

(** [IoRequest::send_result]: the read buffer is returned with success. *)
Definition Reply := result io_error (option Z).
Definition send_result (r : IoRequest) (res : result io_error ()) : outcome (Z * Reply) :=
  id ← unwrap (reply r);
  Done (id, _ ← res; Ok (match buffers r with ReadBuffers buffer _ => Some buffer | WriteBuffers _ _ _ => None end)).

(** [IoQueue]; [submission] is the ring's submission queue. *)
Record IoQueue := mkIoQueue {
  submission : list Sqe;
  receiver : list IoRequest;
  receiver_closed : bool;
  requests_awaiting_completion : list (option IoRequest);
  write_rate_limit : option WriteRateLimit
}.

(** [IoQueue::queue_request_for_submission]; the submission queue has as many
    entries as the request array. *)
Definition queue_request_for_submission (q : IoQueue) (request_index : nat) : outcome IoQueue :=
  slot ← unwrap (requests_awaiting_completion q !! request_index);
  request ← unwrap slot;
  let '(request, entry) := request_submission_entry request request_index in
  _ ← assert_that (bool_decide (length (submission q) < length (requests_awaiting_completion q))%nat);
  Done (mkIoQueue (submission q ++ [entry]) (receiver q) (receiver_closed q)
          (<[request_index := Some request]> (requests_awaiting_completion q)) (write_rate_limit q)).

Definition set_request (i : nat) (r : option IoRequest) (q : IoQueue) : IoQueue :=
  mkIoQueue (submission q) (receiver q) (receiver_closed q) (<[i := r]> (requests_awaiting_completion q)) (write_rate_limit q).

(** Whether the caller dropped its receiver; a request without reply panics. *)
Definition reply_is_closed (canceled : gset Z) (r : IoRequest) : outcome bool :=
  id ← unwrap (reply r); Done (bool_decide (id ∈ canceled)).

(** [IoQueue::handle_io_completion] *)
Definition handle_io_completion (q : IoQueue) (canceled : gset Z) (request_index : nat) (res : Z)
  : outcome (IoQueue * list (Z * Reply)) :=
  slot ← unwrap (requests_awaiting_completion q !! request_index);
  request ← unwrap slot;
  let finish request res :=
    sent ← send_result request res;
    Done (set_request request_index None q, [sent]) in
  match apply_completion_result request res with
  | Ok request =>
      if 0 <? range_len (remaining_buffer_range request) then
        closed ← reply_is_closed canceled request;
        if closed : bool then finish request (Ok ())
        else q ← queue_request_for_submission (set_request request_index (Some request) q) request_index; Done (q, [])
      else finish request (Ok ())
  | Err e => finish request (Err e)
  end.

(** The [try_recv] loop: discards requests whose callers canceled. *)
Fixpoint receive (canceled : gset Z) (requests : list IoRequest) : outcome (option IoRequest * list IoRequest) :=
  match requests with
  | [] => Done (None, [])
  | r :: requests =>
      closed ← reply_is_closed canceled r;
      if closed : bool then receive canceled requests else Done (Some r, requests)
  end.

Definition is_active (slot : option IoRequest) : bool := match slot with Some _ => true | None => false end.

(** [IoQueue::queue_requests_for_submission], from position [request_index] on;
    the result is the poll timeout. *)
Fixpoint queue_requests_from (n request_index : nat) (q : IoQueue) (canceled : gset Z) (waiters : ReadQueueWaiters) (now : Z)
  : outcome (IoQueue * Z) :=
  match n with
  | O => Done (q, -1)
  | S n =>
      slot ← unwrap (requests_awaiting_completion q !! request_index);
      match slot with
      | Some _ => queue_requests_from n (S request_index) q canceled waiters now
      | None =>
          match receiver q with
          | [] => Done (q, -1)
          | _ =>
              let active := existsb is_active (requests_awaiting_completion q) in
              if match write_rate_limit q with Some limit => must_wait limit waiters active now | None => false end
              then Done (q, 1)
              else
                '(request, rest) ← receive canceled (receiver q);
                let q := mkIoQueue (submission q) rest (receiver_closed q) (requests_awaiting_completion q) (write_rate_limit q) in
                match request with
                | None => Done (q, -1)
                | Some request =>
                    let limit := (λ limit, record_write limit (range_len (remaining_buffer_range request)) now) <$> write_rate_limit q in
                    let q := mkIoQueue (submission q) (receiver q) (receiver_closed q)
                               (<[request_index := Some request]> (requests_awaiting_completion q)) limit in
                    q ← queue_request_for_submission q request_index;
                    queue_requests_from n (S request_index) q canceled waiters now
                end
          end
      end
  end.
Definition queue_requests_for_submission (q : IoQueue) (canceled : gset Z) (waiters : ReadQueueWaiters) (now : Z) : outcome (IoQueue * Z) :=
  queue_requests_from (length (requests_awaiting_completion q)) 0 q canceled waiters now.

(** [IoQueue::leak_requests]: every waiting caller learns that the queue stopped;
    the requests keep their buffers. *)
Fixpoint leak_requests (requests : list (option IoRequest)) : outcome (list (option IoRequest) * list (Z * Reply)) :=
  match requests with
  | [] => Done ([], [])
  | None :: requests => '(rs, sent) ← leak_requests requests; Done (None :: rs, sent)
  | Some r :: requests =>
      id ← unwrap (reply r);
      '(rs, sent) ← leak_requests requests;
      Done (Some (mkIoRequest (files r) (file_end_offset r) (buffers r) (remaining_buffer_range r) None) :: rs, (id, Err QueueStopped) :: sent)
  end.

(** ** The thread's loop *)
Inductive SubmitAnswer := Submitted (accepted : nat) | SubmitInterrupted | SubmitWouldBlock | SubmitFailed (e : io_error).
Inductive PollAnswer := PollInterrupted | PollFailed (e : io_error) | PollReady (hangup : bool).
Inductive LoopStatus := Continue | Drained | Stopped (e : io_error).

(** [IoQueue::wait_for_completion_or_wakeup] *)
Definition wait_for_completion_or_wakeup (poll : PollAnswer) : result io_error () :=
  match poll with
  | PollInterrupted => Ok ()
  | PollFailed e => Err e
  | PollReady hangup => if hangup : bool then Err QueueStopped else Ok ()
  end.

Fixpoint handle_completions (q : IoQueue) (canceled : gset Z) (cs : list (nat * Z)) : outcome (IoQueue * list (Z * Reply)) :=
  match cs with
  | [] => Done (q, [])
  | (i, res) :: cs =>
      '(q, sent) ← handle_io_completion q canceled i res;
      '(q, sent') ← handle_completions q canceled cs;
      Done (q, sent ++ sent')
  end.

(** One iteration of [IoQueue::process_requests_with_submit]: the queue, the
    replies, the entries the kernel accepted, and whether the loop goes on. *)
Definition process_iteration (q : IoQueue) (canceled : gset Z) (cs : list (nat * Z)) (waiters : ReadQueueWaiters) (now : Z)
    (submit : SubmitAnswer) (poll : PollAnswer) : outcome (IoQueue * list (Z * Reply) * list Sqe * LoopStatus) :=
  let wait := match wait_for_completion_or_wakeup poll with Ok _ => Continue | Err e => Stopped e end in
  '(q, sent) ← handle_completions q canceled cs;
  '(q, admission_wait_millis) ← queue_requests_for_submission q canceled waiters now;
  if receiver_closed q && bool_decide (receiver q = []) && forallb (λ s, negb (is_active s)) (requests_awaiting_completion q)
  then Done (q, sent, [], Drained)
  else
    match submit with
    | SubmitInterrupted => Done (q, sent, [], Continue)
    | SubmitWouldBlock => Done (q, sent, [], wait)
    | SubmitFailed e => Done (q, sent, [], Stopped e)
    | Submitted n =>
        let accepted := take n (submission q) in
        let q := mkIoQueue (drop n (submission q)) (receiver q) (receiver_closed q) (requests_awaiting_completion q) (write_rate_limit q) in
        if bool_decide (submission q = []) then Done (q, sent, accepted, wait) else Done (q, sent, accepted, Continue)
    end.

(** ** Requests *)

(** A request that can be submitted: aligned, not empty and within its buffers. *)
Record request_ok (r : IoRequest) : Prop := mkRequestOk {
  ro_end : aligned (file_end_offset r);
  ro_start : 0 ≤ range_start (remaining_buffer_range r) ∧ aligned (range_start (remaining_buffer_range r));
  ro_len : 0 < range_len (remaining_buffer_range r) ≤ MAX_IO_REQUEST_BYTES ∧ aligned (range_len (remaining_buffer_range r));
  ro_buffers : match buffers r with
               | ReadBuffers _ n => range_end (remaining_buffer_range r) ≤ n
               | WriteBuffers prefix tail _ => range_end (remaining_buffer_range r) = bytes_len prefix + bytes_len tail
               end;
  ro_reply : is_Some (reply r)
}.

(** The part of a request that its submission entry depends on. *)
Definition entry_of (r : IoRequest) (i : nat) : Sqe := (request_submission_entry r i).2.
Definition prepared (r : IoRequest) (i : nat) : IoRequest := (request_submission_entry r i).1.

Lemma prepared_ok r i : request_ok r → request_ok (prepared r i).
Proof.
  intros []. unfold prepared, request_submission_entry. destruct (buffers r) eqn:Hb; cbn; split; cbn; try done.
Qed.

Lemma prepared_fields r i :
  reply (prepared r i) = reply r ∧ remaining_buffer_range (prepared r i) = remaining_buffer_range r
  ∧ file_end_offset (prepared r i) = file_end_offset r ∧ files (prepared r i) = files r.
Proof. unfold prepared, request_submission_entry. by destruct (buffers r). Qed.

Lemma entry_prepared r i j : entry_of (prepared r i) j = entry_of r j.
Proof. unfold entry_of, prepared, request_submission_entry, request_offset. by destruct (buffers r). Qed.

Lemma entry_user_data r i : user_data (entry_of r i) = i.
Proof. unfold entry_of, request_submission_entry. by destruct (buffers r). Qed.

(** The remaining parts of a write are the bytes after the skipped ones. *)
Lemma remaining_parts_spec bytes : ∀ skip, 0 ≤ skip →
  concat (bytes_data <$> remaining_parts skip bytes) = drop (Z.to_nat skip) (concat (bytes_data <$> bytes)).
Proof.
  induction bytes as [|b bytes IH]; intros skip Hs; cbn [remaining_parts]; [by destruct (Z.to_nat skip)|].
  set (n := length (bytes_data b)). assert (Hb : bytes_len b = Z.of_nat n) by done.
  assert (Hrest : bytes_data (bytes_slice (Z.min skip (bytes_len b)) (bytes_len b) b) = drop (Z.to_nat skip) (bytes_data b)).
  { unfold bytes_slice, slice. cbn [bytes_data]. rewrite Hb. rewrite take_ge by (rewrite length_drop; lia).
    destruct (decide (skip ≤ Z.of_nat n)); [by rewrite Z.min_l by lia|]. rewrite Z.min_r by lia.
    rewrite !drop_ge by (subst n; lia). done. }
  cbn. rewrite drop_app. fold n. specialize (IH (skip - Z.min skip (bytes_len b)) ltac:(lia)).
  replace (Z.to_nat (skip - Z.min skip (bytes_len b))) with (Z.to_nat skip - n)%nat in IH by lia.
  destruct (Z.eqb_spec (bytes_len (bytes_slice (Z.min skip (bytes_len b)) (bytes_len b) b)) 0) as [Hz|Hz].
  - rewrite IH. unfold bytes_len in Hz at 1. rewrite Hrest in Hz. destruct (drop _ (bytes_data b)); [done|cbn in Hz; lia].
  - rewrite fmap_cons. cbn [concat]. by rewrite Hrest, IH.
Qed.

Lemma zsum_bytes_len bs : zsum bytes_len bs = Z.of_nat (length (concat (bytes_data <$> bs))).
Proof. induction bs as [|b bs IH]; [done|]. rewrite zsum_cons, IH. cbn. rewrite length_app. unfold bytes_len. lia. Qed.

(** A submission entry asks for exactly the rest of its request. *)
Lemma entry_spec r i :
  request_ok r →
  sqe_offset (entry_of r i) = request_offset r ∧ sqe_len (entry_of r i) = range_len (remaining_buffer_range r)
  ∧ aligned (sqe_offset (entry_of r i)) ∧ aligned (sqe_len (entry_of r i))
  ∧ match buffers r with
    | ReadBuffers b n => sqe_transfer (entry_of r i) = ReadInto b (range_start (remaining_buffer_range r)) (range_len (remaining_buffer_range r))
    | WriteBuffers p t _ => ∃ parts, sqe_transfer (entry_of r i) = WriteFrom parts ∧ (length parts ≤ 2)%nat ∧ Forall (λ x, x ≠ []) parts
        ∧ concat parts = drop (Z.to_nat (range_start (remaining_buffer_range r))) (bytes_data p ++ bytes_data t)
    end.
Proof.
  intros [Hend [Hs0 Hsa] [[Hl0 Hlm] Hla] Hb _]. unfold entry_of, request_submission_entry, request_offset.
  set (rg := remaining_buffer_range r) in *. assert (Hoff : aligned (file_end_offset r - range_len rg)).
  { unfold aligned in *. rewrite Zminus_mod, Hend, Hla. done. }
  destruct (buffers r) as [b n|p t iov]; cbn [buffers_submission_entry snd sqe_offset sqe_len sqe_transfer]; [by split_and!|].
  assert (Hcat := remaining_parts_spec [p; t] (range_start rg) Hs0). cbn [fmap list_fmap concat] in Hcat. rewrite app_nil_r in Hcat.
  assert (Hsum : zsum bytes_len (remaining_parts (range_start rg) [p; t]) = range_len rg).
  { rewrite zsum_bytes_len, Hcat, length_drop, length_app. unfold range_len, bytes_len in *. lia. }
  split_and!; [done|done|done|by rewrite Hsum|]. eexists. split; [done|]. split_and!; [| |done].
  - rewrite length_fmap. cbn. repeat case_match; cbn; lia.
  - apply Forall_fmap, Forall_forall. intros x Hx Hnil.
    assert (Hne : ∀ bs k, x ∈ remaining_parts k bs → bytes_len x ≠ 0).
    { clear. induction bs as [|b bs IH]; intros k; cbn; [by intros ?%elem_of_nil|]. case_match eqn:E; [apply IH|].
      intros [->|Hin]%elem_of_cons; [by apply Z.eqb_neq|by eapply IH]. }
    apply (Hne _ _ Hx). unfold bytes_len. by rewrite Hnil.
Qed.

(** Completions keep the remaining range aligned, and the end of the file range
    where it was. *)
Lemma apply_completion_ok r res r' :
  request_ok r → res ≤ range_len (remaining_buffer_range r) → apply_completion_result r res = Ok r' →
  reply r' = reply r ∧ file_end_offset r' = file_end_offset r ∧ buffers r' = buffers r ∧ files r' = files r
  ∧ (range_len (remaining_buffer_range r') = 0 ∨ request_ok r')
  ∧ (res = - EINTR ∧ r' = r ∨ 0 < res ∧ aligned res ∧ range_start (remaining_buffer_range r') = range_start (remaining_buffer_range r) + res
     ∧ range_end (remaining_buffer_range r') = range_end (remaining_buffer_range r)).
Proof.
  intros Hok Hle. unfold apply_completion_result. destruct (Z.eqb_spec res (- EINTR)) as [->|Hne].
  { intros [= <-]. split_and!; try done; [by right|by left]. }
  destruct (Z.ltb_spec res 0) as [Hneg|Hpos]; [by destruct (buffers r)|].
  destruct (Z.eqb_spec res 0) as [->|Hnz]; [done|]. cbn [orb]. destruct (is_multiple_of _ _) eqn:Hm; [|done]. cbn [negb].
  apply is_multiple_of_spec in Hm; [|done]. intros [= <-]. cbn. split_and!; try done; [|by right; split_and!; [lia|..]].
  destruct Hok as [Hend [Hs0 Hsa] [[Hl0 Hlm] Hla] Hb Hr]. unfold range_len in *. cbn.
  destruct (decide (range_end (remaining_buffer_range r) - (range_start (remaining_buffer_range r) + res) = 0)); [by left|right].
  split; cbn; try done; [split; [lia|]|split; [unfold range_len; cbn; lia|]]; unfold aligned, range_len in *; cbn.
  - rewrite Zplus_mod, Hsa, Hm. done.
  - replace (range_end (remaining_buffer_range r) - (range_start (remaining_buffer_range r) + res))
      with (range_end (remaining_buffer_range r) - range_start (remaining_buffer_range r) - res) by lia.
    rewrite Zminus_mod, Hla, Hm. done.
Qed.

(** ** The ring and the request array *)

(** Every entry in the submission queue, in the kernel or completed belongs to
    one request of the array, and every request of the array has exactly one. *)
Definition tokens (sub kern : list Sqe) (comps : list (nat * Z)) : list nat :=
  (user_data <$> sub) ++ (user_data <$> kern) ++ (fst <$> comps).

Record ring_ok (sub kern : list Sqe) (comps : list (nat * Z)) (aw : list (option IoRequest)) : Prop := mkRingOk {
  rk_requests : ∀ i r, aw !! i = Some (Some r) → request_ok r;
  rk_NoDup : NoDup (tokens sub kern comps);
  rk_tokens : ∀ i, i ∈ tokens sub kern comps ↔ ∃ r, aw !! i = Some (Some r);
  rk_entries : ∀ e, e ∈ sub ++ kern → ∃ r, aw !! user_data e = Some (Some r) ∧ e = entry_of r (user_data e);
  rk_results : ∀ i res, (i, res) ∈ comps → ∃ r, aw !! i = Some (Some r) ∧ res ≤ range_len (remaining_buffer_range r)
}.

Lemma token_bound sub kern comps aw : ring_ok sub kern comps aw → ∀ i, i ∈ tokens sub kern comps → (i < length aw)%nat.
Proof. intros Hok i Hi. apply (rk_tokens _ _ _ _ Hok) in Hi as [r Hr]. by eapply lookup_lt_Some. Qed.

Lemma ring_room sub kern comps aw i :
  ring_ok sub kern comps aw → aw !! i = Some None → (S (length (tokens sub kern comps)) ≤ length aw)%nat.
Proof.
  intros Hok Hi. assert (Hnew : i ∉ tokens sub kern comps) by (rewrite (rk_tokens _ _ _ _ Hok); intros [r Hr]; congruence).
  rewrite <-(length_seq (length aw) 0). change (S (length (tokens sub kern comps))) with (length (i :: tokens sub kern comps)).
  apply submseteq_length, NoDup_submseteq; [apply NoDup_cons; split; [done|apply (rk_NoDup _ _ _ _ Hok)]|].
  intros j [->|Hj]%elem_of_cons; apply elem_of_seq; split; try lia; [by eapply lookup_lt_Some|by eapply token_bound].
Qed.

(** The handled completion empties its position. *)
Lemma ring_finish sub kern i res comps aw :
  ring_ok sub kern ((i, res) :: comps) aw → ring_ok sub kern comps (<[i := None]> aw).
Proof.
  intros [Hreq Hnd Htok Hent Hres]. assert (Hperm : tokens sub kern ((i, res) :: comps) ≡ₚ i :: tokens sub kern comps).
  { unfold tokens. rewrite fmap_cons. cbn. solve_Permutation. }
  rewrite Hperm in Hnd. apply NoDup_cons in Hnd as [Hnew Hnd]. setoid_rewrite Hperm in Htok.
  assert (Hi : (i < length aw)%nat) by (destruct (proj1 (Htok i) ltac:(left)) as [r Hr]; by eapply lookup_lt_Some).
  assert (Hkeep : ∀ j r, j ∈ tokens sub kern comps → aw !! j = Some (Some r) → <[i := None]> aw !! j = Some (Some r)).
  { intros j r Hj Hr. rewrite list_lookup_insert_ne by (by intros ->). done. }
  split.
  - intros j r Hj. destruct (decide (j = i)) as [->|Hne]; [by rewrite list_lookup_insert_eq in Hj|].
    rewrite list_lookup_insert_ne in Hj by done. eauto.
  - done.
  - intros j. split.
    + intros Hj. destruct (proj1 (Htok j) ltac:(by right)) as [r Hr]. exists r. by apply Hkeep.
    + intros [r Hj]. destruct (decide (j = i)) as [->|Hne]; [by rewrite list_lookup_insert_eq in Hj|].
      rewrite list_lookup_insert_ne in Hj by done. by destruct (proj1 (elem_of_cons _ _ _) (proj2 (Htok j) ltac:(eauto))).
  - intros e He. destruct (Hent e He) as (r & Hr & Heq). exists r. split; [|done]. apply Hkeep; [|done].
    unfold tokens. rewrite app_assoc, <-fmap_app. apply elem_of_app. left. by apply list_elem_of_fmap_2.
  - intros j res' Hj. destruct (Hres j res' ltac:(by right)) as (r & Hr & Hle). exists r. split; [|done]. apply Hkeep; [|done].
    unfold tokens. rewrite !elem_of_app. right; right. by apply (list_elem_of_fmap_2 fst) in Hj.
Qed.

(** Submitting a request at an empty position. *)
Lemma ring_submit sub kern comps aw i r :
  ring_ok sub kern comps aw → aw !! i = Some None → request_ok r →
  ring_ok (sub ++ [entry_of r i]) kern comps (<[i := Some (prepared r i)]> aw).
Proof.
  intros Hok Hi Hr. assert (Hnew : i ∉ tokens sub kern comps) by (rewrite (rk_tokens _ _ _ _ Hok); intros [r' Hr']; congruence).
  destruct Hok as [Hreq Hnd Htok Hent Hres].
  assert (Hperm : tokens (sub ++ [entry_of r i]) kern comps ≡ₚ i :: tokens sub kern comps).
  { unfold tokens. rewrite fmap_app. cbn [fmap list_fmap]. rewrite entry_user_data. solve_Permutation. }
  assert (Hkeep : ∀ j r', aw !! j = Some (Some r') → <[i := Some (prepared r i)]> aw !! j = Some (Some r')).
  { intros j r' Hj. rewrite list_lookup_insert_ne; [done|]. intros <-. congruence. }
  assert (Hat : <[i := Some (prepared r i)]> aw !! i = Some (Some (prepared r i))).
  { apply list_lookup_insert_eq. by eapply lookup_lt_Some. }
  split.
  - intros j r' Hj. destruct (decide (j = i)) as [->|Hne].
    + rewrite Hat in Hj. injection Hj as <-. by apply prepared_ok.
    + rewrite list_lookup_insert_ne in Hj by done. eauto.
  - rewrite Hperm. by apply NoDup_cons.
  - intros j. rewrite Hperm, elem_of_cons, Htok. split.
    + intros [->|[r' Hr']]; eauto.
    + intros [r' Hj]. destruct (decide (j = i)) as [->|Hne]; [by left|right].
      rewrite list_lookup_insert_ne in Hj by done. eauto.
  - intros e He. rewrite <-app_assoc, !elem_of_app, list_elem_of_singleton in He. destruct He as [He|[->|He]].
    + destruct (Hent e) as (r' & Hr' & Heq); [apply elem_of_app; by left|]. eauto.
    + rewrite entry_user_data. exists (prepared r i). by rewrite entry_prepared.
    + destruct (Hent e) as (r' & Hr' & Heq); [apply elem_of_app; by right|]. eauto.
  - intros j res Hj. destruct (Hres _ _ Hj) as (r' & Hr' & Hle). eauto.
Qed.

(** The kernel accepts entries, and completes one of them. *)
Lemma ring_accept sub kern comps aw n : ring_ok sub kern comps aw → ring_ok (drop n sub) (take n sub ++ kern) comps aw.
Proof.
  intros [Hreq Hnd Htok Hent Hres]. assert (Hperm : tokens (drop n sub) (take n sub ++ kern) comps ≡ₚ tokens sub kern comps).
  { unfold tokens. rewrite <-(take_drop n sub) at 3. rewrite !fmap_app. solve_Permutation. }
  split; [done|by rewrite Hperm|intros i; by rewrite Hperm| |done].
  intros e He. apply Hent. rewrite <-(take_drop n sub). rewrite !elem_of_app in *. naive_solver.
Qed.

Lemma ring_complete sub kern1 e kern2 comps aw res :
  ring_ok sub (kern1 ++ e :: kern2) comps aw → res ≤ sqe_len e →
  ring_ok sub (kern1 ++ kern2) (comps ++ [(user_data e, res)]) aw.
Proof.
  intros [Hreq Hnd Htok Hent Hres] Hle.
  assert (Hperm : tokens sub (kern1 ++ kern2) (comps ++ [(user_data e, res)]) ≡ₚ tokens sub (kern1 ++ e :: kern2) comps).
  { unfold tokens. rewrite !fmap_app, fmap_cons. cbn. solve_Permutation. }
  split; [done|by rewrite Hperm|intros i; by rewrite Hperm| |].
  - intros e' He. apply Hent. rewrite !elem_of_app, elem_of_cons in *. naive_solver.
  - intros i res' [Hi|[= -> ->]%list_elem_of_singleton]%elem_of_app; [by apply Hres|].
    destruct (Hent e) as (r & Hr & Heq); [rewrite !elem_of_app; right; right; by left|]. exists r. split; [done|].
    destruct (entry_spec r (user_data e) (Hreq _ _ Hr)) as (_ & Hlen & _). rewrite <-Heq in Hlen. lia.
Qed.

(** ** The queue operations *)
Definition same_channel (q q' : IoQueue) : Prop := receiver_closed q' = receiver_closed q ∧ length (requests_awaiting_completion q') = length (requests_awaiting_completion q).

Lemma submit_at q i r kern comps :
  requests_awaiting_completion q !! i = Some (Some r) → request_ok r →
  ring_ok (submission q) kern comps (<[i := None]> (requests_awaiting_completion q)) →
  ∃ q', queue_request_for_submission q i = Done q' ∧ ring_ok (submission q') kern comps (requests_awaiting_completion q')
    ∧ receiver q' = receiver q ∧ write_rate_limit q' = write_rate_limit q ∧ same_channel q q'.
Proof.
  intros Hi Hr Hok. assert (Hlt := lookup_lt_Some _ _ _ Hi). unfold queue_request_for_submission. rewrite Hi. cbn [unwrap mbind outcome_bind].
  assert (Hempty : <[i := None]> (requests_awaiting_completion q) !! i = Some None) by (by apply list_lookup_insert_eq).
  assert (Hroom := ring_room _ _ _ _ _ Hok Hempty). rewrite length_insert in Hroom. unfold tokens in Hroom. rewrite !length_app, length_fmap in Hroom.
  destruct (request_submission_entry r i) as [r' entry] eqn:He. rewrite bool_decide_eq_true_2 by lia. cbn [assert_that mbind outcome_bind].
  assert (Hsub := ring_submit _ _ _ _ i r Hok Hempty Hr). unfold entry_of, prepared in Hsub. rewrite He in Hsub. cbn in Hsub.
  rewrite list_insert_insert_eq in Hsub. eexists. split; [done|]. cbn. split_and!; try done. split; [done|]. cbn. by rewrite length_insert.
Qed.

Lemma handle_completion_ok q kern i res comps canceled :
  ring_ok (submission q) kern ((i, res) :: comps) (requests_awaiting_completion q) →
  ∃ q' sent, handle_io_completion q canceled i res = Done (q', sent)
    ∧ ring_ok (submission q') kern comps (requests_awaiting_completion q')
    ∧ receiver q' = receiver q ∧ same_channel q q'.
Proof.
  intros Hok. destruct (rk_results _ _ _ _ Hok i res ltac:(left)) as (r & Hr & Hle). assert (Hrok := rk_requests _ _ _ _ Hok _ _ Hr).
  assert (Hfin := ring_finish _ _ _ _ _ _ Hok). unfold handle_io_completion. rewrite Hr. cbn [unwrap mbind outcome_bind].
  assert (Hfinish : ∀ r' x, is_Some (reply r') → ∃ q' sent,
    (sent ← send_result r' x; Done (set_request i None q, [sent])) = Done (q', sent)
    ∧ ring_ok (submission q') kern comps (requests_awaiting_completion q') ∧ receiver q' = receiver q ∧ same_channel q q').
  { intros r' x [id Hid]. unfold send_result. rewrite Hid. cbn [unwrap mbind outcome_bind]. eexists _, _. split; [done|]. cbn.
    split_and!; try done. split; [done|]. cbn. by rewrite length_insert. }
  destruct (apply_completion_result r res) as [r'|e] eqn:Happ; [|apply Hfinish, (ro_reply _ Hrok)].
  destruct (apply_completion_ok _ _ _ Hrok Hle Happ) as (Hrep & _ & _ & _ & Hor & _).
  assert (Hid : is_Some (reply r')) by (rewrite Hrep; apply (ro_reply _ Hrok)).
  destruct (Z.ltb_spec 0 (range_len (remaining_buffer_range r'))) as [Hpos|Hz]; [|by apply Hfinish].
  destruct Hor as [Hor|Hok']; [lia|]. unfold reply_is_closed. destruct Hid as [id Hid]. rewrite Hid. cbn [unwrap mbind outcome_bind].
  destruct (bool_decide _); [apply Hfinish; eauto|].
  destruct (submit_at (set_request i (Some r') q) i r' kern comps) as (q' & Hrun & Hok2 & Hrc & _ & Hc).
  - cbn. apply list_lookup_insert_eq. by eapply lookup_lt_Some.
  - done.
  - cbn. by rewrite list_insert_insert_eq.
  - rewrite Hrun. cbn [mbind outcome_bind]. eexists _, _. split; [done|]. split_and!; try done.
    destruct Hc as [Hc1 Hc2]. split; [done|]. rewrite Hc2. cbn. by rewrite length_insert.
Qed.

Lemma receive_ok canceled requests :
  Forall request_ok requests →
  ∃ r rest, receive canceled requests = Done (r, rest) ∧ Forall request_ok rest ∧ rest `suffix_of` requests
    ∧ match r with Some r => request_ok r | None => True end.
Proof.
  induction 1 as [|r rs Hr Hrs IH]; cbn; [by exists None, []|]. unfold reply_is_closed.
  destruct (ro_reply _ Hr) as [id Hid]. rewrite Hid. cbn [unwrap mbind outcome_bind]. destruct (bool_decide _).
  - destruct IH as (r' & rest & -> & Hok & Hsuf & Hm). exists r', rest. split_and!; try done. by apply suffix_cons_r.
  - exists (Some r), rs. split_and!; try done. by exists [r].
Qed.

Lemma queue_requests_ok n : ∀ i q kern comps canceled waiters now,
  ring_ok (submission q) kern comps (requests_awaiting_completion q) → Forall request_ok (receiver q) →
  (i + n ≤ length (requests_awaiting_completion q))%nat →
  ∃ q' timeout, queue_requests_from n i q canceled waiters now = Done (q', timeout)
    ∧ ring_ok (submission q') kern comps (requests_awaiting_completion q') ∧ Forall request_ok (receiver q')
    ∧ receiver q' `suffix_of` receiver q ∧ same_channel q q'.
Proof.
  induction n as [|n IH]; intros i q kern comps canceled waiters now Hok Hrc Hlen; cbn [queue_requests_from].
  { exists q, (-1). by split_and!. }
  destruct (lookup_lt_is_Some_2 (requests_awaiting_completion q) i ltac:(lia)) as [slot Hslot]. rewrite Hslot. cbn [unwrap mbind outcome_bind].
  destruct slot as [r|]; [apply IH; [done|done|lia]|].
  destruct (receiver q) as [|r0 rs] eqn:Hq; [exists q, (-1); rewrite Hq; by split_and!|]. rewrite <-Hq in *.
  destruct (match write_rate_limit q with Some _ => _ | None => _ end); [exists q, 1; by split_and!|].
  destruct (receive_ok canceled _ Hrc) as (r & rest & -> & Hrest & Hsuf & Hr). cbn [mbind outcome_bind receiver].
  destruct r as [r|]; [|eexists _, _; split; [done|]; by split_and!].
  cbn [submission receiver receiver_closed requests_awaiting_completion write_rate_limit].
  match goal with |- context [queue_request_for_submission ?q0 i] => set (q1 := q0) end.
  assert (Hlt := lookup_lt_Some _ _ _ Hslot).
  destruct (submit_at q1 i r kern comps) as (q2 & Hrun & Hok2 & Hrc2 & _ & Hc1 & Hc2); [by apply list_lookup_insert_eq|done| |].
  { cbn. rewrite list_insert_insert_eq, list_insert_id by done. done. }
  rewrite Hrun. cbn [mbind outcome_bind]. cbn in Hc1, Hc2, Hrc2. rewrite length_insert in Hc2.
  destruct (IH (S i) q2 kern comps canceled waiters now Hok2 ltac:(by rewrite Hrc2) ltac:(lia)) as (q' & t & Hrun' & Hok' & Hrc' & Hsuf' & Hc1' & Hc2').
  exists q', t. split_and!; try done; [etrans; [exact Hsuf'|by rewrite Hrc2]|]. split; congruence.
Qed.

Lemma handle_completions_ok canceled kern rest : ∀ cs q,
  ring_ok (submission q) kern (cs ++ rest) (requests_awaiting_completion q) →
  ∃ q' sent, handle_completions q canceled cs = Done (q', sent)
    ∧ ring_ok (submission q') kern rest (requests_awaiting_completion q') ∧ receiver q' = receiver q ∧ same_channel q q'.
Proof.
  induction cs as [|[i res] cs IH]; intros q Hok; cbn [handle_completions]; [by exists q, []|].
  destruct (handle_completion_ok q kern i res (cs ++ rest) canceled Hok) as (q1 & sent & -> & Hok1 & Hrc1 & Hc1 & Hl1). cbn [mbind outcome_bind].
  destruct (IH q1 Hok1) as (q2 & sent' & -> & Hok2 & Hrc2 & Hc2 & Hl2). cbn [mbind outcome_bind].
  eexists _, _. split; [done|]. split_and!; [done|congruence|split; congruence].
Qed.

Lemma process_iteration_ok q kern cs rest canceled waiters now submit poll :
  ring_ok (submission q) kern (cs ++ rest) (requests_awaiting_completion q) → Forall request_ok (receiver q) →
  ∃ q' sent accepted status, process_iteration q canceled cs waiters now submit poll = Done (q', sent, accepted, status)
    ∧ ring_ok (submission q') (accepted ++ kern) rest (requests_awaiting_completion q')
    ∧ Forall request_ok (receiver q') ∧ receiver q' `suffix_of` receiver q ∧ same_channel q q'
    ∧ (status = Drained → receiver q' = [] ∧ submission q' = [] ∧ accepted ++ kern = [] ∧ rest = []).
Proof.
  intros Hok Hrc. unfold process_iteration. destruct (handle_completions_ok canceled kern rest cs q Hok) as (q1 & sent & -> & Hok1 & Hrc1 & Hc1 & Hl1).
  cbn [mbind outcome_bind]. unfold queue_requests_for_submission.
  destruct (queue_requests_ok (length (requests_awaiting_completion q1)) 0 q1 kern rest canceled waiters now Hok1)
    as (q2 & t & -> & Hok2 & Hrc2 & Hsuf & Hc2 & Hl2); [by rewrite Hrc1|lia|]. cbn [mbind outcome_bind].
  rewrite Hrc1 in Hsuf. assert (Hc : same_channel q q2) by (split; congruence).
  destruct (_ && forallb _ _) eqn:Hend.
  - apply andb_true_iff in Hend as [[_ Hnil%bool_decide_eq_true]%andb_true_iff Hall].
    eexists _, _, _, _. split; [done|]. split_and!; try done. intros _. split; [done|].
    assert (Hnone : tokens (submission q2) kern rest = []).
    { destruct (tokens _ _ _) as [|i l] eqn:Ht; [done|]. destruct (proj1 (rk_tokens _ _ _ _ Hok2 i)) as [r Hr]; [rewrite Ht; by left|].
      rewrite forallb_forall in Hall. specialize (Hall (Some r)). cbn in Hall. assert (false = true); [|done].
      apply Hall, list_elem_of_In. by eapply list_elem_of_lookup_2. }
    unfold tokens in Hnone. apply app_eq_nil in Hnone as [Hs [Hk Hr]%app_eq_nil].
    apply fmap_nil_inv in Hs, Hk, Hr. by rewrite Hk.
  - destruct submit as [n| | |e]; try (eexists _, _, _, _; split; [done|]; split_and!; try done; by destruct poll as [| |[]]).
    assert (Hacc := ring_accept _ _ _ _ n Hok2).
    cbn [submission]. destruct (bool_decide (drop n (submission q2) = [])); eexists _, _, _, _; (split; [done|]; split_and!; try done; by destruct poll as [| |[]]).
Qed.

(** ** Any interleaving of callers, thread and kernel *)

(** Requests as [ReadQueue::read] and [WriteQueue::write_padded] build them. *)
Inductive built : IoRequest → Prop :=
  | built_read files offset buffer n range id r :
      0 ≤ range_start range → new_IoRequest files offset (ReadBuffers buffer n) range id = Done r → built r
  | built_write files offset len bytes scratch b id r :
      from_write_bytes len bytes scratch = Done (Ok b) → new_IoRequest files offset b (mkRange 0 len) id = Done r → built r.

Lemma aligned_of_b z : is_multiple_of z DIRECT_IO_ALIGNMENT_BYTES = true → aligned z.
Proof. intros H. by apply is_multiple_of_spec in H. Qed.

Lemma new_IoRequest_ok fl offset b rg id r :
  new_IoRequest fl offset b rg id = Done r → 0 ≤ range_start rg →
  match b with ReadBuffers _ _ => True | WriteBuffers p t _ => range_end rg = bytes_len p + bytes_len t end → request_ok r.
Proof.
  intros H H0 Hb. unfold new_IoRequest in H.
  destruct (is_multiple_of offset _) eqn:E1; [|done]. destruct (is_multiple_of (range_start rg) _) eqn:E2; [|done].
  destruct (is_multiple_of (range_len rg) _) eqn:E3; [|done]. cbn [assert_that mbind outcome_bind] in H.
  apply aligned_of_b in E1, E2, E3.
  assert (Hend : aligned (offset + range_len rg)) by (unfold aligned in *; by rewrite Zplus_mod, E1, E3).
  destruct b as [buf n|p t iov].
  - destruct (Z.leb_spec (range_end rg) n); [|done]. cbn [assert_that mbind outcome_bind] in H.
    destruct ((0 <? _) && _) eqn:E4; [|done]. cbn [assert_that mbind outcome_bind] in H. injection H as <-. bool_to_prop. split; cbn; eauto.
  - cbn [assert_that mbind outcome_bind] in H. destruct ((0 <? _) && _) eqn:E4; [|done]. cbn [assert_that mbind outcome_bind] in H.
    injection H as <-. bool_to_prop. split; cbn; eauto.
Qed.

(** The prepared buffers hold the bytes followed by zeros. *)
Lemma from_write_bytes_spec len bytes scratch b :
  from_write_bytes len bytes scratch = Done (Ok b) →
  ∃ p t iov, b = WriteBuffers p t iov ∧ bytes_data p ++ bytes_data t = bytes_data bytes ++ zeros (Z.to_nat (len - bytes_len bytes))
    ∧ bytes_len p + bytes_len t = len ∧ bytes_len bytes ≤ len ∧ (bytes_data p ≠ [] → aligned (as_ptr p)) ∧ aligned (bytes_len p).
Proof.
  unfold from_write_bytes. destruct ((_ <=? _) && _) eqn:Ha; [|done]. cbn [assert_that mbind outcome_bind].
  apply andb_true_iff in Ha as [Hle%Z.leb_le Hal%aligned_of_b]. set (n := if is_multiple_of _ _ then _ else _).
  assert (Hn : 0 ≤ n ≤ bytes_len bytes ∧ aligned n ∧ (0 < n → aligned (as_ptr bytes))).
  { unfold n, bytes_len. destruct (is_multiple_of (as_ptr bytes) _) eqn:Hp; [apply aligned_of_b in Hp|].
    - pose proof (Z.mul_div_le (Z.of_nat (length (bytes_data bytes))) DIRECT_IO_ALIGNMENT_BYTES ltac:(done)).
      assert (0 ≤ Z.of_nat (length (bytes_data bytes)) / DIRECT_IO_ALIGNMENT_BYTES) by (apply Z.div_pos; [lia|done]).
      unfold DIRECT_IO_ALIGNMENT_BYTES, BUFFER_ALIGNMENT in *. split_and!; try lia; [|done]. unfold aligned. by apply Z.mod_mul.
    - split_and!; [lia|lia|done|lia]. }
  destruct Hn as (Hn & Hna & Hptr). set (p := bytes_slice 0 n bytes).
  assert (Hp : bytes_data p = take (Z.to_nat n) (bytes_data bytes)).
  { unfold p, bytes_slice, slice. cbn [bytes_data]. by rewrite drop_0, Nat.sub_0_r. }
  assert (Hpl : bytes_len p = n) by (unfold bytes_len; rewrite Hp, length_take; unfold bytes_len in Hn; lia).
  assert (Hpp : bytes_data p ≠ [] → aligned (as_ptr p)).
  { intros Hne. unfold p, bytes_slice. cbn. rewrite Z.add_0_r. apply Hptr. unfold bytes_len in Hpl. destruct (bytes_data p); [done|]. cbn in Hpl. lia. }
  destruct (Z.eqb_spec (len - n) 0) as [Hz|Hz].
  - intros [= <-]. exists p, empty_bytes, [null_iovec; null_iovec]. split; [done|]. split_and!; try done.
    + rewrite Hp. cbn. rewrite app_nil_r, take_ge by (unfold bytes_len in *; lia). replace (len - bytes_len bytes) with 0 by lia. by rewrite app_nil_r.
    + change (bytes_len empty_bytes) with 0. lia.
    + by rewrite Hpl.
  - destruct scratch as [ptr|]; [|done]. intros [= <-]. eexists p, _, _. split; [done|]. cbn [bytes_data].
    assert (Hrest : length (drop (Z.to_nat n) (bytes_data bytes)) = (length (bytes_data bytes) - Z.to_nat n)%nat) by apply length_drop.
    split_and!; try done; [| |by rewrite Hpl].
    + rewrite Hp, app_assoc, take_drop, Hrest. do 3 f_equal. unfold bytes_len in *. lia.
    + rewrite Hpl. unfold bytes_len. cbn. rewrite length_app, length_zeros, Hrest. unfold bytes_len in *. lia.
Qed.

Lemma built_ok r : built r → request_ok r.
Proof.
  destruct 1 as [fl off buf n rg id r H0 H|fl off len bytes sc b id r Hb H].
  - by apply (new_IoRequest_ok _ _ _ _ _ _ H).
  - destruct (from_write_bytes_spec _ _ _ _ Hb) as (p & t & iov & -> & _ & Hlen & _). apply (new_IoRequest_ok _ _ _ _ _ _ H); [cbn; lia|cbn; lia].
Qed.

Record QueueWorld := mkQueueWorld {
  ioq : IoQueue;
  kernel : list Sqe;
  completions : list (nat * Z);
  canceled_replies : gset Z;
  replies : list (Z * Reply);
  running : bool
}.
Definition new_IoQueue (max_in_flight : nat) (limit : option WriteRateLimit) : IoQueue :=
  mkIoQueue [] [] false (replicate max_in_flight None) limit.
Definition new_queue_world (max_in_flight : nat) (limit : option WriteRateLimit) : QueueWorld :=
  mkQueueWorld (new_IoQueue max_in_flight limit) [] [] ∅ [] true.
Definition with_receiver (rs : list IoRequest) (closed : bool) (q : IoQueue) : IoQueue :=
  mkIoQueue (submission q) rs closed (requests_awaiting_completion q) (write_rate_limit q).

(** Callers send (the channel is as long as the array), cancel and disconnect;
    the kernel completes an accepted entry with at most the bytes it asks for; the
    thread runs an iteration on completions that have arrived. *)
Inductive queue_step : QueueWorld → QueueWorld → Prop :=
  | queue_send w r :
      built r → receiver_closed (ioq w) = false →
      (length (receiver (ioq w)) < length (requests_awaiting_completion (ioq w)))%nat →
      queue_step w (mkQueueWorld (with_receiver (receiver (ioq w) ++ [r]) false (ioq w)) (kernel w) (completions w) (canceled_replies w) (replies w) (running w))
  | queue_cancel w id :
      queue_step w (mkQueueWorld (ioq w) (kernel w) (completions w) (canceled_replies w ∪ {[ id ]}) (replies w) (running w))
  | queue_disconnect w :
      queue_step w (mkQueueWorld (with_receiver (receiver (ioq w)) true (ioq w)) (kernel w) (completions w) (canceled_replies w) (replies w) (running w))
  | queue_kernel w kern1 e kern2 res :
      kernel w = kern1 ++ e :: kern2 → res ≤ sqe_len e →
      queue_step w (mkQueueWorld (ioq w) (kern1 ++ kern2) (completions w ++ [(user_data e, res)]) (canceled_replies w) (replies w) (running w))
  | queue_thread w cs rest waiters now submit poll q sent accepted status :
      running w = true → completions w = cs ++ rest →
      process_iteration (ioq w) (canceled_replies w) cs waiters now submit poll = Done (q, sent, accepted, status) →
      queue_step w (mkQueueWorld q (accepted ++ kernel w) rest (canceled_replies w) (replies w ++ sent)
                      (match status with Continue => true | _ => false end)).

Record world_ok (max_in_flight : nat) (w : QueueWorld) : Prop := mkWorldOk {
  wk_ring : ring_ok (submission (ioq w)) (kernel w) (completions w) (requests_awaiting_completion (ioq w));
  wk_channel : Forall request_ok (receiver (ioq w));
  wk_size : length (requests_awaiting_completion (ioq w)) = max_in_flight
}.

Lemma new_queue_world_ok n limit : world_ok n (new_queue_world n limit).
Proof.
  split; cbn; [|done|apply length_replicate]. split; cbn.
  - intros i r [? _]%lookup_replicate. done.
  - apply NoDup_nil_2.
  - intros i. split; [by intros ?%elem_of_nil|]. intros [r [? _]%lookup_replicate]. done.
  - by intros e ?%elem_of_nil.
  - by intros i res ?%elem_of_nil.
Qed.

Lemma queue_step_ok n w w' : queue_step w w' → world_ok n w → world_ok n w'.
Proof.
  intros Hstep [Hr Hc Hs]. destruct Hstep as [w r Hb _ _|w id|w|w k1 e k2 res Hk Hle|w cs rest waiters now submit poll q sent acc st _ Hcs Hrun]; split; cbn; try done.
  - apply Forall_app. split; [done|]. apply Forall_singleton. by apply built_ok.
  - rewrite Hk in Hr. by apply ring_complete.
  - rewrite Hcs in Hr. destruct (process_iteration_ok (ioq w) (kernel w) cs rest (canceled_replies w) waiters now submit poll Hr Hc)
      as (q' & sent' & acc' & st' & Hrun' & Hok & _). rewrite Hrun in Hrun'. by simplify_eq.
  - rewrite Hcs in Hr. destruct (process_iteration_ok (ioq w) (kernel w) cs rest (canceled_replies w) waiters now submit poll Hr Hc)
      as (q' & sent' & acc' & st' & Hrun' & _ & Hok & _). rewrite Hrun in Hrun'. by simplify_eq.
  - rewrite Hcs in Hr. destruct (process_iteration_ok (ioq w) (kernel w) cs rest (canceled_replies w) waiters now submit poll Hr Hc)
      as (q' & sent' & acc' & st' & Hrun' & _ & _ & _ & [_ Hl] & _). rewrite Hrun in Hrun'. simplify_eq. congruence.
Qed.

Lemma queue_reachable n limit w : rtc queue_step (new_queue_world n limit) w → world_ok n w.
Proof.
  intros Hr. assert (Hinit := new_queue_world_ok n limit). induction Hr as [|w1 w2 w3 Hs _ IH]; [done|]. apply IH. by eapply queue_step_ok.
Qed.

(** The buffers the array owns. *)
Definition slot_buffers (slots : list (option IoRequest)) : list (option IoBuffers) := option_map buffers <$> slots.

Lemma leak_requests_spec aw :
  (∀ i r, aw !! i = Some (Some r) → is_Some (reply r)) →
  ∃ rs sent, leak_requests aw = Done (rs, sent) ∧ slot_buffers rs = slot_buffers aw
    ∧ ∀ i r id, aw !! i = Some (Some r) → reply r = Some id → (id, Err QueueStopped) ∈ sent.
Proof.
  induction aw as [|[r|] aw IH]; intros Hall; cbn [leak_requests]; [by exists [], []| |].
  - destruct (Hall 0%nat r eq_refl) as [id Hid]. rewrite Hid. cbn [unwrap mbind outcome_bind].
    destruct IH as (rs & sent & -> & Hb & Hs); [intros i r' Hi; by apply (Hall (S i))|]. cbn [mbind outcome_bind].
    eexists _, _. split; [done|]. split; [unfold slot_buffers in *; by rewrite !fmap_cons, Hb|].
    intros [|i] r' id' Hi Hid'; cbn in Hi; [simplify_eq; left|right; eauto].
  - destruct IH as (rs & sent & -> & Hb & Hs); [intros i r' Hi; by apply (Hall (S i))|]. cbn [mbind outcome_bind].
    eexists _, _. split; [done|]. split; [unfold slot_buffers in *; by rewrite !fmap_cons, Hb|]. intros [|i] r' id' Hi; [done|eauto].
Qed.

(** C26: pointers handed to the kernel stay valid.  In every interleaving of
    callers, kernel and thread, each entry in the submission queue or in the
    kernel belongs to a request that is still in the array with its buffers, asks
    for exactly the rest of that request, and is aligned; there are never more
    entries than positions.  No completion finds an empty position and no
    submission finds the ring full: an iteration of the thread never panics, and
    it ends the loop only when nothing is outstanding.  When the queue fails, the
    requests keep their buffers and every caller is told. *)
Theorem uring_queue_safe max_in_flight limit w :
  rtc queue_step (new_queue_world max_in_flight limit) w →
  (length (submission (ioq w)) + length (kernel w) + length (completions w) ≤ max_in_flight)%nat
  ∧ (∀ e, e ∈ submission (ioq w) ++ kernel w → ∃ r, requests_awaiting_completion (ioq w) !! user_data e = Some (Some r)
       ∧ e = entry_of r (user_data e) ∧ aligned (sqe_offset e) ∧ aligned (sqe_len e)
       ∧ sqe_len e = range_len (remaining_buffer_range r) ∧ 0 < sqe_len e ≤ MAX_IO_REQUEST_BYTES)
  ∧ (∀ cs rest waiters now submit poll, completions w = cs ++ rest →
       ∃ q sent accepted status, process_iteration (ioq w) (canceled_replies w) cs waiters now submit poll = Done (q, sent, accepted, status)
         ∧ (status = Drained → receiver q = [] ∧ kernel w = [] ∧ rest = []))
  ∧ ∃ rs sent, leak_requests (requests_awaiting_completion (ioq w)) = Done (rs, sent)
       ∧ slot_buffers rs = slot_buffers (requests_awaiting_completion (ioq w)).
Proof.
  intros [Hr Hc Hs]%queue_reachable. split_and!.
  - assert (Hle : (length (tokens (submission (ioq w)) (kernel w) (completions w)) ≤ max_in_flight)%nat).
    { rewrite <-Hs, <-(length_seq (length (requests_awaiting_completion (ioq w))) 0).
      apply submseteq_length, NoDup_submseteq; [apply (rk_NoDup _ _ _ _ Hr)|]. intros i Hi. apply elem_of_seq. split; [lia|]. by eapply token_bound. }
    unfold tokens in Hle. rewrite !length_app, !length_fmap in Hle. lia.
  - intros e He. destruct (rk_entries _ _ _ _ Hr e He) as (r & Hslot & Heq). exists r. split; [done|]. split; [done|].
    assert (Hrok := rk_requests _ _ _ _ Hr _ _ Hslot). destruct (entry_spec r (user_data e) Hrok) as (_ & Hlen & Ho & Hl & _).
    rewrite <-Heq in *. split_and!; try done; rewrite Hlen; by destruct (ro_len _ Hrok) as [[? ?] _].
  - intros cs rest waiters now submit poll Hcs. rewrite Hcs in Hr.
    destruct (process_iteration_ok (ioq w) (kernel w) cs rest (canceled_replies w) waiters now submit poll Hr Hc)
      as (q & sent & acc & st & Hrun & _ & _ & _ & _ & Hdr). exists q, sent, acc, st. split; [done|].
    intros Hst. destruct (Hdr Hst) as (? & _ & [_ ?]%app_eq_nil & ?). done.
  - destruct (leak_requests_spec (requests_awaiting_completion (ioq w))) as (rs & sent & Hrun & Hb & _); [|by exists rs, sent].
    intros i r Hi. apply (ro_reply _ (rk_requests _ _ _ _ Hr _ _ Hi)).
Qed.

(** A read that the kernel has accepted. *)
Definition sample_request : IoRequest := mkIoRequest 0 8192 (ReadBuffers 1 8192) (mkRange 0 8192) (Some 7).
Definition sample_world : QueueWorld :=
  mkQueueWorld (mkIoQueue [] [] false (<[0%nat := Some sample_request]> (replicate 4 None)) None) [entry_of sample_request 0] [] ∅ [] true.

Lemma sample_world_reachable : rtc queue_step (new_queue_world 4 None) sample_world.
Proof.
  eapply rtc_l.
  { apply (queue_send _ sample_request); [|done|cbn; lia]. by apply (built_read 0 0 1 8192 (mkRange 0 8192) 7). }
  eapply rtc_l; [|reflexivity].
  exact (queue_thread (mkQueueWorld (with_receiver [sample_request] false (new_IoQueue 4 None)) [] [] ∅ [] true) [] []
           (mkReadQueueWaiters 0 None) 0 (Submitted 1) PollInterrupted _ _ _ _ eq_refl eq_refl eq_refl).
Qed.

Lemma uring_queue_safe_witness :
  ∃ r, requests_awaiting_completion (ioq sample_world) !! 0%nat = Some (Some r) ∧ sqe_len (entry_of sample_request 0) = range_len (remaining_buffer_range r).
Proof.
  destruct (uring_queue_safe 4 None sample_world sample_world_reachable) as (_ & Hent & _).
  destruct (Hent (entry_of sample_request 0)) as (r & Hr & _ & _ & _ & Hlen & _); [left|]. exists r. split; [exact Hr|exact Hlen].
Defined.
