(* ===== verification/ReadWait.v ===== *)
(** * Waiting for room in the read channel ([ReadQueueWait] and
    [ReadQueue::reserve_channel_capacity] of [feuer-storage/src/uring.rs])

    A read reserves a slot of the bounded channel before it prepares its buffers.
    While it waits, a guard counts it in a gauge; from the first poll that finds the
    channel full, the guard also counts it among the waiting reads that make the
    write queue pace itself.  The guard's [Drop] undoes both, also when the caller is
    canceled.

    The channel is [tokio::sync::mpsc]: a slot that is given back is handed to a
    waiting reservation or becomes free, and a poll may return [Pending] although
    there is room (a cooperative yield). *)

From S2P Require Import Prelude Codec Errors Admission Uring.

(** [ReadQueueWait]; [counted] is whether it refers to the waiting reads. *)
Record ReadQueueWait := mkReadQueueWait { counted : bool; wait_started_at : Z }.

(** What all readers share: the free slots of the channel, whether its receiver is
    gone, the waiting reads, and the metrics of the wait. *)
Record ReadChannel := mkReadChannel {
  channel_capacity : Z;
  channel_closed : bool;
  read_queue_waiters : ReadQueueWaiters;
  waiters_gauge : Z;
  wait_durations : list Z
}.

(** A poll that returned [Pending]. *)
Definition note_pending (ch : ReadChannel) (wait : option ReadQueueWait) (now : Z) : ReadChannel * ReadQueueWait :=
  let '(ch, w) := match wait with
                  | Some w => (ch, w)
                  | None => (mkReadChannel (channel_capacity ch) (channel_closed ch) (read_queue_waiters ch) (waiters_gauge ch + 1) (wait_durations ch),
                             mkReadQueueWait false now)
                  end in
  if negb (counted w) && (channel_capacity ch =? 0) then
    let r := read_queue_waiters ch in
    (mkReadChannel (channel_capacity ch) (channel_closed ch) (mkReadQueueWaiters (reads_waiting r + 1) (last_wait_ended_at r)) (waiters_gauge ch) (wait_durations ch),
     mkReadQueueWait true (wait_started_at w))
  else (ch, w).

(** [Drop for ReadQueueWait] *)
Definition drop_wait (ch : ReadChannel) (wait : option ReadQueueWait) (now : Z) : outcome ReadChannel :=
  match wait with
  | None => Done ch
  | Some w =>
      r ← (if counted w then remove_waiting_read (read_queue_waiters ch) now else Done (read_queue_waiters ch));
      Done (mkReadChannel (channel_capacity ch) (channel_closed ch) r (waiters_gauge ch - 1)
              (wait_durations ch ++ [saturating_sub now (wait_started_at w)]))
  end.

(** ** Readers and the channel *)

(** A caller of [reserve_channel_capacity]: polling, with or without a slot that was
    handed to it, or leaving with an answer ([None] when it was canceled). *)
Inductive ReaderPhase := Polling (slot : bool) | Leaving (answer : option (result io_error ())).
Record Reader := mkReader {
  reader_wait : option ReadQueueWait;
  reader_phase : ReaderPhase;
  (** the free slots that its polls which returned [Pending] found, for the specification *)
  reader_polls : list Z
}.
Record ReadWorld := mkReadWorld {
  read_channel : ReadChannel;
  readers : list Reader;
  (** slots of callers that hold a permit, and of requests in the channel *)
  slots_in_use : Z;
  read_clock : Z;
  (** when the last reader that had found the channel full left, for the specification *)
  last_full_left : option Z
}.
Definition new_read_world (max_in_flight now : Z) : ReadWorld :=
  mkReadWorld (mkReadChannel max_in_flight false (mkReadQueueWaiters 0 None) 0 []) [] 0 now None.

Definition with_capacity (n : Z) (ch : ReadChannel) : ReadChannel :=
  mkReadChannel n (channel_closed ch) (read_queue_waiters ch) (waiters_gauge ch) (wait_durations ch).
Definition close_channel (ch : ReadChannel) : ReadChannel :=
  mkReadChannel (channel_capacity ch) true (read_queue_waiters ch) (waiters_gauge ch) (wait_durations ch).

(** One that leaves is the last one when none of the others [rs] has. *)
Definition after_leaving (ps : list Z) (rs : list Reader) (now : Z) (last : option Z) : option Z :=
  if decide (0 ∈ ps ∧ Forall (λ r, 0 ∉ reader_polls r) rs) then Some now else last.

Inductive read_step : ReadWorld → ReadWorld → Prop :=
  | read_starts ch rs used now last :
      read_step (mkReadWorld ch rs used now last) (mkReadWorld ch (rs ++ [mkReader None (Polling false) []]) used now last)
  | poll_pending ch ch' rs1 wait w slot ps rs2 used now last :
      note_pending ch wait now = (ch', w) →
      read_step (mkReadWorld ch (rs1 ++ mkReader wait (Polling slot) ps :: rs2) used now last)
        (mkReadWorld ch' (rs1 ++ mkReader (Some w) (Polling slot) (ps ++ [channel_capacity ch]) :: rs2) used now last)
  | poll_takes_free ch rs1 wait ps rs2 used now last :
      0 < channel_capacity ch → channel_closed ch = false →
      read_step (mkReadWorld ch (rs1 ++ mkReader wait (Polling false) ps :: rs2) used now last)
        (mkReadWorld (with_capacity (channel_capacity ch - 1) ch) (rs1 ++ mkReader wait (Leaving (Some (Ok ()))) ps :: rs2) (used + 1) now last)
  | poll_takes_slot ch rs1 wait ps rs2 used now last :
      read_step (mkReadWorld ch (rs1 ++ mkReader wait (Polling true) ps :: rs2) used now last)
        (mkReadWorld ch (rs1 ++ mkReader wait (Leaving (Some (Ok ()))) ps :: rs2) (used + 1) now last)
  | poll_finds_closed ch rs1 wait ps rs2 used now last :
      channel_closed ch = true →
      read_step (mkReadWorld ch (rs1 ++ mkReader wait (Polling false) ps :: rs2) used now last)
        (mkReadWorld ch (rs1 ++ mkReader wait (Leaving (Some (Err QueueStopped))) ps :: rs2) used now last)
  | read_canceled ch rs1 wait ps rs2 used now last :
      read_step (mkReadWorld ch (rs1 ++ mkReader wait (Polling false) ps :: rs2) used now last)
        (mkReadWorld ch (rs1 ++ mkReader wait (Leaving None) ps :: rs2) used now last)
  | read_canceled_with_slot ch rs1 wait ps rs2 used now last :
      (** the slot counts as in use until it is passed on by [slot_freed] or [slot_handed] *)
      read_step (mkReadWorld ch (rs1 ++ mkReader wait (Polling true) ps :: rs2) used now last)
        (mkReadWorld ch (rs1 ++ mkReader wait (Leaving None) ps :: rs2) (used + 1) now last)
  | read_leaves ch ch' rs1 wait answer ps rs2 used now last :
      drop_wait ch wait now = Done ch' →
      read_step (mkReadWorld ch (rs1 ++ mkReader wait (Leaving answer) ps :: rs2) used now last) (mkReadWorld ch' (rs1 ++ rs2) used now (after_leaving ps (rs1 ++ rs2) now last))
  | slot_freed ch rs used now last :
      0 < used →
      read_step (mkReadWorld ch rs used now last) (mkReadWorld (with_capacity (channel_capacity ch + 1) ch) rs (used - 1) now last)
  | slot_handed ch rs1 wait ps rs2 used now last :
      0 < used →
      read_step (mkReadWorld ch (rs1 ++ mkReader wait (Polling false) ps :: rs2) used now last)
        (mkReadWorld ch (rs1 ++ mkReader wait (Polling true) ps :: rs2) (used - 1) now last)
  | read_queue_stops ch rs used now last :
      read_step (mkReadWorld ch rs used now last) (mkReadWorld (close_channel ch) rs used now last)
  | read_time ch rs used now now' last :
      now ≤ now' → read_step (mkReadWorld ch rs used now last) (mkReadWorld ch rs used now' last).

(** ** Invariant *)
Definition waiting_one (r : Reader) : Z := match reader_wait r with Some _ => 1 | None => 0 end.
Definition counted_one (r : Reader) : Z := match reader_wait r with Some w => if counted w then 1 else 0 | None => 0 end.
Definition slot_one (r : Reader) : Z := match reader_phase r with Polling true => 1 | _ => 0 end.

(** The guard of a reader says what its polls found. *)
Definition guard_ok (r : Reader) : Prop :=
  match reader_wait r with
  | None => reader_polls r = []
  | Some w => reader_polls r ≠ [] ∧ counted w = bool_decide (0 ∈ reader_polls r)
  end.

Record read_world_ok (n : Z) (w : ReadWorld) : Prop := mkReadWorldOk {
  rw_guards : Forall guard_ok (readers w);
  rw_gauge : waiters_gauge (read_channel w) = zsum waiting_one (readers w);
  rw_counted : reads_waiting (read_queue_waiters (read_channel w)) = zsum counted_one (readers w);
  rw_slots : channel_capacity (read_channel w) + zsum slot_one (readers w) + slots_in_use w = n;
  rw_bounds : 0 ≤ channel_capacity (read_channel w) ∧ 0 ≤ slots_in_use w;
  rw_last : last_wait_ended_at (read_queue_waiters (read_channel w)) = last_full_left w;
  rw_ended : ∀ t, last_wait_ended_at (read_queue_waiters (read_channel w)) = Some t → t ≤ read_clock w
}.

Lemma counted_nonneg rs : 0 ≤ zsum counted_one rs.
Proof. apply zsum_nonneg. intros [[[[] ?]|] ? ?] _; cbn; lia. Qed.

(** A pending poll counts each reader at most once, and only on a full channel. *)
Lemma note_pending_spec ch wait now ch' w phase ps ps' :
  note_pending ch wait now = (ch', w) →
  waiters_gauge ch' = waiters_gauge ch - waiting_one (mkReader wait phase ps) + 1
  ∧ reads_waiting (read_queue_waiters ch') = reads_waiting (read_queue_waiters ch) - counted_one (mkReader wait phase ps) + counted_one (mkReader (Some w) phase ps')
  ∧ last_wait_ended_at (read_queue_waiters ch') = last_wait_ended_at (read_queue_waiters ch)
  ∧ channel_capacity ch' = channel_capacity ch
  ∧ (reads_waiting (read_queue_waiters ch') ≠ reads_waiting (read_queue_waiters ch) → channel_capacity ch = 0)
  ∧ counted w = match wait with Some w0 => counted w0 | None => false end || (channel_capacity ch =? 0).
Proof.
  unfold note_pending. destruct wait as [[[] t]|]; cbn [counted negb andb channel_capacity];
    destruct (Z.eqb_spec (channel_capacity ch) 0); intros [= <- <-]; cbn; split_and!; (done || lia).
Qed.

Lemma note_pending_guard ch wait now ch' w phase ps :
  note_pending ch wait now = (ch', w) → guard_ok (mkReader wait phase ps) → guard_ok (mkReader (Some w) phase (ps ++ [channel_capacity ch])).
Proof.
  intros Hnote. destruct (note_pending_spec _ _ _ _ _ phase ps ps Hnote) as (_ & _ & _ & _ & _ & Hcw). unfold guard_ok. cbn [reader_wait reader_polls]. rewrite Hcw. intros Hg. split; [by destruct ps|].
  assert (Hw : match wait with Some w0 => counted w0 | None => false end = bool_decide (0 ∈ ps)) by (destruct wait; [apply Hg|by rewrite Hg]). rewrite Hw. clear.
  apply eq_true_iff_eq. rewrite orb_true_iff, !bool_decide_eq_true, elem_of_app, list_elem_of_singleton, Z.eqb_eq. naive_solver.
Qed.

Lemma drop_wait_spec ch r now :
  counted_one r ≤ reads_waiting (read_queue_waiters ch) →
  ∃ ch', drop_wait ch (reader_wait r) now = Done ch'
    ∧ waiters_gauge ch' = waiters_gauge ch - waiting_one r
    ∧ reads_waiting (read_queue_waiters ch') = reads_waiting (read_queue_waiters ch) - counted_one r
    ∧ Z.of_nat (length (wait_durations ch')) = Z.of_nat (length (wait_durations ch)) + waiting_one r
    ∧ channel_capacity ch' = channel_capacity ch
    ∧ last_wait_ended_at (read_queue_waiters ch')
      = if (counted_one r =? 1) && (reads_waiting (read_queue_waiters ch) =? 1) then Some now else last_wait_ended_at (read_queue_waiters ch).
Proof.
  destruct r as [[[[] t]|] phase ps]; unfold counted_one, waiting_one; cbn; intros Hle.
  - unfold remove_waiting_read. destruct (Z.ltb_spec 0 (reads_waiting (read_queue_waiters ch))); [|lia]. cbn [assert_that mbind outcome_bind].
    eexists. split; [done|]. cbn [waiters_gauge read_queue_waiters reads_waiting wait_durations channel_capacity last_wait_ended_at]. rewrite length_app. cbn [length].
    split_and!; try lia. destruct (Z.eqb_spec (reads_waiting (read_queue_waiters ch) - 1) 0), (Z.eqb_spec (reads_waiting (read_queue_waiters ch)) 1); (done || lia).
  - eexists. split; [done|]. cbn [waiters_gauge read_queue_waiters reads_waiting wait_durations channel_capacity last_wait_ended_at]. rewrite length_app. cbn [length]. split_and!; (done || lia).
  - eexists. split; [done|]. split_and!; (done || lia).
Qed.

(** The guards count the readers by their polls. *)
Definition pending_one (r : Reader) : Z := match reader_polls r with [] => 0 | _ => 1 end.
Definition full_one (r : Reader) : Z := if bool_decide (0 ∈ reader_polls r) then 1 else 0.

Lemma guards_count rs : Forall guard_ok rs → zsum waiting_one rs = zsum pending_one rs ∧ zsum counted_one rs = zsum full_one rs.
Proof.
  induction 1 as [|[wait phase ps] rs Hg _ [IHw IHc]]; [done|]. rewrite !zsum_cons, IHw, IHc. unfold guard_ok in Hg. unfold waiting_one, pending_one, counted_one, full_one.
  cbn [reader_wait reader_polls] in *. destruct wait as [w|]; [|by subst ps]. destruct Hg as [Hne ->]. by destruct ps.
Qed.

Lemma some_full rs : (0 < zsum full_one rs) ↔ ∃ r, r ∈ rs ∧ 0 ∈ reader_polls r.
Proof.
  assert (Hnn : ∀ l, 0 ≤ zsum full_one l) by (intros l; apply zsum_nonneg; intros r _; unfold full_one; case_bool_decide; lia).
  induction rs as [|r rs IH]; [rewrite zsum_nil; split; [lia|set_solver]|]. rewrite zsum_cons. specialize (Hnn rs). unfold full_one at 1. case_bool_decide as Hr.
  - split; [|lia]. intros _. exists r. split; [left|done].
  - rewrite Z.add_0_l, IH. set_solver.
Qed.

(** The steps that only move a reader or a slot. *)
Local Ltac move_slots := constructor; cbn [read_channel readers slots_in_use read_clock with_capacity close_channel channel_capacity waiters_gauge read_queue_waiters] in *;
  rewrite ?Forall_app, ?Forall_cons, ?Forall_nil, ?zsum_app, ?zsum_cons, ?zsum_nil in *; cbn [waiting_one counted_one slot_one reader_wait reader_phase] in *;
  (done || lia || (unfold guard_ok in *; cbn [reader_wait reader_polls] in *; tauto) || (intros; naive_solver lia)).

Lemma read_step_ok n w w' : read_step w w' → read_world_ok n w → read_world_ok n w'.
Proof.
  intros Hstep [Hgu Hg Hc Hs Hb Hla He].
  destruct Hstep as [| ch ch' rs1 wait w slot ps rs2 used now last Hnote| | | | | |ch ch' rs1 wait answer ps rs2 used now last Hdrop| | | |]; try move_slots.
  - destruct (note_pending_spec _ _ _ _ _ (Polling slot) ps (ps ++ [channel_capacity ch]) Hnote) as (Hg' & Hc' & Hl' & Hcap' & _).
    constructor; cbn [read_channel readers slots_in_use read_clock] in *; rewrite ?zsum_app, ?zsum_cons in *; [| | | |lia|by rewrite Hl'|by rewrite Hl'].
    + apply Forall_app in Hgu as [Hgu1 [Hgr Hgu2]%Forall_cons]. apply Forall_app. split; [done|]. constructor; [by eapply note_pending_guard|done].
    + rewrite Hg', Hg. cbn. lia.
    + rewrite Hc', Hc. lia.
    + rewrite Hcap'. exact Hs.
  - cbn [read_channel readers slots_in_use read_clock] in *. set (r := mkReader wait (Leaving answer) ps) in *.
    destruct (drop_wait_spec ch r now) as (ch1 & Hrun & Hg' & Hc' & _ & Hcap' & Hl').
    { rewrite Hc, zsum_app, zsum_cons. pose proof (counted_nonneg rs1). pose proof (counted_nonneg rs2). lia. }
    change (reader_wait r) with wait in Hrun. rewrite Hdrop in Hrun. injection Hrun as <-.
    constructor; cbn [read_channel readers slots_in_use read_clock]; rewrite ?zsum_app, ?zsum_cons in *; [|lia|lia| |lia| |].
    + apply Forall_app in Hgu as [? [_ ?]%Forall_cons]. by apply Forall_app.
    + rewrite Hcap'. change (slot_one r) with 0 in Hs. lia.
    + rewrite Hl'. cbn [last_full_left] in *. unfold after_leaving. assert (Hf : Forall guard_ok (rs1 ++ rs2)) by (apply Forall_app in Hgu as [? [_ ?]%Forall_cons]; by apply Forall_app).
      assert (Hr : guard_ok r) by (by apply Forall_app in Hgu as [? [? _]%Forall_cons]). destruct (guards_count _ Hf) as [_ Hcnt]. rewrite zsum_app in Hcnt.
      destruct (guards_count [r]) as [_ Hone]; [by constructor|]. rewrite !zsum_cons, !zsum_nil, !Z.add_0_r in Hone.
      assert (Hz : zsum full_one (rs1 ++ rs2) = 0 ↔ Forall (λ r, 0 ∉ reader_polls r) (rs1 ++ rs2)).
      { rewrite Forall_forall. pose proof (some_full (rs1 ++ rs2)) as Hsf. assert (0 ≤ zsum full_one (rs1 ++ rs2)) by (rewrite <-Hcnt, <-zsum_app; apply counted_nonneg).
        split; [intros H0 x Hx Hp; assert (0 < zsum full_one (rs1 ++ rs2)) by (apply Hsf; by exists x); lia|].
        intros Hno. destruct (decide (0 < zsum full_one (rs1 ++ rs2))) as [(x & Hx & Hp)%Hsf|]; [by destruct (Hno x Hx)|lia]. }
      unfold full_one at 1 in Hone. change (reader_polls r) with ps in Hone. case_bool_decide as Hin; rewrite Hone; cbn [Z.eqb andb].
      * destruct (Z.eqb_spec (reads_waiting (read_queue_waiters ch)) 1); [rewrite decide_True by (split; [done|apply Hz; lia]); done|rewrite decide_False by (intros [_ H0%Hz]; lia); done].
      * rewrite decide_False by tauto. done.
    + rewrite Hl'. intros t. case_match; [intros [= <-]; lia|apply He].
  - constructor; [done..|]. intros t Ht. specialize (He t Ht). cbn [read_clock] in *. lia.
Qed.

Lemma read_reachable n now w : 0 ≤ n → rtc read_step (new_read_world n now) w → read_world_ok n w.
Proof.
  intros Hn. apply (rtc_ind_r (read_world_ok n)).
  - constructor; cbn; rewrite ?zsum_nil; (done || lia).
  - intros w1 w2 _ Hstep Hok. by eapply read_step_ok.
Qed.

(** C35: a waiting read is counted exactly while it waits.  However readers start,
    poll, are canceled, get slots and leave, the slots of the channel are neither lost
    nor duplicated; the gauge is the number of present readers one of whose polls
    returned [Pending], and the counter the number of those with such a poll that
    found the channel full, so dropping a guard never underflows and nothing stays
    counted once all readers left.  The write queue is therefore limited exactly while
    a read that found the channel full is there and for 100 ms after the last one
    stopped: until then no write is admitted beside an active one, and afterwards none
    is held back. *)
Theorem read_waits_accounted n start w :
  0 ≤ n → rtc read_step (new_read_world n start) w →
  let ch := read_channel w in
  channel_capacity ch + zsum slot_one (readers w) + slots_in_use w = n
  ∧ waiters_gauge ch = zsum pending_one (readers w) ∧ reads_waiting (read_queue_waiters ch) = zsum full_one (readers w)
  ∧ (∀ r, r ∈ readers w → ∃ ch', drop_wait ch (reader_wait r) (read_clock w) = Done ch')
  ∧ (readers w = [] → waiters_gauge ch = 0 ∧ reads_waiting (read_queue_waiters ch) = 0)
  ∧ ∀ limit now, read_clock w ≤ now →
      let limited := (∃ r, r ∈ readers w ∧ 0 ∈ reader_polls r)
                     ∨ ∃ ended, last_full_left w = Some ended ∧ now < ended + WRITE_LIMIT_AFTER_READ_WAIT in
      (limited → must_wait limit (read_queue_waiters ch) true now = true) ∧ (¬ limited → ∀ active, must_wait limit (read_queue_waiters ch) active now = false).
Proof.
  intros Hn Hreach ch. destruct (read_reachable n start w Hn Hreach) as [Hgu Hg Hc Hs Hb Hla He]. destruct (guards_count _ Hgu) as [Hpend Hfull]. rewrite <-Hpend, <-Hfull. split_and!; [done|done|done| | |].
  - intros r Hr. destruct (drop_wait_spec ch r (read_clock w)) as (ch' & Hrun & _); [|by exists ch'].
    unfold ch. rewrite Hc. apply zsum_elem_le; [|done]. intros [[[[] ?]|] ? ?] _; cbn; lia.
  - intros Hnil. unfold ch. by rewrite Hg, Hc, Hnil.
  - intros limit now Hnow limited.
    assert (Hlim : write_limited (read_queue_waiters ch) now = true ↔ limited).
    { unfold write_limited, limited. rewrite <-some_full, <-Hfull, <-Hc, <-Hla. fold ch. rewrite orb_true_iff, Z.ltb_lt. apply or_iff_compat_l.
      destruct (last_wait_ended_at (read_queue_waiters ch)) as [ended|] eqn:Hended; [|split; [done|by intros (? & ? & _)]].
      rewrite Z.ltb_lt. specialize (He ended Hended). unfold saturating_sub, WRITE_LIMIT_AFTER_READ_WAIT.
      split; [intros ?; exists ended; split; [done|lia]|intros (? & [= <-] & ?); lia]. }
    unfold must_wait. destruct (write_limited _ now); [split; [done|]|split; [|done]]; intros Hl; exfalso; [by apply Hl, Hlim|by apply Hlim in Hl].
Qed.

(** A channel of one slot: one read has it, another waits. *)
Definition sample_reader : Reader := mkReader (Some (mkReadQueueWait true 5)) (Polling false) [0].
Definition sample_read_world : ReadWorld := mkReadWorld (mkReadChannel 0 false (mkReadQueueWaiters 1 None) 1 []) [sample_reader] 1 5 None.

Lemma sample_read_reachable : rtc read_step (new_read_world 1 5) sample_read_world.
Proof.
  eapply rtc_l; [apply read_starts|]. eapply rtc_l; [by apply (poll_takes_free _ [])|]. eapply rtc_l; [by eapply (read_leaves _ _ [])|].
  eapply rtc_l; [apply read_starts|]. eapply rtc_l; [by eapply (poll_pending _ _ [])|]. apply rtc_refl.
Qed.

Lemma read_waits_accounted_witness :
  must_wait (mkWriteRateLimit 0) (read_queue_waiters (read_channel sample_read_world)) true 9 = true
  ∧ reads_waiting (read_queue_waiters (read_channel sample_read_world)) = zsum full_one [sample_reader]
  ∧ ∃ ch, drop_wait (read_channel sample_read_world) (Some (mkReadQueueWait true 5)) 5 = Done ch.
Proof.
  destruct (read_waits_accounted 1 5 sample_read_world) as (_ & _ & Hcounted & Hdrop & _ & Hlim); [lia|exact sample_read_reachable|]. split_and!.
  - apply Hlim; [cbn; lia|]. left. exists sample_reader. split; left.
  - exact Hcounted.
  - apply (Hdrop sample_reader). left.
Defined.
