(* ===== verification/ReadBuffers.v ===== *)
(** * Ownership of read buffers ([ReadBuffer], [IoRequest::send_result] and
    [ReadQueue::read] of [feuer-storage/src/uring.rs])

    The pieces of one read share an allocation through [Arc]s.  A request holds one
    until its completion, when it is moved into the reply; the caller drops it when
    it receives the reply.  After the last reply the caller takes the buffer out of
    its own [Arc], which panics unless nobody else owns it. *)

From S2P Require Import Prelude Codec Errors Disk Allocation Admission Uring.

(** The reply channel of a request and the read buffer it owns. *)
Definition read_buffer (b : IoBuffers) : option Z := match b with ReadBuffers buffer _ => Some buffer | WriteBuffers _ _ _ => None end.
Definition ticket (r : IoRequest) : option Z * option Z := (reply r, read_buffer (buffers r)).
Definition slot_tickets (slots : list (option IoRequest)) : list (option Z * option Z) := omap (fmap ticket) slots.
Definition tickets (q : IoQueue) : list (option Z * option Z) := (ticket <$> receiver q) ++ slot_tickets (requests_awaiting_completion q).

Definition reply_buffer (s : Z * Reply) : option Z := match s.2 with Ok o => o | Err _ => None end.

(** [ReadBuffer::into_buffer]: the owners are the caller, the requests of the queue
    and the replies that have not been received. *)
Definition buffer_owners (buffer : Z) (q : IoQueue) (undelivered : list (Z * Reply)) : nat :=
  S (length (filter (λ t, t.2 = Some buffer) (tickets q)) + length (filter (λ s, reply_buffer s = Some buffer) undelivered)).
Definition into_buffer (buffer : Z) (q : IoQueue) (undelivered : list (Z * Reply)) : outcome () :=
  assert_that (bool_decide (buffer_owners buffer q undelivered = 1%nat)).

(** ** Where requests go *)


(** Some tickets are answered, in the order of the replies, some were discarded
    because their callers canceled, and the others remain. *)
Definition answers (t : option Z * option Z) (s : Z * Reply) : Prop := t.1 = Some s.1 ∧ ∀ o, s.2 = Ok o → o = t.2.
Definition settled (canceled : gset Z) (T T' : list (option Z * option Z)) (sent : list (Z * Reply)) : Prop :=
  ∃ answered dropped, T ≡ₚ answered ++ dropped ++ T' ∧ Forall2 answers answered sent ∧ Forall (λ t, ∃ id, t.1 = Some id ∧ id ∈ canceled) dropped.

Global Instance settled_perm canceled : Proper ((≡ₚ) ==> (≡ₚ) ==> (=) ==> iff) (settled canceled).
Proof. intros T1 T2 HT T1' T2' HT' sent _ <-. unfold settled. by setoid_rewrite HT; setoid_rewrite HT'. Qed.

Lemma settled_refl canceled T : settled canceled T T [].
Proof. by exists [], []. Qed.

Lemma settled_trans canceled T1 T2 T3 sent1 sent2 :
  settled canceled T1 T2 sent1 → settled canceled T2 T3 sent2 → settled canceled T1 T3 (sent1 ++ sent2).
Proof.
  intros (a1 & d1 & H1 & A1 & D1) (a2 & d2 & H2 & A2 & D2). exists (a1 ++ a2), (d1 ++ d2). split_and!; [|by apply Forall2_app|by apply Forall_app].
  rewrite H1, H2. solve_Permutation.
Qed.

Lemma settled_mono (canceled canceled' : gset Z) T T' sent : canceled ⊆ canceled' → settled canceled T T' sent → settled canceled' T T' sent.
Proof. intros Hsub (a & d & HT & HA & HD). exists a, d. split_and!; [done|done|]. eapply Forall_impl; [exact HD|]. cbn. set_solver. Qed.

Lemma settled_more canceled T T' sent t : settled canceled T T' sent → settled canceled (t :: T) (t :: T') sent.
Proof. intros (a & d & HT & HA & HD). exists a, d. split_and!; [|done|done]. rewrite HT. solve_Permutation. Qed.

Lemma slot_tickets_insert slots i old new :
  slots !! i = Some old → option_list (ticket <$> old) ++ slot_tickets (<[i := new]> slots) ≡ₚ option_list (ticket <$> new) ++ slot_tickets slots.
Proof.
  revert i. induction slots as [|s slots IH]; intros [|i] Hi; try done; cbn in Hi.
  - injection Hi as ->. unfold slot_tickets. cbn. destruct (ticket <$> old), (ticket <$> new); cbn; solve_Permutation.
  - unfold slot_tickets in *. specialize (IH i Hi). cbn. destruct (ticket <$> s) as [t|]; [|exact IH]. rewrite <-!Permutation_middle. by rewrite IH.
Qed.

Lemma prepared_ticket r i : ticket (prepared r i) = ticket r.
Proof. unfold prepared, request_submission_entry, ticket. by destruct (buffers r). Qed.

(** Resubmitting keeps every ticket. *)
Lemma queue_request_tickets q i q' : queue_request_for_submission q i = Done q' → tickets q' ≡ₚ tickets q.
Proof.
  unfold queue_request_for_submission. destruct (requests_awaiting_completion q !! i) as [[r|]|] eqn:Hi; try done. cbn [unwrap mbind outcome_bind].
  destruct (request_submission_entry r i) as [r' e] eqn:He. destruct (assert_that _); [|done]. cbn [mbind outcome_bind]. intros [= <-].
  unfold tickets. cbn [receiver requests_awaiting_completion]. apply Permutation_app_head.
  pose proof (slot_tickets_insert _ _ _ (Some r') Hi) as Hins. cbn in Hins. assert (Ht := prepared_ticket r i). unfold prepared in Ht. rewrite He in Ht. cbn in Ht.
  rewrite Ht in Hins. by apply Permutation_cons_inv in Hins.
Qed.

Lemma set_request_tickets q i old new :
  requests_awaiting_completion q !! i = Some old → option_list (ticket <$> old) ++ tickets (set_request i new q) ≡ₚ option_list (ticket <$> new) ++ tickets q.
Proof.
  intros Hi. unfold tickets, set_request. cbn [receiver requests_awaiting_completion]. pose proof (slot_tickets_insert _ _ _ new Hi) as Hins.
  rewrite !(Permutation_app_comm (option_list _)), <-!app_assoc. apply Permutation_app_head. by rewrite !(Permutation_app_comm _ (option_list _)).
Qed.

Lemma apply_completion_ticket r res r' : apply_completion_result r res = Ok r' → ticket r' = ticket r.
Proof.
  unfold apply_completion_result. destruct (_ =? - EINTR); [by intros [= <-]|]. destruct (_ <? 0); [by destruct (buffers r)|].
  destruct (_ || _); [done|]. by intros [= <-].
Qed.

(** A completion answers its request or keeps it. *)
Lemma handle_completion_settles q canceled i res q' sent :
  handle_io_completion q canceled i res = Done (q', sent) → settled canceled (tickets q) (tickets q') sent.
Proof.
  unfold handle_io_completion. destruct (requests_awaiting_completion q !! i) as [[r|]|] eqn:Hi; try done. cbn [unwrap mbind outcome_bind].
  assert (Hfinish : ∀ r' x, ticket r' = ticket r → (sent ← send_result r' x; Done (set_request i None q, [sent])) = Done (q', sent) →
    settled canceled (tickets q) (tickets q') sent).
  { intros r' x Ht. unfold send_result. destruct (reply r') as [id|] eqn:Hid; [|done]. cbn [unwrap mbind outcome_bind]. intros [= <- <-].
    exists [ticket r], []. split_and!; [by rewrite <-(set_request_tickets q i (Some r) None Hi)| |done]. constructor; [|done]. rewrite <-Ht. split; [by cbn; rewrite Hid|].
    intros o. destruct x as [[]|e]; [|done]. cbn. intros [= <-]. by destruct (buffers r'). }
  destruct (apply_completion_result r res) as [r'|e] eqn:Happ; [|by apply Hfinish]. apply apply_completion_ticket in Happ.
  destruct (0 <? _); [|by apply Hfinish]. destruct (reply_is_closed canceled r') as [[]|]; cbn [mbind outcome_bind]; [by apply Hfinish| |done].
  destruct (queue_request_for_submission _ i) as [q1|] eqn:Hq; [|done]. cbn [mbind outcome_bind]. intros [= -> <-].
  apply queue_request_tickets in Hq. rewrite Hq. pose proof (set_request_tickets q i (Some r) (Some r') Hi) as Hset. cbn in Hset. rewrite Happ in Hset.
  apply Permutation_cons_inv in Hset. rewrite Hset. apply settled_refl.
Qed.

Lemma handle_completions_settle canceled cs : ∀ q q' sent,
  handle_completions q canceled cs = Done (q', sent) → settled canceled (tickets q) (tickets q') sent.
Proof.
  induction cs as [|[i res] cs IH]; intros q q' sent; cbn [handle_completions]; [intros [= <- <-]; apply settled_refl|].
  destruct (handle_io_completion q canceled i res) as [[q1 sent1]|] eqn:H1; [|done]. cbn [mbind outcome_bind].
  destruct (handle_completions q1 canceled cs) as [[q2 sent2]|] eqn:H2; [|done]. cbn [mbind outcome_bind]. intros [= <- <-].
  apply handle_completion_settles in H1. eapply settled_trans; [exact H1|]. by apply IH.
Qed.

(** Receiving discards only requests whose callers canceled. *)
Lemma receive_settles canceled requests r rest :
  receive canceled requests = Done (r, rest) → settled canceled (ticket <$> requests) (option_list (ticket <$> r) ++ (ticket <$> rest)) [].
Proof.
  induction requests as [|x requests IH]; cbn [receive]; [intros [= <- <-]; apply settled_refl|]. unfold reply_is_closed. destruct (reply x) as [id|] eqn:Hid; [|done].
  cbn [unwrap mbind outcome_bind]. case_bool_decide as Hc; [|intros [= <- <-]; apply settled_refl].
  intros Hrun. destruct (IH Hrun) as (a & d & HT & HA & HD). apply Forall2_nil_inv_r in HA as ->. exists [], (ticket x :: d).
  split_and!; [|done|constructor; [exists id; split; [by cbn; rewrite Hid|done]|done]]. rewrite fmap_cons, HT. done.
Qed.

Lemma queue_requests_settle n : ∀ i q canceled waiters now q' timeout,
  queue_requests_from n i q canceled waiters now = Done (q', timeout) → settled canceled (tickets q) (tickets q') [].
Proof.
  induction n as [|n IH]; intros i q canceled waiters now q' timeout; cbn [queue_requests_from]; [intros [= <- _]; apply settled_refl|].
  destruct (requests_awaiting_completion q !! i) as [[r|]|] eqn:Hi; cbn [unwrap mbind outcome_bind]; [apply IH| |done].
  destruct (receiver q) as [|r0 rs] eqn:Hrc; [intros [= <- _]; apply settled_refl|]. rewrite <-Hrc.
  destruct (match write_rate_limit q with Some _ => _ | None => _ end); [intros [= <- _]; apply settled_refl|].
  destruct (receive canceled (receiver q)) as [[r rest]|] eqn:Hr; [|done]. cbn [mbind outcome_bind]. apply receive_settles in Hr.
  assert (Hstep : settled canceled (tickets q) (option_list (ticket <$> r) ++ (ticket <$> rest) ++ slot_tickets (requests_awaiting_completion q)) []).
  { destruct Hr as (a & d & HT & HA & HD). exists a, d. split_and!; [|done|done]. unfold tickets. rewrite HT. solve_Permutation. }
  destruct r as [r|]; [|intros [= <- _]; exact Hstep]. cbn [submission receiver receiver_closed requests_awaiting_completion write_rate_limit].
  match goal with |- context [queue_request_for_submission ?q0 i] => set (q1 := q0) end.
  destruct (queue_request_for_submission q1 i) as [q2|] eqn:Hq; [|done]. cbn [mbind outcome_bind]. intros Hrest.
  apply (settled_trans canceled _ (tickets q2) _ [] []); [|by eapply IH]. apply queue_request_tickets in Hq. rewrite Hq. unfold q1, tickets at 2. cbn [receiver requests_awaiting_completion].
  pose proof (slot_tickets_insert _ _ _ (Some r) Hi) as Hins. cbn in Hins. rewrite Hins. revert Hstep. cbn. by rewrite Permutation_middle.
Qed.

Lemma process_iteration_settles q canceled cs waiters now submit poll q' sent accepted status :
  process_iteration q canceled cs waiters now submit poll = Done (q', sent, accepted, status) → settled canceled (tickets q) (tickets q') sent.
Proof.
  unfold process_iteration. destruct (handle_completions q canceled cs) as [[q1 sent1]|] eqn:H1; [|done]. cbn [mbind outcome_bind].
  destruct (queue_requests_for_submission q1 canceled waiters now) as [[q2 t]|] eqn:H2; [|done]. cbn [mbind outcome_bind]. intros Hrun.
  assert (Hs : settled canceled (tickets q) (tickets q2) (sent1 ++ [])) by (eapply settled_trans; [by eapply handle_completions_settle|by eapply queue_requests_settle]).
  rewrite app_nil_r in Hs. destruct (_ && forallb _ _); [by injection Hrun as <- <- _ _|].
  destruct submit; [destruct (bool_decide _)|..]; injection Hrun as <- <- _ _; exact Hs.
Qed.

(** ** Any interleaving *)

(** The queue of Uring.v with the requests submitted so far: a new request has a
    reply channel of its own. *)
Record OwnedWorld := mkOwnedWorld { submitted : list (Z * option Z); queue_world : QueueWorld }.

Definition with_sent (r : IoRequest) (w : QueueWorld) : QueueWorld :=
  mkQueueWorld (with_receiver (receiver (ioq w) ++ [r]) false (ioq w)) (kernel w) (completions w) (canceled_replies w) (replies w) (running w).

Inductive owned_step : OwnedWorld → OwnedWorld → Prop :=
  | owned_send s w r id :
      queue_step w (with_sent r w) → reply r = Some id → id ∉ s.*1 →
      owned_step (mkOwnedWorld s w) (mkOwnedWorld ((id, read_buffer (buffers r)) :: s) (with_sent r w))
  | owned_other s w w' :
      queue_step w w' → (length (receiver (ioq w')) ≤ length (receiver (ioq w)))%nat →
      owned_step (mkOwnedWorld s w) (mkOwnedWorld s w').

Definition submitted_tickets (s : list (Z * option Z)) : list (option Z * option Z) := prod_map Some id <$> s.

(** Every submitted request is answered, discarded or still in the queue. *)
Record owned_ok (o : OwnedWorld) : Prop := mkOwnedOk {
  ow_ids : NoDup (submitted o).*1;
  ow_settled : settled (canceled_replies (queue_world o)) (submitted_tickets (submitted o)) (tickets (ioq (queue_world o))) (replies (queue_world o))
}.

Lemma with_sent_tickets r w : tickets (ioq (with_sent r w)) ≡ₚ ticket r :: tickets (ioq w).
Proof. unfold tickets. cbn [ioq with_sent receiver with_receiver requests_awaiting_completion]. rewrite fmap_app. solve_Permutation. Qed.

Lemma owned_step_ok o o' : owned_step o o' → owned_ok o → owned_ok o'.
Proof.
  intros Hstep [Hids Hset]. destruct Hstep as [s w r id _ Hid Hnew|s w w' Hq Hle]; cbn [submitted queue_world] in *.
  - constructor; cbn [submitted queue_world]; [by apply NoDup_cons|]. rewrite with_sent_tickets. unfold ticket. rewrite Hid. by apply settled_more.
  - constructor; cbn [submitted queue_world]; [done|]. destruct Hq as [w r' _ _ _|w id'|w|w k1 e k2 res _ _|w cs rest waiters now submit poll q sent acc st _ _ Hrun];
      cbn [ioq with_receiver receiver canceled_replies replies] in *; [|by eapply settled_mono; [|exact Hset]; set_solver|exact Hset..|].
    + exfalso. rewrite length_app in Hle. cbn in Hle. lia.
    + eapply settled_trans; [exact Hset|]. by eapply process_iteration_settles.
Qed.

Definition new_owned_world (max_in_flight : nat) (limit : option WriteRateLimit) : OwnedWorld := mkOwnedWorld [] (new_queue_world max_in_flight limit).

Lemma new_queue_tickets n limit : tickets (new_IoQueue n limit) = [].
Proof. unfold tickets, new_IoQueue, slot_tickets. cbn. by induction n. Qed.

Lemma owned_reachable n limit o : rtc owned_step (new_owned_world n limit) o → owned_ok o.
Proof.
  apply (rtc_ind_r owned_ok); [|intros o1 o2 _ Hstep Hok; by eapply owned_step_ok].
  constructor; cbn [submitted new_owned_world queue_world new_queue_world canceled_replies ioq replies]; [apply NoDup_nil_2|]. rewrite new_queue_tickets. apply settled_refl.
Qed.

(** ** Consequences *)

(** The ids of answered tickets are those of the replies. *)
Lemma answered_ids answered sent : Forall2 answers answered sent → answered.*1 = Some <$> sent.*1.
Proof. induction 1 as [|t s ts ss [Ht _] _ IH]; [done|]. cbn. by rewrite Ht, IH. Qed.

Lemma owned_distinct o answered dropped :
  owned_ok o → submitted_tickets (submitted o) ≡ₚ answered ++ dropped ++ tickets (ioq (queue_world o)) →
  NoDup (answered.*1 ++ dropped.*1 ++ (tickets (ioq (queue_world o))).*1).
Proof.
  intros [Hids _] HT. rewrite <-!fmap_app, <-HT. unfold submitted_tickets.
  assert (Heq : (prod_map Some id <$> submitted o).*1 = Some <$> (submitted o).*1) by (by rewrite <-!list_fmap_compose).
  rewrite Heq. by apply NoDup_fmap_2; [apply _|].
Qed.

(** Replies that were not received. *)
Definition undelivered (received : list Z) (sent : list (Z * Reply)) : list (Z * Reply) := filter (λ s, s.1 ∉ received) sent.

(** C20: the caller of a read gets its buffer back.  However callers, kernel and
    thread interleave, every request is answered at most once and only with its own
    buffer, and once it is answered the queue has let go of it; a request without an
    answer is still in the queue, unless its caller canceled.  So when all pieces of
    a read have been answered and their replies received, nobody else owns the
    buffer and taking it out of its [Arc] does not panic. *)
Theorem read_buffer_recovered max_in_flight limit s w :
  rtc owned_step (new_owned_world max_in_flight limit) (mkOwnedWorld s w) →
  NoDup (replies w).*1
  ∧ (∀ id r, (id, r) ∈ replies w → ∃ b, (id, b) ∈ s ∧ (∀ o, r = Ok o → o = b) ∧ ∀ t, t ∈ tickets (ioq w) → t.1 ≠ Some id)
  ∧ (∀ id b, (id, b) ∈ s → id ∈ (replies w).*1 ∨ id ∈ canceled_replies w ∨ (Some id, b) ∈ tickets (ioq w))
  ∧ ∀ buffer received, (∀ id, (id, Some buffer) ∈ s → id ∈ received ∧ id ∈ (replies w).*1) →
      into_buffer buffer (ioq w) (undelivered received (replies w)) = Done ().
Proof.
  intros Hok%owned_reachable. destruct (ow_settled _ Hok) as (answered & dropped & HT & HA & HD). cbn [submitted queue_world] in *.
  pose proof (owned_distinct _ _ _ Hok HT) as Hnd. cbn [queue_world] in Hnd. rewrite (answered_ids _ _ HA) in Hnd. apply NoDup_app in Hnd as (Hnd1 & Hapart & _).
  assert (Hsub : ∀ t, t ∈ answered ++ dropped ++ tickets (ioq w) ↔ ∃ id b, t = (Some id, b) ∧ (id, b) ∈ s).
  { intros t. rewrite <-HT. unfold submitted_tickets. rewrite list_elem_of_fmap. split; [intros ([id b] & -> & Hin); by exists id, b|intros (id & b & -> & Hin); by exists (id, b)]. }
  assert (Hreply : ∀ id r, (id, r) ∈ replies w → ∃ b, (id, b) ∈ s ∧ (∀ o, r = Ok o → o = b) ∧ ∀ t, t ∈ tickets (ioq w) → t.1 ≠ Some id).
  { intros id r Hin. destruct (list_elem_of_lookup_1 _ _ Hin) as [i Hi]. destruct (Forall2_lookup_r _ _ _ _ _ HA Hi) as ([x b] & Hta%list_elem_of_lookup_2 & Hx & Hb). cbn in Hx, Hb. subst x. exists b. split_and!; [|done|].
    - destruct (proj1 (Hsub (Some id, b))) as (id' & b' & [= <- <-] & Hs); [set_solver|done].
    - intros t Ht Heq. apply (Hapart (Some id)); [apply list_elem_of_fmap; exists id; split; [done|]; apply list_elem_of_fmap; by exists (id, r)|].
      apply elem_of_app. right. apply list_elem_of_fmap. by exists t. }
  split_and!; [by eapply NoDup_fmap_1|exact Hreply| |].
  - intros id b Hin. assert (Hall : (Some id, b) ∈ answered ++ dropped ++ tickets (ioq w)) by (apply Hsub; by exists id, b).
    apply elem_of_app in Hall as [Ha|[Hd|Ht]%elem_of_app]; [left|right; left|by right; right].
    + assert (Hf : Some id ∈ answered.*1) by (apply list_elem_of_fmap; by exists (Some id, b)). rewrite (answered_ids _ _ HA) in Hf. by apply list_elem_of_fmap in Hf as (? & [= <-] & ?).
    + rewrite Forall_forall in HD. by destruct (HD _ Hd) as (? & [= <-] & ?).
  - intros buffer received Hall. unfold into_buffer, buffer_owners. rewrite bool_decide_eq_true_2; [done|].
    rewrite !filter_none; [done| |]; apply Forall_forall.
    + intros [id r] Hin Hb. apply list_elem_of_filter in Hin as [Hrec Hin]. destruct (Hreply id r Hin) as (b & Hs & Hr & _). unfold reply_buffer in Hb. cbn in Hb, Hrec.
      destruct r as [o|e]; [|done]. subst o. rewrite (Hr _ eq_refl) in *. by destruct (Hall id Hs).
    + intros t Ht Hb. destruct (proj1 (Hsub t)) as (id & b & -> & Hs); [set_solver|]. cbn in Hb. subst b. destruct (Hall id Hs) as [_ ([id' r] & -> & Hin)%list_elem_of_fmap].
      destruct (Hreply _ _ Hin) as (_ & _ & _ & Hno). by apply (Hno _ Ht).
Qed.

(** One read of two pages: sent, submitted, completed and answered. *)
Definition answered_world : QueueWorld := mkQueueWorld (mkIoQueue [] [] false (replicate 4 None) None) [] [] ∅ [(7, Ok (Some 1))] true.

Lemma answered_world_reachable : rtc owned_step (new_owned_world 4 None) (mkOwnedWorld [(7, Some 1)] answered_world).
Proof.
  eapply rtc_l; [apply (owned_send [] _ sample_request 7); [|done|set_solver]|].
  { apply queue_send; [by apply (built_read 0 0 1 8192 (mkRange 0 8192) 7)|done|cbn; lia]. }
  eapply rtc_l; [apply (owned_other _ _ sample_world); [|cbn; lia]|].
  { exact (queue_thread (with_sent sample_request (new_queue_world 4 None)) [] [] (mkReadQueueWaiters 0 None) 0 (Submitted 1) PollInterrupted _ _ _ _ eq_refl eq_refl eq_refl). }
  eapply rtc_l; [eapply owned_other; [apply (queue_kernel _ [] (entry_of sample_request 0) [] 8192); [done|by vm_compute]|done]|].
  eapply rtc_l; [|reflexivity]. apply owned_other; [|cbn; lia].
  exact (queue_thread (mkQueueWorld (ioq sample_world) [] [(0%nat, 8192)] ∅ [] true) [(0%nat, 8192)] [] (mkReadQueueWaiters 0 None) 0 (Submitted 0) PollInterrupted _ _ _ _ eq_refl eq_refl eq_refl).
Qed.

Lemma read_buffer_recovered_witness : into_buffer 1 (ioq answered_world) (undelivered [7] (replies answered_world)) = Done ().
Proof.
  destruct (read_buffer_recovered 4 None [(7, Some 1)] answered_world answered_world_reachable) as (_ & _ & _ & Hback).
  apply Hback. intros id [= ->]%list_elem_of_singleton. split; left.
Defined.
