(* ===== verification/Shutdown.v ===== *)
(** * Shutting an io_uring queue down ([Drop for IoQueueHandle] and the loop of
    [IoQueue::process_requests_with_submit] of [feuer-storage/src/uring.rs])

    Dropping the last handle closes the channel, wakes the thread and joins it.  The
    thread leaves its loop once the channel is empty and no request awaits its
    completion, so the join returns when the outstanding I/O has drained. *)

From S2P Require Import Prelude Codec Errors Disk Allocation Admission Uring.

(** [Drop for IoQueue], which closes the channel: the leaked requests and the replies
    to their callers. *)
Definition drop_queue (q : IoQueue) : outcome (list (option IoRequest) * list (Z * Reply)) :=
  if existsb is_active (requests_awaiting_completion q) then leak_requests (requests_awaiting_completion q) else Done ([], []).

(** ** What is left to do *)
Definition request_len (r : IoRequest) : Z := range_len (remaining_buffer_range r).
Definition slot_len (slot : option IoRequest) : Z := match slot with Some r => request_len r | None => 0 end.

(** The bytes left to transfer, and the stages each request has before it. *)
Definition channel_measure (q : IoQueue) : Z := zsum (λ r, request_len r + 3) (receiver q).
Definition queue_measure (q : IoQueue) : Z :=
  channel_measure q + zsum slot_len (requests_awaiting_completion q) + 2 * Z.of_nat (length (submission q)).
Definition drain_measure (w : QueueWorld) : Z := queue_measure (ioq w) + Z.of_nat (length (kernel w)).

Lemma request_len_pos r : request_ok r → 0 < request_len r.
Proof. intros Hr. apply (ro_len _ Hr). Qed.

Lemma channel_nonneg requests : Forall request_ok requests → 0 ≤ zsum (λ r, request_len r + 3) requests.
Proof. intros Hall. apply zsum_nonneg. intros r Hr. rewrite Forall_forall in Hall. pose proof (request_len_pos r (Hall r Hr)). lia. Qed.

Lemma slots_nonneg slots : (∀ i r, slots !! i = Some (Some r) → request_ok r) → 0 ≤ zsum slot_len slots.
Proof.
  intros Hall. apply zsum_nonneg. intros [r|] [i Hi]%list_elem_of_lookup; [|done]. pose proof (request_len_pos r (Hall i r Hi)). cbn. lia.
Qed.

(** Submitting a request puts its entry into the ring. *)
Lemma queue_request_measure q i q' : queue_request_for_submission q i = Done q' → queue_measure q' = queue_measure q + 2.
Proof.
  unfold queue_request_for_submission. destruct (requests_awaiting_completion q !! i) as [[r|]|] eqn:Hi; try done. cbn [unwrap mbind outcome_bind].
  destruct (request_submission_entry r i) as [r' e] eqn:He. destruct (assert_that _); [|done]. cbn [mbind outcome_bind]. intros [= <-].
  unfold queue_measure, channel_measure. cbn [receiver requests_awaiting_completion submission]. rewrite (zsum_insert _ _ _ _ _ Hi), length_app.
  assert (Hlen : slot_len (Some r') = slot_len (Some r)).
  { unfold request_submission_entry in He. destruct (buffers_submission_entry _ _ _ _). by injection He as <- <-. }
  rewrite Hlen. cbn [length]. lia.
Qed.

(** A completion that is no interruption finishes its request or shortens it. *)
Lemma completion_measure q canceled i res r q' sent :
  requests_awaiting_completion q !! i = Some (Some r) → request_ok r → res ≠ - EINTR →
  handle_io_completion q canceled i res = Done (q', sent) → queue_measure q' < queue_measure q.
Proof.
  intros Hi Hr Hres. unfold handle_io_completion. rewrite Hi. cbn [unwrap mbind outcome_bind]. pose proof (request_len_pos r Hr) as Hpos.
  assert (Hfinish : ∀ r' x, (sent ← send_result r' x; Done (set_request i None q, [sent])) = Done (q', sent) → queue_measure q' < queue_measure q).
  { intros r' x. destruct (send_result r' x) as [s|]; [|done]. cbn [mbind outcome_bind]. intros [= <- _].
    unfold queue_measure, channel_measure, set_request. cbn [receiver requests_awaiting_completion submission]. rewrite (zsum_insert _ _ _ _ _ Hi). cbn [slot_len]. lia. }
  destruct (apply_completion_result r res) as [r'|e] eqn:Happ; [|apply Hfinish].
  destruct (0 <? _); [|apply Hfinish]. destruct (reply_is_closed canceled r') as [[]|]; cbn [mbind outcome_bind]; [apply Hfinish| |done].
  destruct (queue_request_for_submission _ i) as [q1|] eqn:Hq; [|done]. cbn [mbind outcome_bind]. intros [= -> _].
  apply queue_request_measure in Hq. rewrite Hq. unfold queue_measure, channel_measure, set_request. cbn [receiver requests_awaiting_completion submission].
  rewrite (zsum_insert _ _ _ _ _ Hi). cbn [slot_len]. unfold apply_completion_result in Happ.
  destruct (Z.eqb_spec res (- EINTR)); [done|]. destruct (Z.ltb_spec res 0); [by destruct (buffers r)|]. destruct (Z.eqb_spec res 0); [done|].
  cbn [orb] in Happ. destruct (is_multiple_of res DIRECT_IO_ALIGNMENT_BYTES) eqn:Hm; [|done]. cbn [negb] in Happ. injection Happ as <-.
  apply aligned_of_b in Hm. change (res mod 4096 = 0) in Hm.
  assert (4096 ≤ res) by (destruct (Z.lt_ge_cases res 4096); [rewrite Z.mod_small in Hm by lia; lia|done]).
  unfold request_len, range_len. cbn [remaining_buffer_range range_end range_start]. lia.
Qed.

Lemma completions_measure canceled kern rest : ∀ cs q q' sent,
  ring_ok (submission q) kern (cs ++ rest) (requests_awaiting_completion q) → (∀ i, (i, - EINTR) ∉ cs) →
  handle_completions q canceled cs = Done (q', sent) → queue_measure q' + Z.of_nat (length cs) ≤ queue_measure q.
Proof.
  induction cs as [|[i res] cs IH]; intros q q' sent Hok Hno; cbn [handle_completions]; [intros [= <- _]; cbn; lia|].
  destruct (handle_completion_ok q kern i res (cs ++ rest) canceled Hok) as (q1 & sent1 & Hrun & Hok1 & _). rewrite Hrun. cbn [mbind outcome_bind].
  destruct (handle_completions q1 canceled cs) as [[q2 sent2]|] eqn:H2; [|done]. cbn [mbind outcome_bind]. intros [= <- _].
  destruct (rk_results _ _ _ _ Hok i res ltac:(left)) as (r & Hr & _). assert (Hres : res ≠ - EINTR) by (intros ->; apply (Hno i); left).
  pose proof (completion_measure q canceled i res r q1 sent1 Hr (rk_requests _ _ _ _ Hok _ _ Hr) Hres Hrun).
  specialize (IH q1 q2 sent2 Hok1 (λ j Hj, Hno j ltac:(by right)) H2). cbn [length]. lia.
Qed.

(** Every request taken from the channel brings the queue closer to its end. *)
Lemma receive_measure canceled requests r rest :
  Forall request_ok requests → receive canceled requests = Done (r, rest) →
  zsum (λ r, request_len r + 3) rest + match r with Some r => request_len r + 2 | None => 0 end + Z.of_nat (length requests)
  ≤ zsum (λ r, request_len r + 3) requests + Z.of_nat (length rest).
Proof.
  induction requests as [|x requests IH]; cbn [receive]; intros Hall; [intros [= <- <-]; cbn; lia|]. apply Forall_cons in Hall as [Hx Hall].
  pose proof (request_len_pos x Hx). unfold reply_is_closed. destruct (reply x) as [id|]; [|done]. cbn [unwrap mbind outcome_bind]. rewrite zsum_cons. cbn [length].
  destruct (bool_decide _); [intros Hrun; specialize (IH Hall Hrun); lia|]. intros [= <- <-]. lia.
Qed.

Lemma queue_requests_measure n : ∀ i q canceled waiters now q' timeout kern comps,
  ring_ok (submission q) kern comps (requests_awaiting_completion q) → Forall request_ok (receiver q) → (i + n ≤ length (requests_awaiting_completion q))%nat →
  queue_requests_from n i q canceled waiters now = Done (q', timeout) →
  queue_measure q' + Z.of_nat (length (receiver q)) ≤ queue_measure q + Z.of_nat (length (receiver q')).
Proof.
  induction n as [|n IH]; intros i q canceled waiters now q' timeout kern comps Hok Hrc Hlen; cbn [queue_requests_from]; [intros [= <- _]; lia|].
  destruct (requests_awaiting_completion q !! i) as [[r|]|] eqn:Hi; cbn [unwrap mbind outcome_bind]; [eapply IH; [done|done|lia]| |done].
  destruct (receiver q) as [|r0 rs] eqn:Hq; [intros [= <- _]; rewrite Hq; lia|]. rewrite <-Hq in *.
  destruct (match write_rate_limit q with Some _ => _ | None => _ end); [intros [= <- _]; lia|].
  destruct (receive_ok canceled _ Hrc) as (r & rest & Hrun & Hrest & _ & Hr). pose proof (receive_measure _ _ _ _ Hrc Hrun) as Hm. rewrite Hrun. cbn [mbind outcome_bind].
  destruct r as [r|]; [|intros [= <- _]; unfold queue_measure, channel_measure in *; cbn [receiver requests_awaiting_completion submission]; lia].
  cbn [submission receiver receiver_closed requests_awaiting_completion write_rate_limit].
  match goal with |- context [queue_request_for_submission ?q0 i] => set (q1 := q0) end. assert (Hlt := lookup_lt_Some _ _ _ Hi).
  destruct (submit_at q1 i r kern comps) as (q2 & Hsub & Hok2 & Hrc2 & _ & _ & Hl2); [by apply list_lookup_insert_eq|done| |].
  { cbn. rewrite list_insert_insert_eq, list_insert_id by done. done. }
  rewrite Hsub. cbn [mbind outcome_bind]. intros Hfin. cbn in Hrc2, Hl2. rewrite length_insert in Hl2.
  specialize (IH (S i) q2 canceled waiters now q' timeout kern comps Hok2 ltac:(by rewrite Hrc2) ltac:(lia) Hfin). apply queue_request_measure in Hsub. rewrite Hrc2 in IH.
  unfold q1, queue_measure, channel_measure in *. cbn [receiver requests_awaiting_completion submission] in *. rewrite (zsum_insert _ _ _ _ _ Hi) in Hsub. cbn [slot_len] in Hsub. lia.
Qed.

Lemma iteration_measure q kern cs rest canceled waiters now submit poll q' sent accepted status :
  ring_ok (submission q) kern (cs ++ rest) (requests_awaiting_completion q) → Forall request_ok (receiver q) → (∀ i, (i, - EINTR) ∉ cs) →
  process_iteration q canceled cs waiters now submit poll = Done (q', sent, accepted, status) →
  queue_measure q' + 2 * Z.of_nat (length accepted) + Z.of_nat (length cs) + Z.of_nat (length (receiver q)) ≤ queue_measure q + Z.of_nat (length (receiver q')).
Proof.
  intros Hok Hrc Hno. unfold process_iteration. destruct (handle_completions_ok canceled kern rest cs q Hok) as (q1 & sent1 & Hrun1 & Hok1 & Hrc1 & _).
  pose proof (completions_measure _ _ _ _ _ _ _ Hok Hno Hrun1) as M1. rewrite Hrun1. cbn [mbind outcome_bind]. unfold queue_requests_for_submission.
  destruct (queue_requests_from _ 0 q1 canceled waiters now) as [[q2 t]|] eqn:H2; [|done]. cbn [mbind outcome_bind].
  pose proof (queue_requests_measure (length (requests_awaiting_completion q1)) 0 _ _ _ _ _ _ _ _ Hok1 ltac:(by rewrite Hrc1) ltac:(lia) H2) as M2. rewrite Hrc1 in M2. intros Hrun.
  destruct (_ && forallb _ _); [injection Hrun as <- _ <- _; cbn [length]; lia|].
  destruct submit as [n| | |e]; [|injection Hrun as <- _ <- _; cbn [length]; lia..].
  assert (Hq : queue_measure (mkIoQueue (drop n (submission q2)) (receiver q2) (receiver_closed q2) (requests_awaiting_completion q2) (write_rate_limit q2))
               + 2 * Z.of_nat (length (take n (submission q2))) = queue_measure q2).
  { unfold queue_measure, channel_measure. cbn [submission receiver requests_awaiting_completion]. rewrite <-(take_drop n (submission q2)) at 3. rewrite length_app. lia. }
  destruct (bool_decide _); injection Hrun as <- _ <- _; cbn [receiver]; lia.
Qed.

(** ** Draining *)

(** What happens after the last handle is gone, when no transfer is interrupted. *)
Definition shutdown_step (w w' : QueueWorld) : Prop :=
  queue_step w w' ∧ receiver_closed (ioq w) = true ∧ ∀ i, (i, - EINTR) ∉ completions w'.

Record shutting_down (n : nat) (w : QueueWorld) : Prop := mkShuttingDown {
  sd_world : world_ok n w;
  sd_closed : receiver_closed (ioq w) = true;
  sd_answers : ∀ i, (i, - EINTR) ∉ completions w
}.
Definition drained (w : QueueWorld) : Prop := running w = false ∧ receiver (ioq w) = [] ∧ submission (ioq w) = [] ∧ kernel w = [] ∧ completions w = [].

Lemma drain_measure_nonneg n w : world_ok n w → 0 ≤ drain_measure w.
Proof.
  intros [Hr Hc _]. unfold drain_measure, queue_measure, channel_measure. pose proof (channel_nonneg _ Hc). pose proof (slots_nonneg _ (rk_requests _ _ _ _ Hr)). lia.
Qed.

(** An iteration of the thread during shutdown. *)
Lemma shutdown_iteration n w cs rest waiters now submit poll :
  shutting_down n w → running w = true → completions w = cs ++ rest →
  ∃ w' status, shutdown_step w w' ∧ shutting_down n w' ∧ completions w' = rest ∧ running w' = match status with Continue => true | _ => false end
    ∧ (∃ sent accepted, process_iteration (ioq w) (canceled_replies w) cs waiters now submit poll = Done (ioq w', sent, accepted, status) ∧ kernel w' = accepted ++ kernel w
         ∧ drain_measure w' + Z.of_nat (length cs) + Z.of_nat (length accepted) + Z.of_nat (length (receiver (ioq w))) ≤ drain_measure w + Z.of_nat (length (receiver (ioq w'))))
    ∧ receiver (ioq w') `suffix_of` receiver (ioq w)
    ∧ (status = Drained → drained w').
Proof.
  intros [Hw Hcl Hno] Hrun Hcs. assert (Hok := Hw). destruct Hok as [Hr Hc Hs]. rewrite Hcs in Hr.
  destruct (process_iteration_ok (ioq w) (kernel w) cs rest (canceled_replies w) waiters now submit poll Hr Hc)
    as (q & sent & accepted & status & Hit & Hr' & Hc' & Hsuf & [Hcl' Hl'] & Hdr).
  pose proof (iteration_measure _ _ _ _ _ _ _ _ _ _ _ _ _ Hr Hc (λ i Hi, Hno i ltac:(rewrite Hcs; apply elem_of_app; by left)) Hit) as Hm.
  set (w' := mkQueueWorld q (accepted ++ kernel w) rest (canceled_replies w) (replies w ++ sent) (match status with Continue => true | _ => false end)).
  assert (Hno' : ∀ i, (i, - EINTR) ∉ completions w') by (intros i Hi; apply (Hno i); rewrite Hcs; apply elem_of_app; by right).
  assert (Hstep : queue_step w w') by (by eapply queue_thread). exists w', status. split_and!; try done.
  - constructor; [by eapply queue_step_ok|by rewrite <-Hcl|done].
  - exists sent, accepted. split_and!; [done|done|]. unfold drain_measure, w'. cbn [ioq kernel]. rewrite length_app. lia.
  - intros ->. destruct (Hdr eq_refl) as (? & ? & ? & ?). done.
Qed.

(** No step leads away from the end. *)
Lemma shutdown_step_measure n w w' : world_ok n w → (∀ i, (i, - EINTR) ∉ completions w) → shutdown_step w w' → drain_measure w' ≤ drain_measure w.
Proof.
  intros Hw Hno (Hstep & Hcl & _). destruct Hstep as [w r _ Hopen _|w id|w|w k1 e k2 res Hk _|w cs rest waiters now submit poll q sent acc st Hrun Hcs Hit]; try done; [by rewrite Hopen in Hcl| |].
  - unfold drain_measure. cbn [ioq kernel]. rewrite Hk, !length_app. cbn [length]. lia.
  - destruct (shutdown_iteration n w cs rest waiters now submit poll) as (w' & status & _ & _ & _ & _ & (sent' & acc' & Hit' & Hk' & Hm) & Hle%suffix_length & _); [by constructor|done|done|].
    rewrite Hit in Hit'. injection Hit' as Hq _ <- _. unfold drain_measure in *. rewrite Hk', <-Hq in Hm. rewrite <-Hq in Hle. cbn [ioq kernel]. lia.
Qed.

(** With a willing kernel an iteration does not fail, and leaves nothing unsubmitted
    unless the kernel got something. *)
Lemma submit_iteration q canceled cs waiters now q' sent accepted status :
  process_iteration q canceled cs waiters now (Submitted 1) PollInterrupted = Done (q', sent, accepted, status) →
  status = Drained ∨ status = Continue ∧ (accepted = [] → submission q' = []).
Proof.
  unfold process_iteration. destruct (handle_completions q canceled cs) as [[q1 sent1]|]; [|done]. cbn [mbind outcome_bind].
  destruct (queue_requests_for_submission q1 canceled waiters now) as [[q2 t]|]; [|done]. cbn [mbind outcome_bind wait_for_completion_or_wakeup].
  destruct (_ && forallb _ _); [intros [= _ _ _ <-]; by left|]. intros Hrun. right.
  assert (Hsub : accepted = take 1 (submission q2) ∧ submission q' = drop 1 (submission q2) ∧ status = Continue) by (destruct (bool_decide _); by injection Hrun as <- _ <- <-).
  destruct Hsub as (-> & -> & ->). split; [done|]. by destruct (submission q2).
Qed.

Lemma receive_cons canceled r requests :
  receive canceled (r :: requests) = (closed ← reply_is_closed canceled r; if closed : bool then receive canceled requests else Done (Some r, requests)).
Proof. done. Qed.

Lemma receive_shorter canceled r requests r' rest : receive canceled (r :: requests) = Done (r', rest) → (length rest ≤ length requests)%nat.
Proof.
  revert r. induction requests as [|x requests IH]; intros r; rewrite receive_cons; destruct (reply_is_closed canceled r) as [[]|]; try done; cbn [mbind outcome_bind].
  - by intros [= _ <-].
  - by intros [= _ <-].
  - intros Hrun%IH. cbn [length]. lia.
  - intros [= _ <-]. done.
Qed.

(** Receiving into the free first position. *)
Lemma queue_requests_consume n q canceled q' timeout :
  Forall request_ok (receiver q) → ring_ok (submission q) [] [] (requests_awaiting_completion q) → (S n ≤ length (requests_awaiting_completion q))%nat →
  requests_awaiting_completion q !! 0%nat = Some None → receiver q ≠ [] →
  queue_requests_from (S n) 0 q canceled (mkReadQueueWaiters 0 None) 0 = Done (q', timeout) → (length (receiver q') < length (receiver q))%nat.
Proof.
  intros Hrc Hok Hn H0 Hne. cbn [queue_requests_from]. rewrite H0. cbn [unwrap mbind outcome_bind]. destruct (receiver q) as [|r0 rs] eqn:Hr; [done|]. rewrite <-Hr in Hrc.
  assert (Hw : match write_rate_limit q with Some limit => must_wait limit (mkReadQueueWaiters 0 None) (existsb is_active (requests_awaiting_completion q)) 0 | None => false end = false) by (by destruct (write_rate_limit q)).
  rewrite Hw. destruct (receive_ok canceled _ Hrc) as (r & rest & Hrun & Hrest & _ & Hrk). rewrite Hr in Hrun. pose proof (receive_shorter _ _ _ _ _ Hrun) as Hs. rewrite Hrun. cbn [mbind outcome_bind].
  destruct r as [r|]; [|intros [= <- _]; cbn [receiver length]; lia]. cbn [submission receiver receiver_closed requests_awaiting_completion write_rate_limit].
  match goal with |- context [queue_request_for_submission ?q0 0] => set (q1 := q0) end. assert (Hlt := lookup_lt_Some _ _ _ H0).
  destruct (submit_at q1 0 r [] []) as (q2 & Hsub & Hok2 & Hrc2 & _ & _ & Hl2); [by apply list_lookup_insert_eq|done| |].
  { cbn. rewrite list_insert_insert_eq, list_insert_id by done. done. }
  rewrite Hsub. cbn [mbind outcome_bind]. cbn [q1 receiver requests_awaiting_completion] in Hrc2, Hl2. rewrite length_insert in Hl2.
  destruct (queue_requests_ok n 1 q2 [] [] canceled (mkReadQueueWaiters 0 None) 0 Hok2) as (q3 & t & Hfin & _ & _ & Hsuf & _); [by rewrite Hrc2|lia|].
  rewrite Hfin. intros [= <- _]. apply suffix_length in Hsuf. rewrite Hrc2 in Hsuf. cbn [length]. lia.
Qed.

(** An idle queue takes a request from its channel, or ends. *)
Lemma idle_iteration q canceled submit poll q' sent accepted status :
  Forall request_ok (receiver q) → ring_ok (submission q) [] [] (requests_awaiting_completion q) →
  (0 < length (requests_awaiting_completion q))%nat → (∀ i r, requests_awaiting_completion q !! i ≠ Some (Some r)) → receiver_closed q = true →
  process_iteration q canceled [] (mkReadQueueWaiters 0 None) 0 submit poll = Done (q', sent, accepted, status) →
  status = Drained ∨ (length (receiver q') < length (receiver q))%nat.
Proof.
  intros Hrc Hok Hlen Hnone Hcl. unfold process_iteration, queue_requests_for_submission. cbn [handle_completions mbind outcome_bind].
  destruct (requests_awaiting_completion q) as [|slot slots] eqn:Hslots; [cbn in Hlen; lia|]. rewrite <-Hslots in *. cbn [length].
  assert (H0 : requests_awaiting_completion q !! 0%nat = Some None).
  { rewrite Hslots. destruct slot as [r|]; [|done]. exfalso. apply (Hnone 0%nat r). by rewrite Hslots. }
  assert (Hstep : ∃ n, length (requests_awaiting_completion q) = S n) by (destruct (length _); [lia|by eexists]). destruct Hstep as [n Hn].
  destruct (queue_requests_from (length (requests_awaiting_completion q)) 0 q canceled _ 0) as [[q2 t]|] eqn:Hq; [|done]. cbn [mbind outcome_bind].
  intros Hrun. destruct (receiver q) as [|r0 rs] eqn:Hr.
  - left. rewrite Hn in Hq. cbn [queue_requests_from] in Hq. rewrite H0, Hr in Hq. cbn [unwrap mbind outcome_bind] in Hq. injection Hq as <- _.
    rewrite Hr, Hcl, bool_decide_eq_true_2 in Hrun by done. cbn [andb] in Hrun.
    assert (Hall : forallb (λ s, negb (is_active s)) (requests_awaiting_completion q) = true).
    { apply forallb_forall. intros [r|] [i Hi]%list_elem_of_In%list_elem_of_lookup; [by destruct (Hnone i r)|done]. }
    rewrite Hall in Hrun. by injection Hrun as _ _ _ <-.
  - right. rewrite <-Hr in *. rewrite Hn in Hq. apply queue_requests_consume in Hq; [|done|done|lia|done|by rewrite Hr].
    destruct (_ && forallb _ _); [by injection Hrun as <- _ _ _|].
    destruct submit; [destruct (bool_decide _)|..]; by injection Hrun as <- _ _ _.
Qed.

(** Without entries there are no requests. *)
Lemma no_requests slots : ring_ok [] [] [] slots → ∀ i r, slots !! i ≠ Some (Some r).
Proof. intros Hok i r Hi. apply (not_elem_of_nil i), (rk_tokens _ _ _ _ Hok i). by exists r. Qed.

Lemma no_slots_measure q : (∀ i r, requests_awaiting_completion q !! i ≠ Some (Some r)) → submission q = [] → queue_measure q = channel_measure q.
Proof.
  intros Hnone Hs. assert (Hz : zsum slot_len (requests_awaiting_completion q) = 0).
  { rewrite (zsum_ext _ (λ _, 0)); [clear; induction (requests_awaiting_completion q); [done|by rewrite zsum_cons]|].
    intros [r|] [i Hi]%list_elem_of_lookup; [by destruct (Hnone i r)|done]. }
  unfold queue_measure. rewrite Hs, Hz. cbn [length]. lia.
Qed.

(** Some step gets closer, or the thread ends. *)
Lemma shutdown_progress n w :
  (0 < n)%nat → shutting_down n w → running w = true →
  ∃ w', shutdown_step w w' ∧ shutting_down n w' ∧ (drained w' ∨ running w' = true ∧ drain_measure w' < drain_measure w).
Proof.
  intros Hn Hsd Hrun. assert (Hsd0 := Hsd). destruct Hsd0 as [[Hr Hc Hs] Hcl Hno].
  destruct (kernel w) as [|e kern] eqn:Hk.
  2:{ destruct (rk_entries _ _ _ _ Hr e) as (r & Hslot & Heq); [set_solver|]. assert (Hrok := rk_requests _ _ _ _ Hr _ _ Hslot).
      assert (Hpos : 0 < sqe_len e) by (rewrite Heq; destruct (entry_spec r (user_data e) Hrok) as (_ & -> & _); apply (ro_len _ Hrok)).
      set (w' := mkQueueWorld (ioq w) kern (completions w ++ [(user_data e, sqe_len e)]) (canceled_replies w) (replies w) (running w)).
      assert (Hstep : queue_step w w') by (apply (queue_kernel w [] e kern (sqe_len e)); [done|lia]).
      assert (Hno' : ∀ i, (i, - EINTR) ∉ completions w').
      { intros i [Hi|[= _ Hi]%list_elem_of_singleton]%elem_of_app; [by apply (Hno i)|]. unfold EINTR in Hi. lia. }
      exists w'. split_and!; [done|constructor; [by eapply queue_step_ok; [|apply Hsd]|done|done]|]. right. split; [done|].
      unfold drain_measure, w'. cbn [ioq kernel]. rewrite Hk. cbn [length]. lia. }
  destruct (shutdown_iteration n w (completions w) [] (mkReadQueueWaiters 0 None) 0 (Submitted 1) PollInterrupted Hsd Hrun ltac:(by rewrite app_nil_r))
    as (w' & status & Hstep & Hsd' & Hcomp & Hrun' & (sent & accepted & Hit & Hk' & Hm) & Hsuf & Hdr).
  exists w'. split; [done|]. split; [done|]. destruct (submit_iteration _ _ _ _ _ _ _ _ _ Hit) as [->|[-> Hacc]]; [left; by apply Hdr|right]. split; [done|].
  pose proof (suffix_length _ _ Hsuf) as Hle. destruct (completions w) as [|c cs] eqn:Hcs; [|cbn [length] in Hm; lia].
  destruct accepted as [|a accepted]; [|cbn [length] in Hm; lia]. specialize (Hacc eq_refl). rewrite Hk in Hk'. cbn in Hk'.
  destruct (decide (length (receiver (ioq w')) = length (receiver (ioq w)))) as [Hsame|]; [|lia].
  assert (Heq : receiver (ioq w') = receiver (ioq w)) by (destruct Hsuf as [l Hl]; rewrite Hl, length_app in Hsame; destruct l; [done|cbn in Hsame; lia]).
  destruct (sd_world _ _ Hsd') as [Hr' _ _]. rewrite Hacc, Hk', Hcomp in Hr'.
  assert (Hm' : drain_measure w' = channel_measure (ioq w)).
  { unfold drain_measure. rewrite Hk'. cbn [length]. rewrite no_slots_measure by (done || by apply no_requests). unfold channel_measure. rewrite Heq. lia. }
  rewrite Hm'. unfold drain_measure, queue_measure. pose proof (slots_nonneg _ (rk_requests _ _ _ _ Hr)).
  destruct (submission (ioq w)) as [|x xs] eqn:Hx; [|cbn [length]; lia]. exfalso.
  destruct (idle_iteration _ _ _ _ _ _ _ _ Hc ltac:(by rewrite Hx) ltac:(lia) (no_requests _ Hr) Hcl Hit); [done|lia].
Qed.

Lemma shutdown_reaches_end n : (0 < n)%nat → ∀ k w, drain_measure w ≤ Z.of_nat k → shutting_down n w → running w = true → ∃ w', rtc shutdown_step w w' ∧ shutting_down n w' ∧ drained w'.
Proof.
  intros Hn. induction k as [|k IH]; intros w Hk Hsd Hrun; destruct (shutdown_progress n w Hn Hsd Hrun) as (w1 & Hstep & Hsd1 & [Hend|[Hrun1 Hlt]]);
    try (exists w1; split; [by apply rtc_once|done]).
  - pose proof (drain_measure_nonneg n w1 (sd_world _ _ Hsd1)). lia.
  - destruct (IH w1 ltac:(lia) Hsd1 Hrun1) as (w' & Hr & Hend). exists w'. split; [by eapply rtc_l|exact Hend].
Qed.

Lemma drained_leaks_nothing n w : shutting_down n w → drained w → drop_queue (ioq w) = Done ([], []).
Proof.
  intros [[Hr _ _] _ _] (_ & _ & Hs & Hk & Hc). rewrite Hs, Hk, Hc in Hr. unfold drop_queue.
  destruct (existsb is_active _) eqn:Hex; [|done]. apply existsb_exists in Hex as ([r|] & [i Hi]%list_elem_of_In%list_elem_of_lookup & Ha); [|done].
  by destruct (no_requests _ Hr i r).
Qed.

(** C27: shutting a queue down ends.  Once the last handle is dropped and while no
    transfer is interrupted, no step of the kernel, the callers or the thread leads
    away from the end, by a measure that cannot fall below zero; and from every
    state the thread gets to the end of its loop, with the channel, the ring and the
    kernel empty.  So dropping the handle, which joins the thread, returns, and
    dropping the queue then leaks no request. *)
Theorem shutdown_drains n limit w :
  (0 < n)%nat → rtc queue_step (new_queue_world n limit) w → receiver_closed (ioq w) = true → running w = true → (∀ i, (i, - EINTR) ∉ completions w) →
  0 ≤ drain_measure w ∧ (∀ w', shutdown_step w w' → drain_measure w' ≤ drain_measure w)
  ∧ ∃ w', rtc shutdown_step w w' ∧ drained w' ∧ drop_queue (ioq w') = Done ([], []).
Proof.
  intros Hn Hreach Hcl Hrun Hno. pose proof (queue_reachable _ _ _ Hreach) as Hw. pose proof (drain_measure_nonneg n w Hw). split_and!; [done| |].
  - intros w' Hstep. by eapply shutdown_step_measure.
  - destruct (shutdown_reaches_end n Hn (Z.to_nat (drain_measure w)) w) as (w' & Hr & Hsd & Hend); [lia|by constructor|done|].
    exists w'. split_and!; [done|done|by eapply drained_leaks_nothing].
Qed.

(** A queue that is closed while a read is with the kernel. *)
Definition closing_world : QueueWorld :=
  mkQueueWorld (with_receiver [] true (ioq sample_world)) (kernel sample_world) [] ∅ [] true.

Lemma shutdown_drains_witness : ∃ w', rtc shutdown_step closing_world w' ∧ drained w' ∧ drop_queue (ioq w') = Done ([], []).
Proof.
  destruct (shutdown_drains 4 None closing_world) as (_ & _ & Hend); [lia| |reflexivity|reflexivity|by intros i ?%elem_of_nil|exact Hend].
  eapply rtc_r; [exact sample_world_reachable|apply queue_disconnect].
Defined.
