(* ===== verification/File.v ===== *)
(** * The data file ([feuer-storage/src/file.rs], [uring.rs], [metrics.rs])

    [DataFile] runs its reads and writes through the io_uring queue, one caller at
    a time, against a kernel whose answers are scripted: each transfer may be
    interrupted, fail with any error after touching its own range, or move fewer
    bytes than asked for.  When the script is used up the kernel moves what it is
    asked for.  Allocation failures and a stopped queue are scripted too.  The pieces
    of a large transfer are served one after the other and a queue stops between
    requests; Uring.v and ReadBuffers.v have all interleavings of requests.  The
    file discharges the [StorageFile] interface that the disk cache is proved
    against. *)

From Stdlib Require Import String.
From S2P Require Import Prelude Codec Errors Disk Allocation Admission Uring.

(** ** The kernel *)
Record KernelAnswer := mkKernelAnswer { ka_result : Z; ka_torn : list byte }.
Record Kernel := mkKernel { k_disk : disk; k_length : Z; k_script : list KernelAnswer }.

(** One transfer, over the disk and a read buffer. *)
Definition kernel_transfer (k : Kernel) (buf : disk) (e : Sqe) : Kernel * disk * Z :=
  let answer := default (mkKernelAnswer (sqe_len e) []) (head (k_script k)) in
  let next d := mkKernel d (k_length k) (tail (k_script k)) in
  match sqe_transfer e with
  | ReadInto _ start len =>
      if ka_result answer <? 0
      then (next (k_disk k), disk_write buf start (take (Z.to_nat len) (ka_torn answer)), ka_result answer)
      else
        let n := Z.min (ka_result answer) (Z.min len (Z.max 0 (k_length k - sqe_offset e))) in
        (next (k_disk k), disk_write buf start (disk_read (k_disk k) (sqe_offset e) (Z.to_nat n)), n)
  | WriteFrom parts =>
      let data := concat parts in
      if ka_result answer <? 0
      then (next (disk_write (k_disk k) (sqe_offset e) (take (length data) (ka_torn answer))), buf, ka_result answer)
      else
        let n := Z.min (ka_result answer) (Z.of_nat (length data)) in
        (next (disk_write (k_disk k) (sqe_offset e) (take (Z.to_nat n) data)), buf, n)
  end.

(** The thread serving one request: the kernel completes the submitted entry and
    the thread handles the completion, until it replies.  Running out of [fuel] is
    not an outcome of the source. *)
Fixpoint drive (fuel : nat) (k : Kernel) (buf : disk) (q : IoQueue) : outcome (Kernel * disk * Reply) :=
  match fuel, submission q with
  | S fuel, e :: rest =>
      let '(k, buf, res) := kernel_transfer k buf e in
      let q := mkIoQueue rest (receiver q) (receiver_closed q) (requests_awaiting_completion q) (write_rate_limit q) in
      '(q, sent) ← handle_io_completion q ∅ (user_data e) res;
      match sent with
      | (_, r) :: _ => Done (k, buf, r)
      | [] => drive fuel k buf q
      end
  | _, _ => Panic
  end.

(** [IoQueueHandle::submit_request] and its reply, on an idle queue. *)
Definition submit_request (q : IoQueue) (k : Kernel) (buf : disk) (offset : Z) (b : IoBuffers) (range : Range)
  : outcome (Kernel * disk * Reply) :=
  r ← new_IoRequest 0 offset b range 0;
  '(q, _) ← queue_requests_for_submission (with_receiver [r] false q) ∅ (mkReadQueueWaiters 0 None) 0;
  drive (length (k_script k) + 3) k buf q.

Definition idle_read_queue : IoQueue := new_IoQueue MAX_IN_FLIGHT_READS None.
Definition idle_write_queue : IoQueue := new_IoQueue MAX_IN_FLIGHT_WRITES (Some (mkWriteRateLimit 0)).

(** ** Data-file state *)

(** [IoMetrics] *)
Record IoOperationMetrics := mkIoOperationMetrics { success : Z; error : Z; successful_bytes : Z }.
Record IoMetrics := mkIoMetrics { read_metrics : IoOperationMetrics; write_metrics : IoOperationMetrics }.
Definition record_operation (o : IoOperationMetrics) (bytes : Z) (ok : bool) : IoOperationMetrics :=
  if ok then mkIoOperationMetrics (success o + 1) (error o) (successful_bytes o + bytes)
  else mkIoOperationMetrics (success o) (error o + 1) (successful_bytes o).
Definition record_io (m : IoMetrics) (operation : IoOperation) (bytes : Z) (ok : bool) : IoMetrics :=
  match operation with
  | Read => mkIoMetrics (record_operation (read_metrics m) bytes ok) (write_metrics m)
  | Write => mkIoMetrics (read_metrics m) (record_operation (write_metrics m) bytes ok)
  | _ => m
  end.

(** A buffer from the pool or the allocator: its capacity, address and stale contents. *)
Record BufferAllocation := mkBufferAllocation { buffer_capacity : Z; buffer_ptr : Z; stale : disk }.

(** [DataFileState], with the answers to come of the allocator, of the channel and
    of [fsync], and the address of the bytes that are written. *)
Record DataFile := mkDataFile {
  df_capacity : Z;
  data_path : string;
  df_kernel : Kernel;
  df_metrics : IoMetrics;
  df_channel : list bool;
  df_allocations : list (option BufferAllocation);
  df_syncs : list (DataFileResult ());
  df_input_ptr : Z
}.
Definition with_kernel (k : Kernel) (f : DataFile) : DataFile :=
  mkDataFile (df_capacity f) (data_path f) k (df_metrics f) (df_channel f) (df_allocations f) (df_syncs f) (df_input_ptr f).

(** [IoQueueHandle::reserve_channel_capacity] *)
Definition reserve_channel_capacity (f : DataFile) : DataFile * result io_error () :=
  (mkDataFile (df_capacity f) (data_path f) (df_kernel f) (df_metrics f) (tail (df_channel f)) (df_allocations f) (df_syncs f) (df_input_ptr f),
   if default true (head (df_channel f)) then Ok () else Err QueueStopped).
Definition allocate (f : DataFile) : DataFile * option BufferAllocation :=
  (mkDataFile (df_capacity f) (data_path f) (df_kernel f) (df_metrics f) (df_channel f) (tail (df_allocations f)) (df_syncs f) (df_input_ptr f),
   default (Some (mkBufferAllocation 0 0 (λ _, Byte.x00))) (head (df_allocations f))).

(** The first offsets of the pieces of [length] bytes. *)
Definition piece_starts (len : Z) : list Z := (λ i, Z.of_nat i * MAX_IO_REQUEST_BYTES) <$> seq 0 (Z.to_nat (div_ceil len MAX_IO_REQUEST_BYTES)).

(** The loop of [ReadQueue::read] that queues the pieces; [reserved] is the
    channel capacity reserved up front.  The replies are awaited in order once all
    pieces are queued. *)
Fixpoint read_pieces (f : DataFile) (buf : disk) (offset len : Z) (reserved : bool) (starts : list Z) (replies : list Reply)
  : outcome (DataFile * disk * result io_error (list Reply)) :=
  match starts with
  | [] => Done (f, buf, Ok replies)
  | start :: starts =>
      let '(f, permit) := if reserved then (f, Ok ()) else reserve_channel_capacity f in
      match permit with
      | Err e => Done (f, buf, Err e)
      | Ok _ =>
          let end_ := Z.min (start + MAX_IO_REQUEST_BYTES) len in
          '(k, buf, reply) ← submit_request idle_read_queue (df_kernel f) buf (offset + start) (ReadBuffers 0 len) (mkRange start end_);
          read_pieces (with_kernel k f) buf offset len false starts (replies ++ [reply])
      end
  end.
Fixpoint await_replies (replies : list Reply) : result io_error () :=
  match replies with
  | [] => Ok ()
  | Err e :: _ => Err e
  | Ok _ :: replies => await_replies replies
  end.

(** [ReadQueue::read] *)
Definition queue_read (f : DataFile) (offset len : Z) : outcome (DataFile * result io_error (list byte * Z)) :=
  let '(f, permit) := reserve_channel_capacity f in
  match permit with
  | Err e => Done (f, Err e)
  | Ok _ =>
      let '(f, allocation) := allocate f in
      match allocation with
      | None => Done (f, Err AllocationFailed)
      | Some a =>
          '(f, buf, replies) ← read_pieces f (stale a) offset len true (piece_starts len) [];
          Done (f, replies ← replies; _ ← await_replies replies; Ok (disk_read buf 0 (Z.to_nat len), Z.max (buffer_capacity a) len))
      end
  end.

(** [WriteQueue::write_padded] *)
Fixpoint write_pieces (f : DataFile) (offset len : Z) (bytes : Bytes) (starts : list Z) : outcome (DataFile * result io_error ()) :=
  match starts with
  | [] => Done (f, Ok ())
  | start :: starts =>
      let request_length := Z.min (len - start) MAX_IO_REQUEST_BYTES in
      let end_ := Z.min (start + request_length) (bytes_len bytes) in
      let '(f, permit) := reserve_channel_capacity f in
      match permit with
      | Err e => Done (f, Err e)
      | Ok _ =>
          let '(f, allocation) := allocate f in
          b ← from_write_bytes request_length (bytes_slice (Z.min start end_) end_ bytes) (buffer_ptr <$> allocation);
          match b with
          | Err e => Done (f, Err e)
          | Ok b =>
              '(k, _, reply) ← submit_request idle_write_queue (df_kernel f) (λ _, Byte.x00) (offset + start) b (mkRange 0 request_length);
              match reply with
              | Err e => Done (with_kernel k f, Err e)
              | Ok _ => write_pieces (with_kernel k f) offset len bytes starts
              end
          end
      end
  end.
Definition queue_write_padded (f : DataFile) (offset len : Z) (bytes : Bytes) : outcome (DataFile * result io_error ()) :=
  write_pieces f offset len bytes (piece_starts len).

(** [DataFile::io_error] *)
Definition file_io_error (f : DataFile) (operation : IoOperation) (source : io_error) : DataFileError :=
  Io operation (data_path f) source.

(** [check_range_fits_file] *)
Definition check_range_fits_file (operation : IoOperation) (offset len capacity : Z) : DataFileResult () :=
  if match checked_add offset len with Some e => capacity <? e | None => true end
  then Err (RangeExceedsCapacity operation offset len capacity) else Ok ().

(** [DataFile::measure_io] *)
Definition measure_io {A} (operation : IoOperation) (len : Z) (x : outcome (DataFile * DataFileResult A)) : outcome (DataFile * DataFileResult A) :=
  '(f, r) ← x;
  Done (mkDataFile (df_capacity f) (data_path f) (df_kernel f) (record_io (df_metrics f) operation len (is_ok r))
          (df_channel f) (df_allocations f) (df_syncs f) (df_input_ptr f), r).

(** [DataFile::read_slice] *)
Definition read_slice (f : DataFile) (offset : Z) (len : nat) : outcome (DataFile * DataFileResult (list byte * Z)) :=
  let padding := offset mod DIRECT_IO_ALIGNMENT_BYTES in
  let buffer_length := payload_disk_bytes (padding + Z.of_nat len) in
  '(f, r) ← queue_read f (offset - padding) buffer_length;
  Done (f, '(bytes, capacity) ← map_err (file_io_error f Read) r;
           Ok (slice (Z.to_nat padding) (Z.to_nat padding + len) bytes, capacity)).

(** [DataFile::read_at], [read_payload], [write_padded] and [sync_all] *)
Definition file_read_at (f : DataFile) (offset : Z) (len : nat) : outcome (DataFile * DataFileResult (list byte)) :=
  measure_io Read (Z.of_nat len)
    match check_range_fits_file Read offset (Z.of_nat len) (df_capacity f) with
    | Err e => Done (f, Err e)
    | Ok _ =>
        if (len =? 0)%nat then Done (f, Ok [])
        else '(f, r) ← read_slice f offset len; Done (f, fst <$> r)
    end.
Definition file_read_payload (f : DataFile) (address : Z) (len : nat) : outcome (DataFile * DataFileResult (list byte * Z)) :=
  measure_io Read (Z.of_nat len) (read_slice f address len).
Definition file_write_padded (f : DataFile) (offset len : Z) (bytes : Bytes) : outcome (DataFile * DataFileResult ()) :=
  measure_io Write len
    match check_range_fits_file Write offset len (df_capacity f) with
    | Err e => Done (f, Err e)
    | Ok _ => '(f, r) ← queue_write_padded f offset len bytes; Done (f, map_err (file_io_error f Write) r)
    end.
Definition file_sync_all (f : DataFile) : DataFile * DataFileResult () :=
  (mkDataFile (df_capacity f) (data_path f) (df_kernel f) (df_metrics f) (df_channel f) (df_allocations f) (tail (df_syncs f)) (df_input_ptr f),
   default (Ok ()) (head (df_syncs f))).

Global Instance data_file : StorageFile DataFile := {|
  capacity := df_capacity;
  contents f := k_disk (df_kernel f);
  read_at := file_read_at;
  write_padded f offset len bytes := file_write_padded f offset len (mkBytes (df_input_ptr f) bytes);
  sync_all := file_sync_all
|}.

(** ** Disk lemmas *)
Lemma disk_write_app d a x y i : disk_write (disk_write d a x) (a + Z.of_nat (length x)) y i = disk_write d a (x ++ y) i.
Proof.
  unfold disk_write. destruct (decide (a ≤ i)) as [Ha|Ha]; [|rewrite decide_False by lia; done].
  destruct (decide (a + Z.of_nat (length x) ≤ i)) as [Hx|Hx].
  - rewrite lookup_app_r by lia. replace (Z.to_nat (i - a) - length x)%nat with (Z.to_nat (i - (a + Z.of_nat (length x)))) by lia.
    rewrite (lookup_ge_None_2 x) by lia. done.
  - rewrite lookup_app_l by lia. done.
Qed.

Lemma disk_write_over d d' a bytes :
  agree_outside a (Z.of_nat (length bytes)) d d' → ∀ i, disk_write d' a bytes i = disk_write d a bytes i.
Proof.
  intros Hag i. destruct (decide (a ≤ i < a + Z.of_nat (length bytes))) as [Hin|Hout].
  - unfold disk_write. rewrite !decide_True by lia. destruct (lookup_lt_is_Some_2 bytes (Z.to_nat (i - a)) ltac:(lia)) as [b ->]. done.
  - rewrite !disk_write_out by lia. apply Hag. lia.
Qed.

Lemma disk_write_agree d a bytes n : Z.of_nat (length bytes) ≤ n → agree_outside a n d (disk_write d a bytes).
Proof. intros Hn i Hi. apply disk_write_out. lia. Qed.

Lemma agree_outside_trans a n d1 d2 d3 : agree_outside a n d1 d2 → agree_outside a n d2 d3 → agree_outside a n d1 d3.
Proof. intros H1 H2 i Hi. by rewrite H2, H1. Qed.

Lemma agree_outside_mono a n a' n' d d' : a ≤ a' → a' + n' ≤ a + n → agree_outside a' n' d d' → agree_outside a n d d'.
Proof. intros ?? Hag i Hi. apply Hag. lia. Qed.

Lemma disk_write_ext d d' a bytes i : (∀ j, d' j = d j) → disk_write d' a bytes i = disk_write d a bytes i.
Proof. intros Heq. unfold disk_write. by rewrite Heq. Qed.

(** ** One request *)
Definition busy (n : nat) (limit : option WriteRateLimit) (r : IoRequest) : IoQueue :=
  mkIoQueue [entry_of r 0] [] false (Some (prepared r 0) :: replicate n None) limit.

Definition reply_buffer (r : IoRequest) : option Z := match buffers r with ReadBuffers b _ => Some b | WriteBuffers _ _ _ => None end.

Lemma drive_step fuel n limit k buf r :
  is_Some (reply r) →
  drive (S fuel) k buf (busy n limit r)
  = let '(k', buf', res) := kernel_transfer k buf (entry_of r 0) in
    match apply_completion_result (prepared r 0) res with
    | Err e => Done (k', buf', Err e)
    | Ok r' => if 0 <? range_len (remaining_buffer_range r') then drive fuel k' buf' (busy n limit r')
               else Done (k', buf', Ok (reply_buffer r'))
    end.
Proof.
  intros [id Hid]. unfold busy at 1. cbn [drive submission]. destruct (kernel_transfer _ _ _) as [[k' buf'] res]. rewrite entry_user_data.
  cbn [receiver receiver_closed requests_awaiting_completion write_rate_limit]. unfold handle_io_completion.
  cbn [requests_awaiting_completion lookup list_lookup unwrap mbind outcome_bind].
  destruct (prepared_fields r 0) as (Hrep & _). rewrite Hid in Hrep. unfold send_result, reply_is_closed.
  destruct (apply_completion_result (prepared r 0) res) as [r'|e] eqn:Happ.
  - assert (Hrep' : reply r' = Some id).
    { unfold apply_completion_result in Happ. repeat (case_match; try done); simplify_eq; done. }
    rewrite Hrep'. cbn [unwrap mbind outcome_bind]. rewrite bool_decide_eq_false_2 by set_solver.
    destruct (0 <? _); [|done]. unfold queue_request_for_submission, set_request.
    cbn [submission receiver receiver_closed requests_awaiting_completion write_rate_limit insert list_insert lookup list_lookup unwrap mbind outcome_bind].
    unfold busy, entry_of, prepared. destruct (request_submission_entry r' 0) as [r2 e2]. cbn [length fst snd].
    rewrite bool_decide_eq_true_2 by (cbn; lia). done.
  - rewrite Hrep. done.
Qed.

Lemma busy_start n limit r :
  is_Some (reply r) →
  queue_requests_for_submission (with_receiver [r] false (new_IoQueue (S n) limit)) ∅ (mkReadQueueWaiters 0 None) 0
  = Done (busy n ((λ l, record_write l (range_len (remaining_buffer_range r)) 0) <$> limit) r, -1).
Proof.
  intros [id Hid]. unfold queue_requests_for_submission, with_receiver, new_IoQueue. cbn [requests_awaiting_completion submission write_rate_limit].
  rewrite length_replicate. cbn [queue_requests_from replicate lookup list_lookup requests_awaiting_completion unwrap mbind outcome_bind receiver].
  replace (match write_rate_limit _ with Some _ => _ | None => false end) with false by (cbn; by destruct limit).
  cbn [receive]. unfold reply_is_closed. rewrite Hid. cbn [unwrap mbind outcome_bind]. rewrite bool_decide_eq_false_2 by set_solver.
  cbn [mbind outcome_bind submission receiver receiver_closed requests_awaiting_completion write_rate_limit insert list_insert].
  unfold queue_request_for_submission. cbn [requests_awaiting_completion lookup list_lookup unwrap mbind outcome_bind submission receiver receiver_closed write_rate_limit].
  unfold busy, entry_of, prepared. destruct (request_submission_entry r 0) as [r2 e2]. cbn [length fst snd].
  rewrite bool_decide_eq_true_2 by lia. cbn [assert_that mbind outcome_bind insert list_insert app].
  destruct n as [|n]; [done|]. cbn [queue_requests_from replicate lookup list_lookup requests_awaiting_completion unwrap mbind outcome_bind receiver]. done.
Qed.

Lemma prepared_buffers r : match buffers r with
  | ReadBuffers b n => buffers (prepared r 0) = ReadBuffers b n
  | WriteBuffers p t _ => ∃ iov, buffers (prepared r 0) = WriteBuffers p t iov
  end.
Proof. unfold prepared, request_submission_entry. destruct (buffers r); cbn; eauto. Qed.

(** A write that gets through has put its bytes on disk; otherwise only its own
    range may differ.  Interrupted and short transfers are continued. *)
Lemma drive_write n limit : ∀ fuel k buf r p t iov,
  request_ok r → buffers r = WriteBuffers p t iov → (length (k_script k) < fuel)%nat →
  let len := range_len (remaining_buffer_range r) in
  let data := drop (Z.to_nat (range_start (remaining_buffer_range r))) (bytes_data p ++ bytes_data t) in
  ∃ k' res, drive fuel k buf (busy n limit r) = Done (k', buf, res) ∧ k_length k' = k_length k
    ∧ agree_outside (request_offset r) len (k_disk k) (k_disk k')
    ∧ (is_ok res = true → ∀ a, k_disk k' a = disk_write (k_disk k) (request_offset r) data a).
Proof.
  induction fuel as [|fuel IH]; intros k buf r p t iov Hok Hb Hfuel len data; [lia|].
  rewrite drive_step by apply (ro_reply _ Hok). destruct (entry_spec r 0 Hok) as (Hoff & Hlen & _ & _ & Htr). rewrite Hb in Htr.
  destruct Htr as (parts & Htr & _ & _ & Hcat). fold data in Hcat.
  assert (Hdl : Z.of_nat (length data) = len).
  { pose proof (ro_buffers _ Hok) as Hbl. rewrite Hb in Hbl. pose proof (ro_start _ Hok). pose proof (ro_len _ Hok).
    unfold data, len, range_len, bytes_len in *. rewrite length_drop, length_app. lia. }
  assert (Hpok := prepared_ok r 0 Hok). destruct (prepared_fields r 0) as (Hrep & Hrg & Hend & _).
  pose proof (prepared_buffers r) as Hpb. rewrite Hb in Hpb. destruct Hpb as [iov' Hpb].
  unfold kernel_transfer. rewrite Htr, Hcat, Hoff. set (answer := default _ _).
  destruct (Z.ltb_spec (ka_result answer) 0) as [Hneg|Hpos].
  - set (d1 := disk_write (k_disk k) (request_offset r) (take (length data) (ka_torn answer))).
    assert (Hag1 : agree_outside (request_offset r) len (k_disk k) d1) by (apply disk_write_agree; rewrite length_take; lia).
    destruct (apply_completion_result (prepared r 0) (ka_result answer)) as [r'|e] eqn:Happ; [|by eexists _, _].
    assert (ka_result answer = - EINTR ∧ r' = prepared r 0) as [Heint ->].
    { unfold apply_completion_result in Happ. destruct (Z.eqb_spec (ka_result answer) (- EINTR)); [by simplify_eq|].
      rewrite (proj2 (Z.ltb_lt _ _)) in Happ by done. by rewrite Hpb in Happ. }
    rewrite Hrg. rewrite (proj2 (Z.ltb_lt _ _)) by apply (ro_len _ Hok).
    assert (Hscript : k_script k ≠ []).
    { intros Hnil. unfold answer in Hneg. rewrite Hnil in Hneg. cbn in Hneg. rewrite Hlen in Hneg. pose proof (ro_len _ Hok). lia. }
    destruct (IH (mkKernel d1 (k_length k) (tail (k_script k))) buf (prepared r 0) p t iov' Hpok Hpb) as (k' & res & Hrun & Hkl & Hag & Hdone).
    { cbn. destruct (k_script k); [done|cbn in *; lia]. }
    unfold request_offset in *. rewrite Hrg, Hend in *. exists k', res. split_and!; [done|done| |].
    + by eapply agree_outside_trans.
    + intros Hres a. rewrite (Hdone Hres). cbn [k_disk]. fold data. apply disk_write_over. by rewrite Hdl.
  - set (m := Z.min (ka_result answer) (Z.of_nat (length data))). set (d1 := disk_write (k_disk k) (request_offset r) (take (Z.to_nat m) data)).
    assert (Hag1 : agree_outside (request_offset r) len (k_disk k) d1) by (apply disk_write_agree; rewrite length_take; unfold m; lia).
    assert (Hm0 : 0 ≤ m ≤ len) by (unfold m; lia).
    destruct (apply_completion_result (prepared r 0) m) as [r'|e] eqn:Happ; [|by eexists _, _].
    destruct (apply_completion_ok _ m _ Hpok ltac:(rewrite Hrg; fold len; unfold m; lia) Happ) as (_ & Hend' & Hb' & _ & Hor & Hadv).
    destruct Hadv as [[Hbad _]|(Hm & _ & Hs' & He')]; [unfold EINTR in *; lia|]. rewrite Hrg in Hs', He'.
    assert (Hrl' : range_len (remaining_buffer_range r') = len - m) by (unfold range_len, len in *; unfold range_len; lia).
    destruct (Z.ltb_spec 0 (range_len (remaining_buffer_range r'))) as [Hmore|Hdone'].
    + destruct Hor as [Hor|Hok']; [lia|].
      assert (Hscript : k_script k ≠ []).
      { intros Hnil. unfold m, answer in Hrl'. rewrite Hnil in Hrl'. cbn in Hrl'. rewrite Hlen in Hrl'. fold len in Hrl'. lia. }
      assert (Hoff' : request_offset r' = request_offset r + m) by (unfold request_offset; rewrite Hend', Hend; unfold len in *; lia).
      destruct (IH (mkKernel d1 (k_length k) (tail (k_script k))) buf r' p t iov' Hok' ltac:(by rewrite Hb')) as (k' & res & Hrun & Hkl & Hag & Hdone).
      { cbn. destruct (k_script k); [done|cbn in *; lia]. }
      exists k', res. split_and!; [done|done| |].
      * eapply agree_outside_trans; [exact Hag1|]. eapply agree_outside_mono; [| |exact Hag]; lia.
      * intros Hres a. rewrite (Hdone Hres). cbn [k_disk]. rewrite Hoff', Hs'. unfold d1.
        replace (drop (Z.to_nat (range_start (remaining_buffer_range r) + m)) (bytes_data p ++ bytes_data t)) with (drop (Z.to_nat m) data)
          by (unfold data; rewrite drop_drop; f_equal; pose proof (ro_start _ Hok); lia).
        assert (Hml : Z.of_nat (length (take (Z.to_nat m) data)) = m) by (rewrite length_take; lia).
        rewrite <-Hml at 2. rewrite disk_write_app, take_drop. done.
    + eexists _, _. split; [done|]. split_and!; [done|done|]. intros _ a. cbn [k_disk]. unfold d1. rewrite take_ge; [done|lia].
Qed.

Lemma request_end r : request_ok r → request_offset r + range_len (remaining_buffer_range r) = file_end_offset r.
Proof. intros _. unfold request_offset. lia. Qed.

Lemma disk_read_write_app buf start d off n m i :
  0 ≤ n → 0 ≤ m →
  disk_write (disk_write buf start (disk_read d off (Z.to_nat n))) (start + n) (disk_read d (off + n) (Z.to_nat m)) i
  = disk_write buf start (disk_read d off (Z.to_nat (n + m))) i.
Proof.
  intros Hn Hm. assert (Hl : Z.of_nat (length (disk_read d off (Z.to_nat n))) = n) by (rewrite length_disk_read; lia).
  rewrite <-Hl at 2. rewrite disk_write_app. f_equal. replace (Z.to_nat (n + m)) with (Z.to_nat n + Z.to_nat m)%nat by lia.
  rewrite disk_read_app. do 2 f_equal. lia.
Qed.

(** A read that gets through has copied its file range, which lies inside the
    file, into its part of the buffer. *)
Lemma drive_read n limit : ∀ fuel k buf r b bl,
  request_ok r → buffers r = ReadBuffers b bl →
  (length (k_script k) + (if decide (k_length k ≤ request_offset r)%Z then 1 else 2) ≤ fuel)%nat →
  let len := range_len (remaining_buffer_range r) in
  let start := range_start (remaining_buffer_range r) in
  ∃ k' buf' res, drive fuel k buf (busy n limit r) = Done (k', buf', res) ∧ k_length k' = k_length k ∧ k_disk k' = k_disk k
    ∧ agree_outside start len buf buf'
    ∧ (is_ok res = true → request_offset r + len ≤ k_length k
        ∧ ∀ a, buf' a = disk_write buf start (disk_read (k_disk k) (request_offset r) (Z.to_nat len)) a).
Proof.
  induction fuel as [|fuel IH]; intros k buf r b bl Hok Hb Hfuel len start; [case_decide; lia|].
  rewrite drive_step by apply (ro_reply _ Hok). destruct (entry_spec r 0 Hok) as (Hoff & Hlen & _ & _ & Htr). rewrite Hb in Htr.
  pose proof (ro_len _ Hok) as [[Hlen0 _] _]. fold len in Hlen, Htr, Hlen0. fold start in Htr.
  assert (Hpok := prepared_ok r 0 Hok). destruct (prepared_fields r 0) as (Hrep & Hrg & Hend & _).
  pose proof (prepared_buffers r) as Hpb. rewrite Hb in Hpb.
  unfold kernel_transfer. rewrite Htr, Hoff. set (answer := default _ _).
  destruct (Z.ltb_spec (ka_result answer) 0) as [Hneg|Hpos].
  - set (buf1 := disk_write buf start (take (Z.to_nat len) (ka_torn answer))).
    assert (Hag1 : agree_outside start len buf buf1) by (apply disk_write_agree; rewrite length_take; lia).
    destruct (apply_completion_result (prepared r 0) (ka_result answer)) as [r'|e] eqn:Happ; [|by eexists _, _, _].
    assert (ka_result answer = - EINTR ∧ r' = prepared r 0) as [Heint ->].
    { unfold apply_completion_result in Happ. destruct (Z.eqb_spec (ka_result answer) (- EINTR)); [by simplify_eq|].
      rewrite (proj2 (Z.ltb_lt _ _)) in Happ by done. by rewrite Hpb in Happ. }
    rewrite Hrg. fold len. rewrite (proj2 (Z.ltb_lt _ _)) by done.
    assert (Hscript : k_script k ≠ []).
    { intros Hnil. unfold answer in Hneg. rewrite Hnil in Hneg. cbn in Hneg. lia. }
    assert (Hro : request_offset (prepared r 0) = request_offset r) by (unfold request_offset; by rewrite Hend, Hrg).
    destruct (IH (mkKernel (k_disk k) (k_length k) (tail (k_script k))) buf1 (prepared r 0) b bl Hpok Hpb) as (k' & buf' & res & Hrun & Hkl & Hkd & Hag & Hdone).
    { cbn. rewrite Hro. destruct (k_script k); [done|cbn in *; lia]. }
    rewrite Hro, Hrg in *. fold len start in Hag, Hdone. exists k', buf', res. split_and!; [done|done|done| |].
    + by eapply agree_outside_trans.
    + intros Hres. destruct (Hdone Hres) as [Hle Hbuf]. split; [done|]. intros a. rewrite Hbuf. cbn [k_disk]. apply disk_write_over.
      rewrite length_disk_read. by replace (Z.of_nat (Z.to_nat len)) with len by lia.
  - set (m := Z.min (ka_result answer) (Z.min len (Z.max 0 (k_length k - request_offset r)))).
    assert (Hm0 : 0 ≤ m ≤ len) by (unfold m; lia). set (buf1 := disk_write buf start (disk_read (k_disk k) (request_offset r) (Z.to_nat m))).
    assert (Hag1 : agree_outside start len buf buf1) by (apply disk_write_agree; rewrite length_disk_read; lia).
    destruct (apply_completion_result (prepared r 0) m) as [r'|e] eqn:Happ; [|by eexists _, _, _].
    destruct (apply_completion_ok _ m _ Hpok ltac:(rewrite Hrg; fold len; lia) Happ) as (_ & Hend' & Hb' & _ & Hor & Hadv).
    destruct Hadv as [[Hbad _]|(Hm & _ & Hs' & He')]; [unfold EINTR in *; lia|]. rewrite Hrg in Hs', He'.
    assert (Hrl' : range_len (remaining_buffer_range r') = len - m) by (unfold range_len, len in *; unfold range_len; lia).
    assert (Hfit : request_offset r + m ≤ k_length k) by (unfold m in *; lia).
    destruct (Z.ltb_spec 0 (range_len (remaining_buffer_range r'))) as [Hmore|Hdone'].
    + destruct Hor as [Hor|Hok']; [lia|].
      assert (Hoff' : request_offset r' = request_offset r + m) by (unfold request_offset; rewrite Hend', Hend; unfold len in *; lia).
      destruct (IH (mkKernel (k_disk k) (k_length k) (tail (k_script k))) buf1 r' b bl Hok' ltac:(by rewrite Hb')) as (k' & buf' & res & Hrun & Hkl & Hkd & Hag & Hdone).
      { cbn [k_script k_length]. rewrite Hoff'. rewrite decide_False in Hfuel by lia. destruct (k_script k) as [|x xs] eqn:Hs.
        - assert (m = k_length k - request_offset r) by (unfold m, answer in *; cbn [head default from_option ka_result] in *; lia).
          rewrite decide_True by lia. cbn in *. lia.
        - cbn [tail length] in *. case_decide; lia. }
      rewrite Hoff', Hs' in *. exists k', buf', res. split_and!; [done|done|done| |].
      * eapply agree_outside_trans; [exact Hag1|]. eapply agree_outside_mono; [| |exact Hag]; unfold start; lia.
      * intros Hres. destruct (Hdone Hres) as [Hle Hbuf]. cbn [k_length k_disk] in *. split; [lia|]. intros a. rewrite Hbuf, Hrl'. unfold buf1.
        fold start. rewrite disk_read_write_app by lia. do 3 f_equal. lia.
    + assert (m = len) by lia. eexists _, _, _. split; [done|]. split_and!; [done|done|done|]. intros _. split; [lia|]. intros a. unfold buf1. by replace m with len by lia.
Qed.

(** ** Requests from an idle queue *)
Lemma new_request_done offset b rg :
  aligned offset → aligned (range_start rg) → aligned (range_len rg) → 0 < range_len rg ≤ MAX_IO_REQUEST_BYTES →
  match b with ReadBuffers _ n => range_end rg ≤ n | WriteBuffers _ _ _ => True end →
  new_IoRequest 0 offset b rg 0 = Done (mkIoRequest 0 (offset + range_len rg) b rg (Some 0)).
Proof.
  intros Ho Hs Hl Hlen Hb. unfold new_IoRequest. rewrite !aligned_b by done. cbn [assert_that mbind outcome_bind].
  rewrite (proj2 (Z.ltb_lt _ _)), (proj2 (Z.leb_le (range_len rg) _)) by lia.
  destruct b as [buf n|p t iov]; [rewrite (proj2 (Z.leb_le _ _)) by done|]; done.
Qed.

Lemma submit_write n limit k buf offset p t iov len :
  aligned offset → aligned len → 0 < len ≤ MAX_IO_REQUEST_BYTES → bytes_len p + bytes_len t = len →
  ∃ k' res, submit_request (new_IoQueue (S n) limit) k buf offset (WriteBuffers p t iov) (mkRange 0 len) = Done (k', buf, res)
    ∧ k_length k' = k_length k ∧ agree_outside offset len (k_disk k) (k_disk k')
    ∧ (is_ok res = true → ∀ a, k_disk k' a = disk_write (k_disk k) offset (bytes_data p ++ bytes_data t) a).
Proof.
  intros Ho Hl Hlen Hpt. unfold submit_request. set (rg := mkRange 0 len). assert (Hrl : range_len rg = len) by (unfold range_len; cbn; lia).
  rewrite new_request_done by (rewrite ?Hrl; done). cbn [mbind outcome_bind].
  set (r := mkIoRequest _ _ _ _ _). assert (Hok : request_ok r).
  { split; cbn; rewrite ?Hrl; try done. unfold aligned in *. by rewrite Zplus_mod, Ho, Hl. }
  rewrite busy_start by (by eexists). cbn [mbind outcome_bind]. assert (Hoff : request_offset r = offset) by (unfold request_offset; cbn; lia).
  destruct (drive_write n ((λ l, record_write l (range_len rg) 0) <$> limit) (length (k_script k) + 3) k buf r p t iov Hok eq_refl ltac:(lia))
    as (k' & res & Hrun & Hkl & Hag & Hdone).
  rewrite Hoff in *. cbn in Hag, Hdone. rewrite Hrl in Hag. exists k', res. by split_and!.
Qed.

Lemma submit_read n limit k buf offset b bl rg :
  aligned offset → 0 ≤ range_start rg → aligned (range_start rg) → aligned (range_len rg) → 0 < range_len rg ≤ MAX_IO_REQUEST_BYTES → range_end rg ≤ bl →
  ∃ k' buf' res, submit_request (new_IoQueue (S n) limit) k buf offset (ReadBuffers b bl) rg = Done (k', buf', res)
    ∧ k_length k' = k_length k ∧ k_disk k' = k_disk k ∧ agree_outside (range_start rg) (range_len rg) buf buf'
    ∧ (is_ok res = true → offset + range_len rg ≤ k_length k
        ∧ ∀ a, buf' a = disk_write buf (range_start rg) (disk_read (k_disk k) offset (Z.to_nat (range_len rg))) a).
Proof.
  intros Ho H0 Hs Hl Hlen Hbl. unfold submit_request. rewrite new_request_done by done. cbn [mbind outcome_bind].
  set (r := mkIoRequest _ _ _ _ _). assert (Hok : request_ok r).
  { split; cbn; try done. unfold aligned in *. by rewrite Zplus_mod, Ho, Hl. }
  rewrite busy_start by (by eexists). cbn [mbind outcome_bind]. assert (Hoff : request_offset r = offset) by (unfold request_offset; cbn; lia).
  destruct (drive_read n ((λ l, record_write l (range_len rg) 0) <$> limit) (length (k_script k) + 3) k buf r b bl Hok eq_refl ltac:(case_decide; lia))
    as (k' & buf' & res & Hrun & Hkl & Hkd & Hag & Hdone).
  rewrite Hoff in *. cbn in Hag, Hdone. exists k', buf', res. by split_and!.
Qed.

(** ** Pieces *)
Definition starts_from (i n : nat) : list Z := (λ j, Z.of_nat j * MAX_IO_REQUEST_BYTES) <$> seq i n.
Definition same_file (f f' : DataFile) : Prop := df_capacity f' = df_capacity f ∧ data_path f' = data_path f ∧ df_input_ptr f' = df_input_ptr f ∧ k_length (df_kernel f') = k_length (df_kernel f).

Lemma same_file_trans f1 f2 f3 : same_file f1 f2 → same_file f2 f3 → same_file f1 f3.
Proof. intros (?&?&?&?) (?&?&?&?). by split_and!; etrans. Qed.

Lemma piece_bounds len i n :
  aligned len → Z.of_nat (i + S n) = div_ceil len MAX_IO_REQUEST_BYTES →
  let start := Z.of_nat i * MAX_IO_REQUEST_BYTES in
  let m := Z.min (len - start) MAX_IO_REQUEST_BYTES in
  aligned start ∧ aligned m ∧ 0 < m ≤ MAX_IO_REQUEST_BYTES ∧ Z.min (start + MAX_IO_REQUEST_BYTES) len = start + m
  ∧ (n = 0%nat ∧ start + m = len ∨ (0 < n)%nat ∧ m = MAX_IO_REQUEST_BYTES ∧ start + m = Z.of_nat (S i) * MAX_IO_REQUEST_BYTES).
Proof.
  intros Hal Hn start m. pose proof (div_ceil_mul len MAX_IO_REQUEST_BYTES ltac:(done)) as Hdc. rewrite <-Hn in Hdc.
  assert (Hs : aligned start).
  { unfold start, MAX_IO_REQUEST_BYTES. change (1024 * 1024) with 1048576. apply chunk_aligned. }
  assert (Hm : aligned m).
  { unfold m. destruct (Z.min_spec (len - start) MAX_IO_REQUEST_BYTES) as [[_ ->]|[_ ->]]; [|done]. unfold aligned in *. by rewrite Zminus_mod, Hal, Hs. }
  unfold start, m, MAX_IO_REQUEST_BYTES in *. split_and!; try done; lia.
Qed.

Lemma await_replies_app rs rs' : await_replies (rs ++ rs') = Ok () → await_replies rs = Ok () ∧ await_replies rs' = Ok ().
Proof. induction rs as [|[x|e] rs IH]; cbn; [by split|apply IH|done]. Qed.

Lemma read_pieces_ok len offset : aligned len → aligned offset → ∀ n i f buf reserved replies,
  Z.of_nat (i + n) = div_ceil len MAX_IO_REQUEST_BYTES →
  let s := Z.of_nat i * MAX_IO_REQUEST_BYTES in
  ∃ f' buf' rs, read_pieces f buf offset len reserved (starts_from i n) replies = Done (f', buf', rs)
    ∧ same_file f f' ∧ k_disk (df_kernel f') = k_disk (df_kernel f) ∧ (∀ a, a < s → buf' a = buf a)
    ∧ ∀ all, rs = Ok all → ∃ more, all = replies ++ more
        ∧ (await_replies more = Ok () → ∀ a, s ≤ a < len → buf' a = k_disk (df_kernel f) (offset + a)).
Proof.
  intros Hal Hoal. induction n as [|n IH]; intros i f buf reserved replies Hn s.
  { pose proof (div_ceil_mul len MAX_IO_REQUEST_BYTES ltac:(done)) as Hdc. rewrite <-Hn in Hdc.
    exists f, buf, (Ok replies). split_and!; try done. intros all [= <-]. exists []. split; [by rewrite app_nil_r|].
    intros _ a Ha. unfold s in Ha. replace (i + 0)%nat with i in Hdc by lia. lia. }
  change (starts_from i (S n)) with (s :: starts_from (S i) n). cbn [read_pieces].
  destruct (piece_bounds len i n Hal Hn) as (Hsa & Hma & Hm & Hmin & Hnext). fold s in Hsa, Hma, Hm, Hmin, Hnext. set (m := Z.min (len - s) MAX_IO_REQUEST_BYTES) in *.
  set (fp := if reserved then _ else _). assert (Hfp : ∃ f1 p, fp = (f1, p) ∧ same_file f f1 ∧ df_kernel f1 = df_kernel f).
  { unfold fp. destruct reserved; [by exists f, (Ok ())|]. by eexists _, _. }
  destruct Hfp as (f1 & p & -> & Hsf & Hk1). destruct p as [[]|e]; [|exists f1, buf, (Err e); rewrite Hk1; by split_and!].
  rewrite Hmin. assert (Hrl : range_len (mkRange s (s + m)) = m) by (unfold range_len; cbn; lia).
  destruct (submit_read 63 None (df_kernel f1) buf (offset + s) 0 len (mkRange s (s + m))) as (k' & buf1 & res & Hrun & Hkl & Hkd & Hag & Hdone).
  { unfold aligned in *. by rewrite Zplus_mod, Hoal, Hsa. } { cbn. unfold s, MAX_IO_REQUEST_BYTES. lia. } { done. } { by rewrite Hrl. } { by rewrite Hrl. } { cbn. lia. }
  change idle_read_queue with (new_IoQueue 64 None). rewrite Hrun. cbn [mbind outcome_bind]. rewrite Hrl in Hag, Hdone. cbn [range_start] in Hag, Hdone.
  destruct (IH (S i) (with_kernel k' f1) buf1 false (replies ++ [res]) ltac:(lia)) as (f' & buf' & rs & Hrun' & Hsf' & Hkd' & Hlow & Hall).
  cbn [df_kernel with_kernel] in Hkd', Hall. rewrite Hkd, Hk1 in *.
  assert (Hs' : s + MAX_IO_REQUEST_BYTES = Z.of_nat (S i) * MAX_IO_REQUEST_BYTES) by (unfold s; lia).
  exists f', buf', rs. split_and!; [done| |done| |].
  - eapply same_file_trans; [exact Hsf|]. eapply same_file_trans; [|exact Hsf']. split_and!; try done. cbn. by rewrite Hkl, Hk1.
  - intros a Ha. rewrite Hlow by lia. apply Hag. lia.
  - intros all Hrs. destruct (Hall all Hrs) as (more & -> & Hmore). exists (res :: more). split; [by rewrite <-app_assoc|].
    intros Haw a Ha. destruct res as [x|e]; [|done]. cbn in Haw. destruct (Hdone eq_refl) as [_ Hbuf].
    destruct (decide (a < Z.of_nat (S i) * MAX_IO_REQUEST_BYTES)) as [Hlt|Hge].
    + rewrite Hlow, Hbuf by done. replace a with (s + Z.of_nat (Z.to_nat (a - s))) at 1 by lia.
      apply disk_write_in. rewrite lookup_disk_read, decide_True by lia. f_equal. f_equal. lia.
    + apply Hmore; [done|lia].
Qed.

Lemma queue_read_ok f offset len :
  aligned offset → aligned len → 0 ≤ len →
  ∃ f' r, queue_read f offset len = Done (f', r) ∧ same_file f f' ∧ k_disk (df_kernel f') = k_disk (df_kernel f)
    ∧ ∀ bytes cap, r = Ok (bytes, cap) → bytes = disk_read (k_disk (df_kernel f)) offset (Z.to_nat len) ∧ len ≤ cap.
Proof.
  intros Ho Hl H0. unfold queue_read. cbn [reserve_channel_capacity]. set (f1 := mkDataFile _ _ _ _ _ _ _ _).
  destruct (default true _); [|exists f1, (Err QueueStopped); by split_and!]. cbn [allocate]. set (f2 := mkDataFile _ _ _ _ _ _ _ _).
  destruct (default _ _) as [al|]; [|exists f2, (Err AllocationFailed); by split_and!].
  assert (Hc : 0 ≤ div_ceil len MAX_IO_REQUEST_BYTES).
  { pose proof (div_ceil_mul len MAX_IO_REQUEST_BYTES ltac:(done)). unfold MAX_IO_REQUEST_BYTES in *. lia. }
  destruct (read_pieces_ok len offset Hl Ho (Z.to_nat (div_ceil len MAX_IO_REQUEST_BYTES)) 0 f2 (stale al) true []) as (f' & buf' & rs & Hrun & Hsf & Hkd & _ & Hall); [lia|].
  change (starts_from 0 _) with (piece_starts len) in Hrun. rewrite Hrun. cbn [mbind outcome_bind].
  eexists f', _. split; [done|]. split_and!; [done|done|]. intros bytes cap Hr. destruct rs as [all|e]; [|done].
  destruct (Hall all eq_refl) as (more & -> & Hmore). cbn in Hr. destruct (await_replies more) as [[]|e] eqn:Haw; [|done]. cbn in Hr.
  injection Hr as <- <-. split; [|lia]. apply disk_read_eq; [apply length_disk_read|]. intros j b Hj. rewrite lookup_disk_read in Hj.
  case_decide; [|done]. injection Hj as <-. rewrite Hmore by (done || lia). done.
Qed.

(** The bytes of a padded write from [start] on. *)
Definition padded_bytes (bytes : list byte) (len : Z) : list byte := bytes ++ zeros (Z.to_nat (len - Z.of_nat (length bytes))).

Lemma length_padded bytes len : Z.of_nat (length bytes) ≤ len → Z.of_nat (length (padded_bytes bytes len)) = len.
Proof. intros. unfold padded_bytes. rewrite length_app, length_zeros. lia. Qed.

(** A piece's bytes and padding are its part of the padded bytes. *)
Lemma piece_data (l : list byte) len start m :
  0 ≤ start → 0 < m → start + m ≤ len → Z.of_nat (length l) ≤ len →
  let end_ := Z.min (start + m) (Z.of_nat (length l)) in
  let part := slice (Z.to_nat (Z.min start end_)) (Z.to_nat end_) l in
  part ++ zeros (Z.to_nat (m - Z.of_nat (length part))) = take (Z.to_nat m) (drop (Z.to_nat start) (padded_bytes l len)).
Proof.
  intros Hs Hm Hle Hl end_ part. unfold padded_bytes.
  destruct (decide (start ≤ Z.of_nat (length l))) as [Hin|Hout].
  - assert (Hend : Z.min start end_ = start) by (unfold end_; lia). unfold part. rewrite Hend. unfold slice.
    rewrite drop_app_le by lia. rewrite take_app. f_equal.
    + apply list_eq. intros i. destruct (decide (i < Z.to_nat end_ - Z.to_nat start)%nat) as [Hi|Hi].
      * rewrite !lookup_take_lt by (unfold end_ in *; lia). done.
      * rewrite lookup_take_ge by lia. symmetry. destruct (decide (i < Z.to_nat m)%nat).
        -- rewrite lookup_take_lt by lia. apply lookup_ge_None_2. rewrite length_drop. unfold end_ in *. lia.
        -- rewrite lookup_take_ge by lia. done.
    + unfold zeros. rewrite take_replicate. f_equal. rewrite length_take, !length_drop. unfold end_. lia.
  - assert (Hp : part = []). { unfold part, slice. rewrite (drop_ge l) by (unfold end_; lia). by rewrite take_nil. }
    rewrite Hp. cbn [app length]. rewrite drop_app_ge by lia. unfold zeros. rewrite drop_replicate, take_replicate. f_equal. lia.
Qed.

Lemma write_pieces_ok len offset bytes :
  aligned len → aligned offset → bytes_len bytes ≤ len → ∀ n i f,
  Z.of_nat (i + n) = div_ceil len MAX_IO_REQUEST_BYTES →
  let s := Z.min len (Z.of_nat i * MAX_IO_REQUEST_BYTES) in
  ∃ f' r, write_pieces f offset len bytes (starts_from i n) = Done (f', r) ∧ same_file f f'
    ∧ agree_outside (offset + s) (len - s) (k_disk (df_kernel f)) (k_disk (df_kernel f'))
    ∧ (r = Ok () → ∀ a, k_disk (df_kernel f') a
         = disk_write (k_disk (df_kernel f)) (offset + s) (drop (Z.to_nat s) (padded_bytes (bytes_data bytes) len)) a).
Proof.
  intros Hal Hoal Hbl. pose proof (length_padded (bytes_data bytes) len Hbl) as Hplen. set (data := padded_bytes (bytes_data bytes) len) in *.
  induction n as [|n IH]; intros i f Hn s.
  { pose proof (div_ceil_mul len MAX_IO_REQUEST_BYTES ltac:(done)) as Hdc. rewrite <-Hn in Hdc. replace (i + 0)%nat with i in Hdc by lia.
    exists f, (Ok ()). split_and!; try done. intros _ a. rewrite drop_ge by (unfold s; lia). symmetry. apply disk_write_out. cbn. lia. }
  destruct (piece_bounds len i n Hal Hn) as (Hsa & Hma & Hm & _ & Hnext). set (start := Z.of_nat i * MAX_IO_REQUEST_BYTES) in *.
  assert (Hs0 : 0 ≤ start) by (unfold start, MAX_IO_REQUEST_BYTES; lia). change (starts_from i (S n)) with (start :: starts_from (S i) n). cbn [write_pieces].
  assert (Hs : s = start) by (unfold s; fold start; lia). rewrite Hs. clear s Hs.
  set (m := Z.min (len - start) MAX_IO_REQUEST_BYTES) in *. set (end_ := Z.min (start + m) (bytes_len bytes)).
  cbn [reserve_channel_capacity]. set (f1 := mkDataFile _ _ _ _ _ _ _ _).
  destruct (default true _); [|exists f1, (Err QueueStopped); by split_and!].
  cbn [allocate]. set (f2 := mkDataFile _ _ _ _ _ _ _ _). set (al := default _ _). set (sl := bytes_slice (Z.min start end_) end_ bytes).
  assert (Hmle : start + m ≤ len) by (unfold m; lia).
  assert (Hpart := piece_data (bytes_data bytes) len start m Hs0 ltac:(lia) Hmle Hbl). fold data in Hpart.
  change (slice _ _ (bytes_data bytes)) with (bytes_data sl) in Hpart. cbv zeta in Hpart.
  assert (Hsl : bytes_len sl ≤ m).
  { apply (f_equal length) in Hpart. rewrite length_app, length_zeros, length_take in Hpart. unfold bytes_len. lia. }
  destruct (from_write_bytes m sl (buffer_ptr <$> al)) as [b|] eqn:Hb.
  2:{ unfold from_write_bytes in Hb. rewrite (proj2 (Z.leb_le (bytes_len sl) m) Hsl), (aligned_b m Hma) in Hb. cbn [andb assert_that mbind outcome_bind] in Hb.
      destruct (m - _ =? 0) in Hb; [done|]. by destruct (buffer_ptr <$> al). }
  cbn [mbind outcome_bind]. destruct b as [b|e]; [|exists f2, (Err e); by split_and!].
  destruct (from_write_bytes_spec _ _ _ _ Hb) as (p & t & iov & -> & Hcat & Hpt & _). unfold bytes_len in Hcat at 1. rewrite Hpart in Hcat.
  change idle_write_queue with (new_IoQueue 8 (Some (mkWriteRateLimit 0))).
  destruct (submit_write 7 (Some (mkWriteRateLimit 0)) (df_kernel f2) (λ _, Byte.x00) (offset + start) p t iov m) as (k' & res & Hrun & Hkl & Hag & Hdone);
    [unfold aligned in *; by rewrite Zplus_mod, Hoal, Hsa|done|lia|lia|].
  rewrite Hrun. cbn [mbind outcome_bind]. change (df_kernel f2) with (df_kernel f) in *.
  assert (Hsf : same_file f (with_kernel k' f2)) by (split_and!; done).
  destruct res as [x|e].
  2:{ exists (with_kernel k' f2), (Err e). split_and!; try done. cbn. eapply agree_outside_mono; [| |exact Hag]; lia. }
  destruct (IH (S i) (with_kernel k' f2) ltac:(lia)) as (f' & r & Hrun' & Hsf' & Hag' & Hdone').
  set (s' := Z.min len (Z.of_nat (S i) * MAX_IO_REQUEST_BYTES)) in *. cbn [df_kernel with_kernel] in Hag', Hdone'.
  assert (Hs' : s' = start + m) by (unfold s', start, m, MAX_IO_REQUEST_BYTES in *; lia). rewrite Hs' in *.
  exists f', r. split_and!; [done|by eapply same_file_trans| |].
  - eapply agree_outside_trans; [eapply agree_outside_mono; [| |exact Hag]; lia|]. eapply agree_outside_mono; [| |exact Hag']; lia.
  - intros Hr a. rewrite (Hdone' Hr). rewrite (disk_write_ext _ _ _ _ _ (Hdone eq_refl)). rewrite Hcat.
    assert (Hml : Z.of_nat (length (take (Z.to_nat m) (drop (Z.to_nat start) data))) = m) by (rewrite length_take, length_drop; lia).
    replace (offset + (start + m)) with (offset + start + m) by lia. rewrite <-Hml at 2. rewrite disk_write_app. f_equal.
    replace (Z.to_nat (start + m)) with (Z.to_nat start + Z.to_nat m)%nat by lia. rewrite <-drop_drop, take_drop. done.
Qed.

(** ** The storage interface *)
Lemma read_slice_ok f offset n :
  0 ≤ offset →
  ∃ f' r, read_slice f offset n = Done (f', r) ∧ same_file f f' ∧ k_disk (df_kernel f') = k_disk (df_kernel f)
    ∧ ∀ bytes cap, r = Ok (bytes, cap) → bytes = disk_read (k_disk (df_kernel f)) offset n ∧ Z.of_nat n ≤ cap.
Proof.
  intros H0. unfold read_slice. set (pad := offset mod DIRECT_IO_ALIGNMENT_BYTES).
  assert (Hpad : 0 ≤ pad < 4096) by (apply Z.mod_pos_bound; done).
  destruct (payload_disk_bytes_spec (pad + Z.of_nat n) ltac:(lia)) as (Hal & Hle & _).
  assert (Hoff : aligned (offset - pad)).
  { unfold aligned, pad. rewrite Zminus_mod, Zmod_mod, Z.sub_diag. done. }
  destruct (queue_read_ok f (offset - pad) (payload_disk_bytes (pad + Z.of_nat n)) Hoff Hal ltac:(lia)) as (f' & r & Hrun & Hsf & Hkd & Hok).
  rewrite Hrun. cbn [mbind outcome_bind]. eexists f', _. split; [done|]. split_and!; [done|done|].
  intros bytes cap Hr. destruct r as [[bs c]|e]; [|done]. cbn in Hr. injection Hr as <- <-. destruct (Hok _ _ eq_refl) as [-> Hc]. split; [|lia].
  unfold slice. replace (Z.to_nat pad + n - Z.to_nat pad)%nat with n by lia.
  apply list_eq. intros i. destruct (decide (i < n)%nat) as [Hi|Hi].
  - rewrite lookup_take_lt, lookup_drop, !lookup_disk_read, !decide_True by lia. do 2 f_equal. lia.
  - rewrite lookup_take_ge by lia. symmetry. rewrite lookup_disk_read, decide_False by lia. done.
Qed.

Lemma check_range_ok operation offset len cap :
  (check_range_fits_file operation offset len cap = Ok () ∧ offset + len ≤ cap)
  ∨ check_range_fits_file operation offset len cap = Err (RangeExceedsCapacity operation offset len cap).
Proof.
  unfold check_range_fits_file, checked_add. destruct (offset + len <? 2 ^ 64); [|by right].
  destruct (Z.ltb_spec cap (offset + len)); [by right|left]. split; [done|lia].
Qed.

Lemma check_range_rejects operation offset len cap :
  cap < offset + len → check_range_fits_file operation offset len cap = Err (RangeExceedsCapacity operation offset len cap).
Proof. intros Hlt. destruct (check_range_ok operation offset len cap) as [[_ ?]|?]; [lia|done]. Qed.

Lemma data_file_read f offset n :
  0 ≤ offset →
  ∃ f' r, file_read_at f offset n = Done (f', r) ∧ df_capacity f' = df_capacity f ∧ k_disk (df_kernel f') = k_disk (df_kernel f)
    ∧ (∀ bytes, r = Ok bytes → offset + Z.of_nat n ≤ df_capacity f ∧ bytes = disk_read (k_disk (df_kernel f)) offset n)
    ∧ (df_capacity f < offset + Z.of_nat n → ∃ e, r = Err e ∧ kind e = KindRangeExceedsCapacity).
Proof.
  intros H0. unfold file_read_at. destruct (check_range_ok Read offset (Z.of_nat n) (df_capacity f)) as [[Hchk Hle]|Hchk]; rewrite Hchk.
  2:{ unfold measure_io. cbn. eexists _, _. split; [done|]. split_and!; try done. eauto. }
  destruct (Nat.eqb_spec n 0) as [->|Hn].
  { unfold measure_io. cbn. eexists _, _. split; [done|]. split_and!; try done; [|lia]. by intros bytes [= <-]. }
  destruct (read_slice_ok f offset n H0) as (f' & r & Hrun & (Hcap & _) & Hkd & Hok). unfold measure_io. rewrite Hrun. cbn [mbind outcome_bind].
  eexists _, _. split; [done|]. split_and!; try done; [|lia]. intros bytes Hr. destruct r as [[bs c]|e]; [|done]. injection Hr as <-.
  split; [done|]. by apply (Hok _ c).
Qed.

Lemma data_file_write f offset len bytes :
  0 ≤ offset → aligned offset → aligned len → bytes_len bytes ≤ len →
  ∃ f' r, file_write_padded f offset len bytes = Done (f', r) ∧ df_capacity f' = df_capacity f
    ∧ agree_outside offset len (k_disk (df_kernel f)) (k_disk (df_kernel f'))
    ∧ (r = Ok () → offset + len ≤ df_capacity f
        ∧ ∀ a, k_disk (df_kernel f') a = disk_write (k_disk (df_kernel f)) offset (padded_bytes (bytes_data bytes) len) a)
    ∧ (df_capacity f < offset + len → k_disk (df_kernel f') = k_disk (df_kernel f) ∧ ∃ e, r = Err e ∧ kind e = KindRangeExceedsCapacity).
Proof.
  intros H0 Ho Hl Hb. unfold file_write_padded. destruct (check_range_ok Write offset len (df_capacity f)) as [[Hchk Hle]|Hchk]; rewrite Hchk.
  2:{ unfold measure_io. cbn. eexists _, _. split; [done|]. split_and!; try done. eauto. }
  assert (Hlen0 : 0 ≤ len) by (unfold bytes_len in Hb; lia).
  assert (Hc : 0 ≤ div_ceil len MAX_IO_REQUEST_BYTES).
  { pose proof (div_ceil_mul len MAX_IO_REQUEST_BYTES ltac:(done)). unfold MAX_IO_REQUEST_BYTES in *. lia. }
  destruct (write_pieces_ok len offset bytes Hl Ho Hb (Z.to_nat (div_ceil len MAX_IO_REQUEST_BYTES)) 0 f ltac:(lia)) as (f' & r & Hrun & (Hcap & _) & Hag & Hdone).
  rewrite Z.min_r, Z.add_0_r, ?Z.sub_0_r in * by (change (Z.of_nat 0 * MAX_IO_REQUEST_BYTES) with 0; lia).
  change (starts_from 0 _) with (piece_starts len) in Hrun.
  unfold measure_io, queue_write_padded. rewrite Hrun. cbn [mbind outcome_bind]. eexists _, _. split; [done|]. split_and!; try done; [|lia].
  intros Hr. split; [done|]. intros a. destruct r as [[]|e]; [|done]. cbn [df_kernel]. by rewrite Hdone.
Qed.

Global Instance data_file_ok : StorageFileOk DataFile.
Proof.
  split.
  - intros f offset n. exact (data_file_read f offset n).
  - intros f offset len bytes H0 Ho Hl Hb. exact (data_file_write f offset len (mkBytes (df_input_ptr f) bytes) H0 Ho Hl Hb).
  - done.
Qed.

(** ** Operations that nothing disturbs *)

(** Nothing is scripted: the kernel moves what it is asked for, the allocator has
    memory, the queues run and [fsync] succeeds; the file has its capacity. *)
Record calm (f : DataFile) : Prop := mkCalm {
  ca_script : k_script (df_kernel f) = [];
  ca_channel : df_channel f = [];
  ca_allocations : df_allocations f = [];
  ca_syncs : df_syncs f = [];
  ca_length : k_length (df_kernel f) = df_capacity f;
  ca_capacity : aligned (df_capacity f) ∧ df_capacity f < 2 ^ 64
}.

Lemma completed_in_full r : request_ok r → ∃ r', apply_completion_result (prepared r 0) (range_len (remaining_buffer_range r)) = Ok r' ∧ range_len (remaining_buffer_range r') = 0.
Proof.
  intros Hok. destruct (prepared_fields r 0) as (_ & Hrg & _). pose proof (ro_len _ Hok) as [[Hpos _] Hal]. unfold apply_completion_result.
  rewrite (proj2 (Z.eqb_neq _ _)) by (unfold EINTR; lia). rewrite (proj2 (Z.ltb_ge _ 0)), (proj2 (Z.eqb_neq _ 0)), (aligned_b _ Hal) by lia. cbn [orb negb].
  eexists. split; [done|]. rewrite Hrg. unfold range_len. cbn. lia.
Qed.

Lemma drive_quiet fuel n limit k buf r :
  request_ok r → k_script k = [] → match buffers r with ReadBuffers _ _ => request_offset r + range_len (remaining_buffer_range r) ≤ k_length k | WriteBuffers _ _ _ => True end →
  ∃ k' buf' x, drive (S fuel) k buf (busy n limit r) = Done (k', buf', Ok x) ∧ k_script k' = [].
Proof.
  intros Hok Hs Hin. rewrite drive_step by apply (ro_reply _ Hok). destruct (entry_spec r 0 Hok) as (Hoff & Hlen & _ & _ & Htr). pose proof (ro_len _ Hok) as [[Hpos _] _].
  destruct (completed_in_full r Hok) as (r' & Happ & Hr'). unfold kernel_transfer. rewrite Hs. cbn [head default from_option ka_result]. rewrite Hlen, Hoff. rewrite (proj2 (Z.ltb_ge _ 0)) by lia.
  destruct (buffers r) as [b bl|p t iov] eqn:Hb.
  - rewrite Htr. replace (Z.min _ _) with (range_len (remaining_buffer_range r)) by lia. rewrite Happ, Hr'. cbn [Z.ltb Z.compare]. by eexists _, _, _.
  - destruct Htr as (parts & Htr & _ & _ & Hcat). rewrite Htr, Hcat.
    assert (Hdl : Z.of_nat (length (drop (Z.to_nat (range_start (remaining_buffer_range r))) (bytes_data p ++ bytes_data t))) = range_len (remaining_buffer_range r)).
    { pose proof (ro_buffers _ Hok) as Hbl. rewrite Hb in Hbl. pose proof (ro_start _ Hok). unfold range_len, bytes_len in *. rewrite length_drop, length_app. lia. }
    rewrite Hdl, Z.min_id, Happ, Hr'. cbn [Z.ltb Z.compare]. by eexists _, _, _.
Qed.

Lemma submit_quiet n limit k buf offset b rg :
  aligned offset → 0 ≤ range_start rg → aligned (range_start rg) → aligned (range_len rg) → 0 < range_len rg ≤ MAX_IO_REQUEST_BYTES → k_script k = [] →
  match b with ReadBuffers _ bl => range_end rg ≤ bl ∧ offset + range_len rg ≤ k_length k | WriteBuffers p t _ => range_end rg = bytes_len p + bytes_len t end →
  ∃ k' buf' x, submit_request (new_IoQueue (S n) limit) k buf offset b rg = Done (k', buf', Ok x) ∧ k_script k' = [].
Proof.
  intros Ho H0 Hsa Hl Hlen Hs Hb. unfold submit_request. rewrite new_request_done by (done || by destruct b as [??|???]; [destruct Hb|]). cbn [mbind outcome_bind].
  set (r := mkIoRequest _ _ _ _ _). assert (Hok : request_ok r).
  { split; cbn; try done; [|by destruct b as [??|???]; [destruct Hb|]]. unfold aligned in *. by rewrite Zplus_mod, Ho, Hl. }
  rewrite busy_start by (by eexists). cbn [mbind outcome_bind]. rewrite Hs. apply (drive_quiet 2 n); [done|done|].
  cbn. destruct b as [??|???]; [|done]. destruct Hb. unfold request_offset. cbn. lia.
Qed.

Lemma calm_kernel f k : calm f → k_script k = [] → k_length k = k_length (df_kernel f) → calm (with_kernel k f).
Proof. intros [] Hs Hl. constructor; cbn; congruence. Qed.

Lemma calm_reserve f : calm f → ∃ f1, reserve_channel_capacity f = (f1, Ok ()) ∧ calm f1 ∧ df_kernel f1 = df_kernel f ∧ df_capacity f1 = df_capacity f.
Proof. intros [Hk Hc Ha Hs Hl Hcap]. unfold reserve_channel_capacity. rewrite Hc. eexists. split; [done|]. by split; [constructor|]. Qed.

Lemma calm_allocate f : calm f → ∃ f1 a, allocate f = (f1, Some a) ∧ calm f1 ∧ df_kernel f1 = df_kernel f ∧ df_capacity f1 = df_capacity f.
Proof. intros [Hk Hc Ha Hs Hl Hcap]. unfold allocate. rewrite Ha. eexists _, _. split; [done|]. by split; [constructor|]. Qed.

Lemma read_pieces_quiet len offset : aligned len → aligned offset → ∀ n i f buf reserved replies,
  Z.of_nat (i + n) = div_ceil len MAX_IO_REQUEST_BYTES → calm f → offset + len ≤ df_capacity f →
  ∃ f' buf' more, read_pieces f buf offset len reserved (starts_from i n) replies = Done (f', buf', Ok (replies ++ more)) ∧ await_replies more = Ok () ∧ calm f'.
Proof.
  intros Hal Hoal. induction n as [|n IH]; intros i f buf reserved replies Hn Hc Hin; [exists f, buf, []; by rewrite app_nil_r|].
  destruct (piece_bounds len i n Hal Hn) as (Hsa & Hma & Hm & Hmin & Hnext). set (start := Z.of_nat i * MAX_IO_REQUEST_BYTES) in *. set (m := Z.min (len - start) MAX_IO_REQUEST_BYTES) in *.
  change (starts_from i (S n)) with (start :: starts_from (S i) n). cbn [read_pieces]. rewrite Hmin.
  assert (Hfp : ∃ f1, (if reserved then (f, Ok ()) else reserve_channel_capacity f) = (f1, Ok ()) ∧ calm f1 ∧ df_kernel f1 = df_kernel f ∧ df_capacity f1 = df_capacity f).
  { destruct reserved; [by exists f|by apply calm_reserve]. }
  destruct Hfp as (f1 & -> & Hc1 & Hk1 & Hcap1). assert (Hrl : range_len (mkRange start (start + m)) = m) by (unfold range_len; cbn; lia).
  destruct (submit_quiet 63 None (df_kernel f1) buf (offset + start) (ReadBuffers 0 len) (mkRange start (start + m))) as (k' & buf1 & x & Hrun & Hs').
  { unfold aligned in *. by rewrite Zplus_mod, Hoal, Hsa. } { cbn. unfold start, MAX_IO_REQUEST_BYTES. lia. } { done. } { by rewrite Hrl. } { by rewrite Hrl. } { apply Hc1. }
  { rewrite Hrl. cbn. rewrite (ca_length _ Hc1). split; unfold m; lia. }
  destruct (submit_read 63 None (df_kernel f1) buf (offset + start) 0 len (mkRange start (start + m))) as (k2 & buf2 & res2 & Hrun2 & Hkl & _).
  { unfold aligned in *. by rewrite Zplus_mod, Hoal, Hsa. } { cbn. unfold start, MAX_IO_REQUEST_BYTES. lia. } { done. } { by rewrite Hrl. } { by rewrite Hrl. } { cbn. lia. }
  rewrite Hrun in Hrun2. injection Hrun2 as <- <- <-. change idle_read_queue with (new_IoQueue 64 None). rewrite Hrun. cbn [mbind outcome_bind].
  destruct (IH (S i) (with_kernel k' f1) buf1 false (replies ++ [Ok x]) ltac:(lia)) as (f' & buf' & more & Hrun' & Haw & Hc'); [by apply calm_kernel|cbn; lia|].
  exists f', buf', (Ok x :: more). rewrite <-app_assoc in Hrun'. by split_and!.
Qed.

Lemma queue_read_quiet f offset len :
  aligned offset → aligned len → 0 ≤ len → calm f → offset + len ≤ df_capacity f →
  ∃ f' x, queue_read f offset len = Done (f', Ok x) ∧ calm f'.
Proof.
  intros Ho Hl H0 Hc Hin. unfold queue_read. destruct (calm_reserve f Hc) as (f1 & -> & Hc1 & _ & Hcap1). destruct (calm_allocate f1 Hc1) as (f2 & a & -> & Hc2 & _ & Hcap2).
  assert (Hdc : 0 ≤ div_ceil len MAX_IO_REQUEST_BYTES).
  { pose proof (div_ceil_mul len MAX_IO_REQUEST_BYTES ltac:(done)). unfold MAX_IO_REQUEST_BYTES in *. lia. }
  destruct (read_pieces_quiet len offset Hl Ho (Z.to_nat (div_ceil len MAX_IO_REQUEST_BYTES)) 0 f2 (stale a) true []) as (f' & buf' & more & Hrun & Haw & Hc'); [lia|done|congruence|].
  change (starts_from 0 _) with (piece_starts len) in Hrun. rewrite Hrun. cbn. rewrite Haw. by eexists _, _.
Qed.

Lemma read_slice_quiet f offset n :
  0 ≤ offset → calm f → offset + Z.max 1 (Z.of_nat n) ≤ df_capacity f → ∃ f' x, read_slice f offset n = Done (f', Ok x) ∧ calm f'.
Proof.
  intros H0 Hc Hin. unfold read_slice. set (pad := offset mod DIRECT_IO_ALIGNMENT_BYTES). assert (Hpad : 0 ≤ pad < 4096) by (apply Z.mod_pos_bound; done).
  destruct (payload_disk_bytes_spec (pad + Z.of_nat n) ltac:(lia)) as (Hal & Hpos & _). assert (Hoff : aligned (offset - pad)) by (unfold aligned, pad; rewrite Zminus_mod, Zmod_mod, Z.sub_diag; done).
  destruct (queue_read_quiet f (offset - pad) (payload_disk_bytes (pad + Z.of_nat n)) Hoff Hal) as (f' & [bs c] & Hrun & Hc'); [lia|done| |].
  - destruct (ca_capacity _ Hc) as [Hcap _]. unfold aligned, DIRECT_IO_ALIGNMENT_BYTES, BUFFER_ALIGNMENT in *. unfold payload_disk_bytes, DIRECT_IO_ALIGNMENT_BYTES, BUFFER_ALIGNMENT in *.
    pose proof (next_multiple_of_bounds (Z.max (pad + Z.of_nat n) 1) 4096 ltac:(done)).
    pose proof (Z.div_mod (df_capacity f) 4096 ltac:(done)). pose proof (Z.div_mod (next_multiple_of (Z.max (pad + Z.of_nat n) 1) 4096) 4096 ltac:(done)).
    pose proof (Z.div_mod (offset - pad) 4096 ltac:(done)). lia.
  - rewrite Hrun. cbn. by eexists _, _.
Qed.

Lemma write_pieces_quiet len offset bytes :
  aligned len → aligned offset → bytes_len bytes ≤ len → ∀ n i f,
  Z.of_nat (i + n) = div_ceil len MAX_IO_REQUEST_BYTES → calm f → ∃ f', write_pieces f offset len bytes (starts_from i n) = Done (f', Ok ()) ∧ calm f'.
Proof.
  intros Hal Hoal Hbl. induction n as [|n IH]; intros i f Hn Hc; [by exists f|].
  destruct (piece_bounds len i n Hal Hn) as (Hsa & Hma & Hm & _ & Hnext). set (start := Z.of_nat i * MAX_IO_REQUEST_BYTES) in *.
  assert (Hs0 : 0 ≤ start) by (unfold start, MAX_IO_REQUEST_BYTES; lia). change (starts_from i (S n)) with (start :: starts_from (S i) n). cbn [write_pieces].
  set (m := Z.min (len - start) MAX_IO_REQUEST_BYTES) in *. set (end_ := Z.min (start + m) (bytes_len bytes)).
  destruct (calm_reserve f Hc) as (f1 & -> & Hc1 & _). destruct (calm_allocate f1 Hc1) as (f2 & a & -> & Hc2 & _). set (sl := bytes_slice (Z.min start end_) end_ bytes).
  assert (Hsl : bytes_len sl ≤ m).
  { assert (Hpart := piece_data (bytes_data bytes) len start m Hs0 ltac:(lia) ltac:(unfold m; lia) Hbl). change (slice _ _ (bytes_data bytes)) with (bytes_data sl) in Hpart. cbv zeta in Hpart.
    apply (f_equal length) in Hpart. rewrite length_app, length_zeros, length_take in Hpart. unfold bytes_len. lia. }
  destruct (from_write_bytes m sl (buffer_ptr <$> Some a)) as [[b|e]|] eqn:Hb.
  2,3: unfold from_write_bytes in Hb; rewrite (proj2 (Z.leb_le (bytes_len sl) m) Hsl), (aligned_b m Hma) in Hb; cbn [andb assert_that mbind outcome_bind] in Hb; by destruct (m - _ =? 0) in Hb.
  destruct (from_write_bytes_spec _ _ _ _ Hb) as (p & t & iov & -> & _ & Hpt & _). cbn [mbind outcome_bind].
  assert (Hoff : aligned (offset + start)) by (unfold aligned in *; by rewrite Zplus_mod, Hoal, Hsa). assert (Hrl : range_len (mkRange 0 m) = m) by (unfold range_len; cbn; lia).
  destruct (submit_quiet 7 (Some (mkWriteRateLimit 0)) (df_kernel f2) (λ _, Byte.x00) (offset + start) (WriteBuffers p t iov) (mkRange 0 m)) as (k' & buf' & x & Hrun & Hs');
    [done|done|done|by rewrite Hrl|by rewrite Hrl|apply Hc2|cbn; lia|].
  destruct (submit_write 7 (Some (mkWriteRateLimit 0)) (df_kernel f2) (λ _, Byte.x00) (offset + start) p t iov m Hoff Hma ltac:(lia) ltac:(lia)) as (k2 & res2 & Hrun2 & Hkl & _).
  rewrite Hrun in Hrun2. injection Hrun2 as <- _ _. change idle_write_queue with (new_IoQueue 8 (Some (mkWriteRateLimit 0))). rewrite Hrun. cbn [mbind outcome_bind].
  apply (IH (S i) (with_kernel k' f2)); [lia|]. by apply calm_kernel.
Qed.

(** So every operation inside the capacity succeeds. *)
Lemma check_range_passes operation offset len cap : offset + len ≤ cap → cap < 2 ^ 64 → check_range_fits_file operation offset len cap = Ok ().
Proof.
  intros Hle Hcap. unfold check_range_fits_file, checked_add. rewrite (proj2 (Z.ltb_lt (offset + len) (2 ^ 64))) by lia. by rewrite (proj2 (Z.ltb_ge _ _)).
Qed.

Lemma calm_metrics f m : calm f → calm (mkDataFile (df_capacity f) (data_path f) (df_kernel f) m (df_channel f) (df_allocations f) (df_syncs f) (df_input_ptr f)).
Proof. by intros []. Qed.

Lemma calm_read f offset n : calm f → 0 ≤ offset → offset + Z.of_nat n ≤ df_capacity f → ∃ f' bytes, file_read_at f offset n = Done (f', Ok bytes) ∧ calm f'.
Proof.
  intros Hc H0 Hin. unfold file_read_at, measure_io. rewrite check_range_passes by (done || apply Hc). destruct (Nat.eqb_spec n 0) as [->|Hn].
  - cbn [mbind outcome_bind]. eexists _, _. split; [done|by apply calm_metrics].
  - destruct (read_slice_quiet f offset n H0 Hc ltac:(lia)) as (f' & x & -> & Hc'). cbn [mbind outcome_bind]. eexists _, _. split; [done|by apply calm_metrics].
Qed.

Lemma calm_write f offset len bytes :
  calm f → aligned offset → aligned len → bytes_len bytes ≤ len → offset + len ≤ df_capacity f → ∃ f', file_write_padded f offset len bytes = Done (f', Ok ()) ∧ calm f'.
Proof.
  intros Hc Ho Hl Hb Hin. unfold file_write_padded, measure_io. rewrite check_range_passes by (done || apply Hc).
  assert (Hdc : 0 ≤ div_ceil len MAX_IO_REQUEST_BYTES).
  { pose proof (div_ceil_mul len MAX_IO_REQUEST_BYTES ltac:(done)). unfold bytes_len, MAX_IO_REQUEST_BYTES in *. lia. }
  destruct (write_pieces_quiet len offset bytes Hl Ho Hb (Z.to_nat (div_ceil len MAX_IO_REQUEST_BYTES)) 0 f ltac:(lia) Hc) as (f' & Hrun & Hc').
  unfold queue_write_padded. change (starts_from 0 _) with (piece_starts len) in Hrun. rewrite Hrun. cbn [mbind outcome_bind]. eexists. split; [done|by apply calm_metrics].
Qed.

Lemma calm_sync f : calm f → (file_sync_all f).2 = Ok () ∧ calm (file_sync_all f).1.
Proof. intros [Hk Hc Ha Hs Hl Hcap]. unfold file_sync_all. rewrite Hs. by split; [|constructor]. Qed.


(** A file whose kernel interrupts, transfers little and fails. *)
Definition sample_data_file : DataFile :=
  mkDataFile (9 * 1048576) "data" (mkKernel (λ _, Byte.x00) (9 * 1048576) [mkKernelAnswer (-4) [Byte.x01]; mkKernelAnswer 4096 []; mkKernelAnswer (-5) [Byte.x02]])
    (mkIoMetrics (mkIoOperationMetrics 0 0 0) (mkIoOperationMetrics 0 0 0)) [] [] [] 17.


(** C37: a request is always answered.  Serving it takes at most one completion per
    answer the kernel has in store for it, plus three: interrupted requests are
    resubmitted, short ones make progress, and the end of the file is an error. *)
Theorem request_answered n limit k buf r :
  request_ok r → completes (drive (length (k_script k) + 3) k buf (busy n limit r)).
Proof.
  intros Hok. destruct (buffers r) as [b bl|p t iov] eqn:Hb.
  - destruct (drive_read n limit (length (k_script k) + 3) k buf r b bl Hok Hb ltac:(case_decide; lia)) as (k' & buf' & res & -> & _). by eexists.
  - destruct (drive_write n limit (length (k_script k) + 3) k buf r p t iov Hok Hb ltac:(lia)) as (k' & res & -> & _). by eexists.
Qed.

Lemma request_answered_witness :
  completes (drive (length (k_script (df_kernel sample_data_file)) + 3) (df_kernel sample_data_file) (λ _, Byte.x00) (busy 3 None sample_request)).
Proof.
  apply request_answered. by split; cbn.
Defined.
