(* ===== verification/FileOpen.v ===== *)
(** * Opening and locking the data file ([DataFile::open_with_io_queues] and
    [open_file_state] of [feuer-storage/src/file.rs])

    A data file is opened under an exclusive lock on a file beside it; it is resized
    only once everything else has succeeded, and a first direct read must get
    through.  The file system is a map from files to their contents and the set of
    locked files; any call to the operating system may fail, as an explicit list of
    answers says.  How the system resolves a path is a parameter; files are directory
    entries, so that links, by which two names mean one file, are left out. *)

From stdpp Require Import strings.
From S2P Require Import Prelude Codec Errors Paths Disk Allocation Admission Uring File.

(** ** The file system *)

(** A file is an entry of a directory. *)
Definition FileId : Type := string * string.
Inductive NodeKind := RegularFile | DirectoryNode | OtherNode.
Global Instance NodeKind_eq_dec : EqDecision NodeKind.
Proof. solve_decision. Defined.
Record FileNode := mkFileNode { node_kind : NodeKind; node_len : Z; node_bytes : disk }.

(** [os_errors] are the answers to come: [Some errno] fails the call. *)
Record FileSystem := mkFileSystem { nodes : gmap FileId FileNode; locked : gset FileId; os_errors : list (option Z) }.
Definition with_nodes (n : gmap FileId FileNode) (fs : FileSystem) : FileSystem := mkFileSystem n (locked fs) (os_errors fs).
Definition with_locked (l : gset FileId) (fs : FileSystem) : FileSystem := mkFileSystem (nodes fs) l (os_errors fs).

(** The file a path names, and the alignment [statx] reports for direct I/O. *)
Class PathResolver := mkPathResolver { file_id : string → FileId; directory_id : string → string; direct_io : FileId → option (Z * Z) }.
(** Joining a plain name to a directory names an entry of that directory. *)
Class PathResolverOk `{PathResolver} : Prop := file_id_join : ∀ d n, plain_name n → file_id (path_join d n) = (directory_id d, n).

(** Computations on the file system that may fail. *)
Definition FsM (A : Type) : Type := FileSystem → FileSystem * DataFileResult A.
Global Instance FsM_ret : MRet FsM := λ A a fs, (fs, Ok a).
Global Instance FsM_bind : MBind FsM := λ A B f m fs,
  match m fs with (fs, Ok a) => f a fs | (fs, Err e) => (fs, Err e) end.
Definition fs_fail {A} (e : DataFileError) : FsM A := λ fs, (fs, Err e).

(** A call to the operating system. *)
Definition os_call {A} (operation : IoOperation) (path : string) (call : FileSystem → FileSystem * result io_error A) : FsM A := λ fs,
  let rest := mkFileSystem (nodes fs) (locked fs) (tail (os_errors fs)) in
  match head (os_errors fs) with
  | Some (Some errno) => (rest, Err (Io operation path (OsError errno)))
  | _ => let '(fs, r) := call rest in (fs, map_err (Io operation path) r)
  end.

Definition EISDIR : Z := 21.
Definition empty_file : FileNode := mkFileNode RegularFile 0 (λ _, Byte.x00).

Section file_open.
Context `{PathResolver}.

(** [OpenOptions::new().create(true).read(true).write(true).truncate(false).open(path)] *)
Definition open_or_create (path : string) (fs : FileSystem) : FileSystem * result io_error FileId :=
  let id := file_id path in
  match nodes fs !! id with
  | None => (with_nodes (<[id := empty_file]> (nodes fs)) fs, Ok id)
  | Some n => if decide (node_kind n = DirectoryNode) then (fs, Err (OsError EISDIR)) else (fs, Ok id)
  end.

(** [LockFileExt::try_lock_exclusive] *)
Definition try_lock_exclusive (id : FileId) (fs : FileSystem) : FileSystem * result io_error bool :=
  if decide (id ∈ locked fs) then (fs, Ok false) else (with_locked ({[id]} ∪ locked fs) fs, Ok true).
(** Closing the last handle of a lock file. *)
Definition unlock (id : FileId) (fs : FileSystem) : FileSystem := with_locked (locked fs ∖ {[id]}) fs.

(** [File::metadata().is_file()] *)
Definition is_file (id : FileId) (fs : FileSystem) : FileSystem * result io_error bool :=
  (fs, Ok match nodes fs !! id with Some n => bool_decide (node_kind n = RegularFile) | None => false end).

(** [check_direct_io_alignment], once [statx] has succeeded. *)
Definition check_direct_io_alignment (id : FileId) (fs : FileSystem) : FileSystem * result io_error () :=
  (fs, match direct_io id with
       | None => Err UnsupportedAlignment
       | Some (mem_align, offset_align) =>
           if negb (is_multiple_of DIRECT_IO_ALIGNMENT_BYTES mem_align) || negb (is_multiple_of DIRECT_IO_ALIGNMENT_BYTES offset_align)
           then Err UnsupportedAlignment else Ok ()
       end).

(** [File::set_len]: bytes beyond the old or the new length are zero. *)
Definition resize_node (len : Z) (n : FileNode) : FileNode :=
  mkFileNode (node_kind n) len (λ a, if decide (a < Z.min len (node_len n)) then node_bytes n a else Byte.x00).
Definition set_len (id : FileId) (len : Z) (fs : FileSystem) : FileSystem * result io_error () :=
  (with_nodes (alter (resize_node len) id (nodes fs)) fs, Ok ()).

(** ** [open_file_state] *)
Definition DATA_FILE_NAME : string := "data".
Definition LOCK_FILE_NAME : string := ".feuer.lock".
Definition lock_file_name (name : string) : string :=
  if String.eqb name DATA_FILE_NAME then LOCK_FILE_NAME else (".feuer." ++ name ++ ".lock")%string.

(** An opener that holds its lock, and the [DataFileState] it becomes. *)
Record Claim := mkClaim { claim_directory : string; claim_name : string; claim_capacity : Z; claim_lock : FileId }.
Definition claim_path (c : Claim) : string := path_join (claim_directory c) (claim_name c).
Definition claim_data (c : Claim) : FileId := file_id (claim_path c).

(** From the capacity check to the lock. *)
Definition acquire_lock (directory name : string) (capacity : Z) : FsM Claim :=
  if (capacity =? 0) || (i64_max <? capacity) || negb (is_multiple_of capacity DIRECT_IO_ALIGNMENT_BYTES) then fs_fail InvalidCapacity
  else
    _ ← os_call CreateDirectory directory (λ fs, (fs, Ok ()));
    let data_path := path_join directory name in
    let lock_path := path_join directory (lock_file_name name) in
    lock ← os_call OpenLockFile lock_path (open_or_create lock_path);
    got ← os_call LockFile lock_path (try_lock_exclusive lock);
    if got : bool then mret (mkClaim directory name capacity lock) else fs_fail (AlreadyOpen data_path).

(** From the lock to the resized file; [shared_queues] are I/O queues the caller
    brings, otherwise both rings are set up before the file is resized. *)
Definition open_locked (c : Claim) (shared_queues : bool) : FsM () :=
  let data_path := claim_path c in
  id ← os_call OpenDataFile data_path (open_or_create data_path);
  regular ← os_call InspectDataFile data_path (is_file id);
  if negb (regular : bool) then fs_fail (InvalidDataFile data_path)
  else
    _ ← os_call InspectDataFile data_path (check_direct_io_alignment id);
    _ ← (if shared_queues then mret () else os_call OpenDataFile data_path (λ fs, (fs, Ok ())));
    os_call ResizeDataFile data_path (set_len id (claim_capacity c)).

(** The whole function: an error drops the lock file's handle. *)
Definition locked_by (c : Claim) (m : FsM ()) : FsM Claim := λ fs,
  match m fs with
  | (fs, Ok _) => (fs, Ok c)
  | (fs, Err e) => (unlock (claim_lock c) fs, Err e)
  end.
Definition open_file_state (directory name : string) (capacity : Z) (shared_queues : bool) : FsM Claim :=
  c ← acquire_lock directory name capacity;
  locked_by c (open_locked c shared_queues).

(** ** [DataFile::open_with_io_queues] *)

(** What the runtime, the allocator, the channel and the kernel will answer. *)
Record FileAnswers := mkFileAnswers {
  in_runtime : bool;
  join_error : option string;
  (** the queue thread fails while the first read is with the kernel *)
  queue_fails : bool;
  kernel_script : list KernelAnswer;
  channel_answers : list bool;
  buffer_answers : list (option BufferAllocation);
  sync_answers : list (DataFileResult ());
  input_ptr : Z
}.

(** The file as the I/O queues see it. *)
Definition new_data_file (c : Claim) (bytes : disk) (a : FileAnswers) : DataFile :=
  mkDataFile (claim_capacity c) (claim_path c) (mkKernel bytes (claim_capacity c) (kernel_script a))
    (mkIoMetrics (mkIoOperationMetrics 0 0 0) (mkIoOperationMetrics 0 0 0)) (channel_answers a) (buffer_answers a) (sync_answers a) (input_ptr a).

(** A failing queue leaks the read with the file and its lock, until the process
    ends; any other failed read lets go of them. *)
Definition open_with_io_queues (directory name : string) (capacity : Z) (shared_queues : bool) (a : FileAnswers) (fs : FileSystem)
  : outcome (FileSystem * DataFileResult DataFile) :=
  if negb (in_runtime a) then Done (fs, Err RuntimeUnavailable)
  else
    match join_error a with
    | Some source => Done (fs, Err (Task OpenDataFile source))
    | None =>
        match open_file_state directory name capacity shared_queues fs with
        | (fs, Err e) => Done (fs, Err e)
        | (fs, Ok c) =>
            node ← unwrap (nodes fs !! claim_data c);
            let f := new_data_file c (node_bytes node) a in
            if queue_fails a then Done (fs, Err (file_io_error f OpenDataFile QueueStopped))
            else
            '(f, r) ← queue_read f 0 DIRECT_IO_ALIGNMENT_BYTES;
            Done match r with
                 | Ok _ => (fs, Ok f)
                 | Err source => (unlock (claim_lock c) fs, Err (file_io_error f OpenDataFile source))
                 end
        end
    end.
End file_open.

(** ** What each part does *)

(** A failed call changes nothing; otherwise the call ran. *)
Lemma os_call_inv {A} operation path (call : FileSystem → FileSystem * result io_error A) fs fs' r :
  os_call operation path call fs = (fs', r) →
  (nodes fs' = nodes fs ∧ locked fs' = locked fs ∧ ∃ e, r = Err (Io operation path e))
  ∨ ∃ rest r', call (mkFileSystem (nodes fs) (locked fs) rest) = (fs', r') ∧ r = map_err (Io operation path) r'.
Proof.
  unfold os_call. destruct (head (os_errors fs)) as [[errno|]|].
  - intros [= <- <-]. left. split_and!; [done|done|by eexists].
  - destruct (call _) as [fs1 r1] eqn:Hc. intros [= <- <-]. right. by eexists _, _.
  - destruct (call _) as [fs1 r1] eqn:Hc. intros [= <- <-]. right. by eexists _, _.
Qed.

Lemma FsM_bind_inv {A B} (m : FsM A) (f : A → FsM B) fs fs' r :
  (m ≫= f) fs = (fs', r) → ∃ fs1 r1, m fs = (fs1, r1) ∧ match r1 with Ok a => f a fs1 = (fs', r) | Err e => fs' = fs1 ∧ r = Err e end.
Proof.
  unfold mbind, FsM_bind. destruct (m fs) as [fs1 [a|e]]; intros Heq; eexists _, _; (split; [done|]); [done|]. by injection Heq as <- <-.
Qed.

(** Nothing is lost and no lock changes hands. *)
Definition keeps (fs fs' : FileSystem) : Prop := nodes fs ⊆ nodes fs' ∧ locked fs' = locked fs.

Lemma keeps_refl fs fs' : nodes fs' = nodes fs → locked fs' = locked fs → keeps fs fs'.
Proof. intros Hn Hl. split; [by rewrite Hn|done]. Qed.
Lemma keeps_trans fs1 fs2 fs3 : keeps fs1 fs2 → keeps fs2 fs3 → keeps fs1 fs3.
Proof. intros [? Hl1] [? Hl2]. split; [by etrans|by rewrite Hl2]. Qed.
#[export] Hint Resolve keeps_refl keeps_trans : feuer.

Section specs.
Context `{PathResolver}.

(** Opening a path finds the node or an empty file that it creates. *)
Lemma open_or_create_inv operation path fs fs' r :
  os_call operation path (open_or_create path) fs = (fs', r) →
  keeps fs fs' ∧ (∀ id, id ≠ file_id path → nodes fs' !! id = nodes fs !! id)
  ∧ ∀ id, r = Ok id → id = file_id path ∧ nodes fs' !! id = Some (default empty_file (nodes fs !! id)).
Proof.
  intros [(Hn & Hl & e & ->)|(rest & r' & Hc & ->)]%os_call_inv.
  { split_and!; [by apply keeps_refl|by rewrite Hn|done]. }
  unfold open_or_create in Hc. cbn [nodes] in Hc. destruct (nodes fs !! file_id path) as [n|] eqn:Hnode.
  - case_decide; injection Hc as <- <-; split_and!; try done. intros id [= <-]. cbn [nodes]. by rewrite Hnode.
  - injection Hc as <- <-. cbn [with_nodes nodes locked]. split_and!.
    + split; [by apply insert_subseteq|done].
    + intros id Hid. by rewrite lookup_insert_ne.
    + intros id [= <-]. by rewrite lookup_insert_eq, Hnode.
Qed.

(** Calls that only look. *)
Lemma os_look_inv {A} operation path (g : FileSystem → result io_error A) fs fs' r :
  os_call operation path (λ fs, (fs, g fs)) fs = (fs', r) →
  nodes fs' = nodes fs ∧ locked fs' = locked fs ∧ ∀ a, r = Ok a → ∃ rest, g (mkFileSystem (nodes fs) (locked fs) rest) = Ok a.
Proof.
  intros [(Hn & Hl & e & ->)|(rest & r' & Hc & ->)]%os_call_inv; [done|]. injection Hc as <- <-. split_and!; [done|done|].
  intros a Ha. exists rest. by destruct (g _); simplify_eq/=.
Qed.

Definition valid_capacity (capacity : Z) : Prop := capacity ≠ 0 ∧ capacity ≤ i64_max ∧ is_multiple_of capacity DIRECT_IO_ALIGNMENT_BYTES = true.

Lemma acquire_lock_spec d n cap fs fs' r :
  acquire_lock d n cap fs = (fs', r) →
  nodes fs ⊆ nodes fs' ∧
  match r with
  | Ok c => ∃ lock, c = mkClaim d n cap lock ∧ lock = file_id (path_join d (lock_file_name n)) ∧ (lock ∉ locked fs)
              ∧ locked fs' = {[lock]} ∪ locked fs ∧ valid_capacity cap
  | Err e => locked fs' = locked fs
  end.
Proof.
  unfold acquire_lock. destruct (_ || negb _) eqn:Hcap; [by intros [= <- <-]|].
  intros (fs1 & r1 & (Hn1 & Hl1 & _)%os_look_inv & Hk1)%FsM_bind_inv. destruct r1 as [[]|e]; [|destruct Hk1 as [-> ->]; by rewrite Hn1].
  apply FsM_bind_inv in Hk1 as (fs2 & r2 & Ho & Hk2). apply open_or_create_inv in Ho as ([Hsub2 Hl2] & _ & Hid).
  rewrite Hn1 in Hsub2. rewrite Hl1 in Hl2. destruct r2 as [lock|e]; [|by destruct Hk2 as [-> ->]]. destruct (Hid lock eq_refl) as [-> _].
  apply FsM_bind_inv in Hk2 as (fs3 & r3 & [(Hn3 & Hl3 & e & ->)|(rest & r' & Hc & ->)]%os_call_inv & Hk3).
  { destruct Hk3 as [-> ->]. rewrite Hn3, Hl3. done. }
  unfold try_lock_exclusive in Hc. cbn [locked] in Hc. case_decide as Hin; injection Hc as <- <-; cbn [map_err] in Hk3.
  - injection Hk3 as <- <-. done.
  - injection Hk3 as <- <-. cbn [with_locked nodes locked]. split; [done|]. rewrite Hl2 in *. eexists. split_and!; [done..|].
    apply orb_false_iff in Hcap as [[? ?]%orb_false_iff ?%negb_false_iff]. split_and!; [|bool_to_prop; lia|done]. by apply Z.eqb_neq.
Qed.

(** Taking the lock creates no file but the lock file. *)
Lemma acquire_lock_created d n cap fs fs' r :
  acquire_lock d n cap fs = (fs', r) → ∀ id, id ≠ file_id (path_join d (lock_file_name n)) → nodes fs' !! id = nodes fs !! id.
Proof.
  unfold acquire_lock. destruct (_ || negb _); [by intros [= <- <-]|].
  intros (fs1 & r1 & (Hn1 & _)%os_look_inv & Hk1)%FsM_bind_inv id Hid. destruct r1 as [[]|e]; [|destruct Hk1 as [-> ->]; by rewrite Hn1].
  apply FsM_bind_inv in Hk1 as (fs2 & r2 & Ho & Hk2). apply open_or_create_inv in Ho as (_ & Ho & _). rewrite Hn1 in Ho.
  destruct r2 as [lock|e]; [|destruct Hk2 as [-> ->]; by apply Ho].
  apply FsM_bind_inv in Hk2 as (fs3 & r3 & [(Hn3 & _ & e & ->)|(rest & r' & Hc & ->)]%os_call_inv & Hk3).
  { destruct Hk3 as [-> ->]. rewrite Hn3. by apply Ho. }
  unfold try_lock_exclusive in Hc. case_decide; injection Hc as <- <-; injection Hk3 as <- <-; by apply Ho.
Qed.

(** The system reports alignments that divide ours. *)
Definition supports_direct_io (id : FileId) : Prop :=
  ∃ m o, direct_io id = Some (m, o) ∧ is_multiple_of DIRECT_IO_ALIGNMENT_BYTES m = true ∧ is_multiple_of DIRECT_IO_ALIGNMENT_BYTES o = true.

Lemma open_locked_spec c q fs fs' r :
  open_locked c q fs = (fs', r) →
  locked fs' = locked fs ∧ (∀ id, id ≠ claim_data c → nodes fs' !! id = nodes fs !! id)
  ∧ match r with
    | Ok _ => let old := default empty_file (nodes fs !! claim_data c) in
              node_kind old = RegularFile ∧ nodes fs' !! claim_data c = Some (resize_node (claim_capacity c) old)
              ∧ supports_direct_io (claim_data c)
    | Err _ => nodes fs ⊆ nodes fs'
    end.
Proof.
  unfold open_locked.
  intros (fs1 & r1 & Ho & Hk1)%FsM_bind_inv. apply open_or_create_inv in Ho as ([Hs1 Hl1] & Ho1 & Hid). destruct r1 as [id|e]; [|by destruct Hk1 as [-> ->]].
  destruct (Hid id eq_refl) as [-> Hnode]. fold (claim_data c) in *.
  apply FsM_bind_inv in Hk1 as (fs2 & r2 & (Hn2 & Hl2 & Hreg)%os_look_inv & Hk2). rewrite Hl1 in Hl2.
  assert (Hsame : ∀ fs', nodes fs' = nodes fs1 → locked fs' = locked fs → locked fs' = locked fs ∧ (∀ id, id ≠ claim_data c → nodes fs' !! id = nodes fs !! id) ∧ nodes fs ⊆ nodes fs')
    by (intros fs0 Hn Hl; rewrite Hn, Hl; done).
  destruct r2 as [regular|e]; [|destruct Hk2 as [-> ->]; by apply Hsame].
  destruct (Hreg regular eq_refl) as [rest Hfile]. cbn [nodes] in Hfile. rewrite Hnode in Hfile. injection Hfile as <-.
  case_bool_decide as Hkind; cbn [negb] in Hk2; [|injection Hk2 as <- <-; by apply Hsame].
  apply FsM_bind_inv in Hk2 as (fs3 & r3 & (Hn3 & Hl3 & Hdio)%os_look_inv & Hk3). rewrite Hl2 in Hl3. rewrite Hn2 in Hn3.
  destruct r3 as [[]|e]; [|destruct Hk3 as [-> ->]; by apply Hsame].
  apply FsM_bind_inv in Hk3 as (fs4 & r4 & Hqueue & Hk4).
  assert (nodes fs4 = nodes fs1 ∧ locked fs4 = locked fs) as [Hn4 Hl4].
  { destruct q; [injection Hqueue as <- <-; by rewrite Hn3|]. apply os_look_inv in Hqueue as (-> & -> & _). done. }
  destruct r4 as [[]|e]; [|destruct Hk4 as [-> ->]; by apply Hsame].
  apply os_call_inv in Hk4 as [(Hn5 & Hl5 & e & ->)|(rest5 & r' & Hc & ->)]; [apply Hsame; congruence|].
  unfold set_len in Hc. injection Hc as <- <-. cbn [with_nodes nodes locked map_err]. rewrite Hn4. split_and!; [done| |done| |].
  - intros id Hne. rewrite lookup_alter_ne by done. by apply Ho1.
  - rewrite lookup_alter_eq, Hnode. done.
  - destruct (Hdio () eq_refl) as [_ Hd]. unfold supports_direct_io. destruct (direct_io (claim_data c)) as [[m o]|]; [|done]. exists m, o.
    destruct (is_multiple_of _ m), (is_multiple_of _ o); done.
Qed.

(** ** The whole call *)

(** What an attempt to open leaves behind.  A failure keeps every existing file as
    it was and gives the lock back; success holds the lock and the regular file,
    which has exactly the capacity and keeps the bytes that fit. *)
Definition open_result (d n : string) (cap : Z) (fs fs' : FileSystem) (r : DataFileResult Claim) : Prop :=
  match r with
  | Err _ => keeps fs fs'
  | Ok c =>
      let lock := file_id (path_join d (lock_file_name n)) in
      let data := file_id (path_join d n) in
      let old := default empty_file (nodes fs !! data) in
      c = mkClaim d n cap lock ∧ valid_capacity cap ∧ supports_direct_io data ∧ (lock ∉ locked fs) ∧ locked fs' = {[lock]} ∪ locked fs
      ∧ node_kind old = RegularFile ∧ nodes fs' !! data = Some (resize_node cap old)
      ∧ ∀ id node, id ≠ data → nodes fs !! id = Some node → nodes fs' !! id = Some node
  end.

Lemma open_file_state_spec d n cap q fs fs' r :
  lock_file_name n ≠ n → (file_id (path_join d (lock_file_name n)) = file_id (path_join d n) → lock_file_name n = n) →
  open_file_state d n cap q fs = (fs', r) → open_result d n cap fs fs' r.
Proof.
  intros Hne Hinj. unfold open_file_state. intros (fs1 & r1 & Hacq & Hk)%FsM_bind_inv.
  pose proof (acquire_lock_created _ _ _ _ _ _ Hacq) as Hcreated. apply acquire_lock_spec in Hacq as [Hsub Hacq].
  destruct r1 as [c|e]; [|destruct Hk as [-> ->]; by split]. destruct Hacq as (lock & -> & -> & Hfree & Hlock & Hcap).
  unfold locked_by in Hk. destruct (open_locked _ q fs1) as [fs2 r2] eqn:Hopen. apply open_locked_spec in Hopen as (Hl2 & Ho2 & Hr2). rewrite Hlock in Hl2.
  unfold claim_data, claim_path in *. cbn [claim_directory claim_name claim_capacity claim_lock] in *.
  destruct r2 as [[]|e]; injection Hk as <- <-.
  - destruct Hr2 as (Hkind & Hnode & Hdio). assert (Hd : nodes fs1 !! file_id (path_join d n) = nodes fs !! file_id (path_join d n)).
    { apply Hcreated. intros Heq. by apply Hne, Hinj. }
    rewrite Hd in Hkind, Hnode. unfold open_result. cbn zeta. split_and!; try done.
    intros id node Hid Hnd. rewrite Ho2 by done. by eapply lookup_weaken.
  - split; [by etrans|]. cbn [unlock with_locked locked]. rewrite Hl2. set_solver.
Qed.
End specs.

(** ** Lock files *)
Lemma lock_file_name_reserved n : starts_with ".feuer." (lock_file_name n) = true.
Proof. unfold lock_file_name. destruct (String.eqb n DATA_FILE_NAME); [done|]. apply starts_with_app. Qed.

(** Every data file has a lock file of its own. *)
Lemma lock_file_name_inj n1 n2 : lock_file_name n1 = lock_file_name n2 → n1 = n2.
Proof.
  unfold lock_file_name. destruct (String.eqb_spec n1 DATA_FILE_NAME) as [->|_], (String.eqb_spec n2 DATA_FILE_NAME) as [->|_]; [done| | |].
  - change LOCK_FILE_NAME with (".feuer." ++ "lock")%string. intros Heq%string_app_inj_l%(f_equal String.length).
    rewrite string_length_app in Heq. cbn in Heq. lia.
  - change LOCK_FILE_NAME with (".feuer." ++ "lock")%string. intros Heq%string_app_inj_l%(f_equal String.length).
    rewrite string_length_app in Heq. cbn in Heq. lia.
  - intros ?%string_app_inj_l. by eapply string_app_inj_r.
Qed.

Lemma lock_file_name_plain n : plain_name n → plain_name (lock_file_name n).
Proof.
  intros (Hs & _). unfold lock_file_name. destruct (String.eqb n DATA_FILE_NAME); [by vm_compute|].
  split_and!; [|done..]. rewrite !contains_char_app, Hs. done.
Qed.

Lemma lock_is_not_data n n' : valid_file_name n' → lock_file_name n ≠ n'.
Proof. intros (_ & _ & Hn') <-. by rewrite lock_file_name_reserved in Hn'. Qed.

Section resolved.
Context `{PathResolverOk}.

Lemma lock_id d n : valid_file_name n → file_id (path_join d (lock_file_name n)) = (directory_id d, lock_file_name n).
Proof. intros [Hp _]. by apply file_id_join, lock_file_name_plain. Qed.
Lemma data_id d n : valid_file_name n → file_id (path_join d n) = (directory_id d, n).
Proof. intros [Hp _]. by apply file_id_join. Qed.

Lemma open_file_state_ok d n cap q fs fs' r :
  valid_file_name n → open_file_state d n cap q fs = (fs', r) → open_result d n cap fs fs' r.
Proof.
  intros Hn. apply open_file_state_spec; [by apply lock_is_not_data|]. rewrite lock_id, data_id by done. by intros [= ->].
Qed.

(** What the whole call returns.  The one failure that leaves a resized file is the
    first read's: everything before it had succeeded. *)
Definition opened_result (d n : string) (cap : Z) (q : bool) (a : FileAnswers) (fs fs' : FileSystem) (r : DataFileResult DataFile) : Prop :=
  match r with
  | Ok f => ∃ c node, open_result d n cap fs fs' (Ok c) ∧ nodes fs' !! claim_data c = Some node
              ∧ capacity f = cap ∧ contents f = node_bytes node
  | Err e => (locked fs' = locked fs ∧ nodes fs ⊆ nodes fs')
             ∨ ∃ c fs1 node, open_file_state d n cap q fs = (fs1, Ok c) ∧ open_result d n cap fs fs1 (Ok c) ∧ nodes fs1 !! claim_data c = Some node
                 ∧ (queue_fails a = true ∧ fs' = fs1 ∧ e = Io OpenDataFile (claim_path c) QueueStopped
                    ∨ ∃ f source, queue_read (new_data_file c (node_bytes node) a) 0 DIRECT_IO_ALIGNMENT_BYTES = Done (f, Err source)
                        ∧ e = Io OpenDataFile (claim_path c) source ∧ fs' = unlock (claim_lock c) fs1 ∧ locked fs' = locked fs)
  end.

Lemma open_with_io_queues_spec d n cap q a fs :
  valid_file_name n → ∃ fs' r, open_with_io_queues d n cap q a fs = Done (fs', r) ∧ opened_result d n cap q a fs fs' r.
Proof.
  intros Hn. unfold open_with_io_queues. destruct (in_runtime a); cbn [negb]; [|eexists _, _; split; [done|]; by left].
  destruct (join_error a) as [source|]; [eexists _, _; split; [done|]; by left|].
  destruct (open_file_state d n cap q fs) as [fs1 r1] eqn:Hrun1. pose proof Hrun1 as Hopen. apply open_file_state_ok in Hopen; [|done].
  destruct r1 as [c|e]; [|destruct Hopen as [Hsub Hl]; eexists _, _; split; [done|]; by left].
  pose proof Hopen as (Hc & _ & _ & Hfree & Hl & _ & Hnode & _). assert (Hnode' : nodes fs1 !! claim_data c = Some (resize_node cap (default empty_file (nodes fs !! file_id (path_join d n))))) by (by rewrite Hc).
  rewrite Hnode'. cbn [unwrap mbind outcome_bind].
  set (node := resize_node _ _) in *. destruct (queue_fails a) eqn:Hqf.
  { eexists _, _. split; [done|]. right. exists c, fs1, node. split_and!; try done. by left. }
  destruct (queue_read_ok (new_data_file c (node_bytes node) a) 0 DIRECT_IO_ALIGNMENT_BYTES) as (f' & r & Hrun & (Hcap & Hpath & _) & Hkd & _); [done|done|done|].
  rewrite Hrun. cbn [mbind outcome_bind]. destruct r as [bytes|e]; eexists _, _; (split; [done|]).
  - exists c, node. split; [exact Hopen|]. split; [exact Hnode'|]. split; [|exact Hkd]. cbn in Hcap. cbn. by rewrite Hcap, Hc.
  - right. exists c, fs1, node. split_and!; try done. right. exists f', e. split_and!; try done; [by unfold file_io_error; rewrite Hpath|].
    cbn [unlock with_locked locked]. rewrite Hl, Hc. cbn [claim_lock]. set_solver.
Qed.

(** When no call fails, a free file of the right kind is opened. *)
Record openable (d n : string) (cap : Z) (fs : FileSystem) : Prop := mkOpenable {
  op_capacity : valid_capacity cap ∧ 0 < cap;
  op_errors : os_errors fs = [];
  op_lock : file_id (path_join d (lock_file_name n)) ∉ locked fs;
  op_lock_node : ∀ node, nodes fs !! file_id (path_join d (lock_file_name n)) = Some node → node_kind node ≠ DirectoryNode;
  op_data_node : ∀ node, nodes fs !! file_id (path_join d n) = Some node → node_kind node = RegularFile;
  op_direct_io : supports_direct_io (file_id (path_join d n))
}.
Definition no_faults (a : FileAnswers) : Prop :=
  in_runtime a = true ∧ join_error a = None ∧ queue_fails a = false ∧ kernel_script a = [] ∧ channel_answers a = [] ∧ buffer_answers a = [] ∧ sync_answers a = [].

Lemma os_call_quiet {A} operation path (call : FileSystem → FileSystem * result io_error A) fs :
  os_errors fs = [] → os_call operation path call fs = let '(fs', r) := call fs in (fs', map_err (Io operation path) r).
Proof. intros He. unfold os_call. rewrite He. cbn [head tail]. destruct fs as [ns l es]. cbn in *. by subst es. Qed.

Lemma open_or_create_quiet path fs :
  (∀ node, nodes fs !! file_id path = Some node → node_kind node ≠ DirectoryNode) →
  ∃ fs', open_or_create path fs = (fs', Ok (file_id path)) ∧ os_errors fs' = os_errors fs ∧ locked fs' = locked fs
    ∧ (∀ id, id ≠ file_id path → nodes fs' !! id = nodes fs !! id) ∧ nodes fs' !! file_id path = Some (default empty_file (nodes fs !! file_id path)).
Proof.
  intros Hk. unfold open_or_create. destruct (nodes fs !! file_id path) as [node|] eqn:Hn.
  - rewrite decide_False by (by apply Hk). exists fs. by split_and!.
  - eexists. split; [done|]. split_and!; [done|done| |]; cbn; [intros id Hid; by rewrite lookup_insert_ne|by rewrite lookup_insert_eq].
Qed.

Lemma acquire_lock_succeeds d n cap fs :
  valid_file_name n → openable d n cap fs →
  ∃ fs', acquire_lock d n cap fs = (fs', Ok (mkClaim d n cap (file_id (path_join d (lock_file_name n))))) ∧ os_errors fs' = []
    ∧ nodes fs' !! file_id (path_join d n) = nodes fs !! file_id (path_join d n).
Proof.
  intros Hn [[[Hc0 [Hmax Hal]] Hpos] He Hl Hln Hdn Hdio]. unfold acquire_lock.
  rewrite (proj2 (Z.eqb_neq _ _)), (proj2 (Z.ltb_ge _ _)), Hal by done. cbn [orb negb]. unfold mbind, FsM_bind. rewrite os_call_quiet by done. cbn [map_err].
  rewrite os_call_quiet by done. destruct (open_or_create_quiet _ fs Hln) as (fs1 & -> & He1 & Hl1 & Hoth & _). cbn [map_err].
  rewrite os_call_quiet by congruence. unfold try_lock_exclusive. rewrite decide_False by congruence. cbn [map_err].
  eexists. split; [done|]. cbn. split; [congruence|]. apply Hoth. rewrite lock_id, data_id by done. intros [= Heq]. by apply (lock_is_not_data n n Hn).
Qed.

Lemma open_locked_succeeds c q fs :
  os_errors fs = [] → (∀ node, nodes fs !! claim_data c = Some node → node_kind node = RegularFile) → supports_direct_io (claim_data c) →
  ∃ fs', open_locked c q fs = (fs', Ok ()).
Proof.
  intros He Hdn (m & o & Hdio & Hm & Ho). unfold open_locked, mbind, FsM_bind. cbv zeta. rewrite os_call_quiet by done.
  destruct (open_or_create_quiet (claim_path c) fs) as (fs1 & -> & He1 & _ & _ & Hnode); [intros node Hk; fold (claim_data c) in Hk; by rewrite (Hdn node Hk)|]. fold (claim_data c) in *. cbn [map_err].
  rewrite os_call_quiet by congruence. unfold is_file. rewrite Hnode. cbn [map_err]. rewrite bool_decide_eq_true_2.
  2:{ destruct (nodes fs !! claim_data c) as [node|] eqn:Hk; [exact (Hdn node eq_refl)|done]. }
  cbn [negb]. rewrite os_call_quiet by congruence. unfold check_direct_io_alignment. rewrite Hdio, Hm, Ho. cbn [negb orb map_err].
  destruct q; [unfold mret, FsM_ret|rewrite os_call_quiet by congruence; cbn [map_err]]; (rewrite os_call_quiet by congruence; unfold set_len; cbn [map_err]; by eexists).
Qed.

Lemma open_with_io_queues_succeeds d n cap q a fs :
  valid_file_name n → openable d n cap fs → no_faults a → ∃ fs' f, open_with_io_queues d n cap q a fs = Done (fs', Ok f) ∧ calm f.
Proof.
  intros Hn Hop (Hrt & Hj & Hq & Hk & Hch & Hba & Hsy). destruct (acquire_lock_succeeds d n cap fs Hn Hop) as (fs1 & Hacq & He1 & Hd1).
  destruct (open_locked_succeeds (mkClaim d n cap (file_id (path_join d (lock_file_name n)))) q fs1) as (fs2 & Hopen); [done| |exact (op_direct_io _ _ _ _ Hop)|].
  { unfold claim_data, claim_path. cbn. rewrite Hd1. exact (op_data_node _ _ _ _ Hop). }
  assert (Hrun : open_file_state d n cap q fs = (fs2, Ok (mkClaim d n cap (file_id (path_join d (lock_file_name n)))))).
  { unfold open_file_state, mbind, FsM_bind. rewrite Hacq. unfold locked_by. by rewrite Hopen. }
  destruct (open_file_state_ok _ _ _ _ _ _ _ Hn Hrun) as (_ & (_ & Hmax & Hal) & _ & _ & _ & _ & Hnode & _). destruct (op_capacity _ _ _ _ Hop) as [_ Hpos].
  unfold open_with_io_queues. rewrite Hrt, Hj, Hrun. cbn [negb]. unfold claim_data, claim_path. cbn [claim_directory claim_name]. rewrite Hnode, Hq. cbn [unwrap mbind outcome_bind].
  apply is_multiple_of_spec in Hal; [|done]. set (f := new_data_file _ _ a).
  assert (Hc : calm f). { constructor; cbn; try done. split; [exact Hal|unfold i64_max in *; lia]. }
  assert (4096 ≤ cap) by (apply Z.nlt_ge; intros Hlt; unfold DIRECT_IO_ALIGNMENT_BYTES, BUFFER_ALIGNMENT in Hal; rewrite Z.mod_small in Hal; lia).
  destruct (queue_read_quiet f 0 DIRECT_IO_ALIGNMENT_BYTES) as (f' & x & -> & Hc'); [done|done|done|done|done|]. cbn [mbind outcome_bind]. by exists fs2, f'.
Qed.
End resolved.

(** ** Any number of openers

    Processes open, write and close files in any order; opening is interleaved
    between taking the lock and the rest of the call. *)
Record World := mkWorld { w_fs : FileSystem; w_holders : gmap Z (Claim * bool) }.

Inductive OpenLabel := Opener (o : Z) | Writes (o : Z) | System.

Section world.
Context `{PathResolver}.

Inductive open_step : OpenLabel → World → World → Prop :=
  | step_lock o d n cap w fs' c :
      w_holders w !! o = None → valid_file_name n → acquire_lock d n cap (w_fs w) = (fs', Ok c) →
      open_step (Opener o) w (mkWorld fs' (<[o := (c, false)]> (w_holders w)))
  | step_lock_fails o d n cap w fs' e :
      valid_file_name n → acquire_lock d n cap (w_fs w) = (fs', Err e) → open_step (Opener o) w (mkWorld fs' (w_holders w))
  | step_open o q w fs' c :
      w_holders w !! o = Some (c, false) → open_locked c q (w_fs w) = (fs', Ok ()) →
      open_step (Opener o) w (mkWorld fs' (<[o := (c, true)]> (w_holders w)))
  | step_open_fails o q w fs' c e :
      w_holders w !! o = Some (c, false) → open_locked c q (w_fs w) = (fs', Err e) →
      open_step (Opener o) w (mkWorld (unlock (claim_lock c) fs') (delete o (w_holders w)))
  | step_write o w c node bytes :
      w_holders w !! o = Some (c, true) → nodes (w_fs w) !! claim_data c = Some node →
      open_step (Writes o) w (mkWorld (with_nodes (<[claim_data c := mkFileNode (node_kind node) (node_len node) bytes]> (nodes (w_fs w))) (w_fs w)) (w_holders w))
  | step_close o w c :
      w_holders w !! o = Some (c, true) →
      open_step (Opener o) w (mkWorld (unlock (claim_lock c) (w_fs w)) (delete o (w_holders w)))
  | step_system w answers :
      open_step System w (mkWorld (mkFileSystem (nodes (w_fs w)) (locked (w_fs w)) answers) (w_holders w)).

Definition any_step (w w' : World) : Prop := ∃ l, open_step l w w'.

(** The file system knows every holder's lock, no two holders share one, and an
    open file has its capacity. *)
Record holder_ok (fs : FileSystem) (c : Claim) (opened : bool) : Prop := mkHolderOk {
  ho_name : valid_file_name (claim_name c);
  ho_lock : claim_lock c = file_id (path_join (claim_directory c) (lock_file_name (claim_name c)));
  ho_locked : claim_lock c ∈ locked fs;
  ho_node : opened = true → ∃ node, nodes fs !! claim_data c = Some node ∧ node_kind node = RegularFile ∧ node_len node = claim_capacity c
}.
Record world_ok (w : World) : Prop := mkWorldOk {
  wd_holders : ∀ o c b, w_holders w !! o = Some (c, b) → holder_ok (w_fs w) c b;
  wd_apart : ∀ o1 o2 c1 c2 b1 b2, w_holders w !! o1 = Some (c1, b1) → w_holders w !! o2 = Some (c2, b2) → claim_lock c1 = claim_lock c2 → o1 = o2
}.
End world.

Section world_lemmas.
Context `{PathResolverOk}.

(** One lock per data file. *)
Lemma same_data_same_lock fs c1 c2 b1 b2 : holder_ok fs c1 b1 → holder_ok fs c2 b2 → claim_data c1 = claim_data c2 → claim_lock c1 = claim_lock c2.
Proof.
  intros [V1 L1 _ _] [V2 L2 _ _]. rewrite L1, L2. unfold claim_data, claim_path. rewrite !data_id, !lock_id by done. by intros [= -> ->].
Qed.

Lemma lock_never_data fs c1 c2 b1 b2 : holder_ok fs c1 b1 → holder_ok fs c2 b2 → claim_lock c1 ≠ claim_data c2.
Proof.
  intros [V1 L1 _ _] [V2 _ _ _]. rewrite L1. unfold claim_data, claim_path. rewrite lock_id, data_id by done. intros [= _ Heq]. by apply (lock_is_not_data _ _ V2) in Heq.
Qed.

(** A holder is unaffected by what keeps its lock and its file. *)
Lemma holder_kept fs fs' c b :
  holder_ok fs c b → claim_lock c ∈ locked fs' → (∀ node, nodes fs !! claim_data c = Some node → nodes fs' !! claim_data c = Some node) → holder_ok fs' c b.
Proof. intros [V L K N] Hl Hn. constructor; try done. intros Hb. destruct (N Hb) as (node & Hnode & ?). exists node. by split; [apply Hn|]. Qed.

(** Replacing one holder. *)
Lemma world_update w fs' o (c : Claim) b (H' : gmap Z (Claim * bool)) :
  world_ok w →
  (∀ o' x, H' !! o' = Some x → (o' = o ∧ x = (c, b)) ∨ (o' ≠ o ∧ w_holders w !! o' = Some x)) →
  holder_ok fs' c b →
  (∀ o' c' b', o' ≠ o → w_holders w !! o' = Some (c', b') → claim_lock c' ≠ claim_lock c ∧ holder_ok fs' c' b') →
  world_ok (mkWorld fs' H').
Proof.
  intros Hw HH Hc Hoth. constructor; cbn [w_fs w_holders].
  - intros o' c' b' Ho'. destruct (HH _ _ Ho') as [[-> [= -> ->]]|[Hne Hold]]; [done|]. by apply (Hoth o').
  - intros o1 o2 c1 c2 b1 b2 H1 H2 Heq. destruct (HH _ _ H1) as [[-> [= -> ->]]|[Hne1 Hold1]], (HH _ _ H2) as [[-> [= -> ->]]|[Hne2 Hold2]]; [done| | |].
    + by destruct (Hoth _ _ _ Hne2 Hold2) as [[] _].
    + by destruct (Hoth _ _ _ Hne1 Hold1) as [[] _].
    + by eapply (wd_apart _ Hw).
Qed.

(** Dropping one holder and its lock. *)
Lemma world_drop w fs' o c b :
  world_ok w → w_holders w !! o = Some (c, b) → locked fs' = locked (w_fs w) →
  (∀ o' c' b', o' ≠ o → w_holders w !! o' = Some (c', b') → ∀ node, nodes (w_fs w) !! claim_data c' = Some node → nodes fs' !! claim_data c' = Some node) →
  world_ok (mkWorld (unlock (claim_lock c) fs') (delete o (w_holders w))).
Proof.
  intros Hw Ho Hl Hn. constructor; cbn [w_fs w_holders].
  - intros o' c' b' [Hne Ho']%lookup_delete_Some. assert (Hh := wd_holders _ Hw _ _ _ Ho'). eapply holder_kept; [exact Hh| |].
    + cbn [unlock with_locked locked]. rewrite Hl. apply elem_of_difference. split; [apply (ho_locked _ _ _ Hh)|].
      intros Heq%elem_of_singleton. by apply Hne, (wd_apart _ Hw _ _ _ _ _ _ Ho Ho' (eq_sym Heq)).
    + apply (Hn o' c' b'); [by apply not_eq_sym|done].
  - intros o1 o2 c1 c2 b1 b2 [_ H1]%lookup_delete_Some [_ H2]%lookup_delete_Some. by apply (wd_apart _ Hw _ _ _ _ _ _ H1 H2).
Qed.

(** Another opener's files are not touched by opening [c]. *)
Lemma open_locked_frame w o c q fs' r :
  world_ok w → w_holders w !! o = Some (c, false) → open_locked c q (w_fs w) = (fs', r) →
  locked fs' = locked (w_fs w)
  ∧ ∀ o' c' b', o' ≠ o → w_holders w !! o' = Some (c', b') → nodes fs' !! claim_data c' = nodes (w_fs w) !! claim_data c'.
Proof.
  intros Hw Ho Hrun. apply open_locked_spec in Hrun as (Hl & Hn & _). split; [done|]. intros o' c' b' Hne Ho'. apply Hn. intros Heq. apply Hne.
  apply (wd_apart _ Hw _ _ _ _ _ _ Ho' Ho). by eapply same_data_same_lock; [eapply wd_holders..|].
Qed.

(** What one step does to the files that stay open. *)
Definition undisturbed (l : OpenLabel) (w w' : World) : Prop :=
  ∀ o c, w_holders w !! o = Some (c, true) → l ≠ Writes o → nodes (w_fs w') !! claim_data c = nodes (w_fs w) !! claim_data c.

Lemma grown_undisturbed l w fs' H' : world_ok w → nodes (w_fs w) ⊆ nodes fs' → undisturbed l w (mkWorld fs' H').
Proof.
  intros Hw Hsub o c Ho _. destruct (ho_node _ _ _ (wd_holders _ Hw _ _ _ Ho) eq_refl) as (node & Hnode & _). cbn [w_fs]. rewrite Hnode. by eapply lookup_weaken.
Qed.

Lemma lock_step_ok w o d n cap fs' c :
  world_ok w → w_holders w !! o = None → valid_file_name n → acquire_lock d n cap (w_fs w) = (fs', Ok c) →
  world_ok (mkWorld fs' (<[o := (c, false)]> (w_holders w))).
Proof.
  intros Hw Ho Hv [Hsub (lock & -> & -> & Hfree & Hl & _)]%acquire_lock_spec. eapply (world_update w fs' o _ false); [done| | |].
  - intros o' x [[<- <-]|[Hne Hx]]%lookup_insert_Some; [by left|right]. by split; [apply not_eq_sym|].
  - constructor; cbn; [done|done| |done]. rewrite Hl. set_solver.
  - intros o' c' b' Hne Ho'. assert (Hh := wd_holders _ Hw _ _ _ Ho'). split.
    + intros Heq. apply Hfree. cbn in Heq. rewrite <-Heq. apply (ho_locked _ _ _ Hh).
    + eapply holder_kept; [exact Hh| |intros; by eapply lookup_weaken]. rewrite Hl. apply elem_of_union_r, (ho_locked _ _ _ Hh).
Qed.

Lemma opened_step_ok w o q fs' c :
  world_ok w → w_holders w !! o = Some (c, false) → open_locked c q (w_fs w) = (fs', Ok ()) →
  world_ok (mkWorld fs' (<[o := (c, true)]> (w_holders w))).
Proof.
  intros Hw Ho Hrun. destruct (open_locked_frame w o c q fs' _ Hw Ho Hrun) as [Hl Hfr]. apply open_locked_spec in Hrun as (_ & _ & Hkind & Hnode & _).
  assert (Hh := wd_holders _ Hw _ _ _ Ho). eapply (world_update w fs' o c true); [done| | |].
  - intros o' x [[<- <-]|[Hne Hx]]%lookup_insert_Some; [by left|right]. by split; [apply not_eq_sym|].
  - destruct Hh as [V L K _]. constructor; [done|done|by rewrite Hl|]. intros _. by eexists.
  - intros o' c' b' Hne Ho'. assert (Hh' := wd_holders _ Hw _ _ _ Ho'). split.
    + intros Heq. by apply Hne, (wd_apart _ Hw _ _ _ _ _ _ Ho' Ho).
    + eapply holder_kept; [exact Hh'|rewrite Hl; apply (ho_locked _ _ _ Hh')|]. intros node Hnd. by rewrite (Hfr o' c' b').
Qed.

Lemma open_step_ok l w w' : world_ok w → open_step l w w' → world_ok w' ∧ undisturbed l w w'.
Proof.
  intros Hw Hstep. destruct Hstep as [o d n cap w fs' c Ho Hv Hrun|o d n cap w fs' e Hv Hrun|o q w fs' c Ho Hrun|o q w fs' c e Ho Hrun|o w c node bytes Ho Hnode|o w c Ho|w answers].
  - split; [by eapply lock_step_ok|]. apply grown_undisturbed; [done|]. by apply acquire_lock_spec in Hrun as [? _].
  - apply acquire_lock_spec in Hrun as [Hsub Hl]. split; [|by apply grown_undisturbed]. destruct Hw as [Hh Ha]. constructor; [|done].
    intros o' c b Ho'. eapply holder_kept; [by eapply Hh| |intros; by eapply lookup_weaken]. cbn [w_fs]. rewrite Hl. apply (ho_locked _ _ _ (Hh _ _ _ Ho')).
  - split; [by eapply opened_step_ok|]. destruct (open_locked_frame w o c q fs' _ Hw Ho Hrun) as [_ Hfr]. intros o' c' Ho' _. cbn [w_fs].
    destruct (decide (o' = o)) as [->|Hne]; [congruence|by eapply Hfr].
  - destruct (open_locked_frame w o c q fs' _ Hw Ho Hrun) as [Hl Hfr]. split.
    + eapply world_drop; [done|done|done|]. intros o' c' b' Hne Ho' node Hn. by rewrite (Hfr o' c' b').
    + intros o' c' Ho' _. cbn [w_fs unlock with_locked nodes]. destruct (decide (o' = o)) as [->|Hne]; [congruence|by eapply Hfr].
  - assert (Hne : ∀ o' c' b', w_holders w !! o' = Some (c', b') → o' ≠ o → claim_data c' ≠ claim_data c).
    { intros o' c' b' Ho' Hne Heq. apply Hne, (wd_apart _ Hw _ _ _ _ _ _ Ho' Ho). by eapply same_data_same_lock; [eapply wd_holders..|]. }
    split.
    + destruct Hw as [Hh Ha]. constructor; [|done]. cbn [w_fs w_holders]. intros o' c' b' Ho'. destruct (Hh _ _ _ Ho') as [V L K N]. constructor; [done|done|done|].
      intros Hb. cbn [with_nodes nodes]. destruct (decide (o' = o)) as [->|Hno].
      * rewrite Ho in Ho'. injection Ho' as <- <-. rewrite lookup_insert_eq. destruct (N eq_refl) as (node' & Hn' & Hk & Hlen). rewrite Hnode in Hn'. injection Hn' as <-. by eexists.
      * rewrite lookup_insert_ne by (apply not_eq_sym; by eapply Hne). by apply N.
    + intros o' c' Ho' Hlab. cbn [w_fs with_nodes nodes]. rewrite lookup_insert_ne; [done|]. apply not_eq_sym. eapply Hne; [exact Ho'|congruence].
  - split; [|by intros o' c' _ _]. by eapply world_drop.
  - split; [|by intros o' c' _ _]. destruct Hw as [Hh Ha]. constructor; [|done]. intros o' c b Ho'. destruct (Hh _ _ _ Ho'). by constructor.
Qed.

Lemma worlds_reachable fs w : rtc any_step (mkWorld fs ∅) w → world_ok w.
Proof.
  intros Hrtc. apply (rtc_ind_r (λ w, world_ok w) (mkWorld fs ∅)) in Hrtc; [done| |].
  - constructor; cbn [w_holders]; intros *; by rewrite lookup_empty.
  - intros y z _ [l Hstep] Hy. by apply (open_step_ok l y z).
Qed.
End world_lemmas.

(** C14: opening is all or nothing, and never destroys a cache it does not get.  The
    call always returns.  On success the caller holds the lock that was free
    before, the data file is a regular file of exactly the capacity, with the
    bytes it had as far as they fit and zeros beyond, and no other file has
    changed.  On failure the locks are as before and every file that existed is as it
    was, also when the rings cannot be created.  The only exceptions come after all of
    this had succeeded: the first read fails, which leaves the resized file, or the
    queue stops under that read, which also keeps the lock.  A free regular or missing
    file with direct I/O is opened when no call fails. *)
Theorem open_data_file_correct `{PathResolverOk} d n cap q a fs :
  valid_file_name n →
  (∃ fs' r, open_with_io_queues d n cap q a fs = Done (fs', r) ∧ opened_result d n cap q a fs fs' r)
  ∧ (openable d n cap fs → no_faults a → ∃ fs' f, open_with_io_queues d n cap q a fs = Done (fs', Ok f)).
Proof.
  intros Hn. split; [by apply open_with_io_queues_spec|]. intros Hop Ha. destruct (open_with_io_queues_succeeds d n cap q a fs Hn Hop Ha) as (fs' & f & Hrun & _). eauto.
Qed.

(** C15: a data file has one owner.  However opening, writing and closing are
    interleaved between any number of processes, two of them never hold the same
    data file, no data file is ever used as a lock, an open file stays a regular
    file of its capacity, nobody gets a lock that is held, and no step but its
    owner's writes changes an open file. *)
Theorem data_file_exclusive `{PathResolverOk} fs w :
  rtc any_step (mkWorld fs ∅) w →
  (∀ o1 o2 c1 c2 b1 b2, w_holders w !! o1 = Some (c1, b1) → w_holders w !! o2 = Some (c2, b2) →
     (claim_data c1 = claim_data c2 → o1 = o2) ∧ claim_lock c1 ≠ claim_data c2)
  ∧ (∀ o c, w_holders w !! o = Some (c, true) →
       ∃ node, nodes (w_fs w) !! claim_data c = Some node ∧ node_kind node = RegularFile ∧ node_len node = claim_capacity c)
  ∧ (∀ o c b d cap fs' r, w_holders w !! o = Some (c, b) → directory_id d = directory_id (claim_directory c) →
       acquire_lock d (claim_name c) cap (w_fs w) = (fs', r) → ∃ e, r = Err e)
  ∧ ∀ l w', open_step l w w' → undisturbed l w w'.
Proof.
  intros Hw%worlds_reachable. split_and!.
  - intros o1 o2 c1 c2 b1 b2 H1 H2. assert (K1 := wd_holders _ Hw _ _ _ H1). assert (K2 := wd_holders _ Hw _ _ _ H2). split.
    + intros Heq. apply (wd_apart _ Hw _ _ _ _ _ _ H1 H2). by eapply same_data_same_lock.
    + by eapply lock_never_data.
  - intros o c Ho. by apply (ho_node _ _ _ (wd_holders _ Hw _ _ _ Ho)).
  - intros o c b d cap fs' r Ho Hd [_ Hr]%acquire_lock_spec. destruct r as [c'|e]; [|by eexists]. exfalso. destruct Hr as (lock & _ & -> & Hfree & _).
    destruct (wd_holders _ Hw _ _ _ Ho) as [V L K _]. apply Hfree. rewrite L, lock_id in K by done. by rewrite lock_id, Hd.
  - intros l w' Hstep. by apply (open_step_ok l w w').
Qed.

(** Paths resolved by their text, on a system that asks for 512-byte alignment. *)
Definition textual_resolver : PathResolver := mkPathResolver split_last directory_prefix (λ _, Some (512, 512)).
Lemma textual_resolver_ok : @PathResolverOk textual_resolver.
Proof. intros d n Hn. by apply split_last_join. Qed.

Definition no_answers : FileAnswers := mkFileAnswers true None false [] [] [] [] 0.
Definition sample_fs : FileSystem := mkFileSystem {[ ("cache/", "data") := mkFileNode RegularFile 3 (λ _, Byte.x07) ]} ∅ [].

Lemma open_data_file_correct_witness :
  let _ := textual_resolver in
  ∃ fs' f, open_with_io_queues "cache" "data" 8192 false no_answers sample_fs = Done (fs', Ok f) ∧ contents f 2 = Byte.x07 ∧ contents f 3 = Byte.x00
    ∧ ("cache/", ".feuer.lock") ∈ locked fs'.
Proof.
  intros res. assert (Hr : @PathResolverOk res) by apply textual_resolver_ok.
  destruct (open_data_file_correct "cache" "data" 8192 false no_answers sample_fs) as [(fs' & r & Hrun & Hres) _]; [by vm_compute|].
  destruct r as [f|e]; [|exfalso; clear Hres; vm_compute in Hrun; discriminate Hrun]. exists fs', f.
  destruct Hres as (c & node & (-> & _ & _ & _ & Hl & _ & Hnode & _) & Hnode' & _ & Hcont). unfold claim_data, claim_path in Hnode'. cbn [claim_directory claim_name] in Hnode'. rewrite Hnode in Hnode'. injection Hnode' as <-.
  split_and!; [exact Hrun|by rewrite Hcont|by rewrite Hcont|]. rewrite Hl. apply elem_of_union_l, elem_of_singleton. reflexivity.
Defined.

Lemma data_file_exclusive_witness :
  let _ := textual_resolver in
  ∃ w c, w_holders w !! 1 = Some (c, true) ∧ claim_capacity c = 8192
    ∧ ∀ cap, ∃ fs' e, acquire_lock "cache/" "data" cap (w_fs w) = (fs', Err e).
Proof.
  intros res. assert (Hr : @PathResolverOk res) by apply textual_resolver_ok.
  destruct (acquire_lock "cache" "data" 8192 sample_fs) as [fs1 r1] eqn:H1. assert (Hok1 : is_ok r1 = true) by (clear -H1; vm_compute in H1; by injection H1 as <- <-).
  destruct r1 as [c|e]; [|discriminate Hok1].
  assert (Hc : c = mkClaim "cache" "data" 8192 ("cache/", ".feuer.lock")) by (clear -H1; vm_compute in H1; by injection H1 as <- <-).
  destruct (open_locked c false fs1) as [fs2 r2] eqn:H2.
  assert (Hok2 : r2 = Ok ()) by (clear -H1 H2 Hc; vm_compute in H1; injection H1 as <- _; subst c; vm_compute in H2; by injection H2 as <- <-). subst r2.
  set (w := mkWorld fs2 (<[1 := (c, true)]> (<[1 := (c, false)]> ∅))).
  destruct (data_file_exclusive sample_fs w) as (_ & _ & Hbusy & _).
  - eapply rtc_l; [exists (Opener 1); apply (step_lock 1 "cache" "data" 8192 (mkWorld sample_fs ∅) fs1 c); [reflexivity|by vm_compute|exact H1]|].
    apply rtc_once. exists (Opener 1). unfold w. exact (step_open 1 false (mkWorld fs1 (<[1 := (c, false)]> ∅)) fs2 c (lookup_insert_eq _ _ _) H2).
  - assert (Hw : w_holders w !! 1 = Some (c, true)) by apply lookup_insert_eq. exists w, c. split; [exact Hw|]. split; [by rewrite Hc|].
    intros cap. destruct (acquire_lock "cache/" "data" cap (w_fs w)) as [fs' r] eqn:Ha. exists fs'.
    destruct (Hbusy 1 c true "cache/"%string cap fs' r Hw) as [e ->]; [by rewrite Hc|by rewrite Hc|]. by exists e.
Defined.
