(* ===== verification/BufferPool.v ===== *)
(** * The buffer pool ([feuer-memory/src/buffer.rs])

    Aligned buffers are handed out for reads and return to their pool when their
    last owner drops them.  Idle buffers and the bytes charged to cached objects
    share one capacity; idle buffers give way.  Subtracting more charged bytes than
    there are is a panic.  Whether an allocation succeeds is
    an argument.  A large buffer is a mapping of whole pages, so that bytes beyond
    its length survive a shrink and must be cleared when it grows again. *)

From S2P Require Import Prelude Codec Disk.

Definition MAX_FIXED_BUFFER_BYTES : Z := 64 * 1024 * 1024.
Definition BUFFER_SIZES : list Z :=
  [4 * 1024; 32 * 1024; 256 * 1024; 512 * 1024; 1024 * 1024; 2 * 1024 * 1024; 3 * 1024 * 1024; 4 * 1024 * 1024; 8 * 1024 * 1024;
   12 * 1024 * 1024; 16 * 1024 * 1024; 24 * 1024 * 1024; 32 * 1024 * 1024; MAX_FIXED_BUFFER_BYTES].
Definition BUCKET_COUNT : nat := S (length BUFFER_SIZES).

(** [slice::partition_point], for a slice partitioned by [p]. *)
Definition partition_point {A} (p : A → bool) (l : list A) : nat := default (length l) (position (λ x, negb (p x)) l).
Definition bucket_index (len : Z) : nat := partition_point (λ size, size <? len) BUFFER_SIZES.

(** [BufferPool::allocation_capacity] *)
Definition allocation_capacity (len : Z) : Z := default len (BUFFER_SIZES !! bucket_index len).

Global Arguments bucket_index _ : simpl never.
Global Arguments allocation_capacity _ : simpl never.
Global Arguments BUFFER_SIZES : simpl never.

(** [BufferMemory] and [LargeBuffer]; [mapping] is the content of its pages. *)
Record LargeBuffer := mkLargeBuffer { large_length : Z; mapping : disk }.
Inductive BufferMemory := FixedMemory (size : Z) | LargeMemory (b : LargeBuffer).
Definition memory_capacity (m : BufferMemory) : Z := match m with FixedMemory size => size | LargeMemory b => large_length b end.

(** [AlignedBuffer]; [pooled] tells whether it returns to the pool. *)
Record AlignedBuffer := mkAlignedBuffer { memory : BufferMemory; exposed_length : Z; pooled : bool }.
Definition capacity_of (b : AlignedBuffer) : Z := memory_capacity (memory b).

Definition PAGE_SIZE : Z := 4096.

(** [mremap]: whole pages are kept, new pages are zero. *)
Definition mremap (d : disk) (old_length new_length : Z) : disk := λ a,
  if decide (a < next_multiple_of (Z.min old_length new_length) PAGE_SIZE) then d a else Byte.x00.

(** [LargeBuffer::resize_for_reuse]; [None] is a failed remapping. *)
Definition resize_for_reuse (b : LargeBuffer) (new_capacity : Z) (remaps : bool) : option LargeBuffer :=
  let old_capacity := large_length b in
  if (new_capacity <=? old_capacity) && (old_capacity - new_capacity <? div_ceil new_capacity 10) then Some b
  else if remaps then
    let d := mremap (mapping b) old_capacity new_capacity in
    let d := if old_capacity <? new_capacity
             then disk_write d old_capacity (zeros (Z.to_nat (Z.min (next_multiple_of old_capacity PAGE_SIZE) new_capacity - old_capacity)))
             else d in
    Some (mkLargeBuffer new_capacity d)
  else None.

(** [AlignedBuffer::allocate_zeroed] *)
Definition allocate_zeroed (len : Z) (allocated : bool) : option AlignedBuffer :=
  if allocated then
    Some (mkAlignedBuffer (if MAX_FIXED_BUFFER_BYTES <? len then LargeMemory (mkLargeBuffer len (λ _, Byte.x00)) else FixedMemory len) len false)
  else None.

(** The gauges of [MemoryMetrics] that the pool updates. *)
Record PoolMetrics := mkPoolMetrics {
  used_gauge : Z;
  capacity_gauge : Z;
  idle_buffer_bytes : list Z;
  used_buffer_bytes : list Z
}.
Definition add_at (i : nat) (n : Z) (l : list Z) : list Z := alter (Z.add n) i l.

(** [BufferPool] with its [BufferPoolInner]. *)
Record BufferPool := mkBufferPool {
  pool_capacity : Z;
  used_bytes : Z;
  idle_bytes : Z;
  idle_buffers : list (list AlignedBuffer);
  pool_metrics : PoolMetrics
}.

(** [BufferPool::new] *)
Definition new_pool (capacity : Z) : BufferPool :=
  mkBufferPool capacity 0 0 (replicate BUCKET_COUNT []) (mkPoolMetrics 0 capacity (replicate BUCKET_COUNT 0) (replicate BUCKET_COUNT 0)).

(** [BufferPool::take_idle_buffer], with [decrease_idle_buffer_metrics]; [Vec::pop]
    takes the last buffer. *)
Definition decrease_idle_buffer_metrics (m : PoolMetrics) (index : nat) (bytes : Z) : PoolMetrics :=
  mkPoolMetrics (used_gauge m - bytes) (capacity_gauge m) (add_at index (- bytes) (idle_buffer_bytes m)) (used_buffer_bytes m).
Definition take_idle_buffer (p : BufferPool) (index : nat) : option (AlignedBuffer * BufferPool) :=
  buffers ← idle_buffers p !! index;
  buffer ← last buffers;
  Some (buffer, mkBufferPool (pool_capacity p) (used_bytes p) (idle_bytes p - capacity_of buffer)
                  (<[index := take (pred (length buffers)) buffers]> (idle_buffers p))
                  (decrease_idle_buffer_metrics (pool_metrics p) index (capacity_of buffer))).

(** [BufferPool::allocate]; [answer] decides the allocation or the remapping.  A
    buffer whose remapping fails is freed. *)
Definition allocate_buffer (p : BufferPool) (len : Z) (answer : bool) : BufferPool * option AlignedBuffer :=
  let index := bucket_index len in
  let capacity := allocation_capacity len in
  let '(p, m) := match take_idle_buffer p index with
                 | Some (buffer, p) =>
                     (p, match memory buffer with
                         | LargeMemory b => LargeMemory <$> resize_for_reuse b capacity answer
                         | FixedMemory size => Some (FixedMemory size)
                         end)
                 | None => (p, memory <$> allocate_zeroed capacity answer)
                 end in
  match m with
  | None => (p, None)
  | Some m =>
      let pm := pool_metrics p in
      (mkBufferPool (pool_capacity p) (used_bytes p) (idle_bytes p) (idle_buffers p)
         (mkPoolMetrics (used_gauge pm) (capacity_gauge pm) (idle_buffer_bytes pm) (add_at index (memory_capacity m) (used_buffer_bytes pm))),
       Some (mkAlignedBuffer m len true))
  end.

(** The loops of [add_used_bytes]: frees idle buffers of one bucket, then of each
    bucket from the largest down. *)
Fixpoint free_bucket (fuel : nat) (p : BufferPool) (index : nat) (remaining_capacity : Z) : BufferPool :=
  match fuel with
  | O => p
  | S fuel =>
      if remaining_capacity <? idle_bytes p then
        match take_idle_buffer p index with
        | Some (_, p) => free_bucket fuel p index remaining_capacity
        | None => p
        end
      else p
  end.
Fixpoint free_buckets (n : nat) (p : BufferPool) (remaining_capacity : Z) : BufferPool :=
  match n with
  | O => p
  | S index => free_buckets index (free_bucket (length (default [] (idle_buffers p !! index))) p index remaining_capacity) remaining_capacity
  end.

(** [BufferPool::add_used_bytes] and [remove_used_bytes]; a subtraction below zero
    panics where overflow is checked. *)
Definition add_used_bytes (p : BufferPool) (bytes : Z) : BufferPool :=
  let m := pool_metrics p in
  let p := mkBufferPool (pool_capacity p) (used_bytes p + bytes) (idle_bytes p) (idle_buffers p)
             (mkPoolMetrics (used_gauge m + bytes) (capacity_gauge m) (idle_buffer_bytes m) (used_buffer_bytes m)) in
  free_buckets BUCKET_COUNT p (saturating_sub (pool_capacity p) (used_bytes p)).
Definition remove_used_bytes (p : BufferPool) (bytes : Z) : outcome BufferPool :=
  _ ← assert_that (bytes <=? used_bytes p);
  let m := pool_metrics p in
  Done (mkBufferPool (pool_capacity p) (used_bytes p - bytes) (idle_bytes p) (idle_buffers p)
          (mkPoolMetrics (used_gauge m - bytes) (capacity_gauge m) (idle_buffer_bytes m) (used_buffer_bytes m))).

Global Arguments add_used_bytes _ _ : simpl never.

(** [impl Drop for AlignedBuffer], of a buffer checked out of this pool. *)
Definition drop_buffer (p : BufferPool) (b : AlignedBuffer) : BufferPool :=
  if pooled b then
    let index := bucket_index (capacity_of b) in
    let capacity := capacity_of b in
    let m := pool_metrics p in
    let m := mkPoolMetrics (used_gauge m) (capacity_gauge m) (idle_buffer_bytes m) (add_at index (- capacity) (used_buffer_bytes m)) in
    let idle_limit := saturating_sub (pool_capacity p) (used_bytes p) in
    if idle_bytes p + capacity <=? idle_limit then
      mkBufferPool (pool_capacity p) (used_bytes p) (idle_bytes p + capacity)
        (alter (λ l, l ++ [mkAlignedBuffer (memory b) (exposed_length b) false]) index (idle_buffers p))
        (mkPoolMetrics (used_gauge m + capacity) (capacity_gauge m) (add_at index capacity (idle_buffer_bytes m)) (used_buffer_bytes m))
    else mkBufferPool (pool_capacity p) (used_bytes p) (idle_bytes p) (idle_buffers p) m
  else p.

(** [impl Drop for BufferPool]: the gauges it leaves. *)
Definition drop_pool (p : BufferPool) : PoolMetrics :=
  let sizes := zsum capacity_of <$> idle_buffers p in
  let m := foldl (λ m ib, decrease_idle_buffer_metrics m ib.1 ib.2) (pool_metrics p) (zip (seq 0 BUCKET_COUNT) sizes) in
  mkPoolMetrics (used_gauge m) (capacity_gauge m - pool_capacity p) (idle_buffer_bytes m) (used_buffer_bytes m).

(** ** Sizes *)
Lemma bucket_index_spec len :
  (bucket_index len ≤ 14)%nat ∧ (∀ s, BUFFER_SIZES !! bucket_index len = Some s → len ≤ s)
  ∧ (bucket_index len = 14%nat ↔ MAX_FIXED_BUFFER_BYTES < len).
Proof.
  unfold bucket_index, partition_point. destruct (position _ BUFFER_SIZES) as [i|] eqn:Hp; cbn [default from_option]; unfold id.
  - apply position_Some in Hp as [(x & Hx & Hn) _]. bool_to_prop.
    assert (Hi : (i < 14)%nat) by exact (lookup_lt_Some _ _ _ Hx). split_and!; [lia|intros s Hs; rewrite Hx in Hs; congruence|].
    split; [intros ->; lia|]. intros Hlt. assert (x ≤ MAX_FIXED_BUFFER_BYTES); [|lia].
    assert (Hall : Forall (λ s, s ≤ MAX_FIXED_BUFFER_BYTES) BUFFER_SIZES) by (repeat constructor; by vm_compute).
    rewrite Forall_lookup in Hall. eauto.
  - rewrite position_None in Hp. split_and!; [done|intros s Hs; done|]. split; [|done]. intros _.
    specialize (Hp MAX_FIXED_BUFFER_BYTES ltac:(by vm_compute; do 13 right; left)). by bool_to_prop.
Qed.

Lemma bucket_of_size i s : BUFFER_SIZES !! i = Some s → bucket_index s = i ∧ 0 < s ≤ MAX_FIXED_BUFFER_BYTES.
Proof.
  intros Hi. do 14 (destruct i as [|i]; [injection Hi as <-; by vm_compute|]). cbn in Hi. done.
Qed.

(** The capacity of a fresh buffer: it fits, and belongs to the bucket of its length. *)
Lemma allocation_capacity_spec len :
  0 ≤ len → len ≤ allocation_capacity len ∧ bucket_index (allocation_capacity len) = bucket_index len ∧ 0 < allocation_capacity len
  ∧ (MAX_FIXED_BUFFER_BYTES < allocation_capacity len ↔ MAX_FIXED_BUFFER_BYTES < len)
  ∧ (MAX_FIXED_BUFFER_BYTES < len → allocation_capacity len = len).
Proof.
  intros H0. destruct (bucket_index_spec len) as (Hle & Hfit & Hbig). unfold allocation_capacity.
  destruct (BUFFER_SIZES !! bucket_index len) as [s|] eqn:Hs; cbn [default from_option]; unfold id.
  - destruct (bucket_of_size _ _ Hs) as [Hb Hpos]. specialize (Hfit s eq_refl).
    assert (bucket_index len ≠ 14%nat) by (intros Hc; by rewrite Hc in Hs). split_and!; try done; try lia; intros; tauto || lia.
  - assert (bucket_index len = 14%nat) by (apply lookup_ge_None in Hs; change (length BUFFER_SIZES) with 14%nat in Hs; lia).
    assert (MAX_FIXED_BUFFER_BYTES < len) by tauto. unfold MAX_FIXED_BUFFER_BYTES in *. split_and!; try done; lia.
Qed.

(** ** Reuse of large buffers *)

(** Reusing a large buffer keeps its old bytes and exposes only zeros beyond
    them, also when it had been shrunk before; the new capacity fits the request
    with less than a tenth to spare. *)
Lemma resize_for_reuse_spec b new_capacity b' :
  0 < large_length b → 0 < new_capacity → resize_for_reuse b new_capacity true = Some b' →
  new_capacity ≤ large_length b' ∧ 10 * (large_length b' - new_capacity) < new_capacity + 10
  ∧ (∀ a, 0 ≤ a < Z.min (large_length b) (large_length b') → mapping b' a = mapping b a)
  ∧ (∀ a, large_length b ≤ a < large_length b' → mapping b' a = Byte.x00).
Proof.
  intros Hold Hnew. unfold resize_for_reuse. pose proof (div_ceil_mul new_capacity 10 ltac:(done)) as Hdc.
  destruct (_ && _) eqn:Hkeep.
  { intros [= <-]. apply andb_true_iff in Hkeep as [?%Z.leb_le ?%Z.ltb_lt]. split_and!; [lia|lia|done|lia]. }
  intros [= <-]. cbn [large_length mapping]. split_and!; [lia|lia| |].
  - intros a Ha. pose proof (next_multiple_of_bounds (Z.min (large_length b) new_capacity) PAGE_SIZE ltac:(done)).
    destruct (Z.ltb_spec (large_length b) new_capacity).
    + rewrite disk_write_out by lia. unfold mremap. rewrite decide_True by lia. done.
    + unfold mremap. rewrite decide_True by lia. done.
  - intros a Ha. rewrite (proj2 (Z.ltb_lt _ _)) by lia. set (e := Z.min _ _).
    destruct (decide (a < e)) as [Hin|Hout].
    + replace a with (large_length b + Z.of_nat (Z.to_nat (a - large_length b))) by lia. apply disk_write_in. apply lookup_replicate_2. lia.
    + rewrite disk_write_out by (rewrite length_zeros; lia). unfold mremap. rewrite Z.min_l by lia. rewrite decide_False by (unfold e in *; lia). done.
Qed.

Lemma resize_for_reuse_spec_witness :
  ∃ b', resize_for_reuse (mkLargeBuffer 70000000 (λ _, Byte.x07)) 90000000 true = Some b' ∧ mapping b' 70000001 = Byte.x00.
Proof.
  eexists. split; [reflexivity|].
  apply (resize_for_reuse_spec (mkLargeBuffer 70000000 (λ _, Byte.x07)) 90000000); [reflexivity|reflexivity|reflexivity|cbn; lia].
Defined.

(** ** Invariant *)
Definition out_bytes (i : nat) (out : list AlignedBuffer) : Z :=
  zsum (λ b, if decide (bucket_index (capacity_of b) = i) then capacity_of b else 0) out.

(** Fixed buffers have one of the fixed sizes, large ones are larger. *)
Definition memory_ok (m : BufferMemory) : Prop :=
  match m with
  | FixedMemory size => BUFFER_SIZES !! bucket_index size = Some size
  | LargeMemory b => MAX_FIXED_BUFFER_BYTES < large_length b
  end.

Lemma memory_ok_capacity m : memory_ok m → 0 < memory_capacity m.
Proof. destruct m as [size|b]; cbn; [intros [_ ?]%bucket_of_size; lia|unfold MAX_FIXED_BUFFER_BYTES; lia]. Qed.

Record pool_core (p : BufferPool) (out : list AlignedBuffer) : Prop := mkPoolCore {
  pc_buckets : length (idle_buffers p) = BUCKET_COUNT;
  pc_bucket : ∀ i l b, idle_buffers p !! i = Some l → b ∈ l → bucket_index (capacity_of b) = i ∧ memory_ok (memory b);
  pc_idle : idle_bytes p = zsum (zsum capacity_of) (idle_buffers p);
  pc_used_gauge : used_gauge (pool_metrics p) = used_bytes p + idle_bytes p;
  pc_idle_gauge : idle_buffer_bytes (pool_metrics p) = zsum capacity_of <$> idle_buffers p;
  pc_out_gauge : used_buffer_bytes (pool_metrics p) = (λ i, out_bytes i out) <$> seq 0 BUCKET_COUNT;
  pc_out : Forall (λ b, pooled b = true ∧ memory_ok (memory b) ∧ exposed_length b ≤ capacity_of b) out
}.
(** Idle buffers only use what cached objects leave. *)
Definition pool_ok (p : BufferPool) (out : list AlignedBuffer) : Prop :=
  pool_core p out ∧ idle_bytes p ≤ saturating_sub (pool_capacity p) (used_bytes p).

Lemma out_bytes_cons i b out : out_bytes i (b :: out) = (if decide (bucket_index (capacity_of b) = i) then capacity_of b else 0) + out_bytes i out.
Proof. apply zsum_cons. Qed.

Lemma out_gauge_add index n out out' :
  (∀ i, (i < BUCKET_COUNT)%nat → out_bytes i out' = out_bytes i out + (if decide (index = i) then n else 0)) →
  add_at index n ((λ i, out_bytes i out) <$> seq 0 BUCKET_COUNT) = (λ i, out_bytes i out') <$> seq 0 BUCKET_COUNT.
Proof.
  intros Hout. apply list_eq. intros i. unfold add_at. rewrite list_lookup_alter, !list_lookup_fmap.
  destruct (decide (i < BUCKET_COUNT)%nat) as [Hi|Hi].
  - specialize (Hout i Hi). destruct (decide (index = i)) as [->|Hne]; rewrite !lookup_seq_lt by exact Hi;
      rewrite Nat.add_0_l; cbn [fmap option_fmap option_map]; rewrite Hout; f_equal; lia.
  - destruct (decide (index = i)) as [->|Hne]; by rewrite !lookup_seq_ge by lia.
Qed.

Lemma zsum_fmap_alter (f : AlignedBuffer → Z) (bs : list (list AlignedBuffer)) i l l' :
  bs !! i = Some l → zsum f <$> <[i := l']> bs = add_at i (zsum f l' - zsum f l) (zsum f <$> bs).
Proof.
  intros Hi. apply list_eq. intros j. unfold add_at. rewrite list_lookup_fmap, list_lookup_alter, !list_lookup_fmap.
  destruct (decide (i = j)) as [<-|Hne].
  - rewrite list_lookup_insert_eq by (by eapply lookup_lt_Some). rewrite Hi. cbn. f_equal. lia.
  - by rewrite list_lookup_insert_ne.
Qed.

Lemma take_idle_spec p out index :
  pool_core p out → (index < BUCKET_COUNT)%nat →
  match take_idle_buffer p index with
  | Some (b, p') => pool_core p' out ∧ bucket_index (capacity_of b) = index ∧ memory_ok (memory b)
      ∧ idle_bytes p' = idle_bytes p - capacity_of b ∧ pool_capacity p' = pool_capacity p ∧ used_bytes p' = used_bytes p
      ∧ ∃ l, idle_buffers p !! index = Some (l ++ [b]) ∧ idle_buffers p' = <[index := l]> (idle_buffers p)
  | None => idle_buffers p !! index = Some []
  end.
Proof.
  intros Hok Hi. unfold take_idle_buffer. destruct Hok as [Hlen Hb Hid Hug Hig Hog Hout].
  destruct (lookup_lt_is_Some_2 (idle_buffers p) index ltac:(lia)) as [l Hl]. rewrite Hl. cbn [mbind option_bind].
  destruct (last l) as [b|] eqn:Hlast; cbn [mbind option_bind]; [|by apply last_None in Hlast as ->].
  assert (Hsplit := last_take_pred _ _ Hlast). set (l0 := take (pred (length l)) l) in *. rewrite Hsplit in Hl.
  destruct (Hb index _ b Hl) as [Hbi Hpos]; [apply elem_of_app; right; left|].
  assert (Hz : zsum capacity_of l0 - zsum capacity_of (l0 ++ [b]) = - capacity_of b) by (autorewrite with sums; lia).
  split_and!; try done; [|exists l0; split; [by rewrite <-Hsplit|done]]. split; cbn; try done.
  - by rewrite length_insert.
  - intros i l' b' Hi' Hb'. destruct (decide (i = index)) as [->|Hne].
    + rewrite list_lookup_insert_eq in Hi' by (by eapply lookup_lt_Some). injection Hi' as <-. apply (Hb _ _ _ Hl). apply elem_of_app. by left.
    + rewrite list_lookup_insert_ne in Hi' by done. by apply (Hb _ _ _ Hi').
  - rewrite (zsum_insert _ _ _ _ l0 Hl), Hid. lia.
  - lia.
  - rewrite (zsum_fmap_alter capacity_of _ _ _ l0 Hl), Hz, Hig. done.
Qed.

Lemma free_bucket_spec fuel : ∀ p out index rc,
  pool_core p out → (index < BUCKET_COUNT)%nat → (length (default [] (idle_buffers p !! index)) ≤ fuel)%nat →
  let p' := free_bucket fuel p index rc in
  pool_core p' out ∧ pool_capacity p' = pool_capacity p ∧ used_bytes p' = used_bytes p ∧ (idle_bytes p' ≤ rc ∨ idle_buffers p' !! index = Some [])
  ∧ idle_bytes p' ≤ idle_bytes p ∧ ∀ j, j ≠ index → idle_buffers p' !! j = idle_buffers p !! j.
Proof.
  induction fuel as [|fuel IH]; intros p out index rc Hok Hi Hlen; cbn [free_bucket].
  { split_and!; try done. right. destruct (lookup_lt_is_Some_2 (idle_buffers p) index) as [l Hl]; [rewrite (pc_buckets _ _ Hok); lia|].
    rewrite Hl in *. cbn in Hlen. destruct l; [done|cbn in Hlen; lia]. }
  destruct (Z.ltb_spec rc (idle_bytes p)); [|split_and!; try done; by left].
  pose proof (take_idle_spec p out index Hok Hi) as Hspec. destruct (take_idle_buffer p index) as [[b p1]|]; [|split_and!; try done; by right].
  destruct Hspec as (Hok1 & _ & Hpos%memory_ok_capacity & Hid & Hcap & Hused & l & Hl & Hl1).
  destruct (IH p1 out index rc Hok1 Hi) as (Hok' & Hcap' & Hused' & Hor & Hle & Hother).
  { rewrite Hl1, list_lookup_insert_eq by (by eapply lookup_lt_Some). rewrite Hl in Hlen. cbn in *. rewrite length_app in Hlen. cbn in Hlen. lia. }
  unfold capacity_of in *. split_and!; try done; try congruence; [lia|]. intros j Hj. rewrite Hother by done. rewrite Hl1. by apply list_lookup_insert_ne.
Qed.

Lemma free_buckets_spec n : ∀ p out rc,
  pool_core p out → (n ≤ BUCKET_COUNT)%nat → (∀ j, (n ≤ j < BUCKET_COUNT)%nat → idle_bytes p ≤ rc ∨ idle_buffers p !! j = Some []) →
  let p' := free_buckets n p rc in
  pool_core p' out ∧ pool_capacity p' = pool_capacity p ∧ used_bytes p' = used_bytes p
  ∧ (idle_bytes p' ≤ rc ∨ ∀ j, (j < BUCKET_COUNT)%nat → idle_buffers p' !! j = Some []).
Proof.
  induction n as [|index IH]; intros p out rc Hok Hn Hinv; cbn [free_buckets].
  { split_and!; try done. destruct (decide (idle_bytes p ≤ rc)); [by left|right]. intros j Hj. destruct (Hinv j) as [?|?]; [lia|lia|done]. }
  destruct (free_bucket_spec (length (default [] (idle_buffers p !! index))) p out index rc Hok ltac:(lia) ltac:(done)) as (Hok1 & Hcap & Hused & Hor & Hle & Hother).
  destruct (IH (free_bucket (length (default [] (idle_buffers p !! index))) p index rc) out rc Hok1 ltac:(lia)) as (Hok' & Hcap' & Hused' & Hfin).
  { intros j Hj. destruct (decide (j = index)) as [->|Hne]; [done|]. destruct (Hinv j ltac:(lia)) as [?|?]; [left; lia|right; by rewrite Hother]. }
  split_and!; try done; congruence.
Qed.

Lemma all_empty_idle p out : pool_core p out → (∀ j, (j < BUCKET_COUNT)%nat → idle_buffers p !! j = Some []) → idle_bytes p = 0.
Proof.
  intros Hok He. rewrite (pc_idle _ _ Hok). assert (Hall : idle_buffers p = replicate BUCKET_COUNT []); [|by rewrite Hall].
  apply list_eq. intros j. destruct (decide (j < BUCKET_COUNT)%nat); [rewrite He, lookup_replicate_2 by done; done|].
  rewrite !lookup_ge_None_2; [done|rewrite length_replicate; lia|rewrite (pc_buckets _ _ Hok); lia].
Qed.

Lemma allocate_spec p out len answer :
  pool_core p out → 0 ≤ len →
  match allocate_buffer p len answer with
  | (p', Some b) => pool_core p' (b :: out) ∧ idle_bytes p' ≤ idle_bytes p ∧ pool_capacity p' = pool_capacity p ∧ used_bytes p' = used_bytes p
      ∧ exposed_length b = len ∧ len ≤ capacity_of b ∧ capacity_of b < Z.max (allocation_capacity len + 1) (len + div_ceil len 10)
  | (p', None) => pool_core p' out ∧ idle_bytes p' ≤ idle_bytes p ∧ pool_capacity p' = pool_capacity p ∧ used_bytes p' = used_bytes p ∧ answer = false
  end.
Proof.
  intros Hok Hlen. destruct (allocation_capacity_spec len Hlen) as (Hfit & Hbi & Hpos & Hbig & Hlarge). unfold allocate_buffer.
  assert (Hidx : (bucket_index len < BUCKET_COUNT)%nat) by (destruct (bucket_index_spec len) as [? _]; change BUCKET_COUNT with 15%nat; lia).
  pose proof (take_idle_spec p out _ Hok Hidx) as Hspec.
  set (pm := match take_idle_buffer p (bucket_index len) with Some _ => _ | None => _ end).
  assert (Hpm : ∃ p1 m, pm = (p1, m) ∧ pool_core p1 out ∧ idle_bytes p1 ≤ idle_bytes p ∧ pool_capacity p1 = pool_capacity p ∧ used_bytes p1 = used_bytes p
    ∧ match m with
      | Some m => memory_ok m ∧ bucket_index (memory_capacity m) = bucket_index len ∧ len ≤ memory_capacity m < Z.max (allocation_capacity len + 1) (len + div_ceil len 10)
      | None => answer = false
      end).
  { unfold pm. destruct (take_idle_buffer p (bucket_index len)) as [[b p1]|].
    - destruct Hspec as (Hok1 & Hb & Hmem & Hid & Hcap & Hused & _). assert (Hc := memory_ok_capacity _ Hmem). eexists p1, _. split; [done|].
      split_and!; try done; [unfold capacity_of in *; lia|]. unfold capacity_of in Hb. destruct (memory b) as [size|lb]; cbn in *.
      + assert (Hsize : allocation_capacity len = size) by (unfold allocation_capacity; by rewrite <-Hb, Hmem). split_and!; try done; lia.
      + assert (Hl : MAX_FIXED_BUFFER_BYTES < len) by (apply (bucket_index_spec len); rewrite <-Hb; by apply (bucket_index_spec _)).
        rewrite (Hlarge Hl) in *. unfold resize_for_reuse. pose proof (div_ceil_mul len 10 ltac:(done)). destruct (_ && _) eqn:Hk.
        * apply andb_true_iff in Hk as [?%Z.leb_le ?%Z.ltb_lt]. cbn. split_and!; try done; lia.
        * destruct answer; [|done]. cbn. split_and!; try done; lia.
    - eexists p, _. split; [done|]. split_and!; try done. unfold allocate_zeroed. destruct answer; [|done]. cbn.
      destruct (Z.ltb_spec MAX_FIXED_BUFFER_BYTES (allocation_capacity len)); cbn; (split_and!; [|done|lia|lia]).
      + done.
      + rewrite Hbi. unfold allocation_capacity in *. destruct (BUFFER_SIZES !! bucket_index len) as [s|] eqn:Hs; [done|].
        cbn in *. unfold id in *. assert (bucket_index len = 14%nat).
        { apply lookup_ge_None in Hs. change (length BUFFER_SIZES) with 14%nat in Hs. destruct (bucket_index_spec len) as [? _]. lia. }
        assert (MAX_FIXED_BUFFER_BYTES < len) by (by apply (bucket_index_spec len)). lia. }
  destruct Hpm as (p1 & m & -> & Hok1 & Hid & Hcap & Hused & Hm). destruct m as [m|]; [|by split_and!].
  destruct Hm as (Hmem & Hmb & Hml). split_and!; try done; unfold capacity_of; cbn [memory]; try lia. destruct Hok1 as [? ? ? ? ? Hog Hout]. split; cbn; try done.
  - rewrite Hog. apply out_gauge_add. intros i Hi. rewrite out_bytes_cons. unfold capacity_of. cbn [memory].
    destruct (decide (bucket_index (memory_capacity m) = i)), (decide (bucket_index len = i)); congruence || lia.
  - apply Forall_cons. split; [|done]. split_and!; [done|done|]. unfold capacity_of. cbn. lia.
Qed.

Lemma drop_buffer_spec p b out1 out2 :
  pool_ok p (out1 ++ b :: out2) → pool_ok (drop_buffer p b) (out1 ++ out2).
Proof.
  intros [[Hlen Hb Hid Hug Hig Hog Hout] Hlim]. unfold drop_buffer. rewrite Forall_app, Forall_cons in Hout. destruct Hout as (Ho1 & (Hp & Hmem & Hexp) & Ho2). rewrite Hp.
  assert (Hlt : (bucket_index (capacity_of b) < BUCKET_COUNT)%nat) by (destruct (bucket_index_spec (capacity_of b)) as [? _]; change BUCKET_COUNT with 15%nat; lia).
  assert (Hgauge : add_at (bucket_index (capacity_of b)) (- capacity_of b) (used_buffer_bytes (pool_metrics p)) = (λ i, out_bytes i (out1 ++ out2)) <$> seq 0 BUCKET_COUNT).
  { rewrite Hog. apply out_gauge_add. intros i Hi. unfold out_bytes. rewrite !zsum_app, zsum_cons. case_decide; lia. }
  assert (Hrest : Forall (λ b, pooled b = true ∧ memory_ok (memory b) ∧ exposed_length b ≤ capacity_of b) (out1 ++ out2)) by (by apply Forall_app).
  destruct (Z.leb_spec (idle_bytes p + capacity_of b) (saturating_sub (pool_capacity p) (used_bytes p))); [|by split; [split|]].
  destruct (lookup_lt_is_Some_2 (idle_buffers p) (bucket_index (capacity_of b)) ltac:(lia)) as [l Hl].
  set (b' := mkAlignedBuffer (memory b) (exposed_length b) false). assert (Hz : zsum capacity_of (l ++ [b']) = zsum capacity_of l + capacity_of b) by (autorewrite with sums; unfold capacity_of; cbn; lia).
  split; [|done]. split; cbn; try done.
  - by rewrite length_alter.
  - intros i l' x Hi Hx. rewrite list_lookup_alter in Hi. case_decide as Heq; [|by apply (Hb _ _ _ Hi)]. subst i. rewrite Hl in Hi. injection Hi as <-.
    apply elem_of_app in Hx as [Hx| ->%list_elem_of_singleton]; [by apply (Hb _ _ _ Hl)|by unfold capacity_of].
  - rewrite (zsum_alter _ _ _ _ _ Hl), Hid. fold b'. lia.
  - lia.
  - rewrite Hig. apply list_eq. intros j. unfold add_at. rewrite list_lookup_alter, !list_lookup_fmap, list_lookup_alter.
    destruct (decide (bucket_index (capacity_of b) = j)) as [<-|]; [|done]. rewrite Hl. cbn. f_equal. fold b'. lia.
Qed.

Lemma add_used_spec p out bytes : pool_ok p out → 0 ≤ bytes → pool_ok (add_used_bytes p bytes) out ∧ used_bytes (add_used_bytes p bytes) = used_bytes p + bytes ∧ pool_capacity (add_used_bytes p bytes) = pool_capacity p.
Proof.
  intros [[] Hlim] Hb. unfold add_used_bytes. set (p1 := mkBufferPool _ _ _ _ _). assert (Hok1 : pool_core p1 out) by (split; cbn; try done; lia).
  destruct (free_buckets_spec BUCKET_COUNT p1 out (saturating_sub (pool_capacity p1) (used_bytes p1)) Hok1 ltac:(done) ltac:(lia)) as (Hok' & Hcap & Hused & Hfin).
  split; [|done]. split; [done|]. rewrite Hcap, Hused. destruct Hfin as [?|He]; [done|]. rewrite (all_empty_idle _ _ Hok' He). unfold saturating_sub. lia.
Qed.

Lemma remove_used_spec p out bytes :
  pool_ok p out → 0 ≤ bytes ≤ used_bytes p →
  ∃ p', remove_used_bytes p bytes = Done p' ∧ pool_ok p' out ∧ used_bytes p' = used_bytes p - bytes ∧ pool_capacity p' = pool_capacity p.
Proof.
  intros [[] Hlim] Hb. unfold remove_used_bytes. rewrite (proj2 (Z.leb_le _ _)) by lia. cbn [assert_that mbind outcome_bind]. eexists. split; [done|].
  split; [|done]. split; [split; cbn; try done; lia|]. unfold saturating_sub in *. cbn. lia.
Qed.

(** ** Any use of the pool *)
Inductive pool_step : BufferPool * list AlignedBuffer → BufferPool * list AlignedBuffer → Prop :=
  | pool_allocate p out len answer p' b :
      0 ≤ len → allocate_buffer p len answer = (p', Some b) → pool_step (p, out) (p', b :: out)
  | pool_allocation_failed p out len answer p' :
      0 ≤ len → allocate_buffer p len answer = (p', None) → pool_step (p, out) (p', out)
  | pool_drop p out1 b out2 : pool_step (p, out1 ++ b :: out2) (drop_buffer p b, out1 ++ out2)
  | pool_charge p out bytes : 0 ≤ bytes → pool_step (p, out) (add_used_bytes p bytes, out)
  | pool_uncharge p out bytes p' : 0 ≤ bytes → remove_used_bytes p bytes = Done p' → pool_step (p, out) (p', out).

Lemma pool_step_ok s s' : pool_step s s' → pool_ok s.1 s.2 → pool_ok s'.1 s'.2 ∧ pool_capacity s'.1 = pool_capacity s.1.
Proof.
  destruct 1 as [p out len answer p' b Hlen Ha|p out len answer p' Hlen Ha|p out1 b out2|p out bytes Hb|p out bytes p' Hb Hrun]; cbn; intros Hok.
  - pose proof (allocate_spec p out len answer (proj1 Hok) Hlen) as Hs. rewrite Ha in Hs. destruct Hs as (Hc & Hid & Hcap & Hused & _).
    split; [|done]. split; [done|]. destruct Hok. rewrite Hcap, Hused. lia.
  - pose proof (allocate_spec p out len answer (proj1 Hok) Hlen) as Hs. rewrite Ha in Hs. destruct Hs as (Hc & Hid & Hcap & Hused & _).
    split; [|done]. split; [done|]. destruct Hok. rewrite Hcap, Hused. lia.
  - split; [by apply drop_buffer_spec|]. unfold drop_buffer. by repeat case_match.
  - destruct (add_used_spec p out bytes Hok Hb) as (? & _ & ?). done.
  - assert (Hle : bytes ≤ used_bytes p) by (unfold remove_used_bytes in Hrun; by destruct (Z.leb_spec bytes (used_bytes p))).
    destruct (remove_used_spec p out bytes Hok (conj Hb Hle)) as (p1 & Hrun1 & ? & _ & ?). rewrite Hrun in Hrun1. injection Hrun1 as <-. done.
Qed.

Lemma new_pool_ok capacity : pool_ok (new_pool capacity) [].
Proof.
  split; [|cbn; unfold saturating_sub; lia]. split; try done. cbn. intros i l b Hl Hb.
  assert (l = []) as ->; [|by apply elem_of_nil in Hb]. apply (list_elem_of_lookup_2) in Hl. change (l ∈ replicate BUCKET_COUNT ([] : list AlignedBuffer)) in Hl.
  by apply elem_of_replicate in Hl as [-> _].
Qed.

Lemma pool_reachable capacity p out : rtc pool_step (new_pool capacity, []) (p, out) → pool_ok p out ∧ pool_capacity p = capacity.
Proof.
  intros Hr. remember (new_pool capacity, []) as s eqn:Hs. remember (p, out) as s' eqn:Hs'.
  assert (Hinit : pool_ok s.1 s.2 ∧ pool_capacity s.1 = capacity) by (subst s; split; [apply new_pool_ok|done]). clear Hs. revert p out Hs'.
  induction Hr as [s|s1 s2 s3 Hstep _ IH]; intros p out Hs'; [by subst s|]. apply IH; [|done].
  destruct Hinit as [Hok Hcap]. destruct (pool_step_ok _ _ Hstep Hok) as [? ?]. split; [done|congruence].
Qed.

Lemma drop_pool_used p out : pool_core p out → used_gauge (drop_pool p) = used_bytes p ∧ capacity_gauge (drop_pool p) = capacity_gauge (pool_metrics p) - pool_capacity p.
Proof.
  intros Hok. unfold drop_pool. cbn [used_gauge capacity_gauge]. assert (Hfold : ∀ (l : list (nat * Z)) m,
    let m' := foldl (λ m ib, decrease_idle_buffer_metrics m ib.1 ib.2) m l in
    used_gauge m' = used_gauge m - zsum snd l ∧ capacity_gauge m' = capacity_gauge m).
  { induction l as [|x l IH]; intros m; cbn; [autorewrite with sums; lia|]. destruct (IH (decrease_idle_buffer_metrics m x.1 x.2)) as [-> ->].
    rewrite zsum_cons. cbn. lia. }
  destruct (Hfold (zip (seq 0 BUCKET_COUNT) (zsum capacity_of <$> idle_buffers p)) (pool_metrics p)) as [Hu ->]. split; [|done].
  assert (Hz : zsum snd (zip (seq 0 BUCKET_COUNT) (zsum capacity_of <$> idle_buffers p)) = zsum (zsum capacity_of) (idle_buffers p)).
  { transitivity (zsum id (zsum capacity_of <$> idle_buffers p)); [|by rewrite zsum_fmap].
    rewrite <-(snd_zip (seq 0 BUCKET_COUNT) (zsum capacity_of <$> idle_buffers p)) at 2; [by rewrite zsum_fmap|].
    rewrite length_fmap, length_seq, (pc_buckets _ _ Hok). done. }
  rewrite Hu, Hz, (pc_used_gauge _ _ Hok), (pc_idle _ _ Hok). lia.
Qed.

(** C38: after any sequence of allocations, drops and charges, idle buffers take at
    most the capacity that cached objects leave, the used-bytes gauge is exactly
    charged plus idle bytes, and each bucket's gauges are the bytes of its idle
    and checked-out buffers.  Every buffer handed out covers the requested length
    and wastes less than its bucket or a tenth.  Dropping the pool takes its idle
    bytes and its capacity out of the gauges. *)
Theorem buffer_pool_accounting capacity p out :
  rtc pool_step (new_pool capacity, []) (p, out) →
  idle_bytes p ≤ Z.max 0 (capacity - used_bytes p)
  ∧ used_gauge (pool_metrics p) = used_bytes p + zsum (zsum capacity_of) (idle_buffers p)
  ∧ idle_buffer_bytes (pool_metrics p) = zsum capacity_of <$> idle_buffers p
  ∧ used_buffer_bytes (pool_metrics p) = (λ i, out_bytes i out) <$> seq 0 BUCKET_COUNT
  ∧ used_gauge (drop_pool p) = used_bytes p
  ∧ ∀ len, 0 ≤ len → ∃ p' b, allocate_buffer p len true = (p', Some b) ∧ exposed_length b = len
      ∧ len ≤ capacity_of b < Z.max (allocation_capacity len + 1) (len + div_ceil len 10).
Proof.
  intros [[Hcore Hlim] Hcap]%pool_reachable. destruct Hcore as [? ? Hid Hug Hig Hog Hout] eqn:Hc. clear Hc. split_and!; try done.
  - rewrite <-Hcap. exact Hlim.
  - by rewrite Hug, Hid.
  - apply (drop_pool_used _ _ Hcore).
  - intros len Hlen. pose proof (allocate_spec p out len true Hcore Hlen) as Hs. destruct (allocate_buffer p len true) as [p' [b|]]; [|by destruct Hs as (_ & _ & _ & _ & ?)].
    destruct Hs as (_ & _ & _ & _ & ? & ? & ?). by exists p', b.
Qed.

(** A buffer of 5000 bytes that was returned. *)
Definition sample_pool : BufferPool :=
  let '(p, b) := allocate_buffer (new_pool 1000000) 5000 true in match b with Some b => drop_buffer p b | None => p end.

Lemma buffer_pool_accounting_witness : idle_bytes sample_pool = 32768 ∧ idle_bytes sample_pool ≤ Z.max 0 (1000000 - used_bytes sample_pool).
Proof.
  split; [reflexivity|]. refine (proj1 (buffer_pool_accounting 1000000 sample_pool [] _)).
  eapply rtc_l; [exact (pool_allocate (new_pool 1000000) [] 5000 true _ _ ltac:(lia) eq_refl)|].
  eapply rtc_l; [exact (pool_drop _ [] _ [])|]. reflexivity.
Defined.
