(* ===== verification/MemoryStore.v ===== *)
(** * The memory cache ([feuer-memory/src/store.rs], [store/shard.rs])

    Objects are kept in shards chosen by a hash of their key.  Each shard evicts
    sampled entries against its share of the capacity before it inserts; the
    charged bytes of all shards and the idle buffers share the buffer pool's
    accounting.  FxHash is a parameter.  An insertion runs its eviction rounds without
    other threads in the shard between them, where the source gives up the lock. *)

From S2P Require Import Prelude Codec Disk Float64 Retention EntryIndex BufferPool.

(** [MemoryEntry] *)
Record MemoryEntry := mkMemoryEntry { mem_bytes : list byte; allocation_charge : Z; candidate_index : nat }.
Global Instance MemoryEntry_positioned : Positioned MemoryEntry := {|
  entry_position := candidate_index;
  with_position i e := mkMemoryEntry (mem_bytes e) (allocation_charge e) i
|}.
Global Instance MemoryEntry_positioned_ok : PositionedOk MemoryEntry.
Proof. by split. Qed.

(** The counters and the entry gauge of [MemoryMetrics]. *)
Record MemoryCounters := mkMemoryCounters {
  insertions : Z; redundant_insertions : Z; removals : Z; eviction_insertions : Z; entry_gauge : Z
}.
(** What all shards share. *)
Record MemoryShared := mkMemoryShared { pool : BufferPool; memory_counters : MemoryCounters }.
Definition count_entry (n : Z) (c : MemoryCounters) : MemoryCounters :=
  mkMemoryCounters (insertions c) (redundant_insertions c) (removals c) (eviction_insertions c) (entry_gauge c + n).

(** [InsertResult] *)
Inductive InsertResult := Inserted | AlreadyPresent | EvictedButDidNotInsert.

(** [MemoryCacheShard] *)
Record MemoryCacheShard := mkMemoryCacheShard {
  shard_capacity : Z;
  shard_used_bytes : Z;
  mem_entries : gmap Z MemoryEntry;
  mem_candidates : list Z;
  mem_next_sample_start : nat
}.
Definition new_memory_shard (capacity : Z) : MemoryCacheShard := mkMemoryCacheShard capacity 0 ∅ [] 0.

(** [MemoryCacheShard::get] and [contains_entry] *)
Definition shard_get (sh : MemoryCacheShard) (key : Z) : option (list byte) := mem_bytes <$> mem_entries sh !! key.
Definition shard_contains_entry (sh : MemoryCacheShard) (key : Z) : bool := bool_decide (is_Some (mem_entries sh !! key)).

(** [MemoryCacheShard::add_entry] *)
Definition add_entry (sh : MemoryCacheShard) (s : MemoryShared) (key : Z) (bytes : list byte) (charge : Z) : MemoryCacheShard * MemoryShared :=
  let '(m, candidates) := index_push (mem_entries sh) (mem_candidates sh) key (mkMemoryEntry bytes charge (length (mem_candidates sh))) in
  (mkMemoryCacheShard (shard_capacity sh) (shard_used_bytes sh + charge) m candidates (mem_next_sample_start sh),
   mkMemoryShared (add_used_bytes (pool s) charge) (count_entry 1 (memory_counters s))).

(** [MemoryCacheShard::remove_entry] and [remove] *)
Definition remove_memory_entry (sh : MemoryCacheShard) (s : MemoryShared) (key : Z) : outcome (MemoryCacheShard * MemoryShared * bool) :=
  taken ← index_take (mem_entries sh) (mem_candidates sh) key;
  match taken with
  | None => Done (sh, s, false)
  | Some (e, m, candidates) =>
      _ ← assert_that (allocation_charge e <=? shard_used_bytes sh);
      p ← remove_used_bytes (pool s) (allocation_charge e);
      Done (mkMemoryCacheShard (shard_capacity sh) (shard_used_bytes sh - allocation_charge e) m candidates (mem_next_sample_start sh),
            mkMemoryShared p (count_entry (-1) (memory_counters s)), true)
  end.
Definition shard_remove (sh : MemoryCacheShard) (s : MemoryShared) (key : Z) : outcome (MemoryCacheShard * MemoryShared * bool) :=
  '(sh, s, removed) ← remove_memory_entry sh s key;
  let c := memory_counters s in
  Done (sh, if removed : bool
            then mkMemoryShared (pool s) (mkMemoryCounters (insertions c) (redundant_insertions c) (removals c + 1) (eviction_insertions c) (entry_gauge c))
            else s, removed).

(** Scores of a sample, and the order among them. *)
Fixpoint score_memory_sample `{RetentionScorer H} (histories : H) (m : gmap Z MemoryEntry) (keys : list Z) : outcome (list (f64 * Z)) :=
  match keys with
  | [] => Done []
  | key :: keys =>
      e ← unwrap (m !! key);
      rest ← score_memory_sample histories m keys;
      Done ((score histories key (Z.of_nat (length (mem_bytes e))), key) :: rest)
  end.
Definition compare_scored (a b : f64 * Z) : comparison :=
  match total_cmp a.1 b.1 with Eq => a.2 ?= b.2 | c => c end.

Section store.
Context `{RetentionScorer H} (histories : H) (reclaim_sample_size : nat) (hash_one : Z → Z).

(** [MemoryCacheShard::try_insert] *)
Definition try_insert (sh : MemoryCacheShard) (s : MemoryShared) (key : Z) (bytes : list byte) (charge : Z)
  : outcome (MemoryCacheShard * MemoryShared * InsertResult) :=
  let c := memory_counters s in
  if shard_contains_entry sh key then
    Done (sh, mkMemoryShared (pool s) (mkMemoryCounters (insertions c) (redundant_insertions c + 1) (removals c) (eviction_insertions c) (entry_gauge c)), AlreadyPresent)
  else
    let remaining_capacity := saturating_sub (shard_capacity sh) charge in
    if shard_used_bytes sh <=? remaining_capacity then
      let '(sh, s) := add_entry sh s key bytes charge in
      let c := memory_counters s in
      Done (sh, mkMemoryShared (pool s) (mkMemoryCounters (insertions c + 1) (redundant_insertions c) (removals c) (eviction_insertions c) (entry_gauge c)), Inserted)
    else
      let '(start, keys) := sample_candidates (mem_next_sample_start sh) (mem_candidates sh) reclaim_sample_size in
      let sh := mkMemoryCacheShard (shard_capacity sh) (shard_used_bytes sh) (mem_entries sh) (mem_candidates sh) start in
      scored ← score_memory_sample histories (mem_entries sh) keys;
      '(_, victim) ← unwrap (min_by compare_scored scored);
      '(sh, s, _) ← remove_memory_entry sh s victim;
      Done (sh, s, EvictedButDidNotInsert).

(** [MemoryCache] *)
Record MemoryCache := mkMemoryCache { memory_shards : list MemoryCacheShard; shared : MemoryShared }.

Definition shard_capacity_for (total_capacity : Z) (num_shards shard_index : nat) : Z :=
  total_capacity / Z.of_nat num_shards + (if Z.of_nat shard_index <? total_capacity mod Z.of_nat num_shards then 1 else 0).
Definition default_shard_count (capacity : Z) : nat := Z.to_nat (Z.max (capacity / (8 * 1024 * 1024 * 1024)) 1).

(** [MemoryCache::with_shard_count] and [with_metrics] *)
Definition with_shard_count (p : BufferPool) (num_shards : nat) : outcome MemoryCache :=
  _ ← assert_that (0 <? num_shards)%nat;
  Done (mkMemoryCache ((λ i, new_memory_shard (shard_capacity_for (pool_capacity p) num_shards i)) <$> seq 0 num_shards)
          (mkMemoryShared p (mkMemoryCounters 0 0 0 0 0))).
Definition memory_with_metrics (capacity : Z) : outcome MemoryCache := with_shard_count (new_pool capacity) (default_shard_count capacity).

Definition shard_index (c : MemoryCache) (key : Z) : nat := Z.to_nat (hash_one key mod Z.of_nat (length (memory_shards c))).

(** [MemoryCache::get], [contains_entry] and [remove] *)
Definition memory_get (c : MemoryCache) (key : Z) : outcome (option (list byte)) :=
  sh ← unwrap (memory_shards c !! shard_index c key); Done (shard_get sh key).
Definition memory_contains (c : MemoryCache) (key : Z) : outcome bool :=
  sh ← unwrap (memory_shards c !! shard_index c key); Done (shard_contains_entry sh key).
Definition memory_remove (c : MemoryCache) (key : Z) : outcome (MemoryCache * bool) :=
  sh ← unwrap (memory_shards c !! shard_index c key);
  '(sh, s, removed) ← shard_remove sh (shared c) key;
  Done (mkMemoryCache (<[shard_index c key := sh]> (memory_shards c)) s, removed).

(** The loop of [MemoryCache::insert]; each round that does not insert evicts an
    entry, so the shard's entries bound the rounds.  Running out of [fuel] is not
    an outcome of the source. *)
Fixpoint insert_loop (fuel : nat) (sh : MemoryCacheShard) (s : MemoryShared) (key : Z) (bytes : list byte) (charge : Z) (evicted_any_entry : bool)
  : outcome (MemoryCacheShard * MemoryShared * bool * bool) :=
  match fuel with
  | O => Panic
  | S fuel =>
      '(sh, s, res) ← try_insert sh s key bytes charge;
      match res with
      | Inserted => Done (sh, s, true, evicted_any_entry)
      | AlreadyPresent => Done (sh, s, false, evicted_any_entry)
      | EvictedButDidNotInsert => insert_loop fuel sh s key bytes charge true
      end
  end.
Definition memory_insert (c : MemoryCache) (key : Z) (bytes : list byte) (charge : Z) : outcome (MemoryCache * bool) :=
  _ ← assert_that (Z.of_nat (length bytes) <=? charge);
  sh ← unwrap (memory_shards c !! shard_index c key);
  '(sh, s, inserted, evicted) ← insert_loop (S (length (mem_candidates sh))) sh (shared c) key bytes charge false;
  let n := memory_counters s in
  let s := if evicted : bool
           then mkMemoryShared (pool s) (mkMemoryCounters (insertions n) (redundant_insertions n) (removals n) (eviction_insertions n + 1) (entry_gauge n))
           else s in
  Done (mkMemoryCache (<[shard_index c key := sh]> (memory_shards c)) s, inserted).
End store.

(** [impl Drop for MemoryCacheShard] *)
Definition drop_memory_shard (sh : MemoryCacheShard) (s : MemoryShared) : outcome MemoryShared :=
  p ← remove_used_bytes (pool s) (shard_used_bytes sh);
  Done (mkMemoryShared p (count_entry (- Z.of_nat (length (mem_candidates sh))) (memory_counters s))).

(** ** Invariant *)
Definition charge_of (_ : Z) (e : MemoryEntry) : Z := allocation_charge e.

Record mem_shard_ok (sh : MemoryCacheShard) : Prop := mkMemShardOk {
  ms_index : index_ok (mem_entries sh) (mem_candidates sh);
  ms_used : shard_used_bytes sh = msum charge_of (mem_entries sh);
  ms_charges : ∀ k e, mem_entries sh !! k = Some e → Z.of_nat (length (mem_bytes e)) ≤ allocation_charge e
}.

(** The shards account for the pool's charged bytes and for the entry gauge. *)
Record memory_ok (out : list AlignedBuffer) (c : MemoryCache) : Prop := mkMemoryOk {
  mo_shards : Forall mem_shard_ok (memory_shards c);
  mo_pool : pool_ok (pool (shared c)) out;
  mo_used : used_bytes (pool (shared c)) = zsum shard_used_bytes (memory_shards c);
  mo_entries : entry_gauge (memory_counters (shared c)) = zsum (λ sh, Z.of_nat (length (mem_candidates sh))) (memory_shards c)
}.

Lemma used_nonneg sh : mem_shard_ok sh → 0 ≤ shard_used_bytes sh.
Proof. intros [_ -> Hc]. apply msum_nonneg. intros k e He. specialize (Hc k e He). unfold charge_of. lia. Qed.

Lemma shard_used_le out c i sh : memory_ok out c → memory_shards c !! i = Some sh → shard_used_bytes sh ≤ used_bytes (pool (shared c)).
Proof.
  intros [Hsh _ -> _] Hi. rewrite Forall_forall in Hsh. apply (zsum_elem_le shard_used_bytes); [|by eapply list_elem_of_lookup_2]. intros x Hx. by apply used_nonneg, Hsh.
Qed.

(** Changes of the shared state that match those of a shard. *)
Definition balanced (out : list AlignedBuffer) (sh sh' : MemoryCacheShard) (s s' : MemoryShared) : Prop :=
  pool_ok (pool s') out ∧ pool_capacity (pool s') = pool_capacity (pool s) ∧ shard_capacity sh' = shard_capacity sh
  ∧ used_bytes (pool s') - used_bytes (pool s) = shard_used_bytes sh' - shard_used_bytes sh
  ∧ entry_gauge (memory_counters s') - entry_gauge (memory_counters s)
    = Z.of_nat (length (mem_candidates sh')) - Z.of_nat (length (mem_candidates sh)).

Lemma balanced_trans out sh1 sh2 sh3 s1 s2 s3 : balanced out sh1 sh2 s1 s2 → balanced out sh2 sh3 s2 s3 → balanced out sh1 sh3 s1 s3.
Proof. intros (?&?&?&?&?) (?&?&?&?&?). split_and!; try done; try congruence; lia. Qed.

Lemma unplaced_mem (e e' : MemoryEntry) : unplaced e = unplaced e' → mem_bytes e = mem_bytes e' ∧ allocation_charge e = allocation_charge e'.
Proof. unfold unplaced. cbn. intros [= -> ->]. done. Qed.

Lemma remove_memory_spec out sh s key e :
  mem_shard_ok sh → pool_ok (pool s) out → shard_used_bytes sh ≤ used_bytes (pool s) → mem_entries sh !! key = Some e →
  ∃ sh' s', remove_memory_entry sh s key = Done (sh', s', true) ∧ mem_shard_ok sh' ∧ balanced out sh sh' s s'
    ∧ S (length (mem_candidates sh')) = length (mem_candidates sh) ∧ shard_get sh' key = None
    ∧ (∀ k, k ≠ key → shard_get sh' k = shard_get sh k)
    ∧ (∀ n r i x g, memory_counters s = mkMemoryCounters n r i x g → memory_counters s' = mkMemoryCounters n r i x (g - 1)).
Proof.
  intros [Hix Hu Hch] Hp Hle He. unfold remove_memory_entry.
  destruct (index_take_spec _ _ _ _ Hix He) as (m' & cs' & -> & Hix' & Hsame). cbn [mbind outcome_bind].
  assert (Hsize : S (length cs') = length (mem_candidates sh)).
  { rewrite (index_ok_size _ _ Hix'), (index_ok_size _ _ Hix), (same_entries_size _ _ Hsame), map_size_delete_Some by eauto.
    assert (size (mem_entries sh) ≠ 0%nat); [|lia]. apply map_size_ne_0_lookup. eauto. }
  assert (Hge : 0 ≤ allocation_charge e) by (specialize (Hch _ _ He); lia).
  assert (Hin : allocation_charge e ≤ shard_used_bytes sh).
  { rewrite Hu. pose proof (msum_delete charge_of _ _ _ He) as Hd. change (charge_of key e) with (allocation_charge e) in Hd.
    assert (Hnn : 0 ≤ msum charge_of (delete key (mem_entries sh))); [|lia]. apply msum_nonneg. intros k x [_ Hk]%lookup_delete_Some. specialize (Hch _ _ Hk). unfold charge_of. lia. }
  destruct (remove_used_spec (pool s) out (allocation_charge e) Hp ltac:(lia)) as (p' & Hrun & Hp' & Hu' & Hc').
  rewrite (proj2 (Z.leb_le _ _)) by done. cbn [assert_that mbind outcome_bind]. rewrite Hrun. cbn [mbind outcome_bind].
  eexists _, _. split; [done|]. split_and!.
  - split; cbn; [done| |].
    + rewrite (msum_unplaced charge_of _ _ ltac:(done) Hsame), (msum_delete _ _ _ _ He), Hu. done.
    + intros k e' Hk. destruct (same_entries_lookup _ _ _ _ Hsame Hk) as (e0 & Hk0 & Heq). apply lookup_delete_Some in Hk0 as [_ Hk0].
      apply unplaced_mem in Heq as [<- <-]. eauto.
  - split_and!; cbn; try done; lia.
  - done.
  - unfold shard_get. cbn. by rewrite (same_entries_None _ _ key Hsame (lookup_delete_eq _ _)).
  - intros k Hk. unfold shard_get. cbn. specialize (Hsame k). rewrite lookup_delete_ne in Hsame by done.
    destruct (m' !! k), (mem_entries sh !! k); cbn in *; try done. f_equal. injection Hsame as ->. done.
  - intros n r i x g Hc. cbn. rewrite Hc. done.
Qed.

Lemma add_entry_spec out sh s key bytes charge :
  mem_shard_ok sh → pool_ok (pool s) out → mem_entries sh !! key = None → Z.of_nat (length bytes) ≤ charge →
  let '(sh', s') := add_entry sh s key bytes charge in
  mem_shard_ok sh' ∧ balanced out sh sh' s s' ∧ shard_get sh' key = Some bytes ∧ (∀ k, k ≠ key → shard_get sh' k = shard_get sh k)
  ∧ shard_used_bytes sh' = shard_used_bytes sh + charge.
Proof.
  intros [Hix Hu Hch] Hp Hnone Hl. unfold add_entry, index_push. destruct (add_used_spec (pool s) out charge Hp ltac:(lia)) as (Hp' & Hu' & Hc').
  split_and!; cbn; try done.
  - split; cbn; [by apply (index_push_ok _ _ _ (mkMemoryEntry bytes charge (length (mem_candidates sh))) Hix)| |].
    + rewrite msum_insert by done. unfold charge_of at 1. cbn. lia.
    + intros k e [[<- <-]|[_ Hk]]%lookup_insert_Some; [done|eauto].
  - split_and!; cbn; try done; rewrite ?length_app; cbn; lia.
  - unfold shard_get. cbn. by rewrite lookup_insert_eq.
  - intros k Hk. unfold shard_get. cbn. by rewrite lookup_insert_ne.
Qed.

Section inserting.
Context `{RetentionScorer H} (histories : H) (reclaim_sample_size : nat) (hash_one : Z → Z).

Lemma score_memory_sample_spec m keys :
  (∀ k, k ∈ keys → is_Some (m !! k)) →
  ∃ scored, score_memory_sample histories m keys = Done scored ∧ scored.*2 = keys.
Proof.
  induction keys as [|k keys IH]; intros Hin; cbn; [by exists []|]. destruct (Hin k ltac:(left)) as [e He]. rewrite He. cbn [unwrap mbind outcome_bind].
  destruct IH as (scored & -> & Hk); [intros; apply Hin; by right|]. cbn [mbind outcome_bind]. eexists. split; [done|]. cbn. by rewrite Hk.
Qed.

(** A shard after an object of [charge] bytes was admitted: within its capacity, or
    the object alone exceeds the capacity and nothing else is charged. *)
Definition within_capacity (charge : Z) (sh : MemoryCacheShard) : Prop :=
  shard_used_bytes sh ≤ shard_capacity sh ∨ shard_capacity sh < charge ∧ shard_used_bytes sh = charge.

(** One attempt: the key is present, the object is added, or an entry goes. *)
Lemma try_insert_spec out sh s key bytes charge :
  mem_shard_ok sh → pool_ok (pool s) out → shard_used_bytes sh ≤ used_bytes (pool s) → Z.of_nat (length bytes) ≤ charge → (0 < reclaim_sample_size)%nat →
  ∃ sh' s' r, try_insert histories reclaim_sample_size sh s key bytes charge = Done (sh', s', r) ∧ mem_shard_ok sh' ∧ balanced out sh sh' s s'
    ∧ match r with
      | AlreadyPresent => is_Some (shard_get sh key) ∧ sh' = sh
      | Inserted => shard_get sh key = None ∧ shard_get sh' key = Some bytes ∧ (∀ k, k ≠ key → shard_get sh' k = shard_get sh k)
                    ∧ within_capacity charge sh'
      | EvictedButDidNotInsert => shard_get sh key = None ∧ S (length (mem_candidates sh')) = length (mem_candidates sh)
                    ∧ shard_get sh' key = None ∧ ∀ k, shard_get sh' k = shard_get sh k ∨ shard_get sh' k = None
      end.
Proof.
  intros Hok Hp Hle Hl Hsz. unfold try_insert, shard_contains_entry. destruct (mem_entries sh !! key) as [e|] eqn:Hkey.
  { rewrite bool_decide_eq_true_2 by eauto. eexists _, _, _. split; [done|]. unfold shard_get. rewrite Hkey. split_and!; eauto; [].
    split_and!; cbn; try done; lia. }
  rewrite bool_decide_eq_false_2 by (by intros []). assert (Hnone : shard_get sh key = None) by (unfold shard_get; by rewrite Hkey).
  destruct (Z.leb_spec (shard_used_bytes sh) (saturating_sub (shard_capacity sh) charge)) as [Hfit|Hfull].
  - pose proof (add_entry_spec out sh s key bytes charge Hok Hp Hkey Hl) as Hadd. destruct (add_entry sh s key bytes charge) as [sh' s'].
    destruct Hadd as (Hok' & (Hb1 & Hb2 & Hb3 & Hb4 & Hb5) & Hget & Hothers & Hused). eexists _, _, _. split; [done|].
    split_and!; try done; try (split_and!; try done; cbn; lia).
    unfold within_capacity. rewrite Hused, Hb3. pose proof (used_nonneg sh Hok). unfold saturating_sub in Hfit. lia.
  - destruct (sample_candidates _ _ _) as [start keys] eqn:Hs.
    assert (Hkeys : keys = (sample_candidates (mem_next_sample_start sh) (mem_candidates sh) reclaim_sample_size).2) by (by rewrite Hs).
    set (sh0 := mkMemoryCacheShard _ _ _ _ _). assert (Hok0 : mem_shard_ok sh0) by (destruct Hok; by split).
    assert (Hne : mem_candidates sh ≠ []).
    { intros Hnil. rewrite (ms_used _ Hok) in Hfull. assert (Hsz0 := index_ok_size _ _ (ms_index _ Hok)). rewrite Hnil in Hsz0. symmetry in Hsz0.
      apply map_size_empty_inv in Hsz0. rewrite Hsz0, msum_empty in Hfull. unfold saturating_sub in Hfull. lia. }
    assert (Hin : ∀ k, k ∈ keys → is_Some (mem_entries sh !! k)).
    { intros k Hk. rewrite Hkeys in Hk. apply sample_candidates_elem in Hk. by apply (index_ok_elem _ _ k (ms_index _ Hok)). }
    cbn [mem_entries]. destruct (score_memory_sample_spec (mem_entries sh) keys Hin) as (scored & Hrun & Hscored). change (mem_entries sh0) with (mem_entries sh). rewrite Hrun. cbn [mbind outcome_bind].
    destruct (min_by compare_scored scored) as [[sc victim]|] eqn:Hmin.
    2:{ exfalso. apply min_by_None in Hmin as ->. cbn in Hscored. assert (Hlen : length keys = 0%nat) by (by rewrite <-Hscored).
        rewrite Hkeys, sample_candidates_length in Hlen. assert (length (mem_candidates sh) ≠ 0%nat) by (by destruct (mem_candidates sh)). lia. }
    cbn [unwrap mbind outcome_bind]. apply min_by_elem in Hmin. apply (list_elem_of_fmap_2 snd) in Hmin. rewrite Hscored in Hmin. cbn in Hmin.
    destruct (Hin _ Hmin) as [e He].
    destruct (remove_memory_spec out sh0 s victim e Hok0 Hp Hle He) as (sh' & s' & -> & Hok' & Hb & Hlen & Hgone & Hothers & _). cbn [mbind outcome_bind].
    eexists _, _, _. split; [done|]. split_and!; try done.
    + destruct (decide (key = victim)) as [->|Hkv]; [done|]. by rewrite Hothers.
    + intros k. destruct (decide (k = victim)) as [->|Hk]; [by right|left]. by rewrite Hothers.
Qed.

Lemma insert_loop_spec out key bytes charge : Z.of_nat (length bytes) ≤ charge → (0 < reclaim_sample_size)%nat → ∀ fuel sh s evicted,
  mem_shard_ok sh → pool_ok (pool s) out → shard_used_bytes sh ≤ used_bytes (pool s) → (length (mem_candidates sh) < fuel)%nat →
  ∃ sh' s' inserted evicted', insert_loop histories reclaim_sample_size fuel sh s key bytes charge evicted = Done (sh', s', inserted, evicted')
    ∧ mem_shard_ok sh' ∧ balanced out sh sh' s s'
    ∧ (if inserted : bool
       then shard_get sh key = None ∧ shard_get sh' key = Some bytes ∧ (∀ k, k ≠ key → shard_get sh' k = shard_get sh k ∨ shard_get sh' k = None)
            ∧ within_capacity charge sh'
       else is_Some (shard_get sh key) ∧ sh' = sh).
Proof.
  intros Hl Hsz. induction fuel as [|fuel IH]; intros sh s evicted Hok Hp Hle Hfuel; [lia|]. cbn [insert_loop].
  destruct (try_insert_spec out sh s key bytes charge Hok Hp Hle Hl Hsz) as (sh1 & s1 & r & -> & Hok1 & Hb1 & Hr). cbn [mbind outcome_bind]. destruct r.
  - destruct Hr as (Hnone & Hget & Hoth & Hused). eexists _, _, true, _. split; [done|]. split_and!; try done. intros k Hk. left. by apply Hoth.
  - destruct Hr as [Hsome ->]. by eexists _, _, false, _.
  - destruct Hr as (Hnone & Hlen & Hnone1 & Hoth).
    destruct (IH sh1 s1 true Hok1 (proj1 Hb1) ltac:(destruct Hb1 as (_ & _ & _ & ? & _); lia) ltac:(lia)) as (sh' & s' & ins & ev & -> & Hok' & Hb' & Hres).
    eexists _, _, ins, _. split; [done|]. split; [done|]. split; [by eapply balanced_trans|]. destruct ins.
    + destruct Hres as (_ & Hget & Hoth' & Hused). split_and!; try done.
      intros k Hk. destruct (Hoth' k Hk) as [->|?]; [apply Hoth|by right].
    + destruct Hres as [[? Hc] _]. congruence.
Qed.

(** What the cache maps a key to. *)
Definition memory_view (c : MemoryCache) (key : Z) : option (list byte) :=
  sh ← memory_shards c !! shard_index hash_one c key; shard_get sh key.

Lemma shard_index_lt c key : memory_shards c ≠ [] → (shard_index hash_one c key < length (memory_shards c))%nat.
Proof.
  intros Hne. unfold shard_index. assert (0 < Z.of_nat (length (memory_shards c))) by (destruct (memory_shards c); [done|cbn; lia]).
  pose proof (Z.mod_pos_bound (hash_one key) (Z.of_nat (length (memory_shards c))) ltac:(done)). lia.
Qed.

(** Replacing one shard along with the shared state. *)
Lemma replace_shard out c i sh sh' s' :
  memory_ok out c → memory_shards c !! i = Some sh → mem_shard_ok sh' → balanced out sh sh' (shared c) s' →
  memory_ok out (mkMemoryCache (<[i := sh']> (memory_shards c)) s').
Proof.
  intros [Hsh Hp Hu He] Hi Hok (Hp' & _ & _ & Hu' & He'). split; cbn; try done.
  - apply Forall_insert; [done|done].
  - rewrite (zsum_insert _ _ _ _ _ Hi). lia.
  - rewrite (zsum_insert _ _ _ _ _ Hi). lia.
Qed.

Lemma view_replaced c i sh' s' key :
  memory_view (mkMemoryCache (<[i := sh']> (memory_shards c)) s') key
  = (if decide (i = shard_index hash_one c key ∧ (i < length (memory_shards c))%nat) then shard_get sh' key else memory_view c key).
Proof.
  unfold memory_view, shard_index. cbn. rewrite length_insert. case_decide as Hc.
  - destruct Hc as [<- Hlt]. by rewrite list_lookup_insert_eq.
  - destruct (decide (i < length (memory_shards c))%nat) as [Hlt|Hge]; [rewrite list_lookup_insert_ne by naive_solver; done|].
    rewrite list_insert_ge by lia. done.
Qed.
End inserting.

(** ** The cache *)
Lemma shard_capacity_sum total n m :
  (0 < n)%nat → 0 ≤ total → (m ≤ n)%nat →
  zsum (shard_capacity_for total n) (seq 0 m) = Z.of_nat m * (total / Z.of_nat n) + Z.min (Z.of_nat m) (total mod Z.of_nat n).
Proof.
  intros Hn Ht. induction m as [|m IH]; intros Hm.
  { pose proof (Z.mod_pos_bound total (Z.of_nat n) ltac:(lia)). cbn. autorewrite with sums. lia. }
  rewrite seq_S, zsum_app, IH by lia. rewrite zsum_cons, zsum_nil, Nat.add_0_l. unfold shard_capacity_for.
  destruct (Z.ltb_spec (Z.of_nat m) (total mod Z.of_nat n)); lia.
Qed.

Lemma new_memory_ok p out num_shards :
  pool_ok p out → used_bytes p = 0 → (0 < num_shards)%nat →
  ∃ c, with_shard_count p num_shards = Done c ∧ memory_ok out c ∧ length (memory_shards c) = num_shards.
Proof.
  intros Hp Hu Hn. unfold with_shard_count. rewrite (proj2 (Nat.ltb_lt _ _)) by done. cbn [assert_that mbind outcome_bind].
  eexists. split; [done|]. split; [|cbn; by rewrite length_fmap, length_seq].
  assert (Hz : ∀ f, (∀ x, f (new_memory_shard x) = 0) → zsum f ((λ i, new_memory_shard (shard_capacity_for (pool_capacity p) num_shards i)) <$> seq 0 num_shards) = 0).
  { intros f Hf. rewrite zsum_fmap. induction (seq 0 num_shards) as [|x l IH]; [done|]. rewrite zsum_cons, Hf, IH. done. }
  split; cbn; try done.
  - apply Forall_fmap, Forall_forall. intros i _. split; cbn; [apply index_ok_empty|by rewrite msum_empty|]. intros k e. by rewrite lookup_empty.
  - rewrite Hz; done.
  - rewrite Hz; done.
Qed.

Lemma memory_with_metrics_shards capacity c : memory_with_metrics capacity = Done c → memory_shards c ≠ [].
Proof.
  unfold memory_with_metrics, with_shard_count. assert (Hn : (0 < default_shard_count capacity)%nat) by (unfold default_shard_count; lia).
  rewrite (proj2 (Nat.ltb_lt _ _)) by done. cbn [assert_that mbind outcome_bind]. intros [= <-]. cbn [memory_shards].
  by destruct (default_shard_count capacity); [lia|].
Qed.

(** The capacities of the shards add up to the cache's capacity, and a new
    cache is empty and accounted for. *)
Lemma memory_cache_shards capacity :
  0 ≤ capacity → ∃ c, memory_with_metrics capacity = Done c ∧ zsum shard_capacity (memory_shards c) = capacity
    ∧ memory_ok [] c ∧ ∀ hash_one key, memory_view hash_one c key = None.
Proof.
  intros Hc. unfold memory_with_metrics. assert (Hn : (0 < default_shard_count capacity)%nat) by (unfold default_shard_count; lia).
  destruct (new_memory_ok (new_pool capacity) [] (default_shard_count capacity) (new_pool_ok capacity) eq_refl Hn) as (c & Hrun & Hok & Hlen).
  exists c. split; [done|]. unfold with_shard_count in Hrun. rewrite (proj2 (Nat.ltb_lt _ _)) in Hrun by done. cbn in Hrun. injection Hrun as <-. split_and!.
  - cbn. rewrite zsum_fmap. change (zsum (λ x, shard_capacity (new_memory_shard (shard_capacity_for capacity (default_shard_count capacity) x))) ?l)
      with (zsum (shard_capacity_for capacity (default_shard_count capacity)) l). rewrite shard_capacity_sum by (done || lia).
    pose proof (Z.mod_pos_bound capacity (Z.of_nat (default_shard_count capacity)) ltac:(lia)). pose proof (Z.div_mod capacity (Z.of_nat (default_shard_count capacity)) ltac:(lia)). lia.
  - done.
  - intros hash_one key. unfold memory_view. cbn. destruct (_ !! _) as [sh|] eqn:Hsh; [|done]. apply list_elem_of_lookup_2, list_elem_of_fmap in Hsh as (i & -> & _). done.
Qed.

Lemma memory_insert_spec `{RetentionScorer H} (histories : H) (sample_size : nat) hash_one out c key bytes charge :
  memory_ok out c → memory_shards c ≠ [] → (0 < sample_size)%nat → Z.of_nat (length bytes) ≤ charge →
  ∃ c' inserted, memory_insert histories sample_size hash_one c key bytes charge = Done (c', inserted) ∧ memory_ok out c'
    ∧ inserted = bool_decide (memory_view hash_one c key = None)
    ∧ memory_view hash_one c' key = Some (default bytes (memory_view hash_one c key))
    ∧ (∀ k, k ≠ key → memory_view hash_one c' k = memory_view hash_one c k
         ∨ memory_view hash_one c' k = None ∧ inserted = true ∧ shard_index hash_one c k = shard_index hash_one c key)
    ∧ (if inserted then ∃ sh', memory_shards c' !! shard_index hash_one c key = Some sh' ∧ within_capacity charge sh' else memory_shards c' = memory_shards c).
Proof.
  intros Hok Hne Hsz Hl. unfold memory_insert. rewrite (proj2 (Z.leb_le _ _)) by done. cbn [assert_that mbind outcome_bind].
  set (i := shard_index hash_one c key). assert (Hlt : (i < length (memory_shards c))%nat) by (by apply shard_index_lt).
  destruct (lookup_lt_is_Some_2 _ _ Hlt) as [sh Hi]. rewrite Hi. cbn [unwrap mbind outcome_bind].
  assert (Hsh : mem_shard_ok sh) by (pose proof (mo_shards _ _ Hok) as Hall; rewrite Forall_lookup in Hall; eauto).
  assert (Hv : memory_view hash_one c key = shard_get sh key) by (unfold memory_view; fold i; by rewrite Hi).
  destruct (insert_loop_spec histories sample_size out key bytes charge Hl Hsz (S (length (mem_candidates sh))) sh (shared c) false Hsh (mo_pool _ _ Hok) (shard_used_le _ _ _ _ Hok Hi) ltac:(lia))
    as (sh' & s' & ins & ev & -> & Hsh' & Hb & Hres). cbn [mbind outcome_bind]. set (s2 := if ev then _ else _).
  assert (Hb2 : balanced out sh sh' (shared c) s2) by (destruct Hb as (?&?&?&?&?); unfold s2; destruct ev; by split_and!).
  eexists _, ins. split; [done|]. split; [by eapply replace_shard|].
  assert (Hview : ∀ k, memory_view hash_one (mkMemoryCache (<[i := sh']> (memory_shards c)) s2) k
    = if decide (i = shard_index hash_one c k) then shard_get sh' k else memory_view hash_one c k).
  { intros k. rewrite view_replaced. destruct (decide (i = shard_index hash_one c k)); [rewrite decide_True by done; done|rewrite decide_False by naive_solver; done]. }
  rewrite !Hview, decide_True, Hv by done. destruct ins.
  - destruct Hres as (Hnone & Hget & Hoth & Hused). rewrite Hnone, Hget. split_and!; try done.
    + intros k Hk. rewrite Hview. case_decide as Hik; [|by left]. assert (Hvk : memory_view hash_one c k = shard_get sh k) by (unfold memory_view; rewrite <-Hik, Hi; done).
      rewrite Hvk. destruct (Hoth k Hk) as [->|Hn]; [by left|right]. by split_and!.
    + exists sh'. cbn. by rewrite list_lookup_insert_eq.
  - destruct Hres as [[b Hsome] ->]. rewrite Hsome. split_and!; try done; [|by apply list_insert_id]. intros k Hk. left. rewrite Hview. case_decide as Hik; [|done].
    unfold memory_view. rewrite <-Hik, Hi. done.
Qed.

(** C25: inserting an object, when no other thread uses the shard meanwhile, always ends
    and keeps the accounting exact.  A key that is present keeps its bytes and no shard
    changes.  Otherwise the key maps to the new bytes afterwards, other keys keep theirs
    or are evicted, and only the key's own shard evicts; that shard is then within its
    capacity, or the object's charge alone exceeds the capacity and is all the shard is
    charged for. *)
Theorem memory_insert_correct `{RetentionScorer H} (histories : H) (sample_size : nat) hash_one out c key bytes charge :
  memory_ok out c → memory_shards c ≠ [] → (0 < sample_size)%nat → Z.of_nat (length bytes) ≤ charge →
  ∃ c' inserted, memory_insert histories sample_size hash_one c key bytes charge = Done (c', inserted) ∧ memory_ok out c'
    ∧ inserted = bool_decide (memory_view hash_one c key = None)
    ∧ memory_view hash_one c' key = Some (default bytes (memory_view hash_one c key))
    ∧ (∀ k, k ≠ key → memory_view hash_one c' k = memory_view hash_one c k
         ∨ memory_view hash_one c' k = None ∧ inserted = true ∧ shard_index hash_one c k = shard_index hash_one c key)
    ∧ (if inserted then ∃ sh', memory_shards c' !! shard_index hash_one c key = Some sh' ∧ within_capacity charge sh' else memory_shards c' = memory_shards c).
Proof. intros. by apply memory_insert_spec. Qed.

(** Removing a key unmaps exactly that key, reports whether it was there, and keeps
    the accounting exact; a lookup is the value the cache maps the key to. *)
Lemma memory_remove_get_spec hash_one out c key :
  memory_ok out c → memory_shards c ≠ [] →
  memory_get hash_one c key = Done (memory_view hash_one c key)
  ∧ memory_contains hash_one c key = Done (bool_decide (is_Some (memory_view hash_one c key)))
  ∧ ∃ c' removed, memory_remove hash_one c key = Done (c', removed) ∧ memory_ok out c'
    ∧ removed = bool_decide (is_Some (memory_view hash_one c key))
    ∧ ∀ k, memory_view hash_one c' k = if decide (k = key) then None else memory_view hash_one c k.
Proof.
  intros Hok Hne. set (i := shard_index hash_one c key). assert (Hlt : (i < length (memory_shards c))%nat) by (by apply shard_index_lt).
  destruct (lookup_lt_is_Some_2 _ _ Hlt) as [sh Hi]. unfold memory_get, memory_contains, memory_remove. fold i. rewrite Hi. cbn [unwrap mbind outcome_bind].
  assert (Hv : memory_view hash_one c key = shard_get sh key) by (unfold memory_view; fold i; by rewrite Hi). rewrite Hv.
  assert (Hsome : is_Some (shard_get sh key) ↔ is_Some (mem_entries sh !! key)) by apply fmap_is_Some.
  split; [done|]. split; [unfold shard_contains_entry; f_equal; by apply bool_decide_ext|].
  assert (Hsh : mem_shard_ok sh) by (pose proof (mo_shards _ _ Hok) as Hall; rewrite Forall_lookup in Hall; eauto). unfold shard_remove.
  assert (Hview : ∀ sh' s' k, memory_view hash_one (mkMemoryCache (<[i := sh']> (memory_shards c)) s') k
    = if decide (i = shard_index hash_one c k) then shard_get sh' k else memory_view hash_one c k).
  { intros sh' s' k. rewrite view_replaced. destruct (decide (i = shard_index hash_one c k)); [rewrite decide_True by done; done|rewrite decide_False by naive_solver; done]. }
  assert (Hvk : ∀ k, i = shard_index hash_one c k → memory_view hash_one c k = shard_get sh k) by (intros k Hik; unfold memory_view; rewrite <-Hik, Hi; done).
  destruct (mem_entries sh !! key) as [e|] eqn:He.
  - destruct (remove_memory_spec out sh (shared c) key e Hsh (mo_pool _ _ Hok) (shard_used_le _ _ _ _ Hok Hi) He) as (sh' & s' & -> & Hok' & Hb & _ & Hgone & Hoth & _). cbn [mbind outcome_bind].
    eexists _, true. split; [done|]. rewrite bool_decide_eq_true_2 by (apply Hsome; eauto). split_and!; [|done|].
    + eapply replace_shard; [done|done|done|]. destruct Hb as (?&?&?&?&?). by split_and!.
    + intros k. rewrite Hview. case_decide as Hik; [|rewrite decide_False; [done|intros ->; done]].
      case_decide as Hk; [by subst|]. by rewrite Hoth, Hvk.
  - unfold remove_memory_entry. rewrite index_take_None by done. cbn [mbind outcome_bind].
    eexists _, false. split; [done|]. rewrite bool_decide_eq_false_2 by (rewrite Hsome; by intros []). split_and!; [|done|].
    + eapply replace_shard; [done|done|done|]. pose proof (mo_pool _ _ Hok). split_and!; try done; lia.
    + intros k. rewrite Hview. case_decide as Hik; [|rewrite decide_False; [done|intros ->; done]].
      case_decide as Hk; [subst; unfold shard_get; by rewrite He|]. by rewrite Hvk.
Qed.

(** A cache of two shards holding one object, and a second one. *)
Definition sample_memory : MemoryCache :=
  match with_shard_count (new_pool 100) 2 with Done c => c | Panic => mkMemoryCache [] (mkMemoryShared (new_pool 0) (mkMemoryCounters 0 0 0 0 0)) end.
Definition sample_hash (k : Z) : Z := k.

Lemma sample_memory_ok : memory_ok [] sample_memory ∧ memory_shards sample_memory ≠ [].
Proof.
  destruct (new_memory_ok (new_pool 100) [] 2 (new_pool_ok 100) eq_refl ltac:(lia)) as (c & Hrun & Hok & Hlen).
  assert (Hs : sample_memory = c) by (unfold sample_memory; by rewrite Hrun). rewrite Hs. split; [done|]. by destruct (memory_shards c).
Qed.

Definition memory_scorer : RetentionScorer () := λ _ _ len, f64_of_Z len.

Lemma memory_insert_correct_witness :
  let _ := memory_scorer in
  ∃ c' inserted, memory_insert () 4 sample_hash sample_memory 7 [Byte.x01; Byte.x02] 2 = Done (c', inserted)
    ∧ memory_view sample_hash c' 7 = Some [Byte.x01; Byte.x02].
Proof.
  intros scorer. destruct (memory_insert_correct () 4 sample_hash [] sample_memory 7 [Byte.x01; Byte.x02] 2) as (c' & ins & Hrun & _ & _ & Hv & _);
    [apply sample_memory_ok|apply sample_memory_ok|lia|cbn; lia|]. exists c', ins. split; [exact Hrun|exact Hv].
Defined.
