(* ===== verification/Lookup.v ===== *)
(** * Lookups of the disk cache ([disk_cache.rs], [disk_metrics.rs])

    A lookup copies a buffered object, or reads the payload of an indexed entry
    and verifies its checksum.  Concurrent lookups of an entry share one read: the
    entry keeps a weak reference to it, whose identity tells a late checksum
    failure whether the entry is still the one that was read.  The steps of one
    call are functions on a shard; [lookup_step] interleaves them with writers,
    and [get_with_fallthrough] runs them for a single caller.  The end of a read and
    the check of the index after it are one step ([finish_read]): what the check
    compares is the identity of the read, which no other task can change. *)

From S2P Require Import Prelude Codec Errors Disk BTree Allocation PageFormat Metadata Float64 Retention.
From S2P Require Import EntryIndex Shard Writer DiskCache Admission Uring File.

(** [DiskLookupOutcome] *)
Inductive DiskLookupOutcome := Hit | Absent | IoError | ChecksumFailed | Fallthrough.
Global Instance DiskLookupOutcome_eq_dec : EqDecision DiskLookupOutcome.
Proof. solve_decision. Defined.

(** The lookup counters of [DiskMetrics], with the number of recorded hit
    durations, and [DiskMetrics::record_lookup]. *)
Record LookupMetrics := mkLookupMetrics { lookup_outcomes : DiskLookupOutcome → Z; hit_durations : Z }.
Definition record_lookup (m : LookupMetrics) (o : DiskLookupOutcome) : LookupMetrics :=
  mkLookupMetrics (λ k, if decide (k = o) then lookup_outcomes m k + 1 else lookup_outcomes m k)
    (match o with Hit => hit_durations m + 1 | _ => hit_durations m end).

(** ** Payload reads *)

(** [DataFile::read_payload], which also returns the capacity of the buffer that
    backs the bytes. *)
Class PayloadReader (F : Type) `{StorageFile F} :=
  read_payload : F → Z → nat → outcome (F * DataFileResult (list byte * Z)).
Class PayloadReaderOk (F : Type) `{PayloadReader F} : Prop :=
  read_payload_ok : ∀ f a n, 0 ≤ a →
    ∃ f' r, read_payload f a n = Done (f', r) ∧ capacity f' = capacity f ∧ contents f' = contents f
      ∧ ∀ bytes c, r = Ok (bytes, c) → bytes = disk_read (contents f) a n ∧ Z.of_nat n ≤ c.

Global Instance data_file_reader : PayloadReader DataFile := file_read_payload.
Global Instance data_file_reader_ok : PayloadReaderOk DataFile.
Proof.
  intros f a n Ha. unfold read_payload, data_file_reader, file_read_payload, measure_io.
  destruct (read_slice_ok f a n Ha) as (f' & r & Hrun & (Hcap & _) & Hk & Hok). rewrite Hrun. cbn [mbind outcome_bind].
  eexists _, r. split; [done|]. by split_and!.
Qed.

Global Instance ram_file_reader : PayloadReader RamFile := λ f a n,
  '(f, r) ← read_at f a n; Done (f, (λ bytes, (bytes, Z.of_nat n)) <$> r).
Global Instance ram_file_reader_ok : PayloadReaderOk RamFile.
Proof.
  intros f a n Ha. unfold read_payload, ram_file_reader. destruct (read_at_ok f a n Ha) as (f' & r & Hrun & Hcap & Hcont & Hok & _).
  rewrite Hrun. cbn [mbind outcome_bind]. eexists _, _. split; [done|]. split_and!; [done|done|].
  intros bytes c Hr. destruct r as [bs|e]; [|done]. cbn in Hr. injection Hr as <- <-. by destruct (Hok _ eq_refl).
Qed.

(** [PayloadRead]; the result cell is unset, or set once. *)
Record PayloadRead := mkPayloadRead {
  read_len : Z;
  read_checksum : Z;
  read_address : Z;
  read_result : option (result DiskLookupOutcome (list byte * Z))
}.

(** A caller inside [get_with_fallthrough]: waiting for the result cell,
    initialising it (for a permit, then for the payload), or done with the outcome
    it recorded and the object it returned. *)
Inductive Caller :=
  | AwaitingResult (key id : Z)
  | AcquiringPermit (key id : Z)
  | ReadingPayload (key id : Z)
  | Returned (key : Z) (source : option Z) (o : DiskLookupOutcome) (r : option (list byte * Z)).

(** The read a caller holds a strong reference to, and the cell it initialises. *)
Definition caller_read (c : Caller) : option Z :=
  match c with
  | AwaitingResult _ id | AcquiringPermit _ id | ReadingPayload _ id => Some id
  | Returned _ _ _ _ => None
  end.
Definition caller_init (c : Caller) : option Z :=
  match c with AcquiringPermit _ id | ReadingPayload _ id => Some id | _ => None end.
Definition caller_key (c : Caller) : Z :=
  match c with AwaitingResult k _ | AcquiringPermit k _ | ReadingPayload k _ | Returned k _ _ _ => k end.

(** A shard with the lookups under way.  [lw_reads] holds every read created so
    far; [lw_next] is the identity of the next one. *)
Record LookupWorld (F : Type) := mkLookupWorld {
  lw_file : F;
  lw_shard : DiskCacheShard;
  lw_buffer : SmallEntryBuffer;
  lw_locked : bool;
  lw_reads : gmap Z PayloadRead;
  lw_next : Z;
  lw_callers : gmap nat Caller;
  lw_metrics : LookupMetrics
}.
Arguments mkLookupWorld {F} _ _ _ _ _ _ _ _.
Arguments lw_file {F} _.
Arguments lw_shard {F} _.
Arguments lw_buffer {F} _.
Arguments lw_locked {F} _.
Arguments lw_reads {F} _.
Arguments lw_next {F} _.
Arguments lw_callers {F} _.
Arguments lw_metrics {F} _.

(** [Weak::upgrade]: the read is alive while a caller holds it. *)
Definition alive (cs : gmap nat Caller) (id : Z) : bool :=
  existsb (λ c, bool_decide (caller_read c.2 = Some id)) (map_to_list cs).

(** [DiskEntry::share_read] *)
Definition share_read (cs : gmap nat Caller) (reads : gmap Z PayloadRead) (next : Z) (e : DiskEntry)
  : DiskEntry * gmap Z PayloadRead * Z * Z :=
  let fresh :=
    (mkDiskEntry (Some next) (eviction_position e) (payload_len e) (payload_checksum e) (payload_address e) (entry_metadata e),
     <[next := mkPayloadRead (payload_len e) (payload_checksum e) (payload_address e) None]> reads, next + 1, next) in
  match shared_read e with
  | Some id => if alive cs id then (e, reads, next, id) else fresh
  | None => fresh
  end.

Definition with_entries (m : gmap Z DiskEntry) (sh : DiskCacheShard) : DiskCacheShard :=
  let idx := entry_index sh in
  mkDiskCacheShard (allocator sh)
    (mkDiskEntryIndex m (eviction_candidates idx) (next_sample_start idx) (entries_gauge idx) (payload_bytes_gauge idx))
    (metadata_pages sh).

(** A caller returns and records its outcome. *)
Definition return_from {F} (w : LookupWorld F) (c : nat) (key : Z) (source : option Z) (o : DiskLookupOutcome)
    (r : option (list byte * Z)) : LookupWorld F :=
  mkLookupWorld (lw_file w) (lw_shard w) (lw_buffer w) (lw_locked w) (lw_reads w) (lw_next w)
    (<[c := Returned key source o r]> (lw_callers w)) (record_lookup (lw_metrics w) o).
Definition set_caller {F} (w : LookupWorld F) (c : nat) (s : Caller) : LookupWorld F :=
  mkLookupWorld (lw_file w) (lw_shard w) (lw_buffer w) (lw_locked w) (lw_reads w) (lw_next w)
    (<[c := s]> (lw_callers w)) (lw_metrics w).

(** [get_with_fallthrough] up to the shared read: an unlocked buffer first, then
    the index. *)
Definition start_lookup {F} (w : LookupWorld F) (c : nat) (key : Z) : LookupWorld F :=
  match (if lw_locked w then None else buffer_get (lw_buffer w) key) with
  | Some bytes => return_from w c key None Hit (Some (bytes, Z.of_nat (length bytes)))
  | None =>
      let m := entries_by_key (entry_index (lw_shard w)) in
      match m !! key with
      | None => return_from w c key None Absent None
      | Some e =>
          let '(e, reads, next, id) := share_read (lw_callers w) (lw_reads w) (lw_next w) e in
          mkLookupWorld (lw_file w) (with_entries (<[key := e]> m) (lw_shard w)) (lw_buffer w) (lw_locked w) reads next
            (<[c := AwaitingResult key id]> (lw_callers w)) (lw_metrics w)
      end
  end.

(** The end of [get_with_fallthrough], for a result cell that is set. *)
Definition return_result {F} (w : LookupWorld F) (c : nat) (key id : Z) (res : result DiskLookupOutcome (list byte * Z)) : LookupWorld F :=
  match res with
  | Ok (bytes, capacity) => return_from w c key (Some id) Hit (Some (bytes, capacity))
  | Err o => return_from w c key (Some id) o None
  end.

(** The permit of [acquire_payload_read_permit], or a fallthrough that leaves the
    cell unset. *)
Definition resolve_permit {F} (w : LookupWorld F) (c : nat) (key id : Z) (granted : bool) : LookupWorld F :=
  if granted then set_caller w c (ReadingPayload key id) else return_from w c key (Some id) Fallthrough None.

Section read.
Context `{Hasher} `{PayloadReader F}.

(** [PayloadRead::read_and_verify_payload] *)
Definition read_and_verify_payload (f : F) (r : PayloadRead) : outcome (F * result DiskLookupOutcome (list byte * Z)) :=
  '(f, res) ← read_payload f (read_address r) (Z.to_nat (read_len r));
  Done (f, match res with
           | Err _ => Err IoError
           | Ok (bytes, capacity) =>
               if bool_decide (xxh64 bytes ≠ read_checksum r) then Err ChecksumFailed else Ok (bytes, capacity)
           end).

(** The index after a read: a checksum failure removes the entry, if it still
    refers to this read. *)
Definition remove_failed (sh : DiskCacheShard) (key id : Z) (res : result DiskLookupOutcome (list byte * Z)) : outcome DiskCacheShard :=
  match res with
  | Err ChecksumFailed =>
      match entries_by_key (entry_index sh) !! key with
      | Some e => if bool_decide (shared_read e = Some id) then remove_entry_from_index sh key else Done sh
      | None => Done sh
      end
  | _ => Done sh
  end.

(** The rest of the initialiser: the read, the removal, and the cell. *)
Definition finish_read (w : LookupWorld F) (c : nat) (key id : Z) : outcome (LookupWorld F) :=
  r ← unwrap (lw_reads w !! id);
  '(f, res) ← read_and_verify_payload (lw_file w) r;
  sh ← remove_failed (lw_shard w) key id res;
  let reads := <[id := mkPayloadRead (read_len r) (read_checksum r) (read_address r) (Some res)]> (lw_reads w) in
  Done (return_result (mkLookupWorld f sh (lw_buffer w) (lw_locked w) reads (lw_next w) (lw_callers w) (lw_metrics w)) c key id res).

(** [get_with_fallthrough] for a caller that is alone: [permit] is the answer of
    the read admission, [next] the identity of a read it creates. *)
Definition lookup_alone (w : LookupWorld F) (key : Z) (permit : bool) : outcome (LookupWorld F) :=
  let w := start_lookup w 0 key in
  match lw_callers w !! 0%nat with
  | Some (AwaitingResult key id) =>
      let w := resolve_permit (set_caller w 0 (AcquiringPermit key id)) 0 key id permit in
      if permit then finish_read w 0 key id else Done w
  | _ => Done w
  end.
Definition get_with_fallthrough (d : DiskCacheInner F) (m : LookupMetrics) (key next : Z) (permit : bool)
  : outcome (DiskCacheInner F * LookupMetrics * option (list byte * Z)) :=
  let i := shard_index_for_key (length (shards d)) key in
  '(sh, b) ← unwrap (shards d !! i);
  w ← lookup_alone (mkLookupWorld (file d) sh b false ∅ next ∅ m) key permit;
  match lw_callers w !! 0%nat with
  | Some (Returned _ _ _ r) =>
      Done (mkInner (lw_file w) (<[i := (lw_shard w, lw_buffer w)]> (shards d)) (counters d) (outcomes d) (allocations d), lw_metrics w, r)
  | _ => Panic
  end.

(** [DiskCache::get] and [DiskCache::contains] *)
Definition get (d : DiskCacheInner F) (m : LookupMetrics) (key next : Z) : outcome (DiskCacheInner F * LookupMetrics * option (list byte)) :=
  '(d, m, r) ← get_with_fallthrough d m key next true;
  Done (d, m, option_map fst r).
Definition contains (d : DiskCacheInner F) (key : Z) : outcome bool :=
  x ← unwrap (shards d !! shard_index_for_key (length (shards d)) key);
  Done (shard_contains false x key).
End read.

(** ** A single lookup *)

(** The payload an entry or a read refers to: length, checksum and address. *)
Definition described (e : DiskEntry) : Z * Z * Z := (payload_len e, payload_checksum e, payload_address e).
Definition read_described (r : PayloadRead) : Z * Z * Z := (read_len r, read_checksum r, read_address r).
Definition payload_of (d : disk) (x : Z * Z * Z) : list byte := disk_read d x.2 (Z.to_nat x.1.1).

Lemma unplaced_described (e e' : DiskEntry) : unplaced e = unplaced e' → described e = described e' ∧ shared_read e = shared_read e'.
Proof. destruct e, e'. cbn. by intros [= -> -> -> -> ->]. Qed.

Lemma same_entries_described (m m' : gmap Z DiskEntry) k : same_entries m m' → described <$> m' !! k = described <$> m !! k.
Proof.
  intros Hs. specialize (Hs k). destruct (m !! k) as [e|], (m' !! k) as [e'|]; cbn in *; try done.
  injection Hs as Hs1 Hs2 Hs3 Hs4 Hs5. unfold described. by rewrite Hs2, Hs3, Hs4.
Qed.

Ltac world :=
  cbn [return_result return_from set_caller resolve_permit lw_file lw_shard lw_buffer lw_locked lw_reads lw_next lw_callers lw_metrics].
Ltac returned :=
  eexists _, _, _, _, _, _; (split; [reflexivity|]); world; rewrite lookup_insert_eq; split_and!; [done..|].

Section alone.
Context `{Hasher} `{PayloadReaderOk F} (lo hi : Z).

(** Changing the weak reference of an entry keeps a shard consistent. *)
Lemma with_read_ok sh owners pending lag key e s :
  shard_ok lo hi sh owners pending lag → entries_by_key (entry_index sh) !! key = Some e →
  let e' := mkDiskEntry s (eviction_position e) (payload_len e) (payload_checksum e) (payload_address e) (entry_metadata e) in
  shard_ok lo hi (with_entries (<[key := e']> (entries_by_key (entry_index sh))) sh) owners pending lag.
Proof.
  intros [Hb Hal Hm [Hi1 Hi2] Hsl Hen Hus Hh [Hg1 Hg2]] Hk e'.
  assert (Hfrom : ∀ k x, <[key := e']> (entries_by_key (entry_index sh)) !! k = Some x → ∃ x0, entries_by_key (entry_index sh) !! k = Some x0
            ∧ described x = described x0 ∧ eviction_position x = eviction_position x0 ∧ entry_metadata x = entry_metadata x0).
  { intros k x [[<- <-]|[_ Hx]]%lookup_insert_Some; [exists e|exists x]; by split_and!. }
  constructor; cbn [with_entries allocator entry_index metadata_pages entries_by_key eviction_candidates entries_gauge payload_bytes_gauge]; try done.
  - split.
    + intros k x (x0 & Hx0 & _ & Hp & _)%Hfrom. cbn [entry_position DiskEntry_positioned]. rewrite Hp. by apply (Hi1 k x0).
    + intros i k (x & Hx & Hp)%Hi2. destruct (decide (k = key)) as [->|Hne].
      * exists e'. rewrite lookup_insert_eq. split; [done|]. rewrite Hk in Hx. by injection Hx as <-.
      * exists x. by rewrite lookup_insert_ne.
  - intros k x (x0 & Hx0 & [= Hd1 Hd2 Hd3] & _ & Hmd)%Hfrom. rewrite Hmd, (Hsl k x0 Hx0). unfold entry_record. by rewrite Hd1, Hd2, Hd3.
  - intros loc r (x & Hx & Hl)%Hen. destruct (decide (meta_key r = key)) as [Heq|Hne].
    + rewrite Heq in *. exists e'. rewrite lookup_insert_eq. split; [done|]. rewrite Hk in Hx. by injection Hx as <-.
    + exists x. by rewrite lookup_insert_ne.
  - intros k r n Hr. rewrite (Hus k r n Hr). unfold users. rewrite (msum_replace _ _ _ e e' Hk). unfold entry_chunk. cbn. lia.
  - intros k x (x0 & Hx0 & [= Hd1 Hd2 Hd3] & _)%Hfrom. destruct (Hh k x0 Hx0) as (r & n & Hr & Hend). exists r, n.
    unfold entry_chunk in *. by rewrite Hd1, Hd3.
  - rewrite map_size_insert_Some by eauto. unfold payload_bytes. rewrite (msum_replace _ _ _ e e' Hk). unfold payload_bytes in Hg2. cbn. lia.
Qed.

Lemma entry_address_nonneg sh owners pending lag key e :
  shard_ok lo hi sh owners pending lag → entries_by_key (entry_index sh) !! key = Some e → 0 ≤ payload_address e.
Proof.
  intros Hok Hk. destruct (so_bounds _ _ _ _ _ _ Hok) as (_ & _ & Hlo & _). destruct (so_held _ _ _ _ _ _ Hok _ _ Hk) as (r & n & Hr & _).
  assert (Hal := proj1 (so_alloc _ _ _ _ _ _ Hok)). destruct (ao_held _ _ _ _ Hal _ _ _ Hr) as (Hs & _ & _).
  destruct (owner_range _ _ _ _ _ (take_held_ok _ _ _ _ _ _ _ Hr Hal)) as (Hle & _ & _). unfold entry_chunk in Hs.
  apply Z.nlt_ge. intros Hneg. pose proof (Z.div_lt_upper_bound (payload_address e) CHUNK_BYTES 0 ltac:(done) ltac:(lia)). lia.
Qed.

Lemma read_and_verify_spec f r :
  0 ≤ read_address r →
  ∃ f' res, read_and_verify_payload f r = Done (f', res) ∧ capacity f' = capacity f ∧ contents f' = contents f
    ∧ let payload := payload_of (contents f) (read_described r) in
      match res with
      | Ok (bytes, c) => bytes = payload ∧ xxh64 payload = read_checksum r ∧ Z.of_nat (length bytes) ≤ c
      | Err o => o = IoError ∨ (o = ChecksumFailed ∧ xxh64 payload ≠ read_checksum r)
      end.
Proof.
  intros Ha. unfold read_and_verify_payload.
  destruct (read_payload_ok f (read_address r) (Z.to_nat (read_len r)) Ha) as (f' & res & Hrun & Hcap & Hcont & Hok).
  rewrite Hrun. cbn [mbind outcome_bind]. eexists f', _. split; [done|]. split_and!; [done|done|].
  destruct res as [[bytes c]|e]; [|by left]. destruct (Hok _ _ eq_refl) as [-> Hc].
  case_bool_decide as Hx; [by right|]. unfold payload_of, read_described. cbn [fst snd]. split_and!; [done|lia|by rewrite length_disk_read].
Qed.

(** What one lookup does to a shard: the outcome, the object, and the index. *)
Record lookup_effect (f f' : F) (sh sh' : DiskCacheShard) (b : SmallEntryBuffer) (key : Z) (permit : bool)
    (o : DiskLookupOutcome) (r : option (list byte * Z)) : Prop := mkLookupEffect {
  le_shard : shard_ok lo hi sh' [] idle (0, 0);
  le_file : capacity f' = capacity f ∧ contents f' = contents f;
  le_others : ∀ k, k ≠ key ∨ o ≠ ChecksumFailed →
    described <$> entries_by_key (entry_index sh') !! k = described <$> entries_by_key (entry_index sh) !! k;
  le_result :
    let e := described <$> entries_by_key (entry_index sh) !! key in
    match o with
    | Hit => ∃ bytes c, r = Some (bytes, c) ∧ Z.of_nat (length bytes) ≤ c
        ∧ (buffer_get b key = Some bytes
           ∨ buffer_get b key = None ∧ ∃ x, e = Some x ∧ bytes = payload_of (contents f) x ∧ xxh64 bytes = x.1.2)
    | Absent => r = None ∧ buffer_get b key = None ∧ e = None
    | IoError => r = None ∧ permit = true ∧ buffer_get b key = None ∧ is_Some e
    | ChecksumFailed => r = None ∧ permit = true ∧ buffer_get b key = None
        ∧ (∃ x, e = Some x ∧ xxh64 (payload_of (contents f) x) ≠ x.1.2) ∧ entries_by_key (entry_index sh') !! key = None
    | Fallthrough => r = None ∧ permit = false ∧ buffer_get b key = None ∧ is_Some e
    end
}.

Lemma remove_failed_ok sh key id e (res : result DiskLookupOutcome (list byte * Z)) :
  shard_ok lo hi sh [] idle (0, 0) → entries_by_key (entry_index sh) !! key = Some e → shared_read e = Some id →
  ∃ sh', remove_failed sh key id res = Done sh' ∧ shard_ok lo hi sh' [] idle (0, 0)
    ∧ (∀ k, k ≠ key ∨ res ≠ Err ChecksumFailed →
         described <$> entries_by_key (entry_index sh') !! k = described <$> entries_by_key (entry_index sh) !! k)
    ∧ (res = Err ChecksumFailed → entries_by_key (entry_index sh') !! key = None).
Proof.
  intros Hok Hk Hid. unfold remove_failed. rewrite Hk, bool_decide_eq_true_2 by done.
  destruct (remove_entry_spec lo hi sh [] idle (0, 0) key e Hok Hk) as (sh' & Hrun & Hok' & Hsame).
  assert (Hdec : res = Err ChecksumFailed ∨ res ≠ Err ChecksumFailed) by (destruct res as [|[]]; auto).
  destruct Hdec as [->|Hne].
  - exists sh'. split_and!; [done|done| |].
    + intros k [Hkk|]; [|done]. rewrite (same_entries_described _ _ k Hsame). by rewrite lookup_delete_ne.
    + intros _. eapply same_entries_None; [exact Hsame|]. apply lookup_delete_eq.
  - exists sh. destruct res as [x|[]]; by split_and!.
Qed.

Lemma lookup_alone_spec f sh b m key next permit :
  shard_ok lo hi sh [] idle (0, 0) →
  ∃ w' f' sh' src o r, lookup_alone (mkLookupWorld f sh b false ∅ next ∅ m) key permit = Done w'
    ∧ lw_callers w' !! 0%nat = Some (Returned key src o r)
    ∧ lw_file w' = f' ∧ lw_shard w' = sh' ∧ lw_buffer w' = b ∧ lw_metrics w' = record_lookup m o
    ∧ lookup_effect f f' sh sh' b key permit o r.
Proof.
  intros Hok. unfold lookup_alone, start_lookup. world.
  destruct (buffer_get b key) as [bytes|] eqn:Hbuf.
  { world. rewrite lookup_insert_eq. returned.
    constructor; try done. eexists bytes, _. split_and!; [done|lia|by left]. }
  destruct (entries_by_key (entry_index sh) !! key) as [e|] eqn:Hk.
  2:{ world. rewrite lookup_insert_eq. returned.
      constructor; try done. by rewrite Hk. }
  assert (Hshare : share_read ∅ ∅ next e = (mkDiskEntry (Some next) (eviction_position e) (payload_len e) (payload_checksum e) (payload_address e) (entry_metadata e),
     {[next := mkPayloadRead (payload_len e) (payload_checksum e) (payload_address e) None]}, next + 1, next)).
  { unfold share_read. by destruct (shared_read e). }
  rewrite Hshare. assert (Hok1 := with_read_ok sh [] idle (0, 0) key e (Some next) Hok Hk).
  set (e1 := mkDiskEntry (Some next) _ _ _ _ _) in *. set (sh1 := with_entries _ sh) in *. set (rd := mkPayloadRead _ _ _ _).
  assert (Hk1 : entries_by_key (entry_index sh1) !! key = Some e1) by (cbn; apply lookup_insert_eq).
  assert (Hsame1 : ∀ k, described <$> entries_by_key (entry_index sh1) !! k = described <$> entries_by_key (entry_index sh) !! k).
  { intros k. cbn. destruct (decide (k = key)) as [->|Hne]; [by rewrite lookup_insert_eq, Hk|by rewrite lookup_insert_ne]. }
  world. rewrite lookup_insert_eq. destruct permit; cbn [resolve_permit].
  2:{ returned. constructor; try done. rewrite Hk. by split_and!. }
  unfold finish_read. world. rewrite lookup_singleton_eq.
  cbn [unwrap mbind outcome_bind].
  destruct (read_and_verify_spec f rd (entry_address_nonneg _ _ _ _ _ _ Hok Hk)) as (f' & res & Hrun & Hcap & Hcont & Hres). rewrite Hrun.
  cbn [mbind outcome_bind]. destruct (remove_failed_ok sh1 key next e1 res Hok1 Hk1 eq_refl) as (sh' & Hrem & Hok' & Hoth & Hgone). rewrite Hrem.
  cbn [mbind outcome_bind]. destruct res as [[bytes c]|o]; world.
  - returned.
    constructor; [done|done| |]. { intros k _. rewrite <-Hsame1. apply Hoth. by right. }
    destruct Hres as (-> & Hck & Hc). eexists _, c. split_and!; [done|done|]. right. split; [done|]. rewrite Hk. by eexists.
  - returned.
    constructor; [done|done| |]. { intros k Hne. rewrite <-Hsame1. apply Hoth. destruct Hne; [by left|right; congruence]. }
    rewrite Hk. destruct Hres as [->|[-> Hck]]; [by split_and!|]. split_and!; try done; [by eexists|by apply Hgone].
Qed.
End alone.

(** ** Lookups of the cache *)

(** A cache at rest whose payloads may be damaged, as after recovery. *)
Record slot_consistent `{Hasher} (bounds : Z * Z) (x : DiskCacheShard * SmallEntryBuffer) : Prop := mkSlotConsistent {
  sc_shard : shard_ok bounds.1 bounds.2 x.1 [] idle (0, 0);
  sc_buffer : buffer_ok x.2;
  sc_apart : ∀ w, w ∈ buffered x.2 → entries_by_key (entry_index x.1) !! write_key w = None
}.
Definition inner_consistent `{Hasher} {F} (bounds : list (Z * Z)) (d : DiskCacheInner F) : Prop :=
  Forall2 slot_consistent bounds (shards d).

Section lookups.
Context `{Hasher} `{PayloadReaderOk F} (bounds : list (Z * Z)).

Lemma inner_ok_consistent (d : DiskCacheInner F) : inner_ok bounds d → inner_consistent bounds d.
Proof. intros [Hs _]. eapply Forall2_impl; [exact Hs|]. by intros b x [? ? ? _]. Qed.

Lemma view_described (d : DiskCacheInner F) key x :
  shards d !! shard_index_for_key (length (shards d)) key = Some x →
  view d key = match buffer_get x.2 key with
               | Some bytes => Some bytes
               | None => payload_of (contents (file d)) <$> (described <$> entries_by_key (entry_index x.1) !! key)
               end.
Proof.
  intros Hx. unfold view. rewrite Hx. cbn. destruct (buffer_get x.2 key); [done|]. by destruct (entries_by_key (entry_index x.1) !! key).
Qed.

Lemma disk_view_replaced (d d' : DiskCacheInner F) i sh sh' b k :
  shards d !! i = Some (sh, b) → shards d' = <[i := (sh', b)]> (shards d) → contents (file d') = contents (file d) →
  described <$> entries_by_key (entry_index sh') !! k = described <$> entries_by_key (entry_index sh) !! k → view d' k = view d k.
Proof.
  intros Hi Hs Hcont Hd. assert (Hlen : length (shards d') = length (shards d)) by (rewrite Hs; apply length_insert).
  destruct (decide (shard_index_for_key (length (shards d)) k = i)) as [Heq|Hni].
  - rewrite (view_described d k (sh, b)) by (by rewrite Heq). rewrite (view_described d' k (sh', b)).
    + cbn [fst snd]. by rewrite Hcont, Hd.
    + rewrite Hlen, Heq, Hs. apply list_lookup_insert_eq. by eapply lookup_lt_Some.
  - unfold view. by rewrite Hlen, Hs, Hcont, list_lookup_insert_ne.
Qed.

(** The cache-level effect of one lookup. *)
Record get_effect (d d' : DiskCacheInner F) (key : Z) (permit : bool) (o : DiskLookupOutcome) (r : option (list byte * Z)) : Prop := mkGetEffect {
  ge_consistent : inner_consistent bounds d';
  ge_ok : inner_ok bounds d → inner_ok bounds d' ∧ o ≠ ChecksumFailed;
  ge_kept : length (shards d') = length (shards d) ∧ contents (file d') = contents (file d) ∧ outcomes d' = outcomes d
            ∧ buffered_count d' = buffered_count d ∧ ∀ i, snd <$> shards d' !! i = snd <$> shards d !! i;
  ge_view : ∀ k, k ≠ key ∨ o ≠ ChecksumFailed → view d' k = view d k;
  ge_result : match o with
    | Hit => ∃ bytes c, r = Some (bytes, c) ∧ view d key = Some bytes ∧ Z.of_nat (length bytes) ≤ c
    | Absent => r = None ∧ view d key = None
    | IoError => r = None ∧ is_Some (view d key)
    | ChecksumFailed => r = None ∧ view d' key = None
    | Fallthrough => r = None ∧ permit = false
    end
}.

Lemma get_spec (d : DiskCacheInner F) m key next permit :
  inner_consistent bounds d → 0 ≤ key → (0 < length (shards d))%nat →
  ∃ d' o r, get_with_fallthrough d m key next permit = Done (d', record_lookup m o, r) ∧ get_effect d d' key permit o r.
Proof.
  intros Hcons Hkey Hne. unfold get_with_fallthrough. set (i := shard_index_for_key (length (shards d)) key).
  destruct (lookup_lt_is_Some_2 (shards d) i) as [[sh b] Hi]; [by apply key_shard_lt|]. rewrite Hi. cbn [unwrap mbind outcome_bind].
  destruct (Forall2_lookup_r _ _ _ _ _ Hcons Hi) as ([lo hi] & Hbi & [Hsh Hb Hap]). cbn [fst snd] in Hsh, Hb, Hap.
  destruct (lookup_alone_spec lo hi (file d) sh b m key next permit Hsh) as (w' & f' & sh' & src & o & r & Hrun & Hc & Hf & Hs & Hbuf & Hm & [Hok' [Hcap Hcont] Hoth Hres]).
  rewrite Hrun. cbn [mbind outcome_bind]. rewrite Hc, Hf, Hs, Hbuf, Hm. eexists _, o, r. split; [reflexivity|].
  assert (Hlen : length (<[i := (sh', b)]> (shards d)) = length (shards d)) by apply length_insert.
  assert (Hgone : ∀ k, entries_by_key (entry_index sh) !! k = None → entries_by_key (entry_index sh') !! k = None).
  { intros k Hk. assert (Hdec : (k ≠ key ∨ o ≠ ChecksumFailed) ∨ (k = key ∧ o = ChecksumFailed)) by (destruct (decide (k = key)), (decide (o = ChecksumFailed)); auto).
    destruct Hdec as [Hd|[-> ->]]; [|by destruct Hres as (_ & _ & _ & _ & ?)]. specialize (Hoth k Hd). rewrite Hk in Hoth. by apply fmap_None in Hoth. }
  assert (Hcons' : slot_consistent (lo, hi) (sh', b)) by (constructor; [done|done|intros w Hw; apply Hgone, Hap, Hw]).
  assert (Hd1 : view d key = match buffer_get b key with Some bytes => Some bytes | None => payload_of (contents (file d)) <$> (described <$> entries_by_key (entry_index sh) !! key) end)
    by exact (view_described d key (sh, b) Hi).
  constructor; cbn [file shards outcomes].
  - unfold inner_consistent. cbn [shards]. rewrite <-(list_insert_id bounds i (lo, hi) Hbi). by apply Forall2_insert.
  - intros [Hss Hdis]. destruct (Forall2_lookup_r _ _ _ _ _ Hss Hi) as (b0 & Hb0 & [_ _ _ Hint]). cbn [fst] in Hint.
    assert (Ho : o ≠ ChecksumFailed).
    { intros ->. destruct Hres as (_ & _ & _ & (x & Hx & Hbad) & _). apply fmap_Some in Hx as (e & He & ->). by apply Hbad, (Hint key e). }
    split; [|done]. constructor; [|done]. cbn [file shards]. rewrite Hcont. rewrite <-(list_insert_id bounds i (lo, hi) Hbi). apply Forall2_insert; [done|].
    destruct Hcons' as [? ? ?]. constructor; [done|done|done|]. intros k e He. cbn [fst] in He. assert (Hd := Hoth k ltac:(by right)). rewrite He in Hd. cbn in Hd. symmetry in Hd.
    apply fmap_Some in Hd as (e0 & He0 & Heq). injection Heq as E1 E2 E3. unfold entry_payload. rewrite E1, E2, E3. exact (Hint k e0 He0).
  - split_and!; [done|done|done| |].
    + unfold buffered_count. cbn [shards]. rewrite (zsum_insert _ _ _ (sh, b)) by done. cbn [snd]. lia.
    + intros j. destruct (decide (j = i)) as [->|Hj]; [|by rewrite list_lookup_insert_ne].
      rewrite list_lookup_insert_eq, Hi by (by eapply lookup_lt_Some). done.
  - intros k Hk. eapply (disk_view_replaced _ _ i sh sh' b); [done|done|done|]. by apply Hoth.
  - destruct o; cbn in Hres.
    + destruct Hres as (bytes & c & -> & Hc' & Hor). exists bytes, c. split_and!; [done| |done]. rewrite Hd1.
      destruct Hor as [->|(-> & x & -> & -> & _)]; done.
    + destruct Hres as (-> & Hg & He). rewrite Hd1, Hg, He. done.
    + destruct Hres as (-> & _ & Hg & x & Hx). rewrite Hd1, Hg, Hx. split; [done|by eexists].
    + destruct Hres as (-> & _ & Hg & _ & He). split; [done|]. rewrite (view_described _ key (sh', b)); cbn [file shards fst snd]; [by rewrite Hg, He|].
      rewrite Hlen. apply list_lookup_insert_eq. by eapply lookup_lt_Some.
    + by destruct Hres as (-> & -> & _).
Qed.
End lookups.

(** ** Sequences of operations *)
Inductive CacheOp :=
  | OpWrite (key : Z) (bytes : list byte)
  | OpFlush
  | OpDiscard
  | OpGet (key next : Z) (permit : bool).

Section sequences.
Context `{Hasher} `{PayloadReader F} `{RetentionScorer Hist} (histories : Hist) (reclaim_sample_size : nat).

(** The public operations of [DiskCache] in turn, with the object each lookup
    returned. *)
Definition run_op (d : DiskCacheInner F) (m : LookupMetrics) (op : CacheOp)
  : outcome (DiskCacheInner F * LookupMetrics * option (Z * list byte)) :=
  match op with
  | OpWrite key bytes => '(d, _) ← write histories reclaim_sample_size d key bytes; Done (d, m, None)
  | OpFlush => '(d, _) ← flush histories reclaim_sample_size d; Done (d, m, None)
  | OpDiscard => Done (discard_pending d, m, None)
  | OpGet key next permit =>
      '(d, m, r) ← get_with_fallthrough d m key next permit;
      Done (d, m, option_map (λ x, (key, x.1)) r)
  end.
Fixpoint run_ops (d : DiskCacheInner F) (m : LookupMetrics) (ops : list CacheOp)
  : outcome (DiskCacheInner F * LookupMetrics * list (option (Z * list byte))) :=
  match ops with
  | [] => Done (d, m, [])
  | op :: ops =>
      '(d, m, r) ← run_op d m op;
      '(d, m, rs) ← run_ops d m ops;
      Done (d, m, r :: rs)
  end.
End sequences.

Definition op_key_ok (op : CacheOp) : Prop :=
  match op with OpWrite key _ | OpGet key _ _ => is_u128 key | _ => True end.

Section sequence_lemmas.
Context `{HasherOk} `{StorageFileOk F} `{!PayloadReader F} `{!PayloadReaderOk F} `{RetentionScorer Hist} (histories : Hist) (size : nat).
Context (bounds : list (Z * Z)).

Lemma run_op_spec (d : DiskCacheInner F) m op :
  inner_ok bounds d → (0 < length (shards d))%nat → op_key_ok op →
  ∃ d' m' r, run_op histories size d m op = Done (d', m', r) ∧ inner_ok bounds d' ∧ length (shards d') = length (shards d)
    ∧ (∀ k v, view d' k = Some v → view d k = Some v ∨ op = OpWrite k v)
    ∧ (∀ k v, r = Some (k, v) → view d k = Some v).
Proof.
  intros Hok Hne Hkey. destruct op as [key bytes| | |key next permit]; cbn [run_op].
  - destruct (write_ok histories size bounds d key bytes Hok Hkey Hne) as (d' & r & Hrun & [Hok' Hlen _ Hv _]). rewrite Hrun.
    cbn [mbind outcome_bind]. eexists d', m, None. split_and!; try done. intros k v Hk. destruct (Hv k v Hk) as [?|(-> & -> & _)]; auto.
  - destruct (flush_ok histories size bounds d Hok) as (d' & r & Hrun & Hok' & Hle & Hlen & _). rewrite Hrun.
    cbn [mbind outcome_bind]. eexists d', m, None. split_and!; try done. intros k v Hk. left. by apply Hle.
  - destruct (discard_ok bounds d Hok) as (Hok' & Hle & _). eexists _, m, None. split_and!; [done|done| | |done].
    + cbn. by rewrite length_fmap.
    + intros k v Hk. left. by apply Hle.
  - destruct (get_spec bounds d m key next permit (inner_ok_consistent _ _ Hok) ltac:(apply Hkey) Hne)
      as (d' & o & r & Hrun & [_ Hok' (Hlen & _) Hv Hr]). rewrite Hrun. cbn [mbind outcome_bind]. destruct (Hok' Hok) as [Hok1 Ho].
    eexists d', _, _. split_and!; [done|done|done| |].
    + intros k v Hk. left. rewrite <-(Hv k); [done|by right].
    + intros k v Heq. destruct r as [[bytes c]|]; [|done]. injection Heq as <- <-.
      destruct o; try (by destruct Hr). destruct Hr as (? & ? & [= <- <-] & ? & _). done.
Qed.

Lemma run_ops_spec ops : ∀ (d : DiskCacheInner F) m,
  inner_ok bounds d → (0 < length (shards d))%nat → Forall op_key_ok ops →
  ∃ d' m' rs, run_ops histories size d m ops = Done (d', m', rs) ∧ inner_ok bounds d'
    ∧ ∀ i key v, rs !! i = Some (Some (key, v)) → view d key = Some v ∨ ∃ j, (j < i)%nat ∧ ops !! j = Some (OpWrite key v).
Proof.
  induction ops as [|op ops IH]; intros d m Hok Hne Hkeys; cbn [run_ops]; [by eexists _, _, []|].
  apply Forall_cons in Hkeys as [Hkey Hkeys].
  destruct (run_op_spec d m op Hok Hne Hkey) as (d1 & m1 & r & Hrun & Hok1 & Hlen1 & Hv & Hr). rewrite Hrun. cbn [mbind outcome_bind].
  destruct (IH d1 m1 Hok1 ltac:(lia) Hkeys) as (d' & m' & rs & Hrun' & Hok' & Hres). rewrite Hrun'. cbn [mbind outcome_bind].
  eexists d', m', _. split_and!; [done|done|]. intros [|i] key v Hi.
  - left. apply Hr. by injection Hi.
  - destruct (Hres i key v Hi) as [[Hold| ->]%Hv|(j & Hj & Hop)]; [by left|right; exists 0%nat; split; [lia|done]|].
    right. exists (S j). split; [lia|done].
Qed.
End sequence_lemmas.

(** ** Interleaved lookups *)

(** How the index may change: entries stay, go, or appear without a read. *)
Definition index_evolves (sh sh' : DiskCacheShard) (new : option (Z * DiskEntry)) : Prop :=
  ∀ k e', entries_by_key (entry_index sh') !! k = Some e' →
    (∃ e, entries_by_key (entry_index sh) !! k = Some e ∧ unplaced e' = unplaced e)
    ∨ ∃ e, new = Some (k, e) ∧ unplaced e' = unplaced e.

Lemma index_take_subset (m m' : gmap Z DiskEntry) candidates candidates' key e :
  index_take m candidates key = Done (Some (e, m', candidates')) → same_entries (delete key m) m'.
Proof.
  unfold index_take. destruct (m !! key) as [e0|]; [|done]. destruct (swap_remove _ _) as [[x cs]|]; [|done]. cbn [mbind outcome_bind].
  destruct (cs !! entry_position e0) as [moved|]; [|by intros [= -> <- ->]].
  destruct (delete key m !! moved) as [em|] eqn:Hm; [|done]. cbn [unwrap mbind outcome_bind]. intros [= -> <- ->] k.
  destruct (decide (k = moved)) as [->|Hne]; [by rewrite lookup_insert_eq, Hm|by rewrite lookup_insert_ne].
Qed.

Lemma take_entry_evolves idx idx' key taken :
  take_entry idx key = Done (taken, idx') → same_entries (delete key (entries_by_key idx)) (entries_by_key idx').
Proof.
  unfold take_entry. destruct (entries_by_key idx !! key) as [e|] eqn:Hk.
  - destruct (index_take _ _ key) as [[[[e0 m] cs]|]|] eqn:Ht; [| |done].
    + intros [= <- <-]. by eapply index_take_subset.
    + unfold index_take in Ht. rewrite Hk in Ht. destruct (swap_remove _ _) as [[x cs]|]; [|done]. cbn [mbind outcome_bind] in Ht.
      destruct (cs !! entry_position e) as [moved|]; [|done]. by destruct (delete key _ !! moved).
  - rewrite index_take_None by done. intros [= <- <-]. by rewrite delete_id.
Qed.

Lemma same_delete_evolves sh sh' key :
  same_entries (delete key (entries_by_key (entry_index sh))) (entries_by_key (entry_index sh')) → index_evolves sh sh' None.
Proof.
  intros Hs k e' He'. left. destruct (same_entries_lookup _ _ _ _ Hs He') as (e & [_ He]%lookup_delete_Some & Heq). by exists e.
Qed.

Lemma release_entry_index sh sh' e : release_entry sh e = Done sh' → entry_index sh' = entry_index sh.
Proof.
  unfold release_entry. destruct (release_payload _ _); [|done]. cbn. destruct (free_entry_metadata _ _); [|done]. cbn. by intros [= <-].
Qed.

Lemma remove_entry_evolves sh sh' key : remove_entry_from_index sh key = Done sh' → index_evolves sh sh' None.
Proof.
  unfold remove_entry_from_index. destruct (take_entry _ key) as [[taken idx]|] eqn:Ht; [|done]. cbn [mbind outcome_bind].
  apply take_entry_evolves in Ht. destruct taken as [e|].
  - intros Hi%release_entry_index. apply (same_delete_evolves _ _ key). by rewrite Hi.
  - intros [= <-] k e' He'. left. by exists e'.
Qed.

Lemma insert_entry_evolves sh sh' key e : insert_entry sh key e = Done sh' → index_evolves sh sh' (Some (key, e)).
Proof.
  unfold insert_entry. destruct (take_entry _ key) as [[taken idx]|] eqn:Ht; [|done]. cbn [mbind outcome_bind].
  apply take_entry_evolves in Ht. destruct (match taken with Some _ => _ | None => _ end) as [sh1|] eqn:Hrel; [|done].
  assert (Hi : entry_index sh1 = idx) by (destruct taken; [by apply release_entry_index in Hrel|by injection Hrel as <-]).
  cbn [mbind outcome_bind index_push]. rewrite Hi. intros [= <-] k e' He'. cbn in He'. apply lookup_insert_Some in He' as [[<- <-]|[Hne He']].
  - right. by exists e.
  - left. destruct (same_entries_lookup _ _ _ _ Ht He') as (e0 & [_ He0]%lookup_delete_Some & Heq). by exists e0.
Qed.

Section interleaving.
Context `{Hasher} `{PayloadReader F}.

Definition with_lookup_shard (w : LookupWorld F) (f : F) (sh : DiskCacheShard) (b : SmallEntryBuffer) (locked : bool) : LookupWorld F :=
  mkLookupWorld f sh b locked (lw_reads w) (lw_next w) (lw_callers w) (lw_metrics w).
Definition cancel_lookup (w : LookupWorld F) (c : nat) : LookupWorld F :=
  mkLookupWorld (lw_file w) (lw_shard w) (lw_buffer w) (lw_locked w) (lw_reads w) (lw_next w) (delete c (lw_callers w)) (lw_metrics w).

(** One step of one task, with the payloads published so far for each key.  A
    caller may be dropped at any time; the result cell admits one initialiser;
    writers publish and remove entries, and change the disk and the buffer. *)
Inductive lookup_step : list (Z * (Z * Z * Z)) * LookupWorld F → list (Z * (Z * Z * Z)) * LookupWorld F → Prop :=
  | step_start log w c key :
      lw_callers w !! c = None → lookup_step (log, w) (log, start_lookup w c key)
  | step_init log w c key id r :
      lw_callers w !! c = Some (AwaitingResult key id) → lw_reads w !! id = Some r → read_result r = None →
      (∀ c' s, lw_callers w !! c' = Some s → caller_init s ≠ Some id) →
      lookup_step (log, w) (log, set_caller w c (AcquiringPermit key id))
  | step_permit log w c key id granted :
      lw_callers w !! c = Some (AcquiringPermit key id) → lookup_step (log, w) (log, resolve_permit w c key id granted)
  | step_read log w w' c key id :
      lw_callers w !! c = Some (ReadingPayload key id) → finish_read w c key id = Done w' → lookup_step (log, w) (log, w')
  | step_shared log w c key id r res :
      lw_callers w !! c = Some (AwaitingResult key id) → lw_reads w !! id = Some r → read_result r = Some res →
      lookup_step (log, w) (log, return_result w c key id res)
  | step_cancel log w c s :
      lw_callers w !! c = Some s → is_Some (caller_read s) → lookup_step (log, w) (log, cancel_lookup w c)
  | step_publish log w sh key r loc :
      0 ≤ meta_payload_len r → 0 ≤ meta_payload_address r → insert_entry (lw_shard w) key (new_DiskEntry r loc) = Done sh →
      lookup_step (log, w) ((key, described (new_DiskEntry r loc)) :: log, with_lookup_shard w (lw_file w) sh (lw_buffer w) (lw_locked w))
  | step_remove log w sh key :
      remove_entry_from_index (lw_shard w) key = Done sh →
      lookup_step (log, w) (log, with_lookup_shard w (lw_file w) sh (lw_buffer w) (lw_locked w))
  | step_writer log w f sh b locked :
      entries_by_key (entry_index sh) = entries_by_key (entry_index (lw_shard w)) →
      lookup_step (log, w) (log, with_lookup_shard w f sh b locked).

(** A caller that returned with outcome [o]. *)
Definition returned_with (o : DiskLookupOutcome) (s : Caller) : Z :=
  match s with Returned _ _ o' _ => Z.b2z (bool_decide (o' = o)) | _ => 0 end.

Record lookups_ok (log : list (Z * (Z * Z * Z))) (w : LookupWorld F) : Prop := mkLookupsOk {
  lo_log : Forall (λ x, 0 ≤ x.2.1.1 ∧ 0 ≤ x.2.2) log;
  lo_reads : ∀ id r, lw_reads w !! id = Some r → id < lw_next w ∧ 0 ≤ read_len r ∧ 0 ≤ read_address r
    ∧ ∀ bytes c, read_result r = Some (Ok (bytes, c)) → Z.of_nat (length bytes) = read_len r ∧ xxh64 bytes = read_checksum r;
  lo_entries : ∀ key e, entries_by_key (entry_index (lw_shard w)) !! key = Some e → (key, described e) ∈ log
    ∧ ∀ id, shared_read e = Some id → ∃ r, lw_reads w !! id = Some r ∧ read_described r = described e;
  lo_callers : ∀ c s id, lw_callers w !! c = Some s → caller_read s = Some id →
    ∃ r, lw_reads w !! id = Some r ∧ (caller_key s, read_described r) ∈ log;
  lo_inits : ∀ c c' s s' id, lw_callers w !! c = Some s → lw_callers w !! c' = Some s' → caller_init s = Some id →
    caller_init s' = Some id → c = c';
  lo_unset : ∀ c s id r, lw_callers w !! c = Some s → caller_init s = Some id → lw_reads w !! id = Some r → read_result r = None;
  lo_returned : ∀ c key id o bytes cap, lw_callers w !! c = Some (Returned key (Some id) o (Some (bytes, cap))) →
    ∃ len checksum address, (key, (len, checksum, address)) ∈ log ∧ Z.of_nat (length bytes) = len ∧ xxh64 bytes = checksum;
  lo_metrics : (∀ o, lookup_outcomes (lw_metrics w) o = msum (λ _, returned_with o) (lw_callers w))
    ∧ hit_durations (lw_metrics w) = lookup_outcomes (lw_metrics w) Hit
}.

Lemma returned_active o s : is_Some (caller_read s) → returned_with o s = 0.
Proof. destruct s; [done..|]. by intros []. Qed.

(** The callers of an outcome after one caller changed its state. *)
Lemma returned_set o (cs : gmap nat Caller) c s :
  (∀ s, cs !! c = Some s → is_Some (caller_read s)) →
  msum (λ _, returned_with o) (<[c := s]> cs) = msum (λ _, returned_with o) cs + returned_with o s.
Proof.
  intros Hc. destruct (cs !! c) as [s0|] eqn:Hs.
  - rewrite (msum_replace _ _ _ s0) by done. rewrite (returned_active o s0) by eauto. lia.
  - rewrite msum_insert by done. lia.
Qed.

Lemma return_from_ok log w c key src o r :
  lookups_ok log w → (∀ s, lw_callers w !! c = Some s → is_Some (caller_read s)) →
  (∀ id bytes cap, src = Some id → r = Some (bytes, cap) →
     ∃ len checksum address, (key, (len, checksum, address)) ∈ log ∧ Z.of_nat (length bytes) = len ∧ xxh64 bytes = checksum) →
  lookups_ok log (return_from w c key src o r).
Proof.
  intros [Hlog Hrd He Hc Hi Hu Hr [Hm Hh]] Hact Hnew. constructor; world; try done.
  - intros c' s id [[<- <-]|[_ Hs]]%lookup_insert_Some; [done|by eapply Hc].
  - intros c1 c2 s1 s2 id [[<- <-]|[_ H1']]%lookup_insert_Some [[<- <-]|[_ H2']]%lookup_insert_Some; try done. by eapply Hi.
  - intros c' s id r' [[<- <-]|[_ Hs]]%lookup_insert_Some; [done|by eapply Hu].
  - intros c' k id o' bytes cap [[<- [= -> -> -> ->]]|[_ Hs]]%lookup_insert_Some; [by eapply Hnew|by eapply Hr].
  - split; [intros o'|destruct o; cbn; rewrite Hh; done]. rewrite returned_set by done. cbn. rewrite <-Hm.
    destruct (decide (o' = o)) as [->|Hne]; [by rewrite bool_decide_eq_true_2|]. rewrite bool_decide_eq_false_2 by congruence. cbn. lia.
Qed.

(** A caller moves on with the read it holds. *)
Lemma set_caller_ok log w c s s' id :
  lookups_ok log w → lw_callers w !! c = Some s → caller_read s = Some id → caller_read s' = Some id → caller_key s' = caller_key s →
  (caller_init s' = Some id → (∀ r, lw_reads w !! id = Some r → read_result r = None)
     ∧ ∀ c' s, c' ≠ c → lw_callers w !! c' = Some s → caller_init s ≠ Some id) →
  lookups_ok log (set_caller w c s').
Proof.
  intros [Hlog Hrd He Hc Hi Hu Hr [Hm Hh]] Hs Hid Hid' Hkey Hinit.
  assert (Hin : ∀ id', caller_init s' = Some id' → id' = id) by (destruct s'; cbn in *; congruence). constructor; world; try done.
  - intros c' t id' [[<- <-]|[_ Ht]]%lookup_insert_Some Hid1; [|by apply (Hc c')]. rewrite Hid' in Hid1. injection Hid1 as <-. rewrite Hkey. by apply (Hc c).
  - intros c1 c2 s1 s2 id' [[<- <-]|[Hn1 H1']]%lookup_insert_Some [[<- <-]|[Hn2 H2']]%lookup_insert_Some E1 E2; try done.
    + assert (id' = id) as -> by auto. by destruct (Hinit E1) as [_ Hno]; destruct (Hno c2 s2).
    + assert (id' = id) as -> by auto. by destruct (Hinit E2) as [_ Hno]; destruct (Hno c1 s1).
    + by eapply Hi.
  - intros c' t id' r [[<- <-]|[_ Ht]]%lookup_insert_Some E Hrd'; [|by eapply (Hu c')]. assert (id' = id) as -> by auto. by apply Hinit.
  - intros c' k id' o' bytes cap [[<- E]|[_ Ht]]%lookup_insert_Some; [|by eapply Hr]. by rewrite E in Hid'.
  - split; [|done]. intros o. rewrite returned_set; [|intros t Ht; rewrite Hs in Ht; injection Ht as <-; by eexists].
    rewrite (returned_active o s') by (by eexists). rewrite Hm. lia.
Qed.

(** Writers: the index evolves, the disk and the buffer change. *)
Lemma evolves_ok log log' w f sh b locked new :
  lookups_ok log w → index_evolves (lw_shard w) sh new → log ⊆ log' → Forall (λ x, 0 ≤ x.2.1.1 ∧ 0 ≤ x.2.2) log' →
  (∀ k e, new = Some (k, e) → shared_read e = None ∧ (k, described e) ∈ log') →
  lookups_ok log' (with_lookup_shard w f sh b locked).
Proof.
  intros [Hlog Hrd He Hc Hi Hu Hr Hm] Hev Hsub Hlog' Hnew. constructor; unfold with_lookup_shard; world; try done.
  - intros k e' He'. destruct (Hev k e' He') as [(e & Hk & Heq)|(e & Hn & Heq)].
    + apply unplaced_described in Heq as [Hd Hs]. destruct (He k e Hk) as [Hin Hread]. rewrite Hd, Hs. split; [by apply Hsub|done].
    + apply unplaced_described in Heq as [Hd Hs]. destruct (Hnew k e Hn) as [Hnone Hin]. rewrite Hd, Hs, Hnone. done.
  - intros c s id Hs Hid. destruct (Hc c s id Hs Hid) as (r & Hr' & Hin). exists r. split; [done|by apply Hsub].
  - intros c key id o bytes cap Hs. destruct (Hr c key id o bytes cap Hs) as (len & ck & a & Hin & ? & ?). exists len, ck, a. split_and!; [by apply Hsub|done..].
Qed.

(** A caller joins read [id], which describes the entry it found. *)
Lemma join_read_ok log w c key id e r :
  lookups_ok log w → lw_callers w !! c = None → entries_by_key (entry_index (lw_shard w)) !! key = Some e →
  lw_reads w !! id = Some r → read_described r = described e → lookups_ok log (set_caller w c (AwaitingResult key id)).
Proof.
  intros [Hlog Hrd He Hc Hi Hu Hr [Hm Hh]] Hfree Hk Hid Hd. constructor; world; try done.
  - intros c' s id' [[<- <-]|[_ Hs]]%lookup_insert_Some Hr'; [|by eapply Hc]. injection Hr' as <-. exists r. split; [done|].
    cbn. rewrite Hd. by apply He.
  - intros c1 c2 s1 s2 id' [[<- <-]|[_ H1']]%lookup_insert_Some [[<- <-]|[_ H2']]%lookup_insert_Some; try done. by eapply Hi.
  - intros c' s id' r' [[<- <-]|[_ Hs]]%lookup_insert_Some; [done|by eapply Hu].
  - intros c' k id' o' bytes cap [[<- ?]|[_ Hs]]%lookup_insert_Some; [done|by eapply Hr].
  - split; [|done]. intros o. rewrite returned_set by (intros s Hs; congruence). rewrite Hm. cbn. lia.
Qed.

(** An entry refers to a new read. *)
Lemma new_read_ok log w key e :
  lookups_ok log w → entries_by_key (entry_index (lw_shard w)) !! key = Some e →
  let e' := mkDiskEntry (Some (lw_next w)) (eviction_position e) (payload_len e) (payload_checksum e) (payload_address e) (entry_metadata e) in
  let rd := mkPayloadRead (payload_len e) (payload_checksum e) (payload_address e) None in
  lookups_ok log (mkLookupWorld (lw_file w) (with_entries (<[key := e']> (entries_by_key (entry_index (lw_shard w)))) (lw_shard w))
    (lw_buffer w) (lw_locked w) (<[lw_next w := rd]> (lw_reads w)) (lw_next w + 1) (lw_callers w) (lw_metrics w)).
Proof.
  intros [Hlog Hrd He Hc Hi Hu Hr Hm] Hk e' rd.
  assert (Hfresh : ∀ id r, lw_reads w !! id = Some r → <[lw_next w := rd]> (lw_reads w) !! id = Some r).
  { intros id r Hid. rewrite lookup_insert_ne; [done|]. destruct (Hrd id r Hid). lia. }
  constructor; world; try done.
  - intros id r [[<- <-]|[_ Hid]]%lookup_insert_Some.
    + rewrite Forall_forall in Hlog. destruct (Hlog _ (proj1 (He key e Hk))). split_and!; [lia|done..].
    + destruct (Hrd id r Hid) as (? & ? & ? & ?). split_and!; [lia|done..].
  - intros k x. cbn. intros [[<- <-]|[_ Hx]]%lookup_insert_Some.
    + split; [by apply (He key e)|]. intros id [= <-]. exists rd. by rewrite lookup_insert_eq.
    + destruct (He k x Hx) as [Hin Hsh]. split; [done|]. intros id Hid. destruct (Hsh id Hid) as (r & Hr' & Hd). exists r. split; [by apply Hfresh|done].
  - intros c s id Hs Hid. destruct (Hc c s id Hs Hid) as (r & Hr' & Hin). exists r. split; [by apply Hfresh|done].
  - intros c s id r Hs Hin [[<- <-]|[_ Hid]]%lookup_insert_Some; [done|]. by eapply Hu.
Qed.

Lemma start_lookup_ok log w c key : lookups_ok log w → lw_callers w !! c = None → lookups_ok log (start_lookup w c key).
Proof.
  intros Hok Hfree. assert (Hact : ∀ s, lw_callers w !! c = Some s → is_Some (caller_read s)) by (intros s Hs; congruence).
  unfold start_lookup. destruct (if lw_locked w then None else _) as [bytes|]; [by apply return_from_ok|].
  destruct (entries_by_key (entry_index (lw_shard w)) !! key) as [e|] eqn:Hk; [|by apply return_from_ok].
  assert (Hnew := new_read_ok log w key e Hok Hk). cbn zeta in Hnew. set (w1 := mkLookupWorld _ _ _ _ _ _ _ _) in Hnew.
  assert (Hfresh : lookups_ok log (set_caller w1 c (AwaitingResult key (lw_next w)))).
  { eapply (join_read_ok log w1 c key _ _ _ Hnew Hfree); [cbn; apply lookup_insert_eq|cbn; apply lookup_insert_eq|done]. }
  unfold share_read. destruct (shared_read e) as [id|] eqn:Hs; [|exact Hfresh]. destruct (alive _ id); [|exact Hfresh].
  destruct (lo_entries _ _ Hok key e Hk) as [_ Hsh]. destruct (Hsh id Hs) as (r & Hr & Hd).
  replace (with_entries _ (lw_shard w)) with (lw_shard w); [exact (join_read_ok log w c key id e r Hok Hfree Hk Hr Hd)|].
  rewrite insert_id by done. by destruct w as [? [? []]].
Qed.

(** A result is stored once nobody initialises the cell any more. *)
Lemma set_result_ok log w id r res :
  lookups_ok log w → lw_reads w !! id = Some r → (∀ c s, lw_callers w !! c = Some s → caller_init s ≠ Some id) →
  (∀ bytes c, res = Ok (bytes, c) → Z.of_nat (length bytes) = read_len r ∧ xxh64 bytes = read_checksum r) →
  lookups_ok log (mkLookupWorld (lw_file w) (lw_shard w) (lw_buffer w) (lw_locked w)
    (<[id := mkPayloadRead (read_len r) (read_checksum r) (read_address r) (Some res)]> (lw_reads w)) (lw_next w) (lw_callers w) (lw_metrics w)).
Proof.
  intros [Hlog Hrd He Hc Hi Hu Hr Hm] Hid Hno Hres. set (r' := mkPayloadRead _ _ _ _).
  assert (Hthere : ∀ id' r0 x, lw_reads w !! id' = Some r0 → read_described r0 = x → ∃ r1, <[id := r']> (lw_reads w) !! id' = Some r1 ∧ read_described r1 = x).
  { intros id' r0 x Hr0 Hx. destruct (decide (id' = id)) as [->|Hne]; [|exists r0; by rewrite lookup_insert_ne].
    exists r'. rewrite lookup_insert_eq. split; [done|]. rewrite <-Hx. rewrite Hid in Hr0. by injection Hr0 as <-. }
  constructor; world; try done.
  - intros id' r0 [[<- <-]|[_ Hr0]]%lookup_insert_Some; [|by apply Hrd]. destruct (Hrd id r Hid) as (? & ? & ? & _). split_and!; [done..|].
    intros bytes c [= E]. by eapply Hres.
  - intros k e Hk. destruct (He k e Hk) as [Hin Hsh]. split; [done|]. intros id' Hs. destruct (Hsh id' Hs) as (r0 & Hr0 & Hd). by eapply Hthere.
  - intros c s id' Hs Hid'. destruct (Hc c s id' Hs Hid') as (r0 & Hr0 & Hin). destruct (Hthere id' r0 _ Hr0 eq_refl) as (r1 & Hr1 & Hd). exists r1. by rewrite Hd.
  - intros c s id' r0 Hs Hin [[<- <-]|[_ Hr0]]%lookup_insert_Some; [|by eapply Hu]. by destruct (Hno c s Hs).
Qed.

Lemma remove_failed_evolves sh sh' key id (res : result DiskLookupOutcome (list byte * Z)) :
  remove_failed sh key id res = Done sh' →
  index_evolves sh sh' None ∧ (sh' = sh ∨ res = Err ChecksumFailed ∧ remove_entry_from_index sh key = Done sh'
    ∧ ∃ e, entries_by_key (entry_index sh) !! key = Some e ∧ shared_read e = Some id).
Proof.
  assert (Hrefl : index_evolves sh sh None) by (intros k e' He'; left; by exists e').
  unfold remove_failed. destruct res as [x|[]]; try (by intros [= <-]; split; [|left]).
  destruct (entries_by_key (entry_index sh) !! key) as [e|]; [|by intros [= <-]; split; [|left]].
  case_bool_decide as Hid; [|by intros [= <-]; split; [|left]]. intros Hrem. split; [by eapply remove_entry_evolves|]. right. split_and!; [done|done|]. by exists e.
Qed.

Lemma finish_read_cases w w' c key id :
  finish_read w c key id = Done w' →
  ∃ r f res sh, lw_reads w !! id = Some r ∧ read_and_verify_payload (lw_file w) r = Done (f, res)
    ∧ remove_failed (lw_shard w) key id res = Done sh
    ∧ w' = return_result (mkLookupWorld f sh (lw_buffer w) (lw_locked w)
             (<[id := mkPayloadRead (read_len r) (read_checksum r) (read_address r) (Some res)]> (lw_reads w))
             (lw_next w) (lw_callers w) (lw_metrics w)) c key id res.
Proof.
  unfold finish_read. destruct (lw_reads w !! id) as [r|]; [|done]. cbn [unwrap mbind outcome_bind].
  destruct (read_and_verify_payload _ r) as [[f res]|] eqn:Hv; [|done]. cbn [mbind outcome_bind].
  destruct (remove_failed _ _ _ _) as [sh|] eqn:Hrem; [|done]. cbn [mbind outcome_bind]. intros [= <-]. by exists r, f, res, sh.
Qed.

Context `{!PayloadReaderOk F}.

Lemma finish_read_ok log w w' c key id :
  lookups_ok log w → lw_callers w !! c = Some (ReadingPayload key id) → finish_read w c key id = Done w' → lookups_ok log w'.
Proof.
  intros Hok Hc (r & f & res & sh & Hr & Hv & Hrem & ->)%finish_read_cases.
  destruct (lo_reads _ _ Hok id r Hr) as (_ & Hl0 & Ha0 & _). destruct (lo_callers _ _ Hok c _ id Hc eq_refl) as (r0 & Hr0 & Hin).
  rewrite Hr in Hr0. injection Hr0 as <-. cbn in Hin.
  destruct (read_and_verify_spec (lw_file w) r Ha0) as (f' & res' & Hv' & _ & _ & Hres). rewrite Hv in Hv'. injection Hv' as <- <-.
  assert (Hbytes : ∀ bytes cap, res = Ok (bytes, cap) → Z.of_nat (length bytes) = read_len r ∧ xxh64 bytes = read_checksum r).
  { intros bytes cap ->. destruct Hres as (-> & Hck & _). split; [|done]. unfold payload_of, read_described. rewrite length_disk_read. cbn. lia. }
  assert (Hret : lookups_ok log (return_result w c key id res)).
  { assert (Hact : ∀ s, lw_callers w !! c = Some s → is_Some (caller_read s)) by (intros s Hs; rewrite Hc in Hs; injection Hs as <-; by eexists).
    destruct res as [[bytes cap]|o]; apply return_from_ok; try done. intros ? ? ? _ [= <- <-]. destruct (Hbytes _ _ eq_refl). by eexists _, _, _. }
  assert (Hset := set_result_ok log _ id r res Hret).
  assert (Hset1 := Hset ltac:(by destruct res as [[]|])). clear Hset. assert (Hset := λ Hno, Hset1 Hno Hbytes). clear Hset1.
  assert (Hno : ∀ c' s, lw_callers (return_result w c key id res) !! c' = Some s → caller_init s ≠ Some id).
  { intros c' s Hs Hi. assert (Hs' : c' ≠ c ∧ lw_callers w !! c' = Some s).
    { by destruct res as [[]|]; cbn in Hs; apply lookup_insert_Some in Hs as [[<- <-]|[? ?]]. }
    destruct Hs' as [Hne Hs']. by destruct Hne; eapply (lo_inits _ _ Hok c' c s _ id Hs' Hc). }
  specialize (Hset Hno). destruct (remove_failed_evolves _ _ _ _ _ Hrem) as [Hev _].
  assert (Hgoal := evolves_ok log log _ f sh (lw_buffer w) (lw_locked w) None Hset ltac:(by destruct res as [[]|])
                     (reflexivity log) (lo_log _ _ Hok) ltac:(done)).
  by destruct res as [[]|].
Qed.

Lemma cancel_ok log w c s :
  lookups_ok log w → lw_callers w !! c = Some s → is_Some (caller_read s) → lookups_ok log (cancel_lookup w c).
Proof.
  intros [Hlog Hrd He Hc Hi Hu Hr [Hm Hh]] Hs Hact. constructor; unfold cancel_lookup; world; try done.
  - intros c' s' id [_ Hs']%lookup_delete_Some. by eapply Hc.
  - intros c1 c2 s1 s2 id [_ H1']%lookup_delete_Some [_ H2']%lookup_delete_Some. by eapply Hi.
  - intros c' s' id r [_ Hs']%lookup_delete_Some. by eapply Hu.
  - intros c' k id o bytes cap [_ Hs']%lookup_delete_Some. by eapply Hr.
  - split; [|done]. intros o. rewrite (msum_delete _ _ _ s) by done. rewrite (returned_active o s) by done. rewrite Hm. lia.
Qed.

Lemma lookup_step_ok x y : lookup_step x y → lookups_ok x.1 x.2 → lookups_ok y.1 y.2.
Proof.
  destruct 1 as [log w c key Hc|log w c key id r Hc Hr Hn Hno|log w c key id granted Hc|log w w' c key id Hc Hrun|log w c key id r res Hc Hr Hres
    |log w c s Hc Hact|log w sh key r loc Hl Ha Hins|log w sh key Hrem|log w f sh b locked Hsame]; cbn [fst snd]; intros Hok.
  - by apply start_lookup_ok.
  - eapply (set_caller_ok _ _ _ _ _ id Hok Hc); try done. intros _. split; [|by intros c' s _; apply Hno]. intros r'. rewrite Hr. by intros [= <-].
  - assert (Hact : ∀ s, lw_callers w !! c = Some s → is_Some (caller_read s)) by (intros s Hs; rewrite Hc in Hs; injection Hs as <-; by eexists).
    destruct granted; [|by apply return_from_ok]. eapply (set_caller_ok _ _ _ _ _ id Hok Hc); try done. intros _. split.
    + intros r Hr. by eapply (lo_unset _ _ Hok c _ id r Hc).
    + intros c' s Hne Hs Hin. by destruct Hne; eapply (lo_inits _ _ Hok c' c s _ id Hs Hc).
  - by eapply finish_read_ok.
  - assert (Hact : ∀ s, lw_callers w !! c = Some s → is_Some (caller_read s)) by (intros s Hs; rewrite Hc in Hs; injection Hs as <-; by eexists).
    destruct (lo_callers _ _ Hok c _ id Hc eq_refl) as (r0 & Hr0 & Hin). rewrite Hr in Hr0. injection Hr0 as <-.
    destruct res as [[bytes cap]|o]; apply return_from_ok; try done. intros ? ? ? _ [= <- <-].
    destruct (lo_reads _ _ Hok id r Hr) as (_ & _ & _ & Hb). destruct (Hb _ _ Hres). by eexists _, _, _.
  - by eapply cancel_ok.
  - eapply (evolves_ok log); [done|by apply insert_entry_evolves|by intros x Hx; right| |].
    + constructor; [done|apply Hok].
    + intros k e [= <- <-]. split; [done|left].
  - eapply (evolves_ok log); [done|by eapply remove_entry_evolves|done|apply Hok|done].
  - eapply (evolves_ok log _ _ _ _ _ _ None); [done| |done|apply Hok|done]. intros k e'. rewrite Hsame. intros He'. left. by exists e'.
Qed.

Lemma lookups_reachable x y : rtc lookup_step x y → lookups_ok x.1 x.2 → lookups_ok y.1 y.2.
Proof. induction 1 as [|x y z Hs _ IH]; [done|]. intros Hok. by apply IH, (lookup_step_ok x). Qed.

(** A shard nobody is looking into, whose entries have not been read. *)
Definition quiet (log : list (Z * (Z * Z * Z))) (w : LookupWorld F) : Prop :=
  lw_reads w = ∅ ∧ lw_callers w = ∅ ∧ lw_metrics w = mkLookupMetrics (λ _, 0) 0 ∧ Forall (λ x, 0 ≤ x.2.1.1 ∧ 0 ≤ x.2.2) log
  ∧ ∀ key e, entries_by_key (entry_index (lw_shard w)) !! key = Some e → shared_read e = None ∧ (key, described e) ∈ log.

Lemma quiet_ok log w : quiet log w → lookups_ok log w.
Proof.
  intros (Hr & Hc & Hm & Hlog & He). constructor; rewrite ?Hr, ?Hc, ?Hm; try done; try (intros *; by rewrite lookup_empty).
  - intros key e Hk. destruct (He key e Hk) as [Hn Hin]. rewrite Hn. done.
Qed.
End interleaving.

(** ** Properties *)

(** C17: a lookup on its own is correct whatever the disk holds.  It never panics,
    changes neither the disk nor what other keys see, and records exactly one
    outcome.  It returns the object of the key (a buffered copy, or the payload on
    disk after its checksum matched); otherwise it misses because the key is
    absent, the caller fell through, the read failed, or the checksum failed, and
    only the last removes the entry.  When every payload is intact no lookup
    changes what any key sees. *)
Theorem lookup_returns_view `{Hasher} `{PayloadReaderOk F} bounds (d : DiskCacheInner F) m key next permit :
  inner_consistent bounds d → is_u128 key → (0 < length (shards d))%nat →
  ∃ d' o r, get_with_fallthrough d m key next permit = Done (d', record_lookup m o, r)
    ∧ inner_consistent bounds d' ∧ (inner_ok bounds d → inner_ok bounds d' ∧ o ≠ ChecksumFailed)
    ∧ contents (file d') = contents (file d)
    ∧ (∀ k, k ≠ key ∨ o ≠ ChecksumFailed → view d' k = view d k)
    ∧ match o with
      | Hit => ∃ bytes c, r = Some (bytes, c) ∧ view d key = Some bytes ∧ Z.of_nat (length bytes) ≤ c
      | Absent => r = None ∧ view d key = None
      | IoError => r = None ∧ is_Some (view d key)
      | ChecksumFailed => r = None ∧ view d' key = None
      | Fallthrough => r = None ∧ permit = false
      end.
Proof.
  intros Hc Hk Hne. destruct (get_spec bounds d m key next permit Hc ltac:(apply Hk) Hne) as (d' & o & r & Hrun & [? ? (_ & ? & _) ? ?]).
  exists d', o, r. by split_and!.
Qed.

Definition no_lookups : LookupMetrics := mkLookupMetrics (λ _, 0) 0.

Lemma lookup_returns_view_witness :
  let _ := sum_hasher in
  ∃ d' o r, get_with_fallthrough sample_cache no_lookups 7 0 true = Done (d', record_lookup no_lookups o, r) ∧ inner_consistent [(1, 9)] d'.
Proof.
  intros hash. destruct (lookup_returns_view [(1, 9)] sample_cache no_lookups 7 0 true (inner_ok_consistent _ _ sample_cache_ok))
    as (d' & o & r & Hrun & Hok & _); [by vm_compute|cbn; lia|]. exists d', o, r. split; [exact Hrun|exact Hok].
Defined.

(** C8: over any sequence of writes, flushes, discards and lookups no operation
    panics, the cache stays consistent, and each object a lookup returns is
    exactly the bytes of an earlier write under that key, or what the key showed
    at the start. *)
Theorem lookups_return_written_objects `{HasherOk} `{StorageFileOk F} `{!PayloadReader F} `{!PayloadReaderOk F} `{RetentionScorer Hist}
    (histories : Hist) size bounds (d : DiskCacheInner F) m ops :
  inner_ok bounds d → (0 < length (shards d))%nat → Forall op_key_ok ops →
  ∃ d' m' rs, run_ops histories size d m ops = Done (d', m', rs) ∧ inner_ok bounds d'
    ∧ ∀ i key v, rs !! i = Some (Some (key, v)) → view d key = Some v ∨ ∃ j, (j < i)%nat ∧ ops !! j = Some (OpWrite key v).
Proof. intros Hok Hne Hkeys. by apply run_ops_spec. Qed.

Lemma lookups_return_written_objects_witness :
  let _ := sum_hasher in let _ := sample_scorer in
  ∃ d' m' rs, run_ops () 64 sample_cache no_lookups [OpWrite 7 [Byte.x01]; OpGet 7 0 true; OpFlush; OpGet 7 0 true] = Done (d', m', rs)
    ∧ inner_ok [(1, 9)] d'.
Proof.
  intros hash scorer. assert (Hh : @HasherOk hash) by apply sum_hasher_ok.
  destruct (lookups_return_written_objects () 64 [(1, 9)] sample_cache no_lookups
    [OpWrite 7 [Byte.x01]; OpGet 7 0 true; OpFlush; OpGet 7 0 true] sample_cache_ok) as (d' & m' & rs & Hrun & Hok & _);
    [cbn; lia|by repeat constructor|]. exists d', m', rs. split; [exact Hrun|exact Hok].
Defined.

(** C9: lookups, writers and evictions may interleave in any order.  An object
    read from disk always has the length and checksum of a payload that was
    published for its key, however the disk and the index changed meanwhile; at
    most one caller initialises a shared read; a finished read removes at most
    the entry of its own key, and only one that still refers to the payload that
    failed its checksum, never a replacement; and each returned caller is counted
    under one outcome, hits with a duration. *)
Theorem interleaved_lookups_safe `{Hasher} `{PayloadReaderOk F} log0 (w0 : LookupWorld F) log w :
  quiet log0 w0 → rtc lookup_step (log0, w0) (log, w) →
  (∀ c key id o bytes cap, lw_callers w !! c = Some (Returned key (Some id) o (Some (bytes, cap))) →
     ∃ len checksum address, (key, (len, checksum, address)) ∈ log ∧ Z.of_nat (length bytes) = len ∧ xxh64 bytes = checksum)
  ∧ (∀ c c' s s' id, lw_callers w !! c = Some s → lw_callers w !! c' = Some s' → caller_init s = Some id → caller_init s' = Some id → c = c')
  ∧ (∀ c key id w', lw_callers w !! c = Some (ReadingPayload key id) → finish_read w c key id = Done w' →
       lw_shard w' = lw_shard w
       ∨ remove_entry_from_index (lw_shard w) key = Done (lw_shard w')
         ∧ ∃ e, entries_by_key (entry_index (lw_shard w)) !! key = Some e
             ∧ xxh64 (entry_payload (contents (lw_file w)) e) ≠ payload_checksum e)
  ∧ (∀ o, lookup_outcomes (lw_metrics w) o = msum (λ _, returned_with o) (lw_callers w))
  ∧ hit_durations (lw_metrics w) = lookup_outcomes (lw_metrics w) Hit.
Proof.
  intros Hq Hr. assert (Hok := lookups_reachable _ _ Hr (quiet_ok _ _ Hq)). cbn [fst snd] in Hok.
  split_and!; [apply Hok|apply Hok| |apply Hok|apply Hok].
  intros c key id w' Hc (r & f & res & sh & Hrd & Hv & Hrem & ->)%finish_read_cases.
  replace (lw_shard (return_result _ c key id res)) with sh by (by destruct res as [[]|]).
  destruct (remove_failed_evolves _ _ _ _ _ Hrem) as [_ [->|(-> & Hrem' & e & He & Hs)]]; [by left|]. right. split; [done|]. exists e. split; [done|].
  destruct (lo_entries _ _ Hok key e He) as [_ Hsh]. destruct (Hsh id Hs) as (r0 & Hr0 & Hd). rewrite Hrd in Hr0. injection Hr0 as <-.
  destruct (lo_reads _ _ Hok id r Hrd) as (_ & _ & Ha0 & _).
  destruct (read_and_verify_spec (lw_file w) r Ha0) as (f' & res' & Hv' & _ & _ & Hres). rewrite Hv in Hv'. injection Hv' as <- <-.
  destruct Hres as [|[_ Hbad]]; [done|]. rewrite Hd in Hbad. injection Hd as _ Hck _. by rewrite Hck in Hbad.
Qed.

(** One entry, whose payload is damaged, and two callers who share its read. *)
Definition damaged_shard : DiskCacheShard :=
  mkDiskCacheShard (allocator (new_shard 1 9)) (mkDiskEntryIndex {[7 := mkDiskEntry None 0 3 99 CHUNK_BYTES (mkLocation 0 0)]} [7] 0 1 3) (metadata_pages (new_shard 1 9)).
Definition damaged_world : LookupWorld RamFile :=
  mkLookupWorld (mkRamFile (9 * CHUNK_BYTES) (λ _, Byte.x01) []) damaged_shard (mkSmallEntryBuffer [] []) false ∅ 0 ∅ no_lookups.
Definition two_callers : LookupWorld RamFile :=
  set_caller (start_lookup (start_lookup damaged_world 0 7) 1 7) 0 (AcquiringPermit 7 0).

Lemma interleaved_lookups_safe_witness :
  let _ := sum_hasher in
  rtc lookup_step ([(7, (3, 99, CHUNK_BYTES))], damaged_world) ([(7, (3, 99, CHUNK_BYTES))], two_callers)
  ∧ hit_durations (lw_metrics two_callers) = lookup_outcomes (lw_metrics two_callers) Hit.
Proof.
  intros hash. assert (Hr : rtc lookup_step ([(7, (3, 99, CHUNK_BYTES))], damaged_world) ([(7, (3, 99, CHUNK_BYTES))], two_callers)).
  { eapply rtc_l; [by apply (step_start _ _ 0 7)|]. eapply rtc_l; [by apply (step_start _ _ 1 7)|]. apply rtc_once.
    eapply (step_init _ _ 0 7 0); [reflexivity|reflexivity|reflexivity|].
    intros c s. change (lw_callers (start_lookup _ 1 7)) with (<[1%nat := AwaitingResult 7 0]> (<[0%nat := AwaitingResult 7 0]> (∅ : gmap nat Caller))).
    intros [[_ <-]|[_ [[_ <-]|[_ Hs]]%lookup_insert_Some]]%lookup_insert_Some; done. }
  split; [exact Hr|]. destruct (interleaved_lookups_safe [(7, (3, 99, CHUNK_BYTES))] damaged_world [(7, (3, 99, CHUNK_BYTES))] two_callers) as (_ & _ & _ & _ & Hh);
    [|exact Hr|exact Hh].
  split_and!; try done. { repeat constructor; done. }
  intros key e. cbn [lw_shard damaged_world damaged_shard entry_index entries_by_key]. intros [<- <-]%lookup_singleton_Some. split; [done|left].
Defined.
