(* ===== verification/WriteQueue.v ===== *)
(** * The background write queue ([disk_cache/write_queue.rs], [disk_metrics.rs])

    Producers queue objects without waiting; one task takes them in order and
    writes them to the disk cache.  A guard counts each object's bytes from its
    admission until its entry is published or discarded, and is kept by the small
    entry buffer meanwhile. *)

From S2P Require Import Prelude Codec Errors Disk BTree Allocation PageFormat Metadata Float64 Retention.
From S2P Require Import EntryIndex Shard Writer DiskCache.

Definition MAX_QUEUED_ENTRIES : nat := 512.

(** [DiskWriteQueueOutcome] *)
Inductive DiskWriteQueueOutcome := Queued | Full | Closed | QueueCanceled.
Global Instance DiskWriteQueueOutcome_eq_dec : EqDecision DiskWriteQueueOutcome.
Proof. solve_decision. Defined.

(** The queue's part of [DiskMetrics]; [queue_durations] counts the recorded waits. *)
Record QueueMetrics := mkQueueMetrics {
  queue_outcomes : DiskWriteQueueOutcome → Z;
  queued_entries : Z;
  pending_bytes : Z;
  queue_durations : Z
}.
(** [DiskMetrics::record_queue] *)
Definition record_queue (o : DiskWriteQueueOutcome) (m : QueueMetrics) : QueueMetrics :=
  mkQueueMetrics (λ k, if decide (k = o) then queue_outcomes m k + 1 else queue_outcomes m k)
    (queued_entries m) (pending_bytes m) (queue_durations m).
Definition add_queue_gauges (entries bytes durations : Z) (m : QueueMetrics) : QueueMetrics :=
  mkQueueMetrics (queue_outcomes m) (queued_entries m + entries) (pending_bytes m + bytes) (queue_durations m + durations).

(** [QueuedWriteMetrics] and [PendingDiskWrite] *)
Record QueuedWriteMetrics := mkQueuedWriteMetrics { guard_bytes : Z; queued_at : option Z }.
Record PendingDiskWrite := mkPendingDiskWrite { pending_key : Z; pending_payload : list byte; entry_metrics : QueuedWriteMetrics }.

(** [QueuedWriteMetrics::finish_queue_wait] *)
Definition finish_queue_wait (g : QueuedWriteMetrics) (m : QueueMetrics) : outcome (QueuedWriteMetrics * QueueMetrics) :=
  _ ← unwrap (queued_at g);
  Done (mkQueuedWriteMetrics (guard_bytes g) None, add_queue_gauges (-1) 0 1 m).

(** [impl Drop for QueuedWriteMetrics] *)
Definition drop_guard (m : QueueMetrics) (g : QueuedWriteMetrics) : QueueMetrics :=
  let m := add_queue_gauges 0 (- guard_bytes g) 0 m in
  match queued_at g with
  | Some _ => record_queue QueueCanceled (add_queue_gauges (-1) 0 0 m)
  | None => m
  end.

(** The queue, the disk cache it feeds, and the guards of buffered entries by key. *)
Record WriteQueue (F : Type) := mkWriteQueue {
  wq_disk : DiskCacheInner F;
  wq_channel : list PendingDiskWrite;
  wq_closed : bool;
  wq_held : list (Z * QueuedWriteMetrics);
  wq_metrics : QueueMetrics
}.
Arguments mkWriteQueue {F} _ _ _ _ _.
Arguments wq_disk {F} _.
Arguments wq_channel {F} _.
Arguments wq_closed {F} _.
Arguments wq_held {F} _.
Arguments wq_metrics {F} _.

(** Whether the small-entry buffer of the key's shard holds the key. *)
Definition is_buffered {F} (d : DiskCacheInner F) (key : Z) : bool :=
  match shards d !! shard_index_for_key (length (shards d)) key with
  | Some x => bool_decide (is_Some (buffer_entry x.2 key))
  | None => false
  end.

(** Entries that left the buffers drop their guards. *)
Definition release_guards {F} (d : DiskCacheInner F) (held : list (Z * QueuedWriteMetrics)) (m : QueueMetrics)
  : list (Z * QueuedWriteMetrics) * QueueMetrics :=
  (filter (λ g, is_buffered d g.1 = true) held,
   foldl drop_guard m (snd <$> filter (λ g, is_buffered d g.1 ≠ true) held)).

(** [DiskCache::enqueue_if_space_available] *)
Definition enqueue_if_space_available {F} (q : WriteQueue F) (key : Z) (bytes : list byte) (now : Z) : WriteQueue F :=
  let reject o := mkWriteQueue (wq_disk q) (wq_channel q) (wq_closed q) (wq_held q) (record_queue o (wq_metrics q)) in
  if wq_closed q then reject Closed
  else if bool_decide (MAX_QUEUED_ENTRIES ≤ length (wq_channel q))%nat then reject Full
  else
    let payload_bytes := Z.of_nat (length bytes) in
    let m := add_queue_gauges 1 payload_bytes 0 (record_queue Queued (wq_metrics q)) in
    let entry_metrics := mkQueuedWriteMetrics payload_bytes (Some now) in
    mkWriteQueue (wq_disk q) (wq_channel q ++ [mkPendingDiskWrite key bytes entry_metrics]) false (wq_held q) m.

(** Dropping the receiver closes the queue and drops the queued writes. *)
Definition drop_receiver {F} (q : WriteQueue F) : WriteQueue F :=
  mkWriteQueue (wq_disk q) [] true (wq_held q) (foldl drop_guard (wq_metrics q) (entry_metrics <$> wq_channel q)).

Section queue.
Context `{Hasher} `{StorageFile F} `{RetentionScorer Hist} (histories : Hist) (reclaim_sample_size : nat).

(** One iteration of [DiskCache::write_queued].  The write keeps the guard as its
    completion state: a covered object drops it, a buffered one holds it. *)
Definition write_queued_next (q : WriteQueue F) (p : PendingDiskWrite) (rest : list PendingDiskWrite) : outcome (WriteQueue F) :=
  '(g, m) ← finish_queue_wait (entry_metrics p) (wq_metrics q);
  x ← unwrap (shards (wq_disk q) !! shard_index_for_key (length (shards (wq_disk q))) (pending_key p));
  let covered := shard_contains false x (pending_key p) in
  '(d, _) ← write histories reclaim_sample_size (wq_disk q) (pending_key p) (pending_payload p);
  let '(held, m) := if covered then (wq_held q, drop_guard m g) else (wq_held q ++ [(pending_key p, g)], m) in
  let '(held, m) := release_guards d held m in
  Done (mkWriteQueue d rest (wq_closed q) held m).

(** [DiskCache::write_queued], for the writes that are queued. *)
Fixpoint write_queued (q : WriteQueue F) (channel : list PendingDiskWrite) : outcome (WriteQueue F) :=
  match channel with
  | [] => Done q
  | p :: rest => q ← write_queued_next q p rest; write_queued q rest
  end.

(** A flush, and [DiskCache::discard_pending]. *)
Definition queue_flush (q : WriteQueue F) : outcome (WriteQueue F) :=
  '(d, _) ← flush histories reclaim_sample_size (wq_disk q);
  let '(held, m) := release_guards d (wq_held q) (wq_metrics q) in
  Done (mkWriteQueue d (wq_channel q) (wq_closed q) held m).
Definition queue_discard (q : WriteQueue F) : WriteQueue F :=
  let d := discard_pending (wq_disk q) in
  let '(held, m) := release_guards d (wq_held q) (wq_metrics q) in
  mkWriteQueue d (wq_channel q) (wq_closed q) held m.

(** Producers, the writer, flushes and shutdown in any order. *)
Inductive write_queue_step : WriteQueue F → WriteQueue F → Prop :=
  | queue_enqueue q key bytes now : is_u128 key → write_queue_step q (enqueue_if_space_available q key bytes now)
  | queue_write q p rest q' : wq_channel q = p :: rest → write_queued_next q p rest = Done q' → write_queue_step q q'
  | queue_do_flush q q' : queue_flush q = Done q' → write_queue_step q q'
  | queue_do_discard q : write_queue_step q (queue_discard q)
  | queue_shutdown q : write_queue_step q (drop_receiver q).
End queue.

(** ** Invariant *)
Definition held_bytes (gs : list (Z * QueuedWriteMetrics)) : Z := zsum (λ g, guard_bytes g.2) gs.
Definition channel_bytes (ps : list PendingDiskWrite) : Z := zsum (λ p, Z.of_nat (length (pending_payload p))) ps.

Record write_queue_ok `{Hasher} `{StorageFile F} (bounds : list (Z * Z)) (q : WriteQueue F) : Prop := mkWriteQueueOk {
  wo_disk : inner_ok bounds (wq_disk q) ∧ (0 < length (shards (wq_disk q)))%nat;
  wo_length : (length (wq_channel q) ≤ MAX_QUEUED_ENTRIES)%nat;
  wo_channel : Forall (λ p, is_u128 (pending_key p) ∧ guard_bytes (entry_metrics p) = Z.of_nat (length (pending_payload p))
                            ∧ is_Some (queued_at (entry_metrics p))) (wq_channel q);
  wo_held : Forall (λ g, queued_at g.2 = None ∧ is_buffered (wq_disk q) g.1 = true) (wq_held q);
  wo_entries : queued_entries (wq_metrics q) = Z.of_nat (length (wq_channel q));
  wo_bytes : pending_bytes (wq_metrics q) = channel_bytes (wq_channel q) + held_bytes (wq_held q);
  wo_outcomes : queue_outcomes (wq_metrics q) Queued
    = queue_durations (wq_metrics q) + queue_outcomes (wq_metrics q) QueueCanceled + Z.of_nat (length (wq_channel q))
}.

(** ** Guards *)
Lemma filter_split_sum {A} (f : A → Z) (P : A → Prop) `{∀ x, Decision (P x)} l :
  zsum f l = zsum f (filter P l) + zsum f (filter (λ x, ¬ P x) l).
Proof.
  induction l as [|x l IH]; [done|]. rewrite !filter_cons. destruct (decide (P x)); repeat case_decide; try done; rewrite ?zsum_cons; lia.
Qed.

(** Dropping guards that no longer wait only returns their bytes. *)
Lemma drop_idle_guards gs : ∀ m,
  Forall (λ g, queued_at g = None) gs → foldl drop_guard m gs = add_queue_gauges 0 (- zsum guard_bytes gs) 0 m.
Proof.
  induction gs as [|g gs IH]; intros m Hg; cbn [foldl].
  { destruct m. unfold add_queue_gauges. rewrite zsum_nil. cbn. f_equal; lia. }
  apply Forall_cons in Hg as [Hn Hg]. rewrite IH by done. unfold drop_guard. rewrite Hn. unfold add_queue_gauges. cbn [queue_outcomes queued_entries pending_bytes queue_durations].
  rewrite zsum_cons. f_equal; lia.
Qed.

Lemma release_guards_spec {F} (d : DiskCacheInner F) held m :
  Forall (λ g, queued_at g.2 = None) held →
  ∃ held' freed, release_guards d held m = (held', add_queue_gauges 0 (- freed) 0 m)
    ∧ held_bytes held = held_bytes held' + freed ∧ Forall (λ g, queued_at g.2 = None ∧ is_buffered d g.1 = true) held'.
Proof.
  intros Hh. unfold release_guards. rewrite drop_idle_guards.
  2:{ apply Forall_fmap. apply Forall_forall. intros g [_ Hg]%list_elem_of_filter. rewrite Forall_forall in Hh. by apply Hh. }
  eexists _, _. split; [reflexivity|]. split.
  - unfold held_bytes. rewrite zsum_fmap. apply (filter_split_sum (λ g, guard_bytes g.2) (λ g, is_buffered d g.1 = true)).
  - apply Forall_forall. intros g [Hb Hg]%list_elem_of_filter. rewrite Forall_forall in Hh. by split; [apply Hh|].
Qed.

Lemma drop_queued_guards ps : ∀ m,
  Forall (λ p, guard_bytes (entry_metrics p) = Z.of_nat (length (pending_payload p)) ∧ is_Some (queued_at (entry_metrics p))) ps →
  let m' := foldl drop_guard m (entry_metrics <$> ps) in
  queued_entries m' = queued_entries m - Z.of_nat (length ps) ∧ pending_bytes m' = pending_bytes m - channel_bytes ps
  ∧ queue_durations m' = queue_durations m ∧ queue_outcomes m' Queued = queue_outcomes m Queued
  ∧ queue_outcomes m' QueueCanceled = queue_outcomes m QueueCanceled + Z.of_nat (length ps).
Proof.
  induction ps as [|p ps IH]; intros m Hp m'; [split_and!; unfold m', channel_bytes; cbn [fmap list_fmap foldl length]; rewrite ?zsum_nil; lia|].
  apply Forall_cons in Hp as [[Hb [t Ht]] Hp]. unfold m'. cbn [fmap list_fmap foldl].
  destruct (IH (drop_guard m (entry_metrics p)) Hp) as (E1 & E2 & E3 & E4 & E5). rewrite E1, E2, E3, E4, E5.
  unfold drop_guard, channel_bytes. rewrite Ht, zsum_cons. cbn [record_queue add_queue_gauges queue_outcomes queued_entries pending_bytes queue_durations length].
  rewrite decide_False, decide_True by done. split_and!; lia.
Qed.

(** ** Steps *)
Section steps.
Context `{HasherOk} `{StorageFileOk F} `{RetentionScorer Hist} (histories : Hist) (size : nat) (bounds : list (Z * Z)).

(** The cache changed and the entries that left its buffers let go. *)
Lemma settle_ok d' q (channel : list PendingDiskWrite) held m held' freed :
  inner_ok bounds d' → (0 < length (shards d'))%nat → (length channel ≤ MAX_QUEUED_ENTRIES)%nat →
  Forall (λ p, is_u128 (pending_key p) ∧ guard_bytes (entry_metrics p) = Z.of_nat (length (pending_payload p)) ∧ is_Some (queued_at (entry_metrics p))) channel →
  release_guards d' held m = (held', add_queue_gauges 0 (- freed) 0 m) → held_bytes held = held_bytes held' + freed →
  Forall (λ g, queued_at g.2 = None ∧ is_buffered d' g.1 = true) held' →
  queued_entries m = Z.of_nat (length channel) → pending_bytes m = channel_bytes channel + held_bytes held →
  queue_outcomes m Queued = queue_durations m + queue_outcomes m QueueCanceled + Z.of_nat (length channel) →
  write_queue_ok bounds (mkWriteQueue (F := F) d' channel q held' (add_queue_gauges 0 (- freed) 0 m)).
Proof.
  intros Hd Hne Hl Hc _ Hb Hh E1 E2 E3. constructor; cbn [wq_disk wq_channel wq_held wq_metrics add_queue_gauges queue_outcomes queued_entries pending_bytes queue_durations]; try done; lia.
Qed.

Lemma held_idle q : write_queue_ok bounds q → Forall (λ g, queued_at g.2 = None) (wq_held q).
Proof. intros Hok. eapply Forall_impl; [exact (wo_held _ _ Hok)|]. by intros g []. Qed.

Lemma write_enqueue_ok q key bytes now : write_queue_ok bounds q → is_u128 key → write_queue_ok bounds (enqueue_if_space_available (F := F) q key bytes now).
Proof.
  intros [Hd Hl Hc Hh E1 E2 E3] Hk. unfold enqueue_if_space_available. destruct (wq_closed q); [by constructor|]. case_bool_decide as Hfull; [by constructor|].
  constructor; cbn [wq_disk wq_channel wq_held wq_metrics add_queue_gauges record_queue queue_outcomes queued_entries pending_bytes queue_durations]; try done.
  - rewrite length_app. cbn. lia.
  - apply Forall_app. split; [done|]. constructor; [|done]. split_and!; [exact Hk|done|by eexists].
  - rewrite length_app. cbn. lia.
  - unfold channel_bytes in *. rewrite zsum_app, zsum_cons, zsum_nil. cbn [pending_payload]. lia.
  - rewrite decide_True, decide_False, length_app by done. cbn. lia.
Qed.

Lemma write_queued_next_ok q p rest :
  write_queue_ok bounds q → wq_channel q = p :: rest →
  ∃ q', write_queued_next histories size q p rest = Done q' ∧ write_queue_ok bounds q' ∧ wq_channel q' = rest
    ∧ (∀ k v, view (wq_disk q') k = Some v → view (wq_disk q) k = Some v ∨ (k = pending_key p ∧ v = pending_payload p)).
Proof.
  intros Hok Hch. assert (Hidle := held_idle q Hok). destruct Hok as [[Hd Hne] Hl Hc Hh E1 E2 E3]. rewrite Hch in *. apply Forall_cons in Hc as [(Hk & Hb & [t Ht]) Hc].
  unfold write_queued_next, finish_queue_wait. rewrite Ht. cbn [unwrap mbind outcome_bind].
  destruct (lookup_lt_is_Some_2 (shards (wq_disk q)) (shard_index_for_key (length (shards (wq_disk q))) (pending_key p))) as [x ->]; [by apply key_shard_lt; [apply Hk|]|].
  cbn [unwrap mbind outcome_bind].
  destruct (write_ok histories size bounds (wq_disk q) (pending_key p) (pending_payload p) Hd Hk Hne) as (d' & r & Hrun & [Hd' Hlen _ Hv _]). rewrite Hrun.
  cbn [mbind outcome_bind]. set (g := mkQueuedWriteMetrics _ None). set (m1 := add_queue_gauges (-1) 0 1 _).
  assert (Hview : ∀ k v, view d' k = Some v → view (wq_disk q) k = Some v ∨ (k = pending_key p ∧ v = pending_payload p)).
  { intros k v Hkv. destruct (Hv k v Hkv) as [?|(-> & -> & _)]; auto. }
  assert (Hsettle : ∀ held m, Forall (λ g, queued_at g.2 = None) held → queued_entries m = Z.of_nat (length rest) →
    pending_bytes m = channel_bytes rest + held_bytes held →
    queue_outcomes m Queued = queue_durations m + queue_outcomes m QueueCanceled + Z.of_nat (length rest) →
    ∃ q', (let '(held, m) := release_guards d' held m in Done (mkWriteQueue d' rest (wq_closed q) held m)) = Done q' ∧ write_queue_ok bounds q' ∧ wq_channel q' = rest
    ∧ (∀ k v, view (wq_disk q') k = Some v → view (wq_disk q) k = Some v ∨ (k = pending_key p ∧ v = pending_payload p))).
  { intros held m Hg F1 F2 F3. destruct (release_guards_spec d' held m Hg) as (held' & freed & Hrel & Hbytes & Hheld'). rewrite Hrel.
    eexists. split; [reflexivity|]. split_and!; [|done|done]. eapply settle_ok; try done; [lia|cbn in Hl; lia]. }
  unfold channel_bytes in E2. rewrite zsum_cons in E2. cbn [length] in E1, E3.
  destruct (shard_contains false x (pending_key p)); apply Hsettle; cbn [drop_guard g queued_at guard_bytes add_queue_gauges m1 queue_outcomes queued_entries pending_bytes queue_durations];
    try done; unfold channel_bytes, held_bytes in *; rewrite ?zsum_app, ?zsum_cons, ?zsum_nil; cbn [snd guard_bytes g]; try lia.
  apply Forall_app. split; [done|]. by repeat constructor.
Qed.

Lemma write_queued_ok channel : ∀ q,
  write_queue_ok bounds q → wq_channel q = channel →
  ∃ q', write_queued histories size q channel = Done q' ∧ write_queue_ok bounds q' ∧ wq_channel q' = []
    ∧ ∀ k v, view (wq_disk q') k = Some v → view (wq_disk q) k = Some v ∨ ∃ p, p ∈ channel ∧ pending_key p = k ∧ pending_payload p = v.
Proof.
  induction channel as [|p channel IH]; intros q Hok Hch; cbn [write_queued]; [exists q; split_and!; [done..|by left]|].
  destruct (write_queued_next_ok q p channel Hok Hch) as (q1 & Hrun & Hok1 & Hch1 & Hv1). rewrite Hrun. cbn [mbind outcome_bind].
  destruct (IH q1 Hok1 Hch1) as (q' & Hrun' & Hok' & Hch' & Hv'). exists q'. split_and!; [done..|].
  intros k v Hk. destruct (Hv' k v Hk) as [[Hold|[-> ->]]%Hv1|(p' & Hp' & ? & ?)]; [by left|right; exists p; split; [left|done]|].
  right. exists p'. split; [by right|done].
Qed.

Lemma write_queue_step_ok q q' : write_queue_step histories size q q' → write_queue_ok bounds q → write_queue_ok bounds q'.
Proof.
  destruct 1 as [q key bytes now Hk|q p rest q' Hch Hrun|q q' Hrun|q|q]; intros Hok.
  - by apply write_enqueue_ok.
  - destruct (write_queued_next_ok q p rest Hok Hch) as (q1 & Hrun1 & Hok1 & _). rewrite Hrun in Hrun1. by injection Hrun1 as <-.
  - unfold queue_flush in Hrun. destruct (flush_ok histories size bounds (wq_disk q) (proj1 (wo_disk _ _ Hok))) as (d' & r & Hf & Hd' & _ & Hlen & _).
    rewrite Hf in Hrun. cbn [mbind outcome_bind] in Hrun. destruct (release_guards_spec d' (wq_held q) (wq_metrics q) (held_idle q Hok)) as (held' & freed & Hrel & Hb & Hh).
    rewrite Hrel in Hrun. injection Hrun as <-. destruct Hok as [[_ Hne] Hl Hc _ E1 E2 E3]. eapply settle_ok; try done. lia.
  - unfold queue_discard. destruct (discard_ok bounds (wq_disk q) (proj1 (wo_disk _ _ Hok))) as (Hd' & _).
    destruct (release_guards_spec (discard_pending (wq_disk q)) (wq_held q) (wq_metrics q) (held_idle q Hok)) as (held' & freed & Hrel & Hb & Hh).
    rewrite Hrel. destruct Hok as [[_ Hne] Hl Hc _ E1 E2 E3]. eapply settle_ok; try done. cbn. by rewrite length_fmap.
  - destruct Hok as [Hd Hl Hc Hh E1 E2 E3]. destruct (drop_queued_guards (wq_channel q) (wq_metrics q)) as (F1 & F2 & F3 & F4 & F5).
    { eapply Forall_impl; [exact Hc|]. by intros p (_ & ? & ?). }
    constructor; cbn [drop_receiver wq_disk wq_channel wq_held wq_metrics length]; try done; assert (channel_bytes [] = 0) by done; lia.
Qed.
End steps.

(** C29: whatever producers, the writer, flushes and shutdown do, the queue holds
    at most 512 objects, its gauges count exactly the waiting objects and the
    bytes that wait or are still buffered, and every admitted object waits, was
    taken once, or was cancelled.  From any such state the writer drains the queue
    without panicking, leaves a consistent cache, and adds only queued objects. *)
Theorem write_queue_accounting `{HasherOk} `{StorageFileOk F} `{RetentionScorer Hist} (histories : Hist) size bounds (q0 q : WriteQueue F) :
  write_queue_ok bounds q0 → rtc (write_queue_step histories size) q0 q →
  (length (wq_channel q) ≤ MAX_QUEUED_ENTRIES)%nat
  ∧ queued_entries (wq_metrics q) = Z.of_nat (length (wq_channel q))
  ∧ pending_bytes (wq_metrics q) = channel_bytes (wq_channel q) + held_bytes (wq_held q)
  ∧ queue_outcomes (wq_metrics q) Queued
    = queue_durations (wq_metrics q) + queue_outcomes (wq_metrics q) QueueCanceled + Z.of_nat (length (wq_channel q))
  ∧ ∃ q', write_queued histories size q (wq_channel q) = Done q' ∧ write_queue_ok bounds q' ∧ wq_channel q' = []
      ∧ ∀ k v, view (wq_disk q') k = Some v → view (wq_disk q) k = Some v ∨ ∃ p, p ∈ wq_channel q ∧ pending_key p = k ∧ pending_payload p = v.
Proof.
  intros Hok0 Hr. assert (Hok : write_queue_ok bounds q).
  { induction Hr as [|q1 q2 q3 Hs _ IH]; [done|]. apply IH. by eapply write_queue_step_ok. }
  split_and!; [apply Hok..|]. by apply write_queued_ok.
Qed.

Definition sample_queue : WriteQueue RamFile := mkWriteQueue sample_cache [] false [] (mkQueueMetrics (λ _, 0) 0 0 0).

Lemma write_queue_accounting_witness :
  let _ := sum_hasher in let _ := sample_scorer in
  pending_bytes (wq_metrics (enqueue_if_space_available sample_queue 7 [Byte.x01; Byte.x02] 5)) = 2.
Proof.
  intros hash scorer. assert (Hh : @HasherOk hash) by apply sum_hasher_ok.
  destruct (write_queue_accounting () 64 [(1, 9)] sample_queue (enqueue_if_space_available sample_queue 7 [Byte.x01; Byte.x02] 5)) as (_ & _ & Hb & _).
  - constructor; cbn [wq_disk wq_channel wq_held wq_metrics sample_queue]; try done; [split; [exact sample_cache_ok|cbn; lia]|cbn; lia].
  - apply rtc_once, queue_enqueue. by vm_compute.
  - exact Hb.
Defined.
