(* ===== verification/Trace.v ===== *)
(** * Access traces ([feuer/src/access_trace.rs], [feuer-replay/src/lib.rs])

    A cache records a 41-byte event when a request starts and when its outcome is
    known; a task packs the events behind a header and delivers packages of about
    8 MiB.  The replay tool decodes packages, selects a time prefix of the
    requests and joins them with their outcomes.  [load_requests] is given the events
    both of its scans see; TraceFiles.v reads them from packages and archives. *)

From stdpp Require Import pretty.
From S2P Require Import Prelude Codec Errors.

(** ** Recording *)

(** [LookupOutcome] of [feuer/src/metrics.rs], with its discriminants. *)
Inductive LookupOutcome := MemoryHit | DiskHit | Callback | CallbackError | Miss.
Definition outcome_as_u8 (o : LookupOutcome) : Z :=
  match o with MemoryHit => 0 | DiskHit => 1 | Callback => 2 | CallbackError => 3 | Miss => 4 end.

Definition PACKAGE_HEADER : list byte :=
  [Byte.x46; Byte.x45; Byte.x54; Byte.x52; Byte.x01; Byte.x00; Byte.x00; Byte.x00].
Definition EVENT_BYTES : nat := 41.
Definition PACKAGE_TARGET_BYTES : Z := 8 * 1024 * 1024.

(** [AccessTrace]: the next request ID and the events sent so far. *)
Record AccessTrace := mkAccessTrace { next_request_id : Z; sent_events : list (list byte) }.
Definition new_access_trace : AccessTrace := mkAccessTrace 1 [].

(** [AccessTrace::send_request_start], at [elapsed_ns] since the trace began; the
    atomic counter wraps. *)
Definition send_request_start (t : AccessTrace) (object_key_hash elapsed_ns : Z) : AccessTrace * Z :=
  let request_id := next_request_id t in
  let event_bytes := zeros EVENT_BYTES in
  let event_bytes := copy_at 1 (u64_to_le_bytes request_id) event_bytes in
  let event_bytes := copy_at 9 (u64_to_le_bytes (u64_wrap elapsed_ns)) event_bytes in
  let event_bytes := copy_at 17 (u128_to_le_bytes object_key_hash) event_bytes in
  (mkAccessTrace (u64_wrap (request_id + 1)) (sent_events t ++ [event_bytes]), request_id).

(** [AccessTrace::send_outcome] *)
Definition send_outcome (t : AccessTrace) (request_id object_key_hash : Z) (o : LookupOutcome) (payload_length elapsed_ns : Z) : AccessTrace :=
  let event_bytes := <[0%nat := byte.of_Z (outcome_as_u8 o + 1)]> (zeros EVENT_BYTES) in
  let event_bytes := copy_at 1 (u64_to_le_bytes request_id) event_bytes in
  let event_bytes := copy_at 9 (u64_to_le_bytes (u64_wrap elapsed_ns)) event_bytes in
  let event_bytes := copy_at 17 (u128_to_le_bytes object_key_hash) event_bytes in
  let event_bytes := copy_at 33 (u64_to_le_bytes payload_length) event_bytes in
  mkAccessTrace (next_request_id t) (sent_events t ++ [event_bytes]).

(** [new_package] *)
Definition new_package : list byte := PACKAGE_HEADER.

(** The task of [AccessTrace::new]: the packages it hands to [deliver_package],
    whose answers are [delivered]; an error ends the task. *)
Fixpoint package_events (package : list byte) (events : list (list byte)) (delivered : list bool) : list (list byte) :=
  match events with
  | [] => if bool_decide (length PACKAGE_HEADER < length package)%nat then [package] else []
  | event_bytes :: events =>
      let package := package ++ event_bytes in
      if PACKAGE_TARGET_BYTES <=? Z.of_nat (length package)
      then package :: (if default true (head delivered) then package_events new_package events (tail delivered) else [])
      else package_events package events delivered
  end.

(** ** Decoding *)

(** The errors of the replay library, by their message. *)
Inductive TraceError :=
  | ExpectedHeader | ExpectedEvents | UnknownKind | UnexpectedLength | InvalidSeconds | NoRequestStarts
  | DuplicateStart | InconsistentLengths | DuplicateOutcome | OutcomeDisagrees | MissingLength
  | ReadFailed (message : string) | NotATrace | NotRegularMember | MultipleSessions | NoPackages.

(** [Event] *)
Record Event := mkEvent { event_kind : Z; request_id : Z; time_ns : Z; object_key : Z; payload_len : option Z }.

Definition has_payload_length (kind : Z) : bool := (1 <=? kind) && (kind <=? 3).

(** The closure of [decode_package] for one event. *)
Definition decode_event (event_bytes : list byte) : result TraceError Event :=
  let u64_at offset := from_le_bytes (slice offset (offset + 8) event_bytes) in
  let kind := byte.unsigned (default Byte.x00 (head event_bytes)) in
  if 5 <? kind then Err UnknownKind
  else if negb (has_payload_length kind) && negb (u64_at 33%nat =? 0) then Err UnexpectedLength
  else Ok (mkEvent kind (u64_at 1%nat) (u64_at 9%nat) (from_le_bytes (slice 17 33 event_bytes))
             (if has_payload_length kind then Some (u64_at 33%nat) else None)).

(** [decode_package]: one result per event. *)
Definition decode_package (package : list byte) : result TraceError (list (result TraceError Event)) :=
  if negb (bool_decide (take 8 package = PACKAGE_HEADER)) then Err ExpectedHeader
  else
    let n := Z.of_nat (length package) - 8 in
    if (n =? 0) || negb (is_multiple_of n 41) then Err ExpectedEvents
    else Ok (decode_event <$> as_chunks 41 (Z.to_nat (n / 41)) (drop 8 package)).

(** ** Round trip *)
Definition event_layout (kind id time key len : Z) : list byte :=
  [byte.of_Z kind] ++ u64_to_le_bytes id ++ u64_to_le_bytes time ++ u128_to_le_bytes key ++ u64_to_le_bytes len.

Lemma length_event_layout k i t o l : length (event_layout k i t o l) = 41%nat.
Proof. unfold event_layout. rewrite !length_app, !length_u64, length_u128. done. Qed.

Lemma decode_layout kind id time key len :
  0 ≤ kind ≤ 5 → is_u64 id → is_u64 time → is_u128 key → is_u64 len → (has_payload_length kind = false → len = 0) →
  decode_event (event_layout kind id time key len) = Ok (mkEvent kind id time key (if has_payload_length kind then Some len else None)).
Proof.
  intros Hk Hi Ht Ho Hl Hz. unfold decode_event. set (bytes := event_layout kind id time key len).
  assert (E0 : byte.unsigned (default Byte.x00 (head bytes)) = kind).
  { change (byte.unsigned (byte.of_Z kind) = kind). rewrite byte.unsigned_of_Z. unfold byte.wrap. apply Z.mod_small. lia. }
  assert (E1 : slice 1 (1 + 8) bytes = u64_to_le_bytes id).
  { unfold bytes, event_layout. rewrite (slice_app_r _ _ 1), slice_app_l by (rewrite ?length_u64; done). by apply slice_full; rewrite ?length_u64. }
  assert (E9 : slice 9 (9 + 8) bytes = u64_to_le_bytes time).
  { unfold bytes, event_layout. rewrite (slice_app_r _ _ 1), (slice_app_r _ _ 8), slice_app_l by (rewrite ?length_u64; done || lia). by apply slice_full; rewrite ?length_u64. }
  assert (E17 : slice 17 33 bytes = u128_to_le_bytes key).
  { unfold bytes, event_layout. rewrite (slice_app_r _ _ 1), (slice_app_r _ _ 8), (slice_app_r _ _ 8), slice_app_l by (rewrite ?length_u64, ?length_u128; done || lia).
    by apply slice_full; rewrite ?length_u128. }
  assert (E33 : slice 33 (33 + 8) bytes = u64_to_le_bytes len).
  { unfold bytes, event_layout. rewrite (slice_app_r _ _ 1), (slice_app_r _ _ 8), (slice_app_r _ _ 8), (slice_app_r _ _ 16) by (rewrite ?length_u64, ?length_u128; done || lia).
    by apply slice_full; rewrite ?length_u64. }
  rewrite E0, E1, E9, E17, E33, !u64_le_roundtrip, u128_le_roundtrip by done. rewrite (proj2 (Z.ltb_ge 5 kind)) by lia.
  destruct (has_payload_length kind); cbn [negb andb]; [done|]. rewrite Hz by done. done.
Qed.

(** Both kinds of event have this layout. *)
Lemma start_event_bytes t key elapsed :
  (send_request_start t key elapsed).1
  = mkAccessTrace (u64_wrap (next_request_id t + 1)) (sent_events t ++ [event_layout 0 (next_request_id t) (u64_wrap elapsed) key 0]).
Proof. reflexivity. Qed.

Lemma outcome_event_bytes t id key o len elapsed :
  send_outcome t id key o len elapsed
  = mkAccessTrace (next_request_id t) (sent_events t ++ [event_layout (outcome_as_u8 o + 1) id (u64_wrap elapsed) key len]).
Proof. reflexivity. Qed.

(** The calls a cache makes, and the event each stands for. *)
Inductive TraceCall :=
  | CallStart (key elapsed_ns : Z)
  | CallOutcome (id key : Z) (o : LookupOutcome) (payload_length elapsed_ns : Z).
Definition trace_call (t : AccessTrace) (c : TraceCall) : AccessTrace :=
  match c with
  | CallStart key elapsed => (send_request_start t key elapsed).1
  | CallOutcome id key o len elapsed => send_outcome t id key o len elapsed
  end.
Definition succeeded (o : LookupOutcome) : bool := match o with MemoryHit | DiskHit | Callback => true | _ => false end.
Definition call_ok (c : TraceCall) : Prop :=
  match c with
  | CallStart key _ => is_u128 key
  | CallOutcome id key o len _ => is_u64 id ∧ is_u128 key ∧ is_u64 len ∧ (succeeded o = false → len = 0)
  end.
Fixpoint expected_events (next : Z) (cs : list TraceCall) : list Event :=
  match cs with
  | [] => []
  | CallStart key elapsed :: cs => mkEvent 0 next (u64_wrap elapsed) key None :: expected_events (u64_wrap (next + 1)) cs
  | CallOutcome id key o len elapsed :: cs =>
      mkEvent (outcome_as_u8 o + 1) id (u64_wrap elapsed) key (if succeeded o then Some len else None) :: expected_events next cs
  end.

Lemma u64_wrap_is z : is_u64 (u64_wrap z).
Proof. apply Z.mod_pos_bound. done. Qed.

Lemma sent_events_decode cs : ∀ t,
  is_u64 (next_request_id t) → Forall call_ok cs →
  ∃ es, sent_events (foldl trace_call t cs) = sent_events t ++ es ∧ Forall (λ e, length e = 41%nat) es
    ∧ decode_event <$> es = Ok <$> expected_events (next_request_id t) cs.
Proof.
  induction cs as [|c cs IH]; intros t Hn Hcs; [exists []; rewrite app_nil_r; by split_and!|].
  apply Forall_cons in Hcs as [Hc Hcs]. cbn [foldl]. destruct c as [key elapsed|id key o len elapsed]; cbn [trace_call].
  - rewrite start_event_bytes. destruct (IH (mkAccessTrace (u64_wrap (next_request_id t + 1)) (sent_events t ++ [event_layout 0 (next_request_id t) (u64_wrap elapsed) key 0])))
      as (es & Hs & Hl & Hd); [apply u64_wrap_is|done|].
    eexists (_ :: es). rewrite Hs. cbn [sent_events]. rewrite <-app_assoc. split_and!; [reflexivity|constructor; [apply length_event_layout|done]|].
    rewrite fmap_cons, decode_layout by (try apply u64_wrap_is; done). rewrite Hd. done.
  - rewrite outcome_event_bytes. destruct Hc as (Hi & Hk & Hlen & Hz). destruct (IH (mkAccessTrace (next_request_id t) (sent_events t ++ [event_layout (outcome_as_u8 o + 1) id (u64_wrap elapsed) key len])))
      as (es & Hs & Hl & Hd); [done|done|].
    eexists (_ :: es). rewrite Hs. cbn [sent_events]. rewrite <-app_assoc. split_and!; [reflexivity|constructor; [apply length_event_layout|done]|].
    assert (Hsucc : has_payload_length (outcome_as_u8 o + 1) = succeeded o) by (by destruct o).
    rewrite fmap_cons, decode_layout, Hd, Hsucc by (rewrite ?Hsucc; try apply u64_wrap_is; destruct o; done || (cbn; lia)). done.
Qed.

(** Packing cuts the events into nonempty groups, in order. *)
Lemma package_events_groups es : ∀ pending delivered,
  Forall (λ e, length e = 41%nat) (pending ++ es) →
  ∃ groups, package_events (PACKAGE_HEADER ++ concat pending) es delivered = (λ g, PACKAGE_HEADER ++ concat g) <$> groups
    ∧ Forall (λ g, g ≠ []) groups ∧ concat groups `prefix_of` pending ++ es
    ∧ (Forall (λ b, b = true) delivered → concat groups = pending ++ es).
Proof.
  induction es as [|e es IH]; intros pending delivered Hl; cbn [package_events].
  - rewrite app_nil_r in *. rewrite length_app. case_bool_decide as Hn.
    + exists [pending]. cbn. rewrite !app_nil_r. split_and!; try done. constructor; [|done]. intros ->. cbn in Hn. lia.
    + exists []. destruct pending as [|p0 ps]; [split_and!; done|]. exfalso. apply Hn. apply Forall_cons in Hl as [Hl0 _]. cbn [concat]. rewrite length_app. lia.
  - rewrite cons_middle, app_assoc in Hl |- *. assert (Hcat : (PACKAGE_HEADER ++ concat pending) ++ e = PACKAGE_HEADER ++ concat (pending ++ [e])).
    { rewrite concat_app. cbn [concat]. by rewrite app_nil_r, app_assoc. }
    rewrite Hcat. destruct (PACKAGE_TARGET_BYTES <=? _); [|by apply IH].
    destruct (default true (head delivered)) eqn:Hb.
    + destruct (IH [] (tail delivered) ltac:(by apply Forall_app in Hl as [_ ?])) as (groups & Hrun & Hne & Hpre & Hall). exists ((pending ++ [e]) :: groups).
      rewrite fmap_cons. change new_package with (PACKAGE_HEADER ++ concat []). rewrite Hrun. split_and!; [done| | |].
      * constructor; [by destruct pending|done].
      * cbn [concat]. by apply prefix_app.
      * intros Hd. cbn [concat]. f_equal. apply Hall. by destruct Hd.
    + exists [pending ++ [e]]. split_and!; [done| | |].
      * constructor; [by destruct pending|done].
      * cbn [concat]. rewrite app_nil_r. by apply prefix_app_r.
      * intros Hd. by destruct Hd as [|? ? ->].
Qed.

Lemma decode_group g :
  g ≠ [] → Forall (λ e, length e = 41%nat) g → decode_package (PACKAGE_HEADER ++ concat g) = Ok (decode_event <$> g).
Proof.
  intros Hne Hl. unfold decode_package. rewrite bool_decide_eq_true_2 by done. cbn [negb].
  assert (Hn : Z.of_nat (length (PACKAGE_HEADER ++ concat g)) - 8 = Z.of_nat (length g) * 41).
  { rewrite length_app, (length_concat_const 41 g Hl). change (length PACKAGE_HEADER) with 8%nat. lia. }
  rewrite Hn. assert (length g ≠ 0%nat) by (by destruct g). rewrite (proj2 (Z.eqb_neq _ _)) by lia.
  rewrite (proj2 (is_multiple_of_spec _ 41 ltac:(done))) by (by apply Z.mod_mul). cbn [orb negb]. rewrite Z.div_mul by done. rewrite Nat2Z.id.
  change (drop 8 (PACKAGE_HEADER ++ concat g)) with (concat g). rewrite <-(app_nil_r (concat g)), as_chunks_concat by done. done.
Qed.

(** What was recorded decodes. *)
Lemma trace_packages_decode (cs : list TraceCall) (delivered : list bool) :
  Forall call_ok cs →
  let packages := package_events new_package (sent_events (foldl trace_call new_access_trace cs)) delivered in
  let recorded := Ok (E := TraceError) <$> expected_events 1 cs in
  ∃ decoded, decode_package <$> packages = Ok <$> decoded ∧ concat decoded `prefix_of` recorded
    ∧ (Forall (λ b, b = true) delivered → concat decoded = recorded).
Proof.
  intros Hcs packages recorded. destruct (sent_events_decode cs new_access_trace ltac:(done) Hcs) as (es & Hs & Hl & Hd).
  unfold packages, recorded. change (next_request_id new_access_trace) with 1 in Hd. rewrite Hs, <-Hd. cbn [new_access_trace sent_events app].
  destruct (package_events_groups es [] delivered Hl) as (groups & Hrun & Hne & Hpre & Hall). change new_package with (PACKAGE_HEADER ++ concat []). rewrite Hrun.
  exists (map (map decode_event) groups). assert (Hlg : Forall (Forall (λ e, length e = 41%nat)) groups).
  { apply Forall_forall. intros g Hg. apply Forall_forall. intros e He. rewrite Forall_forall in Hl. apply Hl.
    destruct Hpre as [rest Hpre]. cbn in Hpre. rewrite Hpre, elem_of_app. left. apply list_elem_of_In, in_concat. exists g. by rewrite <-!list_elem_of_In. }
  split_and!.
  - clear -Hne Hlg. induction groups as [|g groups IH]; [done|]. apply Forall_cons in Hne as [? ?], Hlg as [? ?].
    cbn [map fmap list_fmap]. rewrite decode_group by done. f_equal. by apply IH.
  - destruct Hpre as [rest Hpre]. exists (decode_event <$> rest). cbn in Hpre. rewrite Hpre, fmap_app. f_equal. apply List.concat_map.
  - intros Ht. rewrite <-List.concat_map, (Hall Ht). done.
Qed.

(** A recorded trace reads back.  Whatever requests and outcomes a cache
    records, each package it hands over decodes without an error, and the decoded
    events are exactly the recorded ones in order: all of them when every delivery
    succeeds, and otherwise those before the delivery that failed. *)
Lemma trace_roundtrip (cs : list TraceCall) (delivered : list bool) :
  Forall call_ok cs →
  let packages := package_events new_package (sent_events (foldl trace_call new_access_trace cs)) delivered in
  let recorded := Ok (E := TraceError) <$> expected_events 1 cs in
  ∃ decoded, decode_package <$> packages = Ok <$> decoded ∧ concat decoded `prefix_of` recorded
    ∧ (Forall (λ b, b = true) delivered → concat decoded = recorded).
Proof. apply trace_packages_decode. Qed.

(** ** Loading requests *)

(** [Request] and [TraceRequests] *)
Record Request := mkRequest { req_id : Z; req_time_ns : Z; req_object_key : string; req_payload_len : Z }.
Record TraceRequests := mkTraceRequests { requests : list Request; outcome_counts : list Z; unmatched_starts : Z }.

(** [u64] subtraction, whose overflow is a panic. *)
Definition u64_sub (x y : Z) : outcome Z := _ ← assert_that (y <=? x); Done (x - y).

(** The prefix in nanoseconds. *)
Definition prefix_of_seconds (seconds : option Z) : result TraceError (option Z) :=
  match seconds with
  | None => Ok None
  | Some seconds =>
      match checked_mul seconds 1000000000 with
      | Some ns => if 0 <? ns then Ok (Some ns) else Err InvalidSeconds
      | None => Err InvalidSeconds
      end
  end.

Definition in_prefix (prefix_ns : option Z) (first_start_ns time : Z) : outcome bool :=
  match prefix_ns with
  | None => Done true
  | Some prefix_ns => elapsed ← u64_sub time first_start_ns; Done (elapsed <? prefix_ns)
  end.

(** The first scan: the earliest start so far, and the starts that may be selected. *)
Fixpoint scan_starts (prefix_ns : option Z) (events : list (result TraceError Event)) (first_start_ns : Z) (requests : list Event)
  : outcome (result TraceError (Z * list Event)) :=
  match events with
  | [] => Done (Ok (first_start_ns, requests))
  | Err e :: _ => Done (Err e)
  | Ok event :: events =>
      if event_kind event =? 0 then
        let first_start_ns := Z.min first_start_ns (time_ns event) in
        keep ← in_prefix prefix_ns first_start_ns (time_ns event);
        scan_starts prefix_ns events first_start_ns (if keep : bool then requests ++ [event] else requests)
      else scan_starts prefix_ns events first_start_ns requests
  end.

(** [requests.retain] *)
Fixpoint retain_starts (prefix_ns : option Z) (first_start_ns : Z) (requests : list Event) : outcome (list Event) :=
  match requests with
  | [] => Done []
  | request :: requests =>
      keep ← in_prefix prefix_ns first_start_ns (time_ns request);
      rest ← retain_starts prefix_ns first_start_ns requests;
      Done (if keep : bool then request :: rest else rest)
  end.

(** The maps built from the selected starts. *)
Fixpoint index_starts (requests : list Event) (lengths : gmap Z (option Z)) (starts : gmap Z (Event * bool))
  : result TraceError (gmap Z (option Z) * gmap Z (Event * bool)) :=
  match requests with
  | [] => Ok (lengths, starts)
  | request :: requests =>
      let lengths := <[object_key request := None]> lengths in
      match starts !! request_id request with
      | Some _ => Err DuplicateStart
      | None => index_starts requests lengths (<[request_id request := (request, false)]> starts)
      end
  end.

Record JoinState := mkJoinState { object_lengths : gmap Z (option Z); starts_by_id : gmap Z (Event * bool); join_outcomes : list Z }.

(** The second scan's visit of one event. *)
Definition observe_length (lengths : gmap Z (option Z)) (event : Event) : result TraceError (gmap Z (option Z)) :=
  match lengths !! object_key event, payload_len event with
  | Some length, Some observed =>
      if match length with Some previous => negb (previous =? observed) | None => false end then Err InconsistentLengths
      else Ok (<[object_key event := Some observed]> lengths)
  | _, _ => Ok lengths
  end.
Definition join_event (s : JoinState) (event : Event) : outcome (result TraceError JoinState) :=
  if event_kind event =? 0 then Done (Ok s)
  else
    match observe_length (object_lengths s) event with
    | Err e => Done (Err e)
    | Ok lengths =>
        match starts_by_id s !! request_id event with
        | None => Done (Ok (mkJoinState lengths (starts_by_id s) (join_outcomes s)))
        | Some (request, has_outcome) =>
            if has_outcome : bool then Done (Err DuplicateOutcome)
            else if negb (object_key event =? object_key request) || (time_ns event <? time_ns request) then Done (Err OutcomeDisagrees)
            else
              count ← unwrap (join_outcomes s !! Z.to_nat (event_kind event));
              Done (Ok (mkJoinState lengths (<[request_id event := (request, true)]> (starts_by_id s))
                          (<[Z.to_nat (event_kind event) := count + 1]> (join_outcomes s))))
        end
    end.
Fixpoint join_events (s : JoinState) (events : list (result TraceError Event)) : outcome (result TraceError JoinState) :=
  match events with
  | [] => Done (Ok s)
  | Err e :: _ => Done (Err e)
  | Ok event :: events =>
      r ← join_event s event;
      match r with Err e => Done (Err e) | Ok s => join_events s events end
  end.

(** The final map over the joined starts. *)
Fixpoint build_requests (first_start_ns : Z) (lengths : gmap Z (option Z)) (starts : list Event) : outcome (result TraceError (list Request)) :=
  match starts with
  | [] => Done (Ok [])
  | event :: starts =>
      time ← u64_sub (time_ns event) first_start_ns;
      length ← unwrap (lengths !! object_key event);
      match length with
      | None => Done (Err MissingLength)
      | Some length =>
          rest ← build_requests first_start_ns lengths starts;
          Done match rest with
               | Err e => Err e
               | Ok rest => Ok (mkRequest (request_id event) time (pretty (Z.to_N (object_key event))) length :: rest)
               end
      end
  end.

(** The sort key [(time_ns, request_id)]. *)
Definition request_le (a b : Request) : Prop :=
  req_time_ns a < req_time_ns b ∨ (req_time_ns a = req_time_ns b ∧ req_id a ≤ req_id b).
Global Instance request_le_dec a b : Decision (request_le a b).
Proof. unfold request_le. apply _. Defined.

(** [load_requests], on the events of the trace. *)
Definition load_requests (events : list (result TraceError Event)) (seconds : option Z) : outcome (result TraceError TraceRequests) :=
  match prefix_of_seconds seconds with
  | Err e => Done (Err e)
  | Ok prefix_ns =>
      scanned ← scan_starts prefix_ns events u64_max [];
      match scanned with
      | Err e => Done (Err e)
      | Ok (first_start_ns, requests) =>
          requests ← retain_starts prefix_ns first_start_ns requests;
          if bool_decide (requests = []) then Done (Err NoRequestStarts)
          else
            match index_starts requests ∅ ∅ with
            | Err e => Done (Err e)
            | Ok (lengths, starts) =>
                joined ← join_events (mkJoinState lengths starts (replicate 6 0)) events;
                match joined with
                | Err e => Done (Err e)
                | Ok s =>
                    unmatched_starts ← u64_sub (Z.of_nat (size (starts_by_id s))) (zsum id (join_outcomes s));
                    built ← build_requests first_start_ns (object_lengths s) ((λ kv, kv.2.1) <$> map_to_list (starts_by_id s));
                    Done match built with
                         | Err e => Err e
                         | Ok requests => Ok (mkTraceRequests (merge_sort request_le requests) (join_outcomes s) unmatched_starts)
                         end
                end
            end
      end
  end.

(** ** Reference selection *)

(** The earliest start of a trace, and the starts within a prefix of it. *)
Definition first_start (es : list Event) : Z :=
  foldl (λ first e, if event_kind e =? 0 then Z.min first (time_ns e) else first) u64_max es.
Definition within (prefix_ns : option Z) (first : Z) (e : Event) : Prop :=
  match prefix_ns with None => True | Some p => time_ns e - first < p end.
Global Instance within_dec prefix_ns first e : Decision (within prefix_ns first e).
Proof. destruct prefix_ns; cbn; apply _. Defined.
Definition selected (prefix_ns : option Z) (es : list Event) : list Event :=
  filter (λ e, event_kind e = 0 ∧ within prefix_ns (first_start es) e) es.

Definition outcomes_of (sel es : list Event) : list Event := filter (λ e, event_kind e ≠ 0 ∧ request_id e ∈ request_id <$> sel) es.

(** The traces that can be loaded: some start is selected and the selected starts have
    distinct IDs; each has at most one outcome, of its object and not earlier than
    the start; and the outcomes show exactly one length for each selected object. *)
Record loadable (sel es : list Event) : Prop := mkLoadable {
  ld_some : sel ≠ [];
  ld_starts : NoDup (request_id <$> sel);
  ld_outcomes : NoDup (request_id <$> outcomes_of sel es);
  ld_agree : ∀ e start, e ∈ outcomes_of sel es → start ∈ sel → request_id start = request_id e →
    object_key e = object_key start ∧ time_ns start ≤ time_ns e;
  ld_consistent : ∀ e e' l l', e ∈ es → e' ∈ es → event_kind e ≠ 0 → event_kind e' ≠ 0 →
    object_key e = object_key e' → object_key e ∈ object_key <$> sel → payload_len e = Some l → payload_len e' = Some l' → l = l';
  ld_present : ∀ start, start ∈ sel → ∃ e, e ∈ es ∧ event_kind e ≠ 0 ∧ object_key e = object_key start ∧ is_Some (payload_len e)
}.

Lemma in_prefix_spec prefix_ns first e : first ≤ time_ns e → in_prefix prefix_ns first (time_ns e) = Done (bool_decide (within prefix_ns first e)).
Proof.
  intros Hle. destruct prefix_ns as [p|]; [|by cbn]. unfold in_prefix, u64_sub. rewrite (proj2 (Z.leb_le _ _) Hle). cbn [assert_that mbind outcome_bind within].
  f_equal. destruct (Z.ltb_spec (time_ns e - first) p); case_bool_decide; cbn in *; lia || done.
Qed.

Lemma within_mono prefix_ns first first' e : first' ≤ first → within prefix_ns first' e → within prefix_ns first e.
Proof. destruct prefix_ns; cbn; [lia|done]. Qed.

Lemma scan_starts_spec prefix_ns es : ∀ first reqs,
  let first' := foldl (λ first e, if event_kind e =? 0 then Z.min first (time_ns e) else first) first es in
  ∃ kept, scan_starts prefix_ns (Ok <$> es) first reqs = Done (Ok (first', reqs ++ kept)) ∧ first' ≤ first
    ∧ Forall (λ e, first' ≤ time_ns e) kept
    ∧ filter (within prefix_ns first') kept = filter (λ e, event_kind e = 0 ∧ within prefix_ns first' e) es.
Proof.
  induction es as [|e es IH]; intros first reqs first'; cbn [fmap list_fmap scan_starts].
  { exists []. rewrite app_nil_r. split_and!; [done|unfold first'; cbn; lia|done|done]. }
  unfold first'. cbn [foldl]. destruct (Z.eqb_spec (event_kind e) 0) as [Hk|Hk].
  - rewrite in_prefix_spec by lia. cbn [mbind outcome_bind]. set (first1 := Z.min first (time_ns e)). case_bool_decide as Hw.
    + destruct (IH first1 (reqs ++ [e])) as (kept & Hrun & Hle & Hall & Hf). set (f := foldl _ first1 es) in *. exists (e :: kept).
      rewrite Hrun, <-app_assoc. split_and!; [done|lia|constructor; [lia|done]|]. rewrite !filter_cons. rewrite Hf.
      destruct (decide (within prefix_ns f e)); repeat case_decide; tauto || done.
    + destruct (IH first1 reqs) as (kept & Hrun & Hle & Hall & Hf). set (f := foldl _ first1 es) in *. exists kept. rewrite Hrun. split_and!; [done|lia|done|].
      rewrite filter_cons, decide_False; [done|]. intros [_ Hw']. by apply Hw, (within_mono _ _ f).
  - destruct (IH first reqs) as (kept & Hrun & Hle & Hall & Hf). exists kept. rewrite Hrun. split_and!; [done|done|done|].
    rewrite filter_cons, decide_False; [done|tauto].
Qed.

Lemma retain_starts_spec prefix_ns first reqs :
  Forall (λ e, first ≤ time_ns e) reqs → retain_starts prefix_ns first reqs = Done (filter (within prefix_ns first) reqs).
Proof.
  induction 1 as [|e reqs Hle _ IH]; [done|]. cbn [retain_starts]. rewrite in_prefix_spec by done. cbn [mbind outcome_bind]. rewrite IH. cbn [mbind outcome_bind].
  rewrite filter_cons. case_bool_decide; case_decide; done.
Qed.

Lemma index_starts_spec reqs : ∀ lengths starts l s,
  index_starts reqs lengths starts = Ok (l, s) →
  NoDup (request_id <$> reqs) ∧ (∀ e, e ∈ reqs → starts !! request_id e = None)
  ∧ (λ kv, kv.2.1) <$> map_to_list s ≡ₚ reqs ++ ((λ kv, kv.2.1) <$> map_to_list starts)
  ∧ (∀ id e b, s !! id = Some (e, b) → starts !! id = Some (e, b) ∨ (b = false ∧ e ∈ reqs ∧ request_id e = id))
  ∧ (∀ k, l !! k = if decide (k ∈ object_key <$> reqs) then Some None else lengths !! k).
Proof.
  induction reqs as [|r reqs IH]; intros lengths starts l s Hrun; cbn [index_starts] in Hrun.
  { injection Hrun as <- <-. split_and!; [constructor|by intros e ?%elem_of_nil|done|by left|done]. }
  destruct (starts !! request_id r) as [x|] eqn:Hr; [done|]. destruct (IH _ _ _ _ Hrun) as (Hnd & Hfresh & Hp & Hin & Hl). split_and!.
  - rewrite fmap_cons. constructor; [|done]. intros (e & He & Hine)%list_elem_of_fmap. specialize (Hfresh e Hine). by rewrite <-He, lookup_insert_eq in Hfresh.
  - intros e [->|He]%elem_of_cons; [done|]. specialize (Hfresh e He). by apply lookup_insert_None in Hfresh as [? _].
  - rewrite Hp, map_to_list_insert by done. rewrite fmap_cons. cbn [fst snd]. symmetry. apply Permutation_middle.
  - intros id e b Hs. destruct (Hin id e b Hs) as [[[<- [= <- <-]]|[_ ?]]%lookup_insert_Some|(-> & ? & ?)]; [right; split_and!; [done|left|done]|by left|right; split_and!; [done|by right|done]].
  - intros k. rewrite Hl, fmap_cons. destruct (decide (k ∈ object_key <$> reqs)); [by rewrite decide_True by (by right)|].
    destruct (decide (k = object_key r)) as [->|Hne]; [by rewrite decide_True, lookup_insert_eq by left|]. rewrite decide_False by (rewrite elem_of_cons; tauto). by rewrite lookup_insert_ne.
Qed.

Lemma index_starts_succeeds reqs : ∀ lengths starts,
  NoDup (request_id <$> reqs) → (∀ e, e ∈ reqs → starts !! request_id e = None) → ∃ x, index_starts reqs lengths starts = Ok x.
Proof.
  induction reqs as [|r reqs IH]; intros lengths starts Hnd Hfresh; cbn [index_starts]; [by eexists|]. rewrite (Hfresh r) by left.
  rewrite fmap_cons in Hnd. apply NoDup_cons in Hnd as [Hr Hnd]. apply IH; [done|]. intros e He. rewrite lookup_insert_ne; [by apply Hfresh; right|].
  intros Heq. apply Hr. rewrite Heq. by apply list_elem_of_fmap_2.
Qed.

(** The outcomes that belong to selected starts. *)
Definition matched (st : gmap Z Event) (es : list Event) : list Event :=
  filter (λ e, event_kind e ≠ 0 ∧ is_Some (st !! request_id e)) es.

Record join_ok (st : gmap Z Event) (keys : list Z) (es : list Event) (s : JoinState) : Prop := mkJoinOk {
  jo_starts : fst <$> starts_by_id s = st;
  jo_flags : ∀ id e b, starts_by_id s !! id = Some (e, b) → b = true ↔ id ∈ request_id <$> matched st es;
  jo_once : NoDup (request_id <$> matched st es);
  jo_agree : ∀ e start, e ∈ matched st es → st !! request_id e = Some start → object_key e = object_key start ∧ time_ns start ≤ time_ns e;
  jo_sum : length (join_outcomes s) = 6%nat ∧ zsum id (join_outcomes s) = Z.of_nat (length (matched st es));
  jo_counts : ∀ k n, join_outcomes s !! k = Some n → n = Z.of_nat (length (filter (λ e, event_kind e = Z.of_nat k) (matched st es)));
  jo_keys : ∀ k, is_Some (object_lengths s !! k) ↔ k ∈ keys;
  jo_seen : ∀ k l, object_lengths s !! k = Some (Some l) → ∃ e, e ∈ es ∧ event_kind e ≠ 0 ∧ object_key e = k ∧ payload_len e = Some l;
  jo_all : ∀ e l, e ∈ es → event_kind e ≠ 0 → payload_len e = Some l → object_key e ∈ keys → object_lengths s !! object_key e = Some (Some l)
}.

Lemma observe_length_ok st keys es s e lengths :
  join_ok st keys es s → event_kind e ≠ 0 → observe_length (object_lengths s) e = Ok lengths →
  (∀ k, is_Some (lengths !! k) ↔ k ∈ keys)
  ∧ (∀ k l, lengths !! k = Some (Some l) → ∃ e', e' ∈ es ++ [e] ∧ event_kind e' ≠ 0 ∧ object_key e' = k ∧ payload_len e' = Some l)
  ∧ (∀ e' l, e' ∈ es ++ [e] → event_kind e' ≠ 0 → payload_len e' = Some l → object_key e' ∈ keys → lengths !! object_key e' = Some (Some l)).
Proof.
  intros Hok Hk Hobs. unfold observe_length in Hobs.
  assert (Hold : ∀ k l, object_lengths s !! k = Some (Some l) → ∃ e', e' ∈ es ++ [e] ∧ event_kind e' ≠ 0 ∧ object_key e' = k ∧ payload_len e' = Some l).
  { intros k l Hl. destruct (jo_seen _ _ _ _ Hok k l Hl) as (e' & He' & ?). exists e'. rewrite elem_of_app. tauto. }
  destruct (object_lengths s !! object_key e) as [length|] eqn:Hlk.
  2:{ injection Hobs as <-. split_and!; [apply Hok|done|]. intros e' l [He'|Heq]%elem_of_app Hk' Hp Hin; [by apply (jo_all _ _ _ _ Hok)|].
      apply list_elem_of_singleton in Heq as ->. apply (jo_keys _ _ _ _ Hok) in Hin as [? ?]. congruence. }
  destruct (payload_len e) as [observed|] eqn:Hpe.
  2:{ injection Hobs as <-. split_and!; [apply Hok|done|]. intros e' l [He'|Heq]%elem_of_app Hk' Hp Hin; [by apply (jo_all _ _ _ _ Hok)|].
      apply list_elem_of_singleton in Heq as ->. congruence. }
  assert (Hsame : ∀ previous, length = Some previous → previous = observed).
  { intros previous ->. destruct (Z.eqb_spec previous observed); [done|]. done. }
  assert (Hins : lengths = <[object_key e := Some observed]> (object_lengths s)) by (destruct length as [previous|]; [destruct (negb _)|]; by simplify_eq).
  subst lengths. split_and!.
  - intros k. rewrite lookup_insert_is_Some, <-(jo_keys _ _ _ _ Hok). destruct (decide (object_key e = k)) as [<-|]; [rewrite Hlk|]; naive_solver.
  - intros k l [[<- [= <-]]|[_ Hl]]%lookup_insert_Some; [|by apply Hold]. exists e. rewrite elem_of_app. split_and!; [right; by left|done..].
  - intros e' l [He'|Heq]%elem_of_app Hk' Hp Hin.
    + assert (Hl := jo_all _ _ _ _ Hok e' l He' Hk' Hp Hin). destruct (decide (object_key e' = object_key e)) as [Heq|Hne]; [|by rewrite lookup_insert_ne].
      rewrite Heq, lookup_insert_eq. rewrite Heq, Hlk in Hl. injection Hl as ->. by rewrite (Hsame l eq_refl).
    + apply list_elem_of_singleton in Heq as ->. rewrite lookup_insert_eq. congruence.
Qed.

Lemma matched_app st es e : matched st (es ++ [e]) = matched st es ++ (if decide (event_kind e ≠ 0 ∧ is_Some (st !! request_id e)) then [e] else []).
Proof. unfold matched. by rewrite filter_app, filter_cons, filter_nil. Qed.

Lemma join_event_ok st keys es s e :
  join_ok st keys es s → 0 ≤ event_kind e ≤ 5 →
  ∃ r, join_event s e = Done r ∧ match r with Ok s' => join_ok st keys (es ++ [e]) s' | Err _ => True end.
Proof.
  intros Hok Hkind. unfold join_event. destruct (Z.eqb_spec (event_kind e) 0) as [Hk|Hk].
  { eexists. split; [done|]. cbn. assert (Hm : matched st (es ++ [e]) = matched st es) by (rewrite matched_app, decide_False, app_nil_r; [done|tauto]).
    destruct Hok. constructor; rewrite ?Hm; try done.
    - intros k l Hl. destruct (jo_seen0 k l Hl) as (e' & He' & ?). exists e'. rewrite elem_of_app. tauto.
    - intros e' l [He'|Heq]%elem_of_app Hk' Hp Hin; [by apply jo_all0|]. by apply list_elem_of_singleton in Heq as ->. }
  destruct (observe_length (object_lengths s) e) as [lengths|err] eqn:Hobs; [|by eexists].
  destruct (observe_length_ok _ _ _ _ _ _ Hok Hk Hobs) as (Hkeys & Hseen & Hall). destruct Hok as [Hst Hfl Hnd Hag [Hl6 Hsum] Hcnt _ _ _].
  assert (Hlk : st !! request_id e = fst <$> starts_by_id s !! request_id e) by (by rewrite <-Hst, lookup_fmap).
  destruct (starts_by_id s !! request_id e) as [[request has_outcome]|] eqn:Hs.
  2:{ eexists. split; [done|]. cbn. assert (Hm : matched st (es ++ [e]) = matched st es) by (rewrite matched_app, decide_False, app_nil_r; [done|rewrite Hlk; by intros [_ []]]).
      constructor; rewrite ?Hm; done. }
  destruct has_outcome; [by eexists|]. destruct (negb _ || _) eqn:Hbad; [by eexists|]. apply orb_false_iff in Hbad as [Hkey Htime]. apply negb_false_iff, Z.eqb_eq in Hkey. apply Z.ltb_ge in Htime.
  destruct (lookup_lt_is_Some_2 (join_outcomes s) (Z.to_nat (event_kind e))) as [count Hc]; [lia|]. rewrite Hc. cbn [unwrap mbind outcome_bind].
  eexists. split; [done|]. cbn. assert (Hm : matched st (es ++ [e]) = matched st es ++ [e]) by (rewrite matched_app, decide_True; [done|rewrite Hlk; split; [done|by eexists]]).
  assert (Hnew : request_id e ∉ request_id <$> matched st es) by (intros Hin%(Hfl _ _ _ Hs); done).
  constructor; rewrite ?Hm, ?fmap_app; cbn [starts_by_id join_outcomes object_lengths fmap list_fmap]; try done.
  - rewrite fmap_insert, insert_id; [done|]. by rewrite Hst, Hlk.
  - intros id e' b [[<- [= <- <-]]|[Hne Hid]]%lookup_insert_Some; rewrite elem_of_app, list_elem_of_singleton; [tauto|]. rewrite (Hfl _ _ _ Hid). naive_solver.
  - apply NoDup_app. split_and!; [done| |apply NoDup_singleton]. intros x Hx ->%list_elem_of_singleton. done.
  - intros e' start [He'| ->%list_elem_of_singleton]%elem_of_app Hstart; [by apply Hag|]. rewrite Hlk in Hstart. by injection Hstart as <-.
  - rewrite length_insert. split; [done|]. rewrite (zsum_insert _ _ _ count) by done. rewrite length_app. cbn. lia.
  - intros k n. rewrite filter_app, length_app, filter_cons, filter_nil. destruct (decide (k = Z.to_nat (event_kind e))) as [->|Hne].
    + rewrite list_lookup_insert_eq by lia. intros [= <-]. rewrite (Hcnt _ _ Hc), decide_True by lia. cbn [length]. lia.
    + rewrite list_lookup_insert_ne by done. intros Hn. rewrite (Hcnt _ _ Hn), decide_False by lia. cbn [length]. lia.
Qed.

Lemma join_events_ok st keys es2 : ∀ es1 s,
  join_ok st keys es1 s → Forall (λ e, 0 ≤ event_kind e ≤ 5) es2 →
  ∃ r, join_events s (Ok <$> es2) = Done r ∧ match r with Ok s' => join_ok st keys (es1 ++ es2) s' | Err _ => True end.
Proof.
  induction es2 as [|e es2 IH]; intros es1 s Hok Hk; cbn [fmap list_fmap join_events]; [eexists; split; [done|]; by rewrite app_nil_r|].
  apply Forall_cons in Hk as [Hk Hks]. destruct (join_event_ok _ _ _ _ _ Hok Hk) as (r & Hrun & Hr). rewrite Hrun. cbn [mbind outcome_bind].
  destruct r as [s'|err]; [|by eexists]. rewrite cons_middle, app_assoc. by apply IH.
Qed.

(** Events the second scan does not refuse. *)
Record joinable (st : gmap Z Event) (keys : list Z) (es : list Event) : Prop := mkJoinable {
  jb_once : NoDup (request_id <$> matched st es);
  jb_agree : ∀ e start, e ∈ matched st es → st !! request_id e = Some start → object_key e = object_key start ∧ time_ns start ≤ time_ns e;
  jb_consistent : ∀ e e' l l', e ∈ es → e' ∈ es → event_kind e ≠ 0 → event_kind e' ≠ 0 →
    object_key e = object_key e' → object_key e ∈ keys → payload_len e = Some l → payload_len e' = Some l' → l = l'
}.

Lemma joinable_prefix st keys es1 es2 : joinable st keys (es1 ++ es2) → joinable st keys es1.
Proof.
  intros [Ho Ha Hc]. unfold matched in *. rewrite filter_app, fmap_app in Ho. apply NoDup_app in Ho as (Ho & _). constructor; [done| |].
  - intros e start He. apply Ha. rewrite filter_app, elem_of_app. by left.
  - intros e e' l l' He He'. apply Hc; rewrite elem_of_app; by left.
Qed.

Lemma join_event_succeeds st keys es s e :
  join_ok st keys es s → 0 ≤ event_kind e ≤ 5 → joinable st keys (es ++ [e]) → ∃ s', join_event s e = Done (Ok s').
Proof.
  intros Hok Hkind [Ho Ha Hc]. unfold join_event. destruct (Z.eqb_spec (event_kind e) 0) as [Hk|Hk]; [by eexists|].
  assert (Hobs : ∃ lengths, observe_length (object_lengths s) e = Ok lengths).
  { unfold observe_length. destruct (object_lengths s !! object_key e) as [[previous|]|] eqn:Hl; [|by destruct (payload_len e); eexists|by eexists].
    destruct (payload_len e) as [observed|] eqn:Hp; [|by eexists]. destruct (jo_seen _ _ _ _ Hok _ _ Hl) as (e' & He' & Hk' & Hkey & Hp').
    rewrite (Hc e' e previous observed), Z.eqb_refl; try done; [by eexists|rewrite elem_of_app; by left|rewrite elem_of_app; right; by left|].
    rewrite Hkey. apply (jo_keys _ _ _ _ Hok). by eexists. }
  destruct Hobs as (lengths & ->). assert (Hlk : st !! request_id e = fst <$> starts_by_id s !! request_id e) by (by rewrite <-(jo_starts _ _ _ _ Hok), lookup_fmap).
  destruct (starts_by_id s !! request_id e) as [[request has_outcome]|] eqn:Hs; [|by eexists].
  assert (Hm : matched st (es ++ [e]) = matched st es ++ [e]) by (rewrite matched_app, decide_True; [done|rewrite Hlk; split; [done|by eexists]]).
  destruct has_outcome.
  { exfalso. rewrite Hm, fmap_app in Ho. apply NoDup_app in Ho as (_ & Hno & _).
    apply (Hno (request_id e)); [by apply (jo_flags _ _ _ _ Hok _ _ _ Hs)|by left]. }
  destruct (Ha e request) as [Hkey Htime]; [rewrite Hm, elem_of_app; right; by left|by rewrite Hlk|].
  rewrite Hkey, Z.eqb_refl, (proj2 (Z.ltb_ge _ _) Htime). cbn [negb orb].
  destruct (lookup_lt_is_Some_2 (join_outcomes s) (Z.to_nat (event_kind e))) as [count ->]; [pose proof (proj1 (jo_sum _ _ _ _ Hok)); lia|]. by eexists.
Qed.

Lemma join_events_succeed st keys es2 : ∀ es1 s,
  join_ok st keys es1 s → Forall (λ e, 0 ≤ event_kind e ≤ 5) es2 → joinable st keys (es1 ++ es2) → ∃ s', join_events s (Ok <$> es2) = Done (Ok s').
Proof.
  induction es2 as [|e es2 IH]; intros es1 s Hok Hk Hj; cbn [fmap list_fmap join_events]; [by eexists|].
  apply Forall_cons in Hk as [Hk Hks]. rewrite cons_middle, app_assoc in Hj.
  destruct (join_event_succeeds _ _ _ _ _ Hok Hk (joinable_prefix _ _ _ _ Hj)) as (s1 & Hrun). rewrite Hrun. cbn [mbind outcome_bind].
  destruct (join_event_ok _ _ _ _ _ Hok Hk) as (r & Hrun1 & Hr). rewrite Hrun in Hrun1. injection Hrun1 as <-. by apply (IH (es1 ++ [e])).
Qed.

Lemma build_requests_succeed first lengths starts :
  Forall (λ e, first ≤ time_ns e ∧ ∃ l, lengths !! object_key e = Some (Some l)) starts → ∃ rs, build_requests first lengths starts = Done (Ok rs).
Proof.
  induction 1 as [|e starts [Hle [l Hl]] _ [rs IH]]; cbn [build_requests]; [by eexists|].
  unfold u64_sub. rewrite (proj2 (Z.leb_le _ _) Hle), Hl. cbn [assert_that unwrap mbind outcome_bind]. rewrite IH. by eexists.
Qed.

Lemma build_requests_spec first lengths starts :
  Forall (λ e, first ≤ time_ns e ∧ is_Some (lengths !! object_key e)) starts →
  ∃ r, build_requests first lengths starts = Done r
    ∧ match r with
      | Ok rs => ∀ len : Z → Z, (∀ k l, lengths !! k = Some (Some l) → len k = l) →
          rs = (λ e, mkRequest (request_id e) (time_ns e - first) (pretty (Z.to_N (object_key e))) (len (object_key e))) <$> starts
          ∧ Forall (λ e, lengths !! object_key e = Some (Some (len (object_key e)))) starts
      | Err e => e = MissingLength
      end.
Proof.
  induction 1 as [|e starts [Hle [length Hl]] _ IH]; cbn [build_requests]; [by exists (Ok [])|].
  unfold u64_sub. rewrite (proj2 (Z.leb_le _ _) Hle), Hl. cbn [assert_that unwrap mbind outcome_bind]. destruct length as [l|]; [|by eexists].
  destruct IH as (r & Hrun & Hr). rewrite Hrun. cbn [mbind outcome_bind]. eexists. split; [done|]. destruct r as [rs|err]; [|done].
  intros len Hlen. destruct (Hr len Hlen) as [-> Hall]. rewrite fmap_cons, (Hlen _ _ Hl). split; [done|]. constructor; [by rewrite (Hlen _ _ Hl)|done].
Qed.

Lemma initial_join_ok reqs l s :
  index_starts reqs ∅ ∅ = Ok (l, s) → join_ok (fst <$> s) (object_key <$> reqs) [] (mkJoinState l s (replicate 6 0)).
Proof.
  intros (Hnd & _ & _ & Hin & Hl)%index_starts_spec. constructor; cbn [starts_by_id join_outcomes object_lengths]; try done.
  - intros id e b Hs. destruct (Hin id e b Hs) as [Hbad|(-> & _)]; [by rewrite lookup_empty in Hbad|]. split; [done|by intros ?%elem_of_nil].
  - constructor.
  - by intros e start ?%elem_of_nil.
  - intros k n [-> Hk]%lookup_replicate_1. done.
  - intros k. rewrite Hl. case_decide; [by split|]. rewrite lookup_empty. split; [by intros []|done].
  - intros k l0. rewrite Hl. case_decide; [done|]. by rewrite lookup_empty.
  - by intros e l0 ?%elem_of_nil.
Qed.

Lemma matched_le st es : NoDup (request_id <$> matched st es) → (length (matched st es) ≤ size st)%nat.
Proof.
  intros Hnd. rewrite <-(length_fmap request_id), <-size_dom, <-(size_list_to_set (C := gset Z)) by done. apply subseteq_size.
  intros id (e & -> & [[_ ?] _]%list_elem_of_filter)%elem_of_list_to_set%list_elem_of_fmap. by apply elem_of_dom.
Qed.

(** The events of a map that only had its flags changed. *)
Lemma joined_values (s s' : gmap Z (Event * bool)) sel :
  fst <$> s' = fst <$> s → ((λ kv, kv.2.1) <$> map_to_list s) ≡ₚ sel → ((λ kv, kv.2.1) <$> map_to_list s') ≡ₚ sel.
Proof.
  intros Hst <-. assert (Heq : ∀ m : gmap Z (Event * bool), (λ kv : Z * (Event * bool), kv.2.1) <$> map_to_list m ≡ₚ snd <$> map_to_list (fst <$> m)).
  { intros m. rewrite map_to_list_fmap, <-list_fmap_compose. done. }
  by rewrite !Heq, Hst.
Qed.

(** The outcomes of selected starts, by the map and by the selection. *)
Lemma matched_selected es sel (s : gmap Z (Event * bool)) :
  (∀ id e b, s !! id = Some (e, b) → (∅ : gmap Z (Event * bool)) !! id = Some (e, b) ∨ (b = false ∧ e ∈ sel ∧ request_id e = id)) →
  ((λ kv, kv.2.1) <$> map_to_list s) ≡ₚ sel →
  outcomes_of sel es = matched (fst <$> s) es.
Proof.
  intros Hin Hp. assert (Hid : ∀ id e b, s !! id = Some (e, b) → e ∈ sel ∧ request_id e = id).
  { intros id e b Hs. destruct (Hin id e b Hs) as [Hbad|(_ & ? & ?)]; [by rewrite lookup_empty in Hbad|done]. }
  unfold outcomes_of, matched. apply list_filter_iff. intros e.
  assert (Hiff : request_id e ∈ request_id <$> sel ↔ is_Some ((fst <$> s) !! request_id e)); [|by rewrite Hiff].
  rewrite lookup_fmap, fmap_is_Some, list_elem_of_fmap. split.
  - intros (e' & He & Hsel). rewrite <-Hp in Hsel. apply list_elem_of_fmap in Hsel as ([id [e0 b]] & -> & Hs%elem_of_map_to_list).
    cbn in He. destruct (Hid _ _ _ Hs) as [_ Heq]. rewrite He, Heq. by eexists.
  - intros [[e0 b] Hs]. destruct (Hid _ _ _ Hs) as [? ?]. by exists e0.
Qed.

Lemma start_of_id sel (s : gmap Z (Event * bool)) :
  (∀ id e b, s !! id = Some (e, b) → (∅ : gmap Z (Event * bool)) !! id = Some (e, b) ∨ (b = false ∧ e ∈ sel ∧ request_id e = id)) →
  ((λ kv, kv.2.1) <$> map_to_list s) ≡ₚ sel →
  ∀ id start, (fst <$> s) !! id = Some start ↔ start ∈ sel ∧ request_id start = id.
Proof.
  intros Hin Hp id start. rewrite lookup_fmap, fmap_Some. split.
  - intros ([e b] & Hs & ->). destruct (Hin id e b Hs) as [Hbad|(_ & ? & ?)]; [by rewrite lookup_empty in Hbad|done].
  - intros [Hsel <-]. rewrite <-Hp in Hsel. apply list_elem_of_fmap in Hsel as ([id [e b]] & -> & Hs%elem_of_map_to_list). cbn.
    destruct (Hin id e b Hs) as [Hbad|(_ & _ & ->)]; [by rewrite lookup_empty in Hbad|]. by exists (e, b).
Qed.

Global Instance request_le_total : Total request_le.
Proof. intros a b. unfold request_le. lia. Qed.
Global Instance request_le_trans : Transitive request_le.
Proof. intros a b c. unfold request_le. lia. Qed.

(** What loading selects. *)
Lemma load_requests_spec (es : list Event) (seconds : option Z) :
  Forall (λ e, 0 ≤ event_kind e ≤ 5) es →
  ∃ r, load_requests (Ok <$> es) seconds = Done r ∧ ∀ t, r = Ok t →
    ∃ prefix_ns len, prefix_of_seconds seconds = Ok prefix_ns
      ∧ let sel := selected prefix_ns es in
        let outcomes := outcomes_of sel es in
        loadable sel es
        ∧ requests t ≡ₚ (λ e, mkRequest (request_id e) (time_ns e - first_start es) (pretty (Z.to_N (object_key e))) (len (object_key e))) <$> sel
        ∧ StronglySorted request_le (requests t)
        ∧ (∀ e l, e ∈ es → event_kind e ≠ 0 → payload_len e = Some l → object_key e ∈ object_key <$> sel → l = len (object_key e))
        ∧ (∀ e, e ∈ sel → ∃ e', e' ∈ es ∧ object_key e' = object_key e ∧ payload_len e' = Some (len (object_key e)))
        ∧ (∀ k n, outcome_counts t !! k = Some n → n = Z.of_nat (length (filter (λ e, event_kind e = Z.of_nat k) outcomes)))
        ∧ unmatched_starts t + Z.of_nat (length outcomes) = Z.of_nat (length sel) ∧ 0 ≤ unmatched_starts t.
Proof.
  intros Hk. unfold load_requests. destruct (prefix_of_seconds seconds) as [prefix_ns|err]; [|by eexists].
  destruct (scan_starts_spec prefix_ns es u64_max []) as (kept & Hscan & _ & Hge & Hsel). fold (first_start es) in Hscan, Hge, Hsel.
  rewrite Hscan. cbn [app mbind outcome_bind]. rewrite retain_starts_spec by done. cbn [mbind outcome_bind]. rewrite Hsel. fold (selected prefix_ns es).
  set (sel := selected prefix_ns es) in *. case_bool_decide as Hne; [by eexists|].
  destruct (index_starts sel ∅ ∅) as [[l s]|err] eqn:Hidx; [|by eexists].
  assert (Hj := initial_join_ok _ _ _ Hidx). destruct (index_starts_spec _ _ _ _ _ Hidx) as (Hnd & _ & Hp & Hin & _).
  rewrite map_to_list_empty, app_nil_r in Hp.
  destruct (join_events_ok _ _ es [] _ Hj Hk) as (r & Hrun & Hr). rewrite Hrun. cbn [mbind outcome_bind]. destruct r as [s'|err]; [|by eexists].
  cbn [app] in Hr. destruct Hr as [Hst Hfl Honce Hag [Hl6 Hsum] Hcnt Hkeys Hseen Hall].
  assert (Hvals := joined_values _ _ _ Hst Hp).
  assert (Hsize : size (starts_by_id s') = length sel) by (rewrite <-length_map_to_list, <-(Permutation_length Hvals), length_fmap; done).
  assert (Hle := matched_le _ _ Honce). rewrite <-Hst, map_size_fmap, Hsize in Hle. rewrite Hst in Hle.
  unfold u64_sub at 1. rewrite Hsum, Hsize, (proj2 (Z.leb_le _ _)) by lia. cbn [assert_that mbind outcome_bind].
  destruct (build_requests_spec (first_start es) (object_lengths s') ((λ kv, kv.2.1) <$> map_to_list (starts_by_id s'))) as (r & Hb & Hr).
  { rewrite Hvals. apply Forall_forall. intros e He. split.
    - unfold sel, selected in He. rewrite <-Hsel in He. apply list_elem_of_filter in He as [_ He]. rewrite Forall_forall in Hge. by apply Hge.
    - apply Hkeys, list_elem_of_fmap. by exists e. }
  rewrite Hb. cbn [mbind outcome_bind]. eexists. split; [done|]. destruct r as [rs|err]; [|done]. intros t [= <-].
  set (len k := default 0 (default None (object_lengths s' !! k))).
  destruct (Hr len ltac:(intros k l0 Hl0; unfold len; by rewrite Hl0)) as [-> Hlens]. exists prefix_ns, len. split; [done|]. cbn zeta. fold sel. cbn [requests outcome_counts unmatched_starts].
  assert (Hout := matched_selected es sel s (proj1 (proj2 (proj2 (proj2 (index_starts_spec _ _ _ _ _ Hidx))))) Hp).
  rewrite Hout. split_and!; try done; try lia.
  - assert (Hso := start_of_id sel s (proj1 (proj2 (proj2 (proj2 (index_starts_spec _ _ _ _ _ Hidx))))) Hp).
    constructor; rewrite ?Hout; try done.
    + intros e start He Hstart Hid. apply (Hag e start He). by apply Hso.
    + intros e e' l0 l1 He He' Hk0 Hk1 Hkey Hin0 Hp0 Hp1. assert (Hl0 := Hall e l0 He Hk0 Hp0 Hin0). rewrite Hkey in Hl0, Hin0.
      assert (Hl1 := Hall e' l1 He' Hk1 Hp1 Hin0). congruence.
    + intros start Hstart. rewrite Hvals, Forall_forall in Hlens. destruct (Hseen _ _ (Hlens start Hstart)) as (e' & ? & ? & ? & Hp'). exists e'. by rewrite Hp'.
  - by rewrite merge_sort_Permutation, Hvals.
  - apply Sorted_StronglySorted; [apply _|]. apply Sorted_merge_sort, _.
  - intros e l0 He Hk0 Hp0 Hin0. assert (Hl0 := Hall e l0 He Hk0 Hp0 Hin0). unfold len. by rewrite Hl0.
  - intros e He. rewrite Hvals, Forall_forall in Hlens. destruct (Hseen _ _ (Hlens e He)) as (e' & ? & _ & ? & ?). by exists e'.
Qed.

(** Nothing else keeps a trace from loading. *)
Lemma load_requests_loads (es : list Event) (seconds : option Z) prefix_ns :
  Forall (λ e, 0 ≤ event_kind e ≤ 5) es → prefix_of_seconds seconds = Ok prefix_ns → loadable (selected prefix_ns es) es →
  ∃ t, load_requests (Ok <$> es) seconds = Done (Ok t).
Proof.
  intros Hk Hpre [Hne Hnd Honce Hagree Hcons Hpres]. unfold load_requests. rewrite Hpre.
  destruct (scan_starts_spec prefix_ns es u64_max []) as (kept & Hscan & _ & Hge & Hsel). fold (first_start es) in Hscan, Hge, Hsel.
  rewrite Hscan. cbn [app mbind outcome_bind]. rewrite retain_starts_spec by done. cbn [mbind outcome_bind]. rewrite Hsel. fold (selected prefix_ns es).
  set (sel := selected prefix_ns es) in *. rewrite bool_decide_eq_false_2 by done.
  destruct (index_starts_succeeds sel ∅ ∅ Hnd) as ([l s] & Hidx); [intros; apply lookup_empty|]. rewrite Hidx.
  assert (Hj := initial_join_ok _ _ _ Hidx). destruct (index_starts_spec _ _ _ _ _ Hidx) as (_ & _ & Hp & Hin & _). rewrite map_to_list_empty, app_nil_r in Hp.
  assert (Hout := matched_selected es sel s Hin Hp). assert (Hso := start_of_id sel s Hin Hp).
  destruct (join_events_succeed _ _ es [] _ Hj Hk) as (s' & Hrun).
  { cbn [app]. constructor; rewrite <-?Hout; [done| |exact Hcons]. intros e start He [Hstart Hid]%Hso. by apply Hagree. }
  destruct (join_events_ok _ _ es [] _ Hj Hk) as (r & Hrun' & Hr). rewrite Hrun in Hrun'. injection Hrun' as <-. rewrite Hrun. cbn [app mbind outcome_bind] in *.
  assert (Hvals := joined_values _ _ _ (jo_starts _ _ _ _ Hr) Hp).
  assert (Hle := matched_le _ _ (jo_once _ _ _ _ Hr)). rewrite <-(jo_starts _ _ _ _ Hr), map_size_fmap in Hle.
  rewrite (jo_starts _ _ _ _ Hr) in Hle. unfold u64_sub at 1. rewrite (proj2 (jo_sum _ _ _ _ Hr)), (proj2 (Z.leb_le _ _)) by lia. cbn [assert_that mbind outcome_bind].
  destruct (build_requests_succeed (first_start es) (object_lengths s') ((λ kv, kv.2.1) <$> map_to_list (starts_by_id s'))) as (rs & ->); [|by eexists].
  rewrite Hvals. apply Forall_forall. intros start Hstart. split.
  - unfold sel, selected in Hstart. rewrite <-Hsel in Hstart. apply list_elem_of_filter in Hstart as [_ Hstart]. rewrite Forall_forall in Hge. by apply Hge.
  - destruct (Hpres start Hstart) as (e & He & Hk0 & Hkey & l0 & Hl0). exists l0. rewrite <-Hkey. apply (jo_all _ _ _ _ Hr); [done..|]. rewrite Hkey. by apply list_elem_of_fmap_2.
Qed.

(** C22: loading a trace is equivalent to the reference selection.  On any decoded
    trace the two scans end without a panic.  They succeed exactly when the number of
    seconds is valid and the trace is loadable: some start is within the prefix of the
    earliest start, and for the starts within it, IDs are distinct, each has at most one
    outcome, for its object and no earlier than it, and the outcomes anywhere in the
    trace show exactly one length for each of their objects.  The requests are then
    exactly these starts, although the scan only knew the earliest start so far; they
    are sorted by arrival and ID; each carries the length of its object; and every
    start is counted under its outcome or as unmatched. *)
Theorem load_requests_equivalent (es : list Event) (seconds : option Z) :
  Forall (λ e, 0 ≤ event_kind e ≤ 5) es →
  ∃ r, load_requests (Ok <$> es) seconds = Done r
    ∧ (is_ok r = true ↔ ∃ prefix_ns, prefix_of_seconds seconds = Ok prefix_ns ∧ loadable (selected prefix_ns es) es)
    ∧ ∀ t, r = Ok t →
    ∃ prefix_ns len, prefix_of_seconds seconds = Ok prefix_ns
      ∧ let sel := selected prefix_ns es in
        let outcomes := outcomes_of sel es in
        requests t ≡ₚ (λ e, mkRequest (request_id e) (time_ns e - first_start es) (pretty (Z.to_N (object_key e))) (len (object_key e))) <$> sel
        ∧ StronglySorted request_le (requests t)
        ∧ (∀ e l, e ∈ es → event_kind e ≠ 0 → payload_len e = Some l → object_key e ∈ object_key <$> sel → l = len (object_key e))
        ∧ (∀ e, e ∈ sel → ∃ e', e' ∈ es ∧ object_key e' = object_key e ∧ payload_len e' = Some (len (object_key e)))
        ∧ (∀ k n, outcome_counts t !! k = Some n → n = Z.of_nat (length (filter (λ e, event_kind e = Z.of_nat k) outcomes)))
        ∧ unmatched_starts t + Z.of_nat (length outcomes) = Z.of_nat (length sel) ∧ 0 ≤ unmatched_starts t.
Proof.
  intros Hk. destruct (load_requests_spec es seconds Hk) as (r & Hrun & Hr). exists r. split_and!; [done|split|].
  - destruct r as [t|]; [|done]. intros _. destruct (Hr t eq_refl) as (prefix_ns & len & Hpre & Hload & _). by exists prefix_ns.
  - intros (prefix_ns & Hpre & Hload). destruct (load_requests_loads es seconds prefix_ns Hk Hpre Hload) as (t & Ht). rewrite Hrun in Ht. by injection Ht as ->.
  - intros t Ht. destruct (Hr t Ht) as (prefix_ns & len & Hpre & _ & Hrest). by exists prefix_ns, len.
Qed.

(** An outcome in the nanosecond of its start, recorded before it. *)
Lemma load_requests_equivalent_witness :
  let es := [mkEvent 3 7 100 9 (Some 10); mkEvent 0 8 110 9 None; mkEvent 0 7 100 9 None] in
  loadable (selected None es) es ∧ ∃ t, load_requests (Ok <$> es) None = Done (Ok t) ∧ unmatched_starts t = 1.
Proof.
  intros es. destruct (load_requests_equivalent es None) as (r & Hrun & Hok & Hr); [by repeat constructor|].
  assert (Ho : is_ok r = true) by (clear -Hrun; vm_compute in Hrun; injection Hrun as <-; reflexivity).
  split. { destruct (proj1 Hok Ho) as (prefix_ns & [= <-] & Hload). exact Hload. }
  destruct r as [t|]; [|discriminate Ho]. exists t. split; [exact Hrun|].
  destruct (Hr t eq_refl) as (prefix_ns & len & [= <-] & _ & _ & _ & _ & _ & Hun & _). assert (Hun1 : unmatched_starts t + 1 = 2) by exact Hun. lia.
Defined.
