(* ===== verification/TraceFiles.v ===== *)
(** * Trace files and archives ([visit_events] of [feuer-replay/src/lib.rs])

    A trace is one package file or a compressed archive of the packages of one
    session.  Decompression and the archive format belong to the [zstd] and [tar]
    crates: a function from the bytes of a file to its members, or errors, is a
    parameter.  The events are the ones the visiting closure sees, in order; the
    first error ends the visit. *)

From stdpp Require Import pretty strings.
From S2P Require Import Prelude Codec Errors Paths Trace.

(** A member of an archive, as the [tar] crate presents it. *)
Record ArchiveEntry := mkArchiveEntry {
  entry_path : result string string;
  entry_is_file : bool;
  entry_contents : result string (list byte)
}.

Section visit.
(** [Archive::new(Decoder::new(file)?).entries()], on the bytes of the file. *)
Context (archive_entries : list byte → result string (list (result string ArchiveEntry))).

(** The closure [read_package]. *)
Definition read_package (contents : result string (list byte)) : list (result TraceError Event) :=
  match contents with
  | Err message => [Err (ReadFailed message)]
  | Ok package => match decode_package package with Err e => [Err e] | Ok events => events end
  end.

(** The loop over the members; [session_directory] is the parent of the packages
    seen so far. *)
Fixpoint visit_entries (session_directory : option (list Component)) (entries : list (result string ArchiveEntry))
  : outcome (list (result TraceError Event)) :=
  match entries with
  | [] => Done (if session_directory is None then [Err NoPackages] else [])
  | Err message :: _ => Done [Err (ReadFailed message)]
  | Ok entry :: entries =>
      match entry_path entry with
      | Err message => Done [Err (ReadFailed message)]
      | Ok name =>
          if bool_decide (extension name = Some "feuer"%string) then
            if negb (entry_is_file entry) then Done [Err NotRegularMember]
            else
              directory ← unwrap (parent name);
              if match session_directory with Some seen => bool_decide (seen ≠ directory) | None => false end
              then Done [Err MultipleSessions]
              else
                rest ← visit_entries (Some directory) entries;
                Done (read_package (entry_contents entry) ++ rest)
          else visit_entries session_directory entries
      end
  end.

(** [visit_events], on the answer of [File::open] and [read_to_end]. *)
Definition visit_events (path : string) (file : result string (list byte)) : outcome (list (result TraceError Event)) :=
  match file with
  | Err message => Done [Err (ReadFailed message)]
  | Ok bytes =>
      if bool_decide (extension path = Some "feuer"%string) then Done (read_package (Ok bytes))
      else if negb (ends_with ".tar.zst" path) then Done [Err NotATrace]
      else
        match archive_entries bytes with
        | Err message => Done [Err (ReadFailed message)]
        | Ok entries => visit_entries None entries
        end
  end.

(** [load_requests] on a file that does not change between its two scans. *)
Definition load_requests_from (path : string) (file : result string (list byte)) (seconds : option Z) : outcome (result TraceError TraceRequests) :=
  events ← visit_events path file;
  load_requests events seconds.
End visit.

(** ** Members of a session *)
Definition is_package (e : ArchiveEntry) (name : string) : Prop := entry_path e = Ok name ∧ extension name = Some "feuer"%string.
(** The contents of a member that is a package. *)
Definition package_contents (e : ArchiveEntry) : option (result string (list byte)) :=
  match entry_path e with
  | Ok name => if bool_decide (extension name = Some "feuer"%string) then Some (entry_contents e) else None
  | Err _ => None
  end.
(** A member that may be in the archive of a session kept in [dir]. *)
Definition session_member (dir : list Component) (e : ArchiveEntry) : Prop :=
  ∃ name, entry_path e = Ok name ∧ (extension name = Some "feuer"%string → entry_is_file e = true ∧ parent name = Some dir).

Lemma extension_parent name x : extension name = Some x → ∃ dir, parent name = Some dir.
Proof.
  unfold extension, file_name, parent. destruct (last (components name)) as [c|]; [|done]. destruct c; try done. intros _. by eexists.
Qed.

Lemma visit_entries_session dir entries : ∀ seen,
  (∀ d, seen = Some d → d = dir) → Forall (session_member dir) entries →
  visit_entries seen (Ok <$> entries)
  = Done (concat (read_package <$> omap package_contents entries)
          ++ (if decide (seen = None ∧ omap package_contents entries = []) then [Err NoPackages] else [])).
Proof.
  induction entries as [|e entries IH]; intros seen Hseen Hall; cbn [fmap list_fmap visit_entries omap list_omap].
  { destruct seen; case_decide; naive_solver. }
  apply Forall_cons in Hall as [(name & Hname & Hpkg) Hall]. assert (Hpc : package_contents e = if bool_decide (extension name = Some "feuer"%string) then Some (entry_contents e) else None)
    by (unfold package_contents; by rewrite Hname). rewrite Hname, Hpc. case_bool_decide as Hext; [|by rewrite IH].
  destruct (Hpkg Hext) as [Hfile Hpar]. rewrite Hfile, Hpar. cbn [negb unwrap mbind outcome_bind].
  replace (match seen with Some d => bool_decide (d ≠ dir) | None => false end) with false.
  2:{ destruct seen as [d|]; [|done]. rewrite (Hseen d eq_refl). by rewrite bool_decide_eq_false_2 by tauto. }
  rewrite IH by (done || by intros d [= <-]). cbn [mbind outcome_bind].
  cbn [fmap list_fmap concat]. rewrite (decide_False (P := Some dir = None ∧ _)) by (by intros [? _]). rewrite app_nil_r, decide_False by (by intros [_ ?]). by rewrite app_nil_r.
Qed.

(** A visit always ends, and one without an error saw packages of one directory. *)
Lemma visit_entries_done entries : ∀ seen,
  ∃ evs, visit_entries seen entries = Done evs
    ∧ (Forall (λ r, is_ok r = true) evs → ∃ dir, (∀ d, seen = Some d → d = dir)
        ∧ ∀ e name, Ok e ∈ entries → is_package e name → entry_is_file e = true ∧ parent name = Some dir).
Proof.
  assert (Hbad : ∀ P (e : TraceError), Forall (λ r : result TraceError Event, is_ok r = true) [Err e] → P) by (intros P e He; by apply Forall_cons in He as [? _]).
  induction entries as [|[entry|message] entries IH]; intros seen; cbn [visit_entries].
  - destruct seen as [d|]; (eexists; split; [done|]); [|apply Hbad]. intros _. exists d. split; [by intros ? [= ->]|by intros e name ?%elem_of_nil].
  - destruct (entry_path entry) as [name|message] eqn:Hname; [|eexists; split; [done|apply Hbad]]. case_bool_decide as Hext.
    + destruct (entry_is_file entry) eqn:Hfile; cbn [negb]; [|eexists; split; [done|apply Hbad]].
      destruct (extension_parent _ _ Hext) as [dir Hpar]. rewrite Hpar. cbn [unwrap mbind outcome_bind].
      destruct (match seen with Some d => bool_decide (d ≠ dir) | None => false end) eqn:Hs; [eexists; split; [done|apply Hbad]|].
      destruct (IH (Some dir)) as (evs & Hrun & Hclean). rewrite Hrun. cbn [mbind outcome_bind]. eexists. split; [done|].
      intros [_ Hevs]%Forall_app. destruct (Hclean Hevs) as (dir' & Hd & Hall). specialize (Hd dir eq_refl) as <-. exists dir. split.
      * intros d ->. apply bool_decide_eq_false in Hs. by apply dec_stable.
      * intros e name' [[= ->]|He]%elem_of_cons Hp; [|by apply (Hall e name')]. destruct Hp as [Hp _]. rewrite Hname in Hp. by injection Hp as <-.
    + destruct (IH seen) as (evs & Hrun & Hclean). exists evs. split; [done|]. intros Hevs. destruct (Hclean Hevs) as (dir & Hd & Hall). exists dir. split; [done|].
      intros e name' [[= ->]|He]%elem_of_cons Hp; [|by apply (Hall e name')]. destruct Hp as [Hp1 Hp2]. rewrite Hname in Hp1. injection Hp1 as <-. done.
  - eexists. split; [done|apply Hbad].
Qed.

(** An error among the events is the answer of the first scan. *)
Lemma scan_starts_error prefix_ns evs : ∀ first reqs,
  ¬ Forall (λ r, is_ok r = true) evs → ∃ e, scan_starts prefix_ns evs first reqs = Done (Err e).
Proof.
  induction evs as [|[ev|e] evs IH]; intros first reqs Hbad; cbn [scan_starts]; [by destruct Hbad| |by eexists].
  assert (Hrest : ¬ Forall (λ r, is_ok r = true) evs) by (intros ?; apply Hbad; by constructor).
  destruct (event_kind ev =? 0); [|by apply IH]. rewrite in_prefix_spec by lia. cbn [mbind outcome_bind]. by apply IH.
Qed.

Lemma load_requests_error evs seconds : ¬ Forall (λ r, is_ok r = true) evs → ∃ e, load_requests evs seconds = Done (Err e).
Proof.
  intros Hbad. unfold load_requests. destruct (prefix_of_seconds seconds) as [prefix_ns|e]; [|by eexists].
  destruct (scan_starts_error prefix_ns evs u64_max [] Hbad) as [e ->]. cbn [mbind outcome_bind]. by eexists.
Qed.

Lemma concat_read_packages packages decoded :
  decode_package <$> packages = Ok <$> decoded → concat (read_package <$> (Ok <$> packages)) = concat decoded.
Proof.
  revert decoded. induction packages as [|p packages IH]; intros [|d decoded] Heq; try done. cbn [fmap list_fmap] in *. injection Heq as Hp Hrest.
  cbn [concat read_package]. rewrite Hp. f_equal. by apply IH.
Qed.

(** C21: an archived session reads back.  When the packages of a recorded trace are
    archived in order as the regular [.feuer] members of one directory, among any
    other members, the events read from the archive are the recorded ones, and
    loading it is loading them.  Whatever an archive holds, reading it ends, and
    loading one whose packages are irregular or lie in two directories is an error. *)
Theorem archive_roundtrip (archive_entries : list byte → result string (list (result string ArchiveEntry))) path bytes :
  ends_with ".tar.zst" path = true → extension path ≠ Some "feuer"%string →
  (∀ cs dir entries delivered,
     Forall call_ok cs → cs ≠ [] → Forall (λ b, b = true) delivered →
     archive_entries bytes = Ok (Ok <$> entries) → Forall (session_member dir) entries →
     omap package_contents entries = Ok <$> package_events new_package (sent_events (foldl trace_call new_access_trace cs)) delivered →
     visit_events archive_entries path (Ok bytes) = Done (Ok <$> expected_events 1 cs)
     ∧ ∀ seconds, load_requests_from archive_entries path (Ok bytes) seconds = load_requests (Ok <$> expected_events 1 cs) seconds)
  ∧ ∀ entries seconds, archive_entries bytes = Ok entries →
      (∃ evs, visit_events archive_entries path (Ok bytes) = Done evs)
      ∧ ∀ e1 e2 name1 name2, Ok e1 ∈ entries → Ok e2 ∈ entries → is_package e1 name1 → is_package e2 name2 →
          (entry_is_file e1 = false ∨ parent name1 ≠ parent name2) →
          ∃ e, load_requests_from archive_entries path (Ok bytes) seconds = Done (Err e).
Proof.
  intros Hsuffix Hext. unfold load_requests_from, visit_events. rewrite bool_decide_eq_false_2 by done. rewrite Hsuffix. cbn [negb]. split.
  - intros cs dir entries delivered Hcs Hne Hdel Hent Hall Hpk. rewrite Hent.
    destruct (trace_packages_decode cs delivered Hcs) as (decoded & Hdec & _ & Hfull). specialize (Hfull Hdel).
    assert (Hvisit : visit_entries None (Ok <$> entries) = Done (Ok <$> expected_events 1 cs)).
    { rewrite (visit_entries_session dir) by done. rewrite Hpk, (concat_read_packages _ _ Hdec), Hfull, decide_False; [by rewrite app_nil_r|].
      intros [_ Hnil%fmap_nil_inv]. cbn zeta in Hdec. rewrite Hnil in Hdec. destruct decoded; [|done]. cbn [concat] in Hfull. symmetry in Hfull. apply fmap_nil_inv in Hfull.
      destruct cs as [|[]]; done. }
    rewrite Hvisit. by split.
  - intros entries seconds Hent. rewrite Hent. destruct (visit_entries_done entries None) as (evs & Hrun & Hclean). rewrite Hrun. split; [by eexists|].
    intros e1 e2 name1 name2 H1 H2 P1 P2 Hbad. apply load_requests_error. intros Hok. destruct (Hclean Hok) as (dir & _ & Hsame).
    destruct (Hsame _ _ H1 P1) as [Hf Hp1]. destruct (Hsame _ _ H2 P2) as [_ Hp2]. destruct Hbad as [Hbad|Hbad]; [congruence|]. by rewrite Hp1, Hp2 in Hbad.
Qed.

(** An archive of a note and one package. *)
Definition sample_calls : list TraceCall := [CallStart 9 100; CallOutcome 1 9 DiskHit 10 130].
Definition sample_package : list byte := default [] (head (package_events new_package (sent_events (foldl trace_call new_access_trace sample_calls)) [])).
Definition sample_entries : list ArchiveEntry :=
  [mkArchiveEntry (Ok "session/README") true (Err "unread"); mkArchiveEntry (Ok "session/000.feuer") true (Ok sample_package)].

Lemma archive_roundtrip_witness :
  visit_events (λ _, Ok (Ok <$> sample_entries)) "trace.tar.zst" (Ok []) = Done [Ok (mkEvent 0 1 100 9 None); Ok (mkEvent 2 1 130 9 (Some 10))].
Proof.
  destruct (archive_roundtrip (λ _, Ok (Ok <$> sample_entries)) "trace.tar.zst" []) as [Hread _]; [reflexivity|by vm_compute|].
  destruct (Hread sample_calls [Normal "session"] sample_entries []) as [Hvisit _].
  - repeat constructor; by vm_compute.
  - discriminate.
  - constructor.
  - reflexivity.
  - repeat constructor; eexists; (split; [reflexivity|]); by vm_compute.
  - reflexivity.
  - exact Hvisit.
Defined.
