(* ===== verification/Replay.v ===== *)
(** * Replaying a trace ([feuer-replay/src/bin/replay.rs])

    A sender thread hands over request indices at their arrival times; a receiver
    starts one task per arrival and collects what they return; each task looks its
    object up, downloading a synthetic object of the recorded length on a miss.
    Threads and tasks are interleaved as a step relation; clocks are sequences of
    readings in nanoseconds.  ReplayRun.v is the command around it. *)

From stdpp Require Import strings pretty.
From S2P Require Import Prelude Codec Errors Float64 Trace.

(** ** Costs *)

(** [parse_cost]; [parse_f64] is [str::parse::<f64>]. *)
Definition f64_is_finite (f : f64) : bool := match f with S754_zero _ | S754_finite _ _ _ => true | _ => false end.
Definition f64_lt (a b : f64) : bool := SFltb a b.
Definition parse_cost (parse_f64 : string → option f64) (value : string) : result string f64 :=
  match parse_f64 value with
  | None => Err "expected a finite nonnegative cost"%string
  | Some cost => if negb (f64_is_finite cost) || f64_lt cost (S754_zero false) then Err "expected a finite nonnegative cost"%string else Ok cost
  end.

(** [Args::request_costs] *)
Definition request_costs (memory_cost_per_request disk_cost_per_request : option f64) (fixed_retrieval_equivalent_bytes : Z) : f64 * f64 :=
  let or_fixed cost := default (f64_of_Z fixed_retrieval_equivalent_bytes) cost in
  (or_fixed memory_cost_per_request, or_fixed disk_cost_per_request).

(** ** Sending arrivals *)

(** The loop that sleeps until the clock has passed the deadline; [clock i] is the
    [i]-th reading of the sender thread. *)
Fixpoint wait_until (fuel : nat) (clock : nat → Z) (tick : nat) (deadline : Z) : outcome nat :=
  match fuel with
  | O => Panic
  | S fuel => if clock tick <=? deadline then wait_until fuel clock (S tick) deadline else Done (S tick)
  end.

(** [send_arrivals] from index [i]: the messages sent and the queue gauge. *)
Fixpoint send_arrivals (fuel : nat) (clock : nat → Z) (tick : nat) (origin : Z) (i : nat) (requests : list Request) (queued : Z)
  : outcome (list (nat * Z) * Z) :=
  match requests with
  | [] => Done ([], queued)
  | request :: requests =>
      tick ← wait_until fuel clock tick (origin + req_time_ns request);
      '(sent, queued) ← send_arrivals fuel clock (S tick) origin (S i) requests (queued + 1);
      Done ((i, clock tick) :: sent, queued)
  end.

(** ** Running lookups *)

(** A task of the [JoinSet]: spawned, looking up, or ended. *)
Inductive TaskState := Spawned | Running | Finished (ok : bool).
Record LookupTask := mkLookupTask { task_index : nat; task_state : TaskState }.

(** Where [run_lookups] is: awaiting the channel, collecting ended tasks after a
    receive, joining the rest after the channel closed, or done. *)
Inductive RunPhase := Receiving | Draining | Joining | Returned (ok : bool).
Global Instance RunPhase_eq_dec : EqDecision RunPhase.
Proof. solve_decision. Defined.

(** The sender's remaining indices, the channel, the tasks, the collected indices
    and both gauges. *)
Record LookupRun := mkLookupRun {
  to_send : list nat;
  sender_open : bool;
  run_channel : list nat;
  run_tasks : list LookupTask;
  run_timings : list nat;
  run_queued : Z;
  run_active : Z;
  run_phase : RunPhase
}.
Definition start_run (n : nat) : LookupRun := mkLookupRun (seq 0 n) true [] [] [] 0 0 Receiving.

Definition is_finished (t : LookupTask) : bool := match task_state t with Finished _ => true | _ => false end.
Definition collecting (p : RunPhase) : bool := match p with Draining | Joining => true | _ => false end.
Definition returned (p : RunPhase) : bool := match p with Returned _ => true | _ => false end.

(** What [timings.push(result??)] does with an ended task: an error ends the run and
    drops the set, which aborts the other tasks. *)
Definition collect (s : LookupRun) (rest : list LookupTask) (i : nat) (ok : bool) : LookupRun :=
  if ok then mkLookupRun (to_send s) (sender_open s) (run_channel s) rest (run_timings s ++ [i]) (run_queued s) (run_active s) (run_phase s)
  else mkLookupRun (to_send s) (sender_open s) (run_channel s) [] (run_timings s) (run_queued s) (run_active s) (Returned false).

Section run.
(** How each lookup may end. *)
Context (lookup_may : nat → bool → Prop).

Inductive run_step : LookupRun → LookupRun → Prop :=
  | run_send i rest open ch ts tm q a p :
      returned p = false →
      run_step (mkLookupRun (i :: rest) open ch ts tm q a p) (mkLookupRun rest open (ch ++ [i]) ts tm (q + 1) a p)
  | run_hang_up ch ts tm q a p :
      returned p = false →
      run_step (mkLookupRun [] true ch ts tm q a p) (mkLookupRun [] false ch ts tm q a p)
  | run_receive snd open i ch ts tm q a :
      run_step (mkLookupRun snd open (i :: ch) ts tm q a Receiving) (mkLookupRun snd open ch (ts ++ [mkLookupTask i Spawned]) tm q a Draining)
  | run_collect snd open ch ts1 i ok ts2 tm q a p :
      collecting p = true →
      run_step (mkLookupRun snd open ch (ts1 ++ mkLookupTask i (Finished ok) :: ts2) tm q a p)
        (collect (mkLookupRun snd open ch (ts1 ++ mkLookupTask i (Finished ok) :: ts2) tm q a p) (ts1 ++ ts2) i ok)
  | run_drained snd open ch ts tm q a :
      existsb is_finished ts = false →
      run_step (mkLookupRun snd open ch ts tm q a Draining) (mkLookupRun snd open ch ts tm q a Receiving)
  | run_channel_closed ts tm q a :
      run_step (mkLookupRun [] false [] ts tm q a Receiving) (mkLookupRun [] false [] ts tm q a Joining)
  | run_return snd open ch tm q a :
      run_step (mkLookupRun snd open ch [] tm q a Joining) (mkLookupRun snd open ch [] tm q a (Returned true))
  | task_start snd open ch ts1 i ts2 tm q a p :
      returned p = false →
      run_step (mkLookupRun snd open ch (ts1 ++ mkLookupTask i Spawned :: ts2) tm q a p)
        (mkLookupRun snd open ch (ts1 ++ mkLookupTask i Running :: ts2) tm (q - 1) (a + 1) p)
  | task_finish snd open ch ts1 i ok ts2 tm q a p :
      returned p = false → lookup_may i ok →
      run_step (mkLookupRun snd open ch (ts1 ++ mkLookupTask i Running :: ts2) tm q a p)
        (mkLookupRun snd open ch (ts1 ++ mkLookupTask i (Finished ok) :: ts2) tm q (a - 1) p).
End run.

(** ** Synthetic downloads *)
Definition S3_CONCURRENT_DOWNLOADS : Z := 48.

(** [SyntheticDownloads], with the number of recorded waits and services. *)
Record SyntheticDownloads := mkSyntheticDownloads {
  download_permits : option Z;
  gets : Z;
  source_bytes : Z;
  source_waiting : Z;
  source_active : Z;
  permit_waits : Z;
  services : Z
}.
Definition new_downloads (simulate_s3 : bool) : SyntheticDownloads :=
  mkSyntheticDownloads (if simulate_s3 then Some S3_CONCURRENT_DOWNLOADS else None) 0 0 0 0 0 0.

(** [SyntheticDownloads::download] up to the permit, from the permit, and after the
    allocation; a permit is taken when one is free. *)
Definition begin_download (s : SyntheticDownloads) : SyntheticDownloads :=
  mkSyntheticDownloads (download_permits s) (gets s + 1) (source_bytes s) (source_waiting s + 1) (source_active s) (permit_waits s) (services s).
Definition admit_download (s : SyntheticDownloads) : option SyntheticDownloads :=
  let admitted permits := Some (mkSyntheticDownloads permits (gets s) (source_bytes s) (source_waiting s - 1) (source_active s + 1) (permit_waits s + 1) (services s)) in
  match download_permits s with
  | None => admitted None
  | Some permits => if 0 <? permits then admitted (Some (permits - 1)) else None
  end.
Definition finish_download (s : SyntheticDownloads) (payload_len : Z) (allocated : bool) : SyntheticDownloads :=
  mkSyntheticDownloads (Z.add 1 <$> download_permits s) (gets s) (if allocated then source_bytes s + payload_len else source_bytes s)
    (source_waiting s) (source_active s - 1) (permit_waits s) (services s + 1).

(** ** Summaries *)

(** The four ranks of [distribution], and its mean. *)
Record Distribution := mkDistribution { mean : f64; p50 : Z; p95 : Z; p99 : Z; maximum : Z }.
Definition percentile (sorted : list Z) (percent : Z) : outcome Z :=
  let rank := div_ceil (Z.of_nat (length sorted) * percent) 100 in
  _ ← assert_that (1 <=? rank);
  unwrap (sorted !! Z.to_nat (rank - 1)).
Definition distribution (values : list Z) : outcome Distribution :=
  let values := merge_sort Z.le values in
  let mean := f64_div (f64_of_Z (zsum id values)) (f64_of_Z (Z.of_nat (length values))) in
  p50 ← percentile values 50;
  p95 ← percentile values 95;
  p99 ← percentile values 99;
  maximum ← percentile values 100;
  Done (mkDistribution mean p50 p95 p99 maximum).

(** ** Every arrival is looked up once *)
Definition spawned_count (t : LookupTask) : Z := match task_state t with Spawned => 1 | _ => 0 end.
Definition running_count (t : LookupTask) : Z := match task_state t with Running => 1 | _ => 0 end.

Ltac run_fields := cbn [to_send sender_open run_channel run_tasks run_timings run_queued run_active run_phase] in *.

Section run_lemmas.
Context (lookup_may : nat → bool → Prop) (n : nat).

(** The indices are divided among the sender, the channel, the tasks and the
    collected timings, and the gauges count two of these stages. *)
Record run_ok (s : LookupRun) : Prop := mkRunOk {
  rk_indices : to_send s ++ run_channel s ++ (task_index <$> run_tasks s) ++ run_timings s ≡ₚ seq 0 n;
  rk_queued : run_queued s = Z.of_nat (length (run_channel s)) + zsum spawned_count (run_tasks s);
  rk_active : run_active s = zsum running_count (run_tasks s);
  rk_finished : ∀ t ok, t ∈ run_tasks s → task_state t = Finished ok → lookup_may (task_index t) ok;
  rk_timings : ∀ i, i ∈ run_timings s → lookup_may i true;
  rk_hung_up : sender_open s = false → to_send s = [];
  rk_joining : run_phase s = Joining ∨ run_phase s = Returned true → to_send s = [] ∧ run_channel s = [];
  rk_returned : run_phase s = Returned true → run_tasks s = []
}.
Definition run_inv (s : LookupRun) : Prop :=
  if bool_decide (run_phase s = Returned false) then ∃ i, (i < n)%nat ∧ lookup_may i false else run_ok s.

Lemma run_inv_ok s : run_phase s ≠ Returned false → run_inv s ↔ run_ok s.
Proof. intros Hp. unfold run_inv. by rewrite bool_decide_eq_false_2. Qed.

Lemma not_returned p : returned p = false → p ≠ Returned false.
Proof. by destruct p. Qed.

(** A task that only changes its state keeps the indices. *)
Lemma replace_task ts1 ts2 i st st' : task_index <$> (ts1 ++ mkLookupTask i st :: ts2) = task_index <$> (ts1 ++ mkLookupTask i st' :: ts2).
Proof. by rewrite !fmap_app, !fmap_cons. Qed.

(** A task that moves on. *)
Lemma move_task_ok snd op ch ts1 i st st' ts2 tm q a p :
  returned p = false → (∀ ok, st' = Finished ok → lookup_may i ok) →
  run_ok (mkLookupRun snd op ch (ts1 ++ mkLookupTask i st :: ts2) tm q a p) →
  run_inv (mkLookupRun snd op ch (ts1 ++ mkLookupTask i st' :: ts2) tm
    (q - spawned_count (mkLookupTask i st) + spawned_count (mkLookupTask i st'))
    (a - running_count (mkLookupTask i st) + running_count (mkLookupTask i st')) p).
Proof.
  intros Hp Hst [Hi Hq Ha Hf Ht Hh Hj Hr]. apply run_inv_ok; [by apply not_returned|]. constructor; run_fields; try done.
  - by rewrite (replace_task _ _ _ _ st).
  - rewrite Hq. autorewrite with sums. lia.
  - rewrite Ha. autorewrite with sums. lia.
  - intros t ok Hin Hok. apply elem_of_app in Hin as [Hin|[-> |Hin]%elem_of_cons]; [|by apply Hst|].
    + apply Hf; [|done]. rewrite elem_of_app; tauto.
    + apply Hf; [|done]. rewrite elem_of_app, elem_of_cons; tauto.
  - by intros ->.
Qed.

(** An ended task that is collected. *)
Lemma collect_ok snd op ch ts1 i ok ts2 tm q a p :
  collecting p = true → let s := mkLookupRun snd op ch (ts1 ++ mkLookupTask i (Finished ok) :: ts2) tm q a p in
  run_ok s → run_inv (collect s (ts1 ++ ts2) i ok).
Proof.
  intros Hp s Hs. subst s. destruct Hs as [Hi Hq Ha Hf Ht Hh Hj Hr]. run_fields.
  assert (Hok : lookup_may i ok) by (apply (Hf (mkLookupTask i (Finished ok))); [rewrite elem_of_app, elem_of_cons; tauto|done]).
  unfold collect. destruct ok.
  - apply run_inv_ok; [cbn; by destruct p|]. constructor; run_fields; try done.
    + rewrite <-Hi, !fmap_app, fmap_cons. cbn [task_index]. do 2 f_equiv. rewrite <-!app_assoc. cbn. f_equiv. rewrite (app_assoc _ tm), <-Permutation_cons_append. done.
    + rewrite Hq. autorewrite with sums. cbn. lia.
    + rewrite Ha. autorewrite with sums. cbn. lia.
    + intros t ok Hin. apply Hf. rewrite elem_of_app, elem_of_cons in *. tauto.
    + intros j [Hin| ->%list_elem_of_singleton]%elem_of_app; [by apply Ht|done].
    + intros ->. done.
  - unfold run_inv. cbn [run_phase]. rewrite bool_decide_eq_true_2 by done. exists i. split; [|done].
    assert (Hin : i ∈ seq 0 n) by (rewrite <-Hi, !elem_of_app, fmap_app, fmap_cons, elem_of_app, elem_of_cons; tauto). apply elem_of_seq in Hin. lia.
Qed.

Lemma run_step_ok s s' : run_inv s → run_step lookup_may s s' → run_inv s'.
Proof.
  intros Hinv Hstep. destruct Hstep as [i rest op ch ts tm q a p Hp|ch ts tm q a p Hp|snd op i ch ts tm q a|snd op ch ts1 i ok ts2 tm q a p Hp|snd op ch ts tm q a Hdr|ts tm q a|snd op ch tm q a
    |snd op ch ts1 i ts2 tm q a p Hp|snd op ch ts1 i ok ts2 tm q a p Hp Hmay]; (apply run_inv_ok in Hinv; [|cbn; try done; by destruct p]).
  4:{ by apply collect_ok. }
  7:{ eapply (move_task_ok _ _ _ _ _ Spawned Running) in Hinv; [|done|done]. cbn in Hinv. by rewrite Z.add_0_r, Z.sub_0_r in Hinv. }
  7:{ eapply (move_task_ok _ _ _ _ _ Running (Finished ok)) in Hinv; [|done|by intros ? [= <-]]. cbn in Hinv. by rewrite !Z.add_0_r, Z.sub_0_r in Hinv. }
  all: destruct Hinv as [Hi Hq Ha Hf Ht Hh Hj Hr]; run_fields; (apply run_inv_ok; [done || by apply not_returned|]); constructor; run_fields; try done.
  - rewrite <-Hi. rewrite <-!app_assoc. cbn. by rewrite !Permutation_middle.
  - rewrite length_app. cbn. lia.
  - by intros ?%Hh.
  - by intros [? _]%Hj.
  - rewrite <-Hi, fmap_app. cbn. f_equiv. rewrite <-!app_assoc. cbn. by rewrite !Permutation_middle.
  - autorewrite with sums. cbn. cbn in Hq. lia.
  - autorewrite with sums. cbn. lia.
  - intros t ok [Hin|[= ->]%list_elem_of_singleton]%elem_of_app Hok; [by apply Hf|done].
  - by intros [|].
  - by intros [|].
  - intros _. by apply Hj; left.
Qed.

Lemma run_reachable s : rtc (run_step lookup_may) (start_run n) s → run_inv s.
Proof.
  intros Hrtc. apply (rtc_ind_r (λ s, run_inv s) (start_run n)) in Hrtc; [done| |by intros y z _ Hstep Hy; eapply run_step_ok].
  apply run_inv_ok; [done|]. constructor; cbn; try done; [by rewrite app_nil_r|by intros t ok ?%elem_of_nil|by intros i ?%elem_of_nil|by intros [|]].
Qed.

(** ** The run ends *)
Definition task_weight (t : LookupTask) : Z := match task_state t with Spawned => 4 | Running => 3 | Finished _ => 2 end.
Definition phase_weight (p : RunPhase) : Z := match p with Draining => 4 | Receiving => 3 | Joining => 2 | Returned _ => 0 end.
Definition run_measure (s : LookupRun) : Z :=
  7 * Z.of_nat (length (to_send s)) + (if sender_open s then 1 else 0) + 6 * Z.of_nat (length (run_channel s))
  + zsum task_weight (run_tasks s) + phase_weight (run_phase s).

Lemma task_weight_nonneg ts : 0 ≤ zsum task_weight ts.
Proof. apply zsum_nonneg. intros t _. unfold task_weight. by destruct (task_state t). Qed.

Lemma run_measure_nonneg s : 0 ≤ run_measure s.
Proof.
  unfold run_measure, phase_weight. pose proof (task_weight_nonneg (run_tasks s)). destruct (sender_open s), (run_phase s); lia.
Qed.

Lemma run_step_decreases s s' : run_step lookup_may s s' → run_measure s' < run_measure s.
Proof.
  destruct 1 as [| | |snd op ch ts1 i ok ts2 tm q a p Hp| | | | |]; unfold collect, run_measure; run_fields; rewrite ?length_app; autorewrite with sums;
    unfold task_weight, phase_weight in *; run_fields; cbn [length task_state]; try lia.
  destruct ok; run_fields; autorewrite with sums; [lia|].
  pose proof (task_weight_nonneg ts1). pose proof (task_weight_nonneg ts2). unfold task_weight in *. destruct p; cbn in Hp |- *; try done; lia.
Qed.

Lemma run_progress s : (∀ i, ∃ ok, lookup_may i ok) → run_inv s → returned (run_phase s) = false → ∃ s', run_step lookup_may s s'.
Proof.
  intros Hmay Hinv Hp. destruct s as [snd op ch ts tm q a p]. run_fields. apply run_inv_ok in Hinv; [|by apply not_returned]. destruct Hinv as [_ _ _ _ _ Hh Hj _]. run_fields.
  assert (Htasks : ∀ t, t ∈ ts → is_finished t = false → ∃ s', run_step lookup_may (mkLookupRun snd op ch ts tm q a p) s').
  { intros [i st] (ts1 & ts2 & ->)%list_elem_of_split Hst. destruct st; [eexists; by apply task_start|destruct (Hmay i) as [ok Hok]; eexists; by apply (task_finish _ _ _ _ _ _ ok)|done]. }
  destruct (existsb is_finished ts) eqn:Hfin.
  - destruct (collecting p) eqn:Hc.
    + apply existsb_exists in Hfin as ([i st] & Hin & Hst). apply list_elem_of_In, list_elem_of_split in Hin as (ts1 & ts2 & ->).
      destruct st as [| |ok]; [done|done|]. eexists. by apply run_collect.
    + destruct p; try done. destruct ch as [|i ch]; [|eexists; apply run_receive]. destruct snd as [|i snd]; [|eexists; by apply run_send].
      destruct op; [eexists; by apply run_hang_up|eexists; apply run_channel_closed].
  - destruct p as [| | |]; [| |destruct ts as [|t ts]|done].
    + destruct ch as [|i ch]; [|eexists; apply run_receive]. destruct snd as [|i snd]; [|eexists; by apply run_send].
      destruct op; [eexists; by apply run_hang_up|eexists; apply run_channel_closed].
    + eexists. by apply run_drained.
    + eexists. apply run_return.
    + apply (Htasks t); [left|]. cbn in Hfin. by apply orb_false_iff in Hfin as [? _].
Qed.
End run_lemmas.

Lemma seq_sorted n : ∀ k, StronglySorted Nat.le (seq k n).
Proof. induction n as [|n IH]; intros k; cbn [seq]; constructor; [apply IH|]. apply Forall_forall. intros j ?%elem_of_seq. lia. Qed.

(** The collected indices, once sorted, are [0..n]. *)
Lemma sorted_indices n l : l ≡ₚ seq 0 n → merge_sort Nat.le l = seq 0 n.
Proof.
  intros Hp. apply (StronglySorted_unique Nat.le).
  - apply Sorted_StronglySorted; [apply _|]. apply Sorted_merge_sort, _.
  - apply seq_sorted.
  - by rewrite merge_sort_Permutation.
Qed.

(** What a run that returned has done. *)
Lemma run_returned (lookup_may : nat → bool → Prop) n s :
  rtc (run_step lookup_may) (start_run n) s → run_phase s = Returned true →
  run_timings s ≡ₚ seq 0 n ∧ (∀ i, (i < n)%nat → lookup_may i true) ∧ run_tasks s = [] ∧ run_queued s = 0 ∧ run_active s = 0.
Proof.
  intros Hinv%run_reachable Hp. apply run_inv_ok in Hinv; [|by rewrite Hp]. destruct Hinv as [Hi Hq Ha _ Ht _ Hj Hr].
  destruct (Hj (or_intror Hp)) as [Hs Hc]. rewrite (Hr Hp), Hs, Hc in *. cbn in *. split_and!; [done| |done|done|done].
  intros i Hlt. apply Ht. rewrite Hi. apply elem_of_seq. lia.
Qed.

(** C32: a replay looks every arrival up exactly once.  Whatever the interleaving of
    the sender, the receiver and the tasks, every step brings the run closer to its
    end and a run that has not returned has a next step, so it returns.  It returns
    an error only when a lookup failed; otherwise the collected timings, sorted by
    index, are exactly one per request, every lookup succeeded, and both gauges are
    back at zero. *)
Theorem replay_exactly_once (lookup_ok : nat → bool) n s :
  let step := run_step (λ i ok, ok = lookup_ok i) in
  rtc step (start_run n) s →
  0 ≤ run_measure s ∧ (∀ s', step s s' → run_measure s' < run_measure s)
  ∧ (returned (run_phase s) = false → ∃ s', step s s')
  ∧ (run_phase s = Returned false → ∃ i, (i < n)%nat ∧ lookup_ok i = false)
  ∧ (run_phase s = Returned true →
       merge_sort Nat.le (run_timings s) = seq 0 n ∧ (∀ i, (i < n)%nat → lookup_ok i = true) ∧ run_queued s = 0 ∧ run_active s = 0).
Proof.
  intros step Hreach. assert (Hinv := run_reachable _ _ _ Hreach). split_and!; [apply run_measure_nonneg|apply run_step_decreases| | |].
  - apply (run_progress _ n); [by eexists|done].
  - intros Hp. unfold run_inv in Hinv. rewrite bool_decide_eq_true_2 in Hinv by done. destruct Hinv as (i & Hi & Hok). by exists i.
  - intros Hp. destruct (run_returned _ _ _ Hreach Hp) as (Hperm & Hall & _ & ? & ?). split_and!; [by apply sorted_indices| |done|done]. intros i Hi. by rewrite <-(Hall i Hi).
Qed.

Lemma replay_exactly_once_witness :
  ∃ s, rtc (run_step (λ _ ok, ok = true)) (start_run 1) s ∧ run_phase s = Returned true ∧ merge_sort Nat.le (run_timings s) = [0%nat].
Proof.
  assert (Hrun : rtc (run_step (λ _ ok, ok = true)) (start_run 1) (mkLookupRun [] false [] [] [0%nat] 0 0 (Returned true))).
  { eapply rtc_l; [apply (run_send _ 0); reflexivity|]. eapply rtc_l; [apply run_receive|]. eapply rtc_l; [apply (task_start _ _ _ _ [] 0 []); reflexivity|].
    eapply rtc_l; [apply run_drained; reflexivity|]. eapply rtc_l; [apply (task_finish _ _ _ _ [] 0 true []); reflexivity|].
    eapply rtc_l; [apply run_hang_up; reflexivity|]. eapply rtc_l; [apply run_channel_closed|].
    eapply rtc_l; [apply (run_collect _ _ _ _ [] 0 true []); reflexivity|]. eapply rtc_l; [apply run_return|]. apply rtc_refl. }
  eexists. split; [exact Hrun|]. destruct (replay_exactly_once (λ _, true) _ _ Hrun) as (_ & _ & _ & _ & Hret). split; [reflexivity|]. by apply Hret.
Defined.

(** ** Summaries *)
Definition count_le (v : Z) (l : list Z) : Z := Z.of_nat (length (filter (λ x, x ≤ v) l)).
Definition count_lt (v : Z) (l : list Z) : Z := Z.of_nat (length (filter (λ x, x < v) l)).

Lemma count_le_perm v l l' : l ≡ₚ l' → count_le v l = count_le v l'.
Proof. intros Hp. unfold count_le. by rewrite Hp. Qed.
Lemma count_lt_perm v l l' : l ≡ₚ l' → count_lt v l = count_lt v l'.
Proof. intros Hp. unfold count_lt. by rewrite Hp. Qed.

Lemma sorted_lookup l i j x y : StronglySorted Z.le l → (i ≤ j)%nat → l !! i = Some x → l !! j = Some y → x ≤ y.
Proof.
  intros Hs. revert i j. induction Hs as [|a l Hs IH Ha]; intros [|i] [|j] Hij Hi Hj; cbn in *; try done; [simplify_eq; lia| |lia|by apply (IH i j); [lia|..]].
  simplify_eq. rewrite Forall_forall in Ha. apply Ha. by eapply list_elem_of_lookup_2.
Qed.

Lemma filter_all {A} (P : A → Prop) `{∀ x, Decision (P x)} l : Forall P l → filter P l = l.
Proof. induction 1 as [|x l Hx _ IH]; [done|]. rewrite filter_cons, decide_True by done. by rewrite IH. Qed.

(** The value at a position has at least so many values at or below it, and at most
    so many below it. *)
Lemma sorted_counts l i v : StronglySorted Z.le l → l !! i = Some v → Z.of_nat i + 1 ≤ count_le v l ∧ count_lt v l ≤ Z.of_nat i.
Proof.
  intros Hs Hi. assert (Hlt := lookup_lt_Some _ _ _ Hi). split.
  - unfold count_le. rewrite <-(take_drop (S i) l) at 1. rewrite filter_app, length_app, filter_all; [rewrite length_take; lia|].
    apply Forall_lookup. intros j x Hx. apply lookup_take_Some in Hx as [Hx Hj]. by apply (sorted_lookup l j i x v); [|lia|..].
  - unfold count_lt. rewrite <-(take_drop i l) at 1. rewrite filter_app, length_app, (filter_none _ (drop i l)).
    + pose proof (length_filter (λ x, x < v) (take i l)) as Hf. rewrite length_take in Hf. cbn. lia.
    + apply Forall_lookup. intros j x Hx. rewrite lookup_drop in Hx. pose proof (sorted_lookup l i (i + j) v x Hs ltac:(lia) Hi Hx). lia.
Qed.

(** What a percentile is: the least value that covers the share of the values. *)
Definition is_percentile (values : list Z) (percent v : Z) : Prop :=
  v ∈ values ∧ percent * Z.of_nat (length values) ≤ 100 * count_le v values ∧ 100 * count_lt v values < percent * Z.of_nat (length values).

Lemma percentile_spec values percent :
  values ≠ [] → 0 < percent ≤ 100 → ∃ v, percentile (merge_sort Z.le values) percent = Done v ∧ is_percentile values percent v.
Proof.
  intros Hne Hp. set (l := merge_sort Z.le values). assert (Hperm : l ≡ₚ values) by apply merge_sort_Permutation.
  assert (Hs : StronglySorted Z.le l) by (apply Sorted_StronglySorted; [apply _|]; apply Sorted_merge_sort, _).
  assert (Hlen : length l = length values) by (by rewrite Hperm). assert (length values ≠ 0%nat) by (by destruct values).
  unfold percentile. rewrite Hlen. set (len := Z.of_nat (length values)). set (rank := div_ceil (len * percent) 100).
  pose proof (div_ceil_mul (len * percent) 100 ltac:(done)) as Hr. fold rank in Hr.
  assert (1 ≤ rank) by nia. assert (rank ≤ len) by (apply div_ceil_le_iff; nia). rewrite (proj2 (Z.leb_le _ _)) by done. cbn [assert_that mbind outcome_bind].
  destruct (lookup_lt_is_Some_2 l (Z.to_nat (rank - 1))) as [v Hv]; [unfold len in *; lia|]. rewrite Hv. exists v. split; [done|].
  destruct (sorted_counts l _ v Hs Hv) as [Hle Hlt]. rewrite (count_le_perm _ _ _ Hperm) in Hle. rewrite (count_lt_perm _ _ _ Hperm) in Hlt.
  split_and!; [|fold len; lia|fold len; lia]. rewrite <-Hperm. by eapply list_elem_of_lookup_2.
Qed.

(** The reported percentiles are right.  For any nonempty list of durations the
    summary is produced without a panic; each percentile is a duration at or below
    which at least that share lies and below which less than that share lies, and
    the maximum is the largest duration. *)
Lemma distribution_correct values :
  values ≠ [] → ∃ d, distribution values = Done d
    ∧ is_percentile values 50 (p50 d) ∧ is_percentile values 95 (p95 d) ∧ is_percentile values 99 (p99 d)
    ∧ maximum d ∈ values ∧ ∀ v, v ∈ values → v ≤ maximum d.
Proof.
  intros Hne. unfold distribution.
  destruct (percentile_spec values 50 Hne ltac:(lia)) as (v50 & -> & H50). destruct (percentile_spec values 95 Hne ltac:(lia)) as (v95 & -> & H95).
  destruct (percentile_spec values 99 Hne ltac:(lia)) as (v99 & -> & H99). destruct (percentile_spec values 100 Hne ltac:(lia)) as (vm & -> & (Hin & Hall & _)).
  cbn [mbind outcome_bind]. eexists. split_and!; [done|done|done|done|done|]. cbn [maximum]. intros v Hv.
  destruct (decide (v ≤ vm)) as [|Hgt]; [done|]. exfalso. assert (Hlt : count_le vm values < Z.of_nat (length values)); [|lia].
  unfold count_le. apply list_elem_of_split in Hv as (l1 & l2 & ->). rewrite filter_app, filter_cons, decide_False, !length_app by done.
  pose proof (length_filter (λ x, x ≤ vm) l1). pose proof (length_filter (λ x, x ≤ vm) l2). cbn. lia.
Qed.

(** ** Arrivals *)
Lemma wait_until_spec (clock : nat → Z) K deadline :
  (∀ i, clock i ≤ clock (S i)) → (∀ i, (K ≤ i)%nat → deadline < clock i) →
  ∀ fuel tick, (K - tick < fuel)%nat → ∃ tick', wait_until fuel clock tick deadline = Done tick' ∧ deadline < clock tick'.
Proof.
  intros Hmono HK. induction fuel as [|fuel IH]; intros tick Hf; [lia|]. cbn [wait_until]. destruct (Z.leb_spec (clock tick) deadline) as [Hle|Hgt].
  - apply IH. destruct (decide (K ≤ tick)%nat) as [Hk|]; [specialize (HK tick Hk); lia|lia].
  - exists (S tick). split; [done|]. specialize (Hmono tick). lia.
Qed.

Lemma send_arrivals_spec (clock : nat → Z) origin K requests :
  (∀ i, clock i ≤ clock (S i)) → Forall (λ r, ∀ i, (K ≤ i)%nat → origin + req_time_ns r < clock i) requests →
  ∀ tick i queued, ∃ sent, send_arrivals (S K) clock tick origin i requests queued = Done (sent, queued + Z.of_nat (length requests))
    ∧ sent.*1 = seq i (length requests) ∧ Forall2 (λ r s, origin + req_time_ns r < s.2) requests sent ∧ ∀ s, s ∈ sent → ∃ j, s.2 = clock j.
Proof.
  intros Hmono. induction 1 as [|r requests Hr Hall IH]; intros tick i queued; cbn [send_arrivals].
  { exists []. rewrite Z.add_0_r. split_and!; [done|done|constructor|by intros s ?%elem_of_nil]. }
  destruct (wait_until_spec clock K (origin + req_time_ns r) Hmono Hr (S K) tick ltac:(lia)) as (tick' & -> & Hlate). cbn [mbind outcome_bind].
  destruct (IH (S tick') (S i) (queued + 1)) as (sent & -> & Hidx & Hsent & Hread). cbn [mbind outcome_bind]. eexists. split_and!.
  - do 2 f_equal. cbn [length]. lia.
  - cbn. by rewrite Hidx.
  - by constructor.
  - intros s [->|Hs]%elem_of_cons; [by exists tick'|by apply Hread].
Qed.

(** A clock that never goes back and passes every time passes all deadlines. *)
Lemma all_deadlines_pass (clock : nat → Z) origin (requests : list Request) :
  (∀ i, clock i ≤ clock (S i)) → (∀ t, ∃ i, t < clock i) →
  ∃ K, Forall (λ r, ∀ i, (K ≤ i)%nat → origin + req_time_ns r < clock i) requests.
Proof.
  intros Hmono Hun. assert (Hle : ∀ i j, (i ≤ j)%nat → clock i ≤ clock j) by (induction 1; [done|]; etrans; [done|apply Hmono]).
  induction requests as [|r requests [K HK]]; [by exists 0%nat; constructor|]. destruct (Hun (origin + req_time_ns r)) as [k Hk].
  exists (Nat.max k K). constructor.
  - intros i Hi. specialize (Hle k i ltac:(lia)). lia.
  - eapply Forall_impl; [exact HK|]. cbn. intros r' Hr' i Hi. apply Hr'. lia.
Qed.

(** Arrivals are sent in order and never early.  On a clock that never goes back
    and passes every time, the sender ends; it has sent every index once, in order,
    each after its deadline, and counted each on the queue gauge. *)
Lemma arrivals_in_order (clock : nat → Z) origin (requests : list Request) queued :
  (∀ i, clock i ≤ clock (S i)) → (∀ t, ∃ i, t < clock i) →
  ∃ fuel sent, send_arrivals fuel clock 0 origin 0 requests queued = Done (sent, queued + Z.of_nat (length requests))
    ∧ sent.*1 = seq 0 (length requests) ∧ Forall2 (λ r s, origin + req_time_ns r < s.2) requests sent.
Proof.
  intros Hmono Hun. destruct (all_deadlines_pass clock origin requests Hmono Hun) as [K HK].
  destruct (send_arrivals_spec clock origin K requests Hmono HK 0 0 queued) as (sent & ? & ? & ? & _). by exists (S K), sent.
Qed.

(** ** Downloads *)

(** A download waits for a permit or is in service. *)
Record Download := mkDownload { download_len : Z; in_service : bool }.
Definition waiting_count (d : Download) : Z := if in_service d then 0 else 1.
Definition service_count (d : Download) : Z := if in_service d then 1 else 0.

Inductive download_step : SyntheticDownloads * list Download → SyntheticDownloads * list Download → Prop :=
  | download_begin s ds len : 0 ≤ len → download_step (s, ds) (begin_download s, ds ++ [mkDownload len false])
  | download_admit s s' ds1 len ds2 :
      admit_download s = Some s' → download_step (s, ds1 ++ mkDownload len false :: ds2) (s', ds1 ++ mkDownload len true :: ds2)
  | download_finish s ds1 len ds2 allocated :
      download_step (s, ds1 ++ mkDownload len true :: ds2) (finish_download s len allocated, ds1 ++ ds2).

Record downloads_ok (simulate : bool) (x : SyntheticDownloads * list Download) : Prop := mkDownloadsOk {
  dk_waiting : source_waiting x.1 = zsum waiting_count x.2;
  dk_active : source_active x.1 = zsum service_count x.2;
  dk_permits : download_permits x.1 = if simulate then Some (S3_CONCURRENT_DOWNLOADS - source_active x.1) else None;
  dk_limit : simulate = true → source_active x.1 ≤ S3_CONCURRENT_DOWNLOADS;
  dk_waits : gets x.1 = permit_waits x.1 + source_waiting x.1;
  dk_services : permit_waits x.1 = services x.1 + source_active x.1
}.

(** The gauges count the downloads in each stage, at most 48 are in service when S3
    is simulated, and when none is left both gauges are zero. *)
Lemma downloads_accounted simulate x : rtc download_step (new_downloads simulate, []) x → downloads_ok simulate x.
Proof.
  intros Hrtc. apply (rtc_ind_r (λ x, downloads_ok simulate x) (new_downloads simulate, [])) in Hrtc; [done| |].
  { by constructor. }
  intros y z _ Hstep [Hw Ha Hp Hl Hg Hs]. destruct Hstep as [s ds len _|s s' ds1 len ds2 Hadm|s ds1 len ds2 allocated]; cbn [fst snd] in *.
  - constructor; cbn; autorewrite with sums; cbn; try done; lia.
  - assert (Hlim : simulate = true → source_active s < S3_CONCURRENT_DOWNLOADS).
    { intros ->. unfold admit_download in Hadm. rewrite Hp in Hadm. destruct (Z.ltb_spec 0 (S3_CONCURRENT_DOWNLOADS - source_active s)); [lia|done]. }
    assert (s' = mkSyntheticDownloads (if simulate then Some (S3_CONCURRENT_DOWNLOADS - source_active s - 1) else None) (gets s) (source_bytes s) (source_waiting s - 1) (source_active s + 1) (permit_waits s + 1) (services s)) as ->.
    { unfold admit_download in Hadm. rewrite Hp in Hadm. destruct simulate; [destruct (0 <? _); [|done]|]; by injection Hadm as <-. }
    constructor; cbn [fst snd source_waiting source_active download_permits gets permit_waits services]; rewrite ?Hw, ?Ha in *; autorewrite with sums in *; cbn in *; try lia.
    + destruct simulate; [f_equal; lia|done].
    + intros Hsim. specialize (Hlim Hsim). lia.
  - constructor; cbn [fst snd finish_download source_waiting source_active download_permits gets permit_waits services]; rewrite ?Hp; rewrite ?Hw, ?Ha in *; autorewrite with sums in *; cbn in *; try lia.
    + destruct simulate; [cbn; f_equal; lia|done].
    + intros Hsim. specialize (Hl Hsim). lia.
Qed.
