(* ===== verification/Open.v ===== *)
(** * Opening the disk cache ([DiskCache::open] in [disk_cache.rs])

    Opening rounds the capacity down to whole chunks, opens the data file, clears
    the metadata of an incompatible file, creates one shard per 128 MiB (1 to 64)
    and recovers each from its metadata chain.  Opening and locking the file is a
    parameter: a function from the capacity to a file, an error or a panic.  Recovery
    may overflow on a record no writer made (Recovery.v), and so may opening. *)

From S2P Require Import Prelude Codec Errors Disk BTree Allocation PageFormat Metadata MetadataWriter Float64 Retention.
From S2P Require Import EntryIndex Shard Writer DiskCache Recovery Header Admission Uring File Lookup.

(** The number of shards of a file of whole chunks. *)
Definition num_shards_for (capacity : Z) : nat := Z.to_nat (clamp ((capacity - CHUNK_BYTES) / (128 * CHUNK_BYTES)) 1 64).

Section open.
Context `{Hasher} `{StorageFile F} (open_data_file : Z → outcome (result DataFileError F)).

(** The shards before recovery, from index [i] on; a buffer that cannot be
    allocated ends the call. *)
Fixpoint new_shards (n i : nat) (capacity num_shards : Z) (allocations : list bool)
  : result DataFileError (list (DiskCacheShard * SmallEntryBuffer)) :=
  match n with
  | O => Ok []
  | S n =>
      let range := shard_disk_range capacity num_shards (Z.of_nat i) in
      let allocator := with_metrics range (mkChunkMetrics 0 0 0) in
      match new_buffer (default true (head allocations)) with
      | Err e => Err e
      | Ok buffer =>
          match new_shards n (S i) capacity num_shards (tail allocations) with
          | Err e => Err e
          | Ok shards => Ok ((mkDiskCacheShard allocator new_index default_metadata, buffer) :: shards)
          end
      end
  end.

(** The recovery tasks.  Each changes its own shard and only reads the file. *)
Fixpoint recover_shards (f : F) (capacity : Z) (num_shards i : nat) (shards : list (DiskCacheShard * SmallEntryBuffer))
  : outcome (F * list (DiskCacheShard * SmallEntryBuffer)) :=
  match shards with
  | [] => Done (f, [])
  | (sh, b) :: shards =>
      let start := range_start (shard_disk_range capacity (Z.of_nat num_shards) (Z.of_nat i)) in
      '(f, sh) ← recover_shard f sh num_shards i start;
      '(f, shards) ← recover_shards f capacity num_shards (S i) shards;
      Done (f, (sh, b) :: shards)
  end.

(** [DiskCache::open] *)
Definition open_disk_cache (capacity payload_version : Z) (reclaim_sample_size : nat) (allocations : list bool)
  : outcome (result DiskCacheError (DiskCacheInner F)) :=
  _ ← assert_that (bool_decide (0 < reclaim_sample_size)%nat);
  if (capacity <? 2 * CHUNK_BYTES) || (i64_max <? capacity) then Done (Err CacheInvalidCapacity)
  else
    let capacity := capacity / CHUNK_BYTES * CHUNK_BYTES in
    opened ← open_data_file capacity;
    match opened with
    | Err e => Done (Err (CacheDataFile e))
    | Ok f =>
        let num_shards := num_shards_for capacity in
        '(f, cleared) ← clear_incompatible_metadata f payload_version num_shards;
        match cleared with
        | Err e => Done (Err (CacheDataFile e))
        | Ok _ =>
            match new_shards num_shards 0 capacity (Z.of_nat num_shards) allocations with
            | Err e => Done (Err (CacheDataFile e))
            | Ok shards =>
                '(f, shards) ← recover_shards f capacity num_shards 0 shards;
                Done (Ok (mkInner f shards (mkWriteCounters 0 0 0) (mkWriteOutcomes (λ _, 0) 0) (drop num_shards allocations)))
            end
        end
    end.
End open.

(** ** The shards of a file *)

(** The chunks of shard [i] of a file of [capacity / CHUNK_BYTES] chunks. *)
Definition shard_bounds (capacity : Z) (num_shards i : nat) : Z * Z :=
  let chunks_after_header := capacity / CHUNK_BYTES - 1 in
  (1 + chunks_after_header * Z.of_nat i / Z.of_nat num_shards, 1 + chunks_after_header * (Z.of_nat i + 1) / Z.of_nat num_shards).

Lemma num_shards_bounds capacity : 2 * CHUNK_BYTES ≤ capacity →
  (1 ≤ num_shards_for capacity ≤ 64)%nat ∧ Z.of_nat (num_shards_for capacity) ≤ capacity / CHUNK_BYTES - 1.
Proof.
  intros Hcap. unfold num_shards_for, clamp. set (q := (capacity - CHUNK_BYTES) / (128 * CHUNK_BYTES)). split; [lia|].
  assert (2 ≤ capacity / CHUNK_BYTES) by (apply Z.div_le_lower_bound; unfold CHUNK_BYTES in *; lia).
  assert (q ≤ capacity / CHUNK_BYTES - 1); [|lia].
  replace (capacity / CHUNK_BYTES - 1) with ((capacity - CHUNK_BYTES) / CHUNK_BYTES).
  - unfold q. apply Z.div_le_compat_l; [unfold CHUNK_BYTES in *; lia|unfold CHUNK_BYTES; lia].
  - replace (capacity - CHUNK_BYTES) with (capacity + (-1) * CHUNK_BYTES) by lia. rewrite Z.div_add by done. lia.
Qed.

(** Below 2^57 bytes a shard has few enough chunks for 32-bit indices. *)
Lemma shard_bounds_ok capacity (i : nat) :
  let num_shards := num_shards_for capacity in
  2 * CHUNK_BYTES ≤ capacity → capacity < 2 ^ 57 → (i < num_shards)%nat →
  let b := shard_bounds capacity num_shards i in
  0 < b.1 ∧ b.1 < b.2 ∧ b.2 * CHUNK_BYTES ≤ 2 ^ 63 ∧ b.2 - b.1 < 2 ^ 32.
Proof.
  intros num_shards Hcap H57 Hi b. destruct (num_shards_bounds capacity Hcap) as [Hk64 Hle]. fold num_shards in Hk64, Hle.
  unfold b, shard_bounds. cbn [fst snd]. set (n := capacity / CHUNK_BYTES - 1) in *. set (k := Z.of_nat num_shards) in *.
  assert (Hk : 0 < k) by lia. assert (H0 : 0 ≤ n * Z.of_nat i / k) by (apply Z.div_pos; nia).
  assert (Hstep : n * Z.of_nat i / k + 1 ≤ n * (Z.of_nat i + 1) / k).
  { rewrite <-(Z.div_add (n * Z.of_nat i) 1 k) by lia. apply Z.div_le_mono; nia. }
  assert (Hend : n * (Z.of_nat i + 1) / k ≤ n).
  { transitivity (n * k / k); [apply boundary_mono; lia|]. rewrite Z.div_mul by lia. lia. }
  assert (Hn : n < 2 ^ 37) by (unfold n; assert (capacity / CHUNK_BYTES < 2 ^ 37); [apply Z.div_lt_upper_bound; unfold CHUNK_BYTES; lia|lia]).
  assert (Hwidth : n * (Z.of_nat i + 1) / k - n * Z.of_nat i / k < 2 ^ 32).
  { destruct (decide (n < 2 ^ 32)); [lia|]. assert (k = 64) as ->.
    { unfold k, num_shards, num_shards_for, clamp. assert (64 ≤ (capacity - CHUNK_BYTES) / (128 * CHUNK_BYTES)); [|lia].
      apply Z.div_le_lower_bound; [done|]. assert (n * CHUNK_BYTES ≤ capacity - CHUNK_BYTES); [|unfold CHUNK_BYTES in *; lia].
      pose proof (Z.mul_div_le capacity CHUNK_BYTES ltac:(done)). unfold n. lia. }
    pose proof (Z.mul_div_le (n * Z.of_nat i) 64 ltac:(done)). pose proof (Z.mul_succ_div_gt (n * Z.of_nat i) 64 ltac:(done)).
    pose proof (Z.mul_div_le (n * (Z.of_nat i + 1)) 64 ltac:(done)). lia. }
  split_and!; unfold CHUNK_BYTES; lia.
Qed.

Lemma shard_bounds_disjoint capacity num_shards i j :
  0 ≤ capacity / CHUNK_BYTES - 1 → (0 < num_shards)%nat → (i < j)%nat → (shard_bounds capacity num_shards i).2 ≤ (shard_bounds capacity num_shards j).1.
Proof.
  intros H0 Hn Hij. unfold shard_bounds. cbn [fst snd]. apply Z.add_le_mono_l, boundary_mono; lia.
Qed.

Lemma shard_bounds_apart c n i j bi bj :
  0 ≤ c / CHUNK_BYTES - 1 → (0 < n)%nat → i ≠ j → (shard_bounds c n <$> seq 0 n) !! i = Some bi → (shard_bounds c n <$> seq 0 n) !! j = Some bj →
  bi.2 ≤ bj.1 ∨ bj.2 ≤ bi.1.
Proof.
  intros H0 Hn Hij (? & -> & [-> _]%lookup_seq)%list_lookup_fmap_Some (? & -> & [-> _]%lookup_seq)%list_lookup_fmap_Some. cbn [Nat.add].
  destruct (decide (i < j)%nat); [left|right]; apply shard_bounds_disjoint; lia.
Qed.

Lemma rounded_capacity cap : 2 * CHUNK_BYTES ≤ cap → 2 * CHUNK_BYTES ≤ cap / CHUNK_BYTES * CHUNK_BYTES ≤ cap.
Proof.
  intros Hcap. pose proof (Z.mul_div_le cap CHUNK_BYTES ltac:(done)).
  assert (2 ≤ cap / CHUNK_BYTES) by (apply Z.div_le_lower_bound; unfold CHUNK_BYTES in *; lia). unfold CHUNK_BYTES in *. lia.
Qed.

Definition fresh_buffer : SmallEntryBuffer := mkSmallEntryBuffer (zeros (Z.to_nat CHUNK_BYTES)) [].

Lemma new_shards_spec n : ∀ i capacity num_shards allocations shs,
  new_shards n i capacity (Z.of_nat num_shards) allocations = Ok shs →
  shs = (λ j, (new_shard (shard_bounds capacity num_shards j).1 (shard_bounds capacity num_shards j).2, fresh_buffer)) <$> seq i n.
Proof.
  induction n as [|n IH]; intros i capacity k allocations shs Hrun; cbn [new_shards] in Hrun; [by injection Hrun as <-|].
  unfold new_buffer in Hrun. destruct (default true (head allocations)); [|discriminate Hrun].
  destruct (new_shards n (S i) capacity (Z.of_nat k) (tail allocations)) as [rest|e] eqn:Hrest; [|discriminate Hrun].
  injection Hrun as <-. rewrite (IH _ _ _ _ _ Hrest). reflexivity.
Qed.

Section recovered.
Context `{HasherOk} `{StorageFileOk F}.

(** A recovered shard holds only keys of its own, and nothing after a clear. *)
Definition recovered_from (d : disk) (num_shards i : nat) (b : Z * Z) (x : DiskCacheShard * SmallEntryBuffer) : Prop :=
  slot_consistent b x ∧ buffered x.2 = []
  ∧ (∀ key e, entries_by_key (entry_index x.1) !! key = Some e → shard_index_for_key num_shards key = i)
  ∧ (zero_chunk d (b.1 * CHUNK_BYTES) → entries_by_key (entry_index x.1) = ∅).

Lemma recover_one f (b : Z * Z) num_shards i :
  0 < b.1 → b.1 < b.2 → b.2 * CHUNK_BYTES ≤ 2 ^ 63 → b.2 - b.1 < 2 ^ 32 →
  (∃ f' sh', recover_shard f (new_shard b.1 b.2) num_shards i (b.1 * CHUNK_BYTES) = Done (f', sh') ∧ contents f' = contents f
    ∧ recovered_from (contents f) num_shards i b (sh', fresh_buffer))
  ∨ recover_shard f (new_shard b.1 b.2) num_shards i (b.1 * CHUNK_BYTES) = Panic
    ∧ ¬ writer_records b.1 b.2 (contents f) ∧ ¬ zero_chunk (contents f) (b.1 * CHUNK_BYTES).
Proof.
  intros Hb0 Hb1 Hb2 Hb3. assert (Hpos : 0 ≤ b.1 * CHUNK_BYTES) by (unfold CHUNK_BYTES; lia).
  assert (Hnil : ∀ w : WriteEntry, w ∈ buffered fresh_buffer → False) by (intros w Hw; by apply elem_of_nil in Hw).
  assert (Hzero : zero_chunk (contents f) (b.1 * CHUNK_BYTES) → ∃ f', recover_shard f (new_shard b.1 b.2) num_shards i (b.1 * CHUNK_BYTES) = Done (f', new_shard b.1 b.2) ∧ contents f' = contents f)
    by (intros Hz; destruct (recover_zero_chunk f b.1 b.2 num_shards i (b.1 * CHUNK_BYTES)) as (f' & ? & ? & _); [done..|by exists f']).
  destruct (recover_shard_total b.1 b.2 f num_shards i (b.1 * CHUNK_BYTES) Hb0 Hb1 Hb2 Hb3) as [(f' & sh' & Hrun & _ & Hcont & Hok & Hkeys)|[Hrun Hbad]].
  - left. exists f', sh'. split; [exact Hrun|]. split; [exact Hcont|]. split_and!; [|reflexivity| |].
    + constructor; [exact Hok|apply fresh_buffer_ok|]. intros w Hw'. by destruct (Hnil w Hw').
    + intros key e He. by apply (Hkeys key e He).
    + intros (f'' & Hrun' & _)%Hzero. rewrite Hrun in Hrun'. injection Hrun' as _ ->. reflexivity.
  - right. split_and!; [done|done|]. intros (f' & Hrun' & _)%Hzero. by rewrite Hrun in Hrun'.
Qed.

Lemma recover_shards_spec capacity num_shards n : ∀ i f,
  (∀ j, (i ≤ j < i + n)%nat → let b := shard_bounds capacity num_shards j in
     0 < b.1 ∧ b.1 < b.2 ∧ b.2 * CHUNK_BYTES ≤ 2 ^ 63 ∧ b.2 - b.1 < 2 ^ 32) →
  let shs := (λ j, (new_shard (shard_bounds capacity num_shards j).1 (shard_bounds capacity num_shards j).2, fresh_buffer)) <$> seq i n in
  (∃ f' shs', recover_shards f capacity num_shards i shs = Done (f', shs')
    ∧ contents f' = contents f
    ∧ Forall2 (λ j x, recovered_from (contents f) num_shards j (shard_bounds capacity num_shards j) x) (seq i n) shs')
  ∨ recover_shards f capacity num_shards i shs = Panic
    ∧ ∃ j, (i ≤ j < i + n)%nat ∧ let b := shard_bounds capacity num_shards j in
        ¬ writer_records b.1 b.2 (contents f) ∧ ¬ zero_chunk (contents f) (b.1 * CHUNK_BYTES).
Proof.
  induction n as [|n IH]; intros i f Hb; [by left; exists f, []|]. cbn [seq fmap list_fmap recover_shards].
  destruct (Hb i ltac:(lia)) as (Hb0 & Hb1 & Hb2 & Hb3). cbn zeta.
  change (range_start (shard_disk_range capacity (Z.of_nat num_shards) (Z.of_nat i))) with ((shard_bounds capacity num_shards i).1 * CHUNK_BYTES).
  destruct (recover_one f (shard_bounds capacity num_shards i) num_shards i Hb0 Hb1 Hb2 Hb3) as [(f1 & sh1 & Hrun & Hcont & Hok)|(Hrun & Hbad)]; rewrite Hrun; cbn [mbind outcome_bind].
  2:{ right. split; [done|]. exists i. split; [lia|done]. }
  destruct (IH (S i) f1) as [(f' & shs & Hrun' & Hcont' & Hall)|(Hrun' & j & Hj & Hbad)]; [intros j Hj; apply Hb; lia| |]; cbn zeta in Hrun'; rewrite Hrun'; cbn [mbind outcome_bind].
  - left. rewrite Hcont in Hcont', Hall. exists f', ((sh1, fresh_buffer) :: shs). split_and!; [reflexivity|exact Hcont'|by constructor].
  - right. split; [done|]. exists j. rewrite Hcont in Hbad. split; [lia|done].
Qed.
End recovered.

(** Without a data file there is no cache. *)
Lemma open_needs_file `{Hasher} `{StorageFile F} (open_data_file : Z → outcome (result DataFileError F)) cap payload_version size allocations e d :
  open_data_file (cap / CHUNK_BYTES * CHUNK_BYTES) = Done (Err e) →
  open_disk_cache open_data_file cap payload_version size allocations = Done (Ok d) → False.
Proof.
  intros Hf. unfold open_disk_cache. destruct (assert_that _); [|done]. cbn [mbind outcome_bind]. destruct (_ || _); [done|]. by rewrite Hf; cbn [mbind outcome_bind].
Qed.

(** An opened cache: its shards divide the file, each is consistent, has an empty
    buffer and only keys of its own, and after a change of format all are empty. *)
Definition opened `{Hasher} `{StorageFile F} (open_data_file : Z → outcome (result DataFileError F)) (cap payload_version : Z) (d : DiskCacheInner F) : Prop :=
  let c := cap / CHUNK_BYTES * CHUNK_BYTES in
  let n := num_shards_for c in
  let bounds := shard_bounds c n <$> seq 0 n in
  length (shards d) = n ∧ (1 ≤ n ≤ 64)%nat ∧ inner_consistent bounds d
  ∧ (∀ i j bi bj, i ≠ j → bounds !! i = Some bi → bounds !! j = Some bj → bi.2 ≤ bj.1 ∨ bj.2 ≤ bi.1)
  ∧ (∀ i x, shards d !! i = Some x → buffered x.2 = []
       ∧ ∀ key e, entries_by_key (entry_index x.1) !! key = Some e → shard_index_for_key n key = i)
  ∧ ∀ f, open_data_file c = Done (Ok f) → header_matches (disk_header (contents f)) payload_version c = false →
      ∀ i x, shards d !! i = Some x → entries_by_key (entry_index x.1) = ∅.

(** A file of the right format with a record that overflows the address space. *)
Definition overflowing_record `{Hasher} `{StorageFile F} (open_data_file : Z → outcome (result DataFileError F)) (cap payload_version : Z) : Prop :=
  let c := cap / CHUNK_BYTES * CHUNK_BYTES in
  ∃ f i, open_data_file c = Done (Ok f) ∧ header_matches (disk_header (contents f)) payload_version c = true
    ∧ let b := shard_bounds c (num_shards_for c) i in ¬ writer_records b.1 b.2 (contents f).

(** What opening does, in every case. *)
Lemma open_disk_cache_total `{HasherOk} `{StorageFileOk F} (open_data_file : Z → outcome (result DataFileError F)) cap payload_version size allocations :
  (∀ c, open_data_file c ≠ Panic) → (∀ c f, open_data_file c = Done (Ok f) → capacity f = c) →
  cap < 2 ^ 57 ∨ i64_max < cap → is_u64 payload_version → (0 < size)%nat →
  match open_disk_cache open_data_file cap payload_version size allocations with
  | Panic => overflowing_record open_data_file cap payload_version
  | Done r => (r = Err CacheInvalidCapacity ↔ cap < 2 * CHUNK_BYTES ∨ i64_max < cap) ∧ ∀ d, r = Ok d → opened open_data_file cap payload_version d
  end.
Proof.
  intros Hret Hopen Hcap Hv Hsize. unfold open_disk_cache. rewrite bool_decide_eq_true_2 by done. cbn [assert_that mbind outcome_bind].
  destruct (Z.ltb_spec cap (2 * CHUNK_BYTES)) as [Hlow|Hlow]; [by split; [tauto|]|].
  destruct (Z.ltb_spec i64_max cap) as [Hhigh|Hhigh]; [by split; [tauto|]|]. cbn [orb].
  assert (Hc := rounded_capacity cap Hlow). unfold opened, overflowing_record. set (c := cap / CHUNK_BYTES * CHUNK_BYTES) in *.
  assert (Hno : ∀ e : DataFileError, (Err (CacheDataFile e) : result DiskCacheError (DiskCacheInner F)) = Err CacheInvalidCapacity ↔ cap < 2 * CHUNK_BYTES ∨ i64_max < cap) by (intros e; split; [done|lia]).
  specialize (Hret c). destruct (open_data_file c) as [[f|e]|] eqn:Hf; [|by split; [apply Hno|]|done]. cbn [mbind outcome_bind].
  set (n := num_shards_for c). destruct (num_shards_bounds c ltac:(lia)) as [Hn Hnc]. fold n in Hn, Hnc. assert (Hfc := Hopen _ _ Hf).
  destruct (clear_incompatible_spec f payload_version n) as (f1 & r & Hrun & Hcap1 & _ & Hsame & Hok); [unfold CHUNK_BYTES in *; lia|done|lia|].
  rewrite Hrun. cbn [mbind outcome_bind]. destruct r as [[]|e]; [|by split; [apply Hno|]].
  destruct (Hok eq_refl) as [_ Hclear]. destruct (new_shards n 0 c (Z.of_nat n) allocations) as [shs|e] eqn:Hnew; [|by split; [apply Hno|]].
  rewrite (new_shards_spec _ _ _ _ _ _ Hnew). rewrite Hfc in Hsame, Hclear.
  assert (Hzero : header_matches (disk_header (contents f)) payload_version c = false → ∀ j, (j < n)%nat → zero_chunk (contents f1) ((shard_bounds c n j).1 * CHUNK_BYTES)).
  { intros Hm j Hj. assert (Hz := Hclear Hm (Z.of_nat j) ltac:(lia)). rewrite Hcap1, Hfc in Hz. exact Hz. }
  destruct (recover_shards_spec c n n 0 f1) as [(f2 & shs2 & Hrec & Hcont2 & Hall)|(Hrec & j & Hj & Hbad & Hnz)]; [intros j Hj; apply shard_bounds_ok; fold n; lia| |]; cbn zeta in Hrec; rewrite Hrec; cbn [mbind outcome_bind].
  2:{ exists f, j. destruct (header_matches (disk_header (contents f)) payload_version c) eqn:Hm; [|exfalso; apply Hnz, Hzero; [done|lia]].
      split_and!; [done|done|]. by rewrite <-Hsame by done. }
  split; [split; [done|lia]|]. intros d [= <-]. cbn [shards].
  assert (Hlook : ∀ i x, shs2 !! i = Some x → (i < n)%nat ∧ recovered_from (contents f1) n i (shard_bounds c n i) x).
  { intros i x Hi. destruct (Forall2_lookup_r _ _ _ _ _ Hall Hi) as (j & [-> Hlt]%lookup_seq & Hx). by split. }
  split_and!; [by rewrite <-(Forall2_length _ _ _ Hall), length_seq|lia|lia| | | |].
  - unfold inner_consistent. cbn [shards]. apply Forall2_fmap_l. eapply Forall2_impl; [exact Hall|]. by intros j x [? _].
  - intros i j bi bj. apply shard_bounds_apart; lia.
  - intros i x Hi. destruct (Hlook i x Hi) as (_ & _ & Hnil & Hkeys & _). by split.
  - intros f' Hf' Hm i x Hi. injection Hf' as <-. destruct (Hlook i x Hi) as (Hlt & _ & _ & _ & Hz). by apply Hz, Hzero.
Qed.

(** Without overflowing records there is no panic. *)
Lemma open_disk_cache_spec `{HasherOk} `{StorageFileOk F} (open_data_file : Z → outcome (result DataFileError F)) cap payload_version size allocations :
  (∀ c, open_data_file c ≠ Panic) → (∀ c f, open_data_file c = Done (Ok f) → capacity f = c) →
  (∀ c f i, open_data_file c = Done (Ok f) → let b := shard_bounds c (num_shards_for c) i in writer_records b.1 b.2 (contents f)) →
  cap < 2 ^ 57 ∨ i64_max < cap → is_u64 payload_version → (0 < size)%nat →
  ∃ r, open_disk_cache open_data_file cap payload_version size allocations = Done r
    ∧ (r = Err CacheInvalidCapacity ↔ cap < 2 * CHUNK_BYTES ∨ i64_max < cap) ∧ ∀ d, r = Ok d → opened open_data_file cap payload_version d.
Proof.
  intros Hret Hopen Hrecords Hcap Hv Hsize. pose proof (open_disk_cache_total open_data_file cap payload_version size allocations Hret Hopen Hcap Hv Hsize) as Ht.
  destruct (open_disk_cache _ _ _ _ _) as [r|]; [by exists r|]. destruct Ht as (f & i & Hf & _ & Hbad). exfalso. by apply Hbad, (Hrecords _ _ _ Hf).
Qed.

(** C16: opening a cache ends with an error or a consistent cache, whatever the
    file holds.  The capacity is refused exactly when it is below 2 MiB or beyond the
    range of file offsets.  Otherwise 1 to 64 shards divide the chunks after the
    header without overlap, each with an empty buffer and an index that is
    consistent with its metadata and holds only keys of that shard; and when the
    file's header did not match, every index is empty.  The file that is opened has the
    capacity it was asked for, as opening the data file promises.  A panic needs a file
    with a matching header and a validated record whose payload exceeds the 64-bit
    address space.  Accepted capacities of 2^57 bytes and more, with which a shard can
    have more chunks than 32-bit indices, are not covered. *)
Theorem open_consistent `{HasherOk} `{StorageFileOk F} (open_data_file : Z → outcome (result DataFileError F)) cap payload_version size allocations :
  (∀ c, open_data_file c ≠ Panic) → (∀ c f, open_data_file c = Done (Ok f) → capacity f = c) →
  cap < 2 ^ 57 ∨ i64_max < cap → is_u64 payload_version → (0 < size)%nat →
  match open_disk_cache open_data_file cap payload_version size allocations with
  | Panic => overflowing_record open_data_file cap payload_version
  | Done r => (r = Err CacheInvalidCapacity ↔ cap < 2 * CHUNK_BYTES ∨ i64_max < cap) ∧ ∀ d, r = Ok d → opened open_data_file cap payload_version d
  end.
Proof. intros. by apply open_disk_cache_total. Qed.

Lemma open_consistent_witness :
  let _ := sum_hasher in
  let open_data_file := λ c, Done (Ok (mkRamFile c (λ _, Byte.x00) [])) in
  ∃ r, open_disk_cache open_data_file (9 * CHUNK_BYTES + 5) 7 64 [] = Done r ∧ r ≠ Err CacheInvalidCapacity
    ∧ ∀ d, r = Ok d → opened open_data_file (9 * CHUNK_BYTES + 5) 7 d.
Proof.
  intros hash open_data_file. assert (Hh : @HasherOk hash) by apply sum_hasher_ok.
  assert (Ht := open_consistent open_data_file (9 * CHUNK_BYTES + 5) 7 64 []).
  destruct (open_disk_cache open_data_file (9 * CHUNK_BYTES + 5) 7 64 []) as [r|].
  - destruct Ht as [Hinv Hopened]; [discriminate|by intros c f [= <-]|left; reflexivity|split; [discriminate|reflexivity]|repeat constructor|].
    exists r. split; [reflexivity|]. split; [|exact Hopened]. intros Hr. apply Hinv in Hr as [Hbad|Hbad]; vm_compute in Hbad; discriminate.
  - exfalso. destruct Ht as (f & i & [= <-] & _ & Hbad); [discriminate|by intros c f [= <-]|left; reflexivity|split; [discriminate|reflexivity]|repeat constructor|].
    apply Hbad. intros k r _ Hin. destruct (zero_chunk_at k r Hin).
Defined.
