(* ===== verification/Restart.v ===== *)
(** * Restarting the cache

    [durable] is the invariant of a cache whose shards the disk knows about
    ([Persist.persistent]).  A cache opened on a new file is durable, every
    operation and every metadata tick without an I/O error keeps it so, and after
    such a tick opening the same file again gives a durable cache that shows every
    object except those that were still buffered in memory.  Payload reads and writes
    may fail at any time; a metadata round that fails gives up the pages it was to
    write, and the steps of [disk_step] leave it out.  That reads succeed on reopening is
    the class [FaultlessFile]. *)

From S2P Require Import Prelude Codec Errors Disk BTree Allocation PageFormat Metadata MetadataWriter Float64.
From S2P Require Import Retention EntryIndex Shard Writer DiskCache Recovery Reopen MetadataTick Header Persist.
From S2P Require Import Admission Uring File Lookup Open.

(** Keys are kept by the shard they hash to. *)
Definition owns_key (num_shards i : nat) (key : Z) : Prop := shard_index_for_key num_shards key = i.

Record durable `{Hasher} `{StorageFile F} (payload_version cap : Z) (bounds : list (Z * Z)) (d : DiskCacheInner F) : Prop := mkDurable {
  du_ok : inner_ok bounds d;
  du_bounds : (0 < length bounds)%nat ∧ ∀ i b, bounds !! i = Some b → b.1 < b.2;
  du_capacity : capacity (file d) = cap;
  du_header : header_matches (disk_header (contents (file d))) payload_version cap = true;
  du_shards : ∀ i b x, bounds !! i = Some b → shards d !! i = Some x → persistent b.1 (owns_key (length bounds) i) (contents (file d)) x.1;
  du_buffers : ∀ i x w, shards d !! i = Some x → w ∈ buffered x.2 → owns_key (length bounds) i (write_key w)
}.

(** ** Operations *)
Section operations.
Context `{HasherOk} `{StorageFileOk F} `{RetentionScorer Hist} (histories : Hist) (size : nat).
Context (payload_version cap : Z) (bounds : list (Z * Z)).
Implicit Types d : DiskCacheInner F.

Lemma durable_length d : durable payload_version cap bounds d → length (shards d) = length bounds.
Proof. intros Hd. symmetry. exact (Forall2_length _ _ _ (io_shards _ _ (du_ok _ _ _ _ Hd))). Qed.

Lemma metadata_in_shard lo hi sh c : shard_ok lo hi sh [] idle (0, 0) → ¬ (lo ≤ c < hi) → cover c (reserved_chunk <$> chunks (metadata_pages sh)) = 0.
Proof.
  intros Hok Hc. pose proof (ao_partition _ _ _ _ (proj1 (so_alloc _ _ _ _ _ _ Hok)) c) as Hp. rewrite app_nil_r in Hp.
  rewrite (proj2 (in_range_false c (mkRange lo hi))) in Hp by done.
  pose proof (cover_nonneg c (reserved_chunk <$> chunks (metadata_pages sh))). pose proof (held_cover_nonneg c (allocator sh)).
  destruct (b2z_cases (free_b (chunk_count_by_start (free (allocator sh))) c)); cbn in Hp; lia.
Qed.

(** A change of one shard and of the bytes of its range. *)
Lemma durable_change d d' i bi x x' :
  durable payload_version cap bounds d → bounds !! i = Some bi → shards d !! i = Some x →
  inner_ok bounds d' → shards d' = <[i := x']> (shards d) → capacity (file d') = capacity (file d) →
  (∀ a, contents (file d') a ≠ contents (file d) a → bi.1 ≤ a / CHUNK_BYTES < bi.2) →
  persistent bi.1 (owns_key (length bounds) i) (contents (file d')) x'.1 →
  (∀ w, w ∈ buffered x'.2 → owns_key (length bounds) i (write_key w)) → durable payload_version cap bounds d'.
Proof.
  intros [Hok Hb Hc Hh Hs Hw] Hbi Hi Hok' Hsh Hcap Hframe Hp Hbuf. assert (Hlt := lookup_lt_Some _ _ _ Hi). constructor; [done|done|congruence| | |].
  - rewrite (header_ext (contents (file d))); [done|]. intros a Ha. apply dec_stable. intros Hne. apply Hframe in Hne.
    destruct (shard_state bounds d i x Hok Hi) as (b & Hb' & [Hsh' _ _ _]). simplify_eq. destruct (so_bounds _ _ _ _ _ _ Hsh') as (_ & _ & Hlo & _).
    assert (a / CHUNK_BYTES < 1) by (apply Z.div_lt_upper_bound; [done|lia]). lia.
  - intros j bj y Hbj Hj. rewrite Hsh in Hj. destruct (decide (j = i)) as [->|Hne].
    { rewrite list_lookup_insert_eq in Hj by done. by simplify_eq. }
    rewrite list_lookup_insert_ne in Hj by done. destruct (Hs j bj y Hbj Hj) as [Hm Hpk Hk]. constructor; [|done|done].
    destruct (shard_state bounds d j y Hok Hj) as (b & Hb' & [Hsh' _ _ _]). simplify_eq.
    eapply meta_persistent_disk; [exact (mo_single _ (so_meta _ _ _ _ _ _ Hsh'))|exact Hm|]. intros a Ha. apply Hframe in Ha.
    assert (Hlj := proj2 Hb j bj Hbj). destruct (io_disjoint _ _ Hok i j bi bj) as [?|?]; try done.
    + split; [eapply metadata_in_shard; [done|lia]|lia].
    + split; [eapply metadata_in_shard; [done|lia]|lia].
  - intros j y w Hj Hw'. rewrite Hsh in Hj. destruct (decide (j = i)) as [->|Hne]; [|rewrite list_lookup_insert_ne in Hj by done; by eapply Hw].
    rewrite list_lookup_insert_eq in Hj by done. simplify_eq. by apply Hbuf.
Qed.

Lemma durable_counters d c o a : durable payload_version cap bounds d → durable payload_version cap bounds (mkInner (file d) (shards d) c o a).
Proof. intros [[] ? ? ? ? ?]. constructor; try done. Qed.

(** The file of a batch is the one its payload write left. *)
Lemma write_batch_durable d i sh b0 b bytes ws d' r :
  durable payload_version cap bounds d → shards d !! i = Some (sh, b0) → batch_effect bounds d d' i b bytes ws →
  batch_ok (div_ceil (Z.of_nat (length bytes)) CHUNK_BYTES * CHUNK_BYTES) ws →
  div_ceil (Z.of_nat (length bytes)) CHUNK_BYTES = 1 ∨ Z.of_nat (length ws) ≤ 1 →
  (∀ w, w ∈ ws → owns_key (length bounds) i (write_key w)) → (∀ w, w ∈ buffered b → owns_key (length bounds) i (write_key w)) →
  write_batch histories size d i sh b bytes ws = Done (d', r) → durable payload_version cap bounds d'.
Proof.
  intros Hd Hi [Hok' _ _ _ _ [Hcap Hframe]] (Hne & Hlen & _) Hone Hk Hkb Hrun. unfold write_batch in Hrun.
  destruct (write_payload _ _ _ _ _ _ _) as [[[[[f' sh'] c'] res] outs]|] eqn:Hw; [|done]. cbn [mbind outcome_bind] in Hrun.
  destruct (shard_state bounds d i _ (du_ok _ _ _ _ Hd) Hi) as (bi & Hbi & [Hsh _ _ _]). cbn [fst] in Hsh.
  assert (Hp := du_shards _ _ _ _ Hd i bi _ Hbi Hi). cbn [fst] in Hp.
  assert (Hp' := write_payload_persists histories size bi.1 bi.2 _ (file d) sh (counters d) bytes ws f' sh' c' res outs Hsh Hne Hlen Hone ltac:(by apply Forall_forall) Hw Hp).
  injection Hrun as <- _. eapply (durable_change d _ i bi (sh, b0) (sh', b)); try done. cbn [file] in *.
  intros a Ha. destruct (Hframe a Ha) as (b1 & Hb1 & Hin). by simplify_eq.
Qed.

Lemma flush_shard_durable d i d' r : durable payload_version cap bounds d → flush_shard histories size d i = Done (d', r) → durable payload_version cap bounds d'.
Proof.
  intros Hd Hrun. unfold flush_shard in Hrun. destruct (shards d !! i) as [[sh b]|] eqn:Hi; [|done]. cbn [unwrap mbind outcome_bind] in Hrun.
  destruct (buffered b) as [|w ws] eqn:Hbuf; [by injection Hrun as <- _|].
  unfold new_buffer in Hrun. assert (Hd0 := durable_counters d (counters d) (outcomes d) (tail (allocations d)) Hd).
  destruct (default true (head (allocations d))); [|by injection Hrun as <- _]. rewrite <-Hbuf in Hrun. set (d0 := mkInner _ _ _ _ _) in *.
  destruct (shard_state bounds d i _ (du_ok _ _ _ _ Hd) Hi) as (bi & Hbi & [Hsh Hb _ _]). cbn [fst snd] in Hsh, Hb.
  destruct (buffer_batch b Hb ltac:(by rewrite Hbuf)) as [Hbatch Hone].
  destruct (write_batch_ok histories size bounds d0 i sh b (mkSmallEntryBuffer (zeros (Z.to_nat CHUNK_BYTES)) []) (buffer b) (buffered b) (du_ok _ _ _ _ Hd0) Hi)
    as (d1 & r1 & Hrun1 & Heff); [|done|exact (bo_sealed _ Hb)|apply fresh_buffer_ok|by intros ? ?%elem_of_nil|].
  { assert (Hl := bo_length _ Hb). unfold CHUNK_BYTES in Hl. lia. }
  assert (Hrun' := Hrun). rewrite Hrun1 in Hrun'. injection Hrun' as -> ->.
  eapply (write_batch_durable d0 i sh b _ _ _ d' r Hd0 Hi Heff Hbatch ltac:(by left)); [|by intros ? ?%elem_of_nil|exact Hrun].
  intros w' Hw'. exact (du_buffers _ _ _ _ Hd i (sh, b) w' Hi Hw').
Qed.

Lemma flush_from_durable n : ∀ i d k d' r, durable payload_version cap bounds d → flush_from histories size n i d k = Done (d', r) → durable payload_version cap bounds d'.
Proof.
  induction n as [|n IH]; intros i d k d' r Hd Hrun; cbn [flush_from] in Hrun; [by injection Hrun as <- _|].
  destruct (flush_shard histories size d i) as [[d1 r1]|] eqn:Hf; [|done]. cbn [mbind outcome_bind] in Hrun.
  assert (Hd1 := flush_shard_durable _ _ _ _ Hd Hf). destruct r1 as [n1|e]; [by eapply IH|by injection Hrun as <- _].
Qed.

Lemma discard_durable d : durable payload_version cap bounds d → durable payload_version cap bounds (discard_pending d).
Proof.
  intros Hd. assert (Hok := discard_ok bounds d (du_ok _ _ _ _ Hd)). destruct Hd as [_ Hb Hc Hh Hs Hw]. constructor; [apply Hok|done|done|done| |].
  - intros i b x Hbi Hi. cbn in Hi. rewrite list_lookup_fmap in Hi. apply fmap_Some in Hi as (x0 & Hi & ->). exact (Hs i b x0 Hbi Hi).
  - intros i x w Hi Hin. cbn in Hi. rewrite list_lookup_fmap in Hi. apply fmap_Some in Hi as (x0 & Hi & ->). cbn in Hin. by apply elem_of_nil in Hin.
Qed.

(** Appending to a buffer, and flushing it when it is full. *)
Lemma finish_small_durable d i sh b key bytes published d' r :
  durable payload_version cap bounds d → i = shard_index_for_key (length (shards d)) key → shards d !! i = Some (sh, b) → is_u128 key → view d key = None →
  packed_end (buffered b) + payload_disk_bytes (Z.of_nat (length bytes)) ≤ CHUNK_BYTES →
  let d2 := with_shard i (sh, push_entry b (packed_end (buffered b)) key bytes) d in
  (if packed_end (buffered b) + payload_disk_bytes (Z.of_nat (length bytes)) =? CHUNK_BYTES
   then '(d3, r) ← flush_shard histories size d2 i; Done (d3, add_published published r)
   else Done (d2, Ok published)) = Done (d', r) → durable payload_version cap bounds d'.
Proof.
  intros Hd Hidx Hi Hkey Hview Hfit d2 Hrun.
  destruct (push_ok bounds d i sh b key bytes (du_ok _ _ _ _ Hd) Hidx Hi Hkey Hview Hfit) as (Hok2 & _). fold d2 in Hok2.
  destruct (shard_state bounds d i _ (du_ok _ _ _ _ Hd) Hi) as (bi & Hbi & _).
  assert (Hd2 : durable payload_version cap bounds d2).
  { eapply (durable_change d d2 i bi (sh, b)); try done; [exact (du_shards _ _ _ _ Hd i bi _ Hbi Hi)|].
    cbn [snd push_entry buffered]. intros w [Hw|Hw%list_elem_of_singleton]%elem_of_app; [exact (du_buffers _ _ _ _ Hd i _ w Hi Hw)|].
    subst w. unfold owns_key. cbn [write_key]. by rewrite Hidx, (durable_length d Hd). }
  destruct (_ =? CHUNK_BYTES); [|by injection Hrun as <- _].
  destruct (flush_shard histories size d2 i) as [[d3 r3]|] eqn:Hf; [|done]. injection Hrun as <- _. by eapply flush_shard_durable.
Qed.

Lemma write_durable d key bytes d' r :
  durable payload_version cap bounds d → is_u128 key → write histories size d key bytes = Done (d', r) → durable payload_version cap bounds d'.
Proof.
  intros Hd Hkey Hrun. assert (Hok := du_ok _ _ _ _ Hd). unfold write in Hrun. set (i := shard_index_for_key (length (shards d)) key) in *.
  destruct (shards d !! i) as [[sh b]|] eqn:Hi; [|done]. cbn [unwrap mbind outcome_bind] in Hrun. rewrite (contains_view bounds d key (sh, b) Hok Hi) in Hrun.
  destruct (view d key) as [v|] eqn:Hview.
  { rewrite bool_decide_eq_true_2 in Hrun by eauto. injection Hrun as <- _. by apply durable_counters. }
  rewrite bool_decide_eq_false_2 in Hrun by (by intros []). assert (Hown : owns_key (length bounds) i key) by (unfold owns_key; by rewrite <-(durable_length d Hd)).
  destruct (Z.leb_spec SMALL_ENTRY_BYTES (payload_disk_bytes (Z.of_nat (length bytes)))) as [Hbig|Hsmall].
  { destruct (write_large histories size bounds d i sh b key bytes Hok eq_refl Hi Hkey Hview Hbig) as (d1 & r1 & Hrun1 & Heff & _).
    assert (Hrun' := Hrun). rewrite Hrun1 in Hrun'. injection Hrun' as -> ->. destruct (large_batch key bytes Hkey Hbig) as (_ & Hbatch & _).
    eapply (write_batch_durable d i sh b b bytes _ d' r Hd Hi Heff Hbatch ltac:(by right)); [by intros w ->%list_elem_of_singleton| |exact Hrun].
    intros w Hw. exact (du_buffers _ _ _ _ Hd i _ w Hi Hw). }
  destruct (shard_state bounds d i _ Hok Hi) as (bi & Hbi & [_ Hb _ _]). cbn [fst snd] in Hb. rewrite (next_offset b (bo_packed _ Hb)) in Hrun.
  pose proof (payload_disk_bytes_spec (Z.of_nat (length bytes)) ltac:(lia)) as (_ & Hpd & _). unfold SMALL_ENTRY_BYTES in Hsmall.
  destruct (Z.ltb_spec CHUNK_BYTES (packed_end (buffered b) + payload_disk_bytes (Z.of_nat (length bytes)))) as [Hfull|Hroom].
  - destruct (flush_shard_ok histories size bounds d i Hok) as (d1 & r1 & Hf & _ & Hle & Hlen & _ & Hempty & _); [by eapply lookup_lt_Some|].
    assert (Hd1 := flush_shard_durable d i d1 r1 Hd Hf). rewrite Hf in Hrun. cbn [mbind outcome_bind] in Hrun.
    destruct r1 as [n|e]; [|injection Hrun as <- _; by apply durable_counters].
    destruct (Hempty eq_refl) as (sh1 & b1 & Hi1 & Hnil). rewrite Hi1 in Hrun. cbn [unwrap mbind outcome_bind] in Hrun.
    destruct (assert_that _); [|done]. cbn [mbind outcome_bind] in Hrun. assert (Hpe : packed_end (buffered b1) = 0) by (by rewrite Hnil).
    assert (Hv1 : view d1 key = None) by (destruct (view d1 key) as [v|] eqn:Hv; [apply Hle in Hv; congruence|done]).
    eapply (finish_small_durable d1 i sh1 b1 key bytes n d' r Hd1); [unfold i; by rewrite Hlen|done|done|done|rewrite Hpe; unfold CHUNK_BYTES; lia|].
    rewrite Hpe. exact Hrun.
  - cbn [mbind outcome_bind] in Hrun. rewrite Hi in Hrun. cbn [unwrap mbind outcome_bind] in Hrun. destruct (assert_that _); [|done]. cbn [mbind outcome_bind] in Hrun.
    exact (finish_small_durable d i sh b key bytes 0 d' r Hd eq_refl Hi Hkey Hview Hroom Hrun).
Qed.
End operations.

(** Lookups change at most the weak references of the index, or drop an entry. *)
Section lookups.
Context `{Hasher} `{PayloadReader F} (lo : Z) (owns : Z → Prop) (d : disk).

Lemma remove_failed_persists sh key id res sh' : remove_failed sh key id res = Done sh' → persistent lo owns d sh → persistent lo owns d sh'.
Proof.
  unfold remove_failed. destruct res as [x|[]]; try by intros [= <-]. destruct (_ !! key); [|by intros [= <-]].
  destruct (bool_decide _); [|by intros [= <-]]. apply remove_entry_persists.
Qed.

Lemma start_lookup_persists (w : LookupWorld F) c key : persistent lo owns d (lw_shard w) → persistent lo owns d (lw_shard (start_lookup w c key)).
Proof.
  intros Hp. unfold start_lookup. destruct (if lw_locked w then _ else _); [done|]. destruct (_ !! key) as [e|] eqn:Hk; [|done].
  destruct (share_read _ _ _ _) as [[[e1 reads] next] id]. cbn [lw_shard]. unfold with_entries.
  apply (persistent_index lo owns d (lw_shard w)); [done|]. cbn [entries_by_key]. intros k [e' [[<- _]|[_ He']]%lookup_insert_Some]; eauto.
Qed.

Lemma lookup_alone_persists (w w' : LookupWorld F) key permit :
  lookup_alone w key permit = Done w' → persistent lo owns d (lw_shard w) → persistent lo owns d (lw_shard w').
Proof.
  intros Hrun Hp. apply (start_lookup_persists w 0 key) in Hp. unfold lookup_alone in Hrun.
  destruct (lw_callers (start_lookup w 0 key) !! 0%nat) as [[k id|k id|k id|k s o r]|]; try by injection Hrun as <-.
  destruct permit; [|by injection Hrun as <-]. unfold finish_read in Hrun. destruct (lw_reads _ !! id) as [rd|]; [|done]. cbn [unwrap mbind outcome_bind] in Hrun.
  destruct (read_and_verify_payload _ _) as [[f res]|]; [|done]. cbn [mbind outcome_bind] in Hrun. cbn [resolve_permit set_caller lw_shard] in Hrun.
  destruct (remove_failed _ _ _ _) as [sh'|] eqn:Hr; [|done]. injection Hrun as <-. apply remove_failed_persists in Hr; [|done]. by destruct res as [[bytes cap]|o].
Qed.
End lookups.

Section more_operations.
Context `{HasherOk} `{StorageFileOk F} `{!PayloadReader F} `{!PayloadReaderOk F} (payload_version cap : Z) (bounds : list (Z * Z)).
Implicit Types d : DiskCacheInner F.

Lemma get_durable d m key next permit d' m' r :
  durable payload_version cap bounds d → is_u128 key → get_with_fallthrough d m key next permit = Done (d', m', r) → durable payload_version cap bounds d'.
Proof.
  intros Hd Hkey Hrun. assert (Hok := du_ok _ _ _ _ Hd). assert (Hne : (0 < length (shards d))%nat) by (rewrite (durable_length _ _ _ d Hd); apply (du_bounds _ _ _ _ Hd)).
  destruct (get_spec bounds d m key next permit (inner_ok_consistent _ _ Hok) ltac:(apply Hkey) Hne) as (d1 & o & r1 & Hrun1 & Heff).
  assert (Hok' := proj1 (ge_ok _ _ _ _ _ _ _ Heff Hok)). rewrite Hrun in Hrun1. injection Hrun1 as <- -> <-.
  unfold get_with_fallthrough in Hrun. set (i := shard_index_for_key (length (shards d)) key) in *.
  destruct (shards d !! i) as [[sh b]|] eqn:Hi; [|done]. cbn [unwrap mbind outcome_bind] in Hrun.
  destruct (shard_state bounds d i _ Hok Hi) as (bi & Hbi & [Hsh _ _ _]). cbn [fst] in Hsh.
  destruct (lookup_alone_spec bi.1 bi.2 (file d) sh b m key next permit Hsh) as (w' & f' & sh' & src & o1 & r1 & Hl & Hc & Hf & Hs & Hb & Hm & [_ [Hcap Hcont] _ _]).
  rewrite Hl in Hrun. cbn [mbind outcome_bind] in Hrun. rewrite Hc, Hf, Hs, Hb in Hrun. injection Hrun as <- _ _.
  assert (Hp := lookup_alone_persists bi.1 (owns_key (length bounds) i) (contents (file d)) _ w' key permit Hl (du_shards _ _ _ _ Hd i bi _ Hbi Hi)). rewrite Hs in Hp.
  eapply (durable_change payload_version cap bounds d _ i bi (sh, b) (sh', b)); try done; cbn [file]; [by rewrite Hcont|by rewrite Hcont|].
  intros w Hw. exact (du_buffers _ _ _ _ Hd i _ w Hi Hw).
Qed.

(** A round that succeeds. *)
Lemma round_durable d i d' :
  durable payload_version cap bounds d → write_shard_metadata d i = Done (d', Ok ()) →
  durable payload_version cap bounds d' ∧ (∃ x', shards d' = <[i := x']> (shards d) ∧ settled (metadata_pages x'.1)).
Proof.
  intros Hd Hrun. assert (Hok := du_ok _ _ _ _ Hd). destruct (shards d !! i) as [[sh b]|] eqn:Hi.
  2:{ unfold write_shard_metadata in Hrun. by rewrite Hi in Hrun. }
  destruct (write_shard_metadata_ok bounds d i Hok) as (d1 & r & Hrun1 & [Hok' _ _ _ _] & _); [by eapply lookup_lt_Some|].
  rewrite Hrun in Hrun1. injection Hrun1 as <- <-. unfold write_shard_metadata in Hrun. rewrite Hi in Hrun. cbn [unwrap mbind outcome_bind] in Hrun.
  destruct (write_dirty_metadata_pages _ _) as [[[f m] r]|] eqn:Hw; [|done]. injection Hrun as <- ->.
  destruct (shard_state bounds d i _ Hok Hi) as (bi & Hbi & [Hsh _ _ _]). cbn [fst] in Hsh. destruct (shard_chunks_ok _ _ _ _ Hsh) as [Hcs Hlen].
  destruct (round_persists bi.1 bi.2 _ (file d) f sh m Hsh (du_shards _ _ _ _ Hd i bi _ Hbi Hi) Hw) as [Hp Hset].
  pose proof (write_round_frame _ _ _ _ _ (so_meta _ _ _ _ _ _ Hsh) Hcs Hlen Hw) as Hframe.
  destruct (write_round_spec (file d) (metadata_pages sh) (so_meta _ _ _ _ _ _ Hsh) Hcs Hlen) as (f1 & m1 & r1 & Hw1 & Hcap & _). rewrite Hw in Hw1. injection Hw1 as <- _ _.
  split; [|by eexists]. eapply (durable_change payload_version cap bounds d _ i bi (sh, b)); try done; cbn [file snd].
  - intros a Ha. by apply (metadata_chunk_free _ _ _ _ Hsh (Hframe a Ha)).
  - intros w Hw'. exact (du_buffers _ _ _ _ Hd i _ w Hi Hw').
Qed.

Lemma rounds_durable n : ∀ i d d' log,
  durable payload_version cap bounds d → (i + n = length (shards d))%nat → (∀ j x, (j < i)%nat → shards d !! j = Some x → settled (metadata_pages x.1)) →
  write_metadata_from n i d = Done (d', log) → Forall (λ r, r = Ok ()) log →
  durable payload_version cap bounds d' ∧ ∀ j x, shards d' !! j = Some x → settled (metadata_pages x.1).
Proof.
  induction n as [|n IH]; intros i d d' log Hd Hi Hset Hrun Hlog; cbn [write_metadata_from] in Hrun.
  { injection Hrun as <- _. split; [done|]. intros j x Hj. apply (Hset j x); [|done]. apply lookup_lt_Some in Hj. lia. }
  destruct (write_shard_metadata d i) as [[d1 r]|] eqn:Hr; [|done]. cbn [mbind outcome_bind] in Hrun.
  destruct (write_metadata_from n (S i) d1) as [[d2 log1]|] eqn:Hrest; [|done]. injection Hrun as <- <-. apply Forall_cons in Hlog as [-> Hlog].
  destruct (round_durable d i d1 Hd Hr) as [Hd1 (x' & Hsh & Hx')]. eapply (IH (S i) d1); [done| | |exact Hrest|done].
  - rewrite Hsh, length_insert. lia.
  - intros j x Hj Hx. rewrite Hsh in Hx. destruct (decide (j = i)) as [->|Hne].
    + rewrite list_lookup_insert_eq in Hx by lia. by simplify_eq.
    + rewrite list_lookup_insert_ne in Hx by done. apply (Hset j x); [lia|done].
Qed.
End more_operations.

(** ** Opening again *)
Section reopening.
Context `{HasherOk} `{StorageFileOk F} (payload_version cap : Z) (bounds : list (Z * Z)) (R : F → Prop).
Hypothesis Hrel : reliable R.

(** A shard found on the disk: as it was, with an empty buffer. *)
Definition found (d : disk) (i : nat) (b : Z * Z) (sh : DiskCacheShard) (x : DiskCacheShard * SmallEntryBuffer) : Prop :=
  shard_ok b.1 b.2 x.1 [] idle (0, 0) ∧ persistent b.1 (owns_key (length bounds) i) d x.1 ∧ same_index sh x.1 ∧ x.2 = fresh_buffer.

Lemma reopen_one f i (b : Z * Z) sh :
  b.1 < b.2 → shard_ok b.1 b.2 sh [] idle (0, 0) → persistent b.1 (owns_key (length bounds) i) (contents f) sh → settled (metadata_pages sh) →
  R f → b.2 * CHUNK_BYTES ≤ capacity f →
  ∃ f' sh', recover_shard f (new_shard b.1 b.2) (length bounds) i (b.1 * CHUNK_BYTES) = Done (f', sh')
    ∧ (R f' ∧ capacity f' = capacity f ∧ contents f' = contents f) ∧ found (contents f) i b sh (sh', fresh_buffer).
Proof.
  intros Hlt Hok Hp Hset HR Hcap. destruct (so_bounds _ _ _ _ _ _ Hok) as (Hhi & Hsmall & Hlo & _).
  destruct (decide (chunks (metadata_pages sh) = [])) as [Hnil|Hne].
  - assert (Hz := mp_first _ _ _ (pe_meta _ _ _ _ Hp)). rewrite Hnil in Hz. assert (Hpos : 0 ≤ b.1 * CHUNK_BYTES) by (unfold CHUNK_BYTES; lia).
    destruct (recover_zero_chunk f b.1 b.2 (length bounds) i (b.1 * CHUNK_BYTES)) as (f' & Hrun & Hcont & Hf'); [done..|].
    assert (HR' : R f' ∧ capacity f' = capacity f).
    { destruct Hf' as [->|(r & Hread)]; [done|].
      destruct (Hrel f (b.1 * CHUNK_BYTES) (Z.to_nat CHUNK_BYTES) HR Hpos) as (f1 & Hread1 & ? & ? & _); [rewrite Z2Nat.id by done; unfold CHUNK_BYTES in *; lia|].
      rewrite Hread in Hread1. by injection Hread1 as -> _. }
    exists f', (new_shard b.1 b.2). split; [done|]. split; [tauto|]. split_and!; [by apply new_shard_ok|by apply new_shard_persists| |done].
    eapply same_slots_same_index; [exact Hok|by apply new_shard_ok|]. intros loc. by rewrite Hnil.
  - assert (Hw := settled_written _ _ _ _ Hp Hset Hne). assert (Hpk : packed_in_one_chunk sh).
    { intros k r n Hk. destruct (ao_held _ _ _ _ (proj1 (so_alloc _ _ _ _ _ _ Hok)) _ _ _ Hk) as (_ & _ & ?). destruct (pe_packed _ _ _ _ Hp _ _ _ Hk); [by left|right; lia]. }
    assert (Hks : keys_of_shard sh (length bounds) i) by (intros key e Hk; apply (pe_keys _ _ _ _ Hp); eauto).
    destruct (reopen_spec b.1 b.2 R Hrel f sh (length bounds) i Hok Hlt HR Hcap Hw Hpk Hks) as (f' & sh' & Hrun & Hf' & Hok' & Hsame & Hcs & Hd & Hin).
    exists f', sh'. split; [done|]. split; [done|]. split_and!; [done|by apply (reopened_persists b.1 b.2 _ _ sh)|done|done].
Qed.

Lemma reopen_shards num_shards (d : DiskCacheInner F) n : ∀ i f,
  (∀ j b, bounds !! j = Some b → b = shard_bounds cap num_shards j ∧ b.1 < b.2 ∧ b.2 * CHUNK_BYTES ≤ cap) → num_shards = length bounds →
  Forall2 (λ b x, shard_ok b.1 b.2 x.1 [] idle (0, 0)) bounds (shards d) →
  (∀ j b x, bounds !! j = Some b → shards d !! j = Some x → persistent b.1 (owns_key (length bounds) j) (contents (file d)) x.1 ∧ settled (metadata_pages x.1)) →
  R f → capacity f = cap → contents f = contents (file d) → (i + n = length bounds)%nat →
  ∃ f' shs, recover_shards f cap num_shards i
      ((λ j, (new_shard (shard_bounds cap num_shards j).1 (shard_bounds cap num_shards j).2, fresh_buffer)) <$> seq i n) = Done (f', shs)
    ∧ (R f' ∧ capacity f' = cap ∧ contents f' = contents (file d)) ∧ length shs = n
    ∧ ∀ j b x y, bounds !! (i + j)%nat = Some b → shards d !! (i + j)%nat = Some x → shs !! j = Some y → found (contents (file d)) (i + j) b x.1 y.
Proof.
  induction n as [|n IH]; intros i f Hb Hn Hok Hp HR Hcap Hcont Hi; cbn [seq fmap list_fmap recover_shards].
  { exists f, []. split_and!; [done..|]. intros j b x y _ _ Hj. by rewrite lookup_nil in Hj. }
  destruct (lookup_lt_is_Some_2 bounds i) as [b Hbi]; [lia|]. destruct (Hb i b Hbi) as (Hbe & Hlt & Hle).
  destruct (Forall2_lookup_l _ _ _ _ _ Hok Hbi) as (x & Hx & Hsh). destruct (Hp i b x Hbi Hx) as [Hpi Hset]. rewrite <-Hcont in Hpi.
  destruct (reopen_one f i b x.1 Hlt Hsh Hpi Hset HR) as (f1 & sh1 & Hrun & (HR1 & Hcap1 & Hcont1) & Hfound); [by rewrite Hcap|].
  change (range_start (shard_disk_range cap (Z.of_nat num_shards) (Z.of_nat i))) with ((shard_bounds cap num_shards i).1 * CHUNK_BYTES).
  rewrite <-Hbe, Hn, Hrun. cbn [mbind outcome_bind]. rewrite <-Hn.
  destruct (IH (S i) f1) as (f' & shs & Hrun' & Hf' & Hlen & Hall); [done|done|done|done|done|congruence|congruence|lia|].
  rewrite Hrun'. cbn [mbind outcome_bind]. exists f', ((sh1, fresh_buffer) :: shs). split_and!; [done|apply Hf'..|cbn; lia|].
  intros [|j] b' x' y Hb' Hx' Hy.
  - rewrite Nat.add_0_r in *. simplify_eq. cbn in Hy. simplify_eq. rewrite <-Hcont. exact Hfound.
  - rewrite <-Nat.add_succ_comm in *. by eapply (Hall j).
Qed.

Lemma new_shards_total n : ∀ i c k allocs, Forall (λ b, b = true) allocs → ∃ shs, new_shards n i c k allocs = Ok shs.
Proof.
  induction n as [|n IH]; intros i c k allocs Ha; cbn [new_shards]; [by eexists|].
  assert (Hd : default true (head allocs) = true) by (destruct Ha; [done|by subst]). rewrite Hd. cbn [new_buffer].
  destruct (IH (S i) c k (tail allocs)) as (shs & ->); [by destruct Ha|]. by eexists.
Qed.
End reopening.

(** ** Caches of a file *)
Section files.
Context `{HasherOk} `{StorageFileOk F}.

(** The shards of a cache opened with [capacity], and its size in whole chunks. *)
Definition whole_chunks (capacity : Z) : Z := capacity / CHUNK_BYTES * CHUNK_BYTES.
Definition file_bounds (capacity : Z) : list (Z * Z) := shard_bounds capacity (num_shards_for capacity) <$> seq 0 (num_shards_for capacity).

Lemma file_bounds_spec c : 2 * CHUNK_BYTES ≤ c → c < 2 ^ 57 →
  length (file_bounds c) = num_shards_for c ∧ (0 < num_shards_for c)%nat
  ∧ (∀ j b, file_bounds c !! j = Some b → b = shard_bounds c (num_shards_for c) j ∧ (j < num_shards_for c)%nat
       ∧ 0 < b.1 ∧ b.1 < b.2 ∧ b.2 * CHUNK_BYTES ≤ 2 ^ 63 ∧ b.2 - b.1 < 2 ^ 32 ∧ b.2 * CHUNK_BYTES ≤ c)
  ∧ ∀ i j bi bj, i ≠ j → file_bounds c !! i = Some bi → file_bounds c !! j = Some bj → bi.2 ≤ bj.1 ∨ bj.2 ≤ bi.1.
Proof.
  intros Hc H57. destruct (num_shards_bounds c Hc) as [Hn Hnc]. unfold file_bounds. split_and!; [by rewrite length_fmap, length_seq|lia| |].
  - intros j b Hj. apply list_lookup_fmap_Some in Hj as (j' & -> & [-> Hlt]%lookup_seq). cbn [Nat.add].
    destruct (shard_bounds_ok c j Hc H57 Hlt) as (? & ? & ? & ?). split_and!; try done.
    exact (shard_end_le c (Z.of_nat (num_shards_for c)) (Z.of_nat j) ltac:(unfold CHUNK_BYTES in *; lia) ltac:(lia)).
  - intros i j bi bj Hij Hi Hj. by eapply (shard_bounds_apart c (num_shards_for c) i j); [lia|lia|..].
Qed.

Lemma found_inner_ok c (f' : F) (d : DiskCacheInner F) shs w o a :
  2 * CHUNK_BYTES ≤ c → c < 2 ^ 57 → inner_ok (file_bounds c) d → length shs = num_shards_for c → contents f' = contents (file d) →
  (∀ j b x y, file_bounds c !! j = Some b → shards d !! j = Some x → shs !! j = Some y → found (file_bounds c) (contents (file d)) j b x.1 y) →
  inner_ok (file_bounds c) (mkInner f' shs w o a) ∧ ∀ key, view (mkInner f' shs w o a) key = view (discard_pending d) key.
Proof.
  intros Hc H57 Hok Hlen Hcont Hall. destruct (file_bounds_spec c Hc H57) as (Hbl & _ & _ & Hdis). assert (Hld := Forall2_length _ _ _ (io_shards _ _ Hok)).
  assert (Hsame : ∀ (sh sh' : DiskCacheShard) key, same_index sh sh' → entry_payload (contents f') <$> entries_by_key (entry_index sh') !! key = entry_payload (contents (file d)) <$> entries_by_key (entry_index sh) !! key).
  { intros sh sh' key Hs. specialize (Hs key). destruct (entries_by_key (entry_index sh) !! key) as [e|], (entries_by_key (entry_index sh') !! key) as [e'|]; cbn in *; try done.
    injection Hs as Hl Ha _ _. unfold entry_payload. by rewrite Hl, Ha, Hcont. }
  split.
  - constructor; [|done]. cbn [file shards]. apply Forall2_same_length_lookup_2; [lia|]. intros j b y Hb Hy.
    destruct (lookup_lt_is_Some_2 (shards d) j) as [x Hx]; [apply lookup_lt_Some in Hb; lia|].
    destruct (Hall j b x y Hb Hx Hy) as (Hsh & _ & Hs & Hbuf). constructor; [done|rewrite Hbuf; apply fresh_buffer_ok|rewrite Hbuf; by intros w0 ?%elem_of_nil|].
    intros key e He. destruct (shard_state _ d j x Hok Hx) as (b' & _ & [_ _ _ Hint]). specialize (Hsame x.1 y.1 key Hs). specialize (Hs key). rewrite He in Hs, Hsame.
    destruct (entries_by_key (entry_index x.1) !! key) as [e0|] eqn:He0; [|done]. cbn in Hsame. injection Hsame as ->. cbn in Hs. injection Hs as _ _ Hck _. rewrite Hck. exact (Hint key e0 He0).
  - intros key. unfold view. cbn [shards file discard_pending]. rewrite length_fmap, list_lookup_fmap, Hlen, <-Hld, Hbl. set (j := shard_index_for_key _ key).
    destruct (shs !! j) as [y|] eqn:Hy, (shards d !! j) as [x|] eqn:Hx; try (apply lookup_lt_Some in Hy; apply lookup_ge_None_1 in Hx; lia); try (apply lookup_lt_Some in Hx; apply lookup_ge_None_1 in Hy; lia); [|done].
    destruct (lookup_lt_is_Some_2 (file_bounds c) j) as [b Hb]; [apply lookup_lt_Some in Hx; lia|]. destruct (Hall j b x y Hb Hx Hy) as (_ & _ & Hs & Hbuf).
    cbn [mbind option_bind fmap option_fmap option_map snd fst]. rewrite Hbuf. exact (Hsame x.1 y.1 key Hs).
Qed.

(** Opening the file of a durable cache whose metadata is settled. *)
Lemma reopen_durable (R : F → Prop) (open_data_file : Z → outcome (result DataFileError F)) capacity0 payload_version size allocs d f :
  let c := whole_chunks capacity0 in
  2 * CHUNK_BYTES ≤ capacity0 → capacity0 < 2 ^ 57 → (0 < size)%nat → Forall (λ b, b = true) allocs →
  durable payload_version c (file_bounds c) d → (∀ j x, shards d !! j = Some x → settled (metadata_pages x.1)) →
  reliable R → open_data_file c = Done (Ok f) → R f → capacity f = c → contents f = contents (file d) →
  ∃ d', open_disk_cache open_data_file capacity0 payload_version size allocs = Done (Ok d')
    ∧ durable payload_version c (file_bounds c) d' ∧ ∀ key, view d' key = view (discard_pending d) key.
Proof.
  intros c Hcap H57 Hsize Hallocs Hd Hset Hrel Hf HR Hfc Hcont. assert (Hc : 2 * CHUNK_BYTES ≤ c ≤ capacity0) by exact (rounded_capacity capacity0 Hcap).
  destruct (file_bounds_spec c ltac:(lia) ltac:(lia)) as (Hbl & Hn0 & Hb & Hdis).
  unfold open_disk_cache. rewrite bool_decide_eq_true_2 by done. cbn [assert_that mbind outcome_bind].
  rewrite (proj2 (Z.ltb_ge _ _)) by lia. rewrite (proj2 (Z.ltb_ge _ _)) by (unfold i64_max; lia). cbn [orb].
  change (capacity0 / CHUNK_BYTES * CHUNK_BYTES) with c. rewrite Hf. cbn [mbind outcome_bind]. set (n := num_shards_for c) in *.
  unfold clear_incompatible_metadata. destruct (Hrel f 0 (Z.to_nat HEADER_BYTES) HR ltac:(done)) as (f0 & Hread & HR0 & Hcap0 & Hcont0).
  { rewrite Hfc. change (Z.of_nat (Z.to_nat HEADER_BYTES)) with 4096. unfold CHUNK_BYTES in *. lia. }
  rewrite Hread. cbn [mbind outcome_bind]. rewrite Hcap0, Hfc. change (disk_read (contents f) 0 (Z.to_nat HEADER_BYTES)) with (disk_header (contents f)).
  rewrite Hcont, (du_header _ _ _ _ Hd). cbn [mbind outcome_bind].
  destruct (new_shards_total n 0 c (Z.of_nat n) allocs Hallocs) as (shs0 & Hnew). rewrite Hnew, (new_shards_spec _ _ _ _ _ _ Hnew).
  destruct (reopen_shards c (file_bounds c) R Hrel n d n 0 f0) as (f1 & shs & Hrec & (HR1 & Hcap1 & Hcont1) & Hlen & Hall); try done.
  - intros j b Hj. by destruct (Hb j b Hj) as (? & _ & _ & ? & _ & _ & ?).
  - eapply Forall2_impl; [exact (io_shards _ _ (du_ok _ _ _ _ Hd))|]. by intros b x [? _ _ _].
  - intros j b x Hj Hx. split; [exact (du_shards _ _ _ _ Hd j b x Hj Hx)|by eapply Hset].
  - congruence.
  - congruence.
  - rewrite Hrec. cbn [mbind outcome_bind]. eexists. split; [reflexivity|].
    destruct (found_inner_ok c f1 d shs (mkWriteCounters 0 0 0) (mkWriteOutcomes (λ _, 0) 0) (drop n allocs)) as [Hok' Hview]; try done; [lia|lia|exact (du_ok _ _ _ _ Hd)|].
    split; [|done]. assert (Hld := durable_length _ _ _ d Hd). constructor; [done|exact (du_bounds _ _ _ _ Hd)|done|cbn [file]; rewrite Hcont1; exact (du_header _ _ _ _ Hd)|..]; cbn [file shards].
    + intros j b y Hj Hy. destruct (lookup_lt_is_Some_2 (shards d) j) as [x Hx]; [apply lookup_lt_Some in Hj; lia|].
      destruct (Hall j b x y Hj Hx Hy) as (_ & Hp & _). rewrite Hcont1. exact Hp.
    + intros j y w Hy Hw. destruct (lookup_lt_is_Some_2 (file_bounds c) j) as [b Hj]; [apply lookup_lt_Some in Hy; lia|].
      destruct (lookup_lt_is_Some_2 (shards d) j) as [x Hx]; [apply lookup_lt_Some in Hj; lia|]. destruct (Hall j b x y Hj Hx Hy) as (_ & _ & _ & Hbuf).
      rewrite Hbuf in Hw. by apply elem_of_nil in Hw.
Qed.

(** Shards whose chains were cleared are recovered empty. *)
Lemma recover_shards_cleared c num_shards n : ∀ i f,
  (∀ j, (i ≤ j < i + n)%nat → let b := shard_bounds c num_shards j in
     0 < b.1 ∧ b.1 < b.2 ∧ b.2 * CHUNK_BYTES ≤ 2 ^ 63 ∧ b.2 - b.1 < 2 ^ 32 ∧ zero_chunk (contents f) (b.1 * CHUNK_BYTES)) →
  let shs := (λ j, (new_shard (shard_bounds c num_shards j).1 (shard_bounds c num_shards j).2, fresh_buffer)) <$> seq i n in
  ∃ f', recover_shards f c num_shards i shs = Done (f', shs) ∧ capacity f' = capacity f ∧ contents f' = contents f.
Proof.
  induction n as [|n IH]; intros i f Hb; cbn [seq fmap list_fmap recover_shards]; [by exists f|].
  destruct (Hb i ltac:(lia)) as (Hb0 & Hb1 & Hb2 & Hb3 & Hz). assert (Hpos : 0 ≤ (shard_bounds c num_shards i).1 * CHUNK_BYTES) by (unfold CHUNK_BYTES; lia).
  destruct (recover_zero_chunk f _ _ num_shards i _ Hb0 Hb1 Hb2 Hb3 Hpos Hz) as (f1 & Hrun & Hcont & Hread).
  assert (Hcap : capacity f1 = capacity f).
  { destruct Hread as [->|(r & Hr)]; [done|]. destruct (read_at_ok f _ (Z.to_nat CHUNK_BYTES) Hpos) as (f2 & r2 & Hr2 & Hc2 & _). rewrite Hr in Hr2. by injection Hr2 as <- _. }
  change (range_start (shard_disk_range c (Z.of_nat num_shards) (Z.of_nat i))) with ((shard_bounds c num_shards i).1 * CHUNK_BYTES). rewrite Hrun. cbn [mbind outcome_bind].
  destruct (IH (S i) f1) as (f' & Hrun' & Hcap' & Hcont'). { intros j Hj. rewrite Hcont. apply Hb. lia. }
  rewrite Hrun'. cbn [mbind outcome_bind]. exists f'. split_and!; [done|congruence|congruence].
Qed.

(** A cache opened on a new file, or on one that was written by another version. *)
Lemma fresh_durable (open_data_file : Z → outcome (result DataFileError F)) capacity0 payload_version size allocs d f :
  let c := whole_chunks capacity0 in
  2 * CHUNK_BYTES ≤ capacity0 → capacity0 < 2 ^ 57 → is_u64 payload_version →
  open_data_file c = Done (Ok f) → capacity f = c → header_matches (disk_header (contents f)) payload_version c = false →
  open_disk_cache open_data_file capacity0 payload_version size allocs = Done (Ok d) →
  durable payload_version c (file_bounds c) d ∧ ∀ key, view d key = None.
Proof.
  intros c Hcap H57 Hv Hf Hfc Hm Hrun. assert (Hc : 2 * CHUNK_BYTES ≤ c ≤ capacity0) by exact (rounded_capacity capacity0 Hcap).
  destruct (file_bounds_spec c ltac:(lia) ltac:(lia)) as (Hbl & Hn0 & Hb & Hdis).
  unfold open_disk_cache in Hrun. destruct (assert_that _); [|done]. cbn [mbind outcome_bind] in Hrun.
  rewrite (proj2 (Z.ltb_ge _ _)) in Hrun by lia. rewrite (proj2 (Z.ltb_ge _ _)) in Hrun by (unfold i64_max; lia). cbn [orb] in Hrun.
  change (capacity0 / CHUNK_BYTES * CHUNK_BYTES) with c in Hrun. rewrite Hf in Hrun. cbn [mbind outcome_bind] in Hrun. set (n := num_shards_for c) in *.
  destruct (clear_incompatible_spec f payload_version n) as (f1 & r & Hclear & Hcap1 & _ & _ & Hok); [unfold CHUNK_BYTES in *; lia|done|lia|].
  rewrite Hclear in Hrun. cbn [mbind outcome_bind] in Hrun. destruct r as [[]|e]; [|done]. destruct (Hok eq_refl) as [Hh1 Hz]. rewrite Hfc in Hh1, Hz. specialize (Hz Hm).
  destruct (new_shards n 0 c (Z.of_nat n) allocs) as [shs|e] eqn:Hnew; [|done]. rewrite (new_shards_spec _ _ _ _ _ _ Hnew) in Hrun.
  assert (Hbj : ∀ j, (j < n)%nat → file_bounds c !! j = Some (shard_bounds c n j)).
  { intros j Hj. unfold file_bounds. rewrite list_lookup_fmap, lookup_seq_lt by done. done. }
  assert (Hzj : ∀ j, (j < n)%nat → zero_chunk (contents f1) ((shard_bounds c n j).1 * CHUNK_BYTES)).
  { intros j Hj. assert (Hzj := Hz (Z.of_nat j) ltac:(lia)). rewrite Hcap1, Hfc in Hzj. exact Hzj. }
  destruct (recover_shards_cleared c n n 0 f1) as (f2 & Hrec & Hcap2 & Hcont2).
  { intros j Hj. destruct (Hb j _ (Hbj j ltac:(lia))) as (_ & _ & ? & ? & ? & ? & _). split_and!; try done. apply Hzj. lia. }
  rewrite Hrec in Hrun. cbn [mbind outcome_bind] in Hrun. injection Hrun as <-.
  assert (Hsh : ∀ j x, ((λ j, (new_shard (shard_bounds c n j).1 (shard_bounds c n j).2, fresh_buffer)) <$> seq 0 n) !! j = Some x →
            (j < n)%nat ∧ x = (new_shard (shard_bounds c n j).1 (shard_bounds c n j).2, fresh_buffer)).
  { intros j x Hx. apply list_lookup_fmap_Some in Hx as (j' & -> & [-> Hlt]%lookup_seq). done. }
  split.
  - constructor; cbn [file shards]; [|split; [lia|by intros j b (_ & _ & _ & ? & _)%Hb]|congruence|by rewrite Hcont2| |].
    + constructor; [|done]. cbn [file shards]. apply Forall2_same_length_lookup_2; [by rewrite Hbl, length_fmap, length_seq|].
      intros j b x Hj [Hlt ->]%Hsh. destruct (Hb j b Hj) as (-> & _ & ? & ? & ? & ? & _).
      constructor; [by apply new_shard_ok|apply fresh_buffer_ok|by intros w ?%elem_of_nil|]. intros key e He. cbn in He. by rewrite lookup_empty in He.
    + intros j b x Hj [Hlt ->]%Hsh. destruct (Hb j b Hj) as (-> & _). apply new_shard_persists. rewrite Hcont2. by apply Hzj.
    + intros j x w [Hlt ->]%Hsh Hw. by apply elem_of_nil in Hw.
  - intros key. unfold view. cbn [file shards]. destruct (_ !! shard_index_for_key _ key) as [x|] eqn:Hx; [|done]. apply Hsh in Hx as [_ ->]. cbn. by rewrite lookup_empty.
Qed.
End files.

(** ** Histories of a cache *)
Section steps.
Context `{HasherOk} `{StorageFileOk F} `{!PayloadReader F} `{!PayloadReaderOk F} `{RetentionScorer Hist} (size : nat).

(** What happens to an open disk cache: operations of its clients and of the
    writer, each with the access histories of its time, and ticks of the metadata
    writer in which every write succeeded. *)
Inductive disk_step (d d' : DiskCacheInner F) : Prop :=
  | step_op (histories : Hist) op m m' r : op_key_ok op → run_op histories size d m op = Done (d', m', r) → disk_step d d'
  | step_batch (histories : Hist) sort entries r : sorts_by_length sort → Forall (λ kb, is_u128 kb.1) entries → insert_batch histories size sort d entries = Done (d', r) → disk_step d d'
  | step_tick log : metadata_tick d = Done (d', log) → Forall (λ r, r = Ok ()) log → disk_step d d'.

Lemma write_all_durable (histories : Hist) v c bounds entries : ∀ (d : DiskCacheInner F) k d' r,
  durable v c bounds d → Forall (λ kb, is_u128 kb.1) entries → write_all histories size d entries k = Done (d', r) → durable v c bounds d'.
Proof.
  induction entries as [|[key bytes] entries IH]; intros d k d' r Hd Hk Hrun; cbn [write_all] in Hrun.
  - destruct (flush histories size d) as [[d1 r1]|] eqn:Hf; [|done]. injection Hrun as <- _. unfold flush in Hf. by eapply flush_from_durable.
  - apply Forall_cons in Hk as [Hkey Hk]. destruct (write histories size d key bytes) as [[d1 r1]|] eqn:Hw; [|done]. cbn [mbind outcome_bind] in Hrun.
    assert (Hd1 := write_durable histories size v c bounds d key bytes d1 r1 Hd Hkey Hw). destruct r1 as [n|e]; [by eapply IH|by injection Hrun as <- _].
Qed.

Lemma disk_step_durable v c bounds d d' : disk_step d d' → durable v c bounds d → durable v c bounds d'.
Proof.
  intros [histories op m m' r Hop Hrun|histories sort entries r Hsort Hk Hrun|log Hrun Hlog] Hd.
  - destruct op as [key bytes| | |key next permit]; cbn [run_op] in Hrun.
    + destruct (write histories size d key bytes) as [[d1 r1]|] eqn:Hw; [|done]. injection Hrun as <- _ _. by eapply write_durable.
    + destruct (flush histories size d) as [[d1 r1]|] eqn:Hf; [|done]. injection Hrun as <- _ _. unfold flush in Hf. by eapply flush_from_durable.
    + injection Hrun as <- _ _. by apply discard_durable.
    + destruct (get_with_fallthrough d m key next permit) as [[[d1 m1] r1]|] eqn:Hg; [|done]. injection Hrun as <- _ _. by eapply get_durable.
  - eapply write_all_durable; [done| |exact Hrun]. by rewrite (proj1 (Hsort entries)).
  - eapply (rounds_durable v c bounds (length (shards d)) 0 d); [done|done|lia|exact Hrun|done].
Qed.

Lemma disk_steps_durable v c bounds d d' : rtc disk_step d d' → durable v c bounds d → durable v c bounds d'.
Proof. induction 1 as [|d1 d2 d3 Hst _ IH]; [done|]. intros Hd. by apply IH, (disk_step_durable _ _ _ d1). Qed.
End steps.

(** ** Files without faults *)

(** Files in a [quiet] state: operations inside the capacity succeed and leave the
    file in such a state. *)
Class FaultlessFile (F : Type) `{StorageFile F} (quiet : F → Prop) : Prop := mkFaultlessFile {
  read_succeeds : ∀ f offset n f' r, quiet f → 0 ≤ offset → read_at f offset n = Done (f', r) → offset + Z.of_nat n ≤ capacity f →
    r = Ok (disk_read (contents f) offset n) ∧ quiet f';
  write_succeeds : ∀ f offset len bytes f' r, quiet f → aligned offset → aligned len → Z.of_nat (length bytes) ≤ len →
    write_padded f offset len bytes = Done (f', r) → offset + len ≤ capacity f → r = Ok () ∧ quiet f';
  sync_succeeds : ∀ f, quiet f → (sync_all f).2 = Ok () ∧ quiet (sync_all f).1
}.

Section faultless.
Context `{HasherOk} `{StorageFileOk F} (quiet : F → Prop) `{!FaultlessFile F quiet}.

Lemma write_at_succeeds f offset bytes f' r :
  quiet f → write_at f offset bytes = Done (f', r) → offset + Z.of_nat (length bytes) ≤ capacity f → r = Ok () ∧ quiet f'.
Proof.
  intros Hq Hrun. unfold write_at in Hrun. destruct (is_multiple_of offset _) eqn:Ho; [|done]. destruct (is_multiple_of (Z.of_nat _) _) eqn:Hl; [|done].
  cbn [assert_that mbind outcome_bind] in Hrun. apply is_multiple_of_spec in Ho, Hl; [|done..]. by apply (write_succeeds _ _ _ _ _ _ Hq Ho Hl (Z.le_refl _) Hrun).
Qed.

Lemma faultless_reliable : reliable quiet.
Proof.
  intros f a n Hq Ha Hn. destruct (read_at_ok f a n Ha) as (f' & r & Hrun & Hcap & Hcont & _).
  destruct (read_succeeds f a n f' r Hq Ha Hrun Hn) as [-> Hq']. by exists f'.
Qed.

(** A round of a shard whose chunks are inside the file succeeds. *)
Lemma perform_writes_succeeds hi items : ∀ (f : F) m f' m' r,
  chunks_ok (chunks m) → Forall (item_ok (chunks m)) items →
  Forall (λ c, range_start (chunk_numbers (reserved_chunk c)) < hi) (chunks m) → hi * CHUNK_BYTES ≤ capacity f →
  quiet f → perform_writes f m (encode_item (chunks m) <$> items) = Done (f', m', r) → r = Ok () ∧ quiet f'.
Proof.
  induction items as [|item items IH]; intros f m f' m' r Hcs Hitems Hhi Hcap Hq Hrun; [by injection Hrun as <- _ <-|].
  apply Forall_cons in Hitems as [Hitem Hitems]. cbn [fmap list_fmap perform_writes] in Hrun.
  destruct (write_item f (chunks m) item Hcs Hitem) as (f1 & r1 & Hw & Hcap1 & _).
  assert (r1 = Ok () ∧ quiet f1) as [-> Hq1].
  { eapply write_at_succeeds; [exact Hq|exact Hw|]. destruct (item_bounds _ _ Hitem) as [Hpos Hfc]. destruct item as [[j first] count]. cbn in Hpos, Hfc.
    destruct Hitem as (c & Hj & _). cbn in Hj. unfold encode_item. rewrite Hj. cbn [fst snd]. destruct Hcs as (Hcs & _). rewrite Forall_lookup in Hcs, Hhi. specialize (Hhi _ _ Hj).
    rewrite (length_item_bytes c first count (Hcs _ _ Hj) Hfc), page_address_lower. unfold last_page in Hfc. change (Z.to_nat ENTRY_METADATA_PAGES_PER_CHUNK) with 255%nat in Hfc.
    unfold CHUNK_BYTES in *. lia. }
  rewrite Hw in Hrun. cbn [mbind outcome_bind] in Hrun.
  rewrite mark_chunk_written_eq in Hrun by done. cbn [mbind outcome_bind] in Hrun.
  destruct (written_ok item (chunks m)) as (Hsame & Hok2 & Hitem2 & Henc & _). set (m1 := mkMetadataChunks _ _ _ _) in Hrun.
  rewrite <-(list_fmap_ext (encode_item (chunks m1)) (encode_item (chunks m)) items (λ i x _, Henc x)) in Hrun.
  eapply (IH f1 m1); [exact (Hok2 Hcs)|eapply Forall_impl; [exact Hitems|auto]| |by rewrite Hcap1|exact Hq1|exact Hrun].
  eapply same_chunks_Forall; [|exact Hsame|exact Hhi]. done.
Qed.

Lemma round_succeeds lo hi (f : F) sh f' m r :
  shard_ok lo hi sh [] idle (0, 0) → hi * CHUNK_BYTES ≤ capacity f →
  quiet f → write_dirty_metadata_pages f (metadata_pages sh) = Done (f', m, r) → r = Ok () ∧ quiet f'.
Proof.
  intros Hok Hcap Hq Hrun. destruct (shard_chunks_ok _ _ _ _ Hok) as [Hcs Hlen]. assert (Hm := so_meta _ _ _ _ _ _ Hok).
  unfold write_dirty_metadata_pages in Hrun. destruct (plan_writes_eq _ Hm Hlen) as (d & Hall & Hplan). rewrite Hplan in Hrun. cbn [mbind outcome_bind] in Hrun.
  eapply (perform_writes_succeeds hi); [|..|exact Hcap|exact Hq|exact Hrun]; cbn [chunks]; [done| |].
  - apply Forall_forall. intros item. apply item_of_ok. by apply Forall_reverse, Hall.
  - apply Forall_forall. intros c Hc. destruct (metadata_chunk_free lo hi sh (range_start (chunk_numbers (reserved_chunk c)) * CHUNK_BYTES) Hok) as [Hin _].
    + exists c. split; [done|]. by apply Z.div_mul.
    + rewrite Z.div_mul in Hin by done. lia.
Qed.

(** So does a tick. *)
Lemma rounds_succeed v cap bounds n : ∀ i d d' log,
  durable v cap bounds d → (∀ j b, bounds !! j = Some b → b.2 * CHUNK_BYTES ≤ cap) → (i + n = length (shards d))%nat →
  quiet (file d) → write_metadata_from n i d = Done (d', log) → Forall (λ r, r = Ok ()) log.
Proof.
  induction n as [|n IH]; intros i d d' log Hd Hb Hi Hq Hrun; cbn [write_metadata_from] in Hrun; [injection Hrun as _ <-; constructor|].
  destruct (write_shard_metadata d i) as [[d1 r]|] eqn:Hr; [|done]. cbn [mbind outcome_bind] in Hrun.
  destruct (write_metadata_from n (S i) d1) as [[d2 log1]|] eqn:Hrest; [|done]. injection Hrun as _ <-.
  assert (r = Ok () ∧ quiet (file d1)) as [-> Hq1].
  { unfold write_shard_metadata in Hr. destruct (shards d !! i) as [[sh b]|] eqn:Hsh; [|done]. cbn [unwrap mbind outcome_bind] in Hr.
    destruct (write_dirty_metadata_pages _ _) as [[[f m] r1]|] eqn:Hw; [|done]. injection Hr as <- <-. cbn [file].
    destruct (shard_state bounds d i _ (du_ok _ _ _ _ Hd) Hsh) as (bi & Hbi & [Hok _ _ _]). eapply round_succeeds; [exact Hok| |exact Hq|exact Hw].
    rewrite (du_capacity _ _ _ _ Hd). by eapply Hb. }
  destruct (round_durable _ _ _ _ _ _ Hd Hr) as [Hd1 (x' & Hsh & _)]. constructor; [done|]. eapply (IH (S i) d1); [done|done| |exact Hq1|exact Hrest].
  rewrite Hsh, length_insert. lia.
Qed.

(** Opening a file of another format succeeds. *)
Lemma clear_chains_succeeds n : ∀ (f : F) num_shards i f' r,
  CHUNK_BYTES ≤ capacity f → 0 < num_shards → 0 ≤ i → (∀ j, i ≤ j < i + Z.of_nat n → shard_start (capacity f) num_shards j + CHUNK_BYTES ≤ capacity f) →
  quiet f → clear_chains n f num_shards i = Done (f', r) → r = Ok () ∧ quiet f'.
Proof.
  induction n as [|n IH]; intros f k i f' r Hcap Hk Hi Hin Hq Hrun; cbn [clear_chains] in Hrun; [by injection Hrun as <- <-|].
  change (range_start (shard_disk_range (capacity f) k i)) with (shard_start (capacity f) k i) in Hrun.
  destruct (clear_chunk f (shard_start (capacity f) k i) (shard_start_after_header _ _ _ Hcap Hk Hi) (shard_start_aligned _ _ _)) as (f1 & r1 & Hw & Hcap1 & _).
  assert (Hr1 : r1 = Ok () ∧ quiet f1). { apply (write_at_succeeds _ _ _ _ _ Hq Hw). rewrite length_zeros, Z2Nat.id by done. apply Hin. lia. }
  destruct Hr1 as [-> Hq1]. rewrite Hw in Hrun. cbn [mbind outcome_bind] in Hrun.
  eapply (IH f1); [by rewrite Hcap1|exact Hk| | |exact Hq1|exact Hrun]; [lia|]. intros j Hj. rewrite Hcap1. apply Hin. lia.
Qed.

Lemma clear_incompatible_succeeds (f : F) v n :
  quiet f → CHUNK_BYTES ≤ capacity f < 2 ^ 64 → is_u64 v → (0 < n)%nat →
  (∀ j, 0 ≤ j < Z.of_nat n → shard_start (capacity f) (Z.of_nat n) j + CHUNK_BYTES ≤ capacity f) →
  ∃ f', clear_incompatible_metadata f v n = Done (f', Ok ()).
Proof.
  intros Hq [Hcap H64] Hv Hn Hin. unfold clear_incompatible_metadata.
  destruct (read_at_ok f 0 (Z.to_nat HEADER_BYTES) ltac:(lia)) as (f0 & r0 & Hread & Hcap0 & _).
  destruct (read_succeeds f 0 (Z.to_nat HEADER_BYTES) f0 r0 Hq ltac:(lia) Hread) as [-> Hq0]; [rewrite Z2Nat.id by done; unfold CHUNK_BYTES, HEADER_BYTES in *; lia|]. rewrite Hread. cbn [mbind outcome_bind].
  destruct (header_matches _ _ _); [by eexists|].
  destruct (clear_chains_spec n f0 (Z.of_nat n) 0 ltac:(by rewrite Hcap0) ltac:(lia) ltac:(lia)) as (f1 & r1 & Hrun1 & Hcap1 & _).
  assert (r1 = Ok () ∧ quiet f1) as [-> Hq1]. { eapply clear_chains_succeeds; [| | | |exact Hq0|exact Hrun1]; rewrite ?Hcap0; [lia|lia|lia|]. intros j Hj. apply Hin. lia. }
  rewrite Hrun1. cbn [mbind outcome_bind]. destruct (sync_succeeds f1 Hq1) as [Hs Hq2]. destruct (sync_all_ok f1) as [Hcap2 _]. destruct (sync_all f1) as [f2 r2]. cbn in Hs, Hq2, Hcap2. subst r2.
  destruct (write_header f2 v) as (f3 & r3 & Hrun3 & Hcap3 & _).
  assert (r3 = Ok () ∧ quiet f3) as [-> Hq3]. { apply (write_at_succeeds _ _ _ _ _ Hq2 Hrun3). rewrite length_new_header, Hcap2, Hcap1, Hcap0. unfold CHUNK_BYTES in *. lia. }
  rewrite Hrun3. cbn [mbind outcome_bind]. destruct (sync_succeeds f3 Hq3) as [Hs _]. destruct (sync_all f3) as [f4 r4]. cbn in Hs. subst r4. by eexists.
Qed.

Lemma open_succeeds (open_data_file : Z → outcome (result DataFileError F)) capacity0 payload_version size allocs f :
  let c := whole_chunks capacity0 in
  2 * CHUNK_BYTES ≤ capacity0 → capacity0 < 2 ^ 57 → is_u64 payload_version → (0 < size)%nat → Forall (λ b, b = true) allocs →
  open_data_file c = Done (Ok f) → quiet f → capacity f = c → header_matches (disk_header (contents f)) payload_version c = false →
  ∃ d, open_disk_cache open_data_file capacity0 payload_version size allocs = Done (Ok d).
Proof.
  intros c Hcap H57 Hv Hsize Hallocs Hf Hq Hfc Hm. assert (Hc : 2 * CHUNK_BYTES ≤ c ≤ capacity0) by exact (rounded_capacity capacity0 Hcap).
  destruct (file_bounds_spec c ltac:(lia) ltac:(lia)) as (Hbl & Hn0 & Hb & _). set (n := num_shards_for c) in *.
  assert (Hstart : ∀ j, shard_start c (Z.of_nat n) (Z.of_nat j) = (shard_bounds c n j).1 * CHUNK_BYTES) by done.
  assert (Hbj : ∀ j, (j < n)%nat → file_bounds c !! j = Some (shard_bounds c n j)).
  { intros j Hj. unfold file_bounds. rewrite list_lookup_fmap, lookup_seq_lt by done. done. }
  unfold open_disk_cache. rewrite bool_decide_eq_true_2 by done. cbn [assert_that mbind outcome_bind].
  rewrite (proj2 (Z.ltb_ge _ _)) by lia. rewrite (proj2 (Z.ltb_ge _ _)) by (unfold i64_max; lia). cbn [orb].
  change (capacity0 / CHUNK_BYTES * CHUNK_BYTES) with c. rewrite Hf. cbn [mbind outcome_bind]. fold n.
  destruct (clear_incompatible_succeeds f payload_version n Hq) as (f1 & Hclear); [unfold CHUNK_BYTES in *; lia|done|lia| |].
  { intros j Hj. rewrite Hfc. replace j with (Z.of_nat (Z.to_nat j)) by lia. rewrite Hstart.
    destruct (Hb _ _ (Hbj (Z.to_nat j) ltac:(lia))) as (_ & _ & _ & Hlt & _ & _ & Hend). cbn [fst snd] in Hend. unfold CHUNK_BYTES in *. lia. }
  destruct (clear_incompatible_spec f payload_version n) as (f1' & r & Hclear' & Hcap1 & _ & _ & Hok); [unfold CHUNK_BYTES in *; lia|done|lia|].
  rewrite Hclear in Hclear'. injection Hclear' as <- <-. destruct (Hok eq_refl) as [_ Hz]. rewrite Hfc in Hz. specialize (Hz Hm).
  rewrite Hclear. cbn [mbind outcome_bind]. destruct (new_shards_total n 0 c (Z.of_nat n) allocs Hallocs) as (shs & Hnew). rewrite Hnew, (new_shards_spec _ _ _ _ _ _ Hnew).
  destruct (recover_shards_cleared c n n 0 f1) as (f2 & Hrec & _).
  { intros j Hj. destruct (Hb j _ (Hbj j ltac:(lia))) as (_ & _ & ? & ? & ? & ? & _). split_and!; try done.
    assert (Hzj := Hz (Z.of_nat j) ltac:(lia)). rewrite Hcap1, Hfc in Hzj. exact Hzj. }
  rewrite Hrec. by eexists.
Qed.
End faultless.

(** The file in memory without scripted faults. *)
Record PlainFile := mkPlainFile { plain_capacity : Z; plain_contents : disk }.
Definition ram_of (f : PlainFile) : RamFile := mkRamFile (plain_capacity f) (plain_contents f) [].
Definition plain_of (f : RamFile) : PlainFile := mkPlainFile (ram_capacity f) (ram_contents f).

Global Instance plain_file : StorageFile PlainFile := {|
  capacity := plain_capacity;
  contents := plain_contents;
  read_at f offset n := '(f, r) ← read_at (ram_of f) offset n; Done (plain_of f, r);
  write_padded f offset len bytes := '(f, r) ← write_padded (ram_of f) offset len bytes; Done (plain_of f, r);
  sync_all f := (f, Ok ())
|}.

Global Instance plain_file_ok : StorageFileOk PlainFile.
Proof.
  split; [| |done].
  - intros f offset n Hoff. destruct (read_at_ok (ram_of f) offset n Hoff) as (f' & r & Hrun & Hrest).
    exists (plain_of f'), r. split; [|exact Hrest]. cbn [read_at plain_file]. by rewrite Hrun.
  - intros f offset len bytes Hoff Ha Hal Hlen. destruct (write_padded_ok (ram_of f) offset len bytes Hoff Ha Hal Hlen) as (f' & r & Hrun & Hrest).
    exists (plain_of f'), r. split; [|exact Hrest]. cbn [write_padded plain_file]. by rewrite Hrun.
Qed.

Global Instance plain_file_faultless : FaultlessFile PlainFile (λ _, True).
Proof.
  split; [| |done].
  - intros [c d] offset n f' r _ _ Hrun Hn. cbn in Hrun, Hn. unfold ram_check in Hrun. cbn in Hrun. rewrite (proj2 (Z.leb_le _ _)) in Hrun by done. by injection Hrun as _ <-.
  - intros [c d] offset len bytes f' r _ _ _ _ Hrun Hn. cbn in Hrun, Hn. unfold ram_check in Hrun. cbn in Hrun. rewrite (proj2 (Z.leb_le _ _)) in Hrun by done. by injection Hrun as _ <-.
Qed.

Global Instance plain_file_reader : PayloadReader PlainFile := λ f a n, '(f, r) ← read_payload (ram_of f) a n; Done (plain_of f, r).
Global Instance plain_file_reader_ok : PayloadReaderOk PlainFile.
Proof.
  intros f a n Ha. destruct (read_payload_ok (ram_of f) a n Ha) as (f' & r & Hrun & Hrest).
  exists (plain_of f'), r. split; [|exact Hrest]. unfold read_payload, plain_file_reader. by rewrite Hrun.
Qed.

(** Two objects written to a new file of nine chunks, and a metadata tick. *)
Definition sample_open (contents : disk) (c : Z) : outcome (result DataFileError PlainFile) := Done (Ok (mkPlainFile c contents)).
Definition restart_entries : list (Z * list byte) := [(7, [Byte.x01; Byte.x02]); (9, [Byte.x03])].

Lemma sample_opened :
  let _ := sum_hasher in
  ∃ d0, open_disk_cache (sample_open (λ _, Byte.x00)) (9 * CHUNK_BYTES) 7 64 [] = Done (Ok d0).
Proof.
  intros hash. assert (Hh : @HasherOk hash) by apply sum_hasher_ok.
  apply (open_succeeds (λ _, True) (sample_open (λ _, Byte.x00)) (9 * CHUNK_BYTES) 7 64 [] (mkPlainFile (whole_chunks (9 * CHUNK_BYTES)) (λ _, Byte.x00)));
    [done|done|done|lia|constructor|done|done|done|apply zero_header_mismatch].
Qed.

Lemma sample_history :
  let _ := sum_hasher in let _ := sample_scorer in
  ∀ d0, open_disk_cache (sample_open (λ _, Byte.x00)) (9 * CHUNK_BYTES) 7 64 [] = Done (Ok d0) →
  ∃ d r, durable 7 (whole_chunks (9 * CHUNK_BYTES)) (file_bounds (whole_chunks (9 * CHUNK_BYTES))) d0 ∧ insert_batch () 64 (merge_sort shorter) d0 restart_entries = Done (d, r) ∧ durable 7 (whole_chunks (9 * CHUNK_BYTES)) (file_bounds (whole_chunks (9 * CHUNK_BYTES))) d.
Proof.
  intros hash scorer d0 Hopen. assert (Hh : @HasherOk hash) by apply sum_hasher_ok.
  destruct (fresh_durable (sample_open (λ _, Byte.x00)) (9 * CHUNK_BYTES) 7 64 [] d0 (mkPlainFile (whole_chunks (9 * CHUNK_BYTES)) (λ _, Byte.x00)))
    as [Hd0 _]; [unfold CHUNK_BYTES; lia|unfold CHUNK_BYTES; lia|unfold is_u64; lia|reflexivity|reflexivity|apply zero_header_mismatch|exact Hopen|].
  assert (Hk : Forall (λ kb : Z * list byte, is_u128 kb.1) (merge_sort shorter restart_entries)) by (rewrite merge_sort_Permutation; by repeat constructor).
  destruct (write_all_ok () 64 (file_bounds (whole_chunks (9 * CHUNK_BYTES))) (merge_sort shorter restart_entries) d0 0 (du_ok _ _ _ _ Hd0)) as (d & r & ? & ? & Hrun & _); [|exact Hk|].
  { rewrite (durable_length _ _ _ _ Hd0). apply (du_bounds _ _ _ _ Hd0). }
  exists d, r. split_and!; [done|exact Hrun|]. by eapply (write_all_durable (Hist := unit)).
Qed.

(** ** Properties *)

(** C6: the disk knows the cache as long as metadata writes succeed.  Take a cache of at
    least 2 MiB and less than 2^57 bytes, opened on a new file or on one of another
    format, payload version or capacity.  After any sequence of writes, batches,
    flushes, discards, lookups and metadata ticks in which no metadata write failed
    (payload writes and reads may), the header matches, and every shard has all metadata
    on disk that is not marked for writing, with its chain starting at the shard's first
    chunk and only entries recovery accepts. *)
Theorem opened_cache_durable `{HasherOk} `{StorageFileOk F} `{!PayloadReader F} `{!PayloadReaderOk F} `{RetentionScorer Hist}
    (open_data_file : Z → outcome (result DataFileError F)) capacity0 payload_version size allocs d0 d f :
  let c := whole_chunks capacity0 in
  2 * CHUNK_BYTES ≤ capacity0 → capacity0 < 2 ^ 57 → is_u64 payload_version →
  open_data_file c = Done (Ok f) → capacity f = c → header_matches (disk_header (contents f)) payload_version c = false →
  open_disk_cache open_data_file capacity0 payload_version size allocs = Done (Ok d0) →
  rtc (disk_step (Hist := Hist) size) d0 d → durable payload_version c (file_bounds c) d.
Proof.
  intros c Hcap H57 Hv Hf Hfc Hm Hopen Hsteps. eapply disk_steps_durable; [exact Hsteps|].
  exact (proj1 (fresh_durable open_data_file capacity0 payload_version size allocs d0 f Hcap H57 Hv Hf Hfc Hm Hopen)).
Qed.

Lemma opened_cache_durable_witness :
  let _ := sum_hasher in let _ := sample_scorer in
  ∃ d0 d r, open_disk_cache (sample_open (λ _, Byte.x00)) (9 * CHUNK_BYTES) 7 64 [] = Done (Ok d0)
    ∧ insert_batch () 64 (merge_sort shorter) d0 restart_entries = Done (d, r) ∧ durable 7 (whole_chunks (9 * CHUNK_BYTES)) (file_bounds (whole_chunks (9 * CHUNK_BYTES))) d.
Proof.
  intros hash scorer. assert (Hh : @HasherOk hash) by apply sum_hasher_ok. destruct sample_opened as (d0 & Hopen). fold hash in Hopen.
  destruct (sample_history d0 Hopen) as (d & r & _ & Hrun & _). exists d0, d, r. split_and!; [exact Hopen|exact Hrun|].
  apply (opened_cache_durable (Hist := unit) (sample_open (λ _, Byte.x00)) (9 * CHUNK_BYTES) 7 64 [] d0 d (mkPlainFile (whole_chunks (9 * CHUNK_BYTES)) (λ _, Byte.x00)));
    [unfold CHUNK_BYTES; lia|unfold CHUNK_BYTES; lia|unfold is_u64; lia|reflexivity|reflexivity|apply zero_header_mismatch|exact Hopen|].
  apply rtc_once. eapply (step_batch 64 _ _ ()); [apply merge_sort_by_length| |exact Hrun]. by repeat constructor.
Defined.

(** C5: a restart forgets only what was buffered in memory, when no metadata write was
    lost.  Take a durable cache of less than 2^57 bytes, as newly opened and restarted
    ones are, use it in any way in which no metadata write fails (payload writes and
    reads may), and end with a metadata tick whose writes succeed.  Opening the file
    again, with reads and buffer allocations that succeed, always gives a cache: it
    shows exactly the objects of the old one except those still in a write buffer, so
    all of them when the buffers had been flushed, and it is durable again. *)
Theorem restart_restores `{HasherOk} `{StorageFileOk F} `{!PayloadReader F} `{!PayloadReaderOk F} `{RetentionScorer Hist}
    (R : F → Prop) (open_data_file : Z → outcome (result DataFileError F)) capacity0 payload_version size allocs d0 d d1 log f :
  let c := whole_chunks capacity0 in
  2 * CHUNK_BYTES ≤ capacity0 → capacity0 < 2 ^ 57 → (0 < size)%nat → Forall (λ b, b = true) allocs →
  durable payload_version c (file_bounds c) d0 → rtc (disk_step (Hist := Hist) size) d0 d →
  metadata_tick d = Done (d1, log) → Forall (λ r, r = Ok ()) log →
  reliable R → open_data_file c = Done (Ok f) → R f → capacity f = c → contents f = contents (file d1) →
  ∃ d2, open_disk_cache open_data_file capacity0 payload_version size allocs = Done (Ok d2)
    ∧ durable payload_version c (file_bounds c) d2
    ∧ (∀ key, view d2 key = view (discard_pending d1) key ∧ view d1 key = view d key)
    ∧ ((∀ x, x ∈ shards d → buffered x.2 = []) → ∀ key, view d2 key = view d key).
Proof.
  intros c Hcap H57 Hsize Hallocs Hd0 Hsteps Htick Hlog Hrel Hf HR Hfc Hcont.
  assert (Hd := disk_steps_durable size _ _ _ _ _ Hsteps Hd0).
  destruct (rounds_durable payload_version c (file_bounds c) (length (shards d)) 0 d d1 log Hd eq_refl ltac:(lia) Htick Hlog) as [Hd1 Hset].
  destruct (metadata_tick_ok (file_bounds c) d (du_ok _ _ _ _ Hd)) as (d1' & log' & Htick' & [_ Hv _ Hbuf _]). rewrite Htick in Htick'. injection Htick' as <- <-.
  destruct (reopen_durable R open_data_file capacity0 payload_version size allocs d1 f Hcap H57 Hsize Hallocs Hd1 Hset Hrel Hf HR Hfc Hcont) as (d2 & Hopen & Hd2 & Hview).
  exists d2. split_and!; [done|done|by intros key|]. intros Hempty key. rewrite Hview, <-Hv. unfold view. cbn [discard_pending shards file]. rewrite length_fmap, list_lookup_fmap.
  destruct (shards d1 !! shard_index_for_key (length (shards d1)) key) as [x|] eqn:Hx; [|done]. cbn.
  specialize (Hbuf (shard_index_for_key (length (shards d1)) key)). rewrite Hx in Hbuf. cbn in Hbuf. symmetry in Hbuf. apply fmap_Some in Hbuf as (x0 & Hx0 & Heq).
  unfold buffer_get, buffer_entry. cbn [buffered]. rewrite Heq, (Hempty x0) by (by eapply list_elem_of_lookup_2). done.
Qed.

Lemma restart_restores_witness :
  let _ := sum_hasher in let _ := sample_scorer in
  ∃ d0 d r d1 log d2, open_disk_cache (sample_open (λ _, Byte.x00)) (9 * CHUNK_BYTES) 7 64 [] = Done (Ok d0)
    ∧ insert_batch () 64 (merge_sort shorter) d0 restart_entries = Done (d, r) ∧ metadata_tick d = Done (d1, log)
    ∧ open_disk_cache (sample_open (contents (file d1))) (9 * CHUNK_BYTES) 7 64 [] = Done (Ok d2)
    ∧ ∀ key, view d2 key = view (discard_pending d1) key.
Proof.
  intros hash scorer. assert (Hh : @HasherOk hash) by apply sum_hasher_ok. destruct sample_opened as (d0 & Hopen). fold hash in Hopen.
  destruct (sample_history d0 Hopen) as (d & r & Hd0 & Hrun & Hd). fold hash scorer in Hd0, Hrun, Hd.
  destruct (metadata_tick_ok (file_bounds (whole_chunks (9 * CHUNK_BYTES))) d (du_ok _ _ _ _ Hd)) as (d1 & log & Htick & _).
  assert (Hlog : Forall (λ r, r = Ok ()) log).
  { eapply (rounds_succeed (λ _, True) 7 (whole_chunks (9 * CHUNK_BYTES)) (file_bounds (whole_chunks (9 * CHUNK_BYTES))) (length (shards d)) 0 d); [exact Hd| |done|done|exact Htick].
    intros j b Hj. by destruct (file_bounds_spec (whole_chunks (9 * CHUNK_BYTES)) ltac:(done) ltac:(done)) as (_ & _ & (? & ? & ? & ? & ? & ? & ?)%(λ H, H j b Hj) & _). }
  destruct (rounds_durable 7 (whole_chunks (9 * CHUNK_BYTES)) (file_bounds (whole_chunks (9 * CHUNK_BYTES))) (length (shards d)) 0 d d1 log Hd eq_refl ltac:(lia) Htick Hlog) as [Hd1 _].
  destruct (restart_restores (Hist := unit) (λ _, True) (sample_open (contents (file d1))) (9 * CHUNK_BYTES) 7 64 [] d0 d d1 log (mkPlainFile (whole_chunks (9 * CHUNK_BYTES)) (contents (file d1))))
    as (d2 & Hopen2 & _ & Hview & _); [unfold CHUNK_BYTES; lia|unfold CHUNK_BYTES; lia|lia|constructor|exact Hd0| |exact Htick|exact Hlog|exact (faultless_reliable (λ _, True))|reflexivity|exact I|reflexivity|reflexivity|].
  { apply rtc_once. eapply (step_batch 64 _ _ ()); [apply merge_sort_by_length| |exact Hrun]. by repeat constructor. }
  exists d0, d, r, d1, log, d2. split_and!; [exact Hopen|exact Hrun|exact Htick|exact Hopen2|]. intros key. apply Hview.
Defined.
