(* ===== verification/Cache.v ===== *)
(** * The cache front end ([feuer/src/cache.rs], [feuer/src/metrics.rs])

    A request records demand, looks in memory, then on disk, and otherwise calls
    the source; disk hits and downloads are put into memory, and downloads are
    queued to disk.  The model runs one request at a time, between the steps of
    the background writer; sharing of concurrent fetches is in PendingFetches.v.
    Object keys are the 128-bit hashes of their names. *)

From stdpp Require Import strings.
From S2P Require Import Prelude Codec Errors Disk BTree Allocation PageFormat Metadata Float64 Retention.
From S2P Require Import Historian EntryIndex Shard Writer DiskCache MetadataTick Admission Uring File BufferPool MemoryStore Lookup.
From S2P Require Import WriteQueue Trace.

(** [BytesAndMemoryCharge] and its conversions from the callback's value. *)
Record BytesAndMemoryCharge := mkBytesAndMemoryCharge { charged_bytes : list byte; memory_charge : Z }.
Inductive CallbackValue :=
  | FromBytes (bytes : list byte)
  | FromBuffer (bytes : list byte) (capacity : Z).
Definition into_charge (v : CallbackValue) : BytesAndMemoryCharge :=
  match v with
  | FromBytes bytes => mkBytesAndMemoryCharge bytes (Z.of_nat (length bytes))
  | FromBuffer bytes capacity => mkBytesAndMemoryCharge bytes capacity
  end.

(** [LookupMetrics] of the front end: outcomes, served bytes per source, recorded
    durations of disk hits and callbacks, and the two disk-write counters. *)
Record FrontMetrics := mkFrontMetrics {
  front_outcomes : list Z;
  served_bytes : list Z;
  success_durations : list Z;
  disk_write_already_covered : Z;
  disk_write_redundant : Z
}.
Definition new_front_metrics : FrontMetrics := mkFrontMetrics (replicate 5 0) (replicate 3 0) (replicate 2 0) 0 0.

(** [LookupMetrics::record]; a missing counter is skipped, except the outcome's. *)
Definition front_record (m : FrontMetrics) (o : LookupOutcome) (bytes : Z) : outcome FrontMetrics :=
  let i := Z.to_nat (outcome_as_u8 o) in
  n ← unwrap (front_outcomes m !! i);
  let durations := match i with O => success_durations m | S j => alter (Z.add 1) j (success_durations m) end in
  Done (mkFrontMetrics (<[i := n + 1]> (front_outcomes m)) (alter (Z.add bytes) i (served_bytes m)) durations
          (disk_write_already_covered m) (disk_write_redundant m)).

(** [CacheInner], with the disk tier behind its write queue, and the access trace
    of the handle.  [read_id] names the next shared read. *)
Record Cache (F : Type) := mkCache {
  memory : MemoryCache;
  access_histories : ObjectAccessHistories;
  metrics : FrontMetrics;
  disk_tier : option (WriteQueue F * LookupMetrics);
  read_id : Z;
  access_trace : option AccessTrace
}.
Arguments mkCache {F} _ _ _ _ _ _.
Arguments memory {F} _.
Arguments access_histories {F} _.
Arguments metrics {F} _.
Arguments disk_tier {F} _.
Arguments read_id {F} _.
Arguments access_trace {F} _.

Definition with_memory {F} (m : MemoryCache) (c : Cache F) : Cache F :=
  mkCache m (access_histories c) (metrics c) (disk_tier c) (read_id c) (access_trace c).
Definition with_front_metrics {F} (m : FrontMetrics) (c : Cache F) : Cache F :=
  mkCache (memory c) (access_histories c) m (disk_tier c) (read_id c) (access_trace c).
Definition with_disk {F} (d : option (WriteQueue F * LookupMetrics)) (c : Cache F) : Cache F :=
  mkCache (memory c) (access_histories c) (metrics c) d (read_id c + 1) (access_trace c).

(** [Cache::trace_request_start], and the event of an outcome; each at a time. *)
Definition trace_request_start {F} (c : Cache F) (key elapsed_ns : Z) : Cache F * option Z :=
  match access_trace c with
  | None => (c, None)
  | Some t =>
      let '(t, id) := send_request_start t key elapsed_ns in
      (mkCache (memory c) (access_histories c) (metrics c) (disk_tier c) (read_id c) (Some t), Some id)
  end.
Definition trace_outcome {F} (c : Cache F) (request_id : option Z) (key : Z) (o : LookupOutcome) (len elapsed_ns : Z) : Cache F :=
  match access_trace c, request_id with
  | Some t, Some id =>
      mkCache (memory c) (access_histories c) (metrics c) (disk_tier c) (read_id c) (Some (send_outcome t id key o len elapsed_ns))
  | _, _ => c
  end.

(** How the read admission treated a lookup: a permit, with or without asking the
    caller whether to fall through, or a fallthrough. *)
Inductive AdmissionAnswer := Permitted | Asked (fall_through : bool).
Definition granted (a : AdmissionAnswer) : bool := match a with Asked true => false | _ => true end.

Section front_end.
Context `{Hasher} `{PayloadReader F} `{FxHasher} (memory_scorer : RetentionScorer ObjectAccessHistories) (reclaim_sample_size : nat).
Context {E : Type}.

Definition insert_memory (c : Cache F) (key : Z) (bytes : list byte) (charge : Z) : outcome (Cache F * bool) :=
  '(m, inserted) ← @memory_insert _ memory_scorer (access_histories c) reclaim_sample_size fx_hash (memory c) key bytes charge;
  Done (with_memory m c, inserted).

(** [Cache::lookup] *)
Definition lookup_tiers (c : Cache F) (key : Z) (admission : AdmissionAnswer) : outcome (Cache F * LookupOutcome * option (list byte)) :=
  hit ← memory_get fx_hash (memory c) key;
  match hit with
  | Some bytes => Done (c, MemoryHit, Some bytes)
  | None =>
      match disk_tier c with
      | None => Done (c, Miss, None)
      | Some (q, m) =>
          '(d, m, r) ← get_with_fallthrough (wq_disk q) m key (read_id c) (granted admission);
          let c := with_disk (Some (mkWriteQueue d (wq_channel q) (wq_closed q) (wq_held q) (wq_metrics q), m)) c in
          match r with
          | Some (bytes, buffer_capacity) =>
              '(c, _) ← insert_memory c key bytes buffer_capacity;
              Done (c, DiskHit, Some bytes)
          | None => Done (c, Miss, None)
          end
      end
  end.

(** [Cache::fetch], whose callback answers [callback].  The caller fell through
    when it was asked and agreed. *)
Definition fetch (c : Cache F) (key : Z) (admission : AdmissionAnswer) (callback : result E CallbackValue) (now : Z)
  : outcome (Cache F * LookupOutcome * result E (list byte)) :=
  '(c, o, hit) ← lookup_tiers c key admission;
  match hit with
  | Some bytes => Done (c, o, Ok bytes)
  | None =>
      match callback with
      | Err e => Done (c, CallbackError, Err e)
      | Ok v =>
          let bytes := charged_bytes (into_charge v) in
          let charge := memory_charge (into_charge v) in
          match disk_tier c with
          | Some (q, m) =>
              covered ← contains (wq_disk q) key;
              c ← (if covered : bool then
                     let n := metrics c in
                     let c := with_front_metrics (mkFrontMetrics (front_outcomes n) (served_bytes n) (success_durations n) (disk_write_already_covered n + 1) (disk_write_redundant n)) c in
                     if granted admission then Done c else '(c, _) ← insert_memory c key bytes charge; Done c
                   else
                     '(c, inserted) ← insert_memory c key bytes charge;
                     if inserted : bool then Done (with_disk (Some (enqueue_if_space_available q key bytes now, m)) c)
                     else
                       let n := metrics c in
                       Done (with_front_metrics (mkFrontMetrics (front_outcomes n) (served_bytes n) (success_durations n) (disk_write_already_covered n) (disk_write_redundant n + 1)) c));
              Done (c, Callback, Ok bytes)
          | None =>
              '(c, _) ← insert_memory c key bytes charge;
              Done (c, Callback, Ok bytes)
          end
      end
  end.

(** What both request functions do before and after the lookup. *)
Definition begin_request (c : Cache F) (key elapsed_ns : Z) : outcome (Cache F * option Z) :=
  h ← record_request (access_histories c) key;
  Done (trace_request_start (mkCache (memory c) h (metrics c) (disk_tier c) (read_id c) (access_trace c)) key elapsed_ns).
Definition end_request (c : Cache F) (request_id : option Z) (key : Z) (o : LookupOutcome) (payload_length elapsed_ns : Z) : outcome (Cache F) :=
  m ← front_record (metrics c) o payload_length;
  Done (trace_outcome (with_front_metrics m c) request_id key o payload_length elapsed_ns).

(** [Cache::get] *)
Definition cache_get (c : Cache F) (key : Z) (times : Z * Z) : outcome (Cache F * option (list byte)) :=
  '(c, request_id) ← begin_request c key times.1;
  '(c, o, bytes) ← lookup_tiers c key Permitted;
  c ← end_request c request_id key o (match bytes with Some b => Z.of_nat (length b) | None => 0 end) times.2;
  Done (c, bytes).

(** [Cache::get_or_fetch_by_hash], for a caller that shares its fetch with nobody. *)
Definition get_or_fetch_by_hash (c : Cache F) (key : Z) (admission : AdmissionAnswer) (callback : result E CallbackValue) (times : Z * Z)
  : outcome (Cache F * result E (list byte)) :=
  '(c, request_id) ← begin_request c key times.1;
  hit ← memory_get fx_hash (memory c) key;
  '(c, o, r) ← match hit with
               | Some bytes => Done (c, MemoryHit, Ok bytes)
               | None => fetch c key admission callback times.2
               end;
  c ← end_request c request_id key o (match r with Ok b => Z.of_nat (length b) | Err _ => 0 end) times.2;
  Done (c, r).

(** [Cache::get_or_fetch_with_disk_fallthrough] and [Cache::get_or_fetch] name the
    object; [key_hash] is [ObjectKeyHash::from], XXH3-128 of the name. *)
Definition get_or_fetch_with_disk_fallthrough (key_hash : string → Z) (c : Cache F) (object_key : string) (admission : AdmissionAnswer)
    (callback : result E CallbackValue) (times : Z * Z) : outcome (Cache F * result E (list byte)) :=
  get_or_fetch_by_hash c (key_hash object_key) admission callback times.
Definition get_or_fetch (key_hash : string → Z) (c : Cache F) (object_key : string) (callback : result E CallbackValue) (times : Z * Z)
  : outcome (Cache F * result E (list byte)) :=
  get_or_fetch_with_disk_fallthrough key_hash c object_key Permitted callback times.
End front_end.

(** [Cache::allocate_buffer]; [answer] is the allocator's. *)
Definition cache_allocate_buffer {F} (c : Cache F) (len : Z) (answer : bool) : Cache F * result io_error AlignedBuffer :=
  let s := shared (memory c) in
  let '(p, b) := allocate_buffer (pool s) len answer in
  (with_memory (mkMemoryCache (memory_shards (memory c)) (mkMemoryShared p (memory_counters s))) c,
   match b with Some b => Ok b | None => Err AllocationFailed end).

(** [Cache::with_trace] *)
Definition with_trace {F} (c : Cache F) : Cache F :=
  mkCache (memory c) (access_histories c) (metrics c) (disk_tier c) (read_id c) (Some new_access_trace).

(** ** Invariant *)
Record cache_ok `{Hasher} `{StorageFile F} (bounds : list (Z * Z)) (out : list AlignedBuffer) (c : Cache F) : Prop := mkCacheOk {
  co_memory : memory_ok out (memory c) ∧ memory_shards (memory c) ≠ [];
  co_histories : history_shards (access_histories c) ≠ [];
  co_metrics : length (front_outcomes (metrics c)) = 5%nat;
  co_disk : ∀ q m, disk_tier c = Some (q, m) → write_queue_ok bounds q
}.

(** Every tier holds only the objects of [source]. *)
Record faithful `{StorageFile F} `{FxHasher} (source : Z → list byte) (c : Cache F) : Prop := mkFaithful {
  fa_memory : ∀ k v, memory_view fx_hash (memory c) k = Some v → v = source k;
  fa_disk : ∀ q m, disk_tier c = Some (q, m) →
    (∀ k v, view (wq_disk q) k = Some v → v = source k)
    ∧ ∀ p, p ∈ wq_channel q → pending_payload p = source (pending_key p)
}.

(** The callback downloads the object, into a buffer that holds it. *)
Definition callback_ok {E} (source : Z → list byte) (key : Z) (callback : result E CallbackValue) : Prop :=
  match callback with
  | Ok v => charged_bytes (into_charge v) = source key ∧ Z.of_nat (length (charged_bytes (into_charge v))) ≤ memory_charge (into_charge v)
  | Err _ => True
  end.

Lemma with_trace_ok `{Hasher} `{StorageFile F} `{FxHasher} bounds out source (c : Cache F) :
  cache_ok bounds out c → faithful source c → cache_ok bounds out (with_trace c) ∧ faithful source (with_trace c).
Proof. intros [] []. split; by constructor. Qed.

(** An allocated buffer exposes the length asked for, and nothing cached changes. *)
Lemma cache_allocate_buffer_ok `{Hasher} `{StorageFile F} `{FxHasher} bounds out source (c : Cache F) len answer c' r :
  cache_ok bounds out c → faithful source c → 0 ≤ len → cache_allocate_buffer c len answer = (c', r) →
  faithful source c' ∧ match r with
                       | Ok b => cache_ok bounds (b :: out) c' ∧ exposed_length b = len ∧ len ≤ capacity_of b
                       | Err e => cache_ok bounds out c' ∧ e = AllocationFailed ∧ answer = false
                       end.
Proof.
  intros [[[Hm1 [Hcore Hidle] Hm3 Hm4] Hne] Hh Hf Hd] [Fm Fd] Hlen. unfold cache_allocate_buffer. pose proof (allocate_spec _ _ len answer Hcore Hlen) as Hspec.
  destruct (allocate_buffer (pool (shared (memory c))) len answer) as [p [b|]]; intros [= <- <-]; (split; [by constructor|]).
  - destruct Hspec as (Hc & Hi & Hcap & Hu & He & Hl & _). split; [|done]. constructor; try done. split; [|done]. constructor; cbn; [done| |by rewrite Hu|done]. split; [done|]. rewrite Hcap, Hu. lia.
  - destruct Hspec as (Hc & Hi & Hcap & Hu & Ha). split; [|done]. constructor; try done. split; [|done]. constructor; cbn; [done| |by rewrite Hu|done]. split; [done|]. rewrite Hcap, Hu. lia.
Qed.

Section front_lemmas.
Context `{HasherOk} `{StorageFileOk F} `{!PayloadReader F} `{!PayloadReaderOk F} `{FxHasher}.
Context (memory_scorer disk_scorer : RetentionScorer ObjectAccessHistories) (size : nat) (Hsize : (0 < size)%nat).
Context (bounds : list (Z * Z)) (out : list AlignedBuffer) (source : Z → list byte).
Context {E : Type}.

(** What a lookup may change: the tiers, within the invariant. *)
Record tiers_effect (c c' : Cache F) : Prop := mkTiersEffect {
  te_ok : cache_ok bounds out c';
  te_faithful : faithful source c';
  te_outcomes : front_outcomes (metrics c') = front_outcomes (metrics c);
  te_histories : access_histories c' = access_histories c
}.

Lemma insert_memory_ok c key charge :
  cache_ok bounds out c → faithful source c → Z.of_nat (length (source key)) ≤ charge →
  ∃ m inserted, insert_memory memory_scorer size c key (source key) charge = Done (with_memory m c, inserted) ∧ tiers_effect c (with_memory m c).
Proof.
  intros [[Hm Hne] Hh Hf Hd] [Fm Fd] Hlen. unfold insert_memory.
  destruct (@memory_insert_spec _ memory_scorer (access_histories c) size fx_hash out (memory c) key (source key) charge Hm Hne Hsize Hlen)
    as (m & inserted & Hrun & Hm' & _ & Hkey & Hoth & _). rewrite Hrun. cbn [mbind outcome_bind]. exists m, inserted. split; [reflexivity|].
  constructor; [|constructor|done|done].
  - constructor; try done. split; [done|]. intros Hnil. cbn [memory with_memory] in Hnil. assert (Hk := Hkey). unfold memory_view in Hk. rewrite Hnil in Hk. done.
  - intros k v Hv. cbn [memory with_memory] in Hv. destruct (decide (k = key)) as [->|Hk].
    + rewrite Hkey in Hv. injection Hv as <-. destruct (memory_view fx_hash (memory c) key) as [v0|] eqn:Hv0; [by apply Fm|done].
    + destruct (Hoth k Hk) as [Heq|[Heq _]]; rewrite Heq in Hv; [by apply Fm|done].
  - done.
Qed.

Lemma memory_get_view c key : cache_ok bounds out c → memory_get fx_hash (memory c) key = Done (memory_view fx_hash (memory c) key).
Proof. intros [[Hm Hne] _ _ _]. by destruct (memory_remove_get_spec fx_hash out (memory c) key Hm Hne) as [? _]. Qed.

Lemma is_buffered_same (d d' : DiskCacheInner F) key :
  length (shards d') = length (shards d) → (∀ i, snd <$> shards d' !! i = snd <$> shards d !! i) → is_buffered d' key = is_buffered d key.
Proof.
  intros Hl Hs. unfold is_buffered. rewrite Hl. specialize (Hs (shard_index_for_key (length (shards d)) key)).
  destruct (shards d' !! _) as [x'|], (shards d !! _) as [x|]; cbn in Hs; try done. by injection Hs as ->.
Qed.

(** The disk tier after a lookup. *)
Lemma disk_lookup_ok q m key next permit :
  write_queue_ok bounds q → is_u128 key →
  ∃ d' o r, get_with_fallthrough (wq_disk q) m key next permit = Done (d', record_lookup m o, r)
    ∧ write_queue_ok bounds (mkWriteQueue d' (wq_channel q) (wq_closed q) (wq_held q) (wq_metrics q))
    ∧ (∀ k, view d' k = view (wq_disk q) k)
    ∧ ∀ bytes c, r = Some (bytes, c) → view (wq_disk q) key = Some bytes ∧ Z.of_nat (length bytes) ≤ c.
Proof.
  intros [[Hd Hne] Hl Hc Hh E1 E2 E3] Hk.
  destruct (get_spec bounds (wq_disk q) m key next permit (inner_ok_consistent _ _ Hd) ltac:(apply Hk) Hne) as (d' & o & r & Hrun & [_ Hok (Hlen & _ & _ & _ & Hbuf) Hv Hr]).
  destruct (Hok Hd) as [Hd' Ho]. exists d', o, r. split; [done|]. split_and!.
  - constructor; cbn [wq_disk wq_channel wq_held wq_metrics]; try done; [split; [done|lia]|].
    eapply Forall_impl; [exact Hh|]. intros g [? Hb]. split; [done|]. by rewrite (is_buffered_same (wq_disk q) d').
  - intros k. apply Hv. by right.
  - intros bytes c ->. destruct o; try (by destruct Hr). destruct Hr as (? & ? & [= <- <-] & ? & ?). done.
Qed.

Lemma lookup_tiers_ok c key admission :
  cache_ok bounds out c → faithful source c → is_u128 key →
  ∃ c' o r, lookup_tiers memory_scorer size c key admission = Done (c', o, r) ∧ tiers_effect c c'
    ∧ (r = None ∨ r = Some (source key)) ∧ metrics c' = metrics c.
Proof.
  intros Hok Hfa Hk. unfold lookup_tiers. rewrite memory_get_view by done. cbn [mbind outcome_bind].
  destruct (memory_view fx_hash (memory c) key) as [bytes|] eqn:Hv.
  { eexists c, _, _. split; [done|]. split_and!; [done|right; f_equal; by apply (fa_memory _ _ Hfa)|done]. }
  destruct (disk_tier c) as [[q m]|] eqn:Hdisk; [|eexists c, _, _; by split_and!; [..|left|]].
  destruct (disk_lookup_ok q m key (read_id c) (granted admission) (co_disk _ _ _ Hok q m Hdisk) Hk) as (d' & o & r & Hrun & Hq & Hview & Hr).
  rewrite Hrun. cbn [mbind outcome_bind]. set (c1 := with_disk _ c). destruct (fa_disk _ _ Hfa q m Hdisk) as [Hfd Hfp].
  assert (Heff : tiers_effect c c1).
  { constructor; [| |done|done].
    - destruct Hok. constructor; try done. intros q0 m0 [= <- <-]. exact Hq.
    - destruct Hfa as [Fm _]. constructor; [exact Fm|]. intros q0 m0 [= <- <-]. split; [|exact Hfp]. intros k v Hkv. apply Hfd. by rewrite <-Hview. }
  destruct r as [[bytes cap]|]; [|eexists c1, _, _; by split_and!; [..|left|]].
  destruct (Hr _ _ eq_refl) as [Hvk Hcap]. apply Hfd in Hvk as ->. destruct (insert_memory_ok c1 key cap (te_ok _ _ Heff) (te_faithful _ _ Heff) Hcap) as (m2 & ins & Hins & [G1 G2 G3 G4]).
  rewrite Hins. cbn [mbind outcome_bind]. eexists _, _, _. split; [done|]. split_and!; [|by right|done]. by constructor.
Qed.

Lemma tiers_effect_trans c1 c2 c3 : tiers_effect c1 c2 → tiers_effect c2 c3 → tiers_effect c1 c3.
Proof. intros [? ? A1 B1] [? ? A2 B2]. constructor; [done|done|by rewrite A2|by rewrite B2]. Qed.

Lemma with_front_effect c m : cache_ok bounds out c → faithful source c → front_outcomes m = front_outcomes (metrics c) → tiers_effect c (with_front_metrics m c).
Proof.
  intros [? ? Hm ?] [? ?] Hf. constructor; [constructor; try done; cbn; by rewrite Hf|by constructor|done|done].
Qed.

(** Queueing a downloaded object. *)
Lemma enqueue_effect c q m key now :
  cache_ok bounds out c → faithful source c → is_u128 key → disk_tier c = Some (q, m) →
  tiers_effect c (with_disk (Some (enqueue_if_space_available q key (source key) now, m)) c).
Proof.
  intros Hok Hfa Hk Hd. assert (Hq := write_enqueue_ok bounds q key (source key) now (co_disk _ _ _ Hok q m Hd) Hk). destruct (fa_disk _ _ Hfa q m Hd) as [Hv Hp].
  constructor; [| |done|done].
  - destruct Hok. constructor; try done. intros q0 m0 [= <- <-]. exact Hq.
  - destruct Hfa as [Fm _]. constructor; [exact Fm|]. intros q0 m0 [= <- <-]. unfold enqueue_if_space_available.
    destruct (wq_closed q); [done|]. case_bool_decide; [done|]. split; [done|]. cbn [wq_channel]. intros p [Hin|Heq]%elem_of_app; [by apply Hp|].
    by apply list_elem_of_singleton in Heq as ->.
Qed.

Lemma contains_done q key : write_queue_ok bounds q → is_u128 key → ∃ b, contains (wq_disk q) key = Done b.
Proof.
  intros Hq Hk. unfold contains. destruct (wo_disk _ _ Hq) as [_ Hne].
  destruct (lookup_lt_is_Some_2 (shards (wq_disk q)) (shard_index_for_key (length (shards (wq_disk q))) key)) as [x ->]; [by apply key_shard_lt; [apply Hk|]|]. by eexists.
Qed.

Lemma fetch_ok c key admission (callback : result E CallbackValue) now :
  cache_ok bounds out c → faithful source c → is_u128 key → callback_ok source key callback →
  ∃ c' o r, fetch memory_scorer size c key admission callback now = Done (c', o, r) ∧ tiers_effect c c'
    ∧ (r = Ok (source key) ∨ ∃ e, callback = Err e ∧ r = Err e).
Proof.
  intros Hok Hfa Hk Hcb. unfold fetch. destruct (lookup_tiers_ok c key admission Hok Hfa Hk) as (c1 & o & r & Hrun & Heff & Hr & _).
  rewrite Hrun. cbn [mbind outcome_bind]. destruct Hr as [->| ->]; [|eexists c1, _, _; by split_and!; [..|left]].
  destruct callback as [v|e]; [|eexists c1, _, _; split_and!; [done|done|right; by exists e]]. destruct Hcb as [-> Hlen]. set (charge := memory_charge _) in *.
  assert (Hins : ∀ c2, tiers_effect c c2 → ∃ m inserted, insert_memory memory_scorer size c2 key (source key) charge = Done (with_memory m c2, inserted) ∧ tiers_effect c (with_memory m c2)).
  { intros c2 H2'. destruct (insert_memory_ok c2 key charge (te_ok _ _ H2') (te_faithful _ _ H2') Hlen) as (m & ins & Hi & He). exists m, ins. split; [done|]. by eapply tiers_effect_trans. }
  destruct (disk_tier c1) as [[q m]|] eqn:Hdisk.
  2:{ destruct (Hins c1 Heff) as (m & ins & Hi & He). rewrite Hi. cbn [mbind outcome_bind]. eexists _, _, _. split_and!; [done|done|by left]. }
  destruct (contains_done q key (co_disk _ _ _ (te_ok _ _ Heff) q m Hdisk) Hk) as [covered Hc]. rewrite Hc. cbn [mbind outcome_bind]. destruct covered.
  - set (c2 := with_front_metrics _ c1). assert (H2' : tiers_effect c c2) by (eapply tiers_effect_trans; [exact Heff|apply with_front_effect; [apply Heff|apply Heff|done]]).
    destruct (granted admission); cbn [mbind outcome_bind]; [eexists _, _, _; split_and!; [done|done|by left]|].
    destruct (Hins c2 H2') as (m2 & ins & Hi & He). rewrite Hi. cbn [mbind outcome_bind]. eexists _, _, _. split_and!; [done|done|by left].
  - destruct (Hins c1 Heff) as (m2 & ins & Hi & He). rewrite Hi. cbn [mbind outcome_bind]. destruct ins; cbn [mbind outcome_bind].
    + eexists _, _, _. split_and!; [done| |by left]. eapply tiers_effect_trans; [exact He|]. eapply (enqueue_effect _ q m); [apply He|apply He|done|done].
    + eexists _, _, _. split_and!; [done| |by left]. eapply tiers_effect_trans; [exact He|]. apply with_front_effect; [apply He|apply He|done].
Qed.

End front_lemmas.

(** Bookkeeping around a lookup. *)
Section bookkeeping.
Context `{Hasher} `{StorageFile F} `{FxHasher} (bounds : list (Z * Z)) (out : list AlignedBuffer) (source : Z → list byte).

Lemma record_request_done h key : history_shards h ≠ [] →
  ∃ h', record_request h key = Done h' ∧ history_shards h' ≠ [] ∧ request_count h' = request_count h ⊕ 1.
Proof.
  intros Hne. unfold record_request. assert (Hlen : (0 < length (history_shards h))%nat) by (destruct (history_shards h); [done|cbn; lia]).
  destruct (lookup_lt_is_Some_2 (history_shards h) (history_shard_index h key)) as [m ->].
  { unfold history_shard_index. pose proof (Z.mod_pos_bound (fx_hash key) (Z.of_nat (length (history_shards h))) ltac:(lia)). lia. }
  cbn [unwrap mbind outcome_bind]. eexists. split; [done|]. cbn [history_shards request_count]. split; [|done]. intros Hnil%(f_equal length). rewrite length_insert in Hnil. cbn in Hnil. lia.
Qed.

Lemma begin_request_ok (c : Cache F) key elapsed :
  cache_ok bounds out c → faithful source c →
  ∃ c' id, begin_request c key elapsed = Done (c', id) ∧ cache_ok bounds out c' ∧ faithful source c' ∧ memory c' = memory c
    ∧ metrics c' = metrics c ∧ request_count (access_histories c') = request_count (access_histories c) ⊕ 1.
Proof.
  intros [Hm Hh Hf Hd] [Fm Fd]. unfold begin_request. destruct (record_request_done _ key Hh) as (h' & Hrun & Hh' & Hcount). rewrite Hrun.
  cbn [mbind outcome_bind]. unfold trace_request_start. cbn [access_trace]. destruct (access_trace c) as [t|]; [destruct (send_request_start t key elapsed)|]; eexists _, _; split_and!; try done.
Qed.

Lemma end_request_ok (c : Cache F) id key o len elapsed :
  cache_ok bounds out c → faithful source c →
  ∃ c', end_request c id key o len elapsed = Done c' ∧ cache_ok bounds out c' ∧ faithful source c' ∧ access_histories c' = access_histories c
    ∧ zsum (λ n, n) (front_outcomes (metrics c')) = zsum (λ n, n) (front_outcomes (metrics c)) + 1.
Proof.
  intros [Hm Hh Hf Hd] [Fm Fd]. unfold end_request, front_record.
  destruct (lookup_lt_is_Some_2 (front_outcomes (metrics c)) (Z.to_nat (outcome_as_u8 o))) as [n Hn]; [rewrite Hf; destruct o; cbn; lia|]. rewrite Hn.
  cbn [unwrap mbind outcome_bind]. set (m := mkFrontMetrics _ _ _ _ _).
  assert (Hsum : zsum (λ n, n) (front_outcomes m) = zsum (λ n, n) (front_outcomes (metrics c)) + 1) by (unfold m; cbn [front_outcomes]; rewrite (zsum_insert _ _ _ n) by done; lia).
  assert (Hlen : length (front_outcomes m) = 5%nat) by (unfold m; cbn [front_outcomes]; by rewrite length_insert).
  unfold trace_outcome. cbn [access_trace with_front_metrics]. destruct (access_trace c) as [t|], id as [i|]; eexists; split_and!; done.
Qed.
End bookkeeping.

(** ** Sequences of requests and background work *)
Inductive ClientOp (E : Type) :=
  | ClientGet (key : Z) (times : Z * Z)
  | ClientFetch (key : Z) (admission : AdmissionAnswer) (callback : result E CallbackValue) (times : Z * Z)
  | WriterNext
  | WriterFlush
  | WriterDiscard
  | MetadataTick.
Arguments ClientGet {E} _ _.
Arguments ClientFetch {E} _ _ _ _.
Arguments WriterNext {E}.
Arguments WriterFlush {E}.
Arguments WriterDiscard {E}.
Arguments MetadataTick {E}.

(** What a request returned: an object, a miss, or the callback's error. *)
Inductive Answer (E : Type) := Object (bytes : list byte) | Missed | Failed_with (e : E) | NoAnswer.
Arguments Object {E} _.
Arguments Missed {E}.
Arguments Failed_with {E} _.
Arguments NoAnswer {E}.

Section sequences.
Context `{Hasher} `{PayloadReader F} `{FxHasher} (memory_scorer disk_scorer : RetentionScorer ObjectAccessHistories) (reclaim_sample_size : nat).
Context {E : Type}.

(** Work on the disk tier. *)
Definition on_disk (c : Cache F) (work : WriteQueue F → outcome (WriteQueue F)) : outcome (Cache F) :=
  match disk_tier c with
  | None => Done c
  | Some (q, m) => q ← work q; Done (with_disk (Some (q, m)) c)
  end.

Definition run_client (c : Cache F) (op : ClientOp E) : outcome (Cache F * Answer E) :=
  match op with
  | ClientGet key times =>
      '(c, r) ← cache_get memory_scorer reclaim_sample_size c key times;
      Done (c, match r with Some bytes => Object bytes | None => Missed end)
  | ClientFetch key admission callback times =>
      '(c, r) ← get_or_fetch_by_hash memory_scorer reclaim_sample_size c key admission callback times;
      Done (c, match r with Ok bytes => Object bytes | Err e => Failed_with e end)
  | WriterNext =>
      c ← on_disk c (λ q, match wq_channel q with
                          | [] => Done q
                          | p :: rest => write_queued_next (H1 := disk_scorer) (access_histories c) reclaim_sample_size q p rest
                          end);
      Done (c, NoAnswer)
  | WriterFlush => c ← on_disk c (queue_flush (H1 := disk_scorer) (access_histories c) reclaim_sample_size); Done (c, NoAnswer)
  | WriterDiscard => c ← on_disk c (λ q, Done (queue_discard q)); Done (c, NoAnswer)
  | MetadataTick =>
      c ← on_disk c (λ q, '(d, _) ← metadata_tick (wq_disk q); Done (mkWriteQueue d (wq_channel q) (wq_closed q) (wq_held q) (wq_metrics q)));
      Done (c, NoAnswer)
  end.
Fixpoint run_clients (c : Cache F) (ops : list (ClientOp E)) : outcome (Cache F * list (Answer E)) :=
  match ops with
  | [] => Done (c, [])
  | op :: ops =>
      '(c, a) ← run_client c op;
      '(c, rest) ← run_clients c ops;
      Done (c, a :: rest)
  end.
End sequences.

Definition op_ok {E} (source : Z → list byte) (op : ClientOp E) : Prop :=
  match op with
  | ClientGet key _ => is_u128 key
  | ClientFetch key _ callback _ => is_u128 key ∧ callback_ok source key callback
  | _ => True
  end.
(** The answers a cache may give when every tier and callback serves [source]. *)
Definition answer_ok {E} (source : Z → list byte) (op : ClientOp E) (a : Answer E) : Prop :=
  match op with
  | ClientGet key _ => a = Missed ∨ a = Object (source key)
  | ClientFetch key _ callback _ => a = Object (source key) ∨ ∃ e, callback = Err e ∧ a = Failed_with e
  | _ => a = NoAnswer
  end.
Definition is_request {E} (op : ClientOp E) : Z := match op with ClientGet _ _ | ClientFetch _ _ _ _ => 1 | _ => 0 end.

Section sequence_lemmas.
Context `{HasherOk} `{StorageFileOk F} `{!PayloadReader F} `{!PayloadReaderOk F} `{FxHasher}.
Context (memory_scorer disk_scorer : RetentionScorer ObjectAccessHistories) (size : nat) (Hsize : (0 < size)%nat).
Context (bounds : list (Z * Z)) (out : list AlignedBuffer) (source : Z → list byte).
Context {E : Type}.

Definition served (c : Cache F) : Z := zsum (λ n, n) (front_outcomes (metrics c)).

(** Background work keeps the tiers faithful when it adds only queued objects. *)
Lemma on_disk_ok (c : Cache F) work :
  cache_ok bounds out c → faithful source c →
  (∀ q, write_queue_ok bounds q → ∃ q', work q = Done q' ∧ write_queue_ok bounds q' ∧ (∀ p, p ∈ wq_channel q' → p ∈ wq_channel q)
     ∧ ∀ k v, view (wq_disk q') k = Some v → view (wq_disk q) k = Some v ∨ ∃ p, p ∈ wq_channel q ∧ pending_key p = k ∧ pending_payload p = v) →
  ∃ c', on_disk c work = Done c' ∧ cache_ok bounds out c' ∧ faithful source c' ∧ served c' = served c ∧ access_histories c' = access_histories c.
Proof.
  intros Hok Hfa Hwork. unfold on_disk. destruct (disk_tier c) as [[q m]|] eqn:Hd; [|by exists c].
  destruct (Hwork q (co_disk _ _ _ Hok q m Hd)) as (q' & Hrun & Hq' & Hch & Hv). rewrite Hrun. cbn [mbind outcome_bind]. eexists. split; [done|].
  destruct (fa_disk _ _ Hfa q m Hd) as [Fv Fp]. destruct Hok, Hfa as [Fm _]. split_and!; [| |done|done].
  - constructor; try done. intros q0 m0 [= <- <-]. done.
  - constructor; [exact Fm|]. intros q0 m0 [= <- <-]. split; [|by intros p Hp; apply Fp, Hch].
    intros k v Hk. destruct (Hv k v Hk) as [Hold|(p & Hp & <- & <-)]; [by apply Fv|by apply Fp].
Qed.

Lemma writer_ops_ok (h : ObjectAccessHistories) (q : WriteQueue F) :
  write_queue_ok bounds q →
  (∃ q', match wq_channel q with [] => Done q | p :: rest => write_queued_next (H1 := disk_scorer) h size q p rest end = Done q' ∧ write_queue_ok bounds q'
     ∧ (∀ p, p ∈ wq_channel q' → p ∈ wq_channel q)
     ∧ ∀ k v, view (wq_disk q') k = Some v → view (wq_disk q) k = Some v ∨ ∃ p, p ∈ wq_channel q ∧ pending_key p = k ∧ pending_payload p = v)
  ∧ (∃ q', queue_flush (H1 := disk_scorer) h size q = Done q' ∧ write_queue_ok bounds q' ∧ wq_channel q' = wq_channel q ∧ view_le (wq_disk q') (wq_disk q))
  ∧ write_queue_ok bounds (queue_discard q) ∧ wq_channel (queue_discard q) = wq_channel q ∧ view_le (wq_disk (queue_discard q)) (wq_disk q).
Proof.
  intros Hok. destruct (wo_disk _ _ Hok) as [Hd Hne]. split; [|split].
  - destruct (wq_channel q) as [|p rest] eqn:Hch; [exists q; rewrite Hch; split_and!; [done..|by left]|].
    destruct (write_queued_next_ok (H3 := disk_scorer) h size bounds q p rest Hok Hch) as (q' & Hrun & Hok' & Hch' & Hv). exists q'. split_and!; [done|done| |].
    + rewrite Hch'. intros p' Hp'. by right.
    + intros k v Hk. destruct (Hv k v Hk) as [?|[-> ->]]; [by left|right]. exists p. split; [left|done].
  - destruct (flush_ok (H3 := disk_scorer) h size bounds (wq_disk q) Hd) as (d' & r & Hf & _ & Hle & _).
    assert (Hrun : ∃ q', queue_flush (H1 := disk_scorer) h size q = Done q' ∧ wq_channel q' = wq_channel q ∧ wq_disk q' = d').
    { unfold queue_flush. rewrite Hf. cbn [mbind outcome_bind]. destruct (release_guards _ _ _) as [held m]. by eexists. }
    destruct Hrun as (q' & Hrun & Hch & Hdisk). exists q'. split_and!; [done| |done|by rewrite Hdisk].
    eapply (write_queue_step_ok (H3 := disk_scorer) h size bounds q q'); [by apply queue_do_flush|done].
  - split; [|unfold queue_discard; destruct (release_guards _ _ _) as [held m]; split; [done|exact (proj1 (proj2 (discard_ok bounds _ Hd)))]].
    eapply (write_queue_step_ok (H3 := disk_scorer) h size bounds q); [apply queue_do_discard|done].
Qed.

(** A tick of the metadata writer shows the same objects. *)
Lemma metadata_tick_queue_ok (q : WriteQueue F) :
  write_queue_ok bounds q →
  ∃ q', ('(d, _) ← metadata_tick (wq_disk q); Done (mkWriteQueue d (wq_channel q) (wq_closed q) (wq_held q) (wq_metrics q))) = Done q' ∧ write_queue_ok bounds q'
    ∧ wq_channel q' = wq_channel q ∧ view_le (wq_disk q') (wq_disk q).
Proof.
  intros [[Hd Hne] Hl Hc Hh E1 E2 E3]. destruct (metadata_tick_ok bounds (wq_disk q) Hd) as (d' & log & Hrun & [Hd' Hv Hlen Hb _]). rewrite Hrun. cbn [mbind outcome_bind].
  eexists. split; [done|]. split; [|split; [done|intros k v; cbn [wq_disk]; by rewrite Hv]].
  constructor; cbn [wq_disk wq_channel wq_held wq_metrics]; try done; [split; [done|lia]|].
  eapply Forall_impl; [exact Hh|]. intros g [? Hg]. split; [done|]. by rewrite (is_buffered_same (wq_disk q) d').
Qed.

Lemma client_get_ok (c : Cache F) key times :
  cache_ok bounds out c → faithful source c → is_u128 key →
  ∃ c' r, cache_get memory_scorer size c key times = Done (c', r) ∧ cache_ok bounds out c' ∧ faithful source c' ∧ (r = None ∨ r = Some (source key))
    ∧ served c' = served c + 1 ∧ request_count (access_histories c') = request_count (access_histories c) ⊕ 1.
Proof.
  intros Hok Hfa Hop. unfold cache_get. destruct (begin_request_ok bounds out source c key times.1 Hok Hfa) as (c1 & id & Hb & Hok1 & Hfa1 & _ & Hm1 & Hh1). rewrite Hb. cbn [mbind outcome_bind].
  destruct (lookup_tiers_ok memory_scorer size Hsize bounds out source c1 key Permitted Hok1 Hfa1 Hop) as (c2 & o & r & Hl & [Hok2 Hfa2 Ho2 Hh2] & Hr & _). rewrite Hl. cbn [mbind outcome_bind].
  destruct (end_request_ok bounds out source c2 id key o (match r with Some b => Z.of_nat (length b) | None => 0 end) times.2 Hok2 Hfa2) as (c3 & He & Hok3 & Hfa3 & Hh3 & Hs3).
  rewrite He. cbn [mbind outcome_bind]. eexists _, _. split; [done|]. split_and!; [done|done| | |].
  + done.
  + unfold served. by rewrite Hs3, Ho2, Hm1.
  + by rewrite Hh3, Hh2.
Qed.

Lemma client_fetch_ok (c : Cache F) key admission (callback : result E CallbackValue) times :
  cache_ok bounds out c → faithful source c → is_u128 key → callback_ok source key callback →
  ∃ c' r, get_or_fetch_by_hash memory_scorer size c key admission callback times = Done (c', r) ∧ cache_ok bounds out c' ∧ faithful source c'
    ∧ (r = Ok (source key) ∨ ∃ e, callback = Err e ∧ r = Err e)
    ∧ served c' = served c + 1 ∧ request_count (access_histories c') = request_count (access_histories c) ⊕ 1.
Proof.
  intros Hok Hfa Hk Hcb. unfold get_or_fetch_by_hash. destruct (begin_request_ok bounds out source c key times.1 Hok Hfa) as (c1 & id & Hb & Hok1 & Hfa1 & _ & Hm1 & Hh1). rewrite Hb. cbn [mbind outcome_bind].
  rewrite (memory_get_view bounds out c1 key Hok1). cbn [mbind outcome_bind].
  assert (Hmid : ∃ c2 o r, match memory_view fx_hash (memory c1) key with Some bytes => Done (c1, MemoryHit, Ok bytes) | None => fetch memory_scorer size c1 key admission callback times.2 end = Done (c2, o, r)
    ∧ tiers_effect bounds out source c1 c2 ∧ (r = Ok (source key) ∨ ∃ e, callback = Err e ∧ r = Err e)).
  { destruct (memory_view fx_hash (memory c1) key) as [bytes|] eqn:Hv; [|by apply fetch_ok]. eexists c1, _, _. split; [done|]. split; [done|]. left. f_equal. by apply (fa_memory _ _ Hfa1). }
  destruct Hmid as (c2 & o & r & Hl & [Hok2 Hfa2 Ho2 Hh2] & Hr). rewrite Hl. cbn [mbind outcome_bind].
  destruct (end_request_ok bounds out source c2 id key o (match r with Ok b => Z.of_nat (length b) | Err _ => 0 end) times.2 Hok2 Hfa2) as (c3 & He & Hok3 & Hfa3 & Hh3 & Hs3).
  rewrite He. cbn [mbind outcome_bind]. eexists _, _. split; [done|]. split_and!; [done|done| | |].
  + done.
  + unfold served. by rewrite Hs3, Ho2, Hm1.
  + by rewrite Hh3, Hh2.
Qed.

Lemma run_client_ok (c : Cache F) (op : ClientOp E) :
  cache_ok bounds out c → faithful source c → op_ok source op →
  ∃ c' a, run_client memory_scorer disk_scorer size c op = Done (c', a) ∧ cache_ok bounds out c' ∧ faithful source c' ∧ answer_ok source op a
    ∧ served c' = served c + is_request op ∧ request_count (access_histories c') = (if is_request op =? 1 then request_count (access_histories c) ⊕ 1 else request_count (access_histories c)).
Proof.
  intros Hok Hfa Hop. destruct op as [key times|key admission callback times| | | |]; cbn [run_client op_ok is_request] in *.
  - destruct (client_get_ok c key times Hok Hfa Hop) as (c' & r & Hrun & ? & ? & Hr & ? & ?). rewrite Hrun. cbn [mbind outcome_bind].
    eexists _, _. split_and!; [done|done|done| |done|done]. destruct Hr as [->| ->]; [by left|by right].
  - destruct Hop as [Hk Hcb]. destruct (client_fetch_ok c key admission callback times Hok Hfa Hk Hcb) as (c' & r & Hrun & ? & ? & Hr & ? & ?). rewrite Hrun. cbn [mbind outcome_bind].
    eexists _, _. split_and!; [done|done|done| |done|done]. destruct Hr as [->|(e & ? & ->)]; [by left|right; by exists e].
  - edestruct (on_disk_ok c) as (c' & Hrun & Hok' & Hfa' & Hs & Hh); [done|done|intros q Hq; exact (proj1 (writer_ops_ok (access_histories c) q Hq))|].
    rewrite Hrun. cbn [mbind outcome_bind]. eexists _, _. split_and!; [done|done|done|done|lia|by rewrite Hh].
  - edestruct (on_disk_ok c) as (c' & Hrun & Hok' & Hfa' & Hs & Hh); [done|done| |].
    { intros q Hq. destruct (writer_ops_ok (access_histories c) q Hq) as (_ & (q' & Hf & Hq' & Hch & Hle) & _). exists q'. split_and!; [exact Hf|done|by rewrite Hch|]. intros k v Hk. left. by apply Hle. }
    rewrite Hrun. cbn [mbind outcome_bind]. eexists _, _. split_and!; [done|done|done|done|lia|by rewrite Hh].
  - edestruct (on_disk_ok c (λ q, Done (queue_discard q))) as (c' & Hrun & Hok' & Hfa' & Hs & Hh); [done|done| |].
    { intros q Hq. destruct (writer_ops_ok (access_histories c) q Hq) as (_ & _ & Hq' & Hch & Hle). eexists. split_and!; [done|done|by rewrite Hch|]. intros k v Hk. left. by apply Hle. }
    rewrite Hrun. cbn [mbind outcome_bind]. eexists _, _. split_and!; [done|done|done|done|lia|by rewrite Hh].
  - edestruct (on_disk_ok c) as (c' & Hrun & Hok' & Hfa' & Hs & Hh); [done|done| |].
    { intros q Hq. destruct (metadata_tick_queue_ok q Hq) as (q' & Hrun & Hq' & Hch & Hle). exists q'. split_and!; [exact Hrun|done|by rewrite Hch|]. intros k v Hk. left. by apply Hle. }
    rewrite Hrun. cbn [mbind outcome_bind]. eexists _, _. split_and!; [done|done|done|done|lia|by rewrite Hh].
Qed.

Lemma run_clients_ok (ops : list (ClientOp E)) : ∀ c : Cache F,
  cache_ok bounds out c → faithful source c → Forall (op_ok source) ops →
  ∃ c' rs, run_clients memory_scorer disk_scorer size c ops = Done (c', rs) ∧ cache_ok bounds out c' ∧ faithful source c'
    ∧ Forall2 (answer_ok source) ops rs ∧ served c' = served c + zsum is_request ops.
Proof.
  induction ops as [|op ops IH]; intros c Hok Hfa Hops; cbn [run_clients].
  { exists c, []. rewrite zsum_nil. split_and!; [done..|constructor|lia]. }
  apply Forall_cons in Hops as [Hop Hops]. destruct (run_client_ok c op Hok Hfa Hop) as (c1 & a & Hrun & Hok1 & Hfa1 & Ha & Hs & _). rewrite Hrun. cbn [mbind outcome_bind].
  destruct (IH c1 Hok1 Hfa1 Hops) as (c' & rs & Hrun' & Hok' & Hfa' & Hall & Hs'). rewrite Hrun'. cbn [mbind outcome_bind].
  exists c', (a :: rs). rewrite zsum_cons. split_and!; [done..|by constructor|lia].
Qed.
End sequence_lemmas.

(** C1: the cache is transparent.  Let every object have one value, which all
    callbacks download.  Then no sequence of requests and background writes
    panics, the tiers stay consistent and hold only those values, every lookup
    returns the value or a miss, every fetch returns the value or its own
    callback's error, and each request is counted under exactly one outcome. *)
Theorem cache_transparent `{HasherOk} `{StorageFileOk F} `{!PayloadReader F} `{!PayloadReaderOk F} `{FxHasher} {E}
    (memory_scorer disk_scorer : RetentionScorer ObjectAccessHistories) size bounds out (source : Z → list byte) (c : Cache F) (ops : list (ClientOp E)) :
  (0 < size)%nat → cache_ok bounds out c → faithful source c → Forall (op_ok source) ops →
  ∃ c' rs, run_clients memory_scorer disk_scorer size c ops = Done (c', rs) ∧ cache_ok bounds out c' ∧ faithful source c'
    ∧ Forall2 (answer_ok source) ops rs ∧ served c' = served c + zsum is_request ops.
Proof. intros Hsize Hok Hfa Hops. by apply run_clients_ok. Qed.

Definition sample_front : Cache RamFile :=
  mkCache sample_memory (mkHistories [∅] 0 262144) new_front_metrics (Some (sample_queue, no_lookups)) 0 (Some new_access_trace).
Definition sample_ops : list (ClientOp ()) :=
  [ClientGet 7 (1, 2); ClientFetch 7 Permitted (Ok (FromBytes [Byte.x01; Byte.x02])) (3, 4); WriterNext; ClientFetch 7 (Asked true) (Err tt) (5, 6); WriterFlush; MetadataTick].

Lemma sample_front_ok : let _ := sum_hasher in cache_ok [(1, 9)] [] sample_front.
Proof.
  intros hash. constructor; [exact sample_memory_ok|done|done|]. intros q m [= <- <-].
  constructor; cbn [wq_disk wq_channel wq_held wq_metrics sample_queue]; try done; [split; [exact sample_cache_ok|cbn; lia]|cbn; lia].
Qed.

Lemma sample_front_faithful source : let _ : FxHasher := sample_hash in faithful source sample_front.
Proof.
  intros fx. constructor.
  - intros k v. unfold memory_view. change (memory_shards (memory sample_front)) with [new_memory_shard 50; new_memory_shard 50].
    destruct ([new_memory_shard 50; new_memory_shard 50] !! _) as [sh|] eqn:Hi; [|done]. apply list_elem_of_lookup_2 in Hi. cbn [mbind option_bind].
    elem_cases; unfold shard_get; cbn [mem_entries new_memory_shard]; rewrite lookup_empty; discriminate.
  - intros q m [= <- <-]. split; [|by intros p ?%elem_of_nil]. intros k v Hv. exfalso. unfold view, shard_index_for_key in Hv.
    change (Z.of_nat (length (shards (wq_disk sample_queue)))) with 1 in Hv. rewrite Z.mod_1_r in Hv. discriminate Hv.
Qed.

Lemma cache_transparent_witness :
  let _ := sum_hasher in let _ : FxHasher := sample_hash in let scorer : RetentionScorer ObjectAccessHistories := λ _ _ _, S754_zero false in
  ∃ c' rs, run_clients scorer scorer 64 sample_front sample_ops = Done (c', rs) ∧ Forall2 (answer_ok (λ _, [Byte.x01; Byte.x02])) sample_ops rs.
Proof.
  intros hash fx scorer. assert (Hh : @HasherOk hash) by apply sum_hasher_ok.
  destruct (cache_transparent scorer scorer 64 [(1, 9)] [] (λ _, [Byte.x01; Byte.x02]) sample_front sample_ops) as (c' & rs & Hrun & _ & _ & Hall & _).
  - lia.
  - exact sample_front_ok.
  - apply sample_front_faithful.
  - repeat constructor; by vm_compute.
  - exists c', rs. split; [exact Hrun|exact Hall].
Defined.
