(* ===== verification/Config.v ===== *)
(** * Configuring and opening a cache ([feuer-utils/src/config.rs],
    [feuer/src/config.rs], [CacheBuilder] of [feuer/src/cache.rs])

    A builder collects explicit settings; three of them fall back to environment
    variables and then to defaults.  [resolve_config] validates everything before a
    file is touched, and [open_cache] builds the memory tier and, when the disk
    capacity is not zero, opens the disk tier; a panic below it is a panic of the whole.
    The number syntax is the
    [bytesize] crate's: its parser is a parameter.  Metrics registration and the
    sharing of I/O queues are not represented. *)

From stdpp Require Import strings pretty.
From S2P Require Import Prelude Codec Errors Paths Disk BTree Allocation PageFormat Metadata Float64 Retention.
From S2P Require Import Historian EntryIndex Shard Writer DiskCache Recovery Header Admission Uring File BufferPool MemoryStore Lookup.
From S2P Require Import WriteQueue Trace Open Restart Cache FileOpen.

(** ** Numbers from the environment *)

(** An [OsStr]: Unicode text or bytes that are not. *)
Inductive OsStr := Unicode (s : string) | NotUnicode.
Definition to_str (v : OsStr) : option string := match v with Unicode s => Some s | NotUnicode => None end.
Definition Environment : Type := gmap string OsStr.

(** The values of an integer type, [TryFrom<u64>], and its name. *)
Record IntegerType := mkIntegerType { type_name : string; type_max : Z }.
Definition u64_type : IntegerType := mkIntegerType "u64" u64_max.
Definition usize_type : IntegerType := mkIntegerType "usize" u64_max.
Definition try_from (t : IntegerType) (number : Z) : option Z := if number <=? type_max t then Some number else None.

Section numbers.
(** [str::parse::<ByteSize>], then [as_u64]. *)
Context (parse_byte_size : string → option Z).

(** [parse_config_number] *)
Definition parse_config_number (t : IntegerType) (value : OsStr) (minimum : Z) : option Z :=
  s ← to_str value;
  number ← parse_byte_size s;
  if number <? minimum then None else try_from t number.

(** [read_env_number] *)
Definition read_env_number (env : Environment) (t : IntegerType) (name : string) (default minimum : Z) : result string Z :=
  match env !! name with
  | None => Ok default
  | Some value =>
      match parse_config_number t value minimum with
      | Some number => Ok number
      | None => Err (name +:+ " must be a number >= " +:+ pretty minimum +:+ " fitting " +:+ type_name t +:+ " (e.g. 8192 or 8KiB)")
      end
  end.
End numbers.

(** ** The builder *)

(** [CacheBuilder], less the resources it passes on unchanged. *)
Record CacheBuilder := mkCacheBuilder {
  b_directory : string;
  b_file_name : string;
  b_disk_capacity : Z;
  b_memory_capacity : Z;
  b_payload_version : Z;
  b_access_count_half_life : option Z;
  b_history_entry_limit : option Z;
  b_reclaim_sample_size : option Z
}.

(** [Cache::builder] *)
Definition builder : CacheBuilder := mkCacheBuilder "feuer_cache" "data" 0 0 0 None None None.

(** The setters. *)
Definition set_memory_capacity (bytes : Z) (b : CacheBuilder) : CacheBuilder :=
  mkCacheBuilder (b_directory b) (b_file_name b) (b_disk_capacity b) bytes (b_payload_version b) (b_access_count_half_life b) (b_history_entry_limit b) (b_reclaim_sample_size b).
Definition set_disk_capacity (bytes : Z) (b : CacheBuilder) : CacheBuilder :=
  mkCacheBuilder (b_directory b) (b_file_name b) bytes (b_memory_capacity b) (b_payload_version b) (b_access_count_half_life b) (b_history_entry_limit b) (b_reclaim_sample_size b).
Definition set_directory (directory : string) (b : CacheBuilder) : CacheBuilder :=
  mkCacheBuilder directory (b_file_name b) (b_disk_capacity b) (b_memory_capacity b) (b_payload_version b) (b_access_count_half_life b) (b_history_entry_limit b) (b_reclaim_sample_size b).
Definition set_file_name (name : string) (b : CacheBuilder) : CacheBuilder :=
  mkCacheBuilder (b_directory b) name (b_disk_capacity b) (b_memory_capacity b) (b_payload_version b) (b_access_count_half_life b) (b_history_entry_limit b) (b_reclaim_sample_size b).
Definition set_payload_version (version : Z) (b : CacheBuilder) : CacheBuilder :=
  mkCacheBuilder (b_directory b) (b_file_name b) (b_disk_capacity b) (b_memory_capacity b) version (b_access_count_half_life b) (b_history_entry_limit b) (b_reclaim_sample_size b).
Definition set_access_count_half_life (requests : Z) (b : CacheBuilder) : CacheBuilder :=
  mkCacheBuilder (b_directory b) (b_file_name b) (b_disk_capacity b) (b_memory_capacity b) (b_payload_version b) (Some requests) (b_history_entry_limit b) (b_reclaim_sample_size b).
Definition set_history_entry_limit (entries : Z) (b : CacheBuilder) : CacheBuilder :=
  mkCacheBuilder (b_directory b) (b_file_name b) (b_disk_capacity b) (b_memory_capacity b) (b_payload_version b) (b_access_count_half_life b) (Some entries) (b_reclaim_sample_size b).
Definition set_reclaim_sample_size (candidates : Z) (b : CacheBuilder) : CacheBuilder :=
  mkCacheBuilder (b_directory b) (b_file_name b) (b_disk_capacity b) (b_memory_capacity b) (b_payload_version b) (b_access_count_half_life b) (b_history_entry_limit b) (Some candidates).

(** [CacheConfig] and [CacheConfigError] *)
Record CacheConfig := mkCacheConfig {
  directory : string;
  cfg_file_name : string;
  payload_version : Z;
  disk_capacity : Z;
  cfg_memory_capacity : Z;
  access_count_half_life : Z;
  history_entry_limit : Z;
  cfg_reclaim_sample_size : Z
}.
Inductive CacheConfigError :=
  | InvalidFileName | InvalidMemoryCapacity | InvalidReclaimSampleSize | InvalidAccessCountHalfLife | InvalidHistoryEntryLimit.

(** [NonZeroU64::new] *)
Definition non_zero (z : Z) : option Z := if z =? 0 then None else Some z.
Definition ok_or {E A} (e : E) (o : option A) : result E A := match o with Some a => Ok a | None => Err e end.

Section resolve.
Context (parse_byte_size : string → option Z) (env : Environment).

(** [self.setting.map(Ok).unwrap_or_else(|| read_env_number(..)).map_err(|_| e)] *)
Definition setting_or_env (explicit : option Z) (t : IntegerType) (name : string) (default : Z) (e : CacheConfigError) : result CacheConfigError Z :=
  map_err (λ _, e) match explicit with Some v => Ok v | None => read_env_number parse_byte_size env t name default 1 end.

(** [CacheBuilder::resolve_config] *)
Definition resolve_config (b : CacheBuilder) : result CacheConfigError CacheConfig :=
  if b_memory_capacity b =? 0 then Err InvalidMemoryCapacity
  else if bool_decide (file_name (b_file_name b) ≠ Some (b_file_name b)) || contains_char nul (b_file_name b)
          || starts_with ".feuer." (b_file_name b) then Err InvalidFileName
  else
    sample_size ← setting_or_env (b_reclaim_sample_size b) usize_type "FEUER_RECLAIM_SAMPLE_SIZE" (Z.of_nat RECLAIM_SAMPLE_SIZE) InvalidReclaimSampleSize;
    if sample_size =? 0 then Err InvalidReclaimSampleSize
    else
      half_life ← setting_or_env (b_access_count_half_life b) u64_type "FEUER_ACCESS_COUNT_HALF_LIFE" DEFAULT_ACCESS_COUNT_HALF_LIFE InvalidAccessCountHalfLife;
      history_limit ← setting_or_env (b_history_entry_limit b) usize_type "FEUER_HISTORY_ENTRY_LIMIT" DEFAULT_HISTORY_ENTRY_LIMIT InvalidHistoryEntryLimit;
      half_life ← ok_or InvalidAccessCountHalfLife (non_zero half_life);
      history_limit ← ok_or InvalidHistoryEntryLimit (non_zero history_limit);
      Ok (mkCacheConfig (b_directory b) (b_file_name b) (b_payload_version b) (b_disk_capacity b) (b_memory_capacity b)
            half_life history_limit sample_size).
End resolve.

(** ** Opening *)

(** [CacheOpenError] *)
Inductive CacheOpenError := OpenConfig (e : CacheConfigError) | OpenDisk (e : DiskCacheError).

Section open_cache.
Context `{Hasher} `{StorageFile F} `{FxHasher} (parse_byte_size : string → option Z).
(** [DataFile::open_with_io_queues] on a directory and a file name. *)
Context (open_data_file : string → string → Z → outcome (result DataFileError F)).

(** [CacheBuilder::open], for Linux with the disk feature. *)
Definition open_cache (env : Environment) (b : CacheBuilder) (allocations : list bool)
  : outcome (result CacheOpenError (CacheConfig * Cache F)) :=
  match resolve_config parse_byte_size env b with
  | Err e => Done (Err (OpenConfig e))
  | Ok config =>
      memory ← memory_with_metrics (cfg_memory_capacity config);
      let histories := with_half_life (access_count_half_life config) in
      _ ← assert_that (bool_decide (0 < cfg_reclaim_sample_size config));
      if disk_capacity config =? 0 then Done (Ok (config, mkCache memory histories new_front_metrics None 0 None))
      else
        opened ← open_disk_cache (open_data_file (directory config) (cfg_file_name config)) (disk_capacity config)
                   (payload_version config) (Z.to_nat (cfg_reclaim_sample_size config)) allocations;
        match opened with
        | Err e => Done (Err (OpenDisk e))
        | Ok d =>
            let q := mkWriteQueue d [] false [] (mkQueueMetrics (λ _, 0) 0 0 0) in
            Done (Ok (config, mkCache memory histories new_front_metrics (Some (q, no_lookups)) 0 None))
        end
  end.
End open_cache.

(** ** What a valid configuration is *)

Definition builder_ok (b : CacheBuilder) : Prop :=
  is_u64 (b_memory_capacity b) ∧ is_u64 (b_disk_capacity b) ∧ is_u64 (b_payload_version b)
  ∧ (∀ v, b_reclaim_sample_size b = Some v → is_u64 v) ∧ (∀ v, b_access_count_half_life b = Some v → is_u64 v)
  ∧ (∀ v, b_history_entry_limit b = Some v → is_u64 v).

Lemma file_name_test s :
  bool_decide (file_name s ≠ Some s) || contains_char nul s || starts_with ".feuer." s = false ↔ valid_file_name s.
Proof.
  rewrite !orb_false_iff, bool_decide_eq_false. unfold valid_file_name. rewrite <-file_name_self.
  destruct (decide (file_name s = Some s)); naive_solver.
Qed.

Section valid.
Context (parse_byte_size : string → option Z) (env : Environment).

(** The explicit value, else the environment's, else the default; [None] when the
    value that counts is not a positive number of the type. *)
Definition setting_value (explicit : option Z) (t : IntegerType) (name : string) (default : Z) : option Z :=
  match explicit, env !! name with
  | Some v, _ => non_zero v
  | None, Some value => parse_config_number parse_byte_size t value 1
  | None, None => Some default
  end.
Definition sample_size_value (b : CacheBuilder) : option Z :=
  setting_value (b_reclaim_sample_size b) usize_type "FEUER_RECLAIM_SAMPLE_SIZE" 64.
Definition half_life_value (b : CacheBuilder) : option Z :=
  setting_value (b_access_count_half_life b) u64_type "FEUER_ACCESS_COUNT_HALF_LIFE" 262144.
Definition history_limit_value (b : CacheBuilder) : option Z :=
  setting_value (b_history_entry_limit b) usize_type "FEUER_HISTORY_ENTRY_LIMIT" 2000000.

(** A setting that passes both tests is the setting's value; one that fails either has none. *)
Lemma setting_or_env_value explicit t name d e :
  d ≠ 0 →
  match setting_or_env parse_byte_size env explicit t name d e with
  | Ok v => setting_value explicit t name d = non_zero v
  | Err e' => e' = e ∧ setting_value explicit t name d = None
  end.
Proof.
  intros Hd. unfold setting_or_env, setting_value, read_env_number. destruct explicit as [v|]; [done|].
  destruct (env !! name) as [value|]; cbn [map_err].
  - destruct (parse_config_number parse_byte_size t value 1) as [v|] eqn:Hp; cbn [map_err]; [|done].
    unfold non_zero. destruct (Z.eqb_spec v 0) as [->|]; [|done]. exfalso. revert Hp. unfold parse_config_number.
    destruct (to_str value) as [s|]; [|done]. cbn. destruct (parse_byte_size s) as [n|]; [|done]. cbn. unfold try_from.
    destruct (Z.ltb_spec n 1), (Z.leb_spec n (type_max t)); try done. intros [= ->]. lia.
  - unfold non_zero. by rewrite (proj2 (Z.eqb_neq _ _) Hd).
Qed.

Lemma setting_value_range explicit t name d v :
  (∀ v, explicit = Some v → is_u64 v) → 0 < d ≤ u64_max → type_max t = u64_max →
  setting_value explicit t name d = Some v → 0 < v ≤ u64_max.
Proof.
  intros He Hd Ht. unfold setting_value. destruct explicit as [w|].
  - unfold non_zero. destruct (Z.eqb_spec w 0); [done|]. intros [= <-]. specialize (He w eq_refl). unfold is_u64, u64_max in *. lia.
  - destruct (env !! name) as [value|]; [|by intros [= <-]]. unfold parse_config_number. destruct (to_str value) as [s|]; [|done]. cbn.
    destruct (parse_byte_size s) as [n|]; [|done]. cbn. unfold try_from. rewrite Ht. destruct (Z.ltb_spec n 1), (Z.leb_spec n u64_max); try done.
    intros [= <-]. lia.
Qed.
End valid.

(** What [resolve_config] answers. *)
Definition resolves (parse_byte_size : string → option Z) (env : Environment) (b : CacheBuilder) (r : result CacheConfigError CacheConfig) : Prop :=
  match r with
  | Ok c =>
      0 < b_memory_capacity b ∧ valid_file_name (b_file_name b)
      ∧ sample_size_value parse_byte_size env b = Some (cfg_reclaim_sample_size c) ∧ 0 < cfg_reclaim_sample_size c ≤ u64_max
      ∧ half_life_value parse_byte_size env b = Some (access_count_half_life c) ∧ 0 < access_count_half_life c ≤ u64_max
      ∧ history_limit_value parse_byte_size env b = Some (history_entry_limit c) ∧ 0 < history_entry_limit c ≤ u64_max
      ∧ (directory c, cfg_file_name c, payload_version c, disk_capacity c, cfg_memory_capacity c)
        = (b_directory b, b_file_name b, b_payload_version b, b_disk_capacity b, b_memory_capacity b)
  | Err InvalidMemoryCapacity => b_memory_capacity b = 0
  | Err InvalidFileName => ¬ valid_file_name (b_file_name b)
  | Err InvalidReclaimSampleSize => sample_size_value parse_byte_size env b = None
  | Err InvalidAccessCountHalfLife => half_life_value parse_byte_size env b = None
  | Err InvalidHistoryEntryLimit => history_limit_value parse_byte_size env b = None
  end.

Lemma resolve_config_spec parse_byte_size env b : builder_ok b → resolves parse_byte_size env b (resolve_config parse_byte_size env b).
Proof.
  intros (Hm & _ & _ & Hs & Hl & Hh). unfold resolve_config. destruct (Z.eqb_spec (b_memory_capacity b) 0) as [H0|H0]; [done|].
  destruct (_ || starts_with ".feuer." (b_file_name b)) eqn:Hname; [intros Hv%file_name_test; congruence|]. apply file_name_test in Hname.
  pose proof (setting_or_env_value parse_byte_size env (b_reclaim_sample_size b) usize_type "FEUER_RECLAIM_SAMPLE_SIZE" (Z.of_nat RECLAIM_SAMPLE_SIZE) InvalidReclaimSampleSize ltac:(done)) as HS.
  destruct (setting_or_env _ _ (b_reclaim_sample_size b) _ _ _ _) as [s|e]; cbn [mbind result_bind]; [|by destruct HS as [-> ?]].
  destruct (Z.eqb_spec s 0) as [->|Hs0]; [exact HS|].
  pose proof (setting_or_env_value parse_byte_size env (b_access_count_half_life b) u64_type "FEUER_ACCESS_COUNT_HALF_LIFE" DEFAULT_ACCESS_COUNT_HALF_LIFE InvalidAccessCountHalfLife ltac:(done)) as HL.
  destruct (setting_or_env _ _ (b_access_count_half_life b) _ _ _ _) as [l|e]; cbn [mbind result_bind]; [|by destruct HL as [-> ?]].
  pose proof (setting_or_env_value parse_byte_size env (b_history_entry_limit b) usize_type "FEUER_HISTORY_ENTRY_LIMIT" DEFAULT_HISTORY_ENTRY_LIMIT InvalidHistoryEntryLimit ltac:(done)) as HH.
  destruct (setting_or_env _ _ (b_history_entry_limit b) _ _ _ _) as [h|e]; cbn [mbind result_bind]; [|by destruct HH as [-> ?]].
  destruct (non_zero l) as [l'|] eqn:El; cbn [ok_or mbind result_bind]; [|exact HL].
  destruct (non_zero h) as [h'|] eqn:Eh; cbn [ok_or mbind result_bind]; [|exact HH].
  assert (ES : non_zero s = Some s) by (unfold non_zero; by rewrite (proj2 (Z.eqb_neq _ _) Hs0)). rewrite ES in HS.
  cbn [resolves directory cfg_file_name payload_version disk_capacity cfg_memory_capacity cfg_reclaim_sample_size access_count_half_life history_entry_limit].
  unfold is_u64 in Hm. split; [lia|]. split; [done|]. split; [exact HS|]. split; [by eapply (setting_value_range parse_byte_size env); [exact Hs|..|exact HS]|].
  split; [exact HL|]. split; [by eapply (setting_value_range parse_byte_size env); [exact Hl|..|exact HL]|].
  split; [exact HH|]. split; [by eapply (setting_value_range parse_byte_size env); [exact Hh|..|exact HH]|done].
Qed.

(** C40: settings are validated completely.  A configuration is returned only when
    the memory capacity is positive, the file name is a single name that cannot
    meet a lock file, and the sample size, the half-life and the history limit,
    taken from the builder, else from the environment, else from the defaults, are
    positive numbers of their types; it then holds exactly these values.  Every
    error names a setting that is invalid. *)
Theorem resolve_config_correct parse_byte_size env b :
  builder_ok b → resolves parse_byte_size env b (resolve_config parse_byte_size env b).
Proof. apply resolve_config_spec. Qed.

(** Decimal digits only; the crate also accepts units. *)
Definition parse_digits (s : string) : option Z :=
  (fix go (acc : Z) (s : string) : option Z :=
     match s with
     | EmptyString => Some acc
     | String c s => let d := Z.of_nat (Ascii.nat_of_ascii c) - 48 in
                     if (0 <=? d) && (d <=? 9) then go (acc * 10 + d) s else None
     end) 0 s.

Lemma resolve_config_correct_witness :
  let env : Environment := <["FEUER_RECLAIM_SAMPLE_SIZE" := Unicode "128"]> ∅ in
  let b := set_history_entry_limit 5 (set_memory_capacity 1000 builder) in
  resolves parse_digits env b (Ok (mkCacheConfig "feuer_cache" "data" 0 0 1000 262144 5 128))
  ∧ resolve_config parse_digits env (set_file_name ".feuer.images.lock" b) = Err InvalidFileName.
Proof.
  intros env b. split; [|reflexivity]. change (Ok (mkCacheConfig "feuer_cache" "data" 0 0 1000 262144 5 128)) with (resolve_config parse_digits env b).
  apply (resolve_config_correct parse_digits env b). unfold builder_ok. cbn. split_and!; try done; by intros v [= <-].
Defined.

(** ** A cache that was just opened *)
Section opened.
Context `{HasherOk} `{StorageFileOk F} `{!PayloadReader F} `{!PayloadReaderOk F} `{FxHasher}.

(** An opened disk tier whose indices are empty is a queue at rest that holds
    nothing. *)
Lemma opened_queue_ok bounds (d : DiskCacheInner F) :
  inner_consistent bounds d → (0 < length (shards d))%nat →
  (∀ i j bi bj, i ≠ j → bounds !! i = Some bi → bounds !! j = Some bj → bi.2 ≤ bj.1 ∨ bj.2 ≤ bi.1) →
  (∀ i x, shards d !! i = Some x → buffered x.2 = [] ∧ entries_by_key (entry_index x.1) = ∅) →
  write_queue_ok bounds (mkWriteQueue d [] false [] (mkQueueMetrics (λ _, 0) 0 0 0)) ∧ ∀ key, view d key = None.
Proof.
  intros Hcons Hlen Hdis Hempty. split.
  - constructor; cbn [wq_disk wq_channel wq_held wq_metrics]; try done; [split; [|done]|cbn; lia]. constructor; [|exact Hdis].
    apply Forall2_same_length_lookup_2; [by eapply Forall2_length|]. intros i b x Hb Hx.
    destruct (Forall2_lookup_lr _ _ _ _ _ _ Hcons Hb Hx) as [? ? ?]. constructor; try done.
    intros key e. by rewrite (proj2 (Hempty i x Hx)), lookup_empty.
  - intros key. unfold view. destruct (shards d !! _) as [x|] eqn:Hx; [|done]. cbn [mbind option_bind]. destruct (Hempty _ x Hx) as [Hb He].
    rewrite He, lookup_empty. unfold buffer_get, buffer_entry. rewrite Hb. done.
Qed.

(** The cache [CacheBuilder::open] builds, at rest. *)
Lemma opened_cache_ok source bounds mem half_life (disk : option (DiskCacheInner F)) :
  memory_ok [] mem → memory_shards mem ≠ [] → (∀ key, memory_view fx_hash mem key = None) →
  (∀ d, disk = Some d → write_queue_ok bounds (mkWriteQueue d [] false [] (mkQueueMetrics (λ _, 0) 0 0 0)) ∧ ∀ key v, view d key = Some v → v = source key) →
  let c := mkCache mem (with_half_life half_life) new_front_metrics
             ((λ d, (mkWriteQueue d [] false [] (mkQueueMetrics (λ _, 0) 0 0 0), no_lookups)) <$> disk) 0 None in
  cache_ok bounds [] c ∧ faithful source c.
Proof.
  intros Hm Hne Hv Hd c. split.
  - constructor; [done|done|done|]. intros q m (d & -> & [= -> ->])%fmap_Some. by apply Hd.
  - constructor; [intros k v; cbn [memory c]; by rewrite Hv|]. intros q m (d & -> & [= -> ->])%fmap_Some. destruct (Hd d eq_refl) as [_ Hview].
    split; [exact Hview|by intros p ?%elem_of_nil].
Qed.
End opened.

(** What [DataFile::open_with_io_queues] promises the disk cache: it returns, the
    file has the capacity it was asked for, and holds no records but those a writer wrote. *)
Record OpensDataFiles `{Hasher} `{StorageFile F} (open_data_file : Z → outcome (result DataFileError F)) : Prop := mkOpensDataFiles {
  od_returns : ∀ c, open_data_file c ≠ Panic;
  od_capacity : ∀ c f, open_data_file c = Done (Ok f) → capacity f = c;
  od_records : ∀ c f i, open_data_file c = Done (Ok f) → let b := shard_bounds c (num_shards_for c) i in writer_records b.1 b.2 (contents f)
}.

(** The cache that opening yields, in every case. *)
Lemma open_cache_at_rest `{HasherOk} `{StorageFileOk F} `{!PayloadReader F} `{!PayloadReaderOk F} `{FxHasher}
    parse_byte_size (open_data_file : string → string → Z → outcome (result DataFileError F)) env b allocations :
  (valid_file_name (b_file_name b) → OpensDataFiles (open_data_file (b_directory b) (b_file_name b))) → builder_ok b → b_disk_capacity b < 2 ^ 57 →
  ∃ r, open_cache parse_byte_size open_data_file env b allocations = Done r
    ∧ (∀ e, resolve_config parse_byte_size env b = Err e → r = Err (OpenConfig e))
    ∧ ∀ config c, r = Ok (config, c) →
        resolve_config parse_byte_size env b = Ok config ∧ (0 < Z.to_nat (cfg_reclaim_sample_size config))%nat
        ∧ (disk_tier c = None ↔ disk_capacity config = 0)
        ∧ ((∀ f, let cap := disk_capacity config / CHUNK_BYTES * CHUNK_BYTES in
              open_data_file (directory config) (cfg_file_name config) cap = Done (Ok f) →
              header_matches (disk_header (contents f)) (payload_version config) cap = false) →
           ∃ bounds, ∀ source, cache_ok bounds [] c ∧ faithful source c).
Proof.
  intros Hfiles Hb Hbig. unfold open_cache. pose proof (resolve_config_spec parse_byte_size env b Hb) as Hres. destruct Hb as (_ & Hdisk & Hver & _).
  destruct (resolve_config parse_byte_size env b) as [config|e]; [|by eexists; split_and!; [done|intros ? [= ->]|]].
  destruct Hres as (Hm & Hname & _ & Hs & _ & _ & _ & _ & Heq). injection Heq as En1 En2 Ev Ed Em. destruct (Hfiles Hname) as [Hret Hcap Hrec]. rewrite <-En1, <-En2 in Hret, Hcap, Hrec.
  destruct (memory_cache_shards (cfg_memory_capacity config) ltac:(lia)) as (mem & Hmem & _ & Hmok & Hmv). rewrite Hmem. cbn [mbind outcome_bind].
  rewrite bool_decide_eq_true_2 by lia. cbn [assert_that mbind outcome_bind].
  assert (Hne : memory_shards mem ≠ []) by (eapply memory_with_metrics_shards; exact Hmem).
  assert (Hsize : (0 < Z.to_nat (cfg_reclaim_sample_size config))%nat) by lia.
  destruct (Z.eqb_spec (disk_capacity config) 0) as [Hzero|Hzero].
  { eexists. split; [done|]. split; [done|]. intros config' c [= <- <-]. split_and!; [done|done|done|]. intros _. exists []. intros source.
    by apply (opened_cache_ok source [] mem (access_count_half_life config) None Hmok Hne (Hmv fx_hash)). }
  destruct (open_disk_cache_spec (open_data_file (directory config) (cfg_file_name config)) (disk_capacity config) (payload_version config)
    (Z.to_nat (cfg_reclaim_sample_size config)) allocations) as (r & Hrun & _ & Hd); [exact Hret|exact Hcap|exact Hrec|left; by rewrite Ed|by rewrite Ev|done|].
  rewrite Hrun. cbn [mbind outcome_bind]. destruct r as [d|e]; [|by eexists; split_and!]. eexists. split; [done|]. split; [done|].
  intros config' c [= <- <-]. split_and!; [done|done|done|]. intros Hhead.
  destruct (Hd d eq_refl) as (Hlen & Hn & Hcons & Hdis & Hsh & Hempty). set (bounds := shard_bounds _ _ <$> _) in *.
  destruct (open_data_file (directory config) (cfg_file_name config) (disk_capacity config / CHUNK_BYTES * CHUNK_BYTES)) as [[f|e]|] eqn:Hf; [|exfalso; exact (open_needs_file _ _ _ _ _ _ _ Hf Hrun)|by destruct (Hret _ Hf)].
  destruct (opened_queue_ok bounds d Hcons ltac:(lia) Hdis) as [Hq Hv].
  { intros i x Hx. split; [apply (Hsh i x Hx)|]. by apply (Hempty f eq_refl (Hhead f eq_refl) i x). }
  exists bounds. intros source. apply (opened_cache_ok source bounds mem (access_count_half_life config) (Some d) Hmok Hne (Hmv fx_hash)).
  intros d' [= <-]. split; [exact Hq|]. intros key v. by rewrite Hv.
Qed.

(** What opening a cache does, and how the cache then answers. *)
Lemma open_cache_spec `{HasherOk} `{StorageFileOk F} `{!PayloadReader F} `{!PayloadReaderOk F} `{FxHasher} {E}
    parse_byte_size (open_data_file : string → string → Z → outcome (result DataFileError F)) env b allocations (memory_scorer disk_scorer : RetentionScorer ObjectAccessHistories) :
  (valid_file_name (b_file_name b) → OpensDataFiles (open_data_file (b_directory b) (b_file_name b))) → builder_ok b → b_disk_capacity b < 2 ^ 57 →
  ∃ r, open_cache parse_byte_size open_data_file env b allocations = Done r
    ∧ (∀ e, resolve_config parse_byte_size env b = Err e → r = Err (OpenConfig e))
    ∧ ∀ config c, r = Ok (config, c) →
        resolve_config parse_byte_size env b = Ok config
        ∧ (disk_tier c = None ↔ disk_capacity config = 0)
        ∧ ((∀ f, let cap := disk_capacity config / CHUNK_BYTES * CHUNK_BYTES in
              open_data_file (directory config) (cfg_file_name config) cap = Done (Ok f) →
              header_matches (disk_header (contents f)) (payload_version config) cap = false) →
           ∀ source (ops : list (ClientOp E)), Forall (op_ok source) ops →
             ∃ c' rs, run_clients memory_scorer disk_scorer (Z.to_nat (cfg_reclaim_sample_size config)) c ops = Done (c', rs)
               ∧ Forall2 (answer_ok source) ops rs).
Proof.
  intros Hfiles Hb Hbig. destruct (open_cache_at_rest parse_byte_size open_data_file env b allocations Hfiles Hb Hbig) as (r & Hrun & Herr & Hok).
  exists r. split_and!; [done|done|]. intros config c Hr. destruct (Hok config c Hr) as (Hres & Hsize & Hdisk & Hrest). split_and!; [done|exact Hdisk|].
  intros Hhead source ops Hops. destruct (Hrest Hhead) as (bounds & Hc). destruct (Hc source) as [Hcok Hfa].
  destruct (run_clients_ok memory_scorer disk_scorer _ Hsize bounds [] source ops c Hcok Hfa Hops) as (c' & rs & Hrun' & _ & _ & Hall & _). by exists c', rs.
Qed.

Definition ram_open (dir name : string) (c : Z) : outcome (result DataFileError RamFile) := Done (Ok (mkRamFile c (λ _, Byte.x00) [])).
Definition sample_builder : CacheBuilder := set_memory_capacity 1000 builder.

Lemma ram_opens dir name : let _ := sum_hasher in OpensDataFiles (ram_open dir name).
Proof.
  intros hash. assert (Hh : @HasherOk hash) by apply sum_hasher_ok. constructor.
  - discriminate.
  - intros c f [= <-]. reflexivity.
  - intros c f i [= <-] b k r Hk Hin. cbn [contents ram_file ram_contents] in Hin. exfalso. exact (zero_chunk_at k r Hin).
Qed.

(** ** On the file system *)

(** [DataFile::open_with_io_queues] as the function [open_cache] is given. *)
Definition open_on `{PathResolver} (fs : FileSystem) (shared_queues : bool) (a : FileAnswers) (dir name : string) (c : Z) : outcome (result DataFileError DataFile) :=
  '(_, r) ← open_with_io_queues dir name c shared_queues a fs; Done r.

(** A file that did not exist is all zeros. *)
Lemma open_on_new `{PathResolverOk} fs q a dir name c f :
  valid_file_name name → nodes fs !! file_id (path_join dir name) = None → open_on fs q a dir name c = Done (Ok f) →
  capacity f = c ∧ ∀ i, contents f i = Byte.x00.
Proof.
  intros Hn Hnew. unfold open_on. destruct (open_with_io_queues_spec dir name c q a fs Hn) as (fs' & r & -> & Hres). intros [= ->].
  destruct Hres as (cl & node & (-> & _ & _ & _ & _ & _ & Hnode & _) & Hnode' & Hcap & Hcont). split; [done|]. intros i. rewrite Hcont.
  unfold claim_data, claim_path in Hnode'. cbn [claim_directory claim_name] in Hnode'. rewrite Hnode, Hnew in Hnode'. injection Hnode' as <-. cbn. by case_decide.
Qed.

Lemma zero_disk_read (d : disk) a n : (∀ i, d i = Byte.x00) → disk_read d a n = disk_read (λ _, Byte.x00) a n.
Proof. intros Hz. apply disk_read_ext. intros i _. apply Hz. Qed.

Lemma blank_file_mismatch `{Hasher} (d : disk) v c : (∀ i, d i = Byte.x00) → header_matches (disk_header d) v c = false.
Proof.
  intros Hz. unfold disk_header. rewrite zero_disk_read by done. unfold header_matches.
  rewrite (bool_decide_eq_false_2 (slice 8 16 _ = FORMAT_TAG)); [done|]. vm_compute. discriminate.
Qed.

Lemma open_on_opens `{PathResolverOk} `{HasherOk} fs q a dir name :
  valid_file_name name → nodes fs !! file_id (path_join dir name) = None → OpensDataFiles (open_on fs q a dir name).
Proof.
  intros Hn Hnew. constructor.
  - intros c. unfold open_on. by destruct (open_with_io_queues_spec dir name c q a fs Hn) as (fs' & r & -> & _).
  - intros c f Hf. by apply (open_on_new _ _ _ _ _ _ _ Hn Hnew Hf).
  - intros c f i Hf b k r Hk Hin. destruct (open_on_new _ _ _ _ _ _ _ Hn Hnew Hf) as [_ Hz]. unfold chunk_at in Hin.
    rewrite (zero_disk_read _ _ _ Hz) in Hin. exfalso. exact (zero_chunk_at k r Hin).
Qed.

(** A data file in its quiet state serves the disk cache without faults. *)
Global Instance data_file_faultless : FaultlessFile DataFile calm.
Proof.
  split.
  - intros f offset n f' r Hc H0 Hrun Hin. destruct (calm_read f offset n Hc H0 Hin) as (f2 & bytes & Hrun2 & Hc2). destruct (read_at_ok f offset n H0) as (f3 & r3 & Hrun3 & _ & _ & Hr3).
    cbn [read_at data_file] in Hrun, Hrun3. rewrite Hrun in Hrun2, Hrun3. injection Hrun2 as -> ->. injection Hrun3 as <- <-. split; [f_equal; by apply Hr3|done].
  - intros f offset len bytes f' r Hc Ho Hl Hb Hrun Hin. destruct (calm_write f offset len (mkBytes (df_input_ptr f) bytes) Hc Ho Hl Hb Hin) as (f2 & Hrun2 & Hc2).
    cbn [write_padded data_file] in Hrun. rewrite Hrun in Hrun2. by injection Hrun2 as -> ->.
  - apply calm_sync.
Qed.

(** Nothing keeps a cache from opening on a new file: there is no disk tier, or the
    disk tier has at least two chunks and the system, the kernel and the allocator
    grant what opening asks for. *)
Definition can_open `{PathResolver} (fs : FileSystem) (a : FileAnswers) (b : CacheBuilder) (allocations : list bool) : Prop :=
  b_disk_capacity b = 0
  ∨ 2 * CHUNK_BYTES ≤ b_disk_capacity b ∧ openable (b_directory b) (b_file_name b) (whole_chunks (b_disk_capacity b)) fs
    ∧ no_faults a ∧ Forall (λ granted, granted = true) allocations.

Lemma new_file_opens `{PathResolverOk} `{HasherOk} `{FxHasher} parse_byte_size fs q a env b allocations config :
  nodes fs !! file_id (path_join (b_directory b) (b_file_name b)) = None → builder_ok b → b_disk_capacity b < 2 ^ 57 →
  resolve_config parse_byte_size env b = Ok config → can_open fs a b allocations →
  ∃ c, open_cache parse_byte_size (open_on fs q a) env b allocations = Done (Ok (config, c)).
Proof.
  intros Hnew Hb Hbig Hres Hcan. unfold open_cache. rewrite Hres. pose proof (resolve_config_spec parse_byte_size env b Hb) as Hspec. rewrite Hres in Hspec. destruct Hb as (_ & Hdisk & Hver & _).
  destruct Hspec as (Hm & Hname & _ & Hs & _ & _ & _ & _ & Heq). injection Heq as En1 En2 Ev Ed Em.
  destruct (memory_cache_shards (cfg_memory_capacity config) ltac:(lia)) as (mem & Hmem & _). rewrite Hmem. cbn [mbind outcome_bind].
  rewrite bool_decide_eq_true_2 by lia. cbn [assert_that mbind outcome_bind]. destruct (Z.eqb_spec (disk_capacity config) 0) as [_|Hzero]; [by eexists|].
  destruct Hcan as [?|(Hcap & Hop & Ha & Hall)]; [congruence|].
  destruct (open_with_io_queues_succeeds _ _ _ q a fs Hname Hop Ha) as (fs' & f & Hrun & Hcalm).
  assert (Hon : open_on fs q a (b_directory b) (b_file_name b) (whole_chunks (b_disk_capacity b)) = Done (Ok f)) by (unfold open_on; by rewrite Hrun).
  destruct (open_on_new _ _ _ _ _ _ _ Hname Hnew Hon) as [Hfc Hz].
  destruct (open_succeeds calm (open_on fs q a (b_directory b) (b_file_name b)) (b_disk_capacity b) (b_payload_version b) (Z.to_nat (cfg_reclaim_sample_size config)) allocations f) as (d & Hopen);
    [done..|lia|done|done|done|done|by apply blank_file_mismatch|]. rewrite En1, En2, Ev, Ed, Hopen. by eexists.
Qed.

(** C3: a new cache works end to end.  With a disk capacity below 2^57 bytes, opening a
    cache on a data file that does not exist yet, through the lock, the file system
    and the io_uring queue, returns a cache or an error and never panics, whatever
    the system, the kernel and the allocator answer.  When the settings are valid and
    nothing that opening asks for is refused, it returns a cache; and a cache it
    returns answers every sequence of requests and background writes as the source
    would. *)
Theorem new_file_serves `{PathResolverOk} `{HasherOk} `{FxHasher} {E}
    parse_byte_size fs q a env b allocations (memory_scorer disk_scorer : RetentionScorer ObjectAccessHistories) :
  nodes fs !! file_id (path_join (b_directory b) (b_file_name b)) = None → builder_ok b → b_disk_capacity b < 2 ^ 57 →
  ∃ r, open_cache parse_byte_size (open_on fs q a) env b allocations = Done r
    ∧ (∀ config, resolve_config parse_byte_size env b = Ok config → can_open fs a b allocations → ∃ c, r = Ok (config, c))
    ∧ ∀ config c, r = Ok (config, c) →
        ∀ source (ops : list (ClientOp E)), Forall (op_ok source) ops →
          ∃ c' rs, run_clients memory_scorer disk_scorer (Z.to_nat (cfg_reclaim_sample_size config)) c ops = Done (c', rs)
            ∧ Forall2 (answer_ok source) ops rs.
Proof.
  intros Hnew Hb Hbig.
  destruct (open_cache_spec (E := E) parse_byte_size (open_on fs q a) env b allocations memory_scorer disk_scorer) as (r & Hrun & _ & Hok); [|done|done|].
  { intros Hn. by apply open_on_opens. }
  exists r. split; [done|]. split.
  { intros config Hres Hcan. destruct (new_file_opens parse_byte_size fs q a env b allocations config Hnew Hb Hbig Hres Hcan) as (c & Hc). rewrite Hrun in Hc. injection Hc as ->. by exists c. }
  intros config c Hr. destruct (Hok config c Hr) as (Hres & _ & Hserve). apply Hserve.
  intros f cap Hf. pose proof (resolve_config_spec parse_byte_size env b Hb) as Hspec. rewrite Hres in Hspec.
  destruct Hspec as (_ & Hname & _ & _ & _ & _ & _ & _ & Heq). injection Heq as En1 En2 _ _ _. rewrite En1, En2 in Hf.
  apply blank_file_mismatch. by apply (open_on_new _ _ _ _ _ _ _ Hname Hnew Hf).
Qed.

(** A cache on a new file of nine chunks that is asked for an object twice. *)
Lemma new_file_serves_witness :
  let _ := textual_resolver in let _ := sum_hasher in let _ : FxHasher := sample_hash in let scorer : RetentionScorer ObjectAccessHistories := λ _ _ _, S754_zero false in
  let b := set_disk_capacity (9 * CHUNK_BYTES + 5) (set_file_name "images" sample_builder) in let source : Z → list byte := λ _, [Byte.x01; Byte.x02] in
  ∃ config c c' rs, open_cache parse_digits (open_on sample_fs false no_answers) ∅ b [] = Done (Ok (config, c))
    ∧ run_clients scorer scorer (Z.to_nat (cfg_reclaim_sample_size config)) c sample_ops = Done (c', rs) ∧ Forall2 (answer_ok source) sample_ops rs.
Proof.
  intros res hash fx scorer b source. assert (Hp : @PathResolverOk res) by apply textual_resolver_ok. assert (Hh : @HasherOk hash) by apply sum_hasher_ok.
  destruct (new_file_serves (E := ()) parse_digits sample_fs false no_answers ∅ b [] scorer scorer) as (r & Hrun & Hopens & Hserves).
  - by vm_compute.
  - unfold builder_ok. cbn. split_and!; try done; by intros v.
  - done.
  - destruct (resolve_config parse_digits ∅ b) as [config|] eqn:Hres; [|exfalso; vm_compute in Hres; discriminate Hres].
    destruct (Hopens config eq_refl) as (c & ->).
    { right. split_and!; [done| |by split_and!|constructor]. constructor; [split; [|done]; repeat split; by vm_compute|done|by apply not_elem_of_empty|intros node Hnode; vm_compute in Hnode; discriminate Hnode..|eexists _, _; repeat split; by vm_compute]. }
    destruct (Hserves config c eq_refl source sample_ops) as (c' & rs & Hclients & Hall); [repeat constructor; by vm_compute|]. exists config, c, c', rs. exact (conj Hrun (conj Hclients Hall)).
Defined.
