(* ===== verification/Service.v ===== *)
(** * Serving across restarts

    The requests and the background work of an open cache ([Cache.run_client]) move
    its disk tier by the steps of [Restart.disk_step].  So a cache that was opened on
    a new file, used while its metadata writes succeeded, and opened again after a
    metadata tick still answers every request as the source would, and finds the
    objects it had written.  A metadata round that fails gives up the pages it was to
    write (see [MetadataWriter]); what a restart finds after one is not covered here. *)

From stdpp Require Import strings.
From S2P Require Import Prelude Codec Errors Paths Disk BTree Allocation PageFormat Metadata MetadataWriter Float64 Retention.
From S2P Require Import Historian EntryIndex Shard Writer DiskCache Recovery Reopen MetadataTick Header Persist Admission Uring File BufferPool MemoryStore Lookup.
From S2P Require Import WriteQueue Trace Open Restart Cache FileOpen Config.

(** ** What requests do to the disk tier *)
Section moves.
Context `{HasherOk} `{StorageFileOk F} `{!PayloadReader F} `{!PayloadReaderOk F} `{FxHasher}.
Context (memory_scorer disk_scorer : RetentionScorer ObjectAccessHistories) (size : nat) {E : Type}.
Implicit Types c : Cache F.

Definition disk_of (c : Cache F) : option (DiskCacheInner F) := (λ qm : WriteQueue F * LookupMetrics, wq_disk qm.1) <$> disk_tier c.
Definition moves (o o' : option (DiskCacheInner F)) : Prop := option_relation (rtc (disk_step (H3 := disk_scorer) size)) (λ _, False) (λ _, False) o o'.

Lemma moves_refl o : moves o o.
Proof. by destruct o as [d|]; cbn; [apply rtc_refl|]. Qed.
Lemma moves_trans o1 o2 o3 : moves o1 o2 → moves o2 o3 → moves o1 o3.
Proof. destruct o1, o2, o3; cbn; try done. intros H12 H23; by etrans. Qed.

Lemma insert_memory_disk c key bytes charge c' b : insert_memory memory_scorer size c key bytes charge = Done (c', b) → disk_tier c' = disk_tier c.
Proof. unfold insert_memory. destruct (memory_insert _ _ _ _ _ _ _) as [[m i]|]; [|done]. by intros [= <- _]. Qed.

Lemma begin_request_disk c key t c' id : begin_request c key t = Done (c', id) → disk_tier c' = disk_tier c.
Proof.
  unfold begin_request. destruct (record_request _ _) as [h|]; [|done]. cbn [mbind outcome_bind]. unfold trace_request_start. cbn [access_trace].
  destruct (access_trace c) as [t0|]; [destruct (send_request_start _ _ _)|]; by intros [= <- _].
Qed.

Lemma end_request_disk c id key o len t c' : end_request c id key o len t = Done c' → disk_tier c' = disk_tier c.
Proof.
  unfold end_request. destruct (front_record _ _ _) as [m|]; [|done]. cbn [mbind outcome_bind]. unfold trace_outcome.
  destruct (access_trace _), id; by intros [= <-].
Qed.

Lemma lookup_tiers_moves c key admission c' o r :
  is_u128 key → lookup_tiers memory_scorer size c key admission = Done (c', o, r) → moves (disk_of c) (disk_of c').
Proof.
  intros Hk. unfold lookup_tiers. destruct (memory_get _ _ _) as [[bytes|]|]; [intros [= <- _ _]; apply moves_refl| |done]. cbn [mbind outcome_bind].
  destruct (disk_tier c) as [[q m]|] eqn:Hd; [|intros [= <- _ _]; apply moves_refl].
  destruct (get_with_fallthrough (wq_disk q) m key (read_id c) (granted admission)) as [[[d m'] hit]|] eqn:Hg; [|done]. cbn [mbind outcome_bind].
  assert (Hstep : disk_step (H3 := disk_scorer) size (wq_disk q) d).
  { eapply (step_op _ _ _ (access_histories c) (OpGet key (read_id c) (granted admission)) m m'); [exact Hk|]. cbn [run_op]. rewrite Hg. done. }
  assert (Hm : ∀ c1, disk_tier c1 = Some (mkWriteQueue d (wq_channel q) (wq_closed q) (wq_held q) (wq_metrics q), m') → moves (disk_of c) (disk_of c1)).
  { intros c1 Hc1. unfold disk_of. rewrite Hd, Hc1. cbn. by apply rtc_once. }
  destruct hit as [[bytes cap]|]; [|intros [= <- _ _]; by apply Hm].
  destruct (insert_memory _ _ _ _ _ _) as [[c2 i]|] eqn:Hi; [|done]. intros [= <- _ _]. apply Hm. by rewrite (insert_memory_disk _ _ _ _ _ _ Hi).
Qed.

Lemma fetch_moves c key admission (callback : result E CallbackValue) now c' o r :
  is_u128 key → fetch memory_scorer size c key admission callback now = Done (c', o, r) → moves (disk_of c) (disk_of c').
Proof.
  intros Hk. unfold fetch. destruct (lookup_tiers memory_scorer size c key admission) as [[[c1 o1] hit]|] eqn:Hl; [|done]. cbn [mbind outcome_bind].
  apply lookup_tiers_moves in Hl; [|done]. destruct hit as [bytes|]; [by intros [= <- _ _]|]. destruct callback as [v|e]; [|by intros [= <- _ _]].
  assert (Hkeep : ∀ c2, disk_of c2 = disk_of c1 → moves (disk_of c) (disk_of c2)) by (by intros c2 ->).
  destruct (disk_tier c1) as [[q m]|] eqn:Hd.
  - destruct (contains (wq_disk q) key) as [covered|]; [|done]. cbn [mbind outcome_bind]. destruct covered.
    + destruct (granted admission); [intros [= <- _ _]; by apply Hkeep|]. destruct (insert_memory _ _ _ _ _ _) as [[c2 i]|] eqn:Hi; [|done].
      intros [= <- _ _]. apply Hkeep. unfold disk_of. by rewrite (insert_memory_disk _ _ _ _ _ _ Hi).
    + destruct (insert_memory _ _ _ _ _ _) as [[c2 i]|] eqn:Hi; [|done]. apply insert_memory_disk in Hi. cbn [mbind outcome_bind]. destruct i; intros [= <- _ _]; apply Hkeep; unfold disk_of.
      * cbn [with_disk disk_tier]. rewrite Hd. cbn. f_equal. unfold enqueue_if_space_available. destruct (wq_closed q); [done|]. by case_bool_decide.
      * cbn [with_front_metrics disk_tier]. by rewrite Hi.
  - destruct (insert_memory _ _ _ _ _ _) as [[c2 i]|] eqn:Hi; [|done]. intros [= <- _ _]. apply Hkeep. unfold disk_of. by rewrite (insert_memory_disk _ _ _ _ _ _ Hi).
Qed.

Lemma on_disk_moves c work c' :
  (∀ q m q', disk_tier c = Some (q, m) → work q = Done q' → moves (Some (wq_disk q)) (Some (wq_disk q'))) →
  on_disk c work = Done c' → moves (disk_of c) (disk_of c').
Proof.
  intros Hwork. unfold on_disk. destruct (disk_tier c) as [[q m]|] eqn:Hd; [|intros [= <-]; apply moves_refl].
  destruct (work q) as [q'|] eqn:Hq; [|done]. intros [= <-]. unfold disk_of. rewrite Hd. by apply (Hwork q m q').
Qed.

(** Whether the metadata writes of a tick succeed, and those of a sequence. *)
Definition tick_succeeds (c : Cache F) (op : ClientOp E) : Prop :=
  op = MetadataTick → ∀ d d' log, disk_of c = Some d → metadata_tick d = Done (d', log) → Forall (λ r, r = Ok ()) log.
Fixpoint ticks_succeed (c : Cache F) (ops : list (ClientOp E)) : Prop :=
  match ops with
  | [] => True
  | op :: ops => tick_succeeds c op ∧ ∀ c' a, run_client memory_scorer disk_scorer size c op = Done (c', a) → ticks_succeed c' ops
  end.

Lemma run_client_moves bounds out source c (op : ClientOp E) c' a :
  cache_ok bounds out c → op_ok source op → tick_succeeds c op → run_client memory_scorer disk_scorer size c op = Done (c', a) → moves (disk_of c) (disk_of c').
Proof.
  intros Hok Hop Htick. destruct op as [key times|key admission callback times| | | |]; cbn [run_client op_ok] in *.
  - unfold cache_get. destruct (begin_request c key times.1) as [[c1 id]|] eqn:Hb; [|done]. cbn [mbind outcome_bind].
    destruct (lookup_tiers memory_scorer size c1 key Permitted) as [[[c2 o] r]|] eqn:Hl; [|done]. cbn [mbind outcome_bind].
    destruct (end_request _ _ _ _ _ _) as [c3|] eqn:He; [|done]. intros [= <- _]. apply begin_request_disk in Hb. apply end_request_disk in He.
    apply lookup_tiers_moves in Hl; [|done]. unfold disk_of in *. by rewrite He, <-Hb.
  - destruct Hop as [Hk _]. unfold get_or_fetch_by_hash. destruct (begin_request c key times.1) as [[c1 id]|] eqn:Hb; [|done]. cbn [mbind outcome_bind].
    destruct (memory_get _ _ _) as [hit|]; [|done]. cbn [mbind outcome_bind]. destruct (match hit with Some _ => _ | None => _ end) as [[[c2 o] r]|] eqn:Hl; [|done]. cbn [mbind outcome_bind].
    destruct (end_request _ _ _ _ _ _) as [c3|] eqn:He; [|done]. intros [= <- _]. apply begin_request_disk in Hb. apply end_request_disk in He.
    assert (Hm : moves (disk_of c1) (disk_of c2)) by (destruct hit; [injection Hl as <- _ _; apply moves_refl|by eapply fetch_moves]). unfold disk_of in *. by rewrite He, <-Hb.
  - destruct (on_disk c _) as [c1|] eqn:Ho; [|done]. intros [= <- _]. eapply on_disk_moves; [|exact Ho]. intros q m q' Hd. cbn beta. destruct (wq_channel q) as [|p rest] eqn:Hch; [intros [= <-]; apply moves_refl|].
    unfold write_queued_next. destruct (finish_queue_wait _ _) as [[g m']|]; [|done]. cbn [mbind outcome_bind]. destruct (unwrap _) as [x|]; [|done]. cbn [mbind outcome_bind].
    destruct (write _ _ _ _ _) as [[d r]|] eqn:Hw; [|done]. cbn [mbind outcome_bind]. destruct (if shard_contains false x (pending_key p) then (wq_held q, drop_guard m' g) else (wq_held q ++ [(pending_key p, g)], m')) as [held m1]. destruct (release_guards _ _ _) as [held2 m2]. intros [= <-]. cbn.
    apply rtc_once. eapply (step_op _ _ _ (access_histories c) (OpWrite (pending_key p) (pending_payload p)) no_lookups no_lookups).
    + assert (Hch' := wo_channel _ _ (co_disk _ _ _ Hok q m Hd)). rewrite Hch in Hch'. by apply Forall_cons in Hch' as [[? _] _].
    + cbn [run_op]. by rewrite Hw.
  - destruct (on_disk c _) as [c1|] eqn:Ho; [|done]. intros [= <- _]. eapply on_disk_moves; [|exact Ho]. intros q m q' Hd. cbn beta. unfold queue_flush.
    destruct (flush _ _ _) as [[d r]|] eqn:Hf; [|done]. cbn [mbind outcome_bind]. destruct (release_guards _ _ _) as [held m1]. intros [= <-]. cbn.
    apply rtc_once. eapply (step_op _ _ _ (access_histories c) OpFlush no_lookups no_lookups); [done|]. cbn [run_op]. by rewrite Hf.
  - destruct (on_disk c _) as [c1|] eqn:Ho; [|done]. intros [= <- _]. eapply on_disk_moves; [|exact Ho]. intros q m q' Hd [= <-]. unfold queue_discard. destruct (release_guards _ _ _) as [held m1]. cbn.
    apply rtc_once. by eapply (step_op _ _ _ (access_histories c) OpDiscard no_lookups no_lookups).
  - destruct (on_disk c _) as [c1|] eqn:Ho; [|done]. intros [= <- _]. eapply on_disk_moves; [|exact Ho]. intros q m q' Hd. cbn beta.
    destruct (metadata_tick (wq_disk q)) as [[d log]|] eqn:Ht; [|done]. intros [= <-]. cbn. apply rtc_once. apply (step_tick _ _ _ log); [done|].
    eapply Htick; [done| |exact Ht]. unfold disk_of. by rewrite Hd.
Qed.

Lemma run_clients_moves bounds out source (Hsize : (0 < size)%nat) (ops : list (ClientOp E)) : ∀ c c' rs,
  cache_ok bounds out c → faithful source c → Forall (op_ok source) ops → ticks_succeed c ops →
  run_clients memory_scorer disk_scorer size c ops = Done (c', rs) → moves (disk_of c) (disk_of c').
Proof.
  induction ops as [|op ops IH]; intros c c' rs Hok Hfa Hops Ht Hrun; cbn [run_clients] in Hrun; [injection Hrun as <- _; apply moves_refl|].
  apply Forall_cons in Hops as [Hop Hops]. destruct Ht as [Ht Hts].
  destruct (run_client_ok memory_scorer disk_scorer size Hsize bounds out source c op Hok Hfa Hop) as (c1 & a & Hrun1 & Hok1 & Hfa1 & _). rewrite Hrun1 in Hrun. cbn [mbind outcome_bind] in Hrun.
  destruct (run_clients _ _ _ c1 ops) as [[c2 rest]|] eqn:Hrest; [|done]. injection Hrun as <- _.
  eapply moves_trans; [by eapply (run_client_moves bounds out source c op)|]. by eapply (IH c1); [| | |eapply Hts|].
Qed.
End moves.

(** ** Opening again *)
Section reopened.
Context `{HasherOk} `{StorageFileOk F} `{!PayloadReader F} `{!PayloadReaderOk F} `{FxHasher}.
Context (parse_byte_size : string → option Z) (env : Environment) (b : CacheBuilder).
Implicit Types open_data_file : string → string → Z → outcome (result DataFileError F).

(** What an opened cache with a disk tier is made of. *)
Lemma open_cache_disk open_data_file allocations config c :
  b_disk_capacity b ≠ 0 → builder_ok b → open_cache parse_byte_size open_data_file env b allocations = Done (Ok (config, c)) →
  resolve_config parse_byte_size env b = Ok config
  ∧ ∃ d, open_disk_cache (open_data_file (b_directory b) (b_file_name b)) (b_disk_capacity b) (b_payload_version b) (Z.to_nat (cfg_reclaim_sample_size config)) allocations = Done (Ok d)
         ∧ disk_of c = Some d.
Proof.
  intros Hz Hb Hopen. pose proof (resolve_config_spec parse_byte_size env b Hb) as Hres. unfold open_cache in Hopen.
  destruct (resolve_config parse_byte_size env b) as [config0|e]; [|done]. destruct Hres as (_ & _ & _ & _ & _ & _ & _ & _ & Heq). injection Heq as En1 En2 Ev Ed _.
  destruct (memory_with_metrics _) as [mem|]; [|done]. cbn [mbind outcome_bind] in Hopen. destruct (assert_that _); [|done]. cbn [mbind outcome_bind] in Hopen.
  rewrite Ed, (proj2 (Z.eqb_neq _ _) Hz), En1, En2, Ev in Hopen.
  destruct (open_disk_cache _ _ _ _ _) as [[d|e]|] eqn:Hd; cbn [mbind outcome_bind] in Hopen; [|done|done]. injection Hopen as <- <-. split; [done|]. by exists d.
Qed.

(** A disk tier that opens to a consistent cache of the source's objects. *)
Lemma open_cache_with open_data_file allocations config bounds source d :
  b_disk_capacity b ≠ 0 → builder_ok b → resolve_config parse_byte_size env b = Ok config →
  open_disk_cache (open_data_file (b_directory b) (b_file_name b)) (b_disk_capacity b) (b_payload_version b) (Z.to_nat (cfg_reclaim_sample_size config)) allocations = Done (Ok d) →
  inner_ok bounds d → (0 < length (shards d))%nat → (∀ k v, view d k = Some v → v = source k) →
  ∃ c, open_cache parse_byte_size open_data_file env b allocations = Done (Ok (config, c)) ∧ disk_of c = Some d ∧ cache_ok bounds [] c ∧ faithful source c.
Proof.
  intros Hz Hb Hres Hopen Hok Hlen Hv. pose proof (resolve_config_spec parse_byte_size env b Hb) as Hspec. rewrite Hres in Hspec.
  destruct Hspec as (Hm & _ & _ & Hs & _ & _ & _ & _ & Heq). injection Heq as En1 En2 Ev Ed Em.
  unfold open_cache. rewrite Hres. destruct (memory_cache_shards (cfg_memory_capacity config) ltac:(lia)) as (mem & Hmem & _ & Hmok & Hmv). rewrite Hmem. cbn [mbind outcome_bind].
  rewrite bool_decide_eq_true_2 by lia. cbn [assert_that mbind outcome_bind]. rewrite Ed, (proj2 (Z.eqb_neq _ _) Hz), En1, En2, Ev, Hopen. cbn [mbind outcome_bind].
  eexists. split; [done|]. split; [done|]. apply (opened_cache_ok source bounds mem (access_count_half_life config) (Some d)); [done|by eapply memory_with_metrics_shards|apply Hmv|].
  intros d' [= <-]. split; [|done]. constructor; cbn [wq_disk wq_channel wq_held wq_metrics]; try done. cbn. lia.
Qed.
End reopened.

(** ** Lifetimes *)
Section lifetimes.
Context `{HasherOk} `{StorageFileOk F} `{!PayloadReader F} `{!PayloadReaderOk F} `{FxHasher} {E : Type}.
Context (memory_scorer disk_scorer : RetentionScorer ObjectAccessHistories).
Context (parse_byte_size : string → option Z) (env : Environment) (b : CacheBuilder) (config : CacheConfig) (source : Z → list byte).
Local Abbreviation cap := (whole_chunks (b_disk_capacity b)).
Local Abbreviation size := (Z.to_nat (cfg_reclaim_sample_size config)).
Local Abbreviation open_with open_data_file allocations := (open_cache parse_byte_size open_data_file env b allocations).

(** The data file of a restart: the bytes the last metadata tick left, and reads
    that succeed. *)
Definition reopens (open_data_file : string → string → Z → outcome (result DataFileError F)) (d : DiskCacheInner F) : Prop :=
  ∃ (R : F → Prop) f, reliable R ∧ open_data_file (b_directory b) (b_file_name b) cap = Done (Ok f) ∧ R f ∧ capacity f = cap ∧ contents f = contents (file d).

(** A cache is opened on a file that is new or of another format, used while its
    metadata writes succeed, and opened again after a successful metadata tick, any
    number of times. *)
Inductive lifetime : Cache F → Prop :=
  | life_begins open_data_file allocations f c :
      open_data_file (b_directory b) (b_file_name b) cap = Done (Ok f) → capacity f = cap → header_matches (disk_header (contents f)) (b_payload_version b) cap = false →
      open_with open_data_file allocations = Done (Ok (config, c)) → lifetime c
  | life_goes_on c (ops : list (ClientOp E)) c' rs :
      lifetime c → Forall (op_ok source) ops → ticks_succeed memory_scorer disk_scorer size c ops →
      run_clients memory_scorer disk_scorer size c ops = Done (c', rs) → lifetime c'
  | life_restarts open_data_file allocations c d d1 log c' :
      lifetime c → disk_of c = Some d → metadata_tick d = Done (d1, log) → Forall (λ r, r = Ok ()) log →
      reopens open_data_file d1 → Forall (λ a, a = true) allocations → open_with open_data_file allocations = Done (Ok (config, c')) → lifetime c'.

Context (Hb : builder_ok b) (Hcap : 2 * CHUNK_BYTES ≤ b_disk_capacity b) (H57 : b_disk_capacity b < 2 ^ 57).

Record in_service (c : Cache F) : Prop := mkInService {
  sv_resolved : resolve_config parse_byte_size env b = Ok config ∧ (0 < size)%nat;
  sv_ok : cache_ok (file_bounds cap) [] c;
  sv_faithful : faithful source c;
  sv_durable : ∃ d, disk_of c = Some d ∧ durable (b_payload_version b) cap (file_bounds cap) d
}.

Lemma some_disk : b_disk_capacity b ≠ 0.
Proof. unfold CHUNK_BYTES in Hcap. lia. Qed.

Lemma resolved_size : resolve_config parse_byte_size env b = Ok config → (0 < size)%nat.
Proof. intros Hres. pose proof (resolve_config_spec parse_byte_size env b Hb) as Hspec. rewrite Hres in Hspec. destruct Hspec as (_ & _ & _ & ? & _). lia. Qed.

(** Opening to a durable disk tier that holds the source's objects. *)
Lemma opened_in_service open_data_file allocations d :
  resolve_config parse_byte_size env b = Ok config →
  open_disk_cache (open_data_file (b_directory b) (b_file_name b)) (b_disk_capacity b) (b_payload_version b) size allocations = Done (Ok d) →
  durable (b_payload_version b) cap (file_bounds cap) d → (∀ k v, view d k = Some v → v = source k) →
  ∃ c, open_with open_data_file allocations = Done (Ok (config, c)) ∧ disk_of c = Some d ∧ in_service c.
Proof.
  intros Hres Hopen Hd Hv. assert (Hlen := durable_length _ _ _ d Hd).
  destruct (open_cache_with parse_byte_size env b open_data_file allocations config (file_bounds cap) source d some_disk Hb Hres Hopen (du_ok _ _ _ _ Hd)) as (c & Hrun & Hdisk & Hok & Hfa);
    [rewrite Hlen; apply (du_bounds _ _ _ _ Hd)|done|]. exists c. split; [done|]. split; [done|]. constructor; [split; [done|by apply resolved_size]|done|done|by exists d].
Qed.

Lemma new_in_service open_data_file allocations f c :
  open_data_file (b_directory b) (b_file_name b) cap = Done (Ok f) → capacity f = cap → header_matches (disk_header (contents f)) (b_payload_version b) cap = false →
  open_with open_data_file allocations = Done (Ok (config, c)) → in_service c.
Proof.
  intros Hf Hfc Hm Hopen. destruct (open_cache_disk parse_byte_size env b _ _ _ _ some_disk Hb Hopen) as (Hres & d & Hd & Hdisk).
  assert (Hver : is_u64 (b_payload_version b)) by (by destruct Hb as (_ & _ & ? & _)).
  destruct (fresh_durable _ _ _ _ _ d f Hcap H57 Hver Hf Hfc Hm Hd) as [Hdur Hnone].
  destruct (opened_in_service _ _ d Hres Hd Hdur) as (c' & Hopen' & _ & Hs); [intros k v; by rewrite Hnone|]. rewrite Hopen in Hopen'. by injection Hopen' as <-.
Qed.

Lemma used_in_service c (ops : list (ClientOp E)) c' rs :
  in_service c → Forall (op_ok source) ops → ticks_succeed memory_scorer disk_scorer size c ops →
  run_clients memory_scorer disk_scorer size c ops = Done (c', rs) → in_service c'.
Proof.
  intros [[Hres Hsize] Hok Hfa (d & Hd & Hdur)] Hops Hticks Hrun.
  destruct (run_clients_ok memory_scorer disk_scorer size Hsize (file_bounds cap) [] source ops c Hok Hfa Hops) as (c1 & rs1 & Hrun1 & Hok1 & Hfa1 & _). rewrite Hrun in Hrun1. injection Hrun1 as <- <-.
  assert (Hm := run_clients_moves memory_scorer disk_scorer size (file_bounds cap) [] source Hsize ops c c' rs Hok Hfa Hops Hticks Hrun). rewrite Hd in Hm.
  destruct (disk_of c') as [d'|] eqn:Hd'; [|done]. cbn in Hm. constructor; [done|done|done|]. exists d'. split; [done|]. by eapply disk_steps_durable.
Qed.

(** A restart opens, and finds what was not buffered. *)
Lemma restart_opens open_data_file allocations c d d1 log :
  in_service c → disk_of c = Some d → metadata_tick d = Done (d1, log) → Forall (λ r, r = Ok ()) log → reopens open_data_file d1 → Forall (λ a, a = true) allocations →
  ∃ c' d', open_with open_data_file allocations = Done (Ok (config, c')) ∧ disk_of c' = Some d' ∧ in_service c' ∧ ∀ key, view d' key = view (discard_pending d1) key.
Proof.
  intros [[Hres Hsize] Hok Hfa (d0 & Hd0 & Hdur)] Hd Htick Hlog (R & f & Hrel & Hf & HR & Hfc & Hcont) Hallocs. rewrite Hd in Hd0. injection Hd0 as <-.
  destruct (rounds_durable _ _ _ _ 0 d d1 log Hdur eq_refl ltac:(lia) Htick Hlog) as [Hd1 Hset].
  destruct (metadata_tick_ok _ d (du_ok _ _ _ _ Hdur)) as (d1' & log' & Htick' & [_ Hv _ _ _]). rewrite Htick in Htick'. injection Htick' as <- <-.
  destruct (reopen_durable R (open_data_file (b_directory b) (b_file_name b)) (b_disk_capacity b) (b_payload_version b) size allocations d1 f Hcap H57 Hsize Hallocs Hd1 Hset Hrel Hf HR Hfc Hcont)
    as (d2 & Hopen & Hd2 & Hview).
  destruct (opened_in_service open_data_file allocations d2 Hres Hopen Hd2) as (c' & Hrun & Hdisk & Hs); [|by exists c', d2].
  intros k v Hk. rewrite Hview in Hk. apply (proj1 (proj2 (discard_ok _ d1 (du_ok _ _ _ _ Hd1)))) in Hk. rewrite Hv in Hk.
  unfold disk_of in Hd. destruct (disk_tier c) as [[q m]|] eqn:Hq; [|done]. injection Hd as <-. by apply (proj1 (fa_disk _ _ Hfa q m Hq)).
Qed.

Lemma lifetime_in_service c : lifetime c → in_service c.
Proof.
  induction 1 as [open_data_file allocations f c Hf Hfc Hm Hopen|c ops c' rs _ IH Hops Ht Hrun|open_data_file allocations c d d1 log c' _ IH Hd Ht Hlog Hro Ha Hopen].
  - by eapply new_in_service.
  - by eapply used_in_service.
  - destruct (restart_opens _ _ _ _ _ _ IH Hd Ht Hlog Hro Ha) as (c2 & d2 & Hopen2 & _ & Hs & _). rewrite Hopen in Hopen2. by injection Hopen2 as <-.
Qed.

(** On a file without faults every tick succeeds. *)
Lemma faultless_ticks `{!FaultlessFile F (λ _, True)} (ops : list (ClientOp E)) : ∀ c, in_service c → Forall (op_ok source) ops → ticks_succeed memory_scorer disk_scorer size c ops.
Proof.
  induction ops as [|op ops IH]; intros c Hs Hops; cbn [ticks_succeed]; [done|]. apply Forall_cons in Hops as [Hop Hops].
  assert (Ht : tick_succeeds c op).
  { intros _ d d' log Hd Htick. destruct Hs as [_ _ _ (d0 & Hd0 & Hdur)]. rewrite Hd in Hd0. injection Hd0 as <-.
    eapply (rounds_succeed (λ _, True) _ _ _ _ 0 d); [exact Hdur| |done|done|exact Htick]. intros j bj Hj.
    destruct (file_bounds_spec cap) as (_ & _ & Hbj & _); [apply (rounded_capacity _ Hcap)|pose proof (rounded_capacity _ Hcap); unfold whole_chunks; lia|]. by destruct (Hbj j bj Hj) as (_ & _ & _ & _ & _ & _ & ?). }
  split; [done|]. intros c' a Hrun. apply IH; [|done]. eapply (used_in_service c [op] c' [a]); [done|by constructor| |].
  - cbn. split; [done|]. done.
  - cbn [run_clients]. rewrite Hrun. done.
Qed.
End lifetimes.

(** C2: restarts do not show, as long as the metadata reaches the disk.  Take a cache of
    at least 2 MiB and less than 2^57 bytes that was opened on a new file, or one of
    another format, has served requests and background work, and was opened again any
    number of times.  Every metadata write up to the last restart succeeded and a
    metadata tick came before each restart; on reopening, reads and buffer
    allocations succeeded.  Payload writes and reads may have failed at any time.
    Then the cache answers every further sequence of requests and background work, now
    also with failing metadata writes, as the source would.  And when a metadata tick
    comes next and succeeds, the cache can be opened again under the same conditions,
    with exactly the objects that were not still in a write buffer. *)
Theorem restarted_cache_serves `{HasherOk} `{StorageFileOk F} `{!PayloadReader F} `{!PayloadReaderOk F} `{FxHasher} {E}
    (memory_scorer disk_scorer : RetentionScorer ObjectAccessHistories) parse_byte_size env b config source (c : Cache F) :
  builder_ok b → 2 * CHUNK_BYTES ≤ b_disk_capacity b → b_disk_capacity b < 2 ^ 57 →
  lifetime (E := E) memory_scorer disk_scorer parse_byte_size env b config source c →
  (∀ ops : list (ClientOp E), Forall (op_ok source) ops →
     ∃ c' rs, run_clients memory_scorer disk_scorer (Z.to_nat (cfg_reclaim_sample_size config)) c ops = Done (c', rs) ∧ Forall2 (answer_ok source) ops rs)
  ∧ ∃ d d1 log, disk_of c = Some d ∧ metadata_tick d = Done (d1, log)
      ∧ (Forall (λ r, r = Ok ()) log → ∀ open_data_file allocations, reopens b open_data_file d1 → Forall (λ a, a = true) allocations →
           ∃ c' d', open_cache parse_byte_size open_data_file env b allocations = Done (Ok (config, c')) ∧ disk_of c' = Some d'
             ∧ ∀ key, view d' key = view (discard_pending d1) key).
Proof.
  intros Hb Hcap H57 Hlife. assert (Hs := lifetime_in_service memory_scorer disk_scorer parse_byte_size env b config source Hb Hcap H57 c Hlife). split.
  - intros ops Hops. destruct (run_clients_ok memory_scorer disk_scorer _ (proj2 (sv_resolved _ _ _ _ _ _ Hs)) _ [] source ops c (sv_ok _ _ _ _ _ _ Hs) (sv_faithful _ _ _ _ _ _ Hs) Hops)
      as (c' & rs & Hrun & _ & _ & Hall & _). by exists c', rs.
  - destruct (sv_durable _ _ _ _ _ _ Hs) as (d & Hd & Hdur). destruct (metadata_tick_ok _ d (du_ok _ _ _ _ Hdur)) as (d1 & log & Htick & _).
    exists d, d1, log. split_and!; [done|done|]. intros Hlog open_data_file allocations Hro Ha.
    destruct (restart_opens parse_byte_size env b config source Hb Hcap H57 open_data_file allocations c d d1 log Hs Hd Htick Hlog Hro Ha) as (c' & d' & ? & ? & _ & ?). by exists c', d'.
Qed.

(** A disk tier of nine chunks on a file in memory, used, and opened again. *)
Definition restart_builder : CacheBuilder := set_payload_version 7 (set_disk_capacity (9 * CHUNK_BYTES) sample_builder).
Definition restart_config : CacheConfig := mkCacheConfig "feuer_cache" "data" 7 (9 * CHUNK_BYTES) 1000 262144 2000000 64.
Definition plain_open (contents : disk) (dir name : string) : Z → outcome (result DataFileError PlainFile) := sample_open contents.
Local Abbreviation sample_source := (λ _ : Z, [Byte.x01; Byte.x02]).

Lemma sample_life :
  let _ := sum_hasher in let _ : FxHasher := sample_hash in let scorer : RetentionScorer ObjectAccessHistories := λ _ _ _, S754_zero false in
  let lived := lifetime (F := PlainFile) (E := ()) scorer scorer parse_digits ∅ restart_builder restart_config sample_source in
  ∃ c1 d d1 log c2, lived c1 ∧ disk_of c1 = Some d ∧ metadata_tick d = Done (d1, log) ∧ Forall (λ r, r = Ok ()) log
    ∧ open_cache parse_digits (plain_open (contents (file d1))) ∅ restart_builder [] = Done (Ok (restart_config, c2)) ∧ lived c2.
Proof.
  intros hash fx scorer lived. assert (Hh : @HasherOk hash) by apply sum_hasher_ok.
  assert (Hb : builder_ok restart_builder) by (unfold builder_ok; cbn; split_and!; try done; by intros v).
  assert (Hcap : 2 * CHUNK_BYTES ≤ b_disk_capacity restart_builder) by done. assert (H57 : b_disk_capacity restart_builder < 2 ^ 57) by done.
  assert (Hres : resolve_config parse_digits ∅ restart_builder = Ok restart_config) by (by vm_compute).
  assert (Hops : Forall (op_ok sample_source) sample_ops) by (repeat constructor; by vm_compute).
  destruct sample_opened as (d0 & Hopen). fold hash in Hopen.
  destruct (fresh_durable (sample_open (λ _, Byte.x00)) (9 * CHUNK_BYTES) 7 64 [] d0 (mkPlainFile (whole_chunks (9 * CHUNK_BYTES)) (λ _, Byte.x00)))
    as [Hd0 Hnone]; [exact Hcap|exact H57|unfold is_u64; lia|reflexivity|reflexivity|apply zero_header_mismatch|exact Hopen|].
  destruct (opened_in_service parse_digits ∅ restart_builder restart_config sample_source Hb Hcap (plain_open (λ _, Byte.x00)) [] d0 Hres Hopen Hd0) as (c0 & Hrun0 & _ & Hs0); [intros k v; by rewrite Hnone|].
  assert (L0 : lifetime (E := ()) scorer scorer parse_digits ∅ restart_builder restart_config sample_source c0).
  { eapply (life_begins _ _ _ _ _ _ _ (plain_open (λ _, Byte.x00)) []); [reflexivity|reflexivity|apply zero_header_mismatch|exact Hrun0]. }
  destruct (run_clients_ok scorer scorer _ (proj2 (sv_resolved _ _ _ _ _ _ Hs0)) _ [] sample_source sample_ops c0 (sv_ok _ _ _ _ _ _ Hs0) (sv_faithful _ _ _ _ _ _ Hs0) Hops) as (c1 & rs & Hrun1 & _).
  assert (L1 : lifetime (E := ()) scorer scorer parse_digits ∅ restart_builder restart_config sample_source c1).
  { eapply (life_goes_on _ _ _ _ _ _ _ c0 sample_ops); [exact L0|exact Hops| |exact Hrun1]. exact (faultless_ticks scorer scorer _ _ _ _ _ Hcap H57 sample_ops c0 Hs0 Hops). }
  assert (Hs1 := lifetime_in_service _ _ _ _ _ _ _ Hb Hcap H57 c1 L1). destruct (sv_durable _ _ _ _ _ _ Hs1) as (d & Hd & Hdur).
  destruct (metadata_tick_ok _ d (du_ok _ _ _ _ Hdur)) as (d1 & log & Htick & _).
  assert (Hlog : Forall (λ r, r = Ok ()) log).
  { destruct (faultless_ticks scorer scorer parse_digits ∅ restart_builder restart_config sample_source Hcap H57 [MetadataTick (E := ())] c1 Hs1) as [Ht _]; [by repeat constructor|].
    exact (Ht eq_refl d d1 log Hd Htick). }
  assert (Hro : reopens restart_builder (plain_open (contents (file d1))) d1).
  { exists (λ _, True), (mkPlainFile (whole_chunks (b_disk_capacity restart_builder)) (contents (file d1))). split_and!; [exact (faultless_reliable (λ _, True))|reflexivity|exact I|reflexivity|reflexivity]. }
  destruct (restart_opens _ _ _ _ _ Hb Hcap H57 _ [] c1 d d1 log Hs1 Hd Htick Hlog Hro ltac:(constructor)) as (c2 & d2 & Hrun2 & _).
  exists c1, d, d1, log, c2. split_and!; [exact L1|exact Hd|exact Htick|exact Hlog|exact Hrun2|].
  eapply (life_restarts _ _ _ _ _ _ _ (plain_open (contents (file d1))) [] c1 d d1 log); [exact L1|exact Hd|exact Htick|exact Hlog|exact Hro|constructor|exact Hrun2].
Qed.

Lemma restarted_cache_serves_witness :
  let _ := sum_hasher in let _ : FxHasher := sample_hash in let scorer : RetentionScorer ObjectAccessHistories := λ _ _ _, S754_zero false in
  let lived := lifetime (F := PlainFile) (E := ()) scorer scorer parse_digits ∅ restart_builder restart_config sample_source in
  ∃ c1 d d1 log c2 c3 rs, lived c1 ∧ disk_of c1 = Some d ∧ metadata_tick d = Done (d1, log) ∧ Forall (λ r, r = Ok ()) log
    ∧ open_cache parse_digits (plain_open (contents (file d1))) ∅ restart_builder [] = Done (Ok (restart_config, c2)) ∧ lived c2
    ∧ run_clients scorer scorer 64 c2 sample_ops = Done (c3, rs) ∧ Forall2 (answer_ok sample_source) sample_ops rs.
Proof.
  intros hash fx scorer lived. assert (Hh : @HasherOk hash) by apply sum_hasher_ok.
  destruct sample_life as (c1 & d & d1 & log & c2 & L1 & Hd & Htick & Hlog & Hopen & L2). fold hash fx scorer in L1, Htick, Hopen, L2. fold lived in L1, L2.
  destruct (restarted_cache_serves (E := ()) scorer scorer parse_digits ∅ restart_builder restart_config sample_source c2) as [Hserve _].
  - unfold builder_ok. cbn. split_and!; try done; by intros v.
  - cbn [restart_builder b_disk_capacity set_payload_version set_disk_capacity]. unfold CHUNK_BYTES. lia.
  - cbn [restart_builder b_disk_capacity set_payload_version set_disk_capacity]. unfold CHUNK_BYTES. lia.
  - exact L2.
  - destruct (Hserve sample_ops) as (c3 & rs & Hrun & Hall); [repeat constructor; by vm_compute|].
    exists c1, d, d1, log, c2, c3, rs. exact (conj L1 (conj Hd (conj Htick (conj Hlog (conj Hopen (conj L2 (conj Hrun Hall))))))).
Defined.
