(* ===== verification/ReplayCache.v ===== *)
(** * The lookups of a replay (the closure of [replay] in
    [feuer-replay/src/bin/replay.rs])

    Each request of a loaded trace is fetched through the cache; the source callback
    allocates a buffer of the recorded length and fills it with zeros.  The lookup
    asserts that it got an object of that length.  A lookup is one step on the cache, as
    in Cache.v; ReplayLoop.v interleaves them. *)

From stdpp Require Import strings pretty.
From S2P Require Import Prelude Codec Errors Paths Disk BTree Allocation PageFormat Metadata Float64 Retention.
From S2P Require Import Historian EntryIndex Shard Writer DiskCache Recovery Admission Uring File BufferPool MemoryStore Lookup.
From S2P Require Import WriteQueue Trace TraceFiles Replay Cache.

(** [RequestTimings] *)
Record RequestTimings := mkRequestTimings { timing_index : nat; sender_lateness_ns : Z; queue_wait_ns : Z; service_ns : Z }.

(** A request that was sent and received, with the capacity of the buffer its
    download would get, and the readings of the clock. *)
Record Arrival := mkArrival {
  arrival_index : nat;
  arrival_request : Request;
  sent_at : Z;
  started_at : Z;
  finished_at : Z;
  buffer_answer : option Z
}.

(** What [SyntheticDownloads::download] hands to the cache. *)
Definition download_answer (payload_len : Z) (capacity : option Z) : result io_error CallbackValue :=
  match capacity with
  | Some capacity => Ok (FromBuffer (zeros (Z.to_nat payload_len)) capacity)
  | None => Err AllocationFailed
  end.

Section replay.
Context `{Hasher} `{PayloadReader F} `{FxHasher} (memory_scorer : RetentionScorer ObjectAccessHistories) (reclaim_sample_size : nat).
(** [ObjectKeyHash::from]: XXH3-128 of the name. *)
Context (key_hash : string → Z) (origin : Z).

(** The timings of a lookup that returned. *)
Definition arrival_timings (a : Arrival) : RequestTimings :=
  mkRequestTimings (arrival_index a)
    (u64_wrap (saturating_sub (sent_at a) (origin + req_time_ns (arrival_request a))))
    (u64_wrap (saturating_sub (started_at a) (sent_at a)))
    (u64_wrap (saturating_sub (finished_at a) (started_at a))).

(** The future of one lookup, with the counter [completed]. *)
Definition replay_lookup (c : Cache F) (completed : Z) (a : Arrival) : outcome (Cache F * Z * result io_error RequestTimings) :=
  let request := arrival_request a in
  '(c, r) ← get_or_fetch memory_scorer reclaim_sample_size key_hash c (req_object_key request)
              (download_answer (req_payload_len request) (buffer_answer a)) (started_at a, finished_at a);
  match r with
  | Err e => Done (c, completed, Err e)
  | Ok bytes =>
      _ ← assert_that (Z.of_nat (length bytes) =? req_payload_len request);
      Done (c, completed + 1, Ok (arrival_timings a))
  end.
End replay.

(** ** The objects of a trace *)

(** Widths of a decoded event. *)
Definition event_wf (e : Event) : Prop :=
  0 ≤ event_kind e ≤ 5 ∧ 0 ≤ object_key e ∧ ∀ l, payload_len e = Some l → 0 ≤ l.

Lemma decode_event_wf bytes e : decode_event bytes = Ok e → event_wf e.
Proof.
  unfold decode_event. set (kind := byte.unsigned _). assert (Hk : 0 ≤ kind) by apply byte.unsigned_range.
  destruct (Z.ltb_spec 5 kind); [done|]. destruct (_ && _); [done|]. intros [= <-]. split_and!; cbn [event_kind object_key payload_len]; [lia|lia| |].
  - apply (from_le_slice 17 33 bytes 16). lia.
  - intros l. destruct (has_payload_length kind); [|done]. intros [= <-]. apply (from_le_slice 33 41 bytes 8). lia.
Qed.

Lemma read_package_wf contents e : Ok e ∈ read_package contents → event_wf e.
Proof.
  destruct contents as [package|message]; cbn [read_package]; [|by intros ?%list_elem_of_singleton].
  unfold decode_package. destruct (negb _); [by intros ?%list_elem_of_singleton|]. destruct (_ || _); [by intros ?%list_elem_of_singleton|].
  intros (bytes & Hdec & _)%list_elem_of_fmap. by apply (decode_event_wf bytes).
Qed.

Lemma visit_entries_wf entries : ∀ seen evs e, visit_entries seen entries = Done evs → Ok e ∈ evs → event_wf e.
Proof.
  induction entries as [|[entry|message] entries IH]; intros seen evs e; cbn [visit_entries].
  - destruct seen; intros [= <-]; [by intros ?%elem_of_nil|by intros ?%list_elem_of_singleton].
  - destruct (entry_path entry) as [name|message]; [|intros [= <-]; by intros ?%list_elem_of_singleton]. case_bool_decide; [|by apply IH].
    destruct (negb _); [intros [= <-]; by intros ?%list_elem_of_singleton|]. destruct (parent name) as [dir|]; [|done]. cbn [unwrap mbind outcome_bind].
    destruct (match seen with Some d => _ | None => _ end); [intros [= <-]; by intros ?%list_elem_of_singleton|].
    destruct (visit_entries (Some dir) entries) as [rest|] eqn:Hrest; [|done]. cbn [mbind outcome_bind]. intros [= <-] [Hin|Hin]%elem_of_app; [by eapply read_package_wf|by eapply IH].
  - intros [= <-]. by intros ?%list_elem_of_singleton.
Qed.

Lemma visit_events_wf archive_entries path file evs e : visit_events archive_entries path file = Done evs → Ok e ∈ evs → event_wf e.
Proof.
  unfold visit_events. destruct file as [bytes|message]; [|intros [= <-]; by intros ?%list_elem_of_singleton].
  case_bool_decide; [intros [= <-]; apply (read_package_wf (Ok bytes))|]. destruct (negb _); [intros [= <-]; by intros ?%list_elem_of_singleton|].
  destruct (archive_entries bytes); [apply visit_entries_wf|intros [= <-]; by intros ?%list_elem_of_singleton].
Qed.

(** Events without an error. *)
Lemma all_ok_events (evs : list (result TraceError Event)) : Forall (λ r, is_ok r = true) evs → ∃ es, evs = Ok <$> es.
Proof.
  induction 1 as [|[e|] evs He _ [es ->]]; [by exists []| |done]. by exists (e :: es).
Qed.

(** In a loaded trace an object has one length. *)
Lemma loaded_lengths archive_entries path file seconds t :
  load_requests_from archive_entries path file seconds = Done (Ok t) →
  requests t ≠ [] ∧ (∀ r, r ∈ requests t → 0 ≤ req_payload_len r)
  ∧ ∀ r1 r2, r1 ∈ requests t → r2 ∈ requests t → req_object_key r1 = req_object_key r2 → req_payload_len r1 = req_payload_len r2.
Proof.
  unfold load_requests_from. destruct (visit_events archive_entries path file) as [evs|] eqn:Hv; [|done]. cbn [mbind outcome_bind]. intros Hload.
  destruct (decide (Forall (λ r, is_ok r = true) evs)) as [Hok|Hbad]; [|destruct (load_requests_error evs seconds Hbad); congruence].
  apply all_ok_events in Hok as [es ->].
  assert (Hwf : ∀ e, e ∈ es → event_wf e) by (intros e He; eapply visit_events_wf; [exact Hv|]; apply list_elem_of_fmap; by exists e).
  destruct (load_requests_spec es seconds) as (r & Hrun & Hspec); [apply Forall_forall; intros e He; apply (Hwf e He)|].
  rewrite Hload in Hrun. injection Hrun as <-. destruct (Hspec t eq_refl) as (prefix_ns & len & _ & Hload' & Hperm & _ & _ & Hseen & _). assert (Hne := ld_some _ _ Hload').
  assert (Hsel : ∀ e, e ∈ selected prefix_ns es → e ∈ es) by (intros e [_ He]%list_elem_of_filter; done). split_and!.
  - intros Hnil. rewrite Hnil in Hperm. apply Permutation_nil in Hperm. by apply fmap_nil_inv in Hperm.
  - intros r. rewrite Hperm. intros (e & -> & He)%list_elem_of_fmap. cbn [req_payload_len].
    destruct (Hseen e He) as (e' & He' & _ & Hl). by apply (Hwf e' He').
  - intros r1 r2. rewrite Hperm. intros (e1 & -> & H1)%list_elem_of_fmap (e2 & -> & H2)%list_elem_of_fmap. cbn [req_object_key req_payload_len].
    intros Hkey%(inj pretty). assert (0 ≤ object_key e1 ∧ 0 ≤ object_key e2) by (split; apply Hwf; by apply Hsel). f_equal. lia.
Qed.

(** ** The lookups are served *)
Section replay_lemmas.
Context `{HasherOk} `{StorageFileOk F} `{!PayloadReader F} `{!PayloadReaderOk F} `{FxHasher}.
Context (memory_scorer : RetentionScorer ObjectAccessHistories) (size : nat) (Hsize : (0 < size)%nat).
Context (bounds : list (Z * Z)) (out : list AlignedBuffer) (key_hash : string → Z) (origin : Z).
Context (rs : list Request).

(** The object of a hash: as many zeros as the first request for it recorded. *)
Definition synthetic_object (k : Z) : list byte :=
  match list_find (λ r, key_hash (req_object_key r) = k) rs with
  | Some (_, r) => zeros (Z.to_nat (req_payload_len r))
  | None => []
  end.

(** An arrival of the trace; an allocated buffer holds the object. *)
Definition arrival_ok (a : Arrival) : Prop :=
  arrival_request a ∈ rs ∧ ∀ capacity, buffer_answer a = Some capacity → req_payload_len (arrival_request a) ≤ capacity.
(** A lookup returns its timings, or fails because its buffer was not allocated. *)
Definition replay_answer_ok (a : Arrival) (r : result io_error RequestTimings) : Prop :=
  r = Ok (arrival_timings origin a) ∨ (buffer_answer a = None ∧ r = Err AllocationFailed).

Context (Hhash : ∀ r, r ∈ rs → is_u128 (key_hash (req_object_key r))).
Context (Hinj : ∀ r1 r2, r1 ∈ rs → r2 ∈ rs → key_hash (req_object_key r1) = key_hash (req_object_key r2) → req_object_key r1 = req_object_key r2).
Context (Hlen : ∀ r, r ∈ rs → 0 ≤ req_payload_len r).
Context (Hsame : ∀ r1 r2, r1 ∈ rs → r2 ∈ rs → req_object_key r1 = req_object_key r2 → req_payload_len r1 = req_payload_len r2).

Lemma synthetic_object_of r : r ∈ rs → synthetic_object (key_hash (req_object_key r)) = zeros (Z.to_nat (req_payload_len r)).
Proof.
  intros Hr. unfold synthetic_object. destruct (list_find _ rs) as [[i r']|] eqn:Hf.
  - apply list_find_Some in Hf as (Hi & Hk & _). apply list_elem_of_lookup_2 in Hi. do 2 f_equal. by apply Hsame, Hinj.
  - apply list_find_None in Hf. rewrite Forall_forall in Hf. by destruct (Hf r Hr).
Qed.

Lemma download_ok a : arrival_ok a →
  callback_ok synthetic_object (key_hash (req_object_key (arrival_request a))) (download_answer (req_payload_len (arrival_request a)) (buffer_answer a)).
Proof.
  intros [Hr Hcap]. unfold download_answer. destruct (buffer_answer a) as [capacity|]; [|done].
  cbn [callback_ok into_charge charged_bytes memory_charge]. rewrite synthetic_object_of by done. split; [done|].
  unfold zeros. rewrite length_replicate. specialize (Hcap _ eq_refl). specialize (Hlen _ Hr). lia.
Qed.

Lemma replay_lookup_ok (c : Cache F) completed a :
  cache_ok bounds out c → faithful synthetic_object c → arrival_ok a →
  ∃ c' r, replay_lookup memory_scorer size key_hash origin c completed a = Done (c', if is_ok r then completed + 1 else completed, r)
    ∧ cache_ok bounds out c' ∧ faithful synthetic_object c' ∧ replay_answer_ok a r.
Proof.
  intros Hok Hfa Ha. unfold replay_lookup, get_or_fetch, get_or_fetch_with_disk_fallthrough. assert (Hr := proj1 Ha).
  destruct (client_fetch_ok memory_scorer size Hsize bounds out synthetic_object c (key_hash (req_object_key (arrival_request a))) Permitted
              (download_answer (req_payload_len (arrival_request a)) (buffer_answer a)) (started_at a, finished_at a) Hok Hfa (Hhash _ Hr) (download_ok a Ha))
    as (c' & r & Hrun & Hok' & Hfa' & Hans & _). rewrite Hrun. cbn [mbind outcome_bind].
  destruct Hans as [->|(e & Hcb & ->)].
  - rewrite synthetic_object_of by done. unfold zeros. rewrite length_replicate, Z2Nat.id, Z.eqb_refl by auto. cbn [assert_that mbind outcome_bind].
    eexists c', (Ok _). split_and!; [done|done|done|by left].
  - eexists c', (Err e). split_and!; [done|done|done|right].
    unfold download_answer in Hcb. destruct (buffer_answer a); [done|]. by injection Hcb as <-.
Qed.
End replay_lemmas.

(** A request of the archived trace of TraceFiles.v. *)
Definition sample_request : Request := mkRequest 1 0 "9" 10.
