(* ===== verification/ReplayLoop.v ===== *)
(** * The run of a replay ([send_arrivals] and [run_lookups] on the closure of
    [replay] in [feuer-replay/src/bin/replay.rs])

    The sender, the receiver and the tasks of Replay.v, with the lookups of
    ReplayCache.v and the background work of the cache.  Which of the enabled moves
    comes next, the background work before it, the readings of the clocks and the
    allocations are an arbitrary schedule from outside.  Every move brings the run
    closer to its end, so the loop below ends within its fuel under every schedule. *)

From stdpp Require Import strings.
From S2P Require Import Prelude Codec Errors Paths Disk BTree Allocation PageFormat Metadata Float64 Retention.
From S2P Require Import Historian EntryIndex Shard Writer DiskCache Recovery Admission Uring File BufferPool MemoryStore Lookup.
From S2P Require Import WriteQueue Trace TraceFiles Replay Cache ReplayCache.

(** ** Moves *)

(** The steps of [Replay.run_step]; [k] is a task's position in the set. *)
Inductive RunMove :=
  | MoveSend | MoveHangUp | MoveReceive | MoveDrained | MoveClosed | MoveReturn
  | MoveCollect (k : nat) | MoveStart (k : nat) | MoveFinish (k : nat).

(** A move, if it is enabled; [ok] is how the lookup of [MoveFinish] ended. *)
Definition apply_move (s : LookupRun) (m : RunMove) (ok : bool) : option LookupRun :=
  let '(mkLookupRun snd open ch ts tm q a p) := s in
  if returned p then None else
  match m with
  | MoveSend => match snd with i :: rest => Some (mkLookupRun rest open (ch ++ [i]) ts tm (q + 1) a p) | [] => None end
  | MoveHangUp => match snd, open with [], true => Some (mkLookupRun [] false ch ts tm q a p) | _, _ => None end
  | MoveReceive =>
      match p, ch with
      | Receiving, i :: ch => Some (mkLookupRun snd open ch (ts ++ [mkLookupTask i Spawned]) tm q a Draining)
      | _, _ => None
      end
  | MoveDrained =>
      match p with
      | Draining => if existsb is_finished ts then None else Some (mkLookupRun snd open ch ts tm q a Receiving)
      | _ => None
      end
  | MoveClosed =>
      match p, snd, open, ch with
      | Receiving, [], false, [] => Some (mkLookupRun [] false [] ts tm q a Joining)
      | _, _, _, _ => None
      end
  | MoveReturn => match p, ts with Joining, [] => Some (mkLookupRun snd open ch [] tm q a (Returned true)) | _, _ => None end
  | MoveCollect k =>
      if collecting p then
        match ts !! k with
        | Some (mkLookupTask i (Finished ok)) => Some (collect s (delete k ts) i ok)
        | _ => None
        end
      else None
  | MoveStart k =>
      match ts !! k with
      | Some (mkLookupTask i Spawned) => Some (mkLookupRun snd open ch (<[k := mkLookupTask i Running]> ts) tm (q - 1) (a + 1) p)
      | _ => None
      end
  | MoveFinish k =>
      match ts !! k with
      | Some (mkLookupTask i Running) => Some (mkLookupRun snd open ch (<[k := mkLookupTask i (Finished ok)]> ts) tm q (a - 1) p)
      | _ => None
      end
  end.

Definition candidate_moves (s : LookupRun) : list RunMove :=
  let positions := seq 0 (length (run_tasks s)) in
  [MoveSend; MoveHangUp; MoveReceive; MoveDrained; MoveClosed; MoveReturn] ++ (MoveCollect <$> positions) ++ (MoveStart <$> positions) ++ (MoveFinish <$> positions).
Definition enabled_moves (s : LookupRun) : list RunMove := filter (λ m, is_Some (apply_move s m true)) (candidate_moves s).

(** ** The run *)

(** What the system decides: the next move and the background work before it, the
    readings of the sender's clock and how many of them it takes to pass all
    deadlines, and of each lookup the start, the end and the buffer's capacity. *)
Record Schedule := mkSchedule {
  sc_choice : nat → nat;
  sc_background : nat → list (ClientOp io_error);
  sc_clock : nat → Z;
  sc_waits : nat;
  sc_started : nat → Z;
  sc_finished : nat → Z;
  sc_buffers : nat → option Z
}.

(** The requests as the lookups see them; [sent] are the sender's messages. *)
Definition arrivals_of (sc : Schedule) (rs : list Request) (sent : list (nat * Z)) : list Arrival :=
  imap (λ i rm, mkArrival i rm.1 rm.2.2 (sc_started sc i) (sc_finished sc i) (sc_buffers sc i)) (zip rs sent).

(** The tasks with the cache, the counter, what the lookups returned, and what was
    collected: the timings, or the first error. *)
Record LoopState (F : Type) := mkLoopState {
  loop_run : LookupRun;
  loop_cache : Cache F;
  loop_completed : Z;
  loop_results : gmap nat (result io_error RequestTimings);
  loop_timings : list RequestTimings;
  loop_error : option io_error
}.
Arguments mkLoopState {F} _ _ _ _ _ _.
Arguments loop_run {F} _.
Arguments loop_cache {F} _.
Arguments loop_completed {F} _.
Arguments loop_results {F} _.
Arguments loop_timings {F} _.
Arguments loop_error {F} _.

Section loop.
Context `{Hasher} `{PayloadReader F} `{FxHasher} (memory_scorer disk_scorer : RetentionScorer ObjectAccessHistories) (reclaim_sample_size : nat).
Context (key_hash : string → Z) (origin : Z) (sc : Schedule).

(** One move; a task that ends looks its request up, and one that is collected hands
    over what it returned. *)
Definition loop_move (arrivals : list Arrival) (s : LoopState F) (m : RunMove) : outcome (LoopState F) :=
  match m with
  | MoveFinish k =>
      task ← unwrap (run_tasks (loop_run s) !! k);
      a ← unwrap (arrivals !! task_index task);
      '(c, completed, r) ← replay_lookup memory_scorer reclaim_sample_size key_hash origin (loop_cache s) (loop_completed s) a;
      run ← unwrap (apply_move (loop_run s) m (is_ok r));
      Done (mkLoopState run c completed (<[task_index task := r]> (loop_results s)) (loop_timings s) (loop_error s))
  | MoveCollect k =>
      task ← unwrap (run_tasks (loop_run s) !! k);
      r ← unwrap (loop_results s !! task_index task);
      run ← unwrap (apply_move (loop_run s) m true);
      Done match r with
           | Ok t => mkLoopState run (loop_cache s) (loop_completed s) (loop_results s) (loop_timings s ++ [t]) (loop_error s)
           | Err e => mkLoopState run (loop_cache s) (loop_completed s) (loop_results s) (loop_timings s) (Some e)
           end
  | _ =>
      run ← unwrap (apply_move (loop_run s) m true);
      Done (mkLoopState run (loop_cache s) (loop_completed s) (loop_results s) (loop_timings s) (loop_error s))
  end.

Definition with_cache (c : Cache F) (s : LoopState F) : LoopState F :=
  mkLoopState (loop_run s) c (loop_completed s) (loop_results s) (loop_timings s) (loop_error s).

(** Moves until the run returns; running out of [fuel] is not an outcome of the source. *)
Fixpoint run_loop (fuel : nat) (arrivals : list Arrival) (step : nat) (s : LoopState F) : outcome (LoopState F) :=
  match fuel with
  | O => Panic
  | S fuel =>
      if returned (run_phase (loop_run s)) then Done s
      else
        '(c, _) ← run_clients memory_scorer disk_scorer reclaim_sample_size (loop_cache s) (sc_background sc step);
        let moves := enabled_moves (loop_run s) in
        m ← unwrap (moves !! (sc_choice sc step mod length moves)%nat);
        s ← loop_move arrivals (with_cache c s) m;
        run_loop fuel arrivals (S step) s
  end.

(** The sender's thread and [run_lookups]: the cache, the counter, and the timings in
    the order of their collection. *)
Definition run_lookups (c : Cache F) (completed : Z) (rs : list Request) : outcome (Cache F * Z * result io_error (list RequestTimings)) :=
  '(sent, _) ← send_arrivals (S (sc_waits sc)) (sc_clock sc) 0 origin 0 rs 0;
  let start := start_run (length rs) in
  s ← run_loop (S (Z.to_nat (run_measure start))) (arrivals_of sc rs sent) 0 (mkLoopState start c completed ∅ [] None);
  Done (loop_cache s, loop_completed s, match loop_error s with Some e => Err e | None => Ok (loop_timings s) end).
End loop.

(** ** Moves are steps *)
Section moves.
Context (lookup_may : nat → bool → Prop).

Lemma apply_move_step s m ok s' :
  apply_move s m ok = Some s' → (∀ k i, m = MoveFinish k → run_tasks s !! k = Some (mkLookupTask i Running) → lookup_may i ok) →
  run_step lookup_may s s'.
Proof.
  destruct s as [snd open ch ts tm q a p]. unfold apply_move. destruct (returned p) eqn:Hp; [done|]. run_fields.
  destruct m as [| | | | | |k|k|k]; intros Hm Hmay.
  - destruct snd as [|i rest]; [done|]. injection Hm as <-. by apply run_send.
  - destruct snd, open; try done. injection Hm as <-. by apply run_hang_up.
  - destruct p, ch as [|i ch]; try done. injection Hm as <-. apply run_receive.
  - destruct p; try done. destruct (existsb is_finished ts) eqn:Hf; [done|]. injection Hm as <-. by apply run_drained.
  - destruct p, snd, open, ch; try done. injection Hm as <-. apply run_channel_closed.
  - destruct p, ts; try done. injection Hm as <-. apply run_return.
  - destruct (collecting p) eqn:Hc; [|done]. destruct (ts !! k) as [[i [| |ok']]|] eqn:Hk; try done. injection Hm as <-.
    rewrite delete_take_drop. assert (Hts := take_drop_middle ts k _ Hk). revert Hts. generalize (take k ts) (drop (S k) ts). intros ts1 ts2 <-. by apply run_collect.
  - destruct (ts !! k) as [[i [| |ok']]|] eqn:Hk; try done. injection Hm as <-. rewrite insert_take_drop by (by eapply lookup_lt_Some).
    rewrite <-(take_drop_middle ts k _ Hk) at 1. by apply task_start.
  - destruct (ts !! k) as [[i [| |ok']]|] eqn:Hk; try done. injection Hm as <-. rewrite insert_take_drop by (by eapply lookup_lt_Some).
    rewrite <-(take_drop_middle ts k _ Hk) at 1. apply task_finish; [done|]. by apply (Hmay k).
Qed.

(** A run with a step has an enabled move. *)
Lemma enabled_of_step s s' : run_step lookup_may s s' → enabled_moves s ≠ [].
Proof.
  intros Hstep Hnil.
  assert (Hno : ∀ m, m ∈ candidate_moves s → apply_move s m true = None).
  { intros m Hm. apply eq_None_not_Some. intros Hs. assert (Hin : m ∈ enabled_moves s) by (by apply list_elem_of_filter). rewrite Hnil in Hin. by apply elem_of_nil in Hin. }
  assert (Hk : ∀ (f : nat → RunMove) k, f ∈ [MoveCollect; MoveStart; MoveFinish] → (k < length (run_tasks s))%nat → apply_move s (f k) true = None).
  { intros f k Hf Hk. apply Hno. assert (Hin : f k ∈ f <$> seq 0 (length (run_tasks s))) by (apply list_elem_of_fmap_2, elem_of_seq; lia).
    unfold candidate_moves. elem_cases; rewrite !elem_of_app; tauto. }
  assert (Hl : ∀ m, m ∈ [MoveSend; MoveHangUp; MoveReceive; MoveDrained; MoveClosed; MoveReturn] → apply_move s m true = None) by (intros m Hm; apply Hno, elem_of_app; by left).
  destruct Hstep as [i rest op ch ts tm q a p Hp|ch ts tm q a p Hp|snd op i ch ts tm q a|snd op ch ts1 i ok ts2 tm q a p Hp|snd op ch ts tm q a Hdr|ts tm q a|snd op ch tm q a
    |snd op ch ts1 i ts2 tm q a p Hp|snd op ch ts1 i ok ts2 tm q a p Hp Hmay].
  - specialize (Hl MoveSend ltac:(set_solver)). cbn in Hl. by rewrite Hp in Hl.
  - specialize (Hl MoveHangUp ltac:(set_solver)). cbn in Hl. by rewrite Hp in Hl.
  - by specialize (Hl MoveReceive ltac:(set_solver)).
  - specialize (Hk MoveCollect (length ts1) ltac:(set_solver) ltac:(run_fields; rewrite length_app; cbn; lia)). cbn in Hk. rewrite Hp, list_lookup_middle in Hk by done. by destruct p.
  - specialize (Hl MoveDrained ltac:(set_solver)). cbn in Hl. by rewrite Hdr in Hl.
  - by specialize (Hl MoveClosed ltac:(set_solver)).
  - by specialize (Hl MoveReturn ltac:(set_solver)).
  - specialize (Hk MoveStart (length ts1) ltac:(set_solver) ltac:(run_fields; rewrite length_app; cbn; lia)). cbn in Hk. by rewrite Hp, list_lookup_middle in Hk by done.
  - specialize (Hk MoveFinish (length ts1) ltac:(set_solver) ltac:(run_fields; rewrite length_app; cbn; lia)). cbn in Hk. by rewrite Hp, list_lookup_middle in Hk by done.
Qed.
End moves.

(** ** Quiet moves *)

(** Tasks whose lookup succeeded and is not collected yet. *)
Definition done_count (t : LookupTask) : Z := match task_state t with Finished true => 1 | _ => 0 end.
Definition is_quiet (m : RunMove) : bool := match m with MoveFinish _ | MoveCollect _ => false | _ => true end.

(** Other moves neither end nor collect a lookup. *)
Lemma quiet_move s m s' :
  is_quiet m = true → apply_move s m true = Some s' →
  run_phase s' ≠ Returned false ∧ run_timings s' = run_timings s ∧ zsum done_count (run_tasks s') = zsum done_count (run_tasks s)
  ∧ ∀ t ok, t ∈ run_tasks s' → task_state t = Finished ok → t ∈ run_tasks s.
Proof.
  destruct s as [snd open ch ts tm q a p]. unfold apply_move. destruct (returned p) eqn:Hp; [done|]. assert (Hnr := not_returned _ Hp). run_fields.
  destruct m as [| | | | | |k|k|k]; intros Hq Hm; try done.
  - destruct snd as [|i rest]; [done|]. by injection Hm as <-.
  - destruct snd, open; try done. by injection Hm as <-.
  - destruct p, ch as [|i ch]; try done. injection Hm as <-. run_fields. autorewrite with sums. split_and!; [done|done|cbn; lia|].
    intros t ok [?| ->%list_elem_of_singleton]%elem_of_app; done.
  - destruct p; try done. destruct (existsb is_finished ts); [done|]. by injection Hm as <-.
  - destruct p, snd, open, ch; try done. by injection Hm as <-.
  - destruct p, ts; try done. by injection Hm as <-.
  - destruct (ts !! k) as [[i [| |ok']]|] eqn:Hk; try done. injection Hm as <-. run_fields. split_and!; [done|done| |].
    + rewrite (zsum_insert _ _ _ _ _ Hk). cbn. lia.
    + intros t ok Hin Hst. apply list_elem_of_lookup in Hin as [j Hj]. destruct (decide (j = k)) as [->|Hne].
      * rewrite list_lookup_insert_eq in Hj by (by eapply lookup_lt_Some). injection Hj as <-. done.
      * rewrite list_lookup_insert_ne in Hj by done. by eapply list_elem_of_lookup_2.
Qed.

(** ** What a run returns *)

(** The clock of the sender does not go back and has passed all deadlines after
    [sc_waits] readings, allocated buffers hold their objects, and the rest of the
    work is no request. *)
Record schedule_ok (origin : Z) (sc : Schedule) (rs : list Request) : Prop := mkScheduleOk {
  so_clock : ∀ i, sc_clock sc i ≤ sc_clock sc (S i);
  so_passes : Forall (λ r, ∀ i, (sc_waits sc ≤ i)%nat → origin + req_time_ns r < sc_clock sc i) rs;
  so_buffers : ∀ i r capacity, rs !! i = Some r → sc_buffers sc i = Some capacity → req_payload_len r ≤ capacity;
  so_background : ∀ step, Forall (λ work, is_request work = 0) (sc_background sc step)
}.

(** ** Arrivals *)
Section arrivals.
Context (rs : list Request) (sc : Schedule) (sent : list (nat * Z)).
Local Abbreviation arrivals := (arrivals_of sc rs sent).

Lemma arrivals_lookup i a :
  arrivals !! i = Some a → arrival_index a = i ∧ rs !! i = Some (arrival_request a) ∧ buffer_answer a = sc_buffers sc i.
Proof.
  unfold arrivals_of. rewrite list_lookup_imap, fmap_Some. intros ([r msg] & Hz & ->). apply lookup_zip_Some in Hz as [Hr _]. done.
Qed.
Lemma length_arrivals : length sent = length rs → length arrivals = length rs.
Proof. intros Hsent. unfold arrivals_of. rewrite length_imap, length_zip. lia. Qed.

Lemma arrivals_requests : length sent = length rs → arrival_request <$> arrivals = rs.
Proof.
  intros Hsent. apply list_eq. intros i. rewrite list_lookup_fmap. destruct (arrivals !! i) as [a|] eqn:Ha; [by apply arrivals_lookup in Ha as (_ & -> & _)|].
  apply lookup_ge_None in Ha. rewrite length_arrivals in Ha by done. symmetry. by apply lookup_ge_None.
Qed.

End arrivals.

Section run_correct.
Context `{HasherOk} `{StorageFileOk F} `{!PayloadReader F} `{!PayloadReaderOk F} `{FxHasher}.
Context (memory_scorer disk_scorer : RetentionScorer ObjectAccessHistories) (size : nat) (Hsize : (0 < size)%nat).
Context (bounds : list (Z * Z)) (out : list AlignedBuffer) (key_hash : string → Z) (origin : Z) (rs : list Request).
Context (Hhash : ∀ r, r ∈ rs → is_u128 (key_hash (req_object_key r))).
Context (Hinj : ∀ r1 r2, r1 ∈ rs → r2 ∈ rs → key_hash (req_object_key r1) = key_hash (req_object_key r2) → req_object_key r1 = req_object_key r2).
Context (Hlen : ∀ r, r ∈ rs → 0 ≤ req_payload_len r).
Context (Hsame : ∀ r1 r2, r1 ∈ rs → r2 ∈ rs → req_object_key r1 = req_object_key r2 → req_payload_len r1 = req_payload_len r2).
Context (sc : Schedule) (Hsc : schedule_ok origin sc rs) (completed0 : Z).

(** A lookup fails only when its buffer is refused. *)
Definition lookup_may (i : nat) (ok : bool) : Prop := ok = false → sc_buffers sc i = None.
Local Abbreviation object := (synthetic_object key_hash rs).

Section arrivals.
Context (sent : list (nat * Z)) (Hsent : length sent = length rs).
Local Abbreviation arrivals := (arrivals_of sc rs sent).

Lemma arrival_valid i a : arrivals !! i = Some a → arrival_ok rs a.
Proof.
  intros (_ & Hr & Hb)%arrivals_lookup. split; [by eapply list_elem_of_lookup_2|]. intros capacity Hcap. apply (so_buffers _ _ _ Hsc i); [done|congruence].
Qed.

Record loop_ok (s : LoopState F) : Prop := mkLoopOk {
  lo_run : rtc (run_step lookup_may) (start_run (length rs)) (loop_run s);
  lo_cache : cache_ok bounds out (loop_cache s) ∧ faithful object (loop_cache s);
  lo_results : ∀ t ok, t ∈ run_tasks (loop_run s) → task_state t = Finished ok →
    ∃ a r, arrivals !! task_index t = Some a ∧ loop_results s !! task_index t = Some r ∧ is_ok r = ok ∧ replay_answer_ok origin a r;
  lo_error : is_Some (loop_error s) ↔ run_phase (loop_run s) = Returned false;
  lo_collected : run_phase (loop_run s) ≠ Returned false →
    Forall2 (λ i t, ∃ a, arrivals !! i = Some a ∧ t = arrival_timings origin a) (run_timings (loop_run s)) (loop_timings s)
    ∧ loop_completed s = completed0 + Z.of_nat (length (run_timings (loop_run s))) + zsum done_count (run_tasks (loop_run s))
}.

Lemma lookup_may_some i : ∃ ok, lookup_may i ok.
Proof. by exists true. Qed.

(** The tasks of a run that goes on have distinct indices of the trace. *)
Lemma run_tasks_distinct run : rtc (run_step lookup_may) (start_run (length rs)) run → returned (run_phase run) = false →
  NoDup (task_index <$> run_tasks run) ∧ ∀ t, t ∈ run_tasks run → (task_index t < length rs)%nat.
Proof.
  intros Hinv%run_reachable Hp. apply run_inv_ok in Hinv; [|by apply not_returned]. assert (Hi := rk_indices _ _ _ Hinv). split.
  - assert (Hnd : NoDup (seq 0 (length rs))) by apply NoDup_seq. rewrite <-Hi in Hnd. apply NoDup_app in Hnd as (_ & _ & Hnd). apply NoDup_app in Hnd as (_ & _ & Hnd).
    by apply NoDup_app in Hnd as (Hnd & _).
  - intros t Ht. assert (Hin : task_index t ∈ seq 0 (length rs)); [|apply elem_of_seq in Hin; lia].
    rewrite <-Hi, !elem_of_app. right. right. left. by apply list_elem_of_fmap_2.
Qed.

Local Abbreviation move := (loop_move memory_scorer size key_hash origin arrivals).

Lemma move_running run m ok run' : apply_move run m ok = Some run' → returned (run_phase run) = false.
Proof. destruct run. cbn. by destruct (returned _). Qed.

Lemma loop_quiet s m : loop_ok s → is_quiet m = true → is_Some (apply_move (loop_run s) m true) →
  ∃ s', move s m = Done s' ∧ loop_ok s' ∧ run_step lookup_may (loop_run s) (loop_run s').
Proof.
  intros [Hr Hc Hres He Hcol] Hq [run Hm]. destruct (quiet_move _ _ _ Hq Hm) as (Hnf & Htm & Hdone & Hfin).
  assert (Hnr := not_returned _ (move_running _ _ _ _ Hm)).
  assert (Hstep : run_step lookup_may (loop_run s) run) by (eapply apply_move_step; [exact Hm|]; by intros k i ->).
  exists (mkLoopState run (loop_cache s) (loop_completed s) (loop_results s) (loop_timings s) (loop_error s)).
  split; [unfold loop_move; destruct m; try done; by rewrite Hm|]. split; [|done]. constructor; cbn [loop_run loop_cache loop_results loop_error loop_timings loop_completed].
  - by eapply rtc_r.
  - done.
  - intros t ok Ht Hst. by apply Hres; [eapply Hfin|].
  - rewrite He. by split.
  - intros _. rewrite Htm, Hdone. by apply Hcol.
Qed.

Lemma loop_finish s k : loop_ok s → is_Some (apply_move (loop_run s) (MoveFinish k) true) →
  ∃ s', move s (MoveFinish k) = Done s' ∧ loop_ok s' ∧ run_step lookup_may (loop_run s) (loop_run s').
Proof.
  intros [Hr [Hc Hfa] Hres He Hcol] [run0 Hm0]. assert (Hp := move_running _ _ _ _ Hm0). destruct (run_tasks_distinct _ Hr Hp) as [Hnd Hlt].
  destruct (loop_run s) as [snd open ch ts tm q a p] eqn:Hrun. cbn [apply_move] in Hm0. run_fields. rewrite Hp in Hm0.
  destruct (ts !! k) as [[i [| |ok0]]|] eqn:Hk; try done. clear Hm0.
  destruct (lookup_lt_is_Some_2 arrivals i) as [ar Har]; [rewrite length_arrivals by done; apply (Hlt (mkLookupTask i Running)); by eapply list_elem_of_lookup_2|].
  destruct (replay_lookup_ok memory_scorer size Hsize bounds out key_hash origin rs Hhash Hinj Hlen Hsame (loop_cache s) (loop_completed s) ar Hc Hfa (arrival_valid _ _ Har))
    as (c' & r & Hl & Hc' & Hfa' & Hans).
  unfold loop_move. rewrite Hrun. run_fields. rewrite Hk. cbn [unwrap mbind outcome_bind task_index]. rewrite Har. cbn [unwrap mbind outcome_bind]. rewrite Hl. cbn [mbind outcome_bind apply_move].
  rewrite Hp, Hk. cbn [unwrap mbind outcome_bind]. eexists. split; [done|].
  assert (Hmay : lookup_may i (is_ok r)) by (intros Hf; destruct Hans as [->|[Hb _]]; [done|]; by apply arrivals_lookup in Har as (_ & _ & <-)).
  assert (Hstep : run_step lookup_may (mkLookupRun snd open ch ts tm q a p) (mkLookupRun snd open ch (<[k := mkLookupTask i (Finished (is_ok r))]> ts) tm q (a - 1) p)).
  { eapply (apply_move_step _ _ (MoveFinish k) (is_ok r)); [cbn; by rewrite Hp, Hk|]. intros k' i' [= <-] Hk'. run_fields. rewrite Hk in Hk'. by injection Hk' as <-. }
  split; [|done]. constructor; cbn [loop_run loop_cache loop_results loop_error loop_timings loop_completed].
  - by eapply rtc_r.
  - done.
  - intros t ok Ht Hst. run_fields. apply list_elem_of_lookup in Ht as [j Hj]. destruct (decide (j = k)) as [->|Hne].
    + rewrite list_lookup_insert_eq in Hj by (by eapply lookup_lt_Some). injection Hj as <-. injection Hst as <-. cbn [task_index]. rewrite lookup_insert_eq. by exists ar, r.
    + rewrite list_lookup_insert_ne in Hj by done. destruct (Hres t ok) as (a' & r' & ? & ? & ? & ?); [by eapply list_elem_of_lookup_2|done|]. exists a', r'.
      rewrite lookup_insert_ne; [done|]. intros ->. apply Hne. eapply NoDup_lookup; [exact Hnd|by rewrite list_lookup_fmap, Hj|by rewrite list_lookup_fmap, Hk].
  - exact He.
  - run_fields. intros Hph. destruct (Hcol Hph) as [Ht Hcomp]. split; [done|]. rewrite (zsum_insert _ _ _ _ _ Hk). cbn. rewrite Hcomp. destruct r; cbn; lia.
Qed.

Lemma loop_collect s k : loop_ok s → is_Some (apply_move (loop_run s) (MoveCollect k) true) →
  ∃ s', move s (MoveCollect k) = Done s' ∧ loop_ok s' ∧ run_step lookup_may (loop_run s) (loop_run s').
Proof.
  intros [Hr [Hc Hfa] Hres He Hcol] [run Hm]. assert (Hp := move_running _ _ _ _ Hm).
  assert (Hstep : run_step lookup_may (loop_run s) run) by (eapply apply_move_step; [exact Hm|done]).
  unfold loop_move. rewrite Hm. destruct (loop_run s) as [snd open ch ts tm q a p] eqn:Hrun. cbn [apply_move] in Hm. run_fields. rewrite Hp in Hm.
  destruct (collecting p) eqn:Hcp; [|done]. destruct (ts !! k) as [[i [| |ok]]|] eqn:Hk; try done. injection Hm as <-. cbn [unwrap mbind outcome_bind task_index].
  destruct (Hres (mkLookupTask i (Finished ok)) ok) as (ar & r & Har & Hri & Hok & Hans); [by eapply list_elem_of_lookup_2|done|]. cbn [task_index] in Har, Hri. rewrite Hri. cbn [unwrap mbind outcome_bind].
  assert (Hsub : ∀ t, t ∈ delete k ts → t ∈ ts) by (intros t (j & Ht)%list_elem_of_lookup; rewrite list_lookup_delete in Ht; case_decide; by eapply list_elem_of_lookup_2).
  assert (Hsum : zsum done_count (delete k ts) = zsum done_count ts - done_count (mkLookupTask i (Finished ok))).
  { rewrite delete_take_drop. rewrite <-(take_drop_middle ts k _ Hk) at 3. autorewrite with sums. lia. }
  destruct (Hcol (not_returned _ Hp)) as [Ht Hcomp]. eexists. split; [done|]. destruct r as [t|e]; cbn in Hok; subst ok; (split; [|exact Hstep]).
  - constructor; cbn [collect loop_run loop_cache loop_results loop_error loop_timings loop_completed to_send sender_open run_channel run_tasks run_timings run_queued run_active run_phase].
    + by eapply rtc_r.
    + done.
    + intros t' ok Ht' Hst. run_fields. by apply Hres; [apply Hsub|].
    + exact He.
    + intros _. split.
      * apply Forall2_app; [done|]. constructor; [|done]. exists ar. split; [done|]. destruct Hans as [[= ->]|[_ ?]]; done.
      * rewrite Hcomp, Hsum, length_app. cbn. lia.
  - constructor; cbn [collect loop_run loop_cache loop_results loop_error loop_timings loop_completed to_send sender_open run_channel run_tasks run_timings run_queued run_active run_phase].
    + by eapply rtc_r.
    + done.
    + by intros t' ok ?%elem_of_nil.
    + split; [done|by eexists].
    + done.
Qed.

Lemma loop_move_ok s m : loop_ok s → m ∈ enabled_moves (loop_run s) →
  ∃ s', move s m = Done s' ∧ loop_ok s' ∧ run_step lookup_may (loop_run s) (loop_run s').
Proof.
  intros Hok [Hm _]%list_elem_of_filter. destruct (is_quiet m) eqn:Hq; [by apply loop_quiet|]. destruct m; try done; [by apply loop_collect|by apply loop_finish].
Qed.

(** Any number of further moves is bounded by the measure. *)
Lemma run_loop_ok fuel : ∀ step s, loop_ok s → (Z.to_nat (run_measure (loop_run s)) < fuel)%nat →
  ∃ s', run_loop memory_scorer disk_scorer size key_hash origin sc fuel arrivals step s = Done s' ∧ loop_ok s' ∧ returned (run_phase (loop_run s')) = true.
Proof.
  induction fuel as [|fuel IH]; intros step s Hok Hfuel; [lia|]. cbn [run_loop]. destruct (returned (run_phase (loop_run s))) eqn:Hp; [by exists s|].
  destruct (lo_cache _ Hok) as [Hc Hfa]. destruct (run_clients_ok memory_scorer disk_scorer size Hsize bounds out object (sc_background sc step) (loop_cache s) Hc Hfa) as (c' & answers & Hrun & Hc' & Hfa' & _).
  { eapply Forall_impl; [apply (so_background _ _ _ Hsc step)|]. by intros []. }
  rewrite Hrun. cbn [mbind outcome_bind]. assert (Hok' : loop_ok (with_cache c' s)) by (destruct Hok; by constructor).
  destruct (run_progress lookup_may (length rs) (loop_run s) lookup_may_some (run_reachable _ _ _ (lo_run _ Hok)) Hp) as (s1 & Hs1).
  assert (Hne := enabled_of_step _ _ _ Hs1). set (moves := enabled_moves (loop_run s)) in *. assert (Hl : length moves ≠ 0%nat) by (by destruct moves).
  destruct (lookup_lt_is_Some_2 moves (sc_choice sc step mod length moves)) as [m Hm]; [by apply Nat.mod_upper_bound|]. rewrite Hm. cbn [unwrap mbind outcome_bind].
  destruct (loop_move_ok (with_cache c' s) m Hok') as (s2 & Hmove & Hok2 & Hstep); [by eapply list_elem_of_lookup_2|]. rewrite Hmove. cbn [mbind outcome_bind].
  assert (Hdec := run_step_decreases _ _ _ Hstep). cbn [with_cache loop_run] in Hdec. pose proof (run_measure_nonneg (loop_run s2)). apply (IH (S step) s2); [done|lia].
Qed.
End arrivals.

(** The run returns under every schedule.  Without an error there is one record of
    each request, taken after it was sent past its deadline; an error means that a
    download's buffer was refused. *)
Lemma run_lookups_spec c :
  cache_ok bounds out c → faithful object c →
  ∃ sent c' completed r, run_lookups memory_scorer disk_scorer size key_hash origin sc c completed0 rs = Done (c', completed, r)
    ∧ length sent = length rs ∧ Forall2 (λ r s, origin + req_time_ns r < s.2) rs sent
    ∧ (∀ msg, msg ∈ sent → ∃ i, msg.2 = sc_clock sc i)
    ∧ match r with
      | Ok timings => timings ≡ₚ arrival_timings origin <$> arrivals_of sc rs sent ∧ completed = completed0 + Z.of_nat (length rs)
      | Err _ => ∃ i, (i < length rs)%nat ∧ sc_buffers sc i = None
      end.
Proof.
  intros Hc Hfa. destruct (send_arrivals_spec (sc_clock sc) origin (sc_waits sc) rs (so_clock _ _ _ Hsc) (so_passes _ _ _ Hsc) 0 0 0) as (sent & Hsend & Hidx & Hlate & Hread).
  assert (Hl : length sent = length rs) by (symmetry; by eapply Forall2_length). unfold run_lookups. rewrite Hsend. cbn [mbind outcome_bind].
  set (s0 := mkLoopState _ _ _ _ _ _). destruct (run_loop_ok sent Hl (S (Z.to_nat (run_measure (start_run (length rs))))) 0 s0) as (s & Hrun & Hok & Hret); [|cbn; lia|].
  { constructor; cbn.
    - apply rtc_refl.
    - done.
    - by intros t ok ?%elem_of_nil.
    - split; [by intros []|done].
    - intros _. split; [constructor|]. autorewrite with sums. lia. }
  rewrite Hrun. cbn [mbind outcome_bind]. eexists sent, _, _, _. split; [done|]. split_and!; [done|done|done|].
  destruct Hok as [Hr _ _ He Hcol]. destruct (loop_error s) as [e|] eqn:Herr.
  - assert (Hinv := run_reachable _ _ _ Hr). unfold run_inv in Hinv. rewrite bool_decide_eq_true_2 in Hinv by (by apply He). destruct Hinv as (i & Hi & Hb). exists i. by split; [|apply Hb].
  - assert (Hp : run_phase (loop_run s) = Returned true). { destruct (run_phase (loop_run s)) as [| | |[]]; try done. destruct (proj2 He eq_refl). done. }
    destruct (run_returned _ _ _ Hr Hp) as (Hperm & _ & Hts & _). destruct Hcol as [Ht ->]; [by rewrite Hp|]. rewrite Hts, Hperm, length_seq. autorewrite with sums. split; [|lia].
    set (g i := default (mkRequestTimings 0 0 0 0) (arrival_timings origin <$> arrivals_of sc rs sent !! i)).
    assert (Hg : loop_timings s = g <$> run_timings (loop_run s)).
    { clear -Ht. induction Ht as [|i t is_ ts (a & Ha & ->) _ IH]; [done|]. rewrite fmap_cons, <-IH. f_equal. unfold g. by rewrite Ha. }
    rewrite Hg, Hperm. apply reflexive_eq, list_eq. intros i. rewrite !list_lookup_fmap. destruct (decide (i < length rs)%nat) as [Hi|Hi].
    + rewrite lookup_seq_lt by done. cbn. unfold g. destruct (lookup_lt_is_Some_2 (arrivals_of sc rs sent) i) as [a Ha]; [by rewrite length_arrivals|]. cbn. by rewrite Ha.
    + rewrite lookup_seq_ge, (lookup_ge_None_2 (arrivals_of sc rs sent)) by (rewrite ?length_arrivals by done; lia). done.
Qed.
End run_correct.
