(* ===== verification/ReplayRun.v ===== *)
(** * A replay from beginning to end ([replay] in
    [feuer-replay/src/bin/replay.rs])

    The command loads the trace, creates its directories and files, opens the cache,
    runs the lookups, samples the metrics and writes a summary.  It is a computation
    over the output directory and the system's answers that may stop with an error;
    a panic is the outcome [Panic].  What happens outside, the clocks, the order in which
    threads and tasks run (the schedule of ReplayLoop.v), and the moments at which the
    sampling thread wakes, is an input.  Of the registered metrics a snapshot holds the two
    that the command sets itself; the text format of the Prometheus encoder, the
    texts on standard error and the runtime are not represented. *)

From stdpp Require Import strings pretty.
From S2P Require Import Prelude Codec Errors Paths Disk BTree Allocation PageFormat Metadata Float64 Retention.
From S2P Require Import Historian EntryIndex Shard Writer DiskCache Recovery Header Admission Uring File BufferPool MemoryStore Lookup.
From S2P Require Import WriteQueue Trace TraceFiles Replay Open Cache FileOpen Config ReplayCache ReplayLoop.

(** ** Command line *)

(** [Args] *)
Record Args := mkArgs {
  input : string;
  cache_dir : string;
  output : string;
  memory_bytes : Z;
  disk_bytes : Z;
  trace_seconds : option Z;
  fixed_retrieval_equivalent_bytes : Z;
  memory_cost_per_request : option f64;
  disk_cost_per_request : option f64;
  arg_access_count_half_life : option Z;
  simulate_s3 : bool
}.

(** The builder the command configures. *)
Definition replay_builder (args : Args) : CacheBuilder :=
  let b := set_memory_capacity (memory_bytes args) (set_disk_capacity (disk_bytes args) (set_directory (cache_dir args) builder)) in
  match arg_access_count_half_life args with Some half_life => set_access_count_half_life half_life b | None => b end.

(** [Args::request_costs] on the arguments. *)
Definition replay_costs (args : Args) : f64 * f64 :=
  request_costs (memory_cost_per_request args) (disk_cost_per_request args) (fixed_retrieval_equivalent_bytes args).

(** ** The output directory *)

(** A value of the summary: written with its decimal digits, as the shortest decimal
    that reads back as the same number, or as it is. *)
Inductive SummaryValue := VInt (z : Z) | VFloat (f : f64) | VText (s : string).
Definition SummaryLine : Type := string * SummaryValue.

(** The time of a snapshot in milliseconds, and the two metrics. *)
Record Snapshot := mkSnapshot { snapshot_ms : Z; snapshot_phase : Z; snapshot_completed : Z }.

Inductive OutputFile := PidFile (pid : Z) | SummaryFile (lines : list SummaryLine) | MetricsFile (snapshots : list Snapshot).

Inductive ReplayError :=
  | ReplayTrace (e : TraceError)
  | ReplayFileExists (name : string)
  | ReplayIo
  | ReplayClock
  | ReplayOpen (e : CacheOpenError)
  | ReplayLookupFailed (e : io_error)
  | ReplaySampler.

(** The directories that exist, the files of the output directory by name, the
    lines buffered for the summary while its writer is open, the two metrics, and
    whether each further system call succeeds. *)
Record ReplayWorld := mkReplayWorld {
  rw_directories : gset string;
  rw_files : gmap string OutputFile;
  rw_summary : option (list SummaryLine);
  rw_phase : Z;
  rw_completed : Z;
  rw_answers : list bool
}.
Definition with_files (files : gmap string OutputFile) (w : ReplayWorld) : ReplayWorld :=
  mkReplayWorld (rw_directories w) files (rw_summary w) (rw_phase w) (rw_completed w) (rw_answers w).
Definition with_summary (summary : option (list SummaryLine)) (w : ReplayWorld) : ReplayWorld :=
  mkReplayWorld (rw_directories w) (rw_files w) summary (rw_phase w) (rw_completed w) (rw_answers w).

(** ** Computations that may stop *)
Definition Replay (A : Type) : Type := ReplayWorld → outcome (ReplayWorld * result ReplayError A).
Global Instance replay_ret : MRet Replay := λ A a w, Done (w, Ok a).
Global Instance replay_bind : MBind Replay := λ A B f m w,
  match m w with
  | Panic => Panic
  | Done (w, Ok a) => f a w
  | Done (w, Err e) => Done (w, Err e)
  end.
(** What cannot stop, what may panic, the operator [?], and [map_err]. *)
Definition modify (f : ReplayWorld → ReplayWorld) : Replay () := λ w, Done (f w, Ok ()).
Definition asks {A} (f : ReplayWorld → A) : Replay A := λ w, Done (w, Ok (f w)).
Definition run_outcome {A} (m : outcome A) : Replay A := λ w, match m with Panic => Panic | Done a => Done (w, Ok a) end.
Definition try_with {E A} (f : E → ReplayError) (r : result E A) : Replay A := λ w, Done (w, map_err f r).
Definition fail_with {A} (e : ReplayError) (m : Replay A) : Replay A := λ w,
  match m w with Panic => Panic | Done (w, r) => Done (w, map_err (λ _, e) r) end.

(** A system call that may fail. *)
Definition system_call : Replay () := λ w,
  Done (mkReplayWorld (rw_directories w) (rw_files w) (rw_summary w) (rw_phase w) (rw_completed w) (tail (rw_answers w)),
        if default true (head (rw_answers w)) then Ok () else Err ReplayIo).

(** [fs::create_dir], [fs::create_dir_all], [fs::write] and [File::create_new]. *)
Definition create_dir (path : string) : Replay () := λ w,
  if decide (path ∈ rw_directories w) then Done (w, Err (ReplayFileExists path))
  else (_ ← system_call; modify (λ w, mkReplayWorld ({[path]} ∪ rw_directories w) (rw_files w) (rw_summary w) (rw_phase w) (rw_completed w) (rw_answers w))) w.
Definition create_dir_all (path : string) : Replay () :=
  _ ← system_call;
  modify (λ w, mkReplayWorld ({[path]} ∪ rw_directories w) (rw_files w) (rw_summary w) (rw_phase w) (rw_completed w) (rw_answers w)).
Definition write_file (name : string) (content : OutputFile) : Replay () :=
  _ ← system_call; modify (λ w, with_files (<[name := content]> (rw_files w)) w).
Definition create_new (name : string) (empty : OutputFile) : Replay () := λ w,
  match rw_files w !! name with
  | Some _ => Done (w, Err (ReplayFileExists name))
  | None => write_file name empty w
  end.

(** ** The summary *)

(** [writeln!] to the buffered summary, and its [flush].  The summary is smaller
    than the buffer, so lines reach the file only by a flush. *)
Definition write_lines (lines : list SummaryLine) : Replay () :=
  modify (λ w, with_summary ((λ pending, pending ++ lines) <$> rw_summary w) w).
Definition append_lines (lines : list SummaryLine) (file : OutputFile) : OutputFile :=
  match file with SummaryFile old => SummaryFile (old ++ lines) | other => other end.
Definition flush_summary : Replay () :=
  _ ← system_call;
  modify (λ w, with_summary (Some []) (with_files (alter (append_lines (default [] (rw_summary w))) "summary.csv"%string (rw_files w)) w)).

(** Dropping the writer flushes once more and ignores an error. *)
Definition close_summary (w : ReplayWorld) : ReplayWorld :=
  match rw_summary w with
  | None => w
  | Some _ => match flush_summary w with Done (w, _) => with_summary None w | Panic => w end
  end.

(** [Duration::as_secs_f64] and [u64 as f64 / 1e9] *)
Definition as_secs_f64 (ns : Z) : f64 := f64_add (f64_of_Z (ns / 1000000000)) (f64_div (f64_of_Z (ns mod 1000000000)) (f64_of_Z 1000000000)).
Definition ns_to_seconds (ns : Z) : f64 := f64_div (f64_of_Z ns) (f64_of_Z 1000000000).

Definition S3_LATENCY_SECONDS : f64 := f64_div (f64_of_Z 108599) (f64_of_Z 1000000).
Definition S3_BYTES_PER_SECOND : f64 := f64_mul (f64_div (f64_of_Z 80205) (f64_of_Z 1000)) (f64_of_Z 1048576).

(** The lines written before the cache is opened. *)
Definition source_lines (simulate_s3 : bool) : list SummaryLine :=
  if simulate_s3
  then [("source_concurrency_limit", VInt S3_CONCURRENT_DOWNLOADS); ("source_latency_seconds", VFloat S3_LATENCY_SECONDS); ("source_bytes_per_second", VFloat S3_BYTES_PER_SECOND)]%string
  else [("source_concurrency_limit", VText "unlimited"); ("source_latency_seconds", VInt 0); ("source_bytes_per_second", VText "unlimited")]%string.
Definition outcome_lines (counts : list Z) : list SummaryLine :=
  imap (λ i count, (("recorded_outcome_" +:+ pretty (S i))%string, VInt count)) (tail counts).
Definition settings_lines (args : Args) (workers : Z) (t : TraceRequests) (last : Request) : list SummaryLine :=
  let '(memory_cost, disk_cost) := replay_costs args in
  [("metric", VText "value"); ("workers", VInt workers); ("memory_bytes", VInt (memory_bytes args)); ("disk_bytes", VInt (disk_bytes args));
   ("requests", VInt (Z.of_nat (length (requests t)))); ("trace_seconds", VFloat (ns_to_seconds (req_time_ns last)));
   ("scheduling", VText "task_per_arrival"); ("fixed_retrieval_equivalent_bytes", VInt (fixed_retrieval_equivalent_bytes args));
   ("memory_cost_per_request", VFloat memory_cost); ("disk_cost_per_request", VFloat disk_cost);
   ("memory_cost_per_requested_byte", VInt 1); ("disk_cost_per_requested_byte", VInt 1);
   ("simulate_s3", VInt (if simulate_s3 args then 1 else 0)); ("source_buffer_pool", VInt 1)]%string
  ++ source_lines (simulate_s3 args) ++ [("recorded_unmatched_starts"%string, VInt (unmatched_starts t))] ++ outcome_lines (outcome_counts t).

(** The lines of [distribution]. *)
Definition distribution_lines (name : string) (d : Distribution) : list SummaryLine :=
  [((name +:+ "_mean_ns")%string, VFloat (mean d)); ((name +:+ "_p50_ns")%string, VInt (p50 d)); ((name +:+ "_p95_ns")%string, VInt (p95 d));
   ((name +:+ "_p99_ns")%string, VInt (p99 d)); ((name +:+ "_max_ns")%string, VInt (maximum d))].
Definition write_distribution (name : string) (values : list Z) : Replay () :=
  d ← run_outcome (distribution values); write_lines (distribution_lines name d).

(** ** Snapshots *)

(** [write_metrics_snapshot] to an open file; [now] is the system clock in
    milliseconds since 1970, [None] before it. *)
Definition append_snapshot (s : Snapshot) (file : OutputFile) : OutputFile :=
  match file with MetricsFile old => MetricsFile (old ++ [s]) | other => other end.
Definition take_snapshot (now : option Z) (phase completed : Z) : Replay Snapshot :=
  ms ← try_with (λ _ : (), ReplayClock) (ok_or () now);
  mret (mkSnapshot ms phase completed).
Definition write_metrics_snapshot (name : string) (now : option Z) (phase completed : Z) : Replay () :=
  s ← take_snapshot now phase completed;
  _ ← system_call;
  modify (λ w, with_files (alter (append_snapshot s) name (rw_files w)) w).
(** A snapshot of the current metrics in a file of its own. *)
Definition snapshot_file (name : string) (now : option Z) : Replay () :=
  _ ← create_new name (MetricsFile []);
  phase ← asks rw_phase;
  completed ← asks rw_completed;
  write_metrics_snapshot name now phase completed.

(** The sampling thread: each time it wakes, because a second has passed or because
    it was told to stop, it writes a snapshot of what it finds.  Its failure is an
    error of the command, found when it is told to stop or joined; after an error of
    the run it is detached and what it still writes is not represented. *)
Record Wake := mkWake { wake_stopping : bool; wake_now : option Z; wake_phase : Z; wake_completed : Z }.
Fixpoint sampler (wakes : list Wake) : Replay () :=
  match wakes with
  | [] => mret ()
  | wake :: wakes =>
      _ ← write_metrics_snapshot "metrics.prom" (wake_now wake) (wake_phase wake) (wake_completed wake);
      if wake_stopping wake then mret () else sampler wakes
  end.

(** ** The timings at the end *)

(** The checks after the run.  The order of [sort_unstable_by_key]. *)
Definition timing_le (a b : RequestTimings) : Prop := (timing_index a ≤ timing_index b)%nat.
Global Instance timing_le_dec a b : Decision (timing_le a b).
Proof. unfold timing_le. apply _. Defined.
Definition check_timings (n : nat) (timings : list RequestTimings) : outcome (list RequestTimings) :=
  let timings := merge_sort timing_le timings in
  _ ← assert_that (length timings =? n)%nat;
  _ ← assert_that (forallb (λ it : nat * RequestTimings, (it.1 =? timing_index it.2)%nat) (imap pair timings));
  Done timings.

(** [u64] addition, whose overflow is a panic. *)
Definition u64_add (x y : Z) : outcome Z := _ ← assert_that (x + y <=? u64_max); Done (x + y).
Definition scheduled_to_complete (t : RequestTimings) : outcome Z :=
  sum ← u64_add (sender_lateness_ns t) (queue_wait_ns t); u64_add sum (service_ns t).
Fixpoint all_scheduled_to_complete (timings : list RequestTimings) : outcome (list Z) :=
  match timings with
  | [] => Done []
  | t :: timings => total ← scheduled_to_complete t; totals ← all_scheduled_to_complete timings; Done (total :: totals)
  end.

(** The end of the summary. *)
Definition report_timings (n : nat) (timings : list RequestTimings) : Replay () :=
  timings ← run_outcome (check_timings n timings);
  _ ← write_distribution "sender_lateness" (sender_lateness_ns <$> timings);
  _ ← write_distribution "queue_wait" (queue_wait_ns <$> timings);
  _ ← write_distribution "service" (service_ns <$> timings);
  totals ← run_outcome (all_scheduled_to_complete timings);
  write_distribution "scheduled_to_complete" totals.

(** ** The command *)

(** What comes from outside: the trace's file, the number of workers, the process,
    the allocations of the disk tier, how long opening took, the origin of the
    replay, the schedule of the run, the time the run took, the system clock at the three snapshots and the sampler's wakes. *)
Record ReplayInputs := mkReplayInputs {
  ri_file : result string (list byte);
  ri_workers : Z;
  ri_pid : Z;
  ri_allocations : list bool;
  ri_opening_ns : Z;
  ri_origin : Z;
  ri_schedule : Schedule;
  ri_finished_ns : Z;
  ri_before : option Z;
  ri_finished : option Z;
  ri_settled : option Z;
  ri_wakes : list Wake
}.

(** The scorers the command gives the cache, for a fixed cost per request. *)
Definition replay_scorer `{FxHasher} (cost_per_request : f64) : RetentionScorer ObjectAccessHistories := fetch_cost_score (mkFetchCostScorer cost_per_request (f64_of_Z 1)).

Section command.
Context `{Hasher} `{PayloadReader F} `{FxHasher}.
Context (archive_entries : list byte → result string (list (result string ArchiveEntry))) (parse_byte_size : string → option Z).
Context (open_data_file : string → string → Z → outcome (result DataFileError F)) (env : Environment) (key_hash : string → Z).

Definition set_phase (phase : Z) : Replay () :=
  modify (λ w, mkReplayWorld (rw_directories w) (rw_files w) (rw_summary w) phase (rw_completed w) (rw_answers w)).

(** Up to the cache: the trace, the directories and the settings. *)
Definition prepare_files (args : Args) (inputs : ReplayInputs) : Replay (TraceRequests * Request) :=
  loaded ← run_outcome (load_requests_from archive_entries (input args) (ri_file inputs) (trace_seconds args));
  t ← try_with ReplayTrace loaded;
  _ ← create_dir (cache_dir args);
  _ ← create_dir_all (output args);
  _ ← write_file "pid.txt" (PidFile (ri_pid inputs));
  _ ← create_new "summary.csv" (SummaryFile []);
  _ ← modify (with_summary (Some []));
  last ← run_outcome (unwrap (last (requests t)));
  _ ← write_lines (settings_lines args (ri_workers inputs) t last);
  _ ← flush_summary;
  mret (t, last).

(** Up to the run: the cache and the first snapshot. *)
Definition open_for_replay (args : Args) (inputs : ReplayInputs) : Replay (CacheConfig * Cache F) :=
  opened ← run_outcome (open_cache parse_byte_size open_data_file env (replay_builder args) (ri_allocations inputs));
  '(config, c) ← try_with ReplayOpen opened;
  _ ← write_lines [("open_seconds"%string, VFloat (as_secs_f64 (ri_opening_ns inputs))); ("access_count_half_life"%string, VInt (access_count_half_life config))];
  _ ← snapshot_file "before.prom" (ri_before inputs);
  _ ← create_new "metrics.prom" (MetricsFile []);
  mret (config, c).

(** The run: the sender, the lookups and their counter. *)
Definition run_all (args : Args) (inputs : ReplayInputs) (config : CacheConfig) (c : Cache F) (rs : list Request) : Replay (Cache F * list RequestTimings) :=
  let '(memory_cost, disk_cost) := replay_costs args in
  completed ← asks rw_completed;
  '(c, completed, collected) ← run_outcome (run_lookups (replay_scorer memory_cost) (replay_scorer disk_cost) (Z.to_nat (cfg_reclaim_sample_size config)) key_hash
                                              (ri_origin inputs) (ri_schedule inputs) c completed rs);
  _ ← modify (λ w, mkReplayWorld (rw_directories w) (rw_files w) (rw_summary w) (rw_phase w) completed (rw_answers w));
  timings ← try_with ReplayLookupFailed collected;
  mret (c, timings).

(** [replay], without the final drop of the summary writer. *)
Definition replay_body (args : Args) (inputs : ReplayInputs) : Replay () :=
  '(t, last) ← prepare_files args inputs;
  '(config, c) ← open_for_replay args inputs;
  _ ← set_phase 1;
  '(c, timings) ← run_all args inputs config c (requests t);
  _ ← set_phase 2;
  _ ← snapshot_file "requests-finished.prom" (ri_finished inputs);
  _ ← snapshot_file "settled.prom" (ri_settled inputs);
  _ ← set_phase 3;
  _ ← fail_with ReplaySampler (sampler (ri_wakes inputs));
  _ ← write_lines [("execution_seconds"%string, VFloat (as_secs_f64 (ri_finished_ns inputs)));
                   ("backlog_drain_seconds"%string, VFloat (as_secs_f64 (saturating_sub (ri_finished_ns inputs) (req_time_ns last))));
                   ("observation_tail_seconds"%string, VInt 5)];
  _ ← report_timings (length (requests t)) timings;
  flush_summary.

Definition replay (args : Args) (inputs : ReplayInputs) (w : ReplayWorld) : outcome (ReplayWorld * result ReplayError ()) :=
  '(w, r) ← replay_body args inputs w;
  Done (close_summary w, r).
End command.

(** ** Reasoning about computations

    [wp good m w Q]: [m] does not panic from [w]; when it does not stop, [Q] holds of
    its result; and it does not stop when [good] holds. *)
Section wp.
Context (good : Prop).
Definition wp {A} (m : Replay A) (w : ReplayWorld) (Q : A → ReplayWorld → Prop) : Prop :=
  ∃ w' r, m w = Done (w', r) ∧ (good → is_ok r = true) ∧ ∀ a, r = Ok a → Q a w'.

Lemma wp_ret {A} (a : A) w (Q : A → ReplayWorld → Prop) : Q a w → wp (mret a) w Q.
Proof. intros HQ. exists w, (Ok a). split_and!; [done|done|by intros ? [= <-]]. Qed.
Lemma wp_bind {A B} (m : Replay A) (f : A → Replay B) w Q : wp m w (λ a w', wp (f a) w' Q) → wp (m ≫= f) w Q.
Proof.
  intros (w' & r & Hrun & Hgood & Hr). unfold wp, mbind, replay_bind. rewrite Hrun. destruct r as [a|e].
  - exact (Hr a eq_refl).
  - exists w', (Err e). split_and!; [done|by intros ?%Hgood|done].
Qed.
Lemma wp_modify f w (Q : () → ReplayWorld → Prop) : Q () (f w) → wp (modify f) w Q.
Proof. intros HQ. exists (f w), (Ok ()). split_and!; [done|done|by intros [] _]. Qed.
Lemma wp_asks {A} (f : ReplayWorld → A) w (Q : A → ReplayWorld → Prop) : Q (f w) w → wp (asks f) w Q.
Proof. intros HQ. exists w, (Ok (f w)). split_and!; [done|done|by intros ? [= <-]]. Qed.
Lemma wp_run_outcome {A} (m : outcome A) a w (Q : A → ReplayWorld → Prop) : m = Done a → Q a w → wp (run_outcome m) w Q.
Proof. intros -> HQ. exists w, (Ok a). split_and!; [done|done|by intros ? [= <-]]. Qed.
Lemma wp_try {E A} f (r : result E A) w (Q : A → ReplayWorld → Prop) : (good → is_ok r = true) → (∀ a, r = Ok a → Q a w) → wp (try_with f r) w Q.
Proof.
  intros Hgood HQ. exists w, (map_err f r). split_and!; [done|by destruct r|]. intros a Ha. apply HQ. destruct r; [|done]. by injection Ha as ->.
Qed.
Lemma wp_fail_with {A} e (m : Replay A) w Q : wp m w Q → wp (fail_with e m) w Q.
Proof.
  intros (w' & r & Hrun & Hgood & Hr). exists w', (map_err (λ _, e) r). unfold fail_with. rewrite Hrun. split_and!; [done|by destruct r|].
  intros a Ha. apply Hr. destruct r; [|done]. by injection Ha as ->.
Qed.
Lemma wp_wand {A} (m : Replay A) w (Q Q' : A → ReplayWorld → Prop) : wp m w Q → (∀ a w', Q a w' → Q' a w') → wp m w Q'.
Proof. intros (w' & r & Hrun & Hgood & Hr) HQ. exists w', r. split_and!; [done|done|]. intros a Ha. by apply HQ, Hr. Qed.

(** A world with other answers to come; when all is well there is nothing but
    success to come. *)
Definition with_answers (l : list bool) (w : ReplayWorld) : ReplayWorld :=
  mkReplayWorld (rw_directories w) (rw_files w) (rw_summary w) (rw_phase w) (rw_completed w) l.
Definition calm (l : list bool) : Prop := good → l = [].

Lemma wp_system_call w (Q : () → ReplayWorld → Prop) : calm (rw_answers w) → (∀ l, calm l → Q () (with_answers l w)) → wp system_call w Q.
Proof.
  intros Hc HQ. eexists _, _. split; [done|]. split.
  - intros Hg. by rewrite (Hc Hg).
  - intros [] _. apply (HQ (tail (rw_answers w))). intros Hg. by rewrite (Hc Hg).
Qed.

(** ** The steps of the command *)
Implicit Types (dirs : gset string) (files : gmap string OutputFile) (summary : option (list SummaryLine)) (phase completed : Z) (l : list bool).

Lemma wp_create_dir path dirs files summary phase completed l (Q : () → ReplayWorld → Prop) :
  calm l → (good → path ∉ dirs) → (∀ l', calm l' → path ∉ dirs → Q () (mkReplayWorld ({[path]} ∪ dirs) files summary phase completed l')) →
  wp (create_dir path) (mkReplayWorld dirs files summary phase completed l) Q.
Proof.
  intros Hc Hnew HQ. unfold wp, create_dir. cbn [rw_directories]. case_decide as Hin.
  - eexists _, _. split; [done|]. split; [|done]. by intros ?%Hnew.
  - apply wp_bind, wp_system_call; [done|]. intros l' Hl'. apply wp_modify. by apply HQ.
Qed.

Lemma wp_create_dir_all path dirs files summary phase completed l (Q : () → ReplayWorld → Prop) :
  calm l → (∀ l', calm l' → Q () (mkReplayWorld ({[path]} ∪ dirs) files summary phase completed l')) →
  wp (create_dir_all path) (mkReplayWorld dirs files summary phase completed l) Q.
Proof. intros Hc HQ. apply wp_bind, wp_system_call; [done|]. intros l' Hl'. by apply wp_modify, HQ. Qed.

Lemma wp_write_file name content dirs files summary phase completed l (Q : () → ReplayWorld → Prop) :
  calm l → (∀ l', calm l' → Q () (mkReplayWorld dirs (<[name := content]> files) summary phase completed l')) →
  wp (write_file name content) (mkReplayWorld dirs files summary phase completed l) Q.
Proof. intros Hc HQ. apply wp_bind, wp_system_call; [done|]. intros l' Hl'. by apply wp_modify, HQ. Qed.

Lemma wp_create_new name content dirs files summary phase completed l (Q : () → ReplayWorld → Prop) :
  calm l → (good → files !! name = None) → (∀ l', calm l' → Q () (mkReplayWorld dirs (<[name := content]> files) summary phase completed l')) →
  wp (create_new name content) (mkReplayWorld dirs files summary phase completed l) Q.
Proof.
  intros Hc Hnew HQ. unfold wp, create_new. cbn [rw_files]. destruct (files !! name) as [old|].
  - eexists _, _. split; [done|]. split; [|done]. by intros ?%Hnew.
  - by apply wp_write_file.
Qed.

Lemma wp_write_lines lines dirs files pending phase completed l (Q : () → ReplayWorld → Prop) :
  Q () (mkReplayWorld dirs files (Some (pending ++ lines)) phase completed l) →
  wp (write_lines lines) (mkReplayWorld dirs files (Some pending) phase completed l) Q.
Proof. intros HQ. by apply wp_modify. Qed.

Lemma wp_flush_summary dirs files pending phase completed l (Q : () → ReplayWorld → Prop) :
  calm l → (∀ l', calm l' → Q () (mkReplayWorld dirs (alter (append_lines pending) "summary.csv"%string files) (Some []) phase completed l')) →
  wp flush_summary (mkReplayWorld dirs files (Some pending) phase completed l) Q.
Proof. intros Hc HQ. apply wp_bind, wp_system_call; [done|]. intros l' Hl'. by apply wp_modify, HQ. Qed.

Lemma wp_write_distribution name values dirs files pending phase completed l (Q : () → ReplayWorld → Prop) :
  values ≠ [] →
  (∀ d, distribution values = Done d → Q () (mkReplayWorld dirs files (Some (pending ++ distribution_lines name d)) phase completed l)) →
  wp (write_distribution name values) (mkReplayWorld dirs files (Some pending) phase completed l) Q.
Proof.
  intros Hne HQ. destruct (distribution_correct values Hne) as (d & Hd & _). apply wp_bind. eapply wp_run_outcome; [exact Hd|]. by apply wp_write_lines, HQ.
Qed.

Lemma wp_write_snapshot name now phase' completed' dirs files summary phase completed l (Q : () → ReplayWorld → Prop) :
  calm l → (good → is_Some now) →
  (∀ l' ms, calm l' → now = Some ms → Q () (mkReplayWorld dirs (alter (append_snapshot (mkSnapshot ms phase' completed')) name files) summary phase completed l')) →
  wp (write_metrics_snapshot name now phase' completed') (mkReplayWorld dirs files summary phase completed l) Q.
Proof.
  intros Hc Hnow HQ. apply wp_bind, wp_bind, wp_try.
  - intros [ms ->]%Hnow. done.
  - intros ms Hms. apply wp_ret, wp_bind, wp_system_call; [done|]. intros l' Hl'. apply wp_modify, HQ; [done|]. destruct now; [|done]. by injection Hms as ->.
Qed.

Lemma wp_snapshot_file name now dirs files summary phase completed l (Q : () → ReplayWorld → Prop) :
  calm l → (good → is_Some now) → (good → files !! name = None) →
  (∀ l' ms, calm l' → now = Some ms → Q () (mkReplayWorld dirs (<[name := MetricsFile [mkSnapshot ms phase completed]]> files) summary phase completed l')) →
  wp (snapshot_file name now) (mkReplayWorld dirs files summary phase completed l) Q.
Proof.
  intros Hc Hnow Hnew HQ. apply wp_bind, wp_create_new; [done|done|]. intros l' Hl'. apply wp_bind, wp_asks. apply wp_bind, wp_asks. cbn [rw_phase rw_completed].
  apply wp_write_snapshot; [done|done|]. intros l2 ms Hl2 Hms. rewrite alter_insert_eq. cbn [append_snapshot app]. by apply HQ.
Qed.

(** The sampler writes one snapshot per wake, up to the one that stops it. *)
Fixpoint until_stop (wakes : list Wake) : list Wake :=
  match wakes with
  | [] => []
  | wake :: wakes => if wake_stopping wake then [wake] else wake :: until_stop wakes
  end.
Definition snapshot_of (wake : Wake) : Snapshot := mkSnapshot (default 0 (wake_now wake)) (wake_phase wake) (wake_completed wake).

Lemma wp_sampler wakes : ∀ dirs files old summary phase completed l (Q : () → ReplayWorld → Prop),
  calm l → (good → Forall (λ wake, is_Some (wake_now wake)) wakes) → files !! "metrics.prom"%string = Some (MetricsFile old) →
  (∀ l', calm l' → Q () (mkReplayWorld dirs (<["metrics.prom"%string := MetricsFile (old ++ (snapshot_of <$> until_stop wakes))]> files) summary phase completed l')) →
  wp (sampler wakes) (mkReplayWorld dirs files summary phase completed l) Q.
Proof.
  induction wakes as [|wake wakes IH]; intros dirs files old summary phase completed l Q Hc Hnow Hfile HQ; cbn [sampler until_stop].
  { apply wp_ret. specialize (HQ l Hc). cbn in HQ. rewrite app_nil_r, insert_id in HQ by done. exact HQ. }
  apply wp_bind, wp_write_snapshot; [done|intros Hg; by specialize (Hnow Hg); apply Forall_cons in Hnow as [? _]|]. intros l' ms Hl' Hms.
  assert (Hsnap : mkSnapshot ms (wake_phase wake) (wake_completed wake) = snapshot_of wake) by (unfold snapshot_of; by rewrite Hms). rewrite Hsnap.
  assert (Hfile' : alter (append_snapshot (snapshot_of wake)) "metrics.prom"%string files = <["metrics.prom"%string := MetricsFile (old ++ [snapshot_of wake])]> files).
  { apply map_eq. intros k. destruct (decide (k = "metrics.prom"%string)) as [->|Hne].
    - rewrite lookup_alter_eq, lookup_insert_eq, Hfile. done.
    - by rewrite lookup_alter_ne, lookup_insert_ne. }
  rewrite Hfile'. cbn [until_stop] in HQ. destruct (wake_stopping wake).
  - apply wp_ret. by apply HQ.
  - eapply (IH dirs _ (old ++ [snapshot_of wake])); [done|intros Hg; by specialize (Hnow Hg); apply Forall_cons in Hnow as [_ ?]|by rewrite lookup_insert_eq|].
    intros l2 Hl2. rewrite insert_insert_eq. specialize (HQ l2 Hl2). by rewrite <-app_assoc.
Qed.
End wp.

(** ** The timings *)
Section timings.
Context (origin : Z).

(** The assertions after the run hold: each index was collected once. *)
Lemma check_timings_ok n timings :
  timing_index <$> timings ≡ₚ seq 0 n → ∃ ts, check_timings n timings = Done ts ∧ ts ≡ₚ timings ∧ timing_index <$> ts = seq 0 n.
Proof.
  intros Hp. set (ts := merge_sort timing_le timings). assert (Hperm : ts ≡ₚ timings) by apply merge_sort_Permutation.
  assert (Hs : StronglySorted Nat.le (timing_index <$> ts)).
  { assert (Hs : StronglySorted timing_le ts).
    { apply StronglySorted_merge_sort; [intros a b c; unfold timing_le; lia|intros a b; unfold timing_le; lia]. }
    clear -Hs. induction Hs as [|t ts' _ IH Hall]; cbn; constructor; [done|]. by apply Forall_fmap. }
  assert (Hidx : timing_index <$> ts = seq 0 n).
  { apply (StronglySorted_unique Nat.le); [done|apply seq_sorted|]. by rewrite Hperm. }
  exists ts. split; [|done]. unfold check_timings. fold ts. assert (Hlen : length ts = n) by (rewrite <-(length_fmap timing_index), Hidx; apply length_seq).
  rewrite Hlen, Nat.eqb_refl. cbn [assert_that mbind outcome_bind].
  assert (Hall : forallb (λ it : nat * RequestTimings, (it.1 =? timing_index it.2)%nat) (imap pair ts) = true).
  { apply forallb_forall. intros [i t] Hin%list_elem_of_In. apply elem_of_lookup_imap in Hin as (j & t' & [= -> ->] & Hj). cbn. apply Nat.eqb_eq.
    assert (Hj' : (timing_index <$> ts) !! j = Some (timing_index t')) by (by rewrite list_lookup_fmap, Hj). rewrite Hidx in Hj'. apply lookup_seq in Hj' as [Hj' _]. lia. }
  by rewrite Hall.
Qed.

(** Nothing overflows while the clock's readings stay below [2 ^ 62] nanoseconds,
    which is 146 years. *)
Definition clock_ok (a : Arrival) : Prop :=
  0 ≤ origin + req_time_ns (arrival_request a) ∧ 0 ≤ sent_at a < 2 ^ 62 ∧ 0 ≤ started_at a < 2 ^ 62 ∧ finished_at a < 2 ^ 62.
Definition total_ns (t : RequestTimings) : Z := sender_lateness_ns t + queue_wait_ns t + service_ns t.

Lemma totals_ok arrivals :
  Forall clock_ok arrivals → all_scheduled_to_complete (arrival_timings origin <$> arrivals) = Done (total_ns <$> (arrival_timings origin <$> arrivals)).
Proof.
  induction 1 as [|a arrivals (Hd & Hs & Ht & Hf) _ IH]; [done|]. cbn [fmap list_fmap all_scheduled_to_complete].
  assert (Hw : ∀ x y, 0 ≤ y → x < 2 ^ 62 → 0 ≤ u64_wrap (saturating_sub x y) < 2 ^ 62).
  { intros x y Hy Hx. unfold u64_wrap, saturating_sub. rewrite Z.mod_small by lia. lia. }
  pose proof (Hw (sent_at a) _ Hd ltac:(lia)). pose proof (Hw (started_at a) (sent_at a) ltac:(lia) ltac:(lia)). pose proof (Hw (finished_at a) (started_at a) ltac:(lia) ltac:(lia)).
  unfold scheduled_to_complete, u64_add. cbn [arrival_timings sender_lateness_ns queue_wait_ns service_ns] in *. rewrite (proj2 (Z.leb_le _ _)) by (unfold u64_max; lia).
  cbn [assert_that mbind outcome_bind]. rewrite (proj2 (Z.leb_le _ _)) by (unfold u64_max; lia). cbn [assert_that mbind outcome_bind].
  rewrite IH. done.
Qed.
End timings.

(** ** What a replay reports *)

(** The readings of the clocks. *)
Definition clocks_ok (origin : Z) (sc : Schedule) (rs : list Request) : Prop :=
  (∀ i, 0 ≤ sc_clock sc i < 2 ^ 62 ∧ 0 ≤ sc_started sc i < 2 ^ 62 ∧ sc_finished sc i < 2 ^ 62) ∧ ∀ r, r ∈ rs → 0 ≤ origin + req_time_ns r.

(** A right summary of some durations. *)
Definition summarises (values : list Z) (d : Distribution) : Prop :=
  distribution values = Done d ∧ is_percentile values 50 (p50 d) ∧ is_percentile values 95 (p95 d) ∧ is_percentile values 99 (p99 d)
  ∧ maximum d ∈ values ∧ ∀ v, v ∈ values → v ≤ maximum d.

(** The lines after the settings. *)
Definition opening_lines (inputs : ReplayInputs) (config : CacheConfig) : list SummaryLine :=
  [("open_seconds"%string, VFloat (as_secs_f64 (ri_opening_ns inputs))); ("access_count_half_life"%string, VInt (access_count_half_life config))].
Definition execution_lines (inputs : ReplayInputs) (last : Request) : list SummaryLine :=
  [("execution_seconds"%string, VFloat (as_secs_f64 (ri_finished_ns inputs)));
   ("backlog_drain_seconds"%string, VFloat (as_secs_f64 (saturating_sub (ri_finished_ns inputs) (req_time_ns last))));
   ("observation_tail_seconds"%string, VInt 5)].

Record reported (args : Args) (inputs : ReplayInputs) (t : TraceRequests) (config : CacheConfig) (files : gmap string OutputFile) : Prop := mkReported {
  rp_summary : ∃ sent last d1 d2 d3 d4, let arrivals := arrivals_of (ri_schedule inputs) (requests t) sent in
    arrival_request <$> arrivals = requests t ∧ Forall (λ a, ri_origin inputs + req_time_ns (arrival_request a) < sent_at a) arrivals
    ∧ list.last (requests t) = Some last
    ∧ (let timings := arrival_timings (ri_origin inputs) <$> arrivals in
       summarises (sender_lateness_ns <$> timings) d1 ∧ summarises (queue_wait_ns <$> timings) d2 ∧ summarises (service_ns <$> timings) d3 ∧ summarises (total_ns <$> timings) d4)
    ∧ files !! "summary.csv"%string = Some (SummaryFile (settings_lines args (ri_workers inputs) t last ++ opening_lines inputs config ++ execution_lines inputs last
         ++ distribution_lines "sender_lateness" d1 ++ distribution_lines "queue_wait" d2 ++ distribution_lines "service" d3 ++ distribution_lines "scheduled_to_complete" d4));
  rp_pid : files !! "pid.txt"%string = Some (PidFile (ri_pid inputs));
  rp_snapshots : ∃ ms1 ms2 ms3, let n := Z.of_nat (length (requests t)) in
    files !! "before.prom"%string = Some (MetricsFile [mkSnapshot ms1 0 0])
    ∧ files !! "requests-finished.prom"%string = Some (MetricsFile [mkSnapshot ms2 2 n])
    ∧ files !! "settled.prom"%string = Some (MetricsFile [mkSnapshot ms3 2 n]);
  rp_samples : files !! "metrics.prom"%string = Some (MetricsFile (snapshot_of <$> until_stop (ri_wakes inputs)))
}.

Lemma summarises_of values : values ≠ [] → ∀ d, distribution values = Done d → summarises values d.
Proof. intros Hne d Hd. destruct (distribution_correct values Hne) as (d' & Hd' & H'). rewrite Hd in Hd'. injection Hd' as <-. by split. Qed.

(** Loading ends, whatever the file holds. *)
Lemma load_requests_from_done archive_entries path file seconds : ∃ r, load_requests_from archive_entries path file seconds = Done r.
Proof.
  unfold load_requests_from. assert (Hv : ∃ evs, visit_events archive_entries path file = Done evs).
  { unfold visit_events. destruct file as [bytes|message]; [|by eexists]. case_bool_decide; [by eexists|]. destruct (negb _); [by eexists|].
    destruct (archive_entries bytes) as [entries|message]; [|by eexists]. destruct (visit_entries_done entries None) as (evs & Hrun & _). by exists evs. }
  destruct Hv as (evs & Hv). rewrite Hv. cbn [mbind outcome_bind].
  destruct (decide (Forall (λ r, is_ok r = true) evs)) as [Hok|Hbad]; [|destruct (load_requests_error evs seconds Hbad) as [e He]; by exists (Err e)].
  apply all_ok_events in Hok as [es ->]. destruct (load_requests_spec es seconds) as (r & Hr & _); [|by exists r].
  apply Forall_forall. intros e He. apply (visit_events_wf archive_entries path file (Ok <$> es)); [done|]. apply list_elem_of_fmap. by exists e.
Qed.

(** The records of all requests, sorted by their index. *)
Lemma sorted_arrivals origin sc rs sent ts :
  length sent = length rs → ts ≡ₚ arrival_timings origin <$> arrivals_of sc rs sent → timing_index <$> ts = seq 0 (length rs) →
  ts = arrival_timings origin <$> arrivals_of sc rs sent.
Proof.
  intros Hl Hp Hidx. apply Permutation_map_inv in Hp as (arrivals & -> & Hp). rewrite <-list_fmap_compose in Hidx. change (list_fmap _ _ (arrival_timings origin) ?l) with (arrival_timings origin <$> l).
  f_equal. apply list_eq. intros i. assert (Hi : (timing_index ∘ arrival_timings origin <$> arrivals) !! i = seq 0 (length rs) !! i) by (by rewrite Hidx).
  rewrite list_lookup_fmap in Hi. destruct (arrivals !! i) as [a|] eqn:Ha; cbn in Hi.
  - symmetry in Hi. apply lookup_seq in Hi as [Hi _]. cbn in Hi. assert (Hin : a ∈ arrivals_of sc rs sent) by (rewrite Hp; by eapply list_elem_of_lookup_2).
    apply list_elem_of_lookup in Hin as [j Hj]. destruct (arrivals_lookup rs sc sent j a Hj) as (Hja & _). congruence.
  - symmetry in Hi. apply lookup_ge_None in Hi. rewrite length_seq in Hi. symmetry. apply lookup_ge_None. by rewrite length_arrivals.
Qed.

(** What the arrivals of a run are. *)
Lemma arrivals_facts origin sc rs sent :
  length sent = length rs → Forall2 (λ r s, origin + req_time_ns r < s.2) rs sent → (∀ msg, msg ∈ sent → ∃ i, msg.2 = sc_clock sc i) → clocks_ok origin sc rs →
  arrival_index <$> arrivals_of sc rs sent = seq 0 (length rs) ∧ Forall (clock_ok origin) (arrivals_of sc rs sent)
  ∧ Forall (λ a, origin + req_time_ns (arrival_request a) < sent_at a) (arrivals_of sc rs sent).
Proof.
  intros Hl Hlate Hread [Hclock Horigin]. split_and!.
  - apply list_eq. intros i. rewrite list_lookup_fmap. destruct (arrivals_of sc rs sent !! i) as [a|] eqn:Ha; cbn.
    + destruct (arrivals_lookup rs sc sent i a Ha) as (-> & Hr & _). rewrite lookup_seq_lt; [done|]. by eapply lookup_lt_Some.
    + apply lookup_ge_None in Ha. rewrite length_arrivals in Ha by done. by rewrite lookup_seq_ge.
  - apply Forall_lookup. intros i a Ha. unfold arrivals_of in Ha. rewrite list_lookup_imap, fmap_Some in Ha. destruct Ha as ([r msg] & [Hr Hm]%lookup_zip_Some & ->).
    destruct (Hread msg) as [j Hj]; [by eapply list_elem_of_lookup_2|]. unfold clock_ok. cbn [arrival_request sent_at started_at finished_at fst snd]. rewrite Hj.
    destruct (Hclock j) as (? & _ & _), (Hclock i) as (_ & ? & ?). split_and!; try lia. apply Horigin. by eapply list_elem_of_lookup_2.
  - apply Forall_lookup. intros i a Ha. unfold arrivals_of in Ha. rewrite list_lookup_imap, fmap_Some in Ha. destruct Ha as ([r msg] & [Hr Hm]%lookup_zip_Some & ->).
    cbn. exact (Forall2_lookup_lr _ _ _ _ _ _ Hlate Hr Hm).
Qed.

(** ** The command never panics *)
Section correct.
Context `{HasherOk} `{StorageFileOk F} `{!PayloadReader F} `{!PayloadReaderOk F} `{FxHasher}.
Context (archive_entries : list byte → result string (list (result string ArchiveEntry))) (parse_byte_size : string → option Z).
Context (open_data_file : string → string → Z → outcome (result DataFileError F)) (env : Environment) (key_hash : string → Z) (args : Args) (inputs : ReplayInputs).
Local Abbreviation loaded := (load_requests_from archive_entries (input args) (ri_file inputs) (trace_seconds args)).
Local Abbreviation opened := (open_cache parse_byte_size open_data_file env (replay_builder args) (ri_allocations inputs)).

(** Nothing outside fails. *)
Record replay_faultless (w : ReplayWorld) : Prop := mkReplayFaultless {
  rf_answers : rw_answers w = [];
  rf_cache_dir : cache_dir args ∉ rw_directories w;
  rf_files : Forall (λ name, rw_files w !! name = None) ["summary.csv"; "before.prom"; "metrics.prom"; "requests-finished.prom"; "settled.prom"]%string;
  rf_trace : ∃ t, loaded = Done (Ok t);
  rf_open : ∃ x, opened = Done (Ok x);
  rf_buffers : ∀ i, is_Some (sc_buffers (ri_schedule inputs) i);
  rf_clocks : is_Some (ri_before inputs) ∧ is_Some (ri_finished inputs) ∧ is_Some (ri_settled inputs) ∧ Forall (λ wake, is_Some (wake_now wake)) (ri_wakes inputs)
}.

(** The settings are of their types, the data file is in the directory the command
    creates, so it is new, and hashes tell the objects of the trace apart. *)
Context (Hargs : builder_ok (replay_builder args)) (Hdisk : disk_bytes args < 2 ^ 57).
Context (Hfiles : OpensDataFiles (open_data_file (cache_dir args) "data")).
Context (Hnew : ∀ cap f, open_data_file (cache_dir args) "data" cap = Done (Ok f) → header_matches (disk_header (contents f)) 0 cap = false).
Context (Hhash : ∀ t, loaded = Done (Ok t) → ∀ r, r ∈ requests t → is_u128 (key_hash (req_object_key r))).
Context (Hinj : ∀ t, loaded = Done (Ok t) → ∀ r1 r2, r1 ∈ requests t → r2 ∈ requests t → key_hash (req_object_key r1) = key_hash (req_object_key r2) → req_object_key r1 = req_object_key r2).
Context (Hsched : ∀ t, loaded = Done (Ok t) → schedule_ok (ri_origin inputs) (ri_schedule inputs) (requests t)).
Context (Hclock : ∀ t, loaded = Done (Ok t) → clocks_ok (ri_origin inputs) (ri_schedule inputs) (requests t)).
Context (dirs : gset string) (files : gmap string OutputFile) (l : list bool).
Local Abbreviation w0 := (mkReplayWorld dirs files None 0 0 l).
Local Abbreviation good := (replay_faultless w0).
Local Abbreviation wp := (wp good).
Local Abbreviation calm := (calm good).

Lemma replay_builder_fields : b_directory (replay_builder args) = cache_dir args ∧ b_file_name (replay_builder args) = "data"%string
  ∧ b_disk_capacity (replay_builder args) = disk_bytes args ∧ b_payload_version (replay_builder args) = 0.
Proof. unfold replay_builder. by destruct (arg_access_count_half_life args). Qed.

(** The opened cache is at rest, and holds nothing. *)
Lemma opened_at_rest : ∃ r, opened = Done r ∧ ∀ config c, r = Ok (config, c) →
  (0 < Z.to_nat (cfg_reclaim_sample_size config))%nat ∧ ∃ bounds, ∀ source, cache_ok bounds [] c ∧ faithful source c.
Proof.
  destruct replay_builder_fields as (Hd & Hn & Hc & Hv).
  destruct (open_cache_at_rest parse_byte_size open_data_file env (replay_builder args) (ri_allocations inputs)) as (r & Hrun & _ & Hok); [by rewrite Hd, Hn|done|by rewrite Hc|].
  exists r. split; [done|]. intros config c Hr. destruct (Hok config c Hr) as (Hres & Hsize & _ & Hrest). split; [done|]. apply Hrest.
  pose proof (resolve_config_spec parse_byte_size env (replay_builder args) Hargs) as Hspec. rewrite Hres in Hspec.
  destruct Hspec as (_ & _ & _ & _ & _ & _ & _ & _ & Heq). injection Heq as -> -> -> _ _. rewrite Hd, Hn, Hv. intros f. apply Hnew.
Qed.

(** The files before the run. *)
Definition prepared_files (t : TraceRequests) (last : Request) (ms : Z) : gmap string OutputFile :=
  <["metrics.prom"%string := MetricsFile []]> (<["before.prom"%string := MetricsFile [mkSnapshot ms 0 0]]>
    (<["summary.csv"%string := SummaryFile (settings_lines args (ri_workers inputs) t last)]> (<["pid.txt"%string := PidFile (ri_pid inputs)]> files))).

(** The summary before the cache is opened. *)
Definition settings_files (t : TraceRequests) (last : Request) : gmap string OutputFile :=
  <["summary.csv"%string := SummaryFile (settings_lines args (ri_workers inputs) t last)]> (<["pid.txt"%string := PidFile (ri_pid inputs)]> files).

Lemma fresh_file name : good → name ∈ ["summary.csv"; "before.prom"; "metrics.prom"; "requests-finished.prom"; "settled.prom"]%string → files !! name = None.
Proof. intros [_ _ Hf _ _ _ _] Hin. cbn [rw_files] in Hf. rewrite Forall_forall in Hf. by apply Hf. Qed.

Lemma wp_prepare_files :
  wp (prepare_files archive_entries args inputs) w0
    (λ '(t, last) w, ∃ dirs' l', loaded = Done (Ok t) ∧ list.last (requests t) = Some last ∧ calm l' ∧ w = mkReplayWorld dirs' (settings_files t last) (Some []) 0 0 l').
Proof.
  unfold prepare_files. destruct (load_requests_from_done archive_entries (input args) (ri_file inputs) (trace_seconds args)) as (r & Hload).
  apply wp_bind. eapply wp_run_outcome; [exact Hload|]. apply wp_bind, wp_try; [intros [_ _ _ (t & Ht) _ _ _]; rewrite Hload in Ht; by injection Ht as ->|].
  intros t ->. apply wp_bind, wp_create_dir; [by intros [Hl _ _ _ _ _ _]|by intros [_ Hd _ _ _ _ _]|]. intros l1 Hl1 _.
  apply wp_bind, wp_create_dir_all; [done|]. intros l2 Hl2. apply wp_bind, wp_write_file; [done|]. intros l3 Hl3.
  apply wp_bind, wp_create_new; [done|intros Hg; rewrite lookup_insert_ne by done; apply fresh_file; [done|set_solver]|]. intros l4 Hl4. apply wp_bind, wp_modify.
  destruct (loaded_lengths _ _ _ _ _ Hload) as (Hne & _). destruct (list.last (requests t)) as [last|] eqn:Hlast; [|by apply last_None in Hlast].
  apply wp_bind. eapply wp_run_outcome; [done|]. unfold with_summary. cbn [rw_directories rw_files rw_phase rw_completed rw_answers].
  apply wp_bind, wp_write_lines. apply wp_bind, wp_flush_summary; [done|]. intros l5 Hl5. rewrite alter_insert_eq. cbn [append_lines app]. apply wp_ret.
  exists ({[output args]} ∪ ({[cache_dir args]} ∪ dirs)), l5. by split_and!.
Qed.

Lemma wp_open_for_replay t last dirs' l1 : calm l1 →
  wp (open_for_replay parse_byte_size open_data_file env args inputs) (mkReplayWorld dirs' (settings_files t last) (Some []) 0 0 l1)
    (λ '(config, c) w, ∃ ms l', opened = Done (Ok (config, c)) ∧ calm l' ∧ w = mkReplayWorld dirs' (prepared_files t last ms) (Some (opening_lines inputs config)) 0 0 l').
Proof.
  intros Hl1. unfold open_for_replay. destruct opened_at_rest as (ro & Hopen & _). apply wp_bind. eapply wp_run_outcome; [exact Hopen|].
  apply wp_bind, wp_try; [intros [_ _ _ _ (x & Hx) _ _]; rewrite Hopen in Hx; by injection Hx as ->|]. intros [config c] ->. apply wp_bind, wp_write_lines. cbn [app]. unfold settings_files.
  apply wp_bind, wp_snapshot_file; [done|by intros [_ _ _ _ _ _ (? & _)]|intros Hg; rewrite !lookup_insert_ne by done; apply fresh_file; [done|set_solver]|]. intros l6 ms Hl6 _.
  apply wp_bind, wp_create_new; [done|intros Hg; rewrite !lookup_insert_ne by done; apply fresh_file; [done|set_solver]|]. intros l7 Hl7. apply wp_ret. exists ms, l7. by split_and!.
Qed.

(** The run ends with one record of each request unless a download failed. *)
Lemma wp_run_all t config c dirs' files' summary l' :
  loaded = Done (Ok t) → opened = Done (Ok (config, c)) →
  wp (run_all key_hash args inputs config c (requests t)) (mkReplayWorld dirs' files' summary 1 0 l')
    (λ '(_, timings) w, ∃ sent, length sent = length (requests t) ∧ Forall2 (λ r s, ri_origin inputs + req_time_ns r < s.2) (requests t) sent
       ∧ (∀ msg, msg ∈ sent → ∃ i, msg.2 = sc_clock (ri_schedule inputs) i)
       ∧ timings ≡ₚ arrival_timings (ri_origin inputs) <$> arrivals_of (ri_schedule inputs) (requests t) sent
       ∧ w = mkReplayWorld dirs' files' summary 1 (Z.of_nat (length (requests t))) l').
Proof.
  intros Hload Hopen. destruct opened_at_rest as (ro & Hopen' & Hrest). rewrite Hopen in Hopen'. injection Hopen' as <-. destruct (Hrest config c eq_refl) as (Hsize & bounds & Hc).
  destruct (Hc (synthetic_object key_hash (requests t))) as [Hok Hfa]. destruct (loaded_lengths _ _ _ _ _ Hload) as (_ & Hlen & Hsame).
  destruct (run_lookups_spec (replay_scorer (replay_costs args).1) (replay_scorer (replay_costs args).2) _ Hsize bounds [] key_hash (ri_origin inputs) (requests t) (Hhash t Hload) (Hinj t Hload) Hlen Hsame
    (ri_schedule inputs) (Hsched t Hload) 0 c Hok Hfa) as (sent & c' & completed & r & Hrun & Hl & Hlate & Hread & Hr).
  unfold run_all. destruct (replay_costs args) as [memory_cost disk_cost]. apply wp_bind, wp_asks. cbn [rw_completed]. apply wp_bind. eapply wp_run_outcome; [exact Hrun|]. apply wp_bind, wp_modify. apply wp_bind, wp_try.
  - intros [_ _ _ _ _ Hb _]. destruct r as [timings|e]; [done|]. destruct Hr as (i & _ & Hi). destruct (Hb i). congruence.
  - intros timings ->. destruct Hr as [Hp ->]. apply wp_ret. exists sent. by split_and!.
Qed.

(** The summary's end describes the lookups. *)
Lemma wp_report_timings t sent timings dirs' files' pending phase completed l' :
  loaded = Done (Ok t) → length sent = length (requests t) → Forall2 (λ r s, ri_origin inputs + req_time_ns r < s.2) (requests t) sent →
  (∀ msg, msg ∈ sent → ∃ i, msg.2 = sc_clock (ri_schedule inputs) i) →
  timings ≡ₚ arrival_timings (ri_origin inputs) <$> arrivals_of (ri_schedule inputs) (requests t) sent →
  wp (report_timings (length (requests t)) timings) (mkReplayWorld dirs' files' (Some pending) phase completed l')
    (λ _ w, ∃ d1 d2 d3 d4, let timings := arrival_timings (ri_origin inputs) <$> arrivals_of (ri_schedule inputs) (requests t) sent in
       (summarises (sender_lateness_ns <$> timings) d1 ∧ summarises (queue_wait_ns <$> timings) d2 ∧ summarises (service_ns <$> timings) d3 ∧ summarises (total_ns <$> timings) d4)
       ∧ w = mkReplayWorld dirs' files' (Some (pending ++ distribution_lines "sender_lateness" d1 ++ distribution_lines "queue_wait" d2
               ++ distribution_lines "service" d3 ++ distribution_lines "scheduled_to_complete" d4)) phase completed l').
Proof.
  intros Hload Hl Hlate Hread Hperm. destruct (arrivals_facts _ _ _ _ Hl Hlate Hread (Hclock t Hload)) as (Hidx & Hclocks & _). destruct (loaded_lengths _ _ _ _ _ Hload) as (Hne & _).
  destruct (check_timings_ok (length (requests t)) timings) as (ts & Hcheck & Hp & Htidx); [by rewrite Hperm, <-list_fmap_compose, <-Hidx|].
  assert (ts = arrival_timings (ri_origin inputs) <$> arrivals_of (ri_schedule inputs) (requests t) sent) as -> by (apply sorted_arrivals; [done|by rewrite Hp|done]).
  assert (Hnil : ∀ f : RequestTimings → Z, f <$> (arrival_timings (ri_origin inputs) <$> arrivals_of (ri_schedule inputs) (requests t) sent) ≠ []).
  { intros f Hf. apply fmap_nil_inv, fmap_nil_inv in Hf. apply Hne, nil_length_inv. by rewrite <-(length_arrivals _ (ri_schedule inputs) sent Hl), Hf. }
  unfold report_timings. apply wp_bind. eapply wp_run_outcome; [exact Hcheck|].
  apply wp_bind, wp_write_distribution; [apply Hnil|]. intros d1 Hd1. apply wp_bind, wp_write_distribution; [apply Hnil|]. intros d2 Hd2.
  apply wp_bind, wp_write_distribution; [apply Hnil|]. intros d3 Hd3. apply wp_bind. eapply wp_run_outcome; [by apply totals_ok|].
  apply wp_write_distribution; [apply Hnil|]. intros d4 Hd4. exists d1, d2, d3, d4.
  split_and!; [by apply summarises_of; [apply Hnil|]..|]. by rewrite <-!app_assoc.
Qed.

Lemma replay_body_wp : wp (replay_body archive_entries parse_byte_size open_data_file env key_hash args inputs) w0
  (λ _ w, rw_summary w = Some [] ∧ ∃ t config c, loaded = Done (Ok t) ∧ opened = Done (Ok (config, c)) ∧ reported args inputs t config (rw_files w)).
Proof.
  unfold replay_body. apply wp_bind. eapply wp_wand; [exact wp_prepare_files|]. intros [t last] w (dirs' & l0 & Hload & Hlast & Hl0 & ->).
  apply wp_bind. eapply wp_wand; [by apply wp_open_for_replay|]. intros [config c] w (ms & l1 & Hopen & Hl1 & ->).
  apply wp_bind, wp_modify. cbn [rw_directories rw_files rw_summary rw_completed rw_answers].
  apply wp_bind. eapply wp_wand; [by apply (wp_run_all t)|]. intros [c' timings] w (sent & Hl & Hlate & Hread & Hperm & ->). apply wp_bind, wp_modify. cbn [rw_directories rw_files rw_summary rw_completed rw_answers].
  unfold prepared_files.
  apply wp_bind, wp_snapshot_file; [done|by intros [_ _ _ _ _ _ (_ & ? & _)]|intros Hg; rewrite !lookup_insert_ne by done; apply fresh_file; [done|set_solver]|]. intros l2 ms2 Hl2 _.
  apply wp_bind, wp_snapshot_file; [done|by intros [_ _ _ _ _ _ (_ & _ & ? & _)]|intros Hg; rewrite !lookup_insert_ne by done; apply fresh_file; [done|set_solver]|]. intros l3 ms3 Hl3 _.
  apply wp_bind, wp_modify. cbn [rw_directories rw_files rw_summary rw_completed rw_answers].
  apply wp_bind, wp_fail_with. eapply (wp_sampler _ _ _ _ []); [done|by intros [_ _ _ _ _ _ (_ & _ & _ & ?)]|by rewrite !lookup_insert_ne, lookup_insert_eq by done|]. intros l4 Hl4. cbn [app].
  apply wp_bind, wp_write_lines. apply wp_bind. eapply wp_wand; [by apply (wp_report_timings t sent)|]. intros [] w (d1 & d2 & d3 & d4 & Hsum & ->).
  apply wp_flush_summary; [done|]. intros l5 Hl5. split; [done|]. exists t, config, c. split_and!; [done|done|]. cbn [rw_files]. constructor.
  - exists sent, last, d1, d2, d3, d4. cbn zeta. destruct Hsum as (Hs1 & Hs2 & Hs3 & Hs4).
    split_and!; [by apply arrivals_requests|by apply arrivals_facts; [..|apply Hclock]|done|done|done|done|done|]. rewrite lookup_alter_eq, !lookup_insert_ne, lookup_insert_eq by done.
    cbn [fmap option_fmap option_map append_lines]. by rewrite <-!app_assoc.
  - by rewrite lookup_alter_ne, !lookup_insert_ne, lookup_insert_eq by done.
  - exists ms, ms2, ms3. split_and!; rewrite lookup_alter_ne by done.
    + by rewrite !lookup_insert_ne, lookup_insert_eq by done.
    + by rewrite !lookup_insert_ne, lookup_insert_eq by done.
    + by rewrite lookup_insert_ne, lookup_insert_eq by done.
  - by rewrite lookup_alter_ne, lookup_insert_eq by done.
Qed.
End correct.

(** Dropping a writer with nothing buffered writes nothing. *)
Lemma close_flushed w : rw_summary w = Some [] → rw_files (close_summary w) = rw_files w.
Proof.
  intros Hs. unfold close_summary. rewrite Hs. unfold flush_summary, mbind, replay_bind, system_call, modify.
  destruct (default true (head (rw_answers w))); [|done]. cbn [with_summary with_files rw_files rw_summary]. rewrite Hs. apply alter_id.
  intros [] _; cbn; by rewrite ?app_nil_r.
Qed.

(** C11: a replay ends with a right report, when hashes tell the objects of the trace
    apart, the data file is new and has the capacity it was opened with, the disk
    capacity is below 2^57 bytes, the clock is below 2^62 ns, does not go back and
    passes every deadline, and allocated buffers hold their objects.  Whatever the trace, the output directory, the system's
    answers and the order in which sender, receiver, tasks and background work run, the
    command ends and does not panic: the trace has a last request, every lookup that
    returns gets an object of the recorded length, and without a failed download each
    request was collected exactly once.  A trace that does not load changes nothing.
    When the command succeeds the summary holds the settings, then right percentiles of
    the lateness, waiting, service and total times of exactly the requests of the trace,
    each sent after its deadline; the snapshots show all requests completed, and the
    sampler has written one sample per wake up to the one that stopped it.  It succeeds
    whenever nothing outside fails. *)
Theorem replay_reports `{HasherOk} `{StorageFileOk F} `{!PayloadReader F} `{!PayloadReaderOk F} `{FxHasher}
    archive_entries parse_byte_size (open_data_file : string → string → Z → outcome (result DataFileError F)) env key_hash args inputs w :
  let loaded := load_requests_from archive_entries (input args) (ri_file inputs) (trace_seconds args) in
  builder_ok (replay_builder args) → disk_bytes args < 2 ^ 57 → OpensDataFiles (open_data_file (cache_dir args) "data") →
  (∀ cap f, open_data_file (cache_dir args) "data" cap = Done (Ok f) → header_matches (disk_header (contents f)) 0 cap = false) →
  (∀ t, loaded = Done (Ok t) → ∀ r, r ∈ requests t → is_u128 (key_hash (req_object_key r))) →
  (∀ t, loaded = Done (Ok t) → ∀ r1 r2, r1 ∈ requests t → r2 ∈ requests t → key_hash (req_object_key r1) = key_hash (req_object_key r2) → req_object_key r1 = req_object_key r2) →
  (∀ t, loaded = Done (Ok t) → schedule_ok (ri_origin inputs) (ri_schedule inputs) (requests t)) →
  (∀ t, loaded = Done (Ok t) → clocks_ok (ri_origin inputs) (ri_schedule inputs) (requests t)) →
  rw_summary w = None → rw_phase w = 0 → rw_completed w = 0 →
  ∃ w' r, replay archive_entries parse_byte_size open_data_file env key_hash args inputs w = Done (w', r)
    ∧ (∀ e, loaded = Done (Err e) → w' = w ∧ r = Err (ReplayTrace e))
    ∧ (r = Ok () → ∃ t config c, loaded = Done (Ok t)
         ∧ open_cache parse_byte_size open_data_file env (replay_builder args) (ri_allocations inputs) = Done (Ok (config, c))
         ∧ reported args inputs t config (rw_files w'))
    ∧ (replay_faultless archive_entries parse_byte_size open_data_file env args inputs w → r = Ok ()).
Proof.
  intros loaded Hargs Hdisk Hfiles Hnew Hhash Hinj Hsched Hclock Hs Hp Hc. destruct w as [dirs files summary phase completed l]. cbn in Hs, Hp, Hc. subst summary phase completed.
  destruct (replay_body_wp archive_entries parse_byte_size open_data_file env key_hash args inputs Hargs Hdisk Hfiles Hnew Hhash Hinj Hsched Hclock dirs files l)
    as (w' & r & Hrun & Hgood & Hok).
  exists (close_summary w'), r. unfold replay. rewrite Hrun. split_and!; [done| | |].
  - intros e He. unfold replay_body, prepare_files, mbind, replay_bind, run_outcome in Hrun. fold loaded in Hrun. rewrite He in Hrun. cbn in Hrun. by injection Hrun as <- <-.
  - intros ->. destruct (Hok () eq_refl) as (Hsum & t & config & c & Hload & Hopen & Hrep). exists t, config, c. split_and!; [done|done|]. by rewrite close_flushed.
  - intros Hg. specialize (Hgood Hg). by destruct r as [[]|].
Qed.

(** One request, replayed in memory into an empty output directory. *)
Definition sample_args : Args := mkArgs "trace.tar.zst" "cache" "out" 1000 0 None 256000 None None None true.
Definition sample_schedule : Schedule :=
  mkSchedule (λ step, step) (λ step, if (step =? 3)%nat then [WriterNext] else []) (λ i, Z.of_nat (Nat.min i 2)) 1 (λ _, 2) (λ _, 3) (λ _, Some 16).
Definition sample_inputs : ReplayInputs :=
  mkReplayInputs (Ok []) 8 42 [] 5 0 sample_schedule 10 (Some 1) (Some 2) (Some 3)
    [mkWake false (Some 2) 1 1; mkWake true (Some 4) 3 1].
Definition empty_world : ReplayWorld := mkReplayWorld ∅ ∅ None 0 0 [].

Lemma replay_reports_witness :
  let _ := sum_hasher in let _ : FxHasher := sample_hash in
  ∃ w' t config, replay (λ _, Ok (Ok <$> sample_entries)) parse_digits ram_open ∅ (λ _, 9) sample_args sample_inputs empty_world = Done (w', Ok ())
    ∧ reported sample_args sample_inputs t config (rw_files w').
Proof.
  intros hash fx. assert (Hh : @HasherOk hash) by apply sum_hasher_ok.
  assert (Hload : load_requests_from (λ _, Ok (Ok <$> sample_entries)) "trace.tar.zst" (Ok []) None = Done (Ok (mkTraceRequests [sample_request] [0; 0; 1; 0; 0; 0] 0))) by (by vm_compute).
  assert (Hf : replay_faultless (λ _, Ok (Ok <$> sample_entries)) parse_digits ram_open ∅ sample_args sample_inputs empty_world).
  { constructor.
    - reflexivity.
    - apply not_elem_of_empty.
    - repeat constructor.
    - eexists. exact Hload.
    - assert (Ho : match open_cache parse_digits ram_open ∅ (replay_builder sample_args) (ri_allocations sample_inputs) with Done (Ok _) => true | _ => false end = true) by (by vm_compute).
      destruct (open_cache parse_digits ram_open ∅ _ _) as [[x|e]|]; [by exists x|discriminate Ho..].
    - by repeat constructor.
    - split_and!; [done|done|done|by repeat constructor]. }
  destruct (replay_reports (λ _, Ok (Ok <$> sample_entries)) parse_digits ram_open ∅ (λ _, 9) sample_args sample_inputs empty_world) as (w' & r & Hrun & _ & Hok & Hgood).
  - unfold builder_ok. cbn. split_and!; try done; by intros v.
  - done.
  - apply ram_opens.
  - intros cap f [= <-]. apply zero_header_mismatch.
  - intros t _ r _. by vm_compute.
  - intros t Ht r1 r2. cbn [input trace_seconds ri_file sample_args sample_inputs] in Ht. rewrite Hload in Ht. injection Ht as <-.
    by intros ->%list_elem_of_singleton ->%list_elem_of_singleton.
  - intros t Ht. cbn [input trace_seconds ri_file sample_args sample_inputs] in Ht. rewrite Hload in Ht. injection Ht as <-. constructor; cbn.
    + lia.
    + apply Forall_singleton. intros i Hi. cbn. lia.
    + intros [|i] r capacity; [|done]. intros [= <-] [= <-]. by vm_compute.
    + intros step. destruct (step =? 3)%nat; by repeat constructor.
  - intros t Ht. cbn [input trace_seconds ri_file sample_args sample_inputs] in Ht. rewrite Hload in Ht. injection Ht as <-. split; cbn; [lia|].
    by intros r ->%list_elem_of_singleton.
  - done.
  - done.
  - done.
  - specialize (Hgood Hf). subst r. destruct (Hok eq_refl) as (t & config & c & _ & _ & Hrep). exists w', t, config. split; [exact Hrun|exact Hrep].
Defined.
