(* ===== verification/PendingFetches.v ===== *)
(** * Shared fetches ([feuer/src/cache/pending_fetches.rs], [cache.rs])

    Concurrent misses of a key with the same error type share one fetch.  A
    registry maps the key and type to a weak reference; the callers own the fetch,
    whose future is set once and may be driven by any of them.  When the last one
    lets go the fetch is canceled; its [Drop] unregisters it, but only once it gets the
    registry's lock, and until then the registry names a dead fetch. *)

From S2P Require Import Prelude.

(** [FetchKey]: the object key and the identity of the error type. *)
Definition FetchKey : Type := Z * Z.

(** The future of a fetch: not created, created by a caller, or resolved. *)
Inductive FetchFuture (R : Type) := Unset | Pending (creator : nat) | Ready (creator : nat) (result : R).
Arguments Unset {R}.
Arguments Pending {R} _.
Arguments Ready {R} _ _.

(** [PendingFetch] *)
Record PendingFetch (R : Type) := mkPendingFetch { fetch_key : FetchKey; fetch_result : FetchFuture R }.
Arguments mkPendingFetch {R} _ _.
Arguments fetch_key {R} _.
Arguments fetch_result {R} _.

(** A caller of [get_or_fetch_by_hash] holds its fetch until it has the result, has
    unregistered the fetch and dropped it. *)
Inductive FetchCaller (R : Type) := Holding (id : Z) | Leaving (id : Z) (result : R) | Finished (id : Z) (result : R).
Arguments Holding {R} _.
Arguments Leaving {R} _ _.
Arguments Finished {R} _ _.
Definition holds {R} (s : FetchCaller R) : option Z := match s with Holding id | Leaving id _ => Some id | Finished _ _ => None end.

(** The registry, every fetch created so far, the callers, and the fetches whose
    strong count is zero while their [Drop] has not taken the lock yet. *)
Record FetchWorld (R : Type) := mkFetchWorld {
  registry : gmap FetchKey Z;
  fetches : gmap Z (PendingFetch R);
  next_fetch : Z;
  fetch_callers : gmap nat (FetchCaller R);
  dying : gset Z
}.
Arguments mkFetchWorld {R} _ _ _ _ _.
Arguments registry {R} _.
Arguments fetches {R} _.
Arguments next_fetch {R} _.
Arguments fetch_callers {R} _.
Arguments dying {R} _.

Section pending.
Context {R : Type}.
Implicit Types w : FetchWorld R.

(** [Weak::upgrade] succeeds while a caller holds the fetch. *)
Definition held_by_some (callers : gmap nat (FetchCaller R)) (id : Z) : Prop := map_Exists (λ _ s, holds s = Some id) callers.
Global Instance held_by_some_dec callers id : Decision (held_by_some callers id).
Proof. unfold held_by_some. apply _. Defined.

(** [PendingFetch::join] *)
Definition join_fetch (w : FetchWorld R) (c : nat) (key : FetchKey) : FetchWorld R :=
  let fresh :=
    mkFetchWorld (<[key := next_fetch w]> (registry w)) (<[next_fetch w := mkPendingFetch key Unset]> (fetches w))
      (next_fetch w + 1) (<[c := Holding (next_fetch w)]> (fetch_callers w)) (dying w) in
  match registry w !! key with
  | Some id =>
      if decide (held_by_some (fetch_callers w) id)
      then mkFetchWorld (registry w) (fetches w) (next_fetch w) (<[c := Holding id]> (fetch_callers w)) (dying w)
      else fresh
  | None => fresh
  end.

(** [PendingFetch::remove_from_registry]; the registered [Weak] keeps the memory of its
    fetch, so equal addresses are the same fetch. *)
Definition remove_from_registry (reg : gmap FetchKey Z) (key : FetchKey) (id : Z) : gmap FetchKey Z :=
  if decide (reg !! key = Some id) then delete key reg else reg.

Definition set_future (w : FetchWorld R) (id : Z) (key : FetchKey) (f : FetchFuture R) : FetchWorld R :=
  mkFetchWorld (registry w) (<[id := mkPendingFetch key f]> (fetches w)) (next_fetch w) (fetch_callers w) (dying w).

(** A caller lets go of its fetch, by returning ([next] is its new state) or by
    being dropped.  The last one brings the strong count to zero. *)
Definition let_go (w : FetchWorld R) (c : nat) (id : Z) (next : option (FetchCaller R)) : FetchWorld R :=
  let callers := match next with Some s => <[c := s]> (fetch_callers w) | None => delete c (fetch_callers w) end in
  mkFetchWorld (registry w) (fetches w) (next_fetch w) callers
    (if decide (held_by_some callers id) then dying w else dying w ∪ {[id]}).

(** [impl Drop for PendingFetch], when it gets the lock. *)
Definition drop_fetch (w : FetchWorld R) (id : Z) (key : FetchKey) : FetchWorld R :=
  mkFetchWorld (remove_from_registry (registry w) key id) (fetches w) (next_fetch w) (fetch_callers w) (dying w ∖ {[id]}).

(** A caller that has the result unregisters the fetch. *)
Definition finish_fetch (w : FetchWorld R) (c : nat) (id : Z) (key : FetchKey) (r : R) : FetchWorld R :=
  mkFetchWorld (remove_from_registry (registry w) key id) (fetches w) (next_fetch w) (<[c := Leaving id r]> (fetch_callers w)) (dying w).

Inductive fetch_step : FetchWorld R → FetchWorld R → Prop :=
  | fetch_join w c key : fetch_callers w !! c = None → fetch_step w (join_fetch w c key)
  | fetch_create w c id f :
      fetch_callers w !! c = Some (Holding id) → fetches w !! id = Some f → fetch_result f = Unset →
      fetch_step w (set_future w id (fetch_key f) (Pending c))
  | fetch_resolve w c id f creator r :
      fetch_callers w !! c = Some (Holding id) → fetches w !! id = Some f → fetch_result f = Pending creator →
      fetch_step w (set_future w id (fetch_key f) (Ready creator r))
  | fetch_finish w c id f creator r :
      fetch_callers w !! c = Some (Holding id) → fetches w !! id = Some f → fetch_result f = Ready creator r →
      fetch_step w (finish_fetch w c id (fetch_key f) r)
  | fetch_leave w c id r : fetch_callers w !! c = Some (Leaving id r) → fetch_step w (let_go w c id (Some (Finished id r)))
  | fetch_cancel w c id : fetch_callers w !! c = Some (Holding id) → fetch_step w (let_go w c id None)
  | fetch_drop w id f : id ∈ dying w → fetches w !! id = Some f → fetch_step w (drop_fetch w id (fetch_key f)).

Definition new_fetch_world : FetchWorld R := mkFetchWorld ∅ ∅ 0 ∅ ∅.

(** Some caller has the result of the fetch. *)
Definition delivered (w : FetchWorld R) (id : Z) : Prop :=
  ∃ c r, fetch_callers w !! c = Some (Leaving id r) ∨ fetch_callers w !! c = Some (Finished id r).

Record fetches_ok (w : FetchWorld R) : Prop := mkFetchesOk {
  fo_next : ∀ id f, fetches w !! id = Some f → id < next_fetch w;
  fo_registry : ∀ key id, registry w !! key = Some id →
    (held_by_some (fetch_callers w) id ∨ id ∈ dying w) ∧ ∃ f, fetches w !! id = Some f ∧ fetch_key f = key;
  fo_callers : ∀ c id, fetch_callers w !! c = Some (Holding id) →
    ∃ f, fetches w !! id = Some f ∧ (delivered w id ∨ registry w !! fetch_key f = Some id);
  fo_results : ∀ c id r, fetch_callers w !! c = Some (Leaving id r) ∨ fetch_callers w !! c = Some (Finished id r) →
    ∃ f creator, fetches w !! id = Some f ∧ fetch_result f = Ready creator r;
  fo_dying : ∀ id, id ∈ dying w → ¬ held_by_some (fetch_callers w) id ∧ is_Some (fetches w !! id)
}.

Lemma held_intro (callers : gmap nat (FetchCaller R)) c s id : callers !! c = Some s → holds s = Some id → held_by_some callers id.
Proof. intros Hc Hs. by exists c, s. Qed.

(** A change of one caller. *)
Lemma held_insert (callers : gmap nat (FetchCaller R)) c s id :
  held_by_some (<[c := s]> callers) id → holds s = Some id ∨ held_by_some callers id.
Proof. intros (c' & s' & [[<- <-]|[Hne Hc]]%lookup_insert_Some & Hs); [by left|right; by exists c', s']. Qed.
Lemma held_delete (callers : gmap nat (FetchCaller R)) c id : held_by_some (delete c callers) id → held_by_some callers id.
Proof. intros (c' & s' & [Hne Hc]%lookup_delete_Some & Hs). by exists c', s'. Qed.
Lemma held_kept (callers callers' : gmap nat (FetchCaller R)) c id :
  (∀ c', c' ≠ c → callers' !! c' = callers !! c') →
  (∀ s, callers !! c = Some s → holds s = Some id → ∃ s', callers' !! c = Some s' ∧ holds s' = Some id) → held_by_some callers id → held_by_some callers' id.
Proof.
  intros Hsame Hc (c' & s & Hc' & Hs). destruct (decide (c' = c)) as [->|Hne]; [destruct (Hc s Hc' Hs) as (s' & ? & ?); by exists c, s'|].
  exists c', s. by rewrite Hsame.
Qed.

(** Unregistering touches only an entry that names this very fetch. *)
Lemma remove_lookup (reg : gmap FetchKey Z) key id k id' :
  remove_from_registry reg key id !! k = Some id' ↔ reg !! k = Some id' ∧ ¬ (k = key ∧ id' = id).
Proof.
  unfold remove_from_registry. case_decide as Hk.
  - rewrite lookup_delete_Some. split; [intros [Hne Hl]; split; [done|naive_solver]|]. intros [Hl Hno]. split; [|done]. intros <-. rewrite Hk in Hl. injection Hl as <-. tauto.
  - split; [|tauto]. intros Hl. split; [done|]. intros [-> ->]. done.
Qed.

Lemma join_shared_ok w c key id :
  fetches_ok w → fetch_callers w !! c = None → registry w !! key = Some id → held_by_some (fetch_callers w) id →
  fetches_ok (mkFetchWorld (registry w) (fetches w) (next_fetch w) (<[c := Holding id]> (fetch_callers w)) (dying w)).
Proof.
  intros [Hn Hr Hc Hf Hd] Hfree Hk Hheld.
  assert (Hsub : ∀ c' s, fetch_callers w !! c' = Some s → <[c := Holding id]> (fetch_callers w) !! c' = Some s).
  { intros c' s Hc'. rewrite lookup_insert_ne; [done|]. intros ->. congruence. }
  assert (Hmono : ∀ id', held_by_some (fetch_callers w) id' → held_by_some (<[c := Holding id]> (fetch_callers w)) id') by (intros id' (c' & s & Hc' & Hs); exists c', s; split; [by apply Hsub|done]).
  constructor; cbn [registry fetches next_fetch fetch_callers dying]; try done.
  - intros k id' Hk'. destruct (Hr k id' Hk') as [[Hh|Hh] ?]; (split; [|done]); [left; by apply Hmono|by right].
  - intros c' id' [[<- [= <-]]|[_ Hc']]%lookup_insert_Some.
    + destruct (Hr key id Hk) as [_ (f & Hid & <-)]. exists f. split; [done|by right].
    + destruct (Hc c' id' Hc') as (f & Hid & [(c0 & r0 & Hdel)|?]); exists f; (split; [done|]); [left|by right]. exists c0, r0. destruct Hdel; [left|right]; by apply Hsub.
  - intros c' id' r [[[<- ?]|[_ Hc']]%lookup_insert_Some|[[<- ?]|[_ Hc']]%lookup_insert_Some]; try done; eapply (Hf c'); [by left|by right].
  - intros id' Hid'. destruct (Hd id' Hid') as [Hno ?]. split; [|done]. intros [[= <-]|?]%held_insert; by apply Hno.
Qed.

Lemma join_fresh_ok w c key :
  fetches_ok w → fetch_callers w !! c = None → (∀ id, registry w !! key = Some id → ¬ held_by_some (fetch_callers w) id) →
  fetches_ok (mkFetchWorld (<[key := next_fetch w]> (registry w)) (<[next_fetch w := mkPendingFetch key Unset]> (fetches w))
    (next_fetch w + 1) (<[c := Holding (next_fetch w)]> (fetch_callers w)) (dying w)).
Proof.
  intros [Hn Hr Hc Hf Hd] Hfree Hno.
  assert (Hnew : ∀ id f, fetches w !! id = Some f → <[next_fetch w := mkPendingFetch key Unset]> (fetches w) !! id = Some f).
  { intros id f Hid. rewrite lookup_insert_ne; [done|]. specialize (Hn id f Hid). lia. }
  assert (Hsub : ∀ c' s, fetch_callers w !! c' = Some s → <[c := Holding (next_fetch w)]> (fetch_callers w) !! c' = Some s).
  { intros c' s Hc'. rewrite lookup_insert_ne; [done|]. intros ->. congruence. }
  constructor; cbn [registry fetches next_fetch fetch_callers dying].
  - intros id f [[<- _]|[_ Hid]]%lookup_insert_Some; [lia|]. specialize (Hn id f Hid). lia.
  - intros k id [[<- <-]|[Hne Hk]]%lookup_insert_Some.
    + split; [left; by eapply held_intro; [apply lookup_insert_eq|]|]. eexists. by rewrite lookup_insert_eq.
    + destruct (Hr k id Hk) as [Hor (f & Hid & Hfk)]. split; [|exists f; split; [by apply Hnew|done]].
      destruct Hor as [(c' & s & Hc' & Hs)|?]; [left; by exists c', s; split; [apply Hsub|]|by right].
  - intros c' id [[<- [= <-]]|[_ Hc']]%lookup_insert_Some.
    + eexists. rewrite lookup_insert_eq. split; [done|]. right. apply lookup_insert_eq.
    + destruct (Hc c' id Hc') as (f & Hid & [(c0 & r0 & Hdel)|Hk]); exists f; (split; [by apply Hnew|]); [left; exists c0, r0; destruct Hdel; [left|right]; by apply Hsub|right].
      rewrite lookup_insert_ne; [done|]. intros Heq. rewrite <-Heq in Hk. apply (Hno id Hk). by eapply held_intro.
  - intros c' id r [[[<- ?]|[_ Hc']]%lookup_insert_Some|[[<- ?]|[_ Hc']]%lookup_insert_Some]; try done;
      (destruct (Hf c' id r) as (f & cr & Hid & Hres); [by auto|]; exists f, cr; split; [by apply Hnew|done]).
  - intros id Hid. destruct (Hd id Hid) as [Hnh [f Hid']]. split; [|exists f; by apply Hnew]. intros [[= <-]|?]%held_insert; [|done]. specialize (Hn _ _ Hid'). lia.
Qed.

Lemma join_fetch_ok w c key : fetches_ok w → fetch_callers w !! c = None → fetches_ok (join_fetch w c key).
Proof.
  intros Hok Hfree. unfold join_fetch. destruct (registry w !! key) as [id|] eqn:Hk; [|apply join_fresh_ok; [done|done|congruence]].
  case_decide as Hheld; [by eapply join_shared_ok|]. apply join_fresh_ok; [done|done|congruence].
Qed.

Lemma set_future_ok w id f fut :
  fetches_ok w → fetches w !! id = Some f → (∀ creator r, fetch_result f ≠ Ready creator r) → fetches_ok (set_future w id (fetch_key f) fut).
Proof.
  intros [Hn Hr Hc Hf Hd] Hid Hnot. constructor; cbn [set_future registry fetches next_fetch fetch_callers dying].
  - intros id' f' [[<- _]|[_ Hid']]%lookup_insert_Some; by eapply Hn.
  - intros k id' Hk. destruct (Hr k id' Hk) as [Hh (f' & Hf' & Hfk)]. split; [done|]. destruct (decide (id' = id)) as [->|Hne].
    + eexists. rewrite lookup_insert_eq. split; [done|]. cbn. congruence.
    + exists f'. by rewrite lookup_insert_ne.
  - intros c id' Hc'. destruct (Hc c id' Hc') as (f' & Hf' & Hor). destruct (decide (id' = id)) as [->|Hne]; [|exists f'; by rewrite lookup_insert_ne].
    eexists. rewrite lookup_insert_eq. split; [done|]. cbn. rewrite Hid in Hf'. by injection Hf' as <-.
  - intros c id' r Hc'. destruct (Hf c id' r Hc') as (f' & cr & Hf' & Hres). destruct (decide (id' = id)) as [->|Hne]; [|exists f', cr; by rewrite lookup_insert_ne].
    rewrite Hid in Hf'. injection Hf' as <-. by destruct (Hnot cr r).
  - intros id' Hid'. destruct (Hd id' Hid') as [? ?]. split; [done|]. apply lookup_insert_is_Some. destruct (decide (id = id')); [by left|by right].
Qed.

Lemma finish_fetch_ok w c id f creator r :
  fetches_ok w → fetch_callers w !! c = Some (Holding id) → fetches w !! id = Some f → fetch_result f = Ready creator r →
  fetches_ok (finish_fetch w c id (fetch_key f) r).
Proof.
  intros [Hn Hr Hc Hf Hd] Hhold Hid Hres.
  assert (Hkeep : ∀ id', held_by_some (fetch_callers w) id' ↔ held_by_some (<[c := Leaving id r]> (fetch_callers w)) id').
  { intros id'. split; [apply (held_kept _ _ c)|].
    - intros c' Hne. by rewrite lookup_insert_ne.
    - intros s Hs [= Hids]. rewrite Hhold in Hs. injection Hs as <-. injection Hids as <-. eexists. by rewrite lookup_insert_eq.
    - intros [[= <-]|?]%held_insert; [by eapply held_intro|done]. }
  constructor; cbn [finish_fetch registry fetches next_fetch fetch_callers dying].
  - done.
  - intros k id' [Hk _]%remove_lookup. rewrite <-Hkeep. by apply Hr.
  - intros c' id' [[_ [=]]|[Hne Hc']]%lookup_insert_Some. destruct (Hc c' id' Hc') as (f' & Hf' & Hor). exists f'. split; [done|].
    destruct (decide (id' = id)) as [->|Hni]; [left; exists c, r; left; apply lookup_insert_eq|].
    destruct Hor as [(c0 & r0 & Hdel)|Hk]; [left; exists c0, r0|right; apply remove_lookup; naive_solver].
    cbn [finish_fetch fetch_callers]. rewrite lookup_insert_ne; [done|]. intros <-. rewrite Hhold in Hdel. by destruct Hdel.
  - intros c' id' r' Hc'. destruct (decide (c' = c)) as [->|Hne]; [|rewrite lookup_insert_ne in Hc' by done; by apply (Hf c')].
    rewrite lookup_insert_eq in Hc'. destruct Hc' as [[= <- <-]|[=]]. by exists f, creator.
  - intros id'. rewrite <-Hkeep. apply Hd.
Qed.

(** Letting go: a caller that holds the fetch stops holding it, with or without its result. *)
Lemma let_go_ok w c s id next :
  fetches_ok w → fetch_callers w !! c = Some s → holds s = Some id →
  match next with Some s' => ∃ r, s = Leaving id r ∧ s' = Finished id r | None => s = Holding id end → fetches_ok (let_go w c id next).
Proof.
  intros [Hn Hr Hc Hf Hd] Hcs Hs Hnext. unfold let_go. set (callers := match next with Some s => _ | None => _ end).
  assert (Hother : ∀ c', c' ≠ c → callers !! c' = fetch_callers w !! c').
  { intros c' Hne. unfold callers. destruct next; [by rewrite lookup_insert_ne|by rewrite lookup_delete_ne]. }
  assert (Hfewer : ∀ id', held_by_some callers id' → held_by_some (fetch_callers w) id').
  { intros id'. unfold callers. destruct next as [s'|]; [|apply held_delete]. destruct Hnext as (r & _ & ->). by intros [|?]%held_insert. }
  assert (Hmore : ∀ id', id' ≠ id → held_by_some (fetch_callers w) id' → held_by_some callers id').
  { intros id' Hne. apply (held_kept _ _ c id' Hother). intros s0 Hs0 Hh. congruence. }
  assert (Hcase : callers !! c = match next with Some s' => Some s' | None => None end) by (unfold callers; destruct next; [apply lookup_insert_eq|apply lookup_delete_eq]).
  assert (Hid : is_Some (fetches w !! id)).
  { destruct next; [destruct Hnext as (r & -> & _); destruct (Hf c id r (or_introl Hcs)) as (g & cr & Hg & _); by exists g|subst s; destruct (Hc c id Hcs) as (g & Hg & _); by exists g]. }
  assert (Hdel : ∀ id', delivered w id' → ∃ c' r', callers !! c' = Some (Leaving id' r') ∨ callers !! c' = Some (Finished id' r')).
  { intros id' (c' & r' & Hor). destruct (decide (c' = c)) as [->|Hne]; [|exists c', r'; by rewrite Hother]. exists c, r'. rewrite Hcase, Hcs in *.
    destruct next as [s'|]; [destruct Hnext as (r & -> & ->); destruct Hor as [[= <- <-]|]; [by right|done]|subst s; by destruct Hor]. }
  constructor; cbn [registry fetches next_fetch fetch_callers dying]; fold callers.
  - done.
  - intros k id' Hk. destruct (Hr k id' Hk) as [Hor ?]. split; [|done]. destruct (decide (id' = id)) as [->|Hne].
    + case_decide; [by left|right]. apply elem_of_union_r. by apply elem_of_singleton.
    + destruct Hor as [Hh|?]; [left; by apply Hmore|right]. case_decide; [done|]. by apply elem_of_union_l.
  - intros c' id' Hc'. destruct (decide (c' = c)) as [->|Hne]; [rewrite Hcase in Hc'; destruct next as [s'|]; [destruct Hnext as (r & _ & ->); done|done]|].
    rewrite Hother in Hc' by done. destruct (Hc c' id' Hc') as (f & Hf' & [Hdv|?]); exists f; (split; [done|]); [left; by apply Hdel|by right].
  - intros c' id' r' Hc'. destruct (decide (c' = c)) as [->|Hne]; [|rewrite Hother in Hc' by done; by apply (Hf c')]. rewrite Hcase in Hc'.
    destruct next as [s'|]; [|by destruct Hc']. destruct Hnext as (r & -> & ->). destruct Hc' as [|[= <- <-]]; [done|]. apply (Hf c). by left.
  - intros id' Hid'. destruct (decide (id' ∈ dying w)) as [Hin|Hout].
    + destruct (Hd id' Hin) as [Hno ?]. split; [by intros ?%Hfewer|done].
    + case_decide as Hh; [done|]. apply elem_of_union in Hid' as [?| ->%elem_of_singleton]; [done|]. by split.
Qed.

Lemma drop_fetch_ok w id f : fetches_ok w → id ∈ dying w → fetches w !! id = Some f → fetches_ok (drop_fetch w id (fetch_key f)).
Proof.
  intros [Hn Hr Hc Hf Hd] Hdy Hid. destruct (Hd id Hdy) as [Hno _]. constructor; cbn [drop_fetch registry fetches next_fetch fetch_callers dying]; try done.
  - intros k id' [Hk Hni]%remove_lookup. destruct (Hr k id' Hk) as [Hor (f' & Hf' & Hfk)]. split; [|by exists f']. destruct Hor as [?|Hd']; [by left|right].
    apply elem_of_difference. split; [done|]. intros ->%elem_of_singleton. apply Hni. rewrite Hid in Hf'. by injection Hf' as <-.
  - intros c id' Hc'. destruct (Hc c id' Hc') as (f' & Hf' & [?|Hk]); exists f'; (split; [done|]); [by left|right].
    apply remove_lookup. split; [done|]. intros [_ ->]. apply Hno. by eapply held_intro.
  - intros id' [Hid' _]%elem_of_difference. by apply Hd.
Qed.

Lemma fetch_step_ok w w' : fetch_step w w' → fetches_ok w → fetches_ok w'.
Proof.
  destruct 1 as [w c key Hc|w c id f Hc Hid Hu|w c id f cr r Hc Hid Hu|w c id f cr r Hc Hid Hu|w c id r Hc|w c id Hc|w id f Hd Hid]; intros Hok.
  - by apply join_fetch_ok.
  - apply set_future_ok; [done|done|]. intros cr r. by rewrite Hu.
  - apply set_future_ok; [done|done|]. intros cr' r'. by rewrite Hu.
  - by eapply finish_fetch_ok.
  - eapply let_go_ok; [done|exact Hc|done|]. by exists r.
  - by eapply let_go_ok.
  - by apply drop_fetch_ok.
Qed.

Lemma fetches_reachable w : rtc fetch_step new_fetch_world w → fetches_ok w.
Proof.
  intros Hr. assert (Hinit : fetches_ok new_fetch_world).
  { constructor; cbn; intros *; rewrite ?lookup_empty; try done; by intros [?|?]. }
  induction Hr as [|w1 w2 w3 Hs _ IH]; [done|]. by apply IH, (fetch_step_ok w1).
Qed.
End pending.

(** C12: concurrent misses share one fetch.  In every interleaving, two callers of the
    same key and error type hold the same fetch, resolved or not, unless some caller
    already has the result of one of their fetches.  A caller who joins gets the
    registered fetch while anyone holds it and otherwise a new one, never a dead one.
    The registry names a fetch only under its own key and only while a caller holds it
    or its [Drop] has yet to run, so nothing leaks and a newer fetch is never
    unregistered by an older one; and each caller returns the single result of the
    fetch it held. *)
Theorem concurrent_misses_share_fetch {R} (w : FetchWorld R) :
  rtc fetch_step new_fetch_world w →
  (∀ c c' id id' f f', fetch_callers w !! c = Some (Holding id) → fetch_callers w !! c' = Some (Holding id') →
     fetches w !! id = Some f → fetches w !! id' = Some f' → fetch_key f = fetch_key f' → id = id' ∨ delivered w id ∨ delivered w id')
  ∧ (∀ c key, fetch_callers w !! c = None → ∃ id, let w' := join_fetch w c key in
       fetch_callers w' !! c = Some (Holding id) ∧ registry w' !! key = Some id ∧ (id ∉ dying w)
       ∧ (∀ id0, registry w !! key = Some id0 → held_by_some (fetch_callers w) id0 → id = id0)
       ∧ ((∀ id0, registry w !! key = Some id0 → ¬ held_by_some (fetch_callers w) id0) →
          fetches w !! id = None ∧ fetches w' !! id = Some (mkPendingFetch key Unset)))
  ∧ (∀ key id, registry w !! key = Some id →
       (held_by_some (fetch_callers w) id ∨ id ∈ dying w) ∧ ∃ f, fetches w !! id = Some f ∧ fetch_key f = key)
  ∧ (∀ c id r, fetch_callers w !! c = Some (Finished id r) → ∃ f creator, fetches w !! id = Some f ∧ fetch_result f = Ready creator r).
Proof.
  intros Hr. assert (Hok := fetches_reachable w Hr). split_and!; [| |apply Hok|].
  - intros c c' id id' f f' Hc Hc' Hf Hf' Hkey.
    destruct (fo_callers _ Hok c id Hc) as (g & Hg & Hor). rewrite Hf in Hg. injection Hg as <-. destruct (fo_callers _ Hok c' id' Hc') as (g' & Hg' & Hor'). rewrite Hf' in Hg'. injection Hg' as <-.
    destruct Hor as [|Hreg]; [auto|]. destruct Hor' as [|Hreg']; [auto|]. rewrite Hkey in Hreg. left. congruence.
  - intros c key Hc. assert (Hnd : fetches w !! next_fetch w = None) by (apply eq_None_not_Some; intros [f Hf]; pose proof (fo_next _ Hok _ _ Hf); lia).
    unfold join_fetch. destruct (registry w !! key) as [id|] eqn:Hk; [destruct (decide (held_by_some (fetch_callers w) id)) as [Hh|Hh]|].
    1:{ exists id. cbn. rewrite lookup_insert_eq. split_and!; [done|done|by intros [? _]%(fo_dying _ Hok)|by intros id0 [= <-]|]. intros Hno. by destruct (Hno id). }
    all: exists (next_fetch w); cbn; rewrite !lookup_insert_eq; (split_and!; [done|done| |naive_solver|done]); intros [_ [f Hf]]%(fo_dying _ Hok); congruence.
  - intros c id r Hc. apply (fo_results _ Hok c). by right.
Qed.

(** Two callers share a fetch; a third comes after they were dropped, before the
    fetch's [Drop] took the lock, and gets a new one. *)
Lemma concurrent_misses_share_fetch_witness :
  let w : FetchWorld Z := join_fetch (join_fetch new_fetch_world 0 (7, 1)) 1 (7, 1) in
  let w' := let_go (let_go w 0 0 None) 1 0 None in
  fetch_callers w !! 0%nat = Some (Holding 0) ∧ fetch_callers w !! 1%nat = Some (Holding 0)
  ∧ registry w' !! (7, 1) = Some 0 ∧ ∃ id, fetch_callers (join_fetch w' 2 (7, 1)) !! 2%nat = Some (Holding id) ∧ id ≠ 0.
Proof.
  intros w w'. split_and!; [reflexivity|reflexivity|reflexivity|]. destruct (concurrent_misses_share_fetch w') as (_ & Hjoin & _).
  - eapply rtc_l; [by apply (fetch_join _ 0 (7, 1))|]. eapply rtc_l; [by apply (fetch_join _ 1 (7, 1))|].
    eapply rtc_l; [by apply (fetch_cancel _ 0 0)|]. apply rtc_once. by apply (fetch_cancel _ 1 0).
  - destruct (Hjoin 2%nat (7, 1) eq_refl) as (id & Hc & _ & Hlive & _). exists id. split; [exact Hc|]. intros ->. apply Hlive. vm_compute. reflexivity.
Defined.
